(* ===== verification/_CoqProject ===== *)
-Q . S2P
Prelude.v
Codec.v
Base32.v
Keys.v
KeyTheory.v
KeyOrder.v
Serde.v
VecMap.v
Roaring.v
Kv.v
KvModel.v
Batch.v
Commit.v
CommitTheory.v
Read.v
Store.v
ClearLoop.v
Bitset.v
Utf8.v
Json.v
JsonTheory.v
JsonPrint.v
JsonText.v
JmapEnums.v
JmapIds.v
JmapIdsTheory.v
JmapDate.v
ChangeLog.v
ChangeLogTheory.v
Text.v
Expr.v
ExprTokenizer.v
ExprTheory.v
ExprText.v
Words.v
Query.v
FilterTheory.v
SortTheory.v
AclTheory.v
Blob.v
BlobTheory.v
Directory.v
DirectoryCodec.v
DirectoryTheory.v
DirectoryManage.v
DirectoryUpdate.v
DirectoryChange.v
DirectoryInvariant.v
Smtp.v
SmtpSpool.v
SmtpDsn.v
SmtpSession.v
SmtpDelivery.v
SmtpInbound.v
SmtpLogic.v
SmtpStoreTheory.v
SmtpPartyTheory.v
SmtpSessionTheory.v
SmtpTranscript.v
SmtpDeliveryTheory.v
SmtpInboundTheory.v
SmtpTotal.v
SmtpQueueTheory.v
SmtpSchedule.v
SmtpLiveness.v
SmtpSystem.v
SmtpExample.v
SmtpProperties.v
SmtpFindings.v
