(* ===== verification/Prelude.v ===== *)
(** * A verification library for the Stalwart mail server

    The server is a set of crates: a storage layer over a key-value engine
    ([store]), a directory of accounts kept in it ([directory]), the protocol
    parsers ([jmap-proto], [imap-proto]), an SMTP server with its outbound
    queue ([smtp]), a configuration language ([common]), and the servers that
    put them together.  This library models the parts on which the rest
    depends -- what is written to the store and read back, who is who, what
    becomes of a message that was accepted -- and proves them correct.

    ** Conventions

    A string is the list of its bytes, a [w]-bit integer is a [Z] with the
    wrap-around written out ([wrap], [uint_ok], [i64_of_u64]), an index is a
    [nat].  A fallible function returns [result]; a panic is a value of its
    own ([None], or [Panic]).  Code that is not part of the sources is a class
    with laws that state its documented behaviour, and each class has an
    instance that the examples run on.

    ** Files

    This file: byte strings and their order, big-endian integers, [result],
    the tactics and the hint databases shared by the others.

    Utilities ([crates/utils]).
    - [Codec]: LEB128 numbers, [utils/src/codec/leb128.rs].
    - [Base32]: [utils/src/codec/base32_custom.rs].
    - [VecMap], [Bitset]: [utils/src/map].
    - [Text], [Utf8]: what the sources use of the standard library's
      conversions between numbers, characters and text.

    Storage ([crates/store]).
    - [Keys], [KeyTheory], [KeyOrder]: the keys of every class of entries
      ([write/key.rs], [write/hash.rs]), their injectivity and their order.
    - [Serde]: stored values ([write/mod.rs]).
    - [Roaring], [Kv], [KvModel]: the interfaces of the bitmap library and of
      RocksDB, with an engine that satisfies the laws.
    - [Batch]: batches and document ids ([write/batch.rs], [write/mod.rs]).
    - [Commit], [CommitTheory]: the write path of the RocksDB backend under
      concurrent writers ([backend/rocksdb/write.rs]).
    - [Read]: its read path and purging ([backend/rocksdb/read.rs]).
    - [Store]: [dispatch/store.rs]; [StoreWrite] and [StoreWriteLaws] are what
      clients rely on, discharged by the write path.
    - [ClearLoop], [Blob], [BlobTheory]: references to blobs and the removal
      of unused ones ([write/blob.rs]).
    - [ChangeLog], [ChangeLogTheory]: [write/log.rs], [query/log.rs].
    - [Words]: the word tokenizer of [nlp/src/tokenizers/word.rs].
    - [Query], [FilterTheory], [SortTheory], [AclTheory]: [store/src/query].

    Protocol ([crates/jmap-proto]).
    - [Json], [JsonTheory], [JsonPrint], [JsonText]: the JSON pull parser.
    - [JmapEnums], [JmapIds], [JmapIdsTheory], [JmapDate]: rights, types,
      keywords, ids, states, blob ids and dates.

    Configuration ([crates/common/src/expr]).
    - [Expr], [ExprTokenizer]: values, parser, stack machine, tokenizer.
    - [ExprTheory], [ExprText]: the compiler is correct on trees and on texts.

    Directory ([crates/directory/src/backend/internal]).
    - [Directory]: records, lookups, management.
    - [DirectoryCodec], [DirectoryTheory], [DirectoryManage],
      [DirectoryUpdate], [DirectoryChange], [DirectoryInvariant]: the abstract
      directory, what each operation does to it, and its invariant.

    Outbound queue ([crates/smtp]).
    - [Smtp]: messages, schedules, expiry, quotas held ([queue/mod.rs],
      [queue/manager.rs]).
    - [SmtpSpool]: the monad of the queue's tasks and the entries of the queue
      in the store ([queue/spool.rs], [queue/quota.rs]).
    - [SmtpDsn]: notifications ([queue/dsn.rs]).
    - [SmtpSession]: a session with another server and local delivery
      ([outbound/session.rs], [outbound/local.rs]).
    - [SmtpDelivery]: an attempt ([outbound/delivery.rs], [lookup.rs],
      [dane/verify.rs], [mta_sts/verify.rs]) and the manager.
    - [SmtpInbound]: the end of a session that submits a message
      ([inbound/data.rs]).
    - [SmtpLogic], [SmtpTotal]: program logics for that monad: [steady] (the
      store is left alone), [extending], [total].
    - [SmtpStoreTheory], [SmtpPartyTheory], [SmtpSessionTheory],
      [SmtpDeliveryTheory], [SmtpInboundTheory]: what each part does.
    - [SmtpTranscript]: what a session made of each recipient, told by its
      dialogue with the other server.
    - [SmtpQueueTheory]: the invariant of the queue and the attempts, with a
      weakest precondition; [SmtpSchedule], [SmtpLiveness]: which events the
      manager sees, and that expired messages leave.
    - [SmtpSystem]: runs of submissions and attempts refine an abstract queue.
    - [SmtpExample], [SmtpProperties], [SmtpFindings]: an environment to run
      the queue in, the properties with their runs, and behaviours that
      surprise.

    ** What is proved

    - The queue: no message is lost, every message has exactly one event, an
      event is locked by one attempt, a session changes only the recipients of
      its domain and only as the other server replied, messages leave in the
      clear only when nobody asked for TLS or it is switched off, attempts end,
      expired messages leave, and all runs refine the abstract queue
      ([spool_step]), which also keeps the list of the messages that left.
    - Storage: a committed batch acts atomically under any interleaving of
      other writers; keys are injective but for three pairs of entries, and
      ordered; reading bitmaps of ids and tags, filtering by trees whose inner
      conjunctions start with their groups, sorting by a field from a position
      or anchor onwards, and the change log return exactly what they should; a
      purge removes exactly the unused blobs, and of the counters those that
      are zero when it deletes them.
    - Directory: names, e-mails and memberships stay consistent under any
      sequence of requests that list nothing twice and make no account its own
      member; requests are refused with the first error that applies; what
      exactly a deletion takes from the store, including what it takes from
      other accounts.
    - Parsers: with the parsers of strings that keep its contract the JSON
      tokenizer neither panics nor diverges; it reads back every text of a
      sequence of tokens; identifiers and dates are read back.
    - Expressions: a text evaluates to the value of the expression it spells.

    The conditions of each theorem are in the comment before it.
    The files also show, by examples, inputs on which the code does something
    else than it means to; they are stated next to the theorems whose
    hypotheses exclude them.

    ** Bounds and fuel

    Loops that are not structural run on fuel that is a function of the
    input, and running out of it is an outcome of its own that the theorems
    exclude: a JSON parser takes at least a byte for each token, so the length
    of the rest is enough; the tokenizer of expressions the same; the write
    path tries again at most ten times ([MAX_COMMIT_ATTEMPTS]); the manager
    resumes at most as many messages as are on hold.  Theorems on runs of the
    queue have a bound [N] on the number of questions to the environment: the
    ids of new messages are unique up to it, and it is arbitrary.  A batch of
    the queue has at most a million operations, which bounds the quotas of a
    message.

    ** Not modelled

    - The other storage backends and lookups, full-text indexing, stemming and
      the spam classifier: they are calls of services and third-party crates.
    - The IMAP, JMAP, POP3 and ManageSieve servers, the HTTP API, Sieve
      scripts, milters, the dialogue of an inbound SMTP session before a
      message is submitted, and the reports on TLS, DKIM and DMARC: handlers
      around the parts modelled here, which act on them through the
      operations above.
    - Listeners, TLS, ACME, configuration files, start-up and the command line
      client: input and output.
    - The environment of the queue -- the clock, DNS, other servers, mailboxes,
      limiters, values of settings -- is an oracle that answers questions; its
      laws ([EnvOk], [EnvTotal]) bound the numbers and say that ids can be made,
      that retry schedules are not empty and that a random index is in range.
      Attempts of one run are steps one after the other: the store serialises their writes
      ([CommitTheory]), and the lock keeps two attempts off one message.
    - Logging, which does not act on the state. *)

From stdpp Require Import base gmap list sorting strings numbers.
Open Scope Z_scope.

(** ** Scopes, results and errors *)

Declare Scope stalwart_scope.
Delimit Scope stalwart_scope with stalwart.

(** [store::Error]: the error type of the storage crate. *)
Inductive error :=
  | InternalError (msg : string)
  | AssertValueFailed.

#[global] Instance error_eq_dec : EqDecision error.
Proof. solve_decision. Defined.

(** [store::Result<T>] *)
Inductive result (A : Type) :=
  | Ok (a : A)
  | Err (e : error).
Arguments Ok {_} _.
Arguments Err {_} _.

#[global] Instance result_eq_dec `{EqDecision A} : EqDecision (result A).
Proof. solve_decision. Defined.

#[global] Instance result_ret : MRet result := λ _ a, Ok a.
#[global] Instance result_bind : MBind result := λ _ _ f r,
  match r with Ok a => f a | Err e => Err e end.
#[global] Instance result_fmap : FMap result := λ _ _ f r,
  match r with Ok a => Ok (f a) | Err e => Err e end.

(** [Option::ok_or_else] *)
Definition ok_or {A} (e : error) (o : option A) : result A :=
  match o with Some a => Ok a | None => Err e end.

Definition is_ok {A} (r : result A) : Prop := ∃ a, r = Ok a.

Lemma result_bind_ok {A B} (f : A → result B) r b :
  r ≫= f = Ok b ↔ ∃ a, r = Ok a ∧ f a = Ok b.
Proof.
  destruct r as [a|e]; simpl; split.
  - eauto.
  - by intros (? & [= ->] & ?).
  - done.
  - by intros (? & ? & ?).
Qed.

(** ** Machine integers

    A [w]-bit unsigned integer is a [Z] in [0, 2^w); [wrap w] is the
    wrap-around of release-mode Rust arithmetic and of [as] casts. *)

Definition wrap (w z : Z) : Z := z `mod` 2 ^ w.
Definition uint_ok (w z : Z) : Prop := 0 ≤ z < 2 ^ w.

#[global] Instance uint_ok_dec w z : Decision (uint_ok w z).
Proof. unfold uint_ok. apply _. Defined.

Definition U8_MAX : Z := 255.
Definition U32_MAX : Z := 2 ^ 32 - 1.
Definition U64_MAX : Z := 2 ^ 64 - 1.
Definition U32_LEN : nat := 4.
Definition U64_LEN : nat := 8.

(** Two's complement reading of a 64-bit word, the [i64] of the source. *)
Definition i64_of_u64 (z : Z) : Z := if decide (z < 2 ^ 63) then z else z - 2 ^ 64.
Definition i64_ok (z : Z) : Prop := - 2 ^ 63 ≤ z < 2 ^ 63.

Lemma wrap_small w z : uint_ok w z → wrap w z = z.
Proof. intros. by apply Z.mod_small. Qed.

Lemma wrap_ok w z : 0 ≤ w → uint_ok w (wrap w z).
Proof. intros. apply Z.mod_pos_bound. lia. Qed.

Lemma i64_of_u64_wrap z : i64_ok z → i64_of_u64 (wrap 64 z) = z.
Proof.
  unfold i64_ok, i64_of_u64, wrap. intros Hz.
  destruct (decide (0 ≤ z)).
  - rewrite Z.mod_small by lia. rewrite decide_True by lia. done.
  - replace (z `mod` 2 ^ 64) with (z + 2 ^ 64).
    { rewrite decide_False by lia. lia. }
    apply (Z.mod_unique_pos _ _ (-1)); lia.
Qed.

(** ** Bits *)

Lemma testbit_above a n i : 0 ≤ a < 2 ^ n → n ≤ i → Z.testbit a i = false.
Proof.
  intros Ha Hi. destruct (decide (a = 0)) as [->|]; [apply Z.testbit_0_l|].
  apply Z.bits_above_log2; [lia|].
  apply Z.lt_le_trans with n; [|done]. apply Z.log2_lt_pow2; lia.
Qed.

Lemma lor_shiftl_add a b n :
  0 ≤ n → 0 ≤ a < 2 ^ n → Z.lor a (Z.shiftl b n) = a + b * 2 ^ n.
Proof.
  intros Hn Ha. rewrite <-(Z.shiftl_mul_pow2 b n) by done.
  assert (Z.land a (Z.shiftl b n) = 0) as Hland.
  { apply Z.bits_inj'; intros i Hi.
    rewrite Z.land_spec, Z.shiftl_spec, Z.testbit_0_l by done.
    destruct (decide (n ≤ i)).
    - rewrite (testbit_above a n i) by done. done.
    - rewrite (Z.testbit_neg_r b) by lia. apply andb_false_r. }
  rewrite Z.add_nocarry_lxor by done. symmetry. by apply Z.lxor_lor.
Qed.

(** Checking a boolean property of all bytes by evaluation. *)
Lemma byte_forallb (P : Z → bool) :
  forallb P (seqZ 0 256) = true → ∀ b, uint_ok 8 b → P b = true.
Proof.
  intros H b Hb. apply (proj1 (forallb_forall _ _) H), list_elem_of_In, elem_of_seqZ.
  unfold uint_ok in Hb. lia.
Qed.

Lemma byte2_forallb (P : Z → Z → bool) :
  forallb (λ a, forallb (P a) (seqZ 0 256)) (seqZ 0 256) = true →
  ∀ a b, uint_ok 8 a → uint_ok 8 b → P a b = true.
Proof.
  intros H a b Ha Hb.
  assert (forallb (P a) (seqZ 0 256) = true) as H' by by apply (byte_forallb (λ a, forallb (P a) _)).
  by apply byte_forallb.
Qed.

(** ** Byte strings: [Vec<u8>], [&[u8]] *)

Definition bytes_ok (l : list Z) : Prop := Forall (uint_ok 8) l.

#[global] Instance bytes_ok_dec l : Decision (bytes_ok l).
Proof. unfold bytes_ok. apply _. Defined.

(** The bytes of a string literal. *)
Definition str_bytes (s : string) : list Z :=
  (λ a, Z.of_N (Ascii.N_of_ascii a)) <$> String.list_ascii_of_string s.

(** [uN::to_be_bytes] and [uN::from_be_bytes] *)
Fixpoint to_be_bytes (n : nat) (z : Z) : list Z :=
  match n with
  | O => []
  | S m => wrap 8 (Z.shiftr z (8 * Z.of_nat m)) :: to_be_bytes m z
  end.

Definition from_be_bytes (l : list Z) : Z := fold_left (λ acc b, acc * 256 + b) l 0.

(** [uN::to_le_bytes] and [uN::from_le_bytes] *)
Definition to_le_bytes (n : nat) (z : Z) : list Z := reverse (to_be_bytes n z).
Definition from_le_bytes (l : list Z) : Z := from_be_bytes (reverse l).

Lemma to_be_bytes_length n z : length (to_be_bytes n z) = n.
Proof. induction n; simpl; congruence. Qed.

Lemma to_be_bytes_ok n z : bytes_ok (to_be_bytes n z).
Proof. induction n; constructor; [by apply wrap_ok|done]. Qed.

Lemma fold_be_acc l a :
  fold_left (λ acc b, acc * 256 + b) l a
  = a * 256 ^ Z.of_nat (length l) + fold_left (λ acc b, acc * 256 + b) l 0.
Proof.
  revert a. induction l as [|b l IH]; intros a; cbn [fold_left length].
  - rewrite Z.pow_0_r. lia.
  - rewrite IH, (IH (0 * 256 + b)), Nat2Z.inj_succ, Z.pow_succ_r by lia. lia.
Qed.

Lemma from_be_bytes_cons b l :
  from_be_bytes (b :: l) = b * 256 ^ Z.of_nat (length l) + from_be_bytes l.
Proof. unfold from_be_bytes. cbn [fold_left]. rewrite fold_be_acc. lia. Qed.

Lemma from_be_bytes_bound l :
  bytes_ok l → 0 ≤ from_be_bytes l < 256 ^ Z.of_nat (length l).
Proof.
  induction 1 as [|b l Hb Hl IH]; [unfold from_be_bytes; simpl; lia|].
  rewrite from_be_bytes_cons. cbn [length]. rewrite Nat2Z.inj_succ, Z.pow_succ_r by lia.
  unfold uint_ok in Hb. nia.
Qed.

Lemma from_to_be_bytes_mod n z :
  from_be_bytes (to_be_bytes n z) = z `mod` 256 ^ Z.of_nat n.
Proof.
  induction n as [|n IH]; [by rewrite Z.mod_1_r|].
  cbn [to_be_bytes]. rewrite from_be_bytes_cons, to_be_bytes_length, IH.
  unfold wrap. rewrite Z.shiftr_div_pow2 by lia.
  rewrite Nat2Z.inj_succ, Z.pow_succ_r by lia.
  change 256 with (2 ^ 8). rewrite <-!Z.pow_mul_r by lia.
  rewrite (Z.mul_comm (2 ^ 8)), Z.rem_mul_r by lia. lia.
Qed.

Lemma from_to_be_bytes n z :
  0 ≤ z < 256 ^ Z.of_nat n → from_be_bytes (to_be_bytes n z) = z.
Proof. intros. rewrite from_to_be_bytes_mod. by apply Z.mod_small. Qed.

Lemma to_from_be_bytes l :
  bytes_ok l → to_be_bytes (length l) (from_be_bytes l) = l.
Proof.
  assert (∀ n z k, to_be_bytes n (k * 256 ^ Z.of_nat n + z) = to_be_bytes n z) as Hshift.
  { induction n as [|n IH]; intros z k; [done|]. cbn [to_be_bytes]. f_equal.
    - unfold wrap. rewrite !Z.shiftr_div_pow2 by lia.
      rewrite Nat2Z.inj_succ, Z.pow_succ_r by lia.
      change 256 with (2 ^ 8) at 2. rewrite <-Z.pow_mul_r by lia.
      replace (k * (256 * 2 ^ (8 * Z.of_nat n)) + z)
        with (z + (k * 256) * 2 ^ (8 * Z.of_nat n)) by lia.
      rewrite Z.div_add by lia. change (2 ^ 8) with 256.
      by rewrite Z.mod_add by lia.
    - rewrite Nat2Z.inj_succ, Z.pow_succ_r by lia.
      replace (k * (256 * 256 ^ Z.of_nat n) + z)
        with ((k * 256) * 256 ^ Z.of_nat n + z) by lia. apply IH. }
  induction 1 as [|b l Hb Hl IH]; [done|].
  cbn [length to_be_bytes]. rewrite from_be_bytes_cons. f_equal; [|by rewrite Hshift].
  unfold wrap. rewrite Z.shiftr_div_pow2 by lia.
  change 256 with (2 ^ 8). rewrite <-Z.pow_mul_r by lia.
  pose proof (from_be_bytes_bound l Hl) as Hbd.
  change 256 with (2 ^ 8) in Hbd. rewrite <-Z.pow_mul_r in Hbd by lia.
  rewrite Z.add_comm, Z.div_add, Z.div_small by lia.
  rewrite Z.add_0_l. by apply Z.mod_small.
Qed.

(** ** The order of byte strings: [impl Ord for [u8]] *)

Fixpoint bytes_cmp (a b : list Z) : comparison :=
  match a, b with
  | [], [] => Eq
  | [], _ :: _ => Lt
  | _ :: _, [] => Gt
  | x :: a, y :: b =>
      match Z.compare x y with
      | Eq => bytes_cmp a b
      | c => c
      end
  end.

Definition bytes_lt (a b : list Z) : Prop := bytes_cmp a b = Lt.
Definition bytes_le (a b : list Z) : Prop := bytes_cmp a b ≠ Gt.

#[global] Instance comparison_eq_dec : EqDecision comparison.
Proof. solve_decision. Defined.
#[global] Instance bytes_lt_dec : RelDecision bytes_lt.
Proof. intros a b. unfold bytes_lt. apply _. Defined.
#[global] Instance bytes_le_dec : RelDecision bytes_le.
Proof. intros a b. unfold bytes_le. apply _. Defined.

Declare Scope bytes_scope.
Delimit Scope bytes_scope with bytes.
Notation "a <ᵇ b" := (bytes_lt a b) (at level 70, no associativity) : bytes_scope.
Notation "a ≤ᵇ b" := (bytes_le a b) (at level 70, no associativity) : bytes_scope.
Open Scope bytes_scope.

Lemma bytes_cmp_refl a : bytes_cmp a a = Eq.
Proof. induction a; simpl; [done|]. by rewrite Z.compare_refl. Qed.

Lemma bytes_cmp_eq a b : bytes_cmp a b = Eq ↔ a = b.
Proof.
  split; [|intros ->; apply bytes_cmp_refl].
  revert b. induction a as [|x a IH]; intros [|y b]; simpl; try done.
  destruct (Z.compare_spec x y); intros; [|done..]. f_equal; auto.
Qed.

Lemma bytes_cmp_antisym a b : bytes_cmp b a = CompOpp (bytes_cmp a b).
Proof.
  revert b. induction a as [|x a IH]; intros [|y b]; simpl; try done.
  rewrite (Z.compare_antisym x y). destruct (Z.compare x y); simpl; auto.
Qed.

Lemma bytes_lt_trans a b c : a <ᵇ b → b <ᵇ c → a <ᵇ c.
Proof.
  unfold bytes_lt. revert b c. induction a as [|x a IH]; intros [|y b] [|z c]; simpl; try done.
  destruct (Z.compare_spec x y), (Z.compare_spec y z); intros; subst; try done.
  - rewrite Z.compare_refl. eauto.
  - by rewrite (proj2 (Z.compare_lt_iff _ _)) by done.
  - by rewrite (proj2 (Z.compare_lt_iff _ _)) by done.
  - by rewrite (proj2 (Z.compare_lt_iff x z)) by lia.
Qed.

Lemma bytes_lt_irrefl a : ¬ a <ᵇ a.
Proof. unfold bytes_lt. by rewrite bytes_cmp_refl. Qed.

Lemma bytes_le_lteq a b : a ≤ᵇ b ↔ a <ᵇ b ∨ a = b.
Proof.
  unfold bytes_le, bytes_lt. rewrite <-bytes_cmp_eq.
  destruct (bytes_cmp a b); intuition congruence.
Qed.

Lemma bytes_nlt_ge a b : ¬ a <ᵇ b ↔ b ≤ᵇ a.
Proof.
  unfold bytes_le, bytes_lt. rewrite (bytes_cmp_antisym a b).
  destruct (bytes_cmp a b); naive_solver.
Qed.

Lemma bytes_nle_gt a b : ¬ a ≤ᵇ b ↔ b <ᵇ a.
Proof. rewrite <-bytes_nlt_ge. destruct (decide (b <ᵇ a)); naive_solver. Qed.

Lemma bytes_le_refl a : a ≤ᵇ a.
Proof. apply bytes_le_lteq. by right. Qed.

Lemma bytes_lt_le a b : a <ᵇ b → a ≤ᵇ b.
Proof. intros. apply bytes_le_lteq. by left. Qed.

Lemma bytes_le_lt_trans a b c : a ≤ᵇ b → b <ᵇ c → a <ᵇ c.
Proof. rewrite bytes_le_lteq. intros [?| ->]; eauto using bytes_lt_trans. Qed.

Lemma bytes_lt_le_trans a b c : a <ᵇ b → b ≤ᵇ c → a <ᵇ c.
Proof. rewrite bytes_le_lteq. intros ? [?| <-]; eauto using bytes_lt_trans. Qed.

Lemma bytes_le_trans a b c : a ≤ᵇ b → b ≤ᵇ c → a ≤ᵇ c.
Proof.
  rewrite (bytes_le_lteq a b). intros [?| ->]; eauto using bytes_lt_le, bytes_lt_le_trans.
Qed.

Lemma bytes_le_antisym a b : a ≤ᵇ b → b ≤ᵇ a → a = b.
Proof.
  rewrite (bytes_le_lteq a). intros [H| ->] H'; [|done].
  by apply bytes_nlt_ge in H'.
Qed.

#[export] Instance bytes_le_total : Total bytes_le.
Proof.
  intros a b. destruct (decide (a ≤ᵇ b)) as [|H]; [by left|right].
  apply bytes_lt_le. by apply bytes_nle_gt.
Qed.
#[export] Instance bytes_lt_strict : StrictOrder bytes_lt.
Proof. split; [intros ?; apply bytes_lt_irrefl|intros ???; apply bytes_lt_trans]. Qed.
#[export] Instance bytes_le_order : PartialOrder bytes_le.
Proof.
  repeat split; [intros ?; apply bytes_le_refl|intros ???; apply bytes_le_trans|].
  intros ??; apply bytes_le_antisym.
Qed.

(** Comparing a common prefix, and comparing fields of equal width. *)
Lemma bytes_cmp_app p a b : bytes_cmp (p ++ a) (p ++ b) = bytes_cmp a b.
Proof. induction p; simpl; [done|]. by rewrite Z.compare_refl. Qed.

Lemma bytes_cmp_app_eqlen a b c d :
  length a = length b →
  bytes_cmp (a ++ c) (b ++ d)
  = match bytes_cmp a b with Eq => bytes_cmp c d | r => r end.
Proof.
  revert b. induction a as [|x a IH]; intros [|y b] Hlen; try done; simpl in *.
  destruct (Z.compare x y); auto with lia.
Qed.

Lemma bytes_le_prefix p a : p ≤ᵇ p ++ a.
Proof.
  unfold bytes_le. rewrite <-(app_nil_r p) at 1. rewrite bytes_cmp_app. by destruct a.
Qed.

(** Big-endian encodings of one width compare like the numbers: the reason
    the keys of the store are big-endian. *)
Lemma to_be_bytes_cmp n x y :
  0 ≤ x < 256 ^ Z.of_nat n → 0 ≤ y < 256 ^ Z.of_nat n →
  bytes_cmp (to_be_bytes n x) (to_be_bytes n y) = Z.compare x y.
Proof.
  intros Hx Hy.
  assert (∀ a b, bytes_ok a → bytes_ok b → length a = length b →
    bytes_cmp a b = Z.compare (from_be_bytes a) (from_be_bytes b)) as H.
  { induction a as [|u a IH]; intros [|v b] Ha Hb Hlen; try done.
    apply Forall_cons_1 in Ha as [Hu Ha]. apply Forall_cons_1 in Hb as [Hv Hb].
    injection Hlen as Hlen. cbn [bytes_cmp]. rewrite !from_be_bytes_cons.
    pose proof (from_be_bytes_bound a Ha). pose proof (from_be_bytes_bound b Hb).
    rewrite <-Hlen in *. unfold uint_ok in *.
    destruct (Z.compare_spec u v) as [->|Huv|Huv].
    - rewrite IH by done. symmetry.
      destruct (Z.compare_spec (from_be_bytes a) (from_be_bytes b));
        [apply Z.compare_eq_iff|apply Z.compare_lt_iff|apply Z.compare_gt_iff]; lia.
    - symmetry. apply Z.compare_lt_iff. nia.
    - symmetry. apply Z.compare_gt_iff. nia. }
  rewrite H by (rewrite ?to_be_bytes_length; auto using to_be_bytes_ok).
  by rewrite !from_to_be_bytes by done.
Qed.

Lemma to_be_bytes_inj n x y :
  0 ≤ x < 256 ^ Z.of_nat n → 0 ≤ y < 256 ^ Z.of_nat n →
  to_be_bytes n x = to_be_bytes n y → x = y.
Proof. intros Hx Hy Heq. rewrite <-(from_to_be_bytes n x), Heq by done. by apply from_to_be_bytes. Qed.

(** The largest encoding of its width. *)
Lemma to_be_bytes_max n l :
  length l = n → bytes_ok l → l ≤ᵇ to_be_bytes n (256 ^ Z.of_nat n - 1).
Proof.
  intros <- Hl. unfold bytes_le. rewrite <-(to_from_be_bytes l) at 1 by done.
  pose proof (from_be_bytes_bound l Hl).
  rewrite to_be_bytes_cmp by lia. rewrite Z.compare_gt_iff. lia.
Qed.
