(* ===== verification/Codec.v ===== *)
(** * Codec: the variable-length integers of [crates/utils]

    [Leb128] models [crates/utils/src/codec/leb128.rs]: the macro
    [impl_unsigned_leb128!] for its five integer types, and the iterator,
    slice and writer front ends. *)

From stdpp Require Import base gmap list sorting strings numbers.
From S2P Require Import Prelude.
Open Scope Z_scope.

Module Leb128.

(** The types [impl_unsigned_leb128!] is instantiated at. *)
Inductive int_ty := U8 | U16 | U32 | U64 | Usize.

Definition bits (ty : int_ty) : Z :=
  match ty with U8 => 8 | U16 => 16 | U32 => 32 | U64 => 64 | Usize => 64 end.

(** The [$shifts] argument of each instantiation. *)
Definition shifts (ty : int_ty) : list Z :=
  match ty with
  | U8 => [0]
  | U16 => [0; 7; 14]
  | U32 => [0; 7; 14; 21; 28]
  | U64 => [0; 7; 14; 21; 28; 35; 42; 49; 56; 63]
  | Usize => [0; 7; 14; 21; 28; 35; 42; 49; 56; 63]
  end.

(** The [loop] of [to_leb128_bytes]; the value loses seven bits per turn. *)
Fixpoint to_leb128_loop (fuel : nat) (value : Z) (out : list Z) : list Z :=
  if decide (value < 0x80) then out ++ [wrap 8 value]
  else
    let out := out ++ [wrap 8 (Z.lor (Z.land value 0x7f) 0x80)] in
    match fuel with
    | O => out
    | S fuel => to_leb128_loop fuel (Z.shiftr value 7) out
    end.

Definition to_leb128_bytes (value : Z) (out : list Z) : list Z :=
  to_leb128_loop (Z.to_nat (Z.log2 value)) value out.

(** [Leb128Vec::push_leb128] *)
Definition push_leb128 (buf : list Z) (value : Z) : list Z := to_leb128_bytes value buf.

(** [to_leb128_writer] over any [std::io::Write]: [write] returns the new
    writer and the number of bytes written, or fails. *)
Fixpoint to_leb128_writer_loop {W} (write : W → list Z → option (W * Z))
    (fuel : nat) (value : Z) (out : W) (bytes_written : Z) : option (W * Z) :=
  if decide (value < 0x80) then
    '(out, n) ← write out [wrap 8 value]; Some (out, bytes_written + n)
  else
    '(out, n) ← write out [wrap 8 (Z.lor (Z.land value 0x7f) 0x80)];
    match fuel with
    | O => Some (out, bytes_written + n)
    | S fuel => to_leb128_writer_loop write fuel (Z.shiftr value 7) out (bytes_written + n)
    end.

Definition to_leb128_writer {W} (write : W → list Z → option (W * Z))
    (value : Z) (out : W) : option (W * Z) :=
  to_leb128_writer_loop write (Z.to_nat (Z.log2 value)) value out 0.

(** [from_leb128_it]: the shifts zipped with a byte iterator, which is
    returned with the bytes that were not consumed. *)
Fixpoint from_leb128_it (w : Z) (shifts : list Z) (result : Z) (it : list Z)
    : option Z * list Z :=
  match shifts with
  | [] => (None, it)
  | shift :: shifts =>
      match it with
      | [] => (None, [])
      | byte :: it =>
          if decide (Z.land byte 0x80 = 0) then
            (Some (Z.lor result (wrap w (Z.shiftl byte shift))), it)
          else
            from_leb128_it w shifts
              (Z.lor result (wrap w (Z.shiftl (Z.land byte 0x7F) shift))) it
      end
  end.

(** [Leb128Iterator::next_leb128] on a [&mut Iter<u8>]. *)
Definition next_leb128 (ty : int_ty) (it : list Z) : option Z * list Z :=
  from_leb128_it (bits ty) (shifts ty) 0 it.

(** [from_leb128_bytes] *)
Definition from_leb128_bytes (ty : int_ty) (slice : list Z) : option Z :=
  fst (from_leb128_it (bits ty) (shifts ty) 0 slice).

(** [from_leb128_bytes_pos], the [read_leb128] of a slice: the value and the
    number of bytes it took. *)
Fixpoint from_leb128_pos (w : Z) (shifts : list Z) (result : Z) (pos : nat) (slice : list Z)
    : option (Z * nat) :=
  match shifts, slice with
  | shift :: shifts, byte :: slice =>
      if decide (Z.land byte 0x80 = 0) then
        Some (Z.lor result (wrap w (Z.shiftl byte shift)), S pos)
      else
        from_leb128_pos w shifts
          (Z.lor result (wrap w (Z.shiftl (Z.land byte 0x7F) shift))) (S pos) slice
  | _, _ => None
  end.

Definition read_leb128 (ty : int_ty) (slice : list Z) : option (Z * nat) :=
  from_leb128_pos (bits ty) (shifts ty) 0 0 slice.

(** [Leb128Iterator::skip_leb128]: the iterator after the skipped number. *)
Fixpoint skip_leb128 (it : list Z) : option (list Z) :=
  match it with
  | [] => None
  | byte :: it => if decide (Z.land byte 0x80 = 0) then Some it else skip_leb128 it
  end.

(** [Leb128Reader::skip_leb128]: the number of bytes to skip. *)
Fixpoint skip_leb128_pos (pos : nat) (slice : list Z) : option nat :=
  match slice with
  | [] => None
  | byte :: slice =>
      if decide (Z.land byte 0x80 = 0) then Some (S pos) else skip_leb128_pos (S pos) slice
  end.

(** ** The encoding, one septet at a time *)

Abbreviation leb v := (to_leb128_bytes v []).

Lemma to_leb128_loop_app fuel v out :
  to_leb128_loop fuel v out = out ++ to_leb128_loop fuel v [].
Proof.
  revert v out. induction fuel as [|fuel IH]; intros v out; cbn [to_leb128_loop];
    destruct (decide _); simpl; try done.
  rewrite IH, (IH _ [_]), app_assoc. done.
Qed.

Lemma to_leb128_loop_fuel fuel fuel' v :
  0 ≤ v → Z.log2 v ≤ Z.of_nat fuel → Z.log2 v ≤ Z.of_nat fuel' →
  to_leb128_loop fuel v [] = to_leb128_loop fuel' v [].
Proof.
  revert fuel' v. induction fuel as [|fuel IH]; intros fuel' v Hv Hf Hf'.
  - assert (v < 2) as Hsmall.
    { destruct (decide (v = 0)); [lia|].
      pose proof (Z.log2_spec v). assert (Z.log2 v = 0) as Hlog by (pose proof (Z.log2_nonneg v); lia).
      rewrite Hlog in *. lia. }
    destruct fuel'; cbn [to_leb128_loop]; by rewrite !decide_True by lia.
  - destruct (decide (v < 128)) as [Hlt|Hge].
    { destruct fuel'; cbn [to_leb128_loop]; by rewrite !decide_True by lia. }
    assert (7 ≤ Z.log2 v) by (apply Z.log2_le_pow2; lia).
    destruct fuel' as [|fuel']; [lia|]. cbn [to_leb128_loop].
    rewrite !decide_False by lia.
    rewrite to_leb128_loop_app, (to_leb128_loop_app fuel').
    f_equal. apply IH; rewrite ?Z.log2_shiftr by lia; try lia.
    rewrite Z.shiftr_div_pow2 by lia. apply Z.div_pos; lia.
Qed.

Lemma leb_small v : 0 ≤ v < 128 → leb v = [v].
Proof.
  intros. unfold to_leb128_bytes. destruct (Z.to_nat _); cbn [to_leb128_loop];
    rewrite decide_True by lia; simpl; unfold wrap; by rewrite Z.mod_small by lia.
Qed.

Lemma septet_cont v : wrap 8 (Z.lor (Z.land v 0x7f) 0x80) = v `mod` 128 + 128.
Proof.
  replace (Z.land v 0x7f) with (v `mod` 128) by (symmetry; by apply (Z.land_ones v 7)).
  pose proof (Z.mod_pos_bound v 128 ltac:(lia)) as Hm.
  pose proof (lor_shiftl_add (v `mod` 128) 1 7 ltac:(lia) Hm) as Hlor.
  change (Z.shiftl 1 7) with 128 in Hlor. rewrite Hlor.
  unfold wrap. rewrite Z.mod_small; lia.
Qed.

Lemma leb_big v :
  128 ≤ v → leb v = (v `mod` 128 + 128) :: leb (v `div` 128).
Proof.
  intros Hv. unfold to_leb128_bytes at 1.
  assert (7 ≤ Z.log2 v) by (apply Z.log2_le_pow2; lia).
  destruct (Z.to_nat (Z.log2 v)) as [|fuel] eqn:Hfuel; [lia|].
  cbn [to_leb128_loop]. rewrite decide_False by lia.
  rewrite to_leb128_loop_app, septet_cont. simpl. f_equal.
  rewrite Z.shiftr_div_pow2 by lia. change (2 ^ 7) with 128.
  assert (Z.log2 (v `div` 128) = Z.log2 v - 7) as Hlog.
  { change 128 with (2 ^ 7). rewrite <-Z.shiftr_div_pow2 by lia. rewrite Z.log2_shiftr; lia. }
  unfold to_leb128_bytes.
  apply to_leb128_loop_fuel; [apply Z.div_pos|rewrite Hlog..]; lia.
Qed.

(** Induction along the septets of a number. *)
Lemma leb_ind (P : Z → Prop) :
  (∀ v, 0 ≤ v < 128 → P v) →
  (∀ v, 128 ≤ v → P (v `div` 128) → P v) →
  ∀ v, 0 ≤ v → P v.
Proof.
  intros Hsmall Hbig v Hv. revert Hv. induction (Z.lt_wf 0 v) as [v _ IH]. intros Hv.
  destruct (decide (v < 128)); [apply Hsmall; lia|].
  apply Hbig; [lia|]. apply IH; [|apply Z.div_pos; lia].
  split; [apply Z.div_pos; lia|]. apply Z.div_lt; lia.
Qed.

Lemma push_leb128_app buf v : push_leb128 buf v = buf ++ leb v.
Proof. apply to_leb128_loop_app. Qed.

Lemma leb_ok v : 0 ≤ v → bytes_ok (leb v).
Proof.
  revert v. apply leb_ind; intros v Hv.
  - rewrite leb_small by done. repeat constructor; unfold uint_ok; lia.
  - intros IH. rewrite leb_big by done. constructor; [|done].
    pose proof (Z.mod_pos_bound v 128 ltac:(lia)). unfold uint_ok. lia.
Qed.

Lemma leb_length k v : 0 ≤ v < 128 ^ Z.of_nat (S k) → (1 ≤ length (leb v) ≤ S k)%nat.
Proof.
  revert v. induction k as [|k IH]; intros v Hv.
  - rewrite leb_small by lia. simpl. lia.
  - destruct (decide (v < 128)); [rewrite leb_small by lia; simpl; lia|].
    rewrite leb_big by lia. cbn [length].
    assert (0 ≤ v `div` 128 < 128 ^ Z.of_nat (S k)) as Hd.
    { rewrite (Nat2Z.inj_succ (S k)), Z.pow_succ_r in Hv by lia.
      split; [apply Z.div_pos; lia|apply Z.div_lt_upper_bound; lia]. }
    specialize (IH _ Hd). lia.
Qed.

(** Bit tests on the bytes of the encoding. *)
Lemma last_septet b : 0 ≤ b < 128 → Z.land b 0x80 = 0.
Proof.
  intros. assert (uint_ok 8 b) as Hb by (unfold uint_ok; lia).
  pose proof (byte_forallb (λ b, implb (b <? 128) (Z.land b 0x80 =? 0))%bool ltac:(vm_compute; reflexivity) b Hb) as Hc.
  cbv beta in Hc. rewrite (proj2 (Z.ltb_lt _ _)) in Hc by lia. simpl in Hc. lia.
Qed.

Lemma cont_septet b : 0 ≤ b < 128 → Z.land (b + 128) 0x80 ≠ 0 ∧ Z.land (b + 128) 0x7F = b.
Proof.
  intros. assert (uint_ok 8 b) as Hb by (unfold uint_ok; lia).
  pose proof (byte_forallb (λ b, implb (b <? 128) (negb (Z.land (b + 128) 0x80 =? 0) && (Z.land (b + 128) 0x7F =? b)))%bool ltac:(vm_compute; reflexivity) b Hb) as Hc.
  cbv beta in Hc. rewrite (proj2 (Z.ltb_lt _ _)) in Hc by lia. simpl in Hc.
  apply andb_prop in Hc as [H1 H2]. apply negb_true_iff in H1. lia.
Qed.

(** ** Decoding *)

Lemma shifts_spec ty :
  shifts ty = (λ i, 7 * Z.of_nat i) <$> seq 0 (length (shifts ty)).
Proof. by destruct ty. Qed.

(** Adding a septet above the ones already decoded. *)
Lemma lor_septet w acc x s :
  0 ≤ s → 0 ≤ acc < 2 ^ s → 0 ≤ x → acc + x * 2 ^ s < 2 ^ w →
  Z.lor acc (wrap w (Z.shiftl x s)) = acc + x * 2 ^ s.
Proof.
  intros. rewrite wrap_small; [by apply lor_shiftl_add|].
  unfold uint_ok. rewrite Z.shiftl_mul_pow2 by done. nia.
Qed.

(** The decoder on the encoding of [v], [i] septets into the number. *)
Lemma from_leb128_it_app w n i acc v rest :
  0 ≤ v < 128 ^ Z.of_nat (S n) → 0 ≤ acc < 2 ^ (7 * Z.of_nat i) →
  acc + v * 2 ^ (7 * Z.of_nat i) < 2 ^ w →
  from_leb128_it w ((λ i, 7 * Z.of_nat i) <$> seq i (S n)) acc (leb v ++ rest)
  = (Some (acc + v * 2 ^ (7 * Z.of_nat i)), rest).
Proof.
  revert i acc v. induction n as [|n IH]; intros i acc v Hv Hacc Hw;
    (destruct (decide (v < 128)); [|try (exfalso; lia)]).
  1,2: rewrite leb_small by lia; cbn [seq fmap list_fmap from_leb128_it app];
    rewrite decide_True by (apply last_septet; lia); rewrite lor_septet by lia; done.
  pose proof (Z.mod_pos_bound v 128 ltac:(lia)) as Hm.
  pose proof (Z.div_mod v 128 ltac:(lia)) as Hdm.
  assert (2 ^ (7 * Z.of_nat (S i)) = 128 * 2 ^ (7 * Z.of_nat i)) as Hpow.
  { replace (7 * Z.of_nat (S i)) with (7 + 7 * Z.of_nat i) by lia. rewrite Z.pow_add_r; lia. }
  rewrite leb_big by lia. destruct (cont_septet _ Hm) as [Hcont Hlow].
  change (seq i (S (S n))) with (i :: seq (S i) (S n)).
  cbn [fmap list_fmap from_leb128_it app]. rewrite decide_False, Hlow by done.
  assert (0 < 2 ^ (7 * Z.of_nat i)) by lia.
  assert (0 ≤ v `div` 128) by (apply Z.div_pos; lia).
  rewrite lor_septet by (try done; nia).
  rewrite (IH (S i)); [f_equal; f_equal; nia| |nia|rewrite Hpow; nia].
  split; [done|]. apply Z.div_lt_upper_bound; [lia|].
  rewrite (Nat2Z.inj_succ (S n)), Z.pow_succ_r in Hv by lia. lia.
Qed.

(** The slice decoder agrees with the iterator decoder. *)
Lemma from_leb128_pos_it w ss acc pos slice :
  from_leb128_pos w ss acc pos slice
  = match from_leb128_it w ss acc slice with
    | (Some v, rest) => Some (v, (pos + (length slice - length rest))%nat)
    | (None, _) => None
    end
  ∧ (length (snd (from_leb128_it w ss acc slice)) ≤ length slice)%nat.
Proof.
  revert acc pos slice. induction ss as [|s ss IH]; intros acc pos slice; simpl; [done|].
  destruct slice as [|b slice]; simpl; [done|].
  destruct (decide _); simpl.
  - split; [|lia]. f_equal. f_equal. lia.
  - destruct (IH (Z.lor acc (wrap w (Z.land b 127 ≪ s))) (S pos) slice) as [-> Hlen].
    destruct (from_leb128_it _ _ _ _) as [[v|] rest]; simpl in *; (split; [|lia]); [|done].
    f_equal. f_equal. lia.
Qed.

Lemma skip_leb128_leb v rest : 0 ≤ v → skip_leb128 (leb v ++ rest) = Some rest.
Proof.
  revert v. apply leb_ind; intros v Hv.
  - rewrite leb_small by done. simpl. by rewrite decide_True by (apply last_septet; lia).
  - intros IH. rewrite leb_big by done. simpl.
    destruct (cont_septet (v `mod` 128)); [apply Z.mod_pos_bound; lia|].
    by rewrite decide_False by done.
Qed.

Lemma skip_leb128_pos_it pos slice :
  skip_leb128_pos pos slice
  = (λ rest, (pos + (length slice - length rest))%nat) <$> skip_leb128 slice
  ∧ (∀ rest, skip_leb128 slice = Some rest → (length rest < length slice)%nat).
Proof.
  revert pos. induction slice as [|b slice IH]; intros pos; simpl; [done|].
  destruct (decide _); simpl.
  - split; [f_equal; lia|]. intros ? [= ->]. lia.
  - destruct (IH (S pos)) as [-> Hlt]. split.
    + destruct (skip_leb128 slice) as [r|]; simpl; [|done]. specialize (Hlt r eq_refl).
      f_equal. lia.
    + intros r Hr. specialize (Hlt r Hr). lia.
Qed.

(** Capacity of the decoders: [u8] reads one septet, the others a full word. *)
Definition decodable (ty : int_ty) (v : Z) : Prop :=
  uint_ok (bits ty) v ∧ (ty = U8 → v < 128).

Lemma decodable_septets ty v :
  decodable ty v → 0 ≤ v < 128 ^ Z.of_nat (length (shifts ty)).
Proof. intros [Hv H8]. unfold uint_ok in Hv. destruct ty; simpl in *; [specialize (H8 eq_refl)|..]; lia. Qed.

Lemma next_leb128_leb ty v rest :
  decodable ty v → next_leb128 ty (leb v ++ rest) = (Some v, rest).
Proof.
  intros Hd. pose proof (decodable_septets ty v Hd) as Hv. destruct Hd as [Hok _].
  unfold next_leb128. rewrite shifts_spec.
  assert (∃ n, length (shifts ty) = S n) as [n Hn] by (destruct ty; simpl; eauto).
  rewrite Hn in *. unfold uint_ok in Hok.
  rewrite from_leb128_it_app; [|done|simpl; lia|simpl Z.of_nat; rewrite Z.pow_0_r; lia].
  simpl Z.of_nat. rewrite Z.mul_0_r, Z.pow_0_r. f_equal. f_equal. lia.
Qed.

Lemma leb_prefix_free v v' r r' :
  uint_ok 64 v → uint_ok 64 v' → leb v ++ r = leb v' ++ r' → v = v' ∧ r = r'.
Proof.
  intros Hv Hv' Heq.
  pose proof (next_leb128_leb U64 v r ltac:(by split)) as H1.
  pose proof (next_leb128_leb U64 v' r' ltac:(by split)) as H2.
  rewrite Heq, H2 in H1. by injection H1 as -> ->.
Qed.

(** A decoded number fits its type, whatever the bytes. *)
Lemma from_leb128_it_range w ss acc it v rest :
  0 ≤ w → uint_ok w acc → from_leb128_it w ss acc it = (Some v, rest) → uint_ok w v.
Proof.
  intros Hw. assert (∀ a b, uint_ok w a → uint_ok w b → uint_ok w (Z.lor a b)) as Hlor.
  { unfold uint_ok. intros a b [] []. split; [by apply Z.lor_nonneg|].
    destruct (decide (Z.lor a b = 0)) as [->|]; [lia|].
    assert (0 ≤ Z.lor a b) by (by apply Z.lor_nonneg).
    apply Z.log2_lt_pow2; [lia|]. rewrite Z.log2_lor by done.
    assert (∀ c, 0 ≤ c < 2 ^ w → Z.lor a b ≠ 0 → Z.log2 c < w ∨ c = 0) as Hl.
    { intros c Hc _. destruct (decide (c = 0)); [by right|left]. apply Z.log2_lt_pow2; lia. }
    assert (0 < w) by (destruct (decide (w = 0)) as [->|]; [|lia];
      assert (a = 0) by lia; assert (b = 0) by lia; subst; done).
    destruct (Hl a) as [| ->], (Hl b) as [| ->]; try done; simpl; lia. }
  revert acc it. induction ss as [|s ss IH]; intros acc it Hacc; simpl; [done|].
  destruct it as [|b it]; [done|]. destruct (decide _); [|by apply IH, Hlor, wrap_ok].
  intros [= <- _]. by apply Hlor, wrap_ok.
Qed.

(** [to_leb128_writer] on a byte vector appends the encoding. *)
Definition vec_write (out : list Z) (buf : list Z) : option (list Z * Z) :=
  Some (out ++ buf, Z.of_nat (length buf)).

Lemma to_leb128_writer_vec_loop fuel v out n :
  to_leb128_writer_loop vec_write fuel v out n
  = Some (to_leb128_loop fuel v out,
          n + Z.of_nat (length (to_leb128_loop fuel v [])))%Z.
Proof.
  revert v out n. induction fuel as [|fuel IH]; intros v out n; simpl;
    destruct (decide _); simpl; try done.
  rewrite IH, (to_leb128_loop_app fuel _ [_]), length_app. f_equal. f_equal. simpl. lia.
Qed.

(** C20: a number written by [to_leb128_bytes] is read back by every front end
    of its type, whatever follows it: the iterator stops right after it, the
    slice reader reports its length, and skipping it lands on the same byte;
    the encoding of a 64-bit number takes at most ten bytes and the writer
    front end produces the same bytes and their count. *)
Theorem leb128_roundtrip ty v rest :
  decodable ty v →
  next_leb128 ty (to_leb128_bytes v [] ++ rest) = (Some v, rest) ∧
  read_leb128 ty (to_leb128_bytes v [] ++ rest) = Some (v, length (to_leb128_bytes v [])) ∧
  from_leb128_bytes ty (to_leb128_bytes v [] ++ rest) = Some v ∧
  skip_leb128 (to_leb128_bytes v [] ++ rest) = Some rest ∧
  skip_leb128_pos 0 (to_leb128_bytes v [] ++ rest) = Some (length (to_leb128_bytes v [])) ∧
  (length (to_leb128_bytes v []) ≤ 10)%nat ∧
  to_leb128_writer vec_write v []
    = Some (to_leb128_bytes v [], Z.of_nat (length (to_leb128_bytes v []))).
Proof.
  intros Hd. pose proof (next_leb128_leb ty v rest Hd) as Hnext.
  pose proof (decodable_septets ty v Hd) as Hs.
  assert (length (leb v ++ rest) - length rest = length (leb v))%nat as Hlen
    by (rewrite length_app; lia).
  unfold next_leb128, read_leb128, from_leb128_bytes in *.
  split_and!.
  - done.
  - by rewrite (proj1 (from_leb128_pos_it _ _ _ _ _)), Hnext, Hlen.
  - by rewrite Hnext.
  - apply skip_leb128_leb. lia.
  - rewrite (proj1 (skip_leb128_pos_it _ _)), skip_leb128_leb by lia. simpl. by rewrite Hlen.
  - destruct Hd as [[] _]. apply (leb_length 9). destruct ty; simpl in *; lia.
  - unfold to_leb128_writer. rewrite to_leb128_writer_vec_loop. done.
Qed.

Lemma leb128_roundtrip_witness :
  next_leb128 U64 (to_leb128_bytes U64_MAX [] ++ [7; 8]) = (Some U64_MAX, [7; 8]).
Proof. apply (leb128_roundtrip U64 U64_MAX [7; 8]). vm_compute. by repeat split. Defined.

(** The [u8] instance decodes a single septet: it cannot read back what it
    writes for 128 and above. *)
Lemma leb128_u8_incomplete v :
  128 ≤ v < 256 → from_leb128_bytes U8 (to_leb128_bytes v []) = None.
Proof.
  intros Hv. rewrite leb_big by lia. unfold from_leb128_bytes. simpl.
  destruct (cont_septet (v `mod` 128)); [apply Z.mod_pos_bound; lia|].
  by rewrite decide_False by done.
Qed.

End Leb128.
