(* ===== verification/Base32.v ===== *)
(** * Base32: the base32 codec of [crates/utils]

    Models [crates/utils/src/codec/base32_custom.rs]: the writer, a state
    machine over positions modulo five, and the reader, an iterator that runs
    one quintet ahead of the writer.  Characters are their ASCII codes. *)

From stdpp Require Import base gmap list sorting strings numbers.
From S2P Require Import Prelude.
Open Scope Z_scope.

Module Base32.

(** [BASE32_ALPHABET] *)
Definition BASE32_ALPHABET : list Z := str_bytes "abcdefghijklmnopqrstuvwxyz792013".

(** [BASE32_INVERSE], the 256-entry table of the source: runs of [255] around
    the digits, the capital letters from [K] and the small letters. *)
Definition BASE32_INVERSE : list Z :=
  replicate 48 255 ++ [29; 30; 28; 31; 255; 255; 255; 26; 255; 27] ++
  replicate 17 255 ++ [10; 11; 12; 13; 14; 15; 16; 17; 18; 19; 20; 21; 22; 23; 24; 25] ++
  replicate 6 255 ++
  [0; 1; 2; 3; 4; 5; 6; 7; 8; 9; 10; 11; 12; 13; 14; 15; 16; 17; 18; 19; 20; 21; 22; 23; 24; 25] ++
  replicate 133 255.

(** The shift of a byte: bits pushed beyond the eighth are lost. *)
Definition shl8 (b n : Z) : Z := wrap 8 (Z.shiftl b n).

(** *** [Base32Writer] *)

Record Base32Writer := {
  last_byte : Z;
  pos : nat;
  result : list Z;
}.

(** [with_raw_capacity]; the capacity is only an allocation hint. *)
Definition with_raw_capacity (capacity : nat) : Base32Writer :=
  {| last_byte := 0; pos := 0; result := [] |}.

Definition with_capacity (capacity : nat) : Base32Writer :=
  with_raw_capacity ((capacity + 3) / 4 * 5)%nat.

Definition push_char (w : Base32Writer) (ch : Z) : Base32Writer :=
  {| last_byte := last_byte w; pos := pos w; result := result w ++ [ch] |}.

Definition push_string (w : Base32Writer) (s : list Z) : Base32Writer :=
  {| last_byte := last_byte w; pos := pos w; result := result w ++ s |}.

(** The pair [(ch1, ch2)] of [push_byte]; [None] is the [unreachable!] arm. *)
Definition push_byte_chars (p : nat) (last_byte byte : Z) : option (Z * Z) :=
  match p with
  | 0%nat => Some (Z.shiftr (Z.land byte 0xF8) 3, U8_MAX)
  | 1%nat => Some (Z.lor (shl8 (Z.land last_byte 0x07) 2) (Z.shiftr (Z.land byte 0xC0) 6),
                   Z.shiftr (Z.land byte 0x3E) 1)
  | 2%nat => Some (Z.lor (shl8 (Z.land last_byte 0x01) 4) (Z.shiftr (Z.land byte 0xF0) 4),
                   U8_MAX)
  | 3%nat => Some (Z.lor (shl8 (Z.land last_byte 0x0F) 1) (Z.shiftr byte 7),
                   Z.shiftr (Z.land byte 0x7C) 2)
  | 4%nat => Some (Z.lor (shl8 (Z.land last_byte 0x03) 3) (Z.shiftr (Z.land byte 0xE0) 5),
                   Z.land byte 0x1F)
  | _ => None
  end.

(** [push_byte]; [None] is a panic (a table index out of range). *)
Definition push_byte (w : Base32Writer) (byte : Z) (is_remainder : bool) : option Base32Writer :=
  '(ch1, ch2) ← push_byte_chars (pos w mod 5) (last_byte w) byte;
  c1 ← BASE32_ALPHABET !! Z.to_nat ch1;
  let w := push_char w c1 in
  if is_remainder then Some w
  else
    w ← (if decide (ch2 = U8_MAX) then Some w
         else c2 ← BASE32_ALPHABET !! Z.to_nat ch2; Some (push_char w c2));
    Some {| last_byte := byte; pos := S (pos w); result := result w |}.

(** [std::io::Write::write]: the bytes are pushed one by one. *)
Fixpoint write (w : Base32Writer) (bs : list Z) : option Base32Writer :=
  match bs with
  | [] => Some w
  | b :: bs => w ← push_byte w b false; write w bs
  end.

Definition from_bytes (bs : list Z) : option Base32Writer :=
  write (with_capacity (length bs)) bs.

Definition finalize (w : Base32Writer) : option (list Z) :=
  if decide (pos w mod 5 = 0)%nat then Some (result w)
  else result <$> push_byte w 0 true.

(** *** [Base32Reader] *)

Record Base32Reader := {
  r_bytes : list Z;
  r_last_byte : Z;
  r_pos : nat;
}.

Definition reader_new (bs : list Z) : Base32Reader :=
  {| r_bytes := bs; r_last_byte := 0; r_pos := 0 |}.

(** [map_byte]: the next character through [BASE32_INVERSE]. *)
Definition map_byte (r : Base32Reader) : option Z * Base32Reader :=
  match r_bytes r with
  | [] => (None, r)
  | c :: cs =>
      let r' := {| r_bytes := cs; r_last_byte := r_last_byte r; r_pos := r_pos r |} in
      match BASE32_INVERSE !! Z.to_nat c with
      | Some byte =>
          if decide (byte ≠ U8_MAX) then
            (Some byte, {| r_bytes := cs; r_last_byte := byte; r_pos := r_pos r |})
          else (None, r')
      | None => (None, r')
      end
  end.

(** [Iterator::next] of the reader. *)
Definition next (r : Base32Reader) : option Z * Base32Reader :=
  let p := (r_pos r mod 5)%nat in
  let last := r_last_byte r in
  match map_byte r with
  | (None, r) => (None, r)
  | (Some byte, r) =>
      let r := {| r_bytes := r_bytes r; r_last_byte := r_last_byte r; r_pos := S (r_pos r) |} in
      match p with
      | 0%nat =>
          let '(c, r) := map_byte r in
          (Some (Z.lor (shl8 byte 3) (Z.shiftr (default 0 c) 2)), r)
      | 1%nat =>
          let '(c, r) := map_byte r in
          (Some (Z.lor (Z.lor (shl8 last 6) (shl8 byte 1)) (Z.shiftr (default 0 c) 4)), r)
      | 2%nat => (Some (Z.lor (shl8 last 4) (Z.shiftr byte 1)), r)
      | 3%nat =>
          let '(c, r) := map_byte r in
          (Some (Z.lor (Z.lor (shl8 last 7) (shl8 byte 2)) (Z.shiftr (default 0 c) 3)), r)
      | 4%nat => (Some (Z.lor (shl8 last 5) byte), r)
      | _ => (None, r)
      end
  end.

(** The bytes a [for] loop over the reader sees; every step consumes a
    character, so one more step than characters is enough. *)
Fixpoint collect (fuel : nat) (r : Base32Reader) : list Z :=
  match fuel with
  | O => []
  | S fuel =>
      match next r with
      | (Some b, r) => b :: collect fuel r
      | (None, _) => []
      end
  end.

Definition read_all (cs : list Z) : list Z := collect (S (length cs)) (reader_new cs).

(** ** Round trip

    [quintets p B bs] are the five-bit groups the writer emits for [bs], from
    position [p] with last byte [B], the final group of [finalize] included. *)
Definition first_quintet (p : nat) (B b : Z) : Z :=
  match push_byte_chars p B b with Some (c, _) => c | None => 0 end.
Definition second_quintet (p : nat) (b : Z) : list Z :=
  match push_byte_chars p 0 b with
  | Some (_, c) => if decide (c = U8_MAX) then [] else [c]
  | None => []
  end.

Definition next_pos (p : nat) : nat := match p with 4%nat => 0%nat | _ => S p end.

Fixpoint quintets (p : nat) (B : Z) (bs : list Z) : list Z :=
  match bs with
  | [] => match p with O => [] | _ => [first_quintet p B 0] end
  | b :: bs => first_quintet p B b :: second_quintet p b ++ quintets (next_pos p) b bs
  end.

Definition alpha (c : Z) : Z := nth (Z.to_nat c) BASE32_ALPHABET 0.

(** Checking a property of all quintets by evaluation. *)
Lemma quintet_forallb (P : Z → bool) :
  forallb P (seqZ 0 32) = true → ∀ c, 0 ≤ c < 32 → P c = true.
Proof.
  intros H c Hc. apply (proj1 (forallb_forall _ _) H), list_elem_of_In, elem_of_seqZ. lia.
Qed.

Lemma alpha_lookup c : 0 ≤ c < 32 → BASE32_ALPHABET !! Z.to_nat c = Some (alpha c).
Proof.
  intros Hc. pose proof (quintet_forallb
    (λ c, bool_decide (BASE32_ALPHABET !! Z.to_nat c = Some (alpha c)))
    ltac:(by vm_compute) c Hc) as H. by apply bool_decide_eq_true in H.
Qed.

Lemma inverse_alpha c :
  0 ≤ c < 32 → BASE32_INVERSE !! Z.to_nat (alpha c) = Some c ∧ c ≠ U8_MAX.
Proof.
  intros Hc. split; [|unfold U8_MAX; lia].
  pose proof (quintet_forallb
    (λ c, bool_decide (BASE32_INVERSE !! Z.to_nat (alpha c) = Some c))
    ltac:(by vm_compute) c Hc) as H. by apply bool_decide_eq_true in H.
Qed.

Lemma first_quintet_range p B b :
  uint_ok 8 B → uint_ok 8 b → 0 ≤ first_quintet p B b < 32.
Proof.
  intros HB Hb.
  do 5 (destruct p as [|p];
    [match goal with |- 0 ≤ first_quintet ?p _ _ < 32 =>
       pose proof (byte2_forallb (λ B b, (0 <=? first_quintet p B b) && (first_quintet p B b <? 32))%bool
         ltac:(vm_compute; reflexivity) B b HB Hb) as H end; cbv beta in H; lia|]).
  unfold first_quintet. simpl. lia.
Qed.

Lemma second_quintet_range p b : uint_ok 8 b → Forall (λ c, 0 ≤ c < 32) (second_quintet p b).
Proof.
  intros Hb.
  do 5 (destruct p as [|p];
    [match goal with |- Forall _ (second_quintet ?p _) =>
       pose proof (byte_forallb (λ b, forallb (λ c, (0 <=? c) && (c <? 32)) (second_quintet p b))%bool
         ltac:(vm_compute; reflexivity) b Hb) as H end; cbv beta in H;
     rewrite forallb_forall in H; apply Forall_forall; intros c Hc;
     specialize (H c Hc); lia|]).
  unfold second_quintet. simpl. constructor.
Qed.

Lemma quintets_range p B bs :
  uint_ok 8 B → bytes_ok bs → Forall (λ c, 0 ≤ c < 32) (quintets p B bs).
Proof.
  intros HB Hbs. revert p B HB. induction Hbs as [|b bs Hb Hbs IH]; intros p B HB; simpl.
  - destruct p; repeat constructor; by apply first_quintet_range.
  - constructor; [by apply first_quintet_range|]. apply Forall_app; split; [|by apply IH].
    by apply second_quintet_range.
Qed.

Lemma next_pos_mod n : (S n mod 5)%nat = next_pos (n mod 5).
Proof.
  rewrite <-Nat.add_1_r, Nat.Div0.add_mod.
  pose proof (Nat.mod_upper_bound n 5 ltac:(lia)) as H.
  revert H. generalize (n mod 5)%nat as p. intros p Hp.
  do 5 (destruct p as [|p]; [done|]). lia.
Qed.

(** *** The writer emits the quintets *)

Lemma push_byte_first w b r :
  uint_ok 8 (last_byte w) → uint_ok 8 b →
  push_byte w b r = Some
    (if r then push_char w (alpha (first_quintet (pos w mod 5) (last_byte w) b))
     else {| last_byte := b; pos := S (pos w);
             result := result w ++ alpha (first_quintet (pos w mod 5) (last_byte w) b)
                       :: (alpha <$> second_quintet (pos w mod 5) b) |}).
Proof.
  intros HB Hb. unfold push_byte.
  pose proof (Nat.mod_upper_bound (pos w) 5 ltac:(lia)) as Hp. revert Hp.
  generalize (pos w mod 5)%nat as p. intros p Hp.
  pose proof (first_quintet_range p (last_byte w) b HB Hb) as H1.
  pose proof (second_quintet_range p b Hb) as H2.
  assert (∃ c2, push_byte_chars p (last_byte w) b = Some (first_quintet p (last_byte w) b, c2)
          ∧ second_quintet p b = if decide (c2 = U8_MAX) then [] else [c2])
    as (c2 & -> & Hc2).
  { unfold first_quintet, second_quintet.
    do 5 (destruct p as [|p]; [simpl; eauto|]). lia. }
  cbn [mbind option_bind]. rewrite (alpha_lookup (first_quintet _ _ _)) by done.
  cbn [mbind option_bind]. destruct r; [reflexivity|].
  revert H2. rewrite Hc2. destruct (decide (c2 = U8_MAX)); intros H2; [done|].
  rewrite alpha_lookup by (by inversion H2). simpl.
  by rewrite <-app_assoc.
Qed.

Lemma write_finalize w bs :
  uint_ok 8 (last_byte w) → bytes_ok bs →
  (w' ← write w bs; finalize w')
  = Some (result w ++ (alpha <$> quintets (pos w mod 5) (last_byte w) bs)).
Proof.
  intros HB Hbs. revert w HB. induction Hbs as [|b bs Hb Hbs IH]; intros w HB.
  - cbn [write mbind option_bind quintets]. unfold finalize. destruct (decide _) as [->|Hne].
    + by rewrite app_nil_r.
    + rewrite push_byte_first by (done || by (split; lia)).
      cbn [fmap option_fmap option_map push_char result].
      by destruct (pos w mod 5)%nat.
  - cbn [write quintets]. rewrite push_byte_first by done. cbn [mbind option_bind].
    rewrite IH by done. cbn [pos last_byte result]. rewrite next_pos_mod, fmap_cons, fmap_app.
    by rewrite <-app_assoc.
Qed.

(** *** The reader recovers the bytes *)

(** What the reader has not consumed, from position [p]: it runs one quintet
    ahead of the writer inside a group of five bytes. *)
Definition ahead (p : nat) (qs : list Z) : list Z :=
  match p with O => qs | _ => tail qs end.

Definition qtail (p : nat) (bs : list Z) : list Z :=
  match bs with [] => [] | b :: bs => second_quintet p b ++ quintets (next_pos p) b bs end.

Lemma quintets_head p B bs :
  p ≠ 0%nat → quintets p B bs = first_quintet p B (hd 0 bs) :: qtail p bs.
Proof. intros Hp. destruct bs; simpl; [by destruct p|done]. Qed.

Ltac byte2_check P :=
  intros HB Hb;
  pose proof (byte2_forallb P ltac:(vm_compute; reflexivity) _ _ HB Hb) as Hcheck;
  cbv beta in Hcheck; by apply Z.eqb_eq in Hcheck.

Lemma high_bits_1 B b : uint_ok 8 B → uint_ok 8 b →
  shl8 (first_quintet 1 B b) 6 = Z.land b 0xC0.
Proof. byte2_check (λ B b, shl8 (first_quintet 1 B b) 6 =? Z.land b 0xC0). Qed.
Lemma high_bits_2 B b : uint_ok 8 B → uint_ok 8 b →
  shl8 (first_quintet 2 B b) 4 = Z.land b 0xF0.
Proof. byte2_check (λ B b, shl8 (first_quintet 2 B b) 4 =? Z.land b 0xF0). Qed.
Lemma high_bits_3 B b : uint_ok 8 B → uint_ok 8 b →
  shl8 (first_quintet 3 B b) 7 = Z.land b 0x80.
Proof. byte2_check (λ B b, shl8 (first_quintet 3 B b) 7 =? Z.land b 0x80). Qed.
Lemma high_bits_4 B b : uint_ok 8 B → uint_ok 8 b →
  shl8 (first_quintet 4 B b) 5 = Z.land b 0xE0.
Proof. byte2_check (λ B b, shl8 (first_quintet 4 B b) 5 =? Z.land b 0xE0). Qed.
Lemma low_bits_0 b x : uint_ok 8 b → uint_ok 8 x →
  Z.shiftr (first_quintet 1 b x) 2 = Z.land b 0x07.
Proof. byte2_check (λ b x, Z.shiftr (first_quintet 1 b x) 2 =? Z.land b 0x07). Qed.
Lemma low_bits_1 b x : uint_ok 8 b → uint_ok 8 x →
  Z.shiftr (first_quintet 2 b x) 4 = Z.land b 0x01.
Proof. byte2_check (λ b x, Z.shiftr (first_quintet 2 b x) 4 =? Z.land b 0x01). Qed.
Lemma low_bits_2 b x : uint_ok 8 b → uint_ok 8 x →
  Z.shiftr (first_quintet 3 b x) 1 = Z.land b 0x0F.
Proof. byte2_check (λ b x, Z.shiftr (first_quintet 3 b x) 1 =? Z.land b 0x0F). Qed.
Lemma low_bits_3 b x : uint_ok 8 b → uint_ok 8 x →
  Z.shiftr (first_quintet 4 b x) 3 = Z.land b 0x03.
Proof. byte2_check (λ b x, Z.shiftr (first_quintet 4 b x) 3 =? Z.land b 0x03). Qed.

(** The three parts of a byte put together again, at each position. *)
Lemma byte_parts b :
  uint_ok 8 b →
  Z.lor (shl8 (first_quintet 0 0 b) 3) (Z.land b 0x07) = b ∧
  Z.lor (Z.lor (Z.land b 0xC0) (shl8 (Z.shiftr (Z.land b 0x3E) 1) 1)) (Z.land b 0x01) = b ∧
  Z.lor (Z.land b 0xF0) (Z.land b 0x0F) = b ∧
  Z.lor (Z.lor (Z.land b 0x80) (shl8 (Z.shiftr (Z.land b 0x7C) 2) 2)) (Z.land b 0x03) = b ∧
  Z.lor (Z.land b 0xE0) (Z.land b 0x1F) = b.
Proof.
  intros Hb. pose proof (byte_forallb (λ b,
    (Z.lor (shl8 (first_quintet 0 0 b) 3) (Z.land b 0x07) =? b) &&
    (Z.lor (Z.lor (Z.land b 0xC0) (shl8 (Z.shiftr (Z.land b 0x3E) 1) 1)) (Z.land b 0x01) =? b) &&
    (Z.lor (Z.land b 0xF0) (Z.land b 0x0F) =? b) &&
    (Z.lor (Z.lor (Z.land b 0x80) (shl8 (Z.shiftr (Z.land b 0x7C) 2) 2)) (Z.land b 0x03) =? b) &&
    (Z.lor (Z.land b 0xE0) (Z.land b 0x1F) =? b))%bool
    ltac:(vm_compute; reflexivity) b Hb) as H.
  cbv beta in H. rewrite !andb_true_iff, !Z.eqb_eq in H. tauto.
Qed.

Lemma map_byte_alpha c cs last p :
  0 ≤ c < 32 →
  map_byte {| r_bytes := alpha c :: cs; r_last_byte := last; r_pos := p |}
  = (Some c, {| r_bytes := cs; r_last_byte := c; r_pos := p |}).
Proof.
  intros Hc. destruct (inverse_alpha c Hc) as [Hi Hne].
  unfold map_byte. cbn [r_bytes]. rewrite Hi. by rewrite decide_True by done.
Qed.

(** The state of the reader before the bytes [bs] of the writer. *)
Definition reader_at (r : Base32Reader) (B : Z) (bs : list Z) : Prop :=
  let p := (r_pos r mod 5)%nat in
  r_bytes r = alpha <$> ahead p (quintets p B bs) ∧
  (p ≠ 0%nat → r_last_byte r = first_quintet p B (hd 0 bs)).

Lemma hd_byte bs : bytes_ok bs → uint_ok 8 (hd 0 bs).
Proof. destruct 1; simpl; [split; lia|done]. Qed.

Lemma second_quintet_lt p b c : uint_ok 8 b → second_quintet p b = [c] → 0 ≤ c < 32.
Proof. intros Hb Hc. pose proof (second_quintet_range p b Hb) as H. rewrite Hc in H. by inversion H. Qed.

Lemma second_quintet_eval b :
  uint_ok 8 b →
  second_quintet 0 b = [] ∧ second_quintet 1 b = [Z.shiftr (Z.land b 0x3E) 1] ∧
  second_quintet 2 b = [] ∧ second_quintet 3 b = [Z.shiftr (Z.land b 0x7C) 2] ∧
  second_quintet 4 b = [Z.land b 0x1F].
Proof.
  intros Hb. pose proof (byte_forallb (λ b, negb (Z.shiftr (Z.land b 0x3E) 1 =? U8_MAX) &&
    negb (Z.shiftr (Z.land b 0x7C) 2 =? U8_MAX) && negb (Z.land b 0x1F =? U8_MAX))%bool
    ltac:(vm_compute; reflexivity) b Hb) as H.
  cbv beta in H. rewrite !andb_true_iff, !negb_true_iff, !Z.eqb_neq in H.
  destruct H as [[H1 H3] H4]. unfold second_quintet. cbn [push_byte_chars].
  split_and!; case_decide; congruence.
Qed.

(** One step of the reader from each position: [last] is the quintet read
    ahead, [c] the second quintet of the byte, [d] the quintet that follows. *)
Lemma next_eval cs last p :
  Forall (λ c, 0 ≤ c < 32) cs →
  next {| r_bytes := alpha <$> cs; r_last_byte := last; r_pos := p |}
  = match (p mod 5)%nat, cs with
    | 0%nat, c :: d :: cs =>
        (Some (Z.lor (shl8 c 3) (Z.shiftr d 2)), Build_Base32Reader (alpha <$> cs) d (S p))
    | 1%nat, c :: d :: cs =>
        (Some (Z.lor (Z.lor (shl8 last 6) (shl8 c 1)) (Z.shiftr d 4)),
         Build_Base32Reader (alpha <$> cs) d (S p))
    | 2%nat, d :: cs =>
        (Some (Z.lor (shl8 last 4) (Z.shiftr d 1)), Build_Base32Reader (alpha <$> cs) d (S p))
    | 3%nat, c :: d :: cs =>
        (Some (Z.lor (Z.lor (shl8 last 7) (shl8 c 2)) (Z.shiftr d 3)),
         Build_Base32Reader (alpha <$> cs) d (S p))
    | 4%nat, c :: cs =>
        (Some (Z.lor (shl8 last 5) c), Build_Base32Reader (alpha <$> cs) c (S p))
    | _, _ => next {| r_bytes := alpha <$> cs; r_last_byte := last; r_pos := p |}
    end.
Proof.
  intros Hcs. unfold next. cbn [r_pos r_last_byte].
  destruct Hcs as [|c cs Hc Hcs]; [by destruct (p mod 5)%nat as [|[|[|[|[|]]]]]|].
  rewrite fmap_cons, map_byte_alpha by done. cbn [r_pos r_bytes r_last_byte].
  destruct Hcs as [|d cs Hd Hcs];
    [|rewrite fmap_cons; rewrite map_byte_alpha by done];
    by destruct (p mod 5)%nat as [|[|[|[|[|]]]]].
Qed.

Lemma next_byte r B b bs :
  uint_ok 8 B → uint_ok 8 b → bytes_ok bs → reader_at r B (b :: bs) →
  ∃ r', next r = (Some b, r') ∧ reader_at r' b bs.
Proof.
  intros HB Hb Hbs [Hbytes Hlast]. destruct r as [rb rl rp]. cbn [r_bytes r_last_byte r_pos] in *.
  pose proof (Nat.mod_upper_bound rp 5 ltac:(lia)) as Hp.
  pose proof (next_pos_mod rp) as Hnp.
  pose proof (hd_byte bs Hbs) as Hx.
  pose proof (quintets_range (rp mod 5) B (b :: bs) HB ltac:(by constructor)) as Hrange.
  assert (Forall (λ c, 0 ≤ c < 32) (ahead (rp mod 5) (quintets (rp mod 5) B (b :: bs)))) as Hr.
  { destruct (rp mod 5)%nat; [done|]. by inversion Hrange. }
  clear Hrange. subst rb. rewrite next_eval by done. clear Hr. unfold reader_at.
  destruct (byte_parts b Hb) as (P0 & P1 & P2 & P3 & P4).
  destruct (second_quintet_eval b Hb) as (S0 & S1 & S2 & S3 & S4).
  destruct (rp mod 5)%nat as [|[|[|[|[|]]]]] eqn:Ep; [..|lia];
    cbn [ahead quintets next_pos tail] in *;
    try (specialize (Hlast ltac:(done)); cbn [hd] in Hlast; subst rl);
    rewrite ?S0, ?S1, ?S2, ?S3, ?S4; cbn [app];
    rewrite ?(quintets_head _ b bs) by done;
    (eexists; split; [f_equal; f_equal|cbn [r_pos r_bytes r_last_byte]; rewrite Hnp]).
  - rewrite low_bits_0 by done. exact P0.
  - by rewrite quintets_head by done.
  - by rewrite high_bits_1, low_bits_1.
  - by rewrite quintets_head by done.
  - by rewrite high_bits_2, low_bits_2.
  - by rewrite quintets_head by done.
  - by rewrite high_bits_3, low_bits_3.
  - by rewrite quintets_head by done.
  - by rewrite high_bits_4.
  - done.
Qed.

Lemma next_end r B : reader_at r B [] → fst (next r) = None.
Proof.
  intros [Hbytes _]. destruct r as [rb rl rp]. cbn [r_bytes r_pos] in *. subst rb.
  unfold next. cbn [r_pos]. by destruct (rp mod 5)%nat.
Qed.

Lemma collect_bytes fuel r B bs :
  uint_ok 8 B → bytes_ok bs → reader_at r B bs → (length bs < fuel)%nat →
  collect fuel r = bs.
Proof.
  revert r B bs. induction fuel as [|fuel IH]; intros r B bs HB Hbs Hr Hfuel; [lia|].
  cbn [collect]. destruct Hbs as [|b bs Hb Hbs].
  - pose proof (next_end r B Hr) as Hend. by destruct (next r) as [[]].
  - destruct (next_byte r B b bs HB Hb Hbs Hr) as (r' & -> & Hr').
    f_equal. simpl in Hfuel. eapply IH; eauto with lia.
Qed.

(** Every byte costs at least one quintet, so the reader's fuel is enough. *)
Lemma quintets_length p B bs : (length bs ≤ length (quintets p B bs))%nat.
Proof.
  revert p B. induction bs as [|b bs IH]; intros p B; simpl; [lia|].
  rewrite length_app. specialize (IH (next_pos p) b). lia.
Qed.

(** whatever bytes are written, [finalize] returns a string (no table
    index is out of range) and the reader recovers exactly those bytes. *)
Theorem base32_roundtrip bs :
  bytes_ok bs →
  ∃ s, (w ← from_bytes bs; finalize w) = Some s ∧ read_all s = bs.
Proof.
  intros Hbs. unfold from_bytes.
  rewrite write_finalize by (done || by (split; simpl; lia)).
  eexists. split; [done|]. unfold read_all. cbn [with_capacity with_raw_capacity result app pos last_byte].
  apply (collect_bytes _ _ 0); [split; lia|done| |].
  - by split.
  - rewrite length_fmap. pose proof (quintets_length (0 mod 5) 0 bs). lia.
Qed.

Lemma base32_roundtrip_witness :
  ∃ s, (w ← from_bytes [84; 4; 43; 77; 62; 55; 92]; finalize w) = Some s
       ∧ read_all s = [84; 4; 43; 77; 62; 55; 92].
Proof. apply base32_roundtrip. apply (bool_decide_unpack _). by vm_compute. Defined.

End Base32.
