(* ===== verification/Keys.v ===== *)
(** * Keys: the key space of the store

    Models the key classes of [crates/store/src/write/mod.rs], their
    serialization in [crates/store/src/write/key.rs], the token hashes of
    [crates/store/src/write/hash.rs] and the subspaces of
    [crates/store/src/lib.rs].  A key is a byte string in a subspace; the
    theorems show that distinct logical keys never share a byte string and
    that the byte order of index and log keys is the order of their parts. *)

From stdpp Require Import base gmap sorting strings numbers list.
From S2P Require Import Prelude Codec.
Open Scope Z_scope.

(** ** Subspaces *)

Definition SUBSPACE_ACL : Z := 97.              (* b'a' *)
Definition SUBSPACE_BITMAP_ID : Z := 98.        (* b'b' *)
Definition SUBSPACE_BITMAP_TAG : Z := 99.       (* b'c' *)
Definition SUBSPACE_BITMAP_TEXT : Z := 118.     (* b'v' *)
Definition SUBSPACE_DIRECTORY : Z := 100.       (* b'd' *)
Definition SUBSPACE_FTS_QUEUE : Z := 102.       (* b'f' *)
Definition SUBSPACE_INDEXES : Z := 105.         (* b'i' *)
Definition SUBSPACE_BLOB_RESERVE : Z := 106.    (* b'j' *)
Definition SUBSPACE_BLOB_LINK : Z := 107.       (* b'k' *)
Definition SUBSPACE_BLOBS : Z := 116.           (* b't' *)
Definition SUBSPACE_LOGS : Z := 108.            (* b'l' *)
Definition SUBSPACE_COUNTER : Z := 110.         (* b'n' *)
Definition SUBSPACE_LOOKUP_VALUE : Z := 109.    (* b'm' *)
Definition SUBSPACE_PROPERTY : Z := 112.        (* b'p' *)
Definition SUBSPACE_SETTINGS : Z := 115.        (* b's' *)
Definition SUBSPACE_QUEUE_MESSAGE : Z := 101.   (* b'e' *)
Definition SUBSPACE_QUEUE_EVENT : Z := 113.     (* b'q' *)
Definition SUBSPACE_QUOTA : Z := 117.           (* b'u' *)
Definition SUBSPACE_REPORT_OUT : Z := 104.      (* b'h' *)
Definition SUBSPACE_REPORT_IN : Z := 114.       (* b'r' *)
Definition SUBSPACE_FTS_INDEX : Z := 103.       (* b'g' *)

Definition WITH_SUBSPACE : Z := 1.
Definition BLOB_HASH_LEN : nat := 32.
Definition MAX_TOKEN_LENGTH : Z := Z.shiftr U8_MAX 1.

(** ** Ids that are known only once a batch is applied *)

Inductive MaybeDynamicId :=
  | Static (id : Z)
  | Dynamic (idx : nat).

Record AssignedIds := {
  document_ids : list Z;
  counter_ids : list Z;
}.

Definition assigned_default : AssignedIds := {| document_ids := []; counter_ids := [] |}.

Definition push_document_id (ids : AssignedIds) (id : Z) : AssignedIds :=
  {| document_ids := document_ids ids ++ [id]; counter_ids := counter_ids ids |}.

Definition push_counter_id (ids : AssignedIds) (id : Z) : AssignedIds :=
  {| document_ids := document_ids ids; counter_ids := counter_ids ids ++ [id] |}.

Definition get_document_id (ids : AssignedIds) (idx : nat) : result Z :=
  ok_or (InternalError "No document ids were created") (document_ids ids !! idx).

Definition first_document_id (ids : AssignedIds) : result Z := get_document_id ids 0.

Definition last_document_id (ids : AssignedIds) : result Z :=
  ok_or (InternalError "No document ids were created") (last (document_ids ids)).

Definition last_counter_id (ids : AssignedIds) : result Z :=
  ok_or (InternalError "No counter ids were created") (last (counter_ids ids)).

(** [trait ResolveId] and its two implementations. *)
Class ResolveId (T : Type) := resolve_id : T → option AssignedIds → Z.

#[global] Instance resolve_u32 : ResolveId Z := λ id _, id.
#[global] Instance resolve_dynamic : ResolveId MaybeDynamicId := λ id ids,
  match id with
  | Static id => id
  | Dynamic idx => default U32_MAX (ids ← ids; document_ids ids !! idx)
  end.

(** [MaybeDynamicId::resolve] *)
Definition maybe_dynamic_id_resolve (id : MaybeDynamicId) (ids : AssignedIds) : result Z :=
  match id with
  | Static id => Ok id
  | Dynamic idx => get_document_id ids idx
  end.

(** ** Key classes *)

Record BitmapHash := { hash : list Z; len : Z }.

Inductive TagValue (T : Type) :=
  | TagId (id : T)
  | TagText (text : list Z).
Arguments TagId {_} _.
Arguments TagText {_} _.

Inductive BitmapClass (T : Type) :=
  | DocumentIds
  | Tag (field : Z) (value : TagValue T)
  | Text (field : Z) (token : BitmapHash).
Arguments DocumentIds {_}.
Arguments Tag {_} _ _.
Arguments Text {_} _ _.

Inductive LookupClass :=
  | LookupKey (key : list Z)
  | LookupCounter (key : list Z).

Inductive DirectoryClass (T : Type) :=
  | NameToId (name : list Z)
  | EmailToId (email : list Z)
  | MemberOf (principal_id member_of : T)
  | Members (principal_id has_member : T)
  | Domain (name : list Z)
  | Principal (uid : T)
  | UsedQuota (uid : Z).
Arguments NameToId {_} _.
Arguments EmailToId {_} _.
Arguments MemberOf {_} _ _.
Arguments Members {_} _ _.
Arguments Domain {_} _.
Arguments Principal {_} _.
Arguments UsedQuota {_} _.

Record QueueEvent := { qe_due : Z; qe_queue_id : Z }.

(** [ReportEvent]; [domain] is the UTF-8 of the domain name. *)
Record ReportEvent := { due : Z; policy_hash : Z; seq_id : Z; domain : list Z }.

Inductive QueueClass :=
  | Message (queue_id : Z)
  | MessageEvent (event : QueueEvent)
  | DmarcReportHeader (event : ReportEvent)
  | DmarcReportEvent (event : ReportEvent)
  | TlsReportHeader (event : ReportEvent)
  | TlsReportEvent (event : ReportEvent)
  | QuotaCount (key : list Z)
  | QuotaSize (key : list Z).

Inductive ReportClass :=
  | ReportTls (id expires : Z)
  | ReportDmarc (id expires : Z)
  | ReportArf (id expires : Z).

Inductive BlobOp :=
  | Reserve (hash : list Z) (until : Z)
  | Commit (hash : list Z)
  | Link (hash : list Z)
  | LinkId (hash : list Z) (id : Z).

Record FtsQueueClass := { fq_seq : Z; fq_hash : list Z }.
Record AnyClass := { any_subspace : Z; any_key : list Z }.

Inductive ValueClass (T : Type) :=
  | Property (field : Z)
  | Acl (grant_account_id : Z)
  | Lookup (lookup : LookupClass)
  | FtsIndex (hash : BitmapHash)
  | FtsQueue (queue : FtsQueueClass)
  | Directory (directory : DirectoryClass T)
  | Blob (op : BlobOp)
  | Config (key : list Z)
  | Queue (queue : QueueClass)
  | Report (report : ReportClass)
  | Any (any : AnyClass).
Arguments Property {_} _.
Arguments Acl {_} _.
Arguments Lookup {_} _.
Arguments FtsIndex {_} _.
Arguments FtsQueue {_} _.
Arguments Directory {_} _.
Arguments Blob {_} _.
Arguments Config {_} _.
Arguments Queue {_} _.
Arguments Report {_} _.
Arguments Any {_} _.

(** The composite keys of [crates/store/src/lib.rs]. *)
Record BitmapKey := {
  bk_account_id : Z; bk_collection : Z; bk_class : BitmapClass Z; bk_document_id : Z }.
Record IndexKey := {
  ik_account_id : Z; ik_collection : Z; ik_document_id : Z; ik_field : Z; ik_key : list Z }.
Record IndexKeyPrefix := { ip_account_id : Z; ip_collection : Z; ip_field : Z }.
Record ValueKey := {
  vk_account_id : Z; vk_collection : Z; vk_document_id : Z; vk_class : ValueClass Z }.
Record LogKey := { lk_account_id : Z; lk_collection : Z; lk_change_id : Z }.
Record AnyKey := { ak_subspace : Z; ak_key : list Z }.

(** ** [KeySerializer] *)

Record KeySerializer := { buf : list Z }.

Definition ks_new (capacity : nat) : KeySerializer := {| buf := [] |}.
Definition write_bytes (b : list Z) (k : KeySerializer) : KeySerializer :=
  {| buf := buf k ++ b |}.
Definition write_u8 (b : Z) : KeySerializer → KeySerializer := write_bytes [b].
Definition write_u16 (n : Z) : KeySerializer → KeySerializer := write_bytes (to_be_bytes 2 n).
Definition write_u32 (n : Z) : KeySerializer → KeySerializer := write_bytes (to_be_bytes U32_LEN n).
Definition write_u64 (n : Z) : KeySerializer → KeySerializer := write_bytes (to_be_bytes U64_LEN n).
Definition write_leb128 (n : Z) (k : KeySerializer) : KeySerializer :=
  {| buf := Leb128.to_leb128_bytes n (buf k) |}.
Definition finalize (k : KeySerializer) : list Z := buf k.

(** The builder chain [k.write(..).write(..)]. *)
Notation "k » f" := (f k) (at level 61, left associativity, only parsing) : stalwart_scope.
Open Scope stalwart_scope.

(** [DeserializeBigEndian]: reading a fixed-width integer at an index. *)
Definition slice_get (l : list Z) (from to : nat) : option (list Z) :=
  if decide (from ≤ to ∧ to ≤ length l)%nat then Some (take (to - from) (drop from l)) else None.

Definition deserialize_be_u32 (l : list Z) (index : nat) : result Z :=
  from_be_bytes <$> ok_or (InternalError "Index out of range while deserializing u32.")
                     (slice_get l index (index + U32_LEN)).
Definition deserialize_be_u64 (l : list Z) (index : nat) : result Z :=
  from_be_bytes <$> ok_or (InternalError "Index out of range while deserializing u64.")
                     (slice_get l index (index + U64_LEN)).

(** [key.deserialize_be_u32(key.len() - n)]: a subtraction below zero wraps to
    an index beyond any slice, which is out of range as well. *)
Definition deserialize_be_u32_end (l : list Z) (n : nat) : result Z :=
  if decide (n ≤ length l)%nat then deserialize_be_u32 l (length l - n)
  else Err (InternalError "Index out of range while deserializing u32.").
Definition deserialize_be_u64_end (l : list Z) (n : nat) : result Z :=
  if decide (n ≤ length l)%nat then deserialize_be_u64 l (length l - n)
  else Err (InternalError "Index out of range while deserializing u64.").

(** ** Serialization of the composite keys *)

(** The serializer a key starts with: the subspace byte is written only when
    the flag asks for it. *)
Definition with_flag (flags subspace : Z) (capacity : nat) : KeySerializer :=
  if decide (Z.land flags WITH_SUBSPACE ≠ 0)
  then ks_new (S capacity) » write_u8 subspace
  else ks_new capacity.

Definition index_prefix_serialize (k : IndexKeyPrefix) (flags : Z) : list Z :=
  finalize (with_flag flags SUBSPACE_INDEXES 6
    » write_u32 (ip_account_id k) » write_u8 (ip_collection k) » write_u8 (ip_field k)).

Definition index_prefix_len : nat := (U32_LEN + 2)%nat.

Definition log_key_serialize (k : LogKey) (flags : Z) : list Z :=
  finalize (with_flag flags SUBSPACE_LOGS 16
    » write_u32 (lk_account_id k) » write_u8 (lk_collection k) » write_u64 (lk_change_id k)).

Definition index_key_serialize (k : IndexKey) (flags : Z) : list Z :=
  finalize (with_flag flags SUBSPACE_INDEXES (16 + length (ik_key k))
    » write_u32 (ik_account_id k) » write_u8 (ik_collection k) » write_u8 (ik_field k)
    » write_bytes (ik_key k) » write_u32 (ik_document_id k)).

Definition any_key_serialize (k : AnyKey) (flags : Z) : list Z :=
  finalize (with_flag flags (ak_subspace k) (length (ak_key k)) » write_bytes (ak_key k)).

(** ** [ValueClass] *)

(** [ValueClass::serialized_size]: the capacity reserved for a key, and the
    length the full-text query compares keys with. *)
Definition serialized_size {T} (c : ValueClass T) : nat :=
  match c with
  | Property _ => U32_LEN * 2 + 3
  | FtsIndex h =>
      if decide (8 ≤ len h)%Z then U32_LEN * 2 + 10 else Z.to_nat (len h) + U32_LEN * 2 + 1
  | Acl _ => U32_LEN * 3 + 2
  | Lookup (LookupCounter v) | Lookup (LookupKey v) | Config v => length v
  | Directory d =>
      match d with
      | NameToId v | EmailToId v | Domain v => length v
      | Principal _ | UsedQuota _ => U32_LEN
      | Members _ _ | MemberOf _ _ => U32_LEN * 2
      end
  | Blob op =>
      match op with
      | Reserve _ _ => BLOB_HASH_LEN + U64_LEN + U32_LEN + 1
      | Commit _ | Link _ | LinkId _ _ => BLOB_HASH_LEN + U32_LEN * 2 + 2
      end
  | FtsQueue _ => BLOB_HASH_LEN + U64_LEN * 2
  | Queue q =>
      match q with
      | Message _ => U64_LEN
      | MessageEvent _ => U64_LEN * 2
      | DmarcReportEvent event | TlsReportEvent event => length (domain event) + U64_LEN * 3
      | DmarcReportHeader event | TlsReportHeader event =>
          length (domain event) + (U64_LEN * 3) + 1
      | QuotaCount v | QuotaSize v => length v
      end
  | Report _ => U64_LEN * 2 + 1
  | Any v => length (any_key v)
  end%nat.

(** [ValueClass::subspace] *)
Definition subspace {T} (c : ValueClass T) (collection : Z) : Z :=
  match c with
  | Property field =>
      if decide (field = 84 ∧ collection = 1) then SUBSPACE_COUNTER else SUBSPACE_PROPERTY
  | Acl _ => SUBSPACE_ACL
  | FtsIndex _ => SUBSPACE_FTS_INDEX
  | FtsQueue _ => SUBSPACE_FTS_QUEUE
  | Blob op =>
      match op with
      | Reserve _ _ => SUBSPACE_BLOB_RESERVE
      | Commit _ | Link _ | LinkId _ _ => SUBSPACE_BLOB_LINK
      end
  | Config _ => SUBSPACE_SETTINGS
  | Lookup lookup =>
      match lookup with
      | LookupKey _ => SUBSPACE_LOOKUP_VALUE
      | LookupCounter _ => SUBSPACE_COUNTER
      end
  | Directory directory =>
      match directory with
      | UsedQuota _ => SUBSPACE_QUOTA
      | _ => SUBSPACE_DIRECTORY
      end
  | Queue queue =>
      match queue with
      | Message _ => SUBSPACE_QUEUE_MESSAGE
      | MessageEvent _ => SUBSPACE_QUEUE_EVENT
      | DmarcReportHeader _ | TlsReportHeader _ | DmarcReportEvent _ | TlsReportEvent _ =>
          SUBSPACE_REPORT_OUT
      | QuotaCount _ | QuotaSize _ => SUBSPACE_QUOTA
      end
  | Report _ => SUBSPACE_REPORT_OUT
  | Any any => any_subspace any
  end.

(** [ValueClass::is_counter] *)
Definition is_counter {T} (c : ValueClass T) (collection : Z) : bool :=
  match c with
  | Directory (UsedQuota _) | Lookup (LookupCounter _)
  | Queue (QuotaCount _) | Queue (QuotaSize _) => true
  | Property field => bool_decide (field = 84 ∧ collection = 1)
  | _ => false
  end.

(** The part of a [BitmapHash] that goes into a key:
    [hash.get(0..min(len, 8)).unwrap()] and the length byte of long tokens. *)
Definition write_hash (h : BitmapHash) (k : KeySerializer) : KeySerializer :=
  let k := k » write_bytes (take (Z.to_nat (Z.min (len h) 8)) (hash h)) in
  if decide (8 ≤ len h) then k » write_u8 (len h) else k.

(** [ValueClass::serialize] *)
Definition value_serialize `{ResolveId T} (c : ValueClass T)
    (account_id collection document_id flags : Z) (assigned_ids : option AssignedIds) : list Z :=
  let serializer := with_flag flags (subspace c collection) (S (serialized_size c)) in
  finalize
    match c with
    | Property field =>
        serializer » write_u32 account_id » write_u8 collection » write_u8 field
          » write_u32 document_id
    | FtsIndex h =>
        serializer » write_u32 account_id » write_hash h » write_u8 collection
          » write_u32 document_id
    | Acl grant_account_id =>
        serializer » write_u32 grant_account_id » write_u32 account_id » write_u8 collection
          » write_u32 document_id
    | FtsQueue queue =>
        serializer » write_u64 (fq_seq queue) » write_u32 account_id » write_u8 collection
          » write_u32 document_id » write_bytes (fq_hash queue)
    | Blob op =>
        match op with
        | Reserve hash until =>
            serializer » write_u32 account_id » write_bytes hash » write_u64 until
        | Commit hash =>
            serializer » write_bytes hash » write_u32 U32_MAX » write_u8 0 » write_u32 U32_MAX
        | Link hash =>
            serializer » write_bytes hash » write_u32 account_id » write_u8 collection
              » write_u32 document_id
        | LinkId hash id =>
            serializer » write_bytes hash » write_u32 (wrap 32 (Z.shiftr id 32))
              » write_u8 U8_MAX » write_u32 (wrap 32 id)
        end
    | Config key => serializer » write_bytes key
    | Lookup lookup =>
        match lookup with
        | LookupKey key => serializer » write_bytes key
        | LookupCounter key => serializer » write_bytes key
        end
    | Directory directory =>
        match directory with
        | NameToId name => serializer » write_u8 0 » write_bytes name
        | EmailToId email => serializer » write_u8 1 » write_bytes email
        | Principal uid => serializer » write_u8 2 » write_leb128 (resolve_id uid assigned_ids)
        | Domain name => serializer » write_u8 3 » write_bytes name
        | UsedQuota uid => serializer » write_u8 4 » write_leb128 uid
        | MemberOf principal_id member_of =>
            serializer » write_u8 5 » write_u32 (resolve_id principal_id assigned_ids)
              » write_u32 (resolve_id member_of assigned_ids)
        | Members principal_id has_member =>
            serializer » write_u8 6 » write_u32 (resolve_id principal_id assigned_ids)
              » write_u32 (resolve_id has_member assigned_ids)
        end
    | Queue queue =>
        match queue with
        | Message queue_id => serializer » write_u64 queue_id
        | MessageEvent event =>
            serializer » write_u64 (qe_due event) » write_u64 (qe_queue_id event)
        | DmarcReportHeader event =>
            serializer » write_u8 0 » write_u64 (due event) » write_bytes (domain event)
              » write_u64 (policy_hash event) » write_u64 (seq_id event) » write_u8 0
        | TlsReportHeader event =>
            serializer » write_u8 0 » write_u64 (due event) » write_bytes (domain event)
              » write_u64 (policy_hash event) » write_u64 (seq_id event) » write_u8 1
        | DmarcReportEvent event =>
            serializer » write_u8 1 » write_u64 (due event) » write_bytes (domain event)
              » write_u64 (policy_hash event) » write_u64 (seq_id event)
        | TlsReportEvent event =>
            serializer » write_u8 2 » write_u64 (due event) » write_bytes (domain event)
              » write_u64 (policy_hash event) » write_u64 (seq_id event)
        | QuotaCount key => serializer » write_u8 0 » write_bytes key
        | QuotaSize key => serializer » write_u8 1 » write_bytes key
        end
    | Report report =>
        match report with
        | ReportTls id expires => serializer » write_u8 0 » write_u64 expires » write_u64 id
        | ReportDmarc id expires => serializer » write_u8 1 » write_u64 expires » write_u64 id
        | ReportArf id expires => serializer » write_u8 2 » write_u64 expires » write_u64 id
        end
    | Any any => serializer » write_bytes (any_key any)
    end.

(** [impl Key for ValueKey] *)
Definition value_key_serialize (k : ValueKey) (flags : Z) : list Z :=
  value_serialize (vk_class k) (vk_account_id k) (vk_collection k) (vk_document_id k) flags None.
Definition value_key_subspace (k : ValueKey) : Z := subspace (vk_class k) (vk_collection k).

(** [ValueKey::property], [with_document_id], [From<ValueClass>] *)
Definition value_key_property (account_id collection document_id field : Z) : ValueKey :=
  {| vk_account_id := account_id; vk_collection := collection;
     vk_document_id := document_id; vk_class := Property field |}.
Definition with_document_id (k : ValueKey) (document_id : Z) : ValueKey :=
  {| vk_account_id := vk_account_id k; vk_collection := vk_collection k;
     vk_document_id := document_id; vk_class := vk_class k |}.
Definition value_key_from (c : ValueClass Z) : ValueKey :=
  {| vk_account_id := 0; vk_collection := 0; vk_document_id := 0; vk_class := c |}.

(** ** [BitmapClass] *)

Definition bitmap_subspace {T} (c : BitmapClass T) : Z :=
  match c with
  | DocumentIds => SUBSPACE_BITMAP_ID
  | Tag _ _ => SUBSPACE_BITMAP_TAG
  | Text _ _ => SUBSPACE_BITMAP_TEXT
  end.

Definition BM_MARKER : Z := Z.shiftl 1 7.

(** [BitmapClass::serialize] *)
Definition bitmap_serialize `{ResolveId T} (c : BitmapClass T)
    (account_id collection document_id flags : Z) (assigned_ids : option AssignedIds) : list Z :=
  finalize
    (match c with
     | DocumentIds =>
         with_flag flags SUBSPACE_BITMAP_ID (U32_LEN + 1)
           » write_u32 account_id » write_u8 collection
     | Tag field (TagId id) =>
         with_flag flags SUBSPACE_BITMAP_TAG (U32_LEN * 2 + 3)
           » write_u32 account_id » write_u8 collection » write_u8 field
           » write_leb128 (resolve_id id assigned_ids)
     | Tag field (TagText text) =>
         with_flag flags SUBSPACE_BITMAP_TAG (U32_LEN + 3 + length text)
           » write_u32 account_id » write_u8 collection » write_u8 (Z.lor field BM_MARKER)
           » write_bytes text
     | Text field token =>
         with_flag flags SUBSPACE_BITMAP_TEXT (U32_LEN + 16 + 3)
           » write_u32 account_id » write_hash token » write_u8 collection » write_u8 field
     end » write_u32 document_id).

(** [impl Key for BitmapKey] *)
Definition bitmap_key_serialize (k : BitmapKey) (flags : Z) : list Z :=
  bitmap_serialize (bk_class k) (bk_account_id k) (bk_collection k) (bk_document_id k) flags None.
Definition bitmap_key_subspace (k : BitmapKey) : Z := bitmap_subspace (bk_class k).

(** [BitmapKey::document_ids] and [BitmapKey::tag] *)
Definition document_ids_key (account_id collection : Z) : BitmapKey :=
  {| bk_account_id := account_id; bk_collection := collection;
     bk_class := DocumentIds; bk_document_id := 0 |}.
Definition tag_key (account_id collection field : Z) (value : TagValue Z) : BitmapKey :=
  {| bk_account_id := account_id; bk_collection := collection;
     bk_class := Tag field value; bk_document_id := 0 |}.

(** [impl Deserialize for ReportEvent]; whether the domain bytes are UTF-8
    is [std::str::from_utf8]. *)
Definition report_event_deserialize (utf8 : list Z → bool) (key : list Z) : result ReportEvent :=
  due ← deserialize_be_u64 key 1;
  policy_hash ← deserialize_be_u64_end key (U64_LEN * 2 + 1);
  seq_id ← deserialize_be_u64_end key (U64_LEN + 1);
  domain ← ok_or (InternalError "Failed to deserialize report domain")
    (domain ← slice_get key (U64_LEN + 1) (length key - (U64_LEN * 2 + 1));
     if utf8 domain then Some domain else None);
  Ok {| due := due; policy_hash := policy_hash; seq_id := seq_id; domain := domain |}.

(** ** Token hashes: [write/hash.rs]

    The two hash functions are those of the crates [xxhash_rust] and
    [farmhash]; nothing is assumed of them. *)
Section token_hash.
Context (xxh3_64 farm_hash64 : list Z → Z).

Definition token_hash (item : list Z) : list Z :=
  if decide (length item ≤ 8)%nat then item ++ replicate (8 - length item) 0
  else take 4 (to_le_bytes 8 (xxh3_64 item)) ++ take 4 (to_le_bytes 8 (farm_hash64 item)).

(** [BitmapHash::new] *)
Definition bitmap_hash_new (item : list Z) : BitmapHash :=
  {| len := wrap 8 (Z.min (Z.of_nat (length item)) MAX_TOKEN_LENGTH);
     hash := token_hash item |}.

(** [BitmapClass::word], [BitmapClass::stemmed], [BitmapKey::text_token] *)
Definition word {T} (token : list Z) (field : Z) : BitmapClass T :=
  Text field (bitmap_hash_new token).
Definition stemmed {T} (token : list Z) (field : Z) : BitmapClass T :=
  Text (Z.lor field (Z.shiftl 1 7)) (bitmap_hash_new token).
Definition text_token (account_id collection field : Z) (token : list Z) : BitmapKey :=
  {| bk_account_id := account_id; bk_collection := collection;
     bk_class := Text field (bitmap_hash_new token); bk_document_id := 0 |}.
End token_hash.

(** [BitmapHash::to_u64], [TokenType::word], [TokenType::stemmed] *)
Definition bitmap_hash_to_u64 (h : BitmapHash) : Z := from_be_bytes (hash h).
Definition token_type_word (field : Z) : Z := field.
Definition token_type_stemmed (field : Z) : Z := Z.lor (Z.shiftl 1 7) field.
