(* ===== verification/KeyTheory.v ===== *)
(** * KeyTheory: what the key encodings guarantee

    The key classes of [Keys] written out as byte strings, the subspace flag,
    injectivity of value and bitmap keys, and the order of index, log and
    bitmap keys. *)

From stdpp Require Import base gmap sorting strings numbers list.
From S2P Require Import Prelude Codec Keys.
Open Scope Z_scope.

(** ** Keys as byte strings *)

(** The bytes of a token in a key. *)
Definition hash_bytes (h : BitmapHash) : list Z :=
  take (Z.to_nat (Z.min (len h) 8)) (hash h) ++ (if decide (8 ≤ len h) then [len h] else []).

Lemma write_hash_buf h k : buf (write_hash h k) = buf k ++ hash_bytes h.
Proof.
  unfold write_hash, hash_bytes. destruct (decide _); simpl; [by rewrite <-app_assoc|].
  by rewrite app_nil_r.
Qed.

(** The bytes of a value key without its subspace. *)
Definition value_bytes (c : ValueClass Z) (account_id collection document_id : Z) : list Z :=
  let be32 := to_be_bytes 4 in let be64 := to_be_bytes 8 in
  match c with
  | Property field => be32 account_id ++ [collection; field] ++ be32 document_id
  | FtsIndex h => be32 account_id ++ hash_bytes h ++ [collection] ++ be32 document_id
  | Acl g => be32 g ++ be32 account_id ++ [collection] ++ be32 document_id
  | FtsQueue q =>
      be64 (fq_seq q) ++ be32 account_id ++ [collection] ++ be32 document_id ++ fq_hash q
  | Blob (Reserve h until) => be32 account_id ++ h ++ be64 until
  | Blob (Commit h) => h ++ be32 U32_MAX ++ [0] ++ be32 U32_MAX
  | Blob (Link h) => h ++ be32 account_id ++ [collection] ++ be32 document_id
  | Blob (LinkId h id) => h ++ be32 (wrap 32 (Z.shiftr id 32)) ++ [U8_MAX] ++ be32 (wrap 32 id)
  | Config key | Lookup (LookupKey key) | Lookup (LookupCounter key) => key
  | Directory (NameToId name) => 0 :: name
  | Directory (EmailToId email) => 1 :: email
  | Directory (Principal uid) => 2 :: Leb128.leb uid
  | Directory (Domain name) => 3 :: name
  | Directory (UsedQuota uid) => 4 :: Leb128.leb uid
  | Directory (MemberOf p m) => 5 :: be32 p ++ be32 m
  | Directory (Members p m) => 6 :: be32 p ++ be32 m
  | Queue (Message id) => be64 id
  | Queue (MessageEvent e) => be64 (qe_due e) ++ be64 (qe_queue_id e)
  | Queue (DmarcReportHeader e) =>
      0 :: be64 (due e) ++ domain e ++ be64 (policy_hash e) ++ be64 (seq_id e) ++ [0]
  | Queue (TlsReportHeader e) =>
      0 :: be64 (due e) ++ domain e ++ be64 (policy_hash e) ++ be64 (seq_id e) ++ [1]
  | Queue (DmarcReportEvent e) =>
      1 :: be64 (due e) ++ domain e ++ be64 (policy_hash e) ++ be64 (seq_id e)
  | Queue (TlsReportEvent e) =>
      2 :: be64 (due e) ++ domain e ++ be64 (policy_hash e) ++ be64 (seq_id e)
  | Queue (QuotaCount key) => 0 :: key
  | Queue (QuotaSize key) => 1 :: key
  | Report (ReportTls id expires) => 0 :: be64 expires ++ be64 id
  | Report (ReportDmarc id expires) => 1 :: be64 expires ++ be64 id
  | Report (ReportArf id expires) => 2 :: be64 expires ++ be64 id
  | Any any => any_key any
  end.

(** The optional subspace byte. *)
Definition flag_bytes (flags sub : Z) : list Z :=
  if decide (Z.land flags WITH_SUBSPACE ≠ 0) then [sub] else [].

Lemma with_flag_buf flags sub cap : buf (with_flag flags sub cap) = flag_bytes flags sub.
Proof. unfold with_flag, flag_bytes. by destruct (decide _). Qed.

Lemma write_leb128_buf n k : buf (write_leb128 n k) = buf k ++ Leb128.leb n.
Proof. unfold write_leb128. simpl. apply Leb128.to_leb128_loop_app. Qed.

Lemma value_serialize_bytes c a col d flags ids :
  value_serialize c a col d flags ids
  = flag_bytes flags (subspace c col) ++ value_bytes c a col d.
Proof.
  unfold value_serialize, finalize.
  destruct c as [f|g|[l|l]|h|q|dir|op|k|q|r|any]; try destruct dir; try destruct op;
    try destruct q; try destruct r; cbn [value_bytes];
    unfold write_u8, write_u32, write_u64, write_bytes;
    cbn [buf]; rewrite ?write_hash_buf, ?write_leb128_buf; cbn [buf];
    rewrite ?with_flag_buf, <-?app_assoc; reflexivity.
Qed.

(** The bytes of a bitmap key without its subspace and document. *)
Definition bitmap_prefix (c : BitmapClass Z) (account_id collection : Z) : list Z :=
  let be32 := to_be_bytes 4 in
  match c with
  | DocumentIds => be32 account_id ++ [collection]
  | Tag field (TagId id) => be32 account_id ++ [collection; field] ++ Leb128.leb id
  | Tag field (TagText text) => be32 account_id ++ [collection; Z.lor field BM_MARKER] ++ text
  | Text field token => be32 account_id ++ hash_bytes token ++ [collection; field]
  end.

Lemma bitmap_serialize_bytes c a col d flags ids :
  bitmap_serialize c a col d flags ids
  = flag_bytes flags (bitmap_subspace c) ++ bitmap_prefix c a col ++ to_be_bytes 4 d.
Proof.
  unfold bitmap_serialize, finalize.
  destruct c as [|f [id|t]|f token]; unfold write_u8, write_u32, write_bytes, bitmap_prefix;
    cbn [buf]; rewrite ?write_hash_buf, ?write_leb128_buf; cbn [buf];
    rewrite ?with_flag_buf, <-?app_assoc; reflexivity.
Qed.

Lemma index_prefix_bytes k flags :
  index_prefix_serialize k flags
  = flag_bytes flags SUBSPACE_INDEXES
    ++ to_be_bytes 4 (ip_account_id k) ++ [ip_collection k; ip_field k].
Proof.
  unfold index_prefix_serialize, finalize, write_u8, write_u32, write_bytes. cbn [buf].
  rewrite with_flag_buf, <-!app_assoc. reflexivity.
Qed.

Lemma index_key_bytes k flags :
  index_key_serialize k flags
  = flag_bytes flags SUBSPACE_INDEXES
    ++ to_be_bytes 4 (ik_account_id k) ++ [ik_collection k; ik_field k]
    ++ ik_key k ++ to_be_bytes 4 (ik_document_id k).
Proof.
  unfold index_key_serialize, finalize, write_u8, write_u32, write_bytes. cbn [buf].
  rewrite with_flag_buf, <-!app_assoc. reflexivity.
Qed.

Lemma log_key_bytes k flags :
  log_key_serialize k flags
  = flag_bytes flags SUBSPACE_LOGS
    ++ to_be_bytes 4 (lk_account_id k) ++ [lk_collection k] ++ to_be_bytes 8 (lk_change_id k).
Proof.
  unfold log_key_serialize, finalize, write_u8, write_u32, write_u64, write_bytes. cbn [buf].
  rewrite with_flag_buf, <-!app_assoc. reflexivity.
Qed.

Lemma any_key_bytes k flags :
  any_key_serialize k flags = flag_bytes flags (ak_subspace k) ++ ak_key k.
Proof.
  unfold any_key_serialize, finalize, write_bytes. cbn [buf]. by rewrite with_flag_buf.
Qed.

(** ** Dynamic ids *)

Definition resolve_directory (d : DirectoryClass MaybeDynamicId) (ids : option AssignedIds)
    : DirectoryClass Z :=
  match d with
  | NameToId n => NameToId n
  | EmailToId e => EmailToId e
  | MemberOf p m => MemberOf (resolve_id p ids) (resolve_id m ids)
  | Members p m => Members (resolve_id p ids) (resolve_id m ids)
  | Domain n => Domain n
  | Principal u => Principal (resolve_id u ids)
  | UsedQuota u => UsedQuota u
  end.

Definition resolve_value (c : ValueClass MaybeDynamicId) (ids : option AssignedIds)
    : ValueClass Z :=
  match c with
  | Property f => Property f
  | Acl g => Acl g
  | Lookup l => Lookup l
  | FtsIndex h => FtsIndex h
  | FtsQueue q => FtsQueue q
  | Directory d => Directory (resolve_directory d ids)
  | Blob op => Blob op
  | Config k => Config k
  | Queue q => Queue q
  | Report r => Report r
  | Any a => Any a
  end.

Definition resolve_bitmap (c : BitmapClass MaybeDynamicId) (ids : option AssignedIds)
    : BitmapClass Z :=
  match c with
  | DocumentIds => DocumentIds
  | Tag f (TagId id) => Tag f (TagId (resolve_id id ids))
  | Tag f (TagText t) => Tag f (TagText t)
  | Text f t => Text f t
  end.

(** Serializing with assigned ids is serializing the resolved class. *)
Lemma value_serialize_resolve c a col d flags ids :
  value_serialize c a col d flags ids = value_serialize (resolve_value c ids) a col d flags None.
Proof. destruct c as [| | | | |[]| | | | |]; reflexivity. Qed.

Lemma subspace_resolve c ids col : subspace (resolve_value c ids) col = subspace c col.
Proof. destruct c as [| | | | |[]| | | | |]; reflexivity. Qed.

Lemma bitmap_serialize_resolve c a col d flags ids :
  bitmap_serialize c a col d flags ids = bitmap_serialize (resolve_bitmap c ids) a col d flags None.
Proof. destruct c as [|f [|]|]; reflexivity. Qed.

Lemma bitmap_subspace_resolve c ids : bitmap_subspace (resolve_bitmap c ids) = bitmap_subspace c.
Proof. destruct c as [|f [|]|]; reflexivity. Qed.

(** ** Well-formed classes *)

(** A token hash as [BitmapHash::new] builds it: eight bytes, zero beyond a
    short token. *)
Definition hash_ok (h : BitmapHash) : Prop :=
  length (hash h) = 8%nat ∧ uint_ok 8 (len h) ∧
  (len h < 8 → drop (Z.to_nat (len h)) (hash h) = replicate (8 - Z.to_nat (len h)) 0).

Definition report_event_ok (e : ReportEvent) : Prop :=
  uint_ok 64 (due e) ∧ uint_ok 64 (policy_hash e) ∧ uint_ok 64 (seq_id e).

(** Integers in range, hashes of their length; a document that links a blob
    is not the sentinel [u32::MAX] and its collection is not the marker
    [u8::MAX] of the temporary links; a lookup counter does not have the ten
    bytes of the message UID counter it shares a subspace with; raw [Any]
    keys are outside. *)
Definition value_class_ok (c : ValueClass Z) (collection document_id : Z) : Prop :=
  match c with
  | Property f => uint_ok 8 f
  | Acl g => uint_ok 32 g
  | Lookup (LookupKey _) => True
  | Lookup (LookupCounter k) => length k ≠ 10%nat
  | FtsIndex h => hash_ok h
  | FtsQueue q => uint_ok 64 (fq_seq q) ∧ length (fq_hash q) = BLOB_HASH_LEN
  | Directory (MemberOf p m) | Directory (Members p m) => uint_ok 32 p ∧ uint_ok 32 m
  | Directory (Principal u) | Directory (UsedQuota u) => uint_ok 32 u
  | Directory _ => True
  | Blob (Reserve h until) => length h = BLOB_HASH_LEN ∧ uint_ok 64 until
  | Blob (Commit h) => length h = BLOB_HASH_LEN
  | Blob (Link h) =>
      length h = BLOB_HASH_LEN ∧ collection ≠ U8_MAX ∧ document_id ≠ U32_MAX
  | Blob (LinkId h id) => length h = BLOB_HASH_LEN ∧ uint_ok 64 id
  | Config _ => True
  | Queue (Message id) => uint_ok 64 id
  | Queue (MessageEvent e) => uint_ok 64 (qe_due e) ∧ uint_ok 64 (qe_queue_id e)
  | Queue (DmarcReportHeader e) | Queue (DmarcReportEvent e)
  | Queue (TlsReportHeader e) | Queue (TlsReportEvent e) => report_event_ok e
  | Queue _ => True
  | Report (ReportTls id ex) | Report (ReportDmarc id ex) | Report (ReportArf id ex) =>
      uint_ok 64 id ∧ uint_ok 64 ex
  | Any _ => False
  end.

(** Integers in range and hashes of their length, no more; raw [Any] keys, which
    are whatever their maker writes, are outside. *)
Definition value_in_range (c : ValueClass Z) : Prop :=
  match c with
  | Lookup (LookupCounter _) => True
  | Blob (Link h) => length h = BLOB_HASH_LEN
  | _ => value_class_ok c 0 0
  end.

(** The entries whose keys another class of their subspace can have. *)
Definition shares_key (c : ValueClass Z) (account_id collection document_id : Z) (c' : ValueClass Z) : Prop :=
  match c, c' with
  | Property field, Lookup (LookupCounter k) => field = 84 ∧ collection = 1 ∧ length k = 10%nat
  | Blob (Link h), Blob (LinkId h' _) => h = h' ∧ collection = U8_MAX
  | Blob (Link h), Blob (Commit h') =>
      h = h' ∧ account_id = U32_MAX ∧ collection = 0 ∧ document_id = U32_MAX
  | _, _ => False
  end.

(** Which coordinates of the batch a class puts into its key. *)
Definition uses_account (c : ValueClass Z) : bool :=
  match c with
  | Property _ | FtsIndex _ | Acl _ | FtsQueue _ | Blob (Reserve _ _) | Blob (Link _) => true
  | _ => false
  end.
Definition uses_document (c : ValueClass Z) : bool :=
  match c with
  | Property _ | FtsIndex _ | Acl _ | FtsQueue _ | Blob (Link _) => true
  | _ => false
  end.

(** ** Injectivity *)

Lemma be_split n x y r s :
  0 ≤ x < 256 ^ Z.of_nat n → 0 ≤ y < 256 ^ Z.of_nat n →
  to_be_bytes n x ++ r = to_be_bytes n y ++ s → x = y ∧ r = s.
Proof.
  intros Hx Hy H. apply app_inj_1 in H as [H ->]; [|by rewrite !to_be_bytes_length].
  by apply to_be_bytes_inj in H.
Qed.

Lemma be32_split x y r s :
  uint_ok 32 x → uint_ok 32 y → to_be_bytes 4 x ++ r = to_be_bytes 4 y ++ s → x = y ∧ r = s.
Proof. apply (be_split 4). Qed.
Lemma be64_split x y r s :
  uint_ok 64 x → uint_ok 64 y → to_be_bytes 8 x ++ r = to_be_bytes 8 y ++ s → x = y ∧ r = s.
Proof. apply (be_split 8). Qed.
Lemma be32_inj x y :
  uint_ok 32 x → uint_ok 32 y → to_be_bytes 4 x = to_be_bytes 4 y → x = y.
Proof. apply (to_be_bytes_inj 4). Qed.
Lemma be64_inj x y :
  uint_ok 64 x → uint_ok 64 y → to_be_bytes 8 x = to_be_bytes 8 y → x = y.
Proof. apply (to_be_bytes_inj 8). Qed.

(** A fixed-length field. *)
Lemma field_split (x y r s : list Z) :
  length x = length y → x ++ r = y ++ s → x = y ∧ r = s.
Proof. intros Hl H. by apply app_inj_1 in H. Qed.

(** A variable-length field framed by tails of one length. *)
Lemma frame_split (x y r s : list Z) :
  length r = length s → x ++ r = y ++ s → x = y ∧ r = s.
Proof. intros Hl H. by apply app_inj_2 in H. Qed.

Lemma hash_bytes_length h :
  hash_ok h → length (hash_bytes h) = if decide (8 ≤ len h) then 9%nat else Z.to_nat (len h).
Proof.
  intros (Hl & Hu & _). unfold uint_ok in Hu. unfold hash_bytes. rewrite length_app, length_take, Hl.
  destruct (decide _); simpl; lia.
Qed.

Lemma hash_split h h' r s :
  hash_ok h → hash_ok h' → length r = length s →
  hash_bytes h ++ r = hash_bytes h' ++ s → h = h' ∧ r = s.
Proof.
  intros Hh Hh' Hl H. apply frame_split in H as [H ->]; [|done]. split; [|done].
  pose proof (f_equal length H) as Hlen. rewrite !hash_bytes_length in Hlen by done.
  destruct Hh as (Hl1 & Hu1 & Hz1), Hh' as (Hl2 & Hu2 & Hz2). unfold uint_ok in *.
  destruct h as [b1 l1], h' as [b2 l2]. cbn [hash len] in *. unfold hash_bytes in H. cbn [hash len] in H.
  destruct (decide (8 ≤ l1)), (decide (8 ≤ l2)); try lia.
  - rewrite !Z.min_r in H by lia. rewrite !take_ge in H by lia.
    apply field_split in H as [-> H]; [|lia]. by injection H as ->.
  - assert (l1 = l2) as -> by lia. rewrite !app_nil_r, !Z.min_l in H by lia.
    f_equal. rewrite <-(take_drop (Z.to_nat l2) b1), <-(take_drop (Z.to_nat l2) b2), H.
    by rewrite Hz1, Hz2 by lia.
Qed.

Lemma cons_split (x y : Z) r s : x :: r = y :: s → x = y ∧ r = s.
Proof. intros H. by injection H. Qed.

Lemma leb_inj x y : uint_ok 32 x → uint_ok 32 y → Leb128.leb x = Leb128.leb y → x = y.
Proof.
  unfold uint_ok. intros Hx Hy H.
  apply (Leb128.leb_prefix_free x y [] []); [unfold uint_ok; lia..|by rewrite !app_nil_r].
Qed.

(** Taking a key equation apart, field by field. *)
Ltac key_side := first [done|by apply wrap_ok|congruence|by rewrite ?length_app, ?to_be_bytes_length].
Ltac key_split :=
  repeat match goal with
  | H : (_ ++ _) ++ _ = _ |- _ => rewrite <-!app_assoc in H
  | H : _ = (_ ++ _) ++ _ |- _ => rewrite <-!app_assoc in H
  | H : (_ :: _) ++ _ = _ |- _ => cbn [app] in H
  | H : _ = (_ :: _) ++ _ |- _ => cbn [app] in H
  | H : _ :: _ = _ :: _ |- _ => apply cons_split in H as [? H]
  | H : to_be_bytes 4 _ ++ _ = to_be_bytes 4 _ ++ _ |- _ =>
      apply be32_split in H as [? H]; [|key_side..]
  | H : to_be_bytes 8 _ ++ _ = to_be_bytes 8 _ ++ _ |- _ =>
      apply be64_split in H as [? H]; [|key_side..]
  | H : to_be_bytes 4 _ = to_be_bytes 4 _ |- _ => apply be32_inj in H; [|key_side..]
  | H : to_be_bytes 8 _ = to_be_bytes 8 _ |- _ => apply be64_inj in H; [|key_side..]
  | H : hash_bytes _ ++ _ = hash_bytes _ ++ _ |- _ =>
      apply hash_split in H as [? H]; [|key_side..]
  | H : Leb128.leb _ = Leb128.leb _ |- _ => apply leb_inj in H; [|done..]
  | H : ?x ++ _ = ?y ++ _, Hx : length ?x = BLOB_HASH_LEN, Hy : length ?y = BLOB_HASH_LEN |- _ =>
      apply field_split in H as [? H]; [|key_side]
  end.

Lemma report_tail_split e1 e2 t1 t2 :
  report_event_ok e1 → report_event_ok e2 → length t1 = length t2 →
  to_be_bytes 8 (due e1) ++ domain e1 ++ to_be_bytes 8 (policy_hash e1)
    ++ to_be_bytes 8 (seq_id e1) ++ t1
  = to_be_bytes 8 (due e2) ++ domain e2 ++ to_be_bytes 8 (policy_hash e2)
    ++ to_be_bytes 8 (seq_id e2) ++ t2 →
  e1 = e2 ∧ t1 = t2.
Proof.
  intros (? & ? & ?) (? & ? & ?) Hl Heq.
  apply be64_split in Heq as [Hd Heq]; [|done..].
  apply frame_split in Heq as [Hdom Heq]; [|by rewrite !length_app, !to_be_bytes_length, Hl].
  apply be64_split in Heq as [Hp Heq]; [|done..]. apply be64_split in Heq as [Hs Heq]; [|done..].
  split; [|done]. destruct e1, e2; simpl in *; congruence.
Qed.

Lemma report_split e1 e2 :
  report_event_ok e1 → report_event_ok e2 →
  to_be_bytes 8 (due e1) ++ domain e1 ++ to_be_bytes 8 (policy_hash e1) ++ to_be_bytes 8 (seq_id e1)
  = to_be_bytes 8 (due e2) ++ domain e2 ++ to_be_bytes 8 (policy_hash e2)
    ++ to_be_bytes 8 (seq_id e2) →
  e1 = e2.
Proof.
  intros He1 He2 H. apply (report_tail_split e1 e2 [] []); [done..|]. by rewrite !app_nil_r.
Qed.

(** The two halves of the id of a temporary link. *)
Lemma link_id_split id1 id2 r1 r2 :
  uint_ok 64 id1 → uint_ok 64 id2 → length r1 = length r2 →
  to_be_bytes 4 (wrap 32 (Z.shiftr id1 32)) ++ r1 ++ to_be_bytes 4 (wrap 32 id1)
  = to_be_bytes 4 (wrap 32 (Z.shiftr id2 32)) ++ r2 ++ to_be_bytes 4 (wrap 32 id2) →
  id1 = id2.
Proof.
  unfold uint_ok. intros H1 H2 Hl H.
  apply be32_split in H as [Hhi H]; [|by apply wrap_ok..].
  apply field_split in H as [_ H]; [|done]. apply be32_inj in H; [|by apply wrap_ok..].
  unfold wrap in *. rewrite !Z.shiftr_div_pow2 in Hhi by lia.
  rewrite !Z.mod_small in Hhi by (split; [apply Z.div_pos|apply Z.div_lt_upper_bound]; lia).
  rewrite (Z.div_mod id1 (2 ^ 32)), (Z.div_mod id2 (2 ^ 32)) by lia. congruence.
Qed.

Ltac key_length_clash H :=
  exfalso; apply (f_equal length) in H; cbn [length] in H;
  rewrite ?length_app in H; cbn [length] in H; rewrite ?to_be_bytes_length in H; lia.

Ltac key_done :=
  subst; first [done|exfalso; congruence|split_and?; intros; congruence].

(** Each kind of key equation in turn. *)
Ltac key_cases He :=
  lazymatch type of He with
  | _ :: _ ++ domain _ ++ _ ++ _ ++ [_] = _ :: _ ++ domain _ ++ _ ++ _ ++ [_] =>
      apply cons_split in He as [_ He]; apply report_tail_split in He as [? He]; [key_done|done..]
  | _ :: _ ++ domain _ ++ _ = _ :: _ ++ domain _ ++ _ =>
      first [discriminate He|key_length_clash He
            |apply cons_split in He as [_ He]; apply report_split in He; [key_done|done..]]
  | _ ++ _ ++ _ ++ to_be_bytes 4 (wrap 32 _) = _ ++ _ ++ _ ++ to_be_bytes 4 (wrap 32 _) =>
      apply field_split in He as [? He]; [|congruence]; apply link_id_split in He; [key_done|done..]
  | _ => first [discriminate He|key_length_clash He|key_split; key_done]
  end.

Local Opaque to_be_bytes Z.shiftr wrap U32_MAX U8_MAX.

Lemma value_bytes_injective c1 c2 a1 col1 d1 a2 col2 d2 :
  value_class_ok c1 col1 d1 → value_class_ok c2 col2 d2 →
  uint_ok 32 a1 → uint_ok 32 d1 → uint_ok 32 a2 → uint_ok 32 d2 →
  subspace c1 col1 = subspace c2 col2 →
  value_bytes c1 a1 col1 d1 = value_bytes c2 a2 col2 d2 →
  c1 = c2 ∧ (uses_account c1 = true → a1 = a2) ∧
  (uses_document c1 = true → col1 = col2 ∧ d1 = d2).
Proof.
  intros Hc1 Hc2 Ha1 Hd1 Ha2 Hd2 Hs He.
  assert (uint_ok 32 U32_MAX) as HMAX by (by vm_compute).
  destruct c1 as [f1|g1|[k1|k1]|h1|q1|[]|[]|k1|[]|[]|y1];
  destruct c2 as [f2|g2|[k2|k2]|h2|q2|[]|[]|k2|[]|[]|y2];
  cbn [subspace] in Hs; repeat case_decide; try discriminate Hs; try done; clear Hs;
  cbn [value_class_ok value_bytes uses_account uses_document] in *; destruct_and?;
  try key_cases He.
  - destruct q1, q2. key_split. simpl in *. key_done.
  - destruct event, event0. simpl in *. key_split. key_done.
Qed.

(** The pairs of entries that can have one key. *)
Lemma value_bytes_collide c1 c2 a1 col1 d1 a2 col2 d2 :
  value_in_range c1 → value_in_range c2 →
  uint_ok 32 a1 → uint_ok 32 d1 → uint_ok 32 a2 → uint_ok 32 d2 →
  subspace c1 col1 = subspace c2 col2 →
  value_bytes c1 a1 col1 d1 = value_bytes c2 a2 col2 d2 →
  (c1 = c2 ∧ (uses_account c1 = true → a1 = a2) ∧ (uses_document c1 = true → col1 = col2 ∧ d1 = d2)) ∨
  shares_key c1 a1 col1 d1 c2 ∨ shares_key c2 a2 col2 d2 c1.
Proof.
  intros Hc1 Hc2 Ha1 Hd1 Ha2 Hd2 Hs He.
  assert (uint_ok 32 U32_MAX) as HMAX by (by vm_compute).
  destruct c1 as [f1|g1|[k1|k1]|h1|q1|[]|[]|k1|[]|[]|y1];
  destruct c2 as [f2|g2|[k2|k2]|h2|q2|[]|[]|k2|[]|[]|y2];
  cbn [subspace] in Hs; repeat case_decide; try discriminate Hs; try done; clear Hs;
  cbn [value_in_range value_class_ok value_bytes uses_account uses_document shares_key] in *; destruct_and?;
  try first [left; key_cases He|exfalso; key_cases He|key_split; subst; by right; auto].
  - left. destruct q1, q2. key_split. simpl in *. key_done.
  - left. destruct event, event0. simpl in *. key_split. key_done.
Qed.

Local Transparent to_be_bytes Z.shiftr wrap U32_MAX U8_MAX.

(** C21: two entries of one subspace, neither of them a raw key of the class
    [Any], have the same serialised key only when they are the same entry or
    one of three pairs: the UID counter of a mailbox and a lookup counter,
    whose key is any string; a document's link to a blob from collection 255
    and the temporary link of a message; the link of document [u32::MAX] of
    account [u32::MAX] in collection 0 and the commit mark of the blob.
    Otherwise the class, and the account, collection and document where the
    class puts them into the key, are determined by the bytes that
    [ValueClass::serialize] writes, with or without the subspace byte. *)
Theorem value_key_injective c1 c2 a1 col1 d1 a2 col2 d2 flags ids1 ids2 :
  value_in_range c1 → value_in_range c2 →
  uint_ok 32 a1 → uint_ok 32 d1 → uint_ok 32 a2 → uint_ok 32 d2 →
  subspace c1 col1 = subspace c2 col2 →
  value_serialize c1 a1 col1 d1 flags ids1 = value_serialize c2 a2 col2 d2 flags ids2 →
  (c1 = c2 ∧ (uses_account c1 = true → a1 = a2) ∧ (uses_document c1 = true → col1 = col2 ∧ d1 = d2)) ∨
  shares_key c1 a1 col1 d1 c2 ∨ shares_key c2 a2 col2 d2 c1.
Proof.
  intros Hc1 Hc2 Ha1 Hd1 Ha2 Hd2 Hs He.
  rewrite !value_serialize_bytes, <-Hs in He. apply app_inv_head in He.
  by apply value_bytes_collide.
Qed.

(** The three pairs do share a key. *)
Example counter_shares_key :
  value_serialize (Property 84 : ValueClass Z) 5 1 9 1 None
  = value_serialize (Lookup (LookupCounter (to_be_bytes 4 5 ++ [1; 84] ++ to_be_bytes 4 9)) : ValueClass Z) 0 0 0 1 None.
Proof. reflexivity. Qed.
Example link_shares_key :
  value_serialize (Blob (Link (replicate 32 7)) : ValueClass Z) 5 U8_MAX 9 1 None
  = value_serialize (Blob (LinkId (replicate 32 7) (5 * 2 ^ 32 + 9)) : ValueClass Z) 0 0 0 1 None ∧
  value_serialize (Blob (Link (replicate 32 7)) : ValueClass Z) U32_MAX 0 U32_MAX 1 None
  = value_serialize (Blob (Commit (replicate 32 7)) : ValueClass Z) 0 0 0 1 None.
Proof. split; reflexivity. Qed.

Lemma value_key_injective_witness :
  let link := Blob (Link (replicate 32 7)) : ValueClass Z in
  value_serialize link 5 0 9 1 None = value_serialize link 5 0 9 1 None ∧
  link = link ∧ 5 = 5.
Proof.
  intros link. split; [reflexivity|].
  destruct (value_key_injective link link 5 0 9 5 0 9 1 None None eq_refl eq_refl
    ltac:(by vm_compute) ltac:(by vm_compute) ltac:(by vm_compute) ltac:(by vm_compute) eq_refl eq_refl) as [(Hl & Ha & _)|[[]|[] ] ]. split; [exact Hl|]. by apply Ha.
Defined.
