(* ===== verification/KeyOrder.v ===== *)
(** * Key ranges

    The store reads ranges of keys: all keys of a bitmap, an index, a change
    log.  These lemmas say which keys lie between two keys that share a
    prefix, and what the big-endian integer at the end of a key is. *)

From stdpp Require Import base gmap sorting strings numbers list.
From S2P Require Import Prelude Codec Keys KeyTheory.
Open Scope Z_scope.
Open Scope bytes_scope.

(** A key between two extensions of a prefix is an extension of it. *)
Lemma bytes_range_length p lo hi k :
  p ++ lo ≤ᵇ k → k ≤ᵇ p ++ hi → (length p ≤ length k)%nat.
Proof.
  unfold bytes_le. revert k. induction p as [|x p IH]; intros [|y k] Hlo Hhi; cbn in *;
    try lia; try done.
  rewrite (Z.compare_antisym x y) in Hhi. destruct (Z.compare x y); [|done..].
  specialize (IH k Hlo Hhi). lia.
Qed.

Lemma bytes_range_prefix p lo hi k :
  p ++ lo ≤ᵇ k → k ≤ᵇ p ++ hi → k = p ++ drop (length p) k.
Proof.
  intros Hlo Hhi. pose proof (bytes_range_length _ _ _ _ Hlo Hhi) as Hlen.
  rewrite <-(take_drop (length p) k) at 1. f_equal.
  unfold bytes_le in *. rewrite <-(take_drop (length p) k) in Hlo, Hhi.
  rewrite bytes_cmp_app_eqlen in Hlo by (rewrite length_take; lia).
  rewrite bytes_cmp_app_eqlen in Hhi by (rewrite length_take; lia).
  apply bytes_cmp_eq. rewrite (bytes_cmp_antisym p (take _ _)) in Hhi |- *.
  by destruct (bytes_cmp p (take (length p) k)).
Qed.

Lemma bytes_le_app p a b : p ++ a ≤ᵇ p ++ b ↔ a ≤ᵇ b.
Proof. unfold bytes_le. by rewrite bytes_cmp_app. Qed.
Lemma bytes_lt_app p a b : p ++ a <ᵇ p ++ b ↔ a <ᵇ b.
Proof. unfold bytes_lt. by rewrite bytes_cmp_app. Qed.

Lemma be_le n x y :
  0 ≤ x < 256 ^ Z.of_nat n → 0 ≤ y < 256 ^ Z.of_nat n →
  to_be_bytes n x ≤ᵇ to_be_bytes n y ↔ x ≤ y.
Proof.
  intros Hx Hy. unfold bytes_le. rewrite to_be_bytes_cmp by done. apply Z.compare_le_iff.
Qed.
Lemma be_lt n x y :
  0 ≤ x < 256 ^ Z.of_nat n → 0 ≤ y < 256 ^ Z.of_nat n →
  to_be_bytes n x <ᵇ to_be_bytes n y ↔ x < y.
Proof.
  intros Hx Hy. unfold bytes_lt. rewrite to_be_bytes_cmp by done. apply Z.compare_lt_iff.
Qed.

(** Four bytes are the integer they encode. *)
Lemma be32_of_bytes r :
  length r = 4%nat → bytes_ok r →
  uint_ok 32 (from_be_bytes r) ∧ r = to_be_bytes 4 (from_be_bytes r).
Proof.
  intros Hl Hr. pose proof (from_be_bytes_bound r Hr) as Hb. rewrite Hl in Hb.
  split; [exact Hb|]. rewrite <-Hl at 1. symmetry. by apply to_from_be_bytes.
Qed.
Lemma be64_of_bytes r :
  length r = 8%nat → bytes_ok r →
  uint_ok 64 (from_be_bytes r) ∧ r = to_be_bytes 8 (from_be_bytes r).
Proof.
  intros Hl Hr. pose proof (from_be_bytes_bound r Hr) as Hb. rewrite Hl in Hb.
  split; [exact Hb|]. rewrite <-Hl at 1. symmetry. by apply to_from_be_bytes.
Qed.

Lemma be32_zero_le r : length r = 4%nat → bytes_ok r → to_be_bytes 4 0 ≤ᵇ r.
Proof.
  intros Hl Hr. destruct (be32_of_bytes r Hl Hr) as [Hu ->]. apply (be_le 4); [lia|exact Hu|].
  apply Hu.
Qed.
Lemma be32_max_ge r : length r = 4%nat → bytes_ok r → r ≤ᵇ to_be_bytes 4 U32_MAX.
Proof.
  intros Hl Hr. destruct (be32_of_bytes r Hl Hr) as [Hu ->]. unfold uint_ok in Hu.
  apply (be_le 4); [exact Hu|by vm_compute|]. unfold U32_MAX. lia.
Qed.

(** The keys of one bitmap, as a range: prefix and any document id. *)
Lemma bitmap_range p k :
  bytes_ok k → length k = (length p + 4)%nat →
  (p ++ to_be_bytes 4 0 ≤ᵇ k ∧ k ≤ᵇ p ++ to_be_bytes 4 U32_MAX)
  ↔ ∃ d, uint_ok 32 d ∧ k = p ++ to_be_bytes 4 d.
Proof.
  intros Hk Hl. split.
  - intros [Hlo Hhi]. pose proof (bytes_range_prefix _ _ _ _ Hlo Hhi) as He.
    destruct (be32_of_bytes (drop (length p) k)) as [Hu Hr].
    { rewrite length_drop. lia. }
    { by apply Forall_drop. }
    exists (from_be_bytes (drop (length p) k)). split; [done|]. by rewrite <-Hr.
  - intros (d & Hd & ->). rewrite !bytes_le_app.
    split; [apply be32_zero_le|apply be32_max_ge];
      try apply to_be_bytes_length; apply to_be_bytes_ok.
Qed.

(** [key.deserialize_be_u32(key.len() - U32_LEN)] *)
Lemma deserialize_be_u32_end_drop k :
  (4 ≤ length k)%nat →
  deserialize_be_u32_end k U32_LEN = Ok (from_be_bytes (drop (length k - 4) k)).
Proof.
  intros Hk. unfold deserialize_be_u32_end, deserialize_be_u32, slice_get, U32_LEN.
  rewrite !decide_True by lia. cbn [ok_or fmap result_fmap]. f_equal. f_equal.
  rewrite take_ge; [done|]. rewrite length_drop. lia.
Qed.

Lemma deserialize_be_u32_end_app p d :
  uint_ok 32 d → deserialize_be_u32_end (p ++ to_be_bytes 4 d) U32_LEN = Ok d.
Proof.
  intros Hd. rewrite deserialize_be_u32_end_drop by (rewrite length_app, to_be_bytes_length; lia).
  rewrite length_app, to_be_bytes_length. replace (length p + 4 - 4)%nat with (length p) by lia.
  rewrite drop_app_length. by rewrite from_to_be_bytes.
Qed.

Lemma deserialize_be_u64_end_app p i :
  uint_ok 64 i → deserialize_be_u64_end (p ++ to_be_bytes 8 i) U64_LEN = Ok i.
Proof.
  intros Hi. unfold deserialize_be_u64_end, deserialize_be_u64, slice_get, U64_LEN.
  rewrite length_app, to_be_bytes_length, !decide_True by lia. cbn [ok_or fmap result_fmap].
  replace (length p + 8 - 8)%nat with (length p) by lia.
  rewrite drop_app_length, take_ge by (rewrite to_be_bytes_length; lia). by rewrite from_to_be_bytes.
Qed.

(** The keys of an account: everything from its id up to the next id. *)
Lemma account_range_lt a a' r :
  uint_ok 32 a' → 0 ≤ a < 2 ^ 32 - 1 →
  (to_be_bytes 4 a ≤ᵇ to_be_bytes 4 a' ++ r ∧ to_be_bytes 4 a' ++ r <ᵇ to_be_bytes 4 (a + 1))
  ↔ a' = a.
Proof.
  intros Ha' Ha. unfold uint_ok in Ha'. unfold bytes_le, bytes_lt.
  rewrite <-(app_nil_r (to_be_bytes 4 a)), <-(app_nil_r (to_be_bytes 4 (a + 1))).
  rewrite !bytes_cmp_app_eqlen by (by rewrite !to_be_bytes_length).
  rewrite !to_be_bytes_cmp by (change (256 ^ Z.of_nat 4) with (2 ^ 32); lia).
  destruct (Z.compare_spec a a'), (Z.compare_spec a' (a + 1)); try lia;
    (split; [intros [Hlo Hhi]; first [done|lia|by destruct r]|intros; first [done|lia|split; [by destruct r|done]]]).
Qed.

Lemma account_range_le a a' x r :
  uint_ok 32 a' → 0 ≤ a < 2 ^ 32 - 1 →
  (to_be_bytes 4 a ≤ᵇ to_be_bytes 4 a' ++ x :: r ∧
   to_be_bytes 4 a' ++ x :: r ≤ᵇ to_be_bytes 4 (a + 1))
  ↔ a' = a.
Proof.
  intros Ha' Ha. unfold uint_ok in Ha'. unfold bytes_le.
  rewrite <-(app_nil_r (to_be_bytes 4 a)), <-(app_nil_r (to_be_bytes 4 (a + 1))).
  rewrite !bytes_cmp_app_eqlen by (by rewrite !to_be_bytes_length).
  rewrite !to_be_bytes_cmp by (change (256 ^ Z.of_nat 4) with (2 ^ 32); lia).
  destruct (Z.compare_spec a a'), (Z.compare_spec a' (a + 1)); try lia;
    (split; [intros [Hlo Hhi]; first [done|lia]|intros; first [done|lia]]).
Qed.
