(* ===== verification/Serde.v ===== *)
(** * Values of the store

    The [Serialize], [SerializeInto], [Deserialize] and [DeserializeFrom]
    traits of the storage crate and their instances (write/mod.rs): integers
    big endian, strings as their bytes, and vectors as a LEB128 length
    followed by the items.  A vector reads back what it wrote for every item
    type whose two traits agree, stated as the class [SerdeLaws]. *)

From stdpp Require Import base gmap sorting strings numbers list.
From S2P Require Import Prelude Codec Keys.
Import Leb128.
Open Scope Z_scope.

(** ** The traits *)

Class SerializeInto (T : Type) := serialize_into : T → list Z → list Z.
Class DeserializeFrom (T : Type) := deserialize_from : list Z → option (T * list Z).

(** [Serialize for &Vec<T>] *)
Definition vec_serialize {T} `{SerializeInto T} (self : list T) : list Z :=
  fold_left (λ bytes item, serialize_into item bytes) self
    (push_leb128 [] (Z.of_nat (length self))).

(** [Iterator::next_leb128()?] as a reader *)
Definition read_usize (it : list Z) : option (Z * list Z) :=
  match next_leb128 Usize it with
  | (Some n, it) => Some (n, it)
  | (None, _) => None
  end.

(** [Deserialize for Vec<T>]: the loop stops with the error of the code when
    an item cannot be read.  Every item takes at least a byte, so [fuel] (the
    number of bytes, plus one) is out only when no byte is left to read. *)
Fixpoint vec_items {T} `{DeserializeFrom T} (fuel : nat) (n : Z) (it : list Z)
    : result (list T) :=
  if decide (n ≤ 0) then Ok [] else
  match fuel with
  | O => Err (InternalError "Failed to deserialize Vec")
  | S fuel =>
      match deserialize_from it with
      | None => Err (InternalError "Failed to deserialize Vec")
      | Some (x, it) => rest ← vec_items fuel (n - 1) it; Ok (x :: rest)
      end
  end.

Definition vec_deserialize {T} `{DeserializeFrom T} (bytes : list Z) : result (list T) :=
  match read_usize bytes with
  | None => Err (InternalError "Failed to deserialize Vec")
  | Some (len, it) => vec_items (S (length bytes)) len it
  end.

(** ** Items *)

(** [SerializeInto for String], [for Vec<u8>] *)
Definition bytes_serialize_into (self : list Z) (buf : list Z) : list Z :=
  let buf := push_leb128 buf (Z.of_nat (length self)) in
  match self with [] => buf | _ => buf ++ self end.

(** [DeserializeFrom for Vec<u8>]: the [len] bytes that follow the length *)
Definition bytes_deserialize_from (it : list Z) : option (list Z * list Z) :=
  match read_usize it with
  | None => None
  | Some (len, it) =>
      if decide (len ≤ Z.of_nat (length it))
      then Some (take (Z.to_nat len) it, drop (Z.to_nat len) it)
      else None
  end.

(** [u32] and [u64] items *)
Record u32 := U32v { u32_val : Z }.
Record u64 := U64v { u64_val : Z }.

Definition read_int (ty : int_ty) (it : list Z) : option (Z * list Z) :=
  match next_leb128 ty it with
  | (Some n, it) => Some (n, it)
  | (None, _) => None
  end.

#[export] Instance bytes_into : SerializeInto (list Z) := bytes_serialize_into.
#[export] Instance bytes_from : DeserializeFrom (list Z) := bytes_deserialize_from.
#[export] Instance u32_into : SerializeInto u32 := λ n buf, push_leb128 buf (u32_val n).
#[export] Instance u32_from : DeserializeFrom u32 := λ it,
  match read_int U32 it with Some (n, it) => Some (U32v n, it) | None => None end.
#[export] Instance u64_into : SerializeInto u64 := λ n buf, push_leb128 buf (u64_val n).
#[export] Instance u64_from : DeserializeFrom u64 := λ it,
  match read_int U64 it with Some (n, it) => Some (U64v n, it) | None => None end.

(** [String]: the bytes, checked to be UTF-8 when they are read. *)
Section utf8.
Context (from_utf8 : list Z → bool).
Definition string_deserialize_from (it : list Z) : option (list Z * list Z) :=
  match bytes_deserialize_from it with
  | Some (s, it) => if from_utf8 s then Some (s, it) else None
  | None => None
  end.
End utf8.

(** ** What a vector relies on *)

Class SerdeLaws (T : Type) `{SerializeInto T, DeserializeFrom T} := {
  item_ok : T → Prop;
  item_bytes : T → list Z;
  serialize_into_app x buf : serialize_into x buf = buf ++ item_bytes x;
  item_nonempty x : item_bytes x ≠ [];
  deserialize_consumes it x rest :
    deserialize_from it = Some (x, rest) → (length rest < length it)%nat;
  deserialize_item x rest : item_ok x → deserialize_from (item_bytes x ++ rest) = Some (x, rest);
}.

Lemma push_leb128_spec buf v : push_leb128 buf v = buf ++ leb v.
Proof. unfold push_leb128, to_leb128_bytes. apply to_leb128_loop_app. Qed.

Lemma leb_nonempty v : leb v ≠ [].
Proof.
  unfold to_leb128_bytes. destruct (Z.to_nat (Z.log2 v)); cbn [to_leb128_loop];
    [case_decide; discriminate|].
  case_decide; [discriminate|]. rewrite to_leb128_loop_app. discriminate.
Qed.

Lemma from_leb128_it_consumes w ss acc it v rest :
  from_leb128_it w ss acc it = (Some v, rest) → (length rest < length it)%nat.
Proof.
  revert acc it. induction ss as [|s ss IH]; intros acc [|b it]; cbn [from_leb128_it]; try done.
  case_decide; [intros [= _ <-]; cbn; lia|]. intros Hit%IH. cbn. lia.
Qed.

Lemma read_int_consumes ty it n rest :
  read_int ty it = Some (n, rest) → (length rest < length it)%nat.
Proof.
  unfold read_int. destruct (next_leb128 ty it) as [[m|] it'] eqn:Hn; [|done].
  intros [= <- <-]. by eapply from_leb128_it_consumes.
Qed.

#[export] Program Instance u32_laws : SerdeLaws u32 := {|
  item_ok x := uint_ok 32 (u32_val x);
  item_bytes x := leb (u32_val x);
|}.
Next Obligation. intros. apply push_leb128_spec. Qed.
Next Obligation. intros. apply leb_nonempty. Qed.
Next Obligation.
  intros it x rest. unfold deserialize_from, u32_from.
  destruct (read_int U32 it) as [[n r]|] eqn:Hr; [|done]. intros [= _ <-].
  by eapply read_int_consumes.
Qed.
Next Obligation.
  intros [v] rest Hv. unfold deserialize_from, u32_from, read_int. cbn [u32_val] in *.
  by rewrite next_leb128_leb.
Qed.

#[export] Program Instance u64_laws : SerdeLaws u64 := {|
  item_ok x := uint_ok 64 (u64_val x);
  item_bytes x := leb (u64_val x);
|}.
Next Obligation. intros. apply push_leb128_spec. Qed.
Next Obligation. intros. apply leb_nonempty. Qed.
Next Obligation.
  intros it x rest. unfold deserialize_from, u64_from.
  destruct (read_int U64 it) as [[n r]|] eqn:Hr; [|done]. intros [= _ <-].
  by eapply read_int_consumes.
Qed.
Next Obligation.
  intros [v] rest Hv. unfold deserialize_from, u64_from, read_int. cbn [u64_val] in *.
  by rewrite next_leb128_leb.
Qed.

Lemma read_usize_leb n rest : uint_ok 64 n → read_usize (leb n ++ rest) = Some (n, rest).
Proof. intros Hn. unfold read_usize. by rewrite next_leb128_leb. Qed.

Lemma bytes_deserialize_app s rest :
  uint_ok 64 (Z.of_nat (length s)) →
  bytes_deserialize_from (leb (Z.of_nat (length s)) ++ s ++ rest) = Some (s, rest).
Proof.
  intros Hs. unfold bytes_deserialize_from. rewrite read_usize_leb by done.
  rewrite length_app, decide_True by lia. rewrite Nat2Z.id.
  by rewrite take_app_length, drop_app_length.
Qed.

#[export] Program Instance bytes_laws : SerdeLaws (list Z) := {|
  item_ok s := uint_ok 64 (Z.of_nat (length s));
  item_bytes s := leb (Z.of_nat (length s)) ++ s;
|}.
Next Obligation.
  intros s buf. unfold serialize_into, bytes_into, bytes_serialize_into.
  rewrite push_leb128_spec. destruct s; [by rewrite app_nil_r|by rewrite app_assoc].
Qed.
Next Obligation. intros s [H _]%app_eq_nil. by apply leb_nonempty in H. Qed.
Next Obligation.
  intros it x rest. unfold deserialize_from, bytes_from, bytes_deserialize_from.
  destruct (read_usize it) as [[n r]|] eqn:Hr; [|done]. apply (read_int_consumes Usize) in Hr.
  case_decide; [|done]. intros [= _ <-]. rewrite length_drop. lia.
Qed.
Next Obligation.
  intros s rest Hs. cbv beta in *. rewrite <-app_assoc. by apply bytes_deserialize_app.
Qed.

(** ** Vectors *)
Section vectors.
Context {T : Type} `{SerdeLaws T}.

Lemma vec_serialize_bytes (l : list T) :
  vec_serialize l = leb (Z.of_nat (length l)) ++ concat (item_bytes <$> l).
Proof.
  unfold vec_serialize. rewrite push_leb128_spec, app_nil_l.
  generalize (leb (Z.of_nat (length l))) as pre. induction l as [|x l IH]; intros pre; cbn.
  - by rewrite app_nil_r.
  - by rewrite IH, serialize_into_app, app_assoc.
Qed.

Lemma concat_items_length (l : list T) : (length l ≤ length (concat (item_bytes <$> l)))%nat.
Proof.
  induction l as [|x l IH]; cbn; [lia|]. rewrite length_app.
  pose proof (item_nonempty x). destruct (item_bytes x); [done|]. cbn. lia.
Qed.

(** More fuel than bytes changes nothing. *)
Lemma vec_items_fuel fuel fuel' n it :
  (length it < fuel)%nat → (length it < fuel')%nat →
  vec_items (T:=T) fuel n it = vec_items fuel' n it.
Proof.
  revert fuel' n it. induction fuel as [|fuel IH]; intros fuel' n it Hlt Hlt'; [lia|].
  destruct fuel' as [|fuel']; [lia|]. cbn [vec_items]. case_decide; [done|].
  destruct (deserialize_from it) as [[x it']|] eqn:Hd; [|done].
  pose proof (deserialize_consumes _ _ _ Hd). rewrite (IH fuel') by lia. done.
Qed.

Lemma vec_items_ok (l : list T) fuel rest :
  Forall item_ok l → (length l ≤ fuel)%nat →
  vec_items fuel (Z.of_nat (length l)) (concat (item_bytes <$> l) ++ rest) = Ok l.
Proof.
  intros Hl. revert fuel. induction Hl as [|x l Hx Hl IH]; intros fuel Hf; [by destruct fuel|].
  destruct fuel as [|fuel]; [cbn in Hf; lia|]. cbn [vec_items length].
  rewrite decide_False by lia. rewrite fmap_cons. cbn [concat]. rewrite <-app_assoc.
  rewrite deserialize_item by done.
  replace (Z.of_nat (S (length l)) - 1) with (Z.of_nat (length l)) by lia.
  rewrite IH by (cbn in Hf; lia). done.
Qed.

(** a vector stored as a value is read back as it was, for every item
    type whose [SerializeInto] and [DeserializeFrom] agree; bytes after it
    are ignored. *)
Theorem vec_roundtrip (l : list T) rest :
  Forall item_ok l → uint_ok 64 (Z.of_nat (length l)) →
  vec_deserialize (vec_serialize l ++ rest) = Ok l.
Proof.
  intros Hl Hn. rewrite vec_serialize_bytes, <-app_assoc. unfold vec_deserialize.
  rewrite read_usize_leb by done. apply vec_items_ok; [done|].
  rewrite !length_app. pose proof (concat_items_length l). lia.
Qed.
End vectors.

Lemma vec_roundtrip_witness :
  vec_deserialize (vec_serialize [str_bytes "ab"; []; str_bytes "c"] ++ [9])
  = Ok [str_bytes "ab"; []; str_bytes "c"].
Proof.
  apply vec_roundtrip; [repeat constructor; by vm_compute|by vm_compute].
Defined.
