(* ===== verification/VecMap.v ===== *)
(** * [VecMap], a map kept as two parallel vectors

    [VecMap] of the utilities crate (map/vec_map.rs) keeps its keys and its
    values in two vectors and searches them linearly.  The theorem says that
    it implements a finite map. *)

From stdpp Require Import base gmap sorting strings numbers list.
From S2P Require Import Prelude.
Open Scope Z_scope.

Module VecMap.

Record VecMap (K V : Type) := { k : list K; v : list V }.
Arguments k {_ _} _.
Arguments v {_ _} _.

Section vec_map.
Context {K V : Type} `{EqDecision K}.

(** [Iterator::position] *)
Fixpoint position (key : K) (ks : list K) : option nat :=
  match ks with
  | [] => None
  | k0 :: ks => if decide (k0 = key) then Some 0%nat else S <$> position key ks
  end.

(** [Vec::swap_remove]: the last element takes the place of the removed one;
    [None] is the panic of an index out of range. *)
Definition swap_remove_vec {A} (l : list A) (index : nat) : option (A * list A) :=
  match l !! index, last l with
  | Some x, Some y => Some (x, take (length l - 1) (<[index := y]> l))
  | _, _ => None
  end.

Definition new : VecMap K V := {| k := []; v := [] |}.

Definition append (m : VecMap K V) (key : K) (value : V) : VecMap K V :=
  {| k := k m ++ [key]; v := v m ++ [value] |}.

Definition set (m : VecMap K V) (key : K) (value : V) : VecMap K V * bool :=
  match position key (k m) with
  | Some pos => ({| k := k m; v := <[pos := value]> (v m) |}, false)
  | None => (append m key value, true)
  end.

Definition get (m : VecMap K V) (key : K) : option V :=
  position key (k m) ≫= λ pos, v m !! pos.

Definition contains_key (m : VecMap K V) (key : K) : bool := bool_decide (key ∈ k m).

(** [remove]: the value and the map without it; [None] inside is the panic of
    [swap_remove] on vectors of different lengths. *)
Definition swap_remove (m : VecMap K V) (index : nat) : option (V * VecMap K V) :=
  match swap_remove_vec (k m) index, swap_remove_vec (v m) index with
  | Some (_, ks), Some (x, vs) => Some (x, {| k := ks; v := vs |})
  | _, _ => None
  end.

Definition remove (m : VecMap K V) (key : K) : option (V * VecMap K V) :=
  position key (k m) ≫= λ pos, swap_remove m pos.

Definition is_empty (m : VecMap K V) : bool := bool_decide (k m = []).
Definition len (m : VecMap K V) : nat := length (k m).
Definition clear (m : VecMap K V) : VecMap K V := {| k := []; v := [] |}.
Definition iter (m : VecMap K V) : list (K * V) := zip (k m) (v m).

(** [get_mut_or_insert_with] followed by an update of the slot it returns. *)
Definition update_or_insert_with (m : VecMap K V) (key : K) (fnc : V) (update : V → V)
  : VecMap K V :=
  match position key (k m) with
  | Some pos => {| k := k m; v := alter update pos (v m) |}
  | None => {| k := k m ++ [key]; v := v m ++ [update fnc] |}
  end.

Definition from_iter (l : list (K * V)) : VecMap K V :=
  fold_left (λ m kv, append m kv.1 kv.2) l new.

(** *** Well-formed maps *)

Definition wf (m : VecMap K V) : Prop := length (k m) = length (v m) ∧ NoDup (k m).

Lemma position_Some key ks pos :
  position key ks = Some pos → ks !! pos = Some key ∧ ∀ j, (j < pos)%nat → ks !! j ≠ Some key.
Proof.
  revert pos. induction ks as [|k0 ks IH]; intros pos; [done|]. cbn [position].
  case_decide as He.
  - intros [= <-]. subst. split; [done|lia].
  - intros (p & Hp & ->)%fmap_Some. destruct (IH p Hp) as [Hl Hj]. split; [done|].
    intros [|j] Hj'; [by intros [= ->]|]. apply Hj. lia.
Qed.

Lemma position_None key ks : position key ks = None ↔ key ∉ ks.
Proof.
  induction ks as [|k0 ks IH]; cbn [position]; [split; [by intros _ ?%elem_of_nil|done]|].
  rewrite not_elem_of_cons. case_decide as He; [split; [done|]; intros [? _]; by destruct He|].
  rewrite fmap_None, IH. intuition.
Qed.

Lemma position_lookup key ks pos : NoDup ks → ks !! pos = Some key → position key ks = Some pos.
Proof.
  intros Hn Hl. destruct (position key ks) as [p|] eqn:Hp.
  - apply position_Some in Hp as [Hp _]. f_equal. by eapply NoDup_lookup.
  - apply position_None in Hp. destruct Hp. by eapply list_elem_of_lookup_2.
Qed.

(** The entries of a well-formed map are its pairs. *)
Lemma get_spec m key value :
  wf m → get m key = Some value ↔ (key, value) ∈ iter m.
Proof.
  intros [Hl Hn]. unfold get, iter. rewrite list_elem_of_lookup. setoid_rewrite lookup_zip_with_Some.
  split.
  - intros (pos & Hp & Hv)%bind_Some. apply position_Some in Hp as [Hp _]. by exists pos, key, value.
  - intros (pos & k1 & v1 & [= -> ->] & Hk & Hv). apply bind_Some. exists pos.
    by rewrite (position_lookup k1 _ pos).
Qed.

Lemma get_None m key : wf m → get m key = None ↔ key ∉ k m.
Proof.
  intros [Hl Hn]. unfold get. destruct (position key (k m)) as [p|] eqn:Hp; cbn.
  - pose proof (position_Some _ _ _ Hp) as [Hk _]. apply lookup_lt_Some in Hk as Hlt.
    split; [|intros Hni; destruct Hni; by eapply list_elem_of_lookup_2].
    intros Hv. apply lookup_ge_None in Hv. lia.
  - split; [|done]. intros _. by apply position_None.
Qed.

Lemma swap_remove_perm {A} (l l' : list A) i x :
  swap_remove_vec l i = Some (x, l') → l ≡ₚ x :: l'.
Proof.
  unfold swap_remove_vec. destruct (l !! i) as [x0|] eqn:Hi; [|done].
  destruct (last l) as [y|] eqn:Hy; [|done]. intros [= -> <-].
  apply last_Some in Hy as [l1 ->]. rewrite length_app, Nat.add_sub.
  destruct (decide (i < length l1)%nat) as [Hlt|Hge].
  - rewrite lookup_app_l in Hi by done. rewrite insert_app_l, take_app_length' by
      (rewrite ?length_insert; done).
    rewrite <-(take_drop_middle l1 i x Hi) at 1.
    rewrite insert_take_drop by done. solve_Permutation.
  - rewrite lookup_app_r in Hi by lia. assert (i - length l1 = 0)%nat as H0.
    { apply lookup_lt_Some in Hi. cbn in Hi. lia. }
    rewrite H0 in Hi. injection Hi as ->. rewrite insert_app_r_alt by lia. rewrite H0. cbn [insert list_insert].
    rewrite take_app_length. solve_Permutation.
Qed.

Lemma swap_remove_zip {A C} (l : list A) (l2 : list C) i x y l' l2' :
  length l = length l2 → swap_remove_vec l i = Some (x, l') → swap_remove_vec l2 i = Some (y, l2') →
  swap_remove_vec (zip l l2) i = Some ((x, y), zip l' l2').
Proof.
  unfold swap_remove_vec. intros Hlen.
  destruct (l !! i) as [a|] eqn:Hi; [|done]. destruct (last l) as [z|] eqn:Hz; [|done].
  destruct (l2 !! i) as [c|] eqn:Hi2; [|done]. destruct (last l2) as [z2|] eqn:Hz2; [|done].
  intros [= -> <-] [= -> <-]. rewrite last_lookup in Hz. rewrite last_lookup in Hz2.
  assert (zip l l2 !! i = Some (x, y)) as -> by (apply lookup_zip_with_Some; eauto 6).
  rewrite last_lookup, length_zip_with, Hlen, Nat.min_id.
  assert (zip l l2 !! pred (length l2) = Some (z, z2)) as ->.
  { apply lookup_zip_with_Some. rewrite Hlen in Hz. eauto 6. }
  by rewrite <-zip_with_take, insert_zip_with.
Qed.

Lemma iter_keys m : length (k m) = length (v m) → (iter m).*1 = k m.
Proof. intros Hl. apply fst_zip. lia. Qed.

Lemma swap_remove_spec m pos x m' :
  wf m → swap_remove m pos = Some (x, m') →
  ∃ key, k m !! pos = Some key ∧ iter m ≡ₚ (key, x) :: iter m' ∧ wf m'.
Proof.
  intros [Hl Hn]. unfold swap_remove.
  destruct (swap_remove_vec (k m) pos) as [[key ks]|] eqn:Hk; [|done].
  destruct (swap_remove_vec (v m) pos) as [[x' vs]|] eqn:Hv; [|done]. intros [= -> <-].
  pose proof (swap_remove_zip _ _ _ _ _ _ _ Hl Hk Hv) as Hz.
  apply swap_remove_perm in Hz. pose proof (swap_remove_perm _ _ _ _ Hk) as Hkp.
  pose proof (swap_remove_perm _ _ _ _ Hv) as Hvp.
  exists key. split_and!.
  - unfold swap_remove_vec in Hk. destruct (k m !! pos); [|done]. destruct (last (k m)); [|done].
    by injection Hk as ->.
  - exact Hz.
  - split; cbn.
    + apply Permutation_length in Hkp, Hvp. cbn in *. lia.
    + rewrite Hkp in Hn. by apply NoDup_cons in Hn as [_ ?].
Qed.

Lemma option_ext_some {A} (o1 o2 : option A) : (∀ x, o1 = Some x ↔ o2 = Some x) → o1 = o2.
Proof.
  intros Hx. destruct o1 as [x|]; [symmetry; by apply Hx|]. destruct o2 as [x|]; [|done]. by apply Hx.
Qed.

(** Looking a key up after a new pair was appended. *)
Lemma append_spec m key value :
  wf m → key ∉ k m →
  wf (append m key value) ∧
  ∀ key', get (append m key value) key' = if decide (key' = key) then Some value else get m key'.
Proof.
  intros [Hl Hn] Hni. assert (wf (append m key value)) as Hwf.
  { split; cbn; [rewrite !length_app; cbn; lia|]. apply NoDup_app. split_and!; [done| |].
    - intros x Hx ->%list_elem_of_singleton. done.
    - apply NoDup_singleton. }
  split; [done|]. intros key'. apply option_ext_some. intros x. rewrite get_spec by done.
  unfold iter. cbn [append k v]. rewrite zip_with_app by done. cbn [zip_with].
  rewrite elem_of_app, list_elem_of_singleton.
  fold (iter m). rewrite <-(get_spec m) by done. case_decide as He.
  - subst. rewrite (proj2 (get_None m key (conj Hl Hn))) by done. naive_solver.
  - naive_solver.
Qed.

Lemma position_values m key pos :
  wf m → position key (k m) = Some pos →
  ∃ x, v m !! pos = Some x ∧ get m key = Some x ∧
    ∀ y, (∀ key', get {| k := k m; v := <[pos := y]> (v m) |} key'
      = if decide (key' = key) then Some y else get m key').
Proof.
  intros [Hl Hn] Hp. pose proof (position_Some _ _ _ Hp) as [Hk _].
  apply lookup_lt_Some in Hk as Hlt. destruct (lookup_lt_is_Some_2 (v m) pos) as [x Hx]; [lia|].
  exists x. split_and!; [done|by unfold get; rewrite Hp|]. intros y key'. unfold get. cbn.
  case_decide as He.
  - subst. rewrite Hp. cbn. by rewrite list_lookup_insert_eq by lia.
  - destruct (position key' (k m)) as [p'|] eqn:Hp'; [|done]. cbn.
    rewrite list_lookup_insert_ne; [done|]. intros ->.
    apply position_Some in Hp' as [Hk' _]. congruence.
Qed.

Lemma set_spec m key value :
  wf m →
  let '(m', inserted) := set m key value in
  wf m' ∧ inserted = bool_decide (get m key = None) ∧
  ∀ key', get m' key' = if decide (key' = key) then Some value else get m key'.
Proof.
  intros Hwf. unfold set. destruct (position key (k m)) as [pos|] eqn:Hp.
  - destruct (position_values m key pos Hwf Hp) as (x & Hx & Hg & Hall). split_and!; [|by rewrite Hg|apply Hall].
    destruct Hwf. split; cbn; [by rewrite length_insert|done].
  - apply position_None in Hp. destruct (append_spec m key value Hwf Hp) as [Hwf' Hall].
    split_and!; [done| |done]. by rewrite bool_decide_true by (by apply get_None).
Qed.

Lemma remove_spec m key :
  wf m →
  match remove m key with
  | Some (x, m') =>
      wf m' ∧ get m key = Some x ∧
      ∀ key', get m' key' = if decide (key' = key) then None else get m key'
  | None => get m key = None
  end.
Proof.
  intros Hwf. unfold remove. destruct (position key (k m)) as [pos|] eqn:Hp; cbn.
  - destruct (swap_remove m pos) as [[x m']|] eqn:Hs.
    + destruct (swap_remove_spec m pos x m' Hwf Hs) as (key0 & Hk & Hperm & Hwf').
      apply position_Some in Hp as [Hp _]. rewrite Hp in Hk. injection Hk as <-.
      assert (get m key = Some x) as Hg by (apply get_spec; [done|]; rewrite Hperm; by left).
      split_and!; [done|done|]. intros key'. apply option_ext_some. intros y.
      rewrite get_spec by done. case_decide as He.
      * subst. split; [|done]. intros Hin. exfalso.
        pose proof (proj2 Hwf) as Hn. rewrite <-(iter_keys m (proj1 Hwf)), Hperm in Hn.
        apply NoDup_cons in Hn as [Hn _]. apply Hn. cbn. apply list_elem_of_fmap. by exists (key, y).
      * rewrite get_spec by done. rewrite Hperm, elem_of_cons. naive_solver.
    + exfalso. pose proof (position_Some _ _ _ Hp) as [Hk _]. destruct Hwf as [Hl _].
      apply lookup_lt_Some in Hk as Hlt. unfold swap_remove, swap_remove_vec in Hs.
      rewrite Hk in Hs. rewrite !last_lookup in Hs.
      destruct (lookup_lt_is_Some_2 (k m) (pred (length (k m)))) as [a Ha]; [lia|].
      destruct (lookup_lt_is_Some_2 (v m) pos) as [b Hb]; [lia|].
      destruct (lookup_lt_is_Some_2 (v m) (pred (length (v m)))) as [c Hc]; [lia|].
      by rewrite Ha, Hb, Hc in Hs.
  - apply position_None in Hp. by apply get_None.
Qed.

Lemma update_or_insert_spec m key value f :
  wf m →
  let m' := update_or_insert_with m key value f in
  wf m' ∧
  ∀ key', get m' key'
    = if decide (key' = key) then Some (f (default value (get m key))) else get m key'.
Proof.
  intros Hwf. unfold update_or_insert_with. destruct (position key (k m)) as [pos|] eqn:Hp.
  - destruct (position_values m key pos Hwf Hp) as (x & Hx & Hg & Hall).
    assert (alter f pos (v m) = <[pos := f x]> (v m)) as ->.
    { apply list_eq. intros j. destruct (decide (j = pos)) as [->|Hne].
      - rewrite list_lookup_alter_eq, Hx, list_lookup_insert_eq; [done|by eapply lookup_lt_Some].
      - by rewrite list_lookup_alter_ne, list_lookup_insert_ne. }
    rewrite Hg. split; [|apply Hall]. destruct Hwf. split; cbn; [by rewrite length_insert|done].
  - apply position_None in Hp. rewrite (proj2 (get_None m key Hwf)) by done.
    apply (append_spec m key (f value) Hwf Hp).
Qed.

(** C25: a [VecMap] is a finite map: on a well-formed map (as many keys as
    values, no key twice) [set], [remove] with its swap of the last entry, and
    the update through [get_mut_or_insert_with] change the value at their key
    and at no other, report what was there, and keep the map well formed. *)
Theorem vec_map_refines m key value f :
  wf m →
  (let '(m', inserted) := set m key value in
   wf m' ∧ inserted = bool_decide (get m key = None) ∧
   ∀ key', get m' key' = if decide (key' = key) then Some value else get m key') ∧
  match remove m key with
  | Some (x, m') =>
      wf m' ∧ get m key = Some x ∧
      ∀ key', get m' key' = if decide (key' = key) then None else get m key'
  | None => get m key = None
  end ∧
  (let m' := update_or_insert_with m key value f in
   wf m' ∧
   ∀ key', get m' key'
     = if decide (key' = key) then Some (f (default value (get m key))) else get m key').
Proof.
  intros Hwf. split_and!; [by apply set_spec|by apply remove_spec|by apply update_or_insert_spec].
Qed.
End vec_map.

Lemma vec_map_refines_witness :
  let m : VecMap Z Z := {| k := [1; 2; 3]; v := [10; 20; 30] |} in
  match remove m 1 with
  | Some (x, m') => x = 10 ∧ get m' 3 = Some 30 ∧ get m' 1 = None ∧ k m' = [3; 2]
  | None => False
  end.
Proof.
  intros m. assert (wf m) as Hwf by (split; [done|apply (bool_decide_unpack _); by vm_compute]).
  pose proof (proj1 (proj2 (vec_map_refines m 1 0 id Hwf))) as H.
  destruct (remove m 1) as [[x m']|] eqn:E; [|discriminate H].
  destruct H as (_ & Hg & Hall). rewrite !Hall. vm_compute in E. injection E as <- <-. done.
Defined.
End VecMap.
