(* ===== verification/Roaring.v ===== *)
(** * Document sets: the interface of the roaring bitmap

    The store keeps sets of 32-bit document ids in [roaring::RoaringBitmap],
    a library the sources only call.  [RoaringBitmap] lists the operations the
    modelled code calls; [RoaringBitmapLaws] states their documented meaning
    through [rb_elems], the set of ids a bitmap holds.  The instance on
    [gset Z] shows that the laws can hold and makes the models executable. *)

From stdpp Require Import base gmap sorting strings numbers list.
From S2P Require Import Prelude.
Open Scope Z_scope.

Class RoaringBitmap (B : Type) := {
  rb_new : B;
  rb_insert : Z → B → B;
  rb_remove : Z → B → B;
  rb_contains : B → Z → bool;
  rb_is_empty : B → bool;
  rb_len : B → Z;
  rb_iter : B → list Z;
  rb_bitand : B → B → B;
  rb_bitor : B → B → B;
  rb_bitxor : B → B → B;
  rb_sub : B → B → B;
  rb_insert_range : Z → Z → B → B;
}.

(** The laws: every operation is the one on sets, and the iterator yields
    the elements in ascending order. *)
Class RoaringBitmapLaws (B : Type) `{RoaringBitmap B} := {
  rb_elems : B → gset Z;
  rb_elems_new : rb_elems rb_new = ∅;
  rb_elems_insert i b : rb_elems (rb_insert i b) = {[i]} ∪ rb_elems b;
  rb_elems_remove i b : rb_elems (rb_remove i b) = rb_elems b ∖ {[i]};
  rb_contains_spec b i : rb_contains b i = bool_decide (i ∈ rb_elems b);
  rb_is_empty_spec b : rb_is_empty b = bool_decide (rb_elems b = ∅);
  rb_len_spec b : rb_len b = Z.of_nat (size (rb_elems b));
  rb_iter_elems b i : i ∈ rb_iter b ↔ i ∈ rb_elems b;
  rb_iter_sorted b : StronglySorted Z.lt (rb_iter b);
  rb_elems_bitand a b : rb_elems (rb_bitand a b) = rb_elems a ∩ rb_elems b;
  rb_elems_bitor a b : rb_elems (rb_bitor a b) = rb_elems a ∪ rb_elems b;
  rb_elems_bitxor a b :
    rb_elems (rb_bitxor a b) = (rb_elems a ∖ rb_elems b) ∪ (rb_elems b ∖ rb_elems a);
  rb_elems_sub a b : rb_elems (rb_sub a b) = rb_elems a ∖ rb_elems b;
  rb_elems_insert_range lo hi b i :
    i ∈ rb_elems (rb_insert_range lo hi b) ↔ lo ≤ i < hi ∨ i ∈ rb_elems b;
}.

(** [Option<RoaringBitmap>] as the set of ids it stands for. *)
Definition rb_opt_elems {B} `{RoaringBitmapLaws B} (b : option B) : gset Z :=
  match b with Some b => rb_elems b | None => ∅ end.

Create Rewrite HintDb roaring.
#[export] Hint Rewrite @rb_elems_new @rb_elems_insert @rb_elems_remove @rb_elems_bitand
  @rb_elems_bitor @rb_elems_bitxor @rb_elems_sub : roaring.

(** ** Finite sets of integers as bitmaps *)

Definition zrange (lo hi : Z) : list Z := seqZ lo (hi - lo).

#[export] Instance gset_roaring : RoaringBitmap (gset Z) := {|
  rb_new := ∅;
  rb_insert i b := {[i]} ∪ b;
  rb_remove i b := b ∖ {[i]};
  rb_contains b i := bool_decide (i ∈ b);
  rb_is_empty b := bool_decide (b = ∅);
  rb_len b := Z.of_nat (size b);
  rb_iter b := merge_sort Z.le (elements b);
  rb_bitand a b := a ∩ b;
  rb_bitor a b := a ∪ b;
  rb_bitxor a b := (a ∖ b) ∪ (b ∖ a);
  rb_sub a b := a ∖ b;
  rb_insert_range lo hi b := list_to_set (zrange lo hi) ∪ b;
|}.

(** A duplicate-free sorted list is strictly sorted. *)
Lemma StronglySorted_lt (l : list Z) :
  NoDup l → StronglySorted Z.le l → StronglySorted Z.lt l.
Proof.
  induction l as [|x l IH]; intros Hn Hs; [constructor|].
  apply NoDup_cons in Hn as [Hx Hn]. apply StronglySorted_inv in Hs as [Hs Hf].
  constructor; [by apply IH|]. apply list.Forall_forall. intros y Hy.
  rewrite list.Forall_forall in Hf. specialize (Hf y Hy).
  assert (x ≠ y) by (by intros ->). lia.
Qed.

#[export] Instance gset_roaring_laws : RoaringBitmapLaws (gset Z).
Proof.
  refine {| rb_elems := id |}; unfold rb_new, rb_insert, rb_remove, rb_contains, rb_is_empty,
    rb_len, rb_iter, rb_bitand, rb_bitor, rb_bitxor, rb_sub, rb_insert_range, gset_roaring, id;
    try done.
  - intros b i. by rewrite merge_sort_Permutation, elem_of_elements.
  - intros b. apply StronglySorted_lt.
    + rewrite merge_sort_Permutation. apply NoDup_elements.
    + apply (StronglySorted_merge_sort Z.le).
  - intros lo hi b i. unfold zrange. rewrite elem_of_union, elem_of_list_to_set, elem_of_seqZ. intuition lia.
Defined.
