(* ===== verification/Kv.v ===== *)
(** * The key-value engine below the store

    The RocksDB backend keeps one column family per subspace, each an ordered
    map from byte keys to byte values.  RocksDB itself is not part of the
    sources: class [RocksDB] lists the calls the backend makes and
    [RocksDBLaws] states their documented behaviour.  [db_map] is the content
    of a database; a transaction of an optimistic transaction database sees
    the committed state of the moment overlaid with its own writes, remembers
    the keys it wrote or read for update, and commits only if no one changed
    such a key since the transaction began.  The counters' merge operator,
    [numeric_value_merge] of backend/rocksdb/main.rs, is modelled and its
    associativity proved. *)

From stdpp Require Import base gmap sorting strings numbers list.
From S2P Require Import Prelude Keys.
Open Scope Z_scope.
Open Scope bytes_scope.

(** ** Counter values *)

(** [i64::from_le_bytes(bytes.try_into()?)] and [i64::to_le_bytes] *)
Definition i64_from_le (bytes : list Z) : option Z :=
  if decide (length bytes = 8%nat) then Some (i64_of_u64 (from_le_bytes bytes)) else None.
Definition i64_to_le (v : Z) : list Z := to_le_bytes 8 (wrap 64 v).

(** [i64::deserialize]: big endian *)
Definition i64_from_be (bytes : list Z) : option Z :=
  if decide (length bytes = 8%nat) then Some (i64_of_u64 (from_be_bytes bytes)) else None.

(** Wrap-around addition of [i64]. *)
Definition i64_add (a b : Z) : Z := i64_of_u64 (wrap 64 (a + b)).

(** [numeric_value_merge] of backend/rocksdb/main.rs *)
Fixpoint merge_operands (value : Z) (operands : list (list Z)) : option Z :=
  match operands with
  | [] => Some value
  | op :: rest =>
      match i64_from_le op with
      | Some v => merge_operands (i64_add value v) rest
      | None => None
      end
  end.

Definition numeric_value_merge (value : option (list Z)) (operands : list (list Z))
  : option (list Z) :=
  value ← match value with Some bytes => i64_from_le bytes | None => Some 0 end;
  value ← merge_operands value operands;
  Some (i64_to_le value).

(** [deserialize_i64_le] of backend/mod.rs *)
Definition deserialize_i64_le (bytes : list Z) : result Z :=
  ok_or (InternalError "Failed to deserialize i64 value.") (i64_from_le bytes).

(** ** Rows in key order *)

Definition row : Type := list Z * list Z.
Abbreviation store_map := (gmap (Z * list Z) (list Z)).

Definition row_le (r1 r2 : row) : Prop := r1.1 ≤ᵇ r2.1.
#[export] Instance row_le_dec : RelDecision row_le.
Proof. intros r1 r2. unfold row_le. apply _. Defined.
#[export] Instance row_le_trans : Transitive row_le.
Proof. intros r1 r2 r3. apply bytes_le_trans. Qed.
#[export] Instance row_le_total : Total row_le.
Proof. intros r1 r2. apply (total bytes_le). Qed.

(** The rows of one column family, ascending. *)
Definition cf_row (s : Z) (e : Z * list Z * list Z) : option row :=
  if decide (e.1.1 = s) then Some (e.1.2, e.2) else None.
Definition cf_rows (m : store_map) (s : Z) : list row :=
  merge_sort row_le (omap (cf_row s) (map_to_list m)).

Inductive IteratorMode :=
  | Start
  | FromForward (key : list Z)
  | FromReverse (key : list Z).

(** What an iterator yields: the rows from a key on, ascending, or the rows
    up to a key, descending. *)
Definition iter_rows (m : store_map) (s : Z) (mode : IteratorMode) : list row :=
  match mode with
  | Start => cf_rows m s
  | FromForward k => filter (λ r, k ≤ᵇ r.1) (cf_rows m s)
  | FromReverse k => reverse (filter (λ r, r.1 ≤ᵇ k) (cf_rows m s))
  end.

(** ** The engine's calls and their laws *)

Inductive ErrorKind := Busy | MergeInProgress | TryAgain | OtherKind.

Class RocksDB (DB Txn : Type) := {
  get_pinned_cf : DB → Z → list Z → option (list Z);
  iterator_cf : DB → Z → IteratorMode → list row;
  put_cf : DB → Z → list Z → list Z → DB;
  delete_cf : DB → Z → list Z → DB;
  transaction_opt : DB → Txn;
  txn_get_for_update_cf : Txn → DB → Z → list Z → option (list Z) * Txn;
  txn_iterator_cf : Txn → DB → Z → IteratorMode → list row;
  txn_put_cf : Txn → Z → list Z → list Z → Txn;
  txn_delete_cf : Txn → Z → list Z → Txn;
  txn_merge_cf : Txn → Z → list Z → list Z → Txn;
  txn_commit : Txn → DB → DB + ErrorKind;
}.

(** The column families that main.rs opens with the merge operator. *)
Definition has_merge_operator (s : Z) : bool :=
  bool_decide (s = SUBSPACE_COUNTER ∨ s = SUBSPACE_QUOTA).

Class RocksDBLaws (DB Txn : Type) `{RocksDB DB Txn} := {
  (** the committed content *)
  db_map : DB → store_map;
  (** [db_le db db']: [db'] is [db] after some further commits *)
  db_le : DB → DB → Prop;
  db_le_preorder :: PreOrder db_le;
  get_pinned_spec db s k : get_pinned_cf db s k = db_map db !! (s, k);
  iterator_spec db s mode : iterator_cf db s mode = iter_rows (db_map db) s mode;
  put_spec db s k v : db_map (put_cf db s k v) = <[(s, k) := v]> (db_map db);
  delete_spec db s k : db_map (delete_cf db s k) = delete (s, k) (db_map db);
  (** the view of a transaction when the committed state is [db] *)
  txn_map : Txn → DB → store_map;
  txn_began : Txn → DB;
  txn_tracked : Txn → gset (Z * list Z);
  begin_map db0 db : txn_map (transaction_opt db0) db = db_map db;
  begin_began db0 : txn_began (transaction_opt db0) = db0;
  (** a transaction only overlays its own writes *)
  txn_overlay t db1 db2 sk :
    db_map db1 !! sk = db_map db2 !! sk → txn_map t db1 !! sk = txn_map t db2 !! sk;
  get_for_update_val t db s k : (txn_get_for_update_cf t db s k).1 = txn_map t db !! (s, k);
  get_for_update_map t db s k db' : txn_map (txn_get_for_update_cf t db s k).2 db' = txn_map t db';
  get_for_update_began t db s k : txn_began (txn_get_for_update_cf t db s k).2 = txn_began t;
  get_for_update_tracked t db s k :
    txn_tracked (txn_get_for_update_cf t db s k).2 = {[(s, k)]} ∪ txn_tracked t;
  txn_iterator_spec t db s mode : txn_iterator_cf t db s mode = iter_rows (txn_map t db) s mode;
  txn_put_map t s k v db : txn_map (txn_put_cf t s k v) db = <[(s, k) := v]> (txn_map t db);
  txn_put_began t s k v : txn_began (txn_put_cf t s k v) = txn_began t;
  txn_put_tracked t s k v : txn_tracked (txn_put_cf t s k v) = {[(s, k)]} ∪ txn_tracked t;
  txn_delete_map t s k db : txn_map (txn_delete_cf t s k) db = delete (s, k) (txn_map t db);
  txn_delete_began t s k : txn_began (txn_delete_cf t s k) = txn_began t;
  txn_delete_tracked t s k : txn_tracked (txn_delete_cf t s k) = {[(s, k)]} ∪ txn_tracked t;
  txn_merge_map t s k operand db v :
    has_merge_operator s = true →
    numeric_value_merge (txn_map t db !! (s, k)) [operand] = Some v →
    txn_map (txn_merge_cf t s k operand) db = <[(s, k) := v]> (txn_map t db);
  txn_merge_began t s k v : txn_began (txn_merge_cf t s k v) = txn_began t;
  txn_merge_tracked t s k v : txn_tracked (txn_merge_cf t s k v) = {[(s, k)]} ∪ txn_tracked t;
  (** a commit writes the overlay *)
  txn_commit_map t db db' : txn_commit t db = inl db' → db_map db' = txn_map t db;
  txn_commit_le t db db' : txn_commit t db = inl db' → db_le db db';
  (** and succeeds only if no tracked key changed since the transaction began *)
  txn_commit_unmodified t db db' dbi sk :
    txn_commit t db = inl db' → db_le (txn_began t) dbi → db_le dbi db →
    sk ∈ txn_tracked t → db_map dbi !! sk = db_map db !! sk;
}.

(** ** Facts about rows *)

Definition row_lt (r1 r2 : row) : Prop := r1.1 <ᵇ r2.1.

Lemma elem_of_cf_rows m s k v : (k, v) ∈ cf_rows m s ↔ m !! (s, k) = Some v.
Proof.
  unfold cf_rows. rewrite merge_sort_Permutation, list_elem_of_omap. split.
  - intros ([[s' k'] v'] & Hin & Heq). apply elem_of_map_to_list in Hin.
    unfold cf_row in Heq. cbn in Heq. case_decide; [|done]. by simplify_eq.
  - intros Hl. exists (s, k, v). split; [by apply elem_of_map_to_list|].
    unfold cf_row. cbn. by rewrite decide_True.
Qed.

(** A list sorted by [row_le] whose rows are determined by their keys and
    occur once is sorted by [row_lt]. *)
Lemma rows_sorted_lt (l : list row) :
  NoDup l → (∀ k v v', (k, v) ∈ l → (k, v') ∈ l → v = v') →
  StronglySorted row_le l → StronglySorted row_lt l.
Proof.
  induction l as [|[k v] l IH]; intros Hn Hf Hs; [constructor|].
  apply NoDup_cons in Hn as [Hx Hn]. apply StronglySorted_inv in Hs as [Hs Hle].
  constructor.
  - apply IH; [done| |done]. intros k' v1 v2 ??. apply (Hf k'); by right.
  - apply list.Forall_forall. intros [k' v'] Hin. rewrite list.Forall_forall in Hle.
    specialize (Hle _ Hin). unfold row_le, row_lt in *. cbn in *.
    apply bytes_le_lteq in Hle as [?| ->]; [done|]. exfalso. apply Hx.
    by rewrite (Hf k' v v') by set_solver.
Qed.

Lemma NoDup_cf_rows m s : NoDup (cf_rows m s).
Proof.
  unfold cf_rows. rewrite merge_sort_Permutation.
  assert (∀ l, NoDup l → NoDup (omap (cf_row s) l)) as H; [|apply H, NoDup_map_to_list].
  induction l as [|[[s' k'] v'] l IH]; intros Hn; [constructor|].
  apply NoDup_cons in Hn as [Hx Hn]. cbn [omap list_omap]. unfold cf_row at 1. cbn.
  case_decide as Hs; [|by apply IH]. subst. apply NoDup_cons. split; [|by apply IH].
  rewrite list_elem_of_omap. intros ([[s2 k2] v2] & Hin & Heq).
  unfold cf_row in Heq. cbn in Heq. case_decide; [|done]. by simplify_eq.
Qed.

Lemma cf_rows_sorted m s : StronglySorted row_lt (cf_rows m s).
Proof.
  apply rows_sorted_lt; [apply NoDup_cf_rows| |apply (StronglySorted_merge_sort row_le)].
  intros k v v'. rewrite !elem_of_cf_rows. congruence.
Qed.

Lemma StronglySorted_filter {A} (R : A → A → Prop) (P : A → Prop) `{∀ x, Decision (P x)} l :
  StronglySorted R l → StronglySorted R (filter P l).
Proof.
  induction 1 as [|x l Hs IH Hf]; [constructor|]. rewrite filter_cons. case_decide; [|done].
  constructor; [done|]. rewrite list.Forall_forall in *. intros y Hy.
  apply list_elem_of_filter in Hy as [_ Hy]. by apply Hf.
Qed.

(** Stopping at the first row that fails is filtering, when what fails once
    fails for every later row. *)
Fixpoint take_while {A} (p : A → bool) (l : list A) : list A :=
  match l with
  | [] => []
  | x :: l => if p x then x :: take_while p l else []
  end.

Lemma take_while_filter {A} (R : A → A → Prop) (p : A → bool) (l : list A) :
  StronglySorted R l →
  (∀ x y, R x y → x ∈ l → y ∈ l → p x = false → p y = false) →
  take_while p l = filter (λ x, p x = true) l.
Proof.
  induction 1 as [|x l Hs IH Hf]; intros Hp; [done|]. cbn [take_while]. rewrite filter_cons.
  destruct (p x) eqn:Hx.
  - rewrite decide_True by done. f_equal. apply IH. intros a b ???. apply (Hp a b); set_solver.
  - rewrite decide_False by done. apply symmetry, elem_of_nil_inv. intros y Hy.
    apply list_elem_of_filter in Hy as [Hpy Hy]. rewrite list.Forall_forall in Hf.
    rewrite (Hp x y) in Hpy; [done|by apply Hf|set_solver..|done].
Qed.

(** ** The merge operator *)

Lemma to_le_bytes_length n z : length (to_le_bytes n z) = n.
Proof. unfold to_le_bytes. by rewrite length_reverse, to_be_bytes_length. Qed.

Lemma i64_of_u64_ok z : uint_ok 64 z → i64_ok (i64_of_u64 z).
Proof. unfold uint_ok, i64_ok, i64_of_u64. case_decide; lia. Qed.

Lemma i64_add_ok a b : i64_ok (i64_add a b).
Proof. apply i64_of_u64_ok, wrap_ok. lia. Qed.

Lemma i64_from_to_le v : i64_ok v → i64_from_le (i64_to_le v) = Some v.
Proof.
  intros Hv. unfold i64_from_le, i64_to_le. rewrite to_le_bytes_length, decide_True by done.
  unfold from_le_bytes, to_le_bytes. rewrite reverse_involutive.
  rewrite from_to_be_bytes by (apply (wrap_ok 64); lia). by rewrite i64_of_u64_wrap.
Qed.

Lemma i64_from_le_ok bytes v : bytes_ok bytes → i64_from_le bytes = Some v → i64_ok v.
Proof.
  unfold i64_from_le. intros Hb. case_decide as Hl; [|done]. intros [= <-].
  apply i64_of_u64_ok. unfold from_le_bytes, uint_ok.
  pose proof (from_be_bytes_bound (reverse bytes)) as H. rewrite length_reverse, Hl in H.
  apply H. by apply Forall_reverse.
Qed.

Lemma i64_of_u64_mod z : wrap 64 (i64_of_u64 (wrap 64 z)) = wrap 64 z.
Proof.
  unfold i64_of_u64, wrap. case_decide; [by rewrite Z.mod_mod|].
  replace (z `mod` 2 ^ 64 - 2 ^ 64) with (z `mod` 2 ^ 64 + (-1) * 2 ^ 64) by lia.
  rewrite Z.mod_add by lia. by rewrite Z.mod_mod.
Qed.

Lemma i64_add_wrap_l a b : i64_add (i64_of_u64 (wrap 64 a)) b = i64_add a b.
Proof.
  unfold i64_add. f_equal. pose proof (i64_of_u64_mod a) as H. unfold wrap in *.
  rewrite Z.add_mod, H, <-Z.add_mod by lia. done.
Qed.

Lemma i64_add_comm a b : i64_add a b = i64_add b a.
Proof. unfold i64_add. by rewrite Z.add_comm. Qed.

Lemma i64_add_assoc a b c : i64_add (i64_add a b) c = i64_add a (i64_add b c).
Proof.
  unfold i64_add at 2. rewrite i64_add_wrap_l. rewrite (i64_add_comm a (i64_add b c)).
  unfold i64_add at 3. rewrite i64_add_wrap_l. unfold i64_add. do 2 f_equal. lia.
Qed.

Lemma i64_add_0_l a : i64_ok a → i64_add 0 a = a.
Proof. intros. unfold i64_add. rewrite Z.add_0_l. by apply i64_of_u64_wrap. Qed.

Lemma merge_operands_app v xs ys :
  merge_operands v (xs ++ ys) = merge_operands v xs ≫= λ v', merge_operands v' ys.
Proof.
  revert v. induction xs as [|x xs IH]; intros v; [done|]. cbn [merge_operands app].
  destruct (i64_from_le x); [apply IH|done].
Qed.

Lemma merge_operands_shift v w xs :
  merge_operands (i64_add v w) xs = i64_add v <$> merge_operands w xs.
Proof.
  revert w. induction xs as [|x xs IH]; intros w; [done|]. cbn [merge_operands].
  destruct (i64_from_le x); [|done]. by rewrite i64_add_assoc, IH.
Qed.

Lemma merge_operands_ok v xs r : i64_ok v → merge_operands v xs = Some r → i64_ok r.
Proof.
  revert v. induction xs as [|x xs IH]; intros v Hv; cbn [merge_operands]; [by intros [= <-]|].
  destruct (i64_from_le x); [|done]. apply IH, i64_add_ok.
Qed.

(** the merge operator of the counters is associative, as RocksDB requires
    of [set_merge_operator_associative]: merging the operands one batch after
    the other, or first collapsing a run of operands among themselves (a
    partial merge, run on no value), stores the same counter as merging them
    all at once, wrap-around included. *)
Theorem numeric_value_merge_associative value xs ys zs :
  (∀ v, value = Some v → bytes_ok v) →
  (∀ bytes, numeric_value_merge value xs = Some bytes →
    numeric_value_merge (Some bytes) ys = numeric_value_merge value (xs ++ ys)) ∧
  (∀ partial, numeric_value_merge None ys = Some partial →
    numeric_value_merge value (xs ++ [partial] ++ zs) = numeric_value_merge value (xs ++ ys ++ zs)).
Proof.
  intros Hv. unfold numeric_value_merge.
  destruct (match value with Some bytes => i64_from_le bytes | None => Some 0 end) as [v|] eqn:Hval;
    [|split; intros ? H; [discriminate H|done]].
  assert (i64_ok v) as Hvok.
  { destruct value as [b|]; [by apply (i64_from_le_ok b); [apply Hv|]|]. injection Hval as <-. unfold i64_ok; lia. }
  cbn [mbind option_bind]. split.
  - intros bytes H. rewrite merge_operands_app.
    destruct (merge_operands v xs) as [a|] eqn:Ha; [|done]. injection H as <-.
    by rewrite i64_from_to_le by eauto using merge_operands_ok.
  - intros partial H. rewrite !(merge_operands_app v).
    destruct (merge_operands v xs) as [a|] eqn:Ha; [|done].
    destruct (merge_operands 0 ys) as [p|] eqn:Hp; [|done]. injection H as <-.
    pose proof (merge_operands_ok _ _ _ Hvok Ha) as Haok.
    pose proof (merge_operands_ok 0 ys p ltac:(unfold i64_ok; lia) Hp) as Hpok.
    cbn [app merge_operands mbind option_bind].
    rewrite i64_from_to_le, merge_operands_app by done.
    rewrite <-(i64_add_0_l a Haok) at 2. rewrite (i64_add_comm 0 a).
    by rewrite (merge_operands_shift a 0 ys), Hp.
Qed.

Lemma numeric_value_merge_associative_witness :
  numeric_value_merge (Some (i64_to_le 5)) ([i64_to_le 2] ++ [i64_to_le 4] ++ [i64_to_le (-1)])
  = Some (i64_to_le 10).
Proof.
  rewrite (proj2 (numeric_value_merge_associative (Some (i64_to_le 5)) [i64_to_le 2]
    [i64_to_le 3; i64_to_le 1] [i64_to_le (-1)] ltac:(intros v [= <-];
      apply (bool_decide_unpack _); by vm_compute))); by vm_compute.
Defined.
