(* ===== verification/KvModel.v ===== *)
(** * A log-structured engine that satisfies the engine's laws

    The database is the list of committed writes, newest first; a transaction
    is a list of pending writes.  It shows that [RocksDBLaws] can hold and is
    what the concrete examples of the development run on. *)

From stdpp Require Import base gmap sorting strings numbers list.
From S2P Require Import Prelude Keys Kv.
Open Scope Z_scope.

Module LogDb.

Abbreviation cell := (Z * list Z)%type.
Definition DB : Type := list (cell * option (list Z)).

Definition apply_event (e : cell * option (list Z)) (m : store_map) : store_map :=
  match e.2 with Some v => <[e.1 := v]> m | None => delete e.1 m end.
Definition log_map (db : DB) : store_map := foldr apply_event ∅ db.

Inductive pending :=
  | WPut (sk : cell) (v : list Z)
  | WDelete (sk : cell)
  | WMerge (sk : cell) (operand : list Z).

Definition pending_key (w : pending) : cell :=
  match w with WPut sk _ | WDelete sk | WMerge sk _ => sk end.

Definition apply_pending (w : pending) (m : store_map) : store_map :=
  match w with
  | WPut sk v => <[sk := v]> m
  | WDelete sk => delete sk m
  | WMerge sk operand =>
      match numeric_value_merge (m !! sk) [operand] with
      | Some v => <[sk := v]> m
      | None => m
      end
  end.

Record Txn := { t_began : DB; t_writes : list pending; t_tracked : gset cell }.

Definition view (t : Txn) (db : DB) : store_map :=
  foldr apply_pending (log_map db) (t_writes t).
Definition track (sk : cell) (t : Txn) : Txn :=
  {| t_began := t_began t; t_writes := t_writes t; t_tracked := {[sk]} ∪ t_tracked t |}.
Definition push (w : pending) (t : Txn) : Txn :=
  {| t_began := t_began t; t_writes := w :: t_writes t;
     t_tracked := {[pending_key w]} ∪ t_tracked t |}.

Definition recent (t : Txn) (db : DB) : DB := take (length db - length (t_began t)) db.
Definition event_of (m : store_map) (w : pending) : cell * option (list Z) :=
  (pending_key w, m !! pending_key w).
Definition commit (t : Txn) (db : DB) : DB + ErrorKind :=
  if decide (Forall (λ e, e.1 ∉ t_tracked t) (recent t db))
  then inl ((event_of (view t db) <$> t_writes t) ++ db)
  else inr Busy.

#[global] Instance log_db : RocksDB DB Txn := {|
  get_pinned_cf db s k := log_map db !! (s, k);
  iterator_cf db s mode := iter_rows (log_map db) s mode;
  put_cf db s k v := ((s, k), Some v) :: db;
  delete_cf db s k := ((s, k), None) :: db;
  transaction_opt db := {| t_began := db; t_writes := []; t_tracked := ∅ |};
  txn_get_for_update_cf t db s k := (view t db !! (s, k), track (s, k) t);
  txn_iterator_cf t db s mode := iter_rows (view t db) s mode;
  txn_put_cf t s k v := push (WPut (s, k) v) t;
  txn_delete_cf t s k := push (WDelete (s, k)) t;
  txn_merge_cf t s k v := push (WMerge (s, k) v) t;
  txn_commit := commit;
|}.

Lemma lookup_apply_event e m sk :
  apply_event e m !! sk = if decide (e.1 = sk) then e.2 else m !! sk.
Proof.
  destruct e as [k [v|]]; unfold apply_event; cbn [fst snd]; case_decide; subst.
  - by rewrite lookup_insert_eq.
  - by rewrite lookup_insert_ne.
  - by rewrite lookup_delete_eq.
  - by rewrite lookup_delete_ne.
Qed.

Lemma lookup_apply_pending_ne w m sk :
  pending_key w ≠ sk → apply_pending w m !! sk = m !! sk.
Proof.
  destruct w as [k v|k|k v]; cbn [apply_pending pending_key]; intros Hne; rewrite ?lookup_insert_ne, ?lookup_delete_ne by done;
    try done.
  destruct (numeric_value_merge _ _); [by rewrite lookup_insert_ne|done].
Qed.

Lemma apply_pending_local w m1 m2 sk :
  m1 !! sk = m2 !! sk → apply_pending w m1 !! sk = apply_pending w m2 !! sk.
Proof.
  intros Heq. destruct (decide (pending_key w = sk)) as [<-|Hne].
  - destruct w as [k v|k|k v]; cbn [apply_pending pending_key] in *; rewrite ?lookup_insert_eq, ?lookup_delete_eq; try done.
    rewrite Heq. destruct (numeric_value_merge _ _); [by rewrite !lookup_insert_eq|done].
  - by rewrite !lookup_apply_pending_ne by done.
Qed.

Lemma view_overlay t db1 db2 sk :
  log_map db1 !! sk = log_map db2 !! sk → view t db1 !! sk = view t db2 !! sk.
Proof.
  intros Heq. unfold view. induction (t_writes t) as [|w ws IH]; [done|]. cbn [foldr].
  by apply apply_pending_local.
Qed.

Lemma lookup_view_untouched ws m sk :
  sk ∉ (pending_key <$> ws) → foldr apply_pending m ws !! sk = m !! sk.
Proof.
  induction ws as [|w ws IH]; intros Hn; [done|]. cbn [foldr]. rewrite fmap_cons in Hn.
  apply not_elem_of_cons in Hn as [? ?]. rewrite lookup_apply_pending_ne by done. by apply IH.
Qed.

Lemma log_map_commit m ws db :
  (∀ sk, sk ∉ (pending_key <$> ws) → m !! sk = log_map db !! sk) →
  log_map ((event_of m <$> ws) ++ db) = m.
Proof.
  intros Hm. apply map_eq. intros sk. revert Hm.
  assert (∀ ws', log_map ((event_of m <$> ws') ++ db) !! sk
    = if decide (sk ∈ (pending_key <$> ws')) then m !! sk else log_map db !! sk) as H.
  { induction ws' as [|w ws' IH]; [done|]. rewrite !fmap_cons. cbn [app log_map foldr].
    fold (log_map ((event_of m <$> ws') ++ db)). rewrite lookup_apply_event. cbn [event_of fst snd].
    destruct (decide (pending_key w = sk)) as [<-|Hne].
    - by rewrite decide_True by set_solver.
    - rewrite IH. apply decide_ext. rewrite elem_of_cons. split; [by right|by intros [Heq|?]]. }
  intros Hm. rewrite H. case_decide; [done|]. by rewrite Hm.
Qed.

Lemma log_map_app l db sk :
  Forall (λ e, e.1 ≠ sk) l → log_map (l ++ db) !! sk = log_map db !! sk.
Proof.
  induction 1 as [|e l He Hl IH]; [done|]. cbn [app log_map foldr].
  fold (log_map (l ++ db)). by rewrite lookup_apply_event, decide_False.
Qed.

Lemma commit_unmodified t db db' dbi sk :
  commit t db = inl db' → (∃ l, dbi = l ++ t_began t) → (∃ l, db = l ++ dbi) →
  sk ∈ t_tracked t → log_map dbi !! sk = log_map db !! sk.
Proof.
  unfold commit. intros Hc [l1 ->] [l2 ->] Hsk. case_decide as Hf; [|done].
  unfold recent in Hf.
  rewrite !length_app, app_assoc, take_app_length' in Hf by (rewrite length_app; lia).
  apply Forall_app in Hf as [Hf _]. symmetry. apply log_map_app.
  eapply Forall_impl; [exact Hf|]. cbn. intros e He Heq. by rewrite Heq in He.
Qed.

#[global] Instance log_db_laws : RocksDBLaws DB Txn.
Proof.
  refine {| db_map := log_map; db_le db db' := db `suffix_of` db';
            txn_map := view; txn_began := t_began; txn_tracked := t_tracked |}; try done.
  - intros t db1 db2 sk. apply view_overlay.
  - intros t s k operand db v _ Hv. cbn. fold (view t db). by rewrite Hv.
  - cbn. unfold commit. intros t db db'. case_decide; [|done]. intros [= <-].
    apply log_map_commit. intros sk Hsk. by apply lookup_view_untouched.
  - cbn. unfold commit. intros t db db'. case_decide; [|done]. intros [= <-]. by eexists.
  - intros t db db' dbi sk Hc H1 H2 Hsk. by apply (commit_unmodified t db db').
Defined.

End LogDb.
