(* ===== verification/Batch.v ===== *)
(** * Batches of write operations

    [Operation], [ValueOp], [MaybeDynamicValue] and [AssertValue] with the
    [BatchBuilder] that assembles them (write/mod.rs, write/batch.rs,
    write/assert.rs), and the assignment of free document ids
    ([RandomAvailableId]). *)

From stdpp Require Import base gmap sorting strings numbers list.
From S2P Require Import Prelude Codec Keys Roaring.
Open Scope Z_scope.

(** ** Operations *)

(** [MaybeDynamicValue]: a trait object is its [serialize_with_id]. *)
Inductive MaybeDynamicValue :=
  | ValueStatic (value : list Z)
  | ValueDynamic (serialize_with_id : AssignedIds → result (list Z)).

Definition value_resolve (v : MaybeDynamicValue) (ids : AssignedIds) : result (list Z) :=
  match v with
  | ValueStatic value => Ok value
  | ValueDynamic serialize_with_id => serialize_with_id ids
  end.

(** [SerializeWithId for DynamicDocumentId], [From<MaybeDynamicId>] *)
Definition dynamic_document_id (idx : nat) (ids : AssignedIds) : result (list Z) :=
  id ← get_document_id ids idx; Ok (to_be_bytes 4 id).
Definition value_of_id (id : MaybeDynamicId) : MaybeDynamicValue :=
  match id with
  | Static id => ValueStatic (to_be_bytes 4 id)
  | Dynamic idx => ValueDynamic (dynamic_document_id idx)
  end.

Inductive AssertValue :=
  | AssertU32 (v : Z)
  | AssertU64 (v : Z)
  | AssertHash (v : Z)
  | AssertSome
  | AssertNone.

Inductive ValueOp :=
  | Set_ (value : MaybeDynamicValue)
  | AtomicAdd (by_ : Z)
  | AddAndGet (by_ : Z)
  | Clear.

Inductive Operation :=
  | OpAccountId (account_id : Z)
  | OpCollection (collection : Z)
  | OpDocumentId (document_id : Z)
  | OpChangeId (change_id : Z)
  | OpAssertValue (class : ValueClass MaybeDynamicId) (assert_value : AssertValue)
  | OpValue (class : ValueClass MaybeDynamicId) (op : ValueOp)
  | OpIndex (field : Z) (key : list Z) (set : bool)
  | OpBitmap (class : BitmapClass MaybeDynamicId) (set : bool)
  | OpLog (set : MaybeDynamicValue).

(** [AssertValue::matches] and [is_none]; [xxh3_64] is the hash of the
    [xxhash] library. *)
Section assert_value.
Context (xxh3_64 : list Z → Z).

Definition assert_matches (a : AssertValue) (bytes : list Z) : bool :=
  match a with
  | AssertU32 v => bool_decide (length bytes = U32_LEN) && bool_decide (from_be_bytes bytes = v)
  | AssertU64 v => bool_decide (length bytes = U64_LEN) && bool_decide (from_be_bytes bytes = v)
  | AssertHash v => bool_decide (xxh3_64 bytes = v)
  | AssertNone => false
  | AssertSome => true
  end.

Definition assert_is_none (a : AssertValue) : bool :=
  match a with AssertNone => true | _ => false end.

(** What an [AssertValue] operation requires of a stored value. *)
Definition assert_holds (a : AssertValue) (value : option (list Z)) : bool :=
  match value with
  | Some bytes => assert_matches a bytes
  | None => assert_is_none a
  end.

(** [HashedValue<T>]: a value with the hash of its bytes; asserting the value
    that was read asserts its hash. *)
Definition hashed_assert (bytes : list Z) : AssertValue := AssertHash (xxh3_64 bytes).
End assert_value.

(** ** The builder *)

Record Batch := { ops : list Operation }.
Record BatchBuilder := { b_ops : list Operation }.

Definition builder_new : BatchBuilder := {| b_ops := [] |}.
Definition b_push (op : Operation) (b : BatchBuilder) : BatchBuilder :=
  {| b_ops := b_ops b ++ [op] |}.

Definition with_change_id (change_id : Z) : BatchBuilder → BatchBuilder :=
  b_push (OpChangeId change_id).
Definition with_account_id (account_id : Z) : BatchBuilder → BatchBuilder :=
  b_push (OpAccountId account_id).
Definition with_collection (collection : Z) : BatchBuilder → BatchBuilder :=
  b_push (OpCollection collection).
Definition create_document (b : BatchBuilder) : BatchBuilder :=
  b_push (OpBitmap DocumentIds true) (b_push (OpDocumentId U32_MAX) b).
Definition create_document_with_id (document_id : Z) (b : BatchBuilder) : BatchBuilder :=
  b_push (OpBitmap DocumentIds true) (b_push (OpDocumentId document_id) b).
Definition update_document (document_id : Z) : BatchBuilder → BatchBuilder :=
  b_push (OpDocumentId document_id).
Definition delete_document (document_id : Z) (b : BatchBuilder) : BatchBuilder :=
  b_push (OpBitmap DocumentIds false) (b_push (OpDocumentId document_id) b).
Definition assert_value (class : ValueClass MaybeDynamicId) (value : AssertValue)
  : BatchBuilder → BatchBuilder := b_push (OpAssertValue class value).

Definition F_VALUE : Z := Z.shiftl 1 0.
Definition F_INDEX : Z := Z.shiftl 1 1.
Definition F_BITMAP : Z := Z.shiftl 1 2.
Definition F_CLEAR : Z := Z.shiftl 1 3.
Definition has_flag (self flag : Z) : bool := bool_decide (Z.land self flag = flag).

(** The types that implement [Serialize] and [ToBitmaps].  [word_tokens] is
    the set of words the tokenizer finds in a text and [xxh3_64],
    [farm_hash64] are the hashes of [BitmapHash::new].  The bitmaps of [f64]
    and [()] are [unreachable!()]: [None]. *)
Inductive BatchValue :=
  | BvU32 (v : Z)
  | BvU64 (v : Z)
  | BvF64 (bits : Z)
  | BvStr (v : list Z)
  | BvUnit.

Definition bv_serialize (v : BatchValue) : list Z :=
  match v with
  | BvU32 v => to_be_bytes 4 v
  | BvU64 v => to_be_bytes 8 v
  | BvF64 bits => to_be_bytes 8 bits
  | BvStr v => v
  | BvUnit => []
  end.

Section to_bitmaps.
Context (word_tokens : list Z → list (list Z)) (xxh3_64 farm_hash64 : list Z → Z).

Definition to_bitmaps (v : BatchValue) (field : Z) (set : bool) : option (list Operation) :=
  match v with
  | BvU32 n => Some [OpBitmap (Tag field (TagId (Static n))) set]
  | BvU64 n => Some [OpBitmap (Tag field (TagId (Static (wrap 32 n)))) set]
  | BvStr s =>
      Some ((λ token, OpBitmap (Text field (bitmap_hash_new xxh3_64 farm_hash64 token)) set)
            <$> word_tokens s)
  | BvF64 _ | BvUnit => None
  end.

(** [BatchBuilder::value] *)
Definition value (field : Z) (v : BatchValue) (options : Z) (b : BatchBuilder)
  : option BatchBuilder :=
  let is_set := negb (has_flag options F_CLEAR) in
  bms ← (if has_flag options F_BITMAP then to_bitmaps v field is_set else Some []);
  let bytes := bv_serialize v in
  let idx := if has_flag options F_INDEX then [OpIndex field bytes is_set] else [] in
  let val :=
    if has_flag options F_VALUE then
      [OpValue (Property field) (if is_set then Set_ (ValueStatic bytes) else Clear)]
    else [] in
  Some {| b_ops := b_ops b ++ bms ++ idx ++ val |}.
End to_bitmaps.

Definition tag (field : Z) (v : TagValue MaybeDynamicId) (options : Z)
  : BatchBuilder → BatchBuilder :=
  b_push (OpBitmap (Tag field v) (negb (has_flag options F_CLEAR))).
Definition add (class : ValueClass MaybeDynamicId) (v : Z) : BatchBuilder → BatchBuilder :=
  b_push (OpValue class (AtomicAdd v)).
Definition add_and_get (class : ValueClass MaybeDynamicId) (v : Z) : BatchBuilder → BatchBuilder :=
  b_push (OpValue class (AddAndGet v)).
Definition set (class : ValueClass MaybeDynamicId) (v : MaybeDynamicValue)
  : BatchBuilder → BatchBuilder := b_push (OpValue class (Set_ v)).
Definition clear (class : ValueClass MaybeDynamicId) : BatchBuilder → BatchBuilder :=
  b_push (OpValue class Clear).
Definition log (v : MaybeDynamicValue) : BatchBuilder → BatchBuilder := b_push (OpLog v).
Definition build (b : BatchBuilder) : Batch := {| ops := b_ops b |}.
Definition build_batch (b : BatchBuilder) : Batch * BatchBuilder :=
  ({| ops := b_ops b |}, {| b_ops := [] |}).

Definition account_of (op : Operation) : option Z :=
  match op with OpAccountId account_id => Some account_id | _ => None end.
Definition last_account_id (b : BatchBuilder) : option Z := head (omap account_of (reverse (b_ops b))).
Definition first_account_id (b : Batch) : option Z := head (omap account_of (ops b)).

Definition is_empty (b : BatchBuilder) : bool :=
  bool_decide (b_ops b = []) ||
  negb (existsb (λ op, match op with
          | OpAccountId _ | OpCollection _ | OpDocumentId _ | OpAssertValue _ _ => false
          | _ => true end) (b_ops b)).

(** [Batch::is_atomic] *)
Definition is_atomic (b : Batch) : bool :=
  negb (existsb (λ op, match op with
          | OpAssertValue _ _ | OpValue _ (AddAndGet _) => true
          | _ => false end) (ops b)).

(** [Operation::acl] *)
Definition op_acl (grant_account_id : Z) (set : option (list Z)) : Operation :=
  OpValue (Acl grant_account_id)
    (match set with Some v => Set_ (ValueStatic v) | None => Clear end).

(** ** Free document ids *)

(** [RandomAvailableId for RoaringBitmap]: the ids in the gaps between the
    ids in use, topped up to a hundred candidates past the last one;
    [gen_range] is the random generator's [gen_range(0..n)]. *)
Fixpoint available_gaps (last_id : Z) (ids : list Z) : list Z * Z :=
  match ids with
  | [] => ([], last_id)
  | id :: ids =>
      let '(available_ids, last) := available_gaps (wrap 32 (id + 1)) ids in
      (zrange last_id id ++ available_ids, last)
  end.

Fixpoint available_tail (n : nat) (last_id : Z) : list Z :=
  match n with
  | O => []
  | S n => last_id :: available_tail n (wrap 32 (last_id + 1))
  end.

Section random_available_id.
Context {B : Type} `{RoaringBitmap B}.

Definition available_ids (self : B) : list Z :=
  let '(available_ids, last_id) := available_gaps 0 (rb_iter self) in
  available_ids ++ available_tail (100 - length available_ids) last_id.

Definition random_available_id (gen_range : nat → nat) (self : B) : Z :=
  default 0 (available_ids self !! gen_range (length (available_ids self))).
End random_available_id.

Lemma available_tail_elem n last x :
  0 ≤ last → last + Z.of_nat n < 2 ^ 32 →
  x ∈ available_tail n last ↔ last ≤ x < last + Z.of_nat n.
Proof.
  revert last. induction n as [|n IH]; intros last Hl Hn; cbn [available_tail].
  - rewrite elem_of_nil. lia.
  - unfold wrap. rewrite Z.mod_small by lia. rewrite elem_of_cons, IH by lia. lia.
Qed.

Lemma available_tail_length n last : length (available_tail n last) = n.
Proof. revert last. induction n; intros; cbn; [done|]. by f_equal. Qed.

(** The gaps are the ids from [last_id] on that are not in use. *)
Lemma available_gaps_spec b last ids :
  StronglySorted Z.lt ids → 0 ≤ last ≤ b → b ≤ 2 ^ 32 - 101 →
  (∀ i, i ∈ ids → last ≤ i < b) →
  let '(av, last') := available_gaps last ids in
  last ≤ last' ≤ b ∧ (∀ i, i ∈ ids → i < last') ∧
  (∀ x, x ∈ av ↔ last ≤ x < last' ∧ x ∉ ids).
Proof.
  intros Hs. revert last. induction Hs as [|id ids Hs IH Hlt]; intros last Hl Hb Hin;
    cbn [available_gaps].
  - split; [lia|]. split; [by intros i ?%elem_of_nil|]. intros x. rewrite elem_of_nil. lia.
  - rewrite list.Forall_forall in Hlt. pose proof (Hin id ltac:(by left)) as Hid.
    unfold wrap. rewrite Z.mod_small by lia. specialize (IH (id + 1)).
    destruct (available_gaps (id + 1) ids) as [av last'].
    destruct IH as (H1 & H2 & H3); [lia|lia| |].
    { intros i Hi. specialize (Hlt i Hi). specialize (Hin i ltac:(by right)). lia. }
    split; [lia|]. split.
    { intros i [->|Hi]%elem_of_cons; [lia|by apply H2]. }
    intros x. unfold zrange. rewrite elem_of_app, elem_of_seqZ, H3, elem_of_cons. split.
    + intros [Hx|[Hx Hn]].
      * split; [lia|]. intros [->|Hx']; [lia|]. specialize (Hlt x Hx'). lia.
      * split; [lia|]. intros [->|Hx']; [lia|done].
    + intros [Hx Hn]. destruct (decide (x < id)); [left; lia|right].
      split; [|tauto]. assert (x ≠ id) by tauto. lia.
Qed.

Section available_ids.
Context {B : Type} `{RoaringBitmapLaws B}.

Lemma available_ids_fresh (bm : B) b x :
  0 ≤ b ≤ 2 ^ 32 - 101 → (∀ i, i ∈ rb_elems bm → 0 ≤ i < b) →
  x ∈ available_ids bm → (x ∉ rb_elems bm) ∧ 0 ≤ x < b + 100.
Proof.
  intros Hb Hbm. unfold available_ids. pose proof (available_gaps_spec b 0 (rb_iter bm)) as Hg.
  destruct (available_gaps 0 (rb_iter bm)) as [av last].
  destruct Hg as (H1 & H2 & H3); [apply rb_iter_sorted|lia|lia| |].
  { intros i Hi. apply Hbm. by apply rb_iter_elems. }
  rewrite elem_of_app, H3, <-rb_iter_elems. intros [[Hx Hn]|Hx].
  - split; [done|]. lia.
  - apply available_tail_elem in Hx; [|lia|lia]. split; [|lia].
    intros Hx'%H2. lia.
Qed.

Lemma available_ids_length (b : B) : (100 ≤ length (available_ids b))%nat.
Proof.
  unfold available_ids. destruct (available_gaps 0 (rb_iter b)) as [av last].
  rewrite length_app, available_tail_length. lia.
Qed.

Lemma random_available_id_elem (gen_range : nat → nat) (bm : B) :
  (∀ n, (0 < n)%nat → (gen_range n < n)%nat) →
  random_available_id gen_range bm ∈ available_ids bm.
Proof.
  intros Hg. pose proof (available_ids_length bm) as Hl. unfold random_available_id.
  destruct (lookup_lt_is_Some_2 (available_ids bm) (gen_range (length (available_ids bm))))
    as [x Hx]; [apply Hg; lia|].
  rewrite Hx. cbn [default]. by eapply list_elem_of_lookup_2.
Qed.

(** C22: a document id assigned at random is one that is not in use and is not
    the sentinel [u32::MAX], whichever candidate the generator picks, as long
    as the ids in use stay a hundred below the end of the range; a hundred
    candidates are always offered. *)
Theorem random_available_id_fresh (gen_range : nat → nat) (bm : B) b :
  (∀ n, (0 < n)%nat → (gen_range n < n)%nat) →
  0 ≤ b ≤ 2 ^ 32 - 101 → (∀ i, i ∈ rb_elems bm → 0 ≤ i < b) →
  (random_available_id gen_range bm ∉ rb_elems bm) ∧
  0 ≤ random_available_id gen_range bm < b + 100 ∧
  (100 ≤ length (available_ids bm))%nat.
Proof.
  intros Hg Hb Hbm.
  destruct (available_ids_fresh bm b (random_available_id gen_range bm) Hb Hbm) as [H1 H2];
    [by apply random_available_id_elem|].
  split_and!; [done|lia..|apply available_ids_length].
Qed.
End available_ids.

Lemma random_available_id_fresh_witness :
  random_available_id (λ n, Nat.pred n) ({[0; 2; 7]} : gset Z) ∉ ({[0; 2; 7]} : gset Z).
Proof.
  refine (proj1 (random_available_id_fresh (B:=gset Z) (λ n, Nat.pred n) {[0; 2; 7]} 8 _ _ _));
    [lia|lia|].
  intros i. cbn. rewrite !elem_of_union, !elem_of_singleton. lia.
Defined.
