(* ===== verification/Commit.v ===== *)
(** * The write path of the RocksDB backend

    [RocksDBTransaction::commit] and the retry loop of [RocksDbStore::write]
    (backend/rocksdb/write.rs).  Other writers commit while a batch runs:
    [cur i] is the committed database when the transaction begins ([i = 0]),
    when the [i]-th operation runs ([i = 1 .. n]) and when the transaction
    commits ([i = n + 1]).

    The specification is [exec_op], one operation of a batch on the content of
    the store, and [exec_ops], a whole batch at one moment.  The refinement
    theorem says that a commit that succeeds did exactly what the batch does
    atomically to the store at the moment of the commit, whatever the other
    writers did meanwhile. *)

From stdpp Require Import base gmap sorting strings numbers list.
From S2P Require Import Prelude Codec Keys KeyTheory Roaring Kv Batch.
Open Scope Z_scope.
Open Scope bytes_scope.

(** ** The transaction *)

Inductive CommitError :=
  | Internal (e : error)
  | RocksDBError (k : ErrorKind).

(** The local variables of [commit]. *)
Record coords := {
  c_account_id : Z;
  c_collection : Z;
  c_document_id : Z;
  c_change_id : Z;
  c_result : AssignedIds;
}.

Definition coords_init : coords := {|
  c_account_id := U32_MAX; c_collection := U8_MAX; c_document_id := U32_MAX;
  c_change_id := U64_MAX; c_result := assigned_default |}.

Definition set_account_id (v : Z) (c : coords) : coords :=
  {| c_account_id := v; c_collection := c_collection c; c_document_id := c_document_id c;
     c_change_id := c_change_id c; c_result := c_result c |}.
Definition set_collection (v : Z) (c : coords) : coords :=
  {| c_account_id := c_account_id c; c_collection := v; c_document_id := c_document_id c;
     c_change_id := c_change_id c; c_result := c_result c |}.
Definition set_document_id (v : Z) (c : coords) : coords :=
  {| c_account_id := c_account_id c; c_collection := c_collection c; c_document_id := v;
     c_change_id := c_change_id c; c_result := c_result c |}.
Definition set_change_id (v : Z) (c : coords) : coords :=
  {| c_account_id := c_account_id c; c_collection := c_collection c;
     c_document_id := c_document_id c; c_change_id := v; c_result := c_result c |}.
Definition set_result (v : AssignedIds) (c : coords) : coords :=
  {| c_account_id := c_account_id c; c_collection := c_collection c;
     c_document_id := c_document_id c; c_change_id := c_change_id c; c_result := v |}.

(** The keys the operations address. *)
Definition class_key (c : coords) (class : ValueClass MaybeDynamicId) : list Z :=
  value_serialize class (c_account_id c) (c_collection c) (c_document_id c) 0 (Some (c_result c)).
Definition class_cell (c : coords) (class : ValueClass MaybeDynamicId) : Z * list Z :=
  (subspace class (c_collection c), class_key c class).
Definition index_cell (c : coords) (field : Z) (key : list Z) : Z * list Z :=
  (SUBSPACE_INDEXES,
   index_key_serialize {| ik_account_id := c_account_id c; ik_collection := c_collection c;
     ik_document_id := c_document_id c; ik_field := field; ik_key := key |} 0).
Definition bitmap_cell (c : coords) (class : BitmapClass MaybeDynamicId) : Z * list Z :=
  (bitmap_subspace class,
   bitmap_serialize class (c_account_id c) (c_collection c) (c_document_id c) 0
     (Some (c_result c))).
Definition log_cell (c : coords) : Z * list Z :=
  (SUBSPACE_LOGS,
   log_key_serialize {| lk_account_id := c_account_id c; lk_collection := c_collection c;
     lk_change_id := c_change_id c |} 0).

Definition is_document_ids (class : BitmapClass MaybeDynamicId) : bool :=
  match class with DocumentIds => true | _ => false end.

Definition lift {A} (r : result A) : A + CommitError :=
  match r with Ok a => inl a | Err e => inr (Internal e) end.

Notation "'let?' x := e 'in' k" :=
  (match e with inl x => k | inr err => inr err end)
  (at level 10, x pattern, e at level 100, k at level 200) : stalwart_scope.
Open Scope stalwart_scope.

(** The scan over the keys of one bitmap, shared by [commit] and by
    [get_bitmap] of backend/rocksdb/read.rs: it stops at the first key that is
    longer or shorter than [begin] or is outside [begin..=end]. *)
Fixpoint scan_bitmap {B} `{RoaringBitmap B} (begin end_ : list Z) (rows : list row) (bm : B)
    : result B :=
  match rows with
  | [] => Ok bm
  | (key, _) :: rows =>
      if bool_decide (length key = length begin ∧ begin ≤ᵇ key ∧ key ≤ᵇ end_) then
        id ← deserialize_be_u32_end key U32_LEN;
        scan_bitmap begin end_ rows (rb_insert id bm)
      else Ok bm
  end.

Section commit.
Context {DB Txn : Type} `{RocksDB DB Txn}.
Context (B : Type) `{RoaringBitmap B}.
Context (xxh3_64 : list Z → Z).

(** The ids in use in the account and collection, as the transaction sees
    them. *)
Definition found_ids (t : Txn) (db : DB) (c : coords) : result B :=
  let key document_id := bitmap_key_serialize
    {| bk_account_id := c_account_id c; bk_collection := c_collection c;
       bk_class := DocumentIds; bk_document_id := document_id |} 0 in
  scan_bitmap (key 0) (key U32_MAX)
    (txn_iterator_cf t db SUBSPACE_BITMAP_ID (FromForward (key 0))) rb_new.

(** One turn of the loop over [batch.ops]. *)
Definition commit_op (db : DB) (gen_range : nat → nat) (st : coords * Txn) (op : Operation)
  : (coords * Txn) + CommitError :=
  let '(c, t) := st in
  match op with
  | OpAccountId account_id => inl (set_account_id account_id c, t)
  | OpCollection collection => inl (set_collection collection c, t)
  | OpDocumentId document_id => inl (set_document_id document_id c, t)
  | OpChangeId change_id => inl (set_change_id change_id c, t)
  | OpValue class op =>
      let '(cf, key) := class_cell c class in
      match op with
      | Set_ value =>
          let? value := lift (value_resolve value (c_result c)) in
          inl (c, txn_put_cf t cf key value)
      | AtomicAdd by_ => inl (c, txn_merge_cf t cf key (i64_to_le by_))
      | AddAndGet by_ =>
          let '(bytes, t) := txn_get_for_update_cf t db cf key in
          let? num := match bytes with
                      | Some bytes =>
                          match deserialize_i64_le bytes with
                          | Ok v => inl (i64_add v by_)
                          | Err e => inr (Internal e)
                          end
                      | None => inl by_
                      end in
          inl (set_result (push_counter_id (c_result c) num) c,
               txn_put_cf t cf key (i64_to_le num))
      | Clear => inl (c, txn_delete_cf t cf key)
      end
  | OpIndex field key set =>
      let '(cf, key) := index_cell c field key in
      inl (c, if set : bool then txn_put_cf t cf key [] else txn_delete_cf t cf key)
  | OpBitmap class set =>
      let? c :=
        if set && is_document_ids class && bool_decide (c_document_id c = U32_MAX) then
          let? found := lift (found_ids t db c) in
          let document_id := random_available_id gen_range found in
          inl (set_result (push_document_id (c_result c) document_id)
                 (set_document_id document_id c))
        else inl c in
      let '(cf, key) := bitmap_cell c class in
      inl (c, if set : bool then txn_put_cf t cf key [] else txn_delete_cf t cf key)
  | OpLog set =>
      let '(cf, key) := log_cell c in
      let? value := lift (value_resolve set (c_result c)) in
      inl (c, txn_put_cf t cf key value)
  | OpAssertValue class assert_value =>
      let '(cf, key) := class_cell c class in
      let '(bytes, t) := txn_get_for_update_cf t db cf key in
      if assert_holds xxh3_64 assert_value bytes then inl (c, t)
      else inr (Internal AssertValueFailed)
  end.

Fixpoint commit_ops (cur : nat → DB) (gen_range : nat → nat → nat) (i : nat)
    (ops : list Operation) (st : coords * Txn) : (coords * Txn) + CommitError :=
  match ops with
  | [] => inl st
  | op :: ops =>
      let? st := commit_op (cur i) (gen_range i) st op in
      commit_ops cur gen_range (S i) ops st
  end.

(** [RocksDBTransaction::commit] *)
Definition commit (cur : nat → DB) (gen_range : nat → nat → nat) (batch : Batch)
  : (AssignedIds * DB) + CommitError :=
  let? (c, t) := commit_ops cur gen_range 1 (ops batch) (coords_init, transaction_opt (cur 0%nat)) in
  match txn_commit t (cur (S (length (ops batch)))) with
  | inl db => inl (c_result c, db)
  | inr k => inr (RocksDBError k)
  end.

Definition MAX_COMMIT_ATTEMPTS : nat := 10.

(** [RocksDbStore::write]: [cur a] are the databases that attempt [a] sees and
    [in_time a] tells whether [MAX_COMMIT_TIME] has not yet passed after it. *)
Fixpoint write_loop (fuel retry_count : nat) (cur : nat → nat → DB)
    (gen_range : nat → nat → nat → nat) (in_time : nat → bool) (batch : Batch)
    : option (result (AssignedIds * DB)) :=
  match fuel with
  | O => None
  | S fuel =>
      match commit (cur retry_count) (gen_range retry_count) batch with
      | inl r => Some (Ok r)
      | inr (Internal e) => Some (Err e)
      | inr (RocksDBError k) =>
          match k with
          | Busy | MergeInProgress | TryAgain =>
              if bool_decide (retry_count < MAX_COMMIT_ATTEMPTS)%nat && in_time retry_count
              then write_loop fuel (S retry_count) cur gen_range in_time batch
              else Some (Err (InternalError "RocksDB error"))
          | OtherKind => Some (Err (InternalError "RocksDB error"))
          end
      end
  end.

Definition write := write_loop (S MAX_COMMIT_ATTEMPTS) 0.
End commit.

(** ** The specification: a batch on the content of the store *)

Definition doc_ids_cell (c : coords) (document_id : Z) : Z * list Z :=
  bitmap_cell (set_document_id document_id c) DocumentIds.

(** The value of a counter: absent counters are zero. *)
Definition counter_value (m : store_map) (cell : Z * list Z) : option Z :=
  match m !! cell with Some bytes => i64_from_le bytes | None => Some 0 end.

Inductive exec_op (xxh3_64 : list Z → Z) :
    coords * store_map → Operation → coords * store_map → Prop :=
  | exec_account c m v : exec_op xxh3_64 (c, m) (OpAccountId v) (set_account_id v c, m)
  | exec_collection c m v : exec_op xxh3_64 (c, m) (OpCollection v) (set_collection v c, m)
  | exec_document c m v : exec_op xxh3_64 (c, m) (OpDocumentId v) (set_document_id v c, m)
  | exec_change c m v : exec_op xxh3_64 (c, m) (OpChangeId v) (set_change_id v c, m)
  | exec_set c m class v bytes :
      value_resolve v (c_result c) = Ok bytes →
      exec_op xxh3_64 (c, m) (OpValue class (Set_ v)) (c, <[class_cell c class := bytes]> m)
  | exec_clear c m class :
      exec_op xxh3_64 (c, m) (OpValue class Clear) (c, delete (class_cell c class) m)
  | exec_atomic_add c m class by_ v :
      counter_value m (class_cell c class) = Some v →
      exec_op xxh3_64 (c, m) (OpValue class (AtomicAdd by_))
        (c, <[class_cell c class := i64_to_le (i64_add v by_)]> m)
  | exec_add_and_get c m class by_ v :
      counter_value m (class_cell c class) = Some v →
      exec_op xxh3_64 (c, m) (OpValue class (AddAndGet by_))
        (set_result (push_counter_id (c_result c) (i64_add v by_)) c,
         <[class_cell c class := i64_to_le (i64_add v by_)]> m)
  | exec_index_set c m field key :
      exec_op xxh3_64 (c, m) (OpIndex field key true) (c, <[index_cell c field key := []]> m)
  | exec_index_clear c m field key :
      exec_op xxh3_64 (c, m) (OpIndex field key false) (c, delete (index_cell c field key) m)
  | exec_create c m id :
      c_document_id c = U32_MAX → 0 ≤ id < U32_MAX → m !! doc_ids_cell c id = None →
      exec_op xxh3_64 (c, m) (OpBitmap DocumentIds true)
        (set_result (push_document_id (c_result c) id) (set_document_id id c),
         <[doc_ids_cell c id := []]> m)
  | exec_bitmap_set c m class :
      (class = DocumentIds → c_document_id c ≠ U32_MAX) →
      exec_op xxh3_64 (c, m) (OpBitmap class true) (c, <[bitmap_cell c class := []]> m)
  | exec_bitmap_clear c m class :
      exec_op xxh3_64 (c, m) (OpBitmap class false) (c, delete (bitmap_cell c class) m)
  | exec_log c m v bytes :
      value_resolve v (c_result c) = Ok bytes →
      exec_op xxh3_64 (c, m) (OpLog v) (c, <[log_cell c := bytes]> m)
  | exec_assert c m class a :
      assert_holds xxh3_64 a (m !! class_cell c class) = true →
      exec_op xxh3_64 (c, m) (OpAssertValue class a) (c, m).

Inductive exec_ops (xxh3_64 : list Z → Z) :
    coords * store_map → list Operation → coords * store_map → Prop :=
  | exec_nil st : exec_ops xxh3_64 st [] st
  | exec_cons st op st' ops st'' :
      exec_op xxh3_64 st op st' → exec_ops xxh3_64 st' ops st'' →
      exec_ops xxh3_64 st (op :: ops) st''.
