(* ===== verification/CommitTheory.v ===== *)
(** * Correctness of the write path

    [commit] refines [exec_ops]: see the header of [Commit].  The invariant
    [store_ok] carries what the argument needs of the content of the store
    (counters are eight bytes, the keys of the document id bitmap have their
    shape and ids stay away from the end of the range); it is preserved. *)

From stdpp Require Import base gmap sorting strings numbers list.
From S2P Require Import Prelude Codec Keys KeyTheory KeyOrder Roaring Kv KvModel Batch Commit.
Open Scope Z_scope.
Open Scope bytes_scope.
Open Scope stalwart_scope.

(** ** Scanning a bitmap *)
Section scan.
Context {B : Type} `{RoaringBitmapLaws B}.

(** The scan reads the rows up to [end_] that have the length of [begin], when
    all of them come before any row of the range with another length. *)
Lemma scan_bitmap_spec begin end_ rows (bm : B) :
  StronglySorted row_lt rows → (4 ≤ length begin)%nat →
  (∀ r, r ∈ rows → begin ≤ᵇ r.1) →
  (∀ r r', r ∈ rows → r' ∈ rows → r.1 ≤ᵇ end_ → r'.1 ≤ᵇ end_ →
     length r.1 ≠ length begin → length r'.1 = length begin → r'.1 <ᵇ r.1) →
  ∃ bm', scan_bitmap begin end_ rows bm = Ok bm' ∧
    ∀ i, i ∈ rb_elems bm' ↔
      i ∈ rb_elems bm ∨
      ∃ k v, (k, v) ∈ rows ∧ length k = length begin ∧ k ≤ᵇ end_ ∧
        i = from_be_bytes (drop (length k - 4) k).
Proof.
  intros Hs Hlen. revert bm. induction Hs as [|[k v] rows Hs IH Hlt]; intros bm Hlo Hl.
  - exists bm. split; [done|]. intros i. set_solver.
  - cbn [scan_bitmap]. rewrite list.Forall_forall in Hlt.
    destruct (decide (length k = length begin ∧ k ≤ᵇ end_)) as [[Hkl Hk]|Hk].
    + rewrite bool_decide_true by (split_and!; [done|by apply (Hlo (k, v)); left|done]).
      rewrite deserialize_be_u32_end_drop by lia. cbn [mbind result_bind].
      edestruct (IH (rb_insert (from_be_bytes (drop (length k - 4) k)) bm)) as (bm' & -> & Hbm').
      { intros r Hr. apply Hlo. by right. }
      { intros r r' Hr Hr'. apply Hl; by right. }
      exists bm'. split; [done|]. intros i. rewrite Hbm', rb_elems_insert. set_unfold.
      naive_solver.
    + rewrite bool_decide_false by tauto. exists bm. split; [done|]. intros i.
      split; [by left|]. intros [?|(k' & v' & [Heq|Hin]%elem_of_cons & Hl' & Hk' & _)]; [done|..].
      * injection Heq as -> ->. tauto.
      * specialize (Hlt _ Hin). unfold row_lt in Hlt. cbn in Hlt.
        assert (k ≤ᵇ end_) as Hke by (apply (bytes_le_trans _ k'); [by apply bytes_lt_le|done]).
        exfalso. apply (bytes_lt_irrefl k), (bytes_lt_trans _ k'); [done|].
        apply (Hl (k, v) (k', v')); cbn; [by left|by right|done|done|tauto|done].
Qed.
End scan.

(** ** What the store contains *)

Definition counters_ok (m : store_map) : Prop :=
  ∀ s k v, has_merge_operator s = true → m !! (s, k) = Some v → length v = 8%nat.

(** Keys of the document id bitmap: account, collection, document. *)
Definition doc_key_ok (b : Z) (k : list Z) : Prop :=
  length k = 9%nat ∧ bytes_ok k ∧ from_be_bytes (drop 5 k) < b.

Definition doc_keys_ok (b : Z) (m : store_map) : Prop :=
  ∀ k v, m !! (SUBSPACE_BITMAP_ID, k) = Some v → doc_key_ok b k.

Definition store_ok (b : Z) (m : store_map) : Prop := counters_ok m ∧ doc_keys_ok b m.

(** What may be put into a cell. *)
Definition cell_ok (b : Z) (cell : Z * list Z) (v : list Z) : Prop :=
  (has_merge_operator cell.1 = true → length v = 8%nat) ∧
  (cell.1 = SUBSPACE_BITMAP_ID → doc_key_ok b cell.2).

Lemma store_ok_insert b m cell v :
  store_ok b m → cell_ok b cell v → store_ok b (<[cell := v]> m).
Proof.
  destruct cell as [s k]. intros [Hc Hd] [H1 H2]. cbn in H1, H2. split.
  - intros s' k' v' Hs'. rewrite lookup_insert. case_decide as He; [|by apply Hc].
    injection He as <- <-. intros [= <-]. auto.
  - intros k' v'. rewrite lookup_insert. case_decide as He; [|by apply Hd].
    injection He as -> ->. auto.
Qed.

Lemma store_ok_empty b : store_ok b ∅.
Proof. split; [intros s k v _ Hl|intros k v Hl]; by rewrite lookup_empty in Hl. Qed.

Lemma store_ok_delete b m cell : store_ok b m → store_ok b (delete cell m).
Proof.
  intros [Hc Hd]. split.
  - intros s k v Hs [_ Hl]%lookup_delete_Some. by eapply Hc.
  - intros k v [_ Hl]%lookup_delete_Some. by eapply Hd.
Qed.

Lemma store_ok_mono b b' m : b ≤ b' → store_ok b m → store_ok b' m.
Proof.
  intros Hb [Hc Hd]. split; [done|]. intros k v Hk. destruct (Hd k v Hk) as (? & ? & ?).
  repeat split; try done. lia.
Qed.

(** Which operations keep the store well formed. *)
Definition is_any {T} (class : ValueClass T) : bool :=
  match class with Any _ => true | _ => false end.

Definition op_ok (b collection : Z) (op : Operation) : Prop :=
  match op with
  | OpAccountId v => uint_ok 32 v
  | OpCollection v => uint_ok 8 v
  | OpDocumentId v => v = U32_MAX ∨ 0 ≤ v < b
  | OpValue class (Set_ v) =>
      is_any class = false ∧
      (has_merge_operator (subspace class collection) = true →
       ∀ ids bytes, value_resolve v ids = Ok bytes → length bytes = 8%nat)
  | OpValue class (AtomicAdd n) =>
      is_any class = false ∧ has_merge_operator (subspace class collection) = true ∧ i64_ok n
  | OpValue class (AddAndGet n) => is_any class = false ∧ i64_ok n
  | _ => True
  end.

Definition next_collection (collection : Z) (op : Operation) : Z :=
  match op with OpCollection v => v | _ => collection end.

Fixpoint ops_ok (b collection : Z) (ops : list Operation) : Prop :=
  match ops with
  | [] => True
  | op :: ops => op_ok b collection op ∧ ops_ok b (next_collection collection op) ops
  end.

Definition coords_ok (b : Z) (c : coords) : Prop :=
  uint_ok 32 (c_account_id c) ∧ uint_ok 8 (c_collection c) ∧
  (c_document_id c = U32_MAX ∨ 0 ≤ c_document_id c < b).

Lemma coords_ok_mono b b' c : b ≤ b' → coords_ok b c → coords_ok b' c.
Proof. unfold coords_ok. intros ? (? & ? & ?). split_and!; [done..|lia]. Qed.

(** ** The cells of the operations *)

Lemma subspace_not_bitmap_id {T} (class : ValueClass T) collection :
  is_any class = false → subspace class collection ≠ SUBSPACE_BITMAP_ID.
Proof.
  intros Ha Hs. unfold subspace in Hs.
  destruct class as [f|g|[l|l]|h|q|[]|[]|k|[]|r|any]; repeat case_decide; done.
Qed.

Lemma doc_ids_cell_bytes c :
  bitmap_cell c DocumentIds
  = (SUBSPACE_BITMAP_ID,
     (to_be_bytes 4 (c_account_id c) ++ [c_collection c]) ++ to_be_bytes 4 (c_document_id c)).
Proof. unfold bitmap_cell. rewrite bitmap_serialize_resolve, bitmap_serialize_bytes. done. Qed.

Lemma doc_key_ok_bytes b a coll d :
  uint_ok 8 coll → 0 ≤ d < b → b ≤ 2 ^ 32 →
  doc_key_ok b ((to_be_bytes 4 a ++ [coll]) ++ to_be_bytes 4 d).
Proof.
  intros Hc Hd Hb. split_and!.
  - by rewrite !length_app, !to_be_bytes_length.
  - repeat apply Forall_app_2; try apply to_be_bytes_ok. by apply Forall_singleton.
  - rewrite drop_app_length' by (by rewrite length_app, to_be_bytes_length).
    rewrite from_to_be_bytes by (change (256 ^ Z.of_nat 4) with (2 ^ 32); lia). lia.
Qed.

(** ** One operation *)
Section commit_op.
Context {DB Txn : Type} `{RocksDBLaws DB Txn} {B : Type} `{RoaringBitmapLaws B}.
Context (xxh3_64 : list Z → Z).

(** The ids found are the documents of the account and collection that the
    transaction sees. *)
Lemma found_ids_spec (t : Txn) db c b :
  doc_keys_ok b (txn_map t db) → uint_ok 8 (c_collection c) →
  ∃ bm : B, found_ids B t db c = Ok bm ∧
    (∀ i, i ∈ rb_elems bm → 0 ≤ i < b) ∧
    (∀ i, uint_ok 32 i → is_Some (txn_map t db !! doc_ids_cell c i) → i ∈ rb_elems bm).
Proof.
  intros Hk Hcoll. unfold found_ids. rewrite txn_iterator_spec. unfold bitmap_key_serialize. cbn
    [bk_class bk_account_id bk_collection bk_document_id]. rewrite !bitmap_serialize_bytes.
  cbn [flag_bytes decide bitmap_subspace bitmap_prefix]. change (flag_bytes 0 _) with (@nil Z).
  rewrite !app_nil_l. set (p := to_be_bytes 4 (c_account_id c) ++ [c_collection c]).
  assert (length p = 5%nat) as Hp by (unfold p; by rewrite length_app, to_be_bytes_length).
  assert (∀ k v, (k, v) ∈ iter_rows (txn_map t db) SUBSPACE_BITMAP_ID
      (FromForward (p ++ to_be_bytes 4 0)) ↔
      p ++ to_be_bytes 4 0 ≤ᵇ k ∧ txn_map t db !! (SUBSPACE_BITMAP_ID, k) = Some v) as Hrows.
  { intros k v. cbn [iter_rows]. by rewrite list_elem_of_filter, elem_of_cf_rows. }
  destruct (scan_bitmap_spec (p ++ to_be_bytes 4 0) (p ++ to_be_bytes 4 U32_MAX)
    (iter_rows (txn_map t db) SUBSPACE_BITMAP_ID (FromForward (p ++ to_be_bytes 4 0)))
    (rb_new : B)) as (bm & -> & Hbm).
  - apply StronglySorted_filter, cf_rows_sorted.
  - rewrite length_app, to_be_bytes_length. lia.
  - intros [k v] [Hlo _]%Hrows. done.
  - intros [k v] r' [_ Hin]%Hrows _ _ _ Hne. destruct Hne. destruct (Hk k v Hin) as [Hl _]. cbn [fst].
    by rewrite Hl, length_app, Hp, to_be_bytes_length.
  - exists bm. split; [done|]. split.
    + intros i. rewrite Hbm, rb_elems_new. intros [?|(k & v & [_ Hin]%Hrows & _ & _ & ->)]; [set_solver|].
      destruct (Hk k v Hin) as (Hl & Hbk & Hd). rewrite Hl.
      split; [|exact Hd]. by apply from_be_bytes_bound, Forall_drop.
    + intros i Hi [v Hv]. rewrite Hbm. right. unfold doc_ids_cell in Hv.
      rewrite doc_ids_cell_bytes in Hv. cbn [set_document_id c_account_id c_collection c_document_id] in Hv.
      fold p in Hv. exists (p ++ to_be_bytes 4 i), v.
      destruct (Hk _ _ Hv) as (Hl & Hbk & Hd).
      destruct (proj2 (bitmap_range p (p ++ to_be_bytes 4 i) Hbk ltac:(lia))) as [Hlo Hhi];
        [by eexists|].
      split_and!; [by apply Hrows|by rewrite !length_app, !to_be_bytes_length|done|].
      rewrite Hl. replace (9 - 4)%nat with (length p) by lia.
      rewrite drop_app_length. by rewrite from_to_be_bytes.
Qed.

Lemma counter_merge m cell n v :
  counter_value m cell = Some v → i64_ok n →
  numeric_value_merge (m !! cell) [i64_to_le n] = Some (i64_to_le (i64_add v n)).
Proof.
  unfold counter_value, numeric_value_merge. intros Hv Hn.
  assert (match m !! cell with Some bytes => i64_from_le bytes | None => Some 0 end = Some v)
    as -> by done.
  cbn [mbind option_bind merge_operands]. by rewrite i64_from_to_le.
Qed.

Lemma counters_ok_value m s k :
  counters_ok m → has_merge_operator s = true → is_Some (counter_value m (s, k)).
Proof.
  intros Hc Hs. unfold counter_value. destruct (m !! (s, k)) as [v|] eqn:Hv; [|done].
  unfold i64_from_le. rewrite (Hc s k v Hs Hv). done.
Qed.

Definition run_inv (b0 b : Z) (st : coords * Txn) : Prop :=
  coords_ok b st.1 ∧ ∀ db, store_ok b0 (db_map db) → store_ok b (txn_map st.2 db).

Definition gen_range_ok (gen_range : nat → nat) : Prop :=
  ∀ n, (0 < n)%nat → (gen_range n < n)%nat.

(** The id chosen for a new document. *)
Lemma create_id gen_range t db c b :
  gen_range_ok gen_range → 0 ≤ b ≤ 2 ^ 32 - 101 → doc_keys_ok b (txn_map t db) →
  uint_ok 8 (c_collection c) →
  ∃ bm : B, found_ids B t db c = Ok bm ∧
    0 ≤ random_available_id gen_range bm < b + 100 ∧
    txn_map t db !! doc_ids_cell c (random_available_id gen_range bm) = None.
Proof.
  intros Hg Hb Hk Hc. destruct (found_ids_spec t db c b Hk Hc) as (bm & Hf & Hin & Hall).
  exists bm. split; [done|].
  destruct (available_ids_fresh bm b (random_available_id gen_range bm) Hb Hin) as [Hn Hr];
    [by apply random_available_id_elem|].
  split; [done|]. apply eq_None_not_Some. intros Hs. apply Hn, Hall; [|done].
  unfold uint_ok. lia.
Qed.

Lemma cell_ok_class b c class v :
  is_any class = false →
  (has_merge_operator (subspace class (c_collection c)) = true → length v = 8%nat) →
  cell_ok b (class_cell c class) v.
Proof. intros Ha Hv. split; [done|]. intros Hs. by apply subspace_not_bitmap_id in Hs. Qed.

Lemma cell_ok_bitmap b c class :
  coords_ok b c → b ≤ 2 ^ 32 → (class = DocumentIds → c_document_id c ≠ U32_MAX) →
  cell_ok b (bitmap_cell c class) [].
Proof.
  intros (_ & Hcoll & Hd) Hb Hn. split; cbn [fst snd bitmap_cell].
  - by destruct class as [|f []|].
  - destruct class as [|f []|]; try done. intros _. destruct Hd as [?|Hd]; [by destruct Hn|].
    change (doc_key_ok b (bitmap_cell c DocumentIds).2). rewrite doc_ids_cell_bytes.
    by apply doc_key_ok_bytes.
Qed.

Lemma run_inv_coords b0 b b' c c' t :
  run_inv b0 b (c, t) → b ≤ b' → coords_ok b' c' → run_inv b0 b' (c', t).
Proof. intros [_ Ht] Hb Hc. split; [done|]. intros db Hdb. by eapply store_ok_mono, Ht. Qed.

Lemma run_inv_put b0 b b' c c' t cell v :
  run_inv b0 b (c, t) → b ≤ b' → coords_ok b' c' → cell_ok b' cell v →
  run_inv b0 b' (c', txn_put_cf t cell.1 cell.2 v).
Proof.
  intros [_ Ht] Hb Hc Hcell. split; [done|]. intros db Hdb. cbn [snd]. rewrite txn_put_map.
  destruct cell. apply store_ok_insert; [|done]. by eapply store_ok_mono, Ht.
Qed.

Lemma run_inv_delete b0 b b' c c' t cell :
  run_inv b0 b (c, t) → b ≤ b' → coords_ok b' c' →
  run_inv b0 b' (c', txn_delete_cf t cell.1 cell.2).
Proof.
  intros [_ Ht] Hb Hc. split; [done|]. intros db Hdb. cbn [snd]. rewrite txn_delete_map.
  apply store_ok_delete. by eapply store_ok_mono, Ht.
Qed.

Lemma run_inv_merge b0 b b' c t cell n :
  run_inv b0 b (c, t) → b ≤ b' → coords_ok b' c → cell_ok b' cell (i64_to_le 0) →
  has_merge_operator cell.1 = true → i64_ok n →
  run_inv b0 b' (c, txn_merge_cf t cell.1 cell.2 (i64_to_le n)).
Proof.
  intros [_ Ht] Hb Hc [_ Hcell] Hs Hn. split; [done|]. intros db Hdb. cbn [snd].
  pose proof (store_ok_mono b b' _ Hb (Ht db Hdb)) as Hok. cbn [snd] in Hok.
  destruct (counters_ok_value (txn_map t db) cell.1 cell.2 (proj1 Hok) Hs) as [v Hv].
  rewrite (txn_merge_map t _ _ _ db _ Hs (counter_merge _ _ n v Hv Hn)).
  apply store_ok_insert; [done|]. split; [by intros; apply to_le_bytes_length|exact Hcell].
Qed.

(** The first [let?] of a computation that succeeded. *)
Ltac case_let H x E :=
  match type of H with
  | (match ?e with inl _ => _ | inr _ => _ end) = _ =>
      destruct e as [x|?] eqn:E; [|discriminate H]
  end.

(** A read for update, all at once. *)
Lemma get_for_update_inv (t : Txn) db s k bytes t1 :
  txn_get_for_update_cf t db s k = (bytes, t1) →
  bytes = txn_map t db !! (s, k) ∧ (∀ db', txn_map t1 db' = txn_map t db') ∧
  txn_tracked t1 = {[(s, k)]} ∪ txn_tracked t ∧ txn_began t1 = txn_began t.
Proof.
  intros Hg. pose proof (get_for_update_val t db s k) as Hv.
  pose proof (get_for_update_map t db s k) as Hm.
  pose proof (get_for_update_tracked t db s k) as Ht.
  pose proof (get_for_update_began t db s k) as Hb.
  rewrite Hg in Hv, Hm, Ht, Hb. done.
Qed.

Lemma commit_op_tracked db gen_range c t op c' t' :
  commit_op B xxh3_64 db gen_range (c, t) op = inl (c', t') →
  txn_tracked t ⊆ txn_tracked t' ∧ txn_began t' = txn_began t.
Proof.
  intros Hop. destruct op as [v|v|v|v|class a|class [v|n|n|]|field key set|class set|v];
    cbn [commit_op class_cell index_cell bitmap_cell log_cell] in Hop.
  1-4: by simplify_eq.
  - destruct (txn_get_for_update_cf t db _ _) as [bytes t1] eqn:Hg.
    apply get_for_update_inv in Hg as (_ & _ & Htr & Hbg).
    destruct (assert_holds _ _ _); simplify_eq. set_solver.
  - case_let Hop bytes Hv. simplify_eq.
    rewrite txn_put_tracked, txn_put_began. set_solver.
  - simplify_eq. rewrite txn_merge_tracked, txn_merge_began. set_solver.
  - destruct (txn_get_for_update_cf t db _ _) as [bytes t1] eqn:Hg.
    apply get_for_update_inv in Hg as (_ & _ & Htr & Hbg).
    case_let Hop num Hnum. simplify_eq.
    rewrite txn_put_tracked, txn_put_began, Htr. set_solver.
  - simplify_eq. rewrite txn_delete_tracked, txn_delete_began. set_solver.
  - simplify_eq. destruct set; rewrite ?txn_put_tracked, ?txn_put_began, ?txn_delete_tracked,
      ?txn_delete_began; set_solver.
  - case_let Hop c1 Hc1. simplify_eq. destruct set;
      rewrite ?txn_put_tracked, ?txn_put_began, ?txn_delete_tracked, ?txn_delete_began; set_solver.
  - case_let Hop bytes Hv. simplify_eq.
    rewrite txn_put_tracked, txn_put_began. set_solver.
Qed.

(** The coordinates after the id assignment of a bitmap operation. *)
Lemma bitmap_coords db gen_range c t b0 b class set c1 :
  gen_range_ok gen_range → 0 ≤ b ≤ 2 ^ 32 - 201 → run_inv b0 b (c, t) →
  store_ok b0 (db_map db) →
  (if set && is_document_ids class && bool_decide (c_document_id c = U32_MAX) then
     let? found := lift (found_ids B t db c) in
     inl (set_result (push_document_id (c_result c) (random_available_id gen_range found))
            (set_document_id (random_available_id gen_range found) c))
   else inl c) = inl c1 →
  coords_ok (b + 101) c1 ∧ c_collection c1 = c_collection c ∧
  ((c1 = c ∧ (set = true → class = DocumentIds → c_document_id c ≠ U32_MAX)) ∨
   (∃ id, set = true ∧ class = DocumentIds ∧ c_document_id c = U32_MAX ∧ 0 ≤ id < U32_MAX ∧
      c1 = set_result (push_document_id (c_result c) id) (set_document_id id c) ∧
      txn_map t db !! doc_ids_cell c id = None)).
Proof.
  intros Hg Hb [Hc Ht] Hdb Heq. pose proof Hc as (Ha & Hcoll & Hd). cbn [fst snd] in *.
  destruct (set && is_document_ids class && bool_decide (c_document_id c = U32_MAX)) eqn:Hcase.
  - apply andb_true_iff in Hcase as [[-> Hclass]%andb_true_iff HMAX].
    apply bool_decide_eq_true in HMAX. destruct class as [|f []|]; try done.
    destruct (create_id gen_range t db c b Hg ltac:(lia) (proj2 (Ht db Hdb)) Hcoll)
      as (bm & Hf & Hid & Hnone).
    rewrite Hf in Heq. cbn [lift] in Heq. injection Heq as <-.
    split_and!; [split_and!; [done..|right; cbn; lia]|done|].
    right. exists (random_available_id gen_range bm). unfold U32_MAX in *.
    split_and!; [done|done|done|lia|lia|done|done].
  - injection Heq as <-. split_and!; [by apply (coords_ok_mono b); [lia|]|done|].
    left. split; [done|]. intros -> ->. cbn in Hcase. by apply bool_decide_eq_false in Hcase.
Qed.

Lemma commit_op_inv db gen_range c t op c' t' b0 b :
  gen_range_ok gen_range → 0 ≤ b0 ≤ b → b ≤ 2 ^ 32 - 201 →
  op_ok b0 (c_collection c) op → run_inv b0 b (c, t) → store_ok b0 (db_map db) →
  commit_op B xxh3_64 db gen_range (c, t) op = inl (c', t') →
  run_inv b0 (b + 101) (c', t') ∧ c_collection c' = next_collection (c_collection c) op.
Proof.
  intros Hg Hb0 Hb Hok Hinv Hdb Hop.
  assert (coords_ok (b + 101) c) as Hc by (apply (coords_ok_mono b); [lia|apply Hinv]).
  pose proof Hc as (Ha & Hcoll & Hd).
  destruct op as [v|v|v|v|class a|class [v|n|n|]|field key set|class set|v];
    cbn [op_ok] in Hok; cbn [commit_op class_cell index_cell log_cell] in Hop; destruct_and?.
  1-4: injection Hop as <- <-; split; [|done]; apply (run_inv_coords b0 b _ c); [done|lia|];
    split_and!; cbn; solve [done|lia].
  - destruct (txn_get_for_update_cf t db _ _) as [bytes t1] eqn:Hgu.
    apply get_for_update_inv in Hgu as (_ & Hm & _).
    destruct (assert_holds _ _ _); simplify_eq. split; [|done]. split; [done|].
    intros db' Hdb'. cbn [snd]. rewrite Hm. by apply (store_ok_mono b); [lia|apply Hinv].
  - case_let Hop bytes Hv. simplify_eq. split; [|done].
    destruct (value_resolve v (c_result c')) eqn:Hr; simplify_eq/=.
    apply (run_inv_put b0 b _ c' c' t (class_cell c' class)); [done|lia|done|].
    apply cell_ok_class; [done|]. intros Hs. eauto.
  - simplify_eq. split; [|done]. apply (run_inv_merge b0 b _ c' t (class_cell c' class));
      [done|lia|done| |done..]. by apply cell_ok_class.
  - destruct (txn_get_for_update_cf t db _ _) as [bytes t1] eqn:Hgu.
    apply get_for_update_inv in Hgu as (_ & Hm & _). case_let Hop num Hnum. simplify_eq.
    split; [|done]. apply (run_inv_put b0 b _ c _ t1 (class_cell c class)); [|lia|done|].
    + split; [apply Hinv|]. intros db' Hdb'. cbn [snd]. rewrite Hm. by apply Hinv.
    + apply cell_ok_class; [done|]. intros _. apply to_le_bytes_length.
  - simplify_eq. split; [|done].
    by apply (run_inv_delete b0 b _ c' c' t (class_cell c' class)); [|lia|].
  - simplify_eq. split; [|done]. destruct set.
    + by apply (run_inv_put b0 b _ c' c' t (index_cell c' field key)); [|lia| |].
    + by apply (run_inv_delete b0 b _ c' c' t (index_cell c' field key)); [|lia|].
  - case_let Hop c1 Hc1.
    destruct (bitmap_coords db gen_range c t b0 b class set c1 Hg ltac:(lia) Hinv Hdb Hc1)
      as (Hc1ok & Hcoll1 & Hcase).
    cbn [bitmap_cell] in Hop. simplify_eq. split; [|done]. destruct set.
    + apply (run_inv_put b0 b _ c c' t (bitmap_cell c' class)); [done|lia|done|].
      apply cell_ok_bitmap; [done|lia|]. intros ->.
      destruct Hcase as [[-> ?]|(id & _ & _ & _ & Hid & -> & _)]; [auto|]. cbn. lia.
    + by apply (run_inv_delete b0 b _ c c' t (bitmap_cell c' class)); [|lia|].
  - case_let Hop bytes Hv. simplify_eq. split; [|done].
    by apply (run_inv_put b0 b _ c' c' t (log_cell c')); [|lia| |].
Qed.

(** One operation does to the content at commit time what the specification
    says, if the keys it tracks do not change before the commit. *)
Lemma commit_op_exec db dbf gen_range c t op c' t' b0 b :
  gen_range_ok gen_range → 0 ≤ b0 ≤ b → b ≤ 2 ^ 32 - 201 →
  op_ok b0 (c_collection c) op → run_inv b0 b (c, t) →
  store_ok b0 (db_map db) → store_ok b0 (db_map dbf) →
  (∀ sk, sk ∈ txn_tracked t' → db_map db !! sk = db_map dbf !! sk) →
  commit_op B xxh3_64 db gen_range (c, t) op = inl (c', t') →
  exec_op xxh3_64 (c, txn_map t dbf) op (c', txn_map t' dbf).
Proof.
  intros Hg Hb0 Hb Hok Hinv Hdb Hdbf Htr Hop.
  assert (∀ sk, sk ∈ txn_tracked t' → txn_map t db !! sk = txn_map t dbf !! sk) as Hov.
  { intros sk Hsk. by apply txn_overlay, Htr. }
  destruct op as [v|v|v|v|class a|class [v|n|n|]|field key set|class set|v];
    cbn [op_ok] in Hok; cbn [commit_op class_cell index_cell log_cell] in Hop; destruct_and?.
  1-4: injection Hop as <- <-; constructor.
  - destruct (txn_get_for_update_cf t db _ _) as [bytes t1] eqn:Hgu.
    apply get_for_update_inv in Hgu as (-> & Hm & Ht1 & _).
    destruct (assert_holds _ _ _) eqn:Hah; simplify_eq. rewrite Hm. constructor.
    rewrite <-Hov by set_solver. done.
  - case_let Hop bytes Hv. simplify_eq. destruct (value_resolve v (c_result c')) eqn:Hr; simplify_eq/=.
    rewrite txn_put_map. by apply (exec_set xxh3_64 c' _ class).
  - simplify_eq. destruct (counters_ok_value (txn_map t dbf) (class_cell c' class).1
      (class_cell c' class).2) as [v Hv]; [by apply Hinv|done|].
    erewrite txn_merge_map; [|done|by apply counter_merge].
    by apply (exec_atomic_add xxh3_64 c' _ class).
  - destruct (txn_get_for_update_cf t db _ _) as [bytes t1] eqn:Hgu.
    apply get_for_update_inv in Hgu as (-> & Hm & Ht1 & _). case_let Hop num Hnum. simplify_eq.
    rewrite Hov in Hnum by (rewrite txn_put_tracked; set_solver).
    assert (∃ v, counter_value (txn_map t dbf) (class_cell c class) = Some v ∧ num = i64_add v n)
      as (v & Hv & ->).
    { unfold counter_value, class_cell. destruct (txn_map t dbf !! _) as [bytes|].
      - unfold deserialize_i64_le in Hnum. destruct (i64_from_le bytes); simplify_eq/=. eauto.
      - injection Hnum as <-. exists 0. split; [done|]. by rewrite i64_add_0_l. }
    rewrite txn_put_map, Hm. by apply (exec_add_and_get xxh3_64 c _ class).
  - simplify_eq. rewrite txn_delete_map. apply (exec_clear xxh3_64 c' _ class).
  - simplify_eq. destruct set; rewrite ?txn_put_map, ?txn_delete_map;
      [apply (exec_index_set xxh3_64 c' _ field key)|apply (exec_index_clear xxh3_64 c' _ field key)].
  - case_let Hop c1 Hc1.
    destruct (bitmap_coords db gen_range c t b0 b class set c1 Hg ltac:(lia) Hinv Hdb Hc1)
      as (_ & _ & [[-> Hne]|(id & -> & -> & HMAX & Hid & -> & Hnone)]);
      cbn [bitmap_cell] in Hop; simplify_eq.
    + destruct set; rewrite ?txn_put_map, ?txn_delete_map;
        [apply (exec_bitmap_set xxh3_64 c' _ class); auto|apply (exec_bitmap_clear xxh3_64 c' _ class)].
    + rewrite txn_put_map. apply (exec_create xxh3_64 c _ id); [done..|].
      rewrite <-Hov; [done|]. rewrite txn_put_tracked. apply elem_of_union_l.
      by apply elem_of_singleton.
  - case_let Hop bytes Hv. simplify_eq. destruct (value_resolve v (c_result c')) eqn:Hr; simplify_eq/=.
    rewrite txn_put_map. by apply (exec_log xxh3_64 c' _ v).
Qed.

(** ** The whole batch *)

Lemma commit_ops_tracked cur gen_range i ops c t c' t' :
  commit_ops B xxh3_64 cur gen_range i ops (c, t) = inl (c', t') →
  txn_tracked t ⊆ txn_tracked t' ∧ txn_began t' = txn_began t.
Proof.
  revert i c t. induction ops as [|op ops IH]; intros i c t; cbn [commit_ops].
  - by intros [= <- <-].
  - intros Hops. case_let Hops st Hst. destruct st as [c1 t1].
    apply commit_op_tracked in Hst as [Hs1 Hb1]. apply IH in Hops as [Hs2 Hb2].
    split; [set_solver|congruence].
Qed.

Lemma commit_ops_exec cur dbf gen_range b0 ops c t c' t' i b :
  (∀ i, gen_range_ok (gen_range i)) → (∀ i, store_ok b0 (db_map (cur i))) →
  store_ok b0 (db_map dbf) → 0 ≤ b0 ≤ b → b + 101 * Z.of_nat (length ops) ≤ 2 ^ 32 - 100 →
  ops_ok b0 (c_collection c) ops → run_inv b0 b (c, t) →
  (∀ j sk, (i ≤ j)%nat → (j < i + length ops)%nat →
     sk ∈ txn_tracked t' → db_map (cur j) !! sk = db_map dbf !! sk) →
  commit_ops B xxh3_64 cur gen_range i ops (c, t) = inl (c', t') →
  exec_ops xxh3_64 (c, txn_map t dbf) ops (c', txn_map t' dbf) ∧
  (∃ b', run_inv b0 b' (c', t')).
Proof.
  intros Hg Hdb Hdbf. revert i c t b. induction ops as [|op ops IH];
    intros i c t b Hb0 Hb Hok Hinv Htr; cbn [commit_ops].
  - intros [= <- <-]. split; [constructor|by exists b].
  - intros Hops. case_let Hops st Hst. destruct st as [c1 t1]. cbn [length] in *.
    destruct Hok as [Hop Hok].
    destruct (commit_op_inv _ _ _ _ _ _ _ _ _ (Hg i) Hb0 ltac:(lia) Hop Hinv (Hdb i) Hst)
      as [Hinv1 Hcoll].
    pose proof (commit_ops_tracked _ _ _ _ _ _ _ _ Hops) as [Hsub _].
    destruct (IH (S i) c1 t1 (b + 101)) as [Hex Hb']; [lia|lia|by rewrite Hcoll|done| |done|].
    { intros j sk Hij Hj Hsk. apply Htr; [lia|lia|done]. }
    split; [|done]. apply (exec_cons _ _ _ (c1, txn_map t1 dbf)); [|done].
    eapply (commit_op_exec (cur i) dbf (gen_range i) c t op c1 t1 b0 b); try done; [lia|].
    intros sk Hsk. apply Htr; [lia|lia|set_solver].
Qed.
End commit_op.

Section commit_theorems.
Context {DB Txn : Type} `{RocksDBLaws DB Txn} {B : Type} `{RoaringBitmapLaws B}.
Context (xxh3_64 : list Z → Z).

Lemma commit_exec (cur : nat → DB) gen_range batch ids db' b :
  (∀ i, gen_range_ok (gen_range i)) →
  (∀ i j, (i ≤ j)%nat → db_le (cur i) (cur j)) →
  (∀ i, store_ok b (db_map (cur i))) →
  0 ≤ b → b + 101 * Z.of_nat (length (ops batch)) ≤ 2 ^ 32 - 100 →
  ops_ok b U8_MAX (ops batch) →
  commit B xxh3_64 cur gen_range batch = inl (ids, db') →
  let m := db_map (cur (S (length (ops batch)))) in
  (∃ c, exec_ops xxh3_64 (coords_init, m) (ops batch) (c, db_map db') ∧ c_result c = ids) ∧
  ∃ b', store_ok b' (db_map db').
Proof.
  intros Hg Hmono Hdb Hb Hlen Hok. unfold commit.
  destruct (commit_ops _ _ _ _ _ _ _) as [[c t]|e] eqn:Hops; [|done].
  destruct (txn_commit t _) as [db|k] eqn:Hcommit; [|done]. intros [= <- <-].
  pose proof (commit_ops_tracked _ _ _ _ _ _ _ _ _ Hops) as [_ Hbegan].
  rewrite begin_began in Hbegan.
  destruct (commit_ops_exec xxh3_64 cur (cur (S (length (ops batch)))) gen_range b (ops batch)
    coords_init (transaction_opt (cur 0%nat)) c t 1 b) as [Hex [b' Hinv]]; try done.
  - split; [by repeat split; vm_compute; auto|]. intros db1 Hdb1. cbn [snd]. by rewrite begin_map.
  - intros j sk Hj1 Hj2 Hsk. apply (txn_commit_unmodified t _ db); [done| |apply Hmono; lia|done].
    rewrite Hbegan. apply Hmono. lia.
  - rewrite begin_map in Hex. rewrite (txn_commit_map _ _ _ Hcommit). split; [by exists c|].
    exists b'. by apply Hinv.
Qed.

(** C11: a batch that commits has exactly the effect of running it, alone and
    all at once, on the store as it is at the moment of the commit: asserted
    values hold there, counters are added to their values there, new document
    ids are unused there, and nothing else changes; this holds whatever other
    writers commit while the batch runs.  The store stays well formed. *)
Theorem commit_refines (cur : nat → DB) gen_range batch ids db' b :
  (∀ i, gen_range_ok (gen_range i)) →
  (∀ i j, (i ≤ j)%nat → db_le (cur i) (cur j)) →
  (∀ i, store_ok b (db_map (cur i))) →
  0 ≤ b → b + 101 * Z.of_nat (length (ops batch)) ≤ 2 ^ 32 - 100 →
  ops_ok b U8_MAX (ops batch) →
  commit B xxh3_64 cur gen_range batch = inl (ids, db') →
  let m := db_map (cur (S (length (ops batch)))) in
  (∃ c, exec_ops xxh3_64 (coords_init, m) (ops batch) (c, db_map db') ∧ c_result c = ids) ∧
  ∃ b', store_ok b' (db_map db').
Proof. apply commit_exec. Qed.

Definition retryable (k : ErrorKind) : bool :=
  match k with Busy | MergeInProgress | TryAgain => true | OtherKind => false end.

(** How an attempt ends the write loop. *)
Definition ends_with (a : nat) (in_time : nat → bool)
    (attempt : (AssignedIds * DB) + CommitError) (r : result (AssignedIds * DB)) : Prop :=
  match attempt with
  | inl x => r = Ok x
  | inr (Internal e) => r = Err e
  | inr (RocksDBError k) =>
      r = Err (InternalError "RocksDB error") ∧
      (retryable k = true → a = MAX_COMMIT_ATTEMPTS ∨ in_time a = false)
  end.

Lemma write_loop_outcome fuel n cur gen_range in_time batch :
  (n ≤ MAX_COMMIT_ATTEMPTS)%nat → (MAX_COMMIT_ATTEMPTS < fuel + n)%nat →
  ∃ r a, write_loop B xxh3_64 fuel n cur gen_range in_time batch = Some r ∧
    (n ≤ a ≤ MAX_COMMIT_ATTEMPTS)%nat ∧
    (∀ a', (n ≤ a' < a)%nat → in_time a' = true ∧
       ∃ k, retryable k = true ∧
         commit B xxh3_64 (cur a') (gen_range a') batch = inr (RocksDBError k)) ∧
    ends_with a in_time (commit B xxh3_64 (cur a) (gen_range a) batch) r.
Proof.
  revert n. induction fuel as [|fuel IH]; intros n Hn Hf; [lia|]. cbn [write_loop].
  assert (∀ r, ends_with n in_time (commit B xxh3_64 (cur n) (gen_range n) batch) r →
    ∃ r' a, Some r = Some r' ∧ (n ≤ a ≤ MAX_COMMIT_ATTEMPTS)%nat ∧
    (∀ a', (n ≤ a' < a)%nat → in_time a' = true ∧
       ∃ k, retryable k = true ∧
         commit B xxh3_64 (cur a') (gen_range a') batch = inr (RocksDBError k)) ∧
    ends_with a in_time (commit B xxh3_64 (cur a) (gen_range a) batch) r') as Hend.
  { intros r Hr. exists r, n. split_and!; [done|lia|lia|intros; lia|done]. }
  destruct (commit B xxh3_64 (cur n) (gen_range n) batch) as [x|[e|k]] eqn:Hc;
    [by apply Hend|by apply Hend|].
  destruct (retryable k) eqn:Hk; [|destruct k; try done; by apply Hend].
  assert (∀ A (x y : A), match k with Busy | MergeInProgress | TryAgain => x | OtherKind => y end = x)
    as -> by (by destruct k).
  case_bool_decide as Hlt; cbn [andb]; [|apply Hend; cbn; split; [done|]; unfold MAX_COMMIT_ATTEMPTS in *; left; lia].
  destruct (in_time n) eqn:Ht; [|apply Hend; cbn; auto].
  destruct (IH (S n)) as (r & a & -> & Ha & Hprev & Hlast); [lia|lia|].
  exists r, a. split_and!; [done|lia|lia| |done]. intros a' Ha'.
  destruct (decide (a' = n)) as [->|]; [eauto|]. apply Hprev. lia.
Qed.

(** C12: a write ends after at most eleven attempts, and ends as its last
    attempt does: with that attempt's ids and database, with its assertion or
    resolution error, or, for an error of the engine, only when the error is
    not one to retry, the attempts are used up or the time is over.  Every
    earlier attempt failed with an error worth retrying and left no trace. *)
Theorem write_outcome cur gen_range in_time batch :
  ∃ r a, write B xxh3_64 cur gen_range in_time batch = Some r ∧
    (a ≤ MAX_COMMIT_ATTEMPTS)%nat ∧
    (∀ a', (a' < a)%nat → in_time a' = true ∧
       ∃ k, retryable k = true ∧
         commit B xxh3_64 (cur a') (gen_range a') batch = inr (RocksDBError k)) ∧
    ends_with a in_time (commit B xxh3_64 (cur a) (gen_range a) batch) r.
Proof.
  destruct (write_loop_outcome (S MAX_COMMIT_ATTEMPTS) 0 cur gen_range in_time batch)
    as (r & a & Hr & Ha & Hprev & Hlast); [lia|unfold MAX_COMMIT_ATTEMPTS; lia|].
  exists r, a. split_and!; [done|lia| |done]. intros a' Ha'. apply Hprev. lia.
Qed.
End commit_theorems.

(** A batch that creates a document, adds to a quota and takes a number from a
    counter while another writer stores a setting. *)
Definition example_batch : Batch :=
  build (add_and_get (Lookup (LookupCounter (str_bytes "seq"))) 5
    (assert_value (Property 3) AssertNone
      (add (Directory (UsedQuota 7)) 100
        (create_document (with_collection 0 (with_account_id 7 builder_new)))))).

Definition example_cur (i : nat) : LogDb.DB :=
  if decide (i < 4)%nat then [] else [((SUBSPACE_SETTINGS, [1]), Some [2])].

Lemma commit_refines_witness :
  ∃ ids db',
    commit (gset Z) (λ _, 0) example_cur (λ _ n, Nat.pred n) example_batch = inl (ids, db') ∧
    ∃ c, exec_ops (λ _, 0) (coords_init, db_map (example_cur 8)) (ops example_batch)
           (c, db_map db') ∧ c_result c = ids.
Proof.
  assert (∃ ids db', commit (gset Z) (λ _, 0) example_cur (λ _ n, Nat.pred n) example_batch
    = inl (ids, db')) as (ids & db' & E) by (eexists _, _; vm_compute; reflexivity).
  exists ids, db'. split; [exact E|].
  refine (proj1 (commit_refines (B:=gset Z) (λ _, 0) example_cur (λ _ n, Nat.pred n) example_batch
    ids db' 0 _ _ _ _ _ _ E)).
  - intros i n Hn. lia.
  - intros i j Hij. unfold example_cur. repeat case_decide; try lia; [done|apply suffix_nil|done].
  - intros i. unfold example_cur. case_decide; [exact (store_ok_empty 0)|].
    apply (store_ok_insert 0 ∅ (SUBSPACE_SETTINGS, [1]) [2] (store_ok_empty 0)). by split.
  - done.
  - by vm_compute.
  - cbn. unfold uint_ok, i64_ok. split_and!; first [lia|reflexivity|by left].
Defined.
