(* ===== verification/Read.v ===== *)
(** * The read path of the RocksDB backend

    [get_value], [get_bitmap], [iterate] and [get_counter] of
    backend/rocksdb/read.rs and [delete_range], [purge_store] of
    backend/rocksdb/write.rs, with what each reads from or does to the content
    of the store.  Errors of the engine itself (I/O) are outside the model. *)

From stdpp Require Import base gmap sorting strings numbers list.
From S2P Require Import Prelude Codec Keys KeyTheory KeyOrder Roaring Kv KvModel Batch Commit CommitTheory.
Open Scope Z_scope.
Open Scope bytes_scope.

(** ** Operations *)

(** A key with its subspace: [impl Key]. *)
Class Key (K : Type) := {
  key_serialize : K → Z → list Z;
  key_subspace : K → Z;
}.
#[export] Instance value_key : Key ValueKey :=
  {| key_serialize := value_key_serialize; key_subspace := value_key_subspace |}.
#[export] Instance bitmap_key : Key BitmapKey :=
  {| key_serialize := bitmap_key_serialize; key_subspace := bitmap_key_subspace |}.
#[export] Instance index_key : Key IndexKey :=
  {| key_serialize := index_key_serialize; key_subspace _ := SUBSPACE_INDEXES |}.
#[export] Instance index_key_prefix : Key IndexKeyPrefix :=
  {| key_serialize := index_prefix_serialize; key_subspace _ := SUBSPACE_INDEXES |}.
#[export] Instance log_key : Key LogKey :=
  {| key_serialize := log_key_serialize; key_subspace _ := SUBSPACE_LOGS |}.
#[export] Instance any_key_key : Key AnyKey :=
  {| key_serialize := any_key_serialize; key_subspace := ak_subspace |}.

Record IterateParams (K : Type) := {
  begin : K;
  end_ : K;
  first : bool;
  ascending : bool;
  values : bool;
}.
Arguments begin {_} _.
Arguments end_ {_} _.
Arguments first {_} _.
Arguments ascending {_} _.
Arguments values {_} _.

Definition params_new {K} (begin end_ : K) : IterateParams K :=
  {| begin := begin; end_ := end_; first := false; ascending := true; values := true |}.
Definition set_ascending {K} (b : bool) (p : IterateParams K) : IterateParams K :=
  {| begin := begin p; end_ := end_ p; first := first p; ascending := b; values := values p |}.
Definition descending {K} (p : IterateParams K) : IterateParams K := set_ascending false p.
Definition only_first {K} (p : IterateParams K) : IterateParams K :=
  {| begin := begin p; end_ := end_ p; first := true; ascending := ascending p;
     values := values p |}.
Definition no_values {K} (p : IterateParams K) : IterateParams K :=
  {| begin := begin p; end_ := end_ p; first := first p; ascending := ascending p;
     values := false |}.

(** The loop of [iterate]: a callback that updates the captured state [A] and
    says whether to go on. *)
Fixpoint iterate_loop {A} (lo hi : list Z) (only_first : bool)
    (cb : A → list Z → list Z → result (A * bool)) (rows : list row) (acc : A) : result A :=
  match rows with
  | [] => Ok acc
  | (key, value) :: rows =>
      if bool_decide (key <ᵇ lo) || bool_decide (hi <ᵇ key) then Ok acc else
      '(acc, continue) ← cb acc key value;
      if negb continue || only_first then Ok acc
      else iterate_loop lo hi only_first cb rows acc
  end.

Section read.
Context {DB Txn : Type} `{RocksDB DB Txn}.

(** [get_value]: [deserialize] is the instance's [U::deserialize]. *)
Definition get_value {U K} `{Key K} (deserialize : list Z → result U) (db : DB) (key : K)
  : result (option U) :=
  match get_pinned_cf db (key_subspace key) (key_serialize key 0) with
  | Some value => Some <$> deserialize value
  | None => Ok None
  end.

Definition get_bitmap {B} `{RoaringBitmap B} (db : DB) (key : BitmapKey) : result (option B) :=
  let begin := bitmap_key_serialize key 0 in
  let end_ := bitmap_key_serialize
    {| bk_account_id := bk_account_id key; bk_collection := bk_collection key;
       bk_class := bk_class key; bk_document_id := U32_MAX |} 0 in
  bm ← scan_bitmap begin end_ (iterator_cf db (bitmap_key_subspace key) (FromForward begin)) rb_new;
  Ok (if rb_is_empty bm then None else Some bm).

Definition iterate {A K} `{Key K} (db : DB) (params : IterateParams K)
    (cb : A → list Z → list Z → result (A * bool)) (acc : A) : result A :=
  let lo := key_serialize (begin params) 0 in
  let hi := key_serialize (end_ params) 0 in
  let it_mode := if ascending params then FromForward lo else FromReverse hi in
  iterate_loop lo hi (first params) cb
    (iterator_cf db (key_subspace (begin params)) it_mode) acc.

Definition get_counter (db : DB) (key : ValueKey) : result Z :=
  match get_pinned_cf db (key_subspace key) (key_serialize key 0) with
  | Some bytes => ok_or (InternalError "Invalid counter value.") (i64_from_le bytes)
  | None => Ok 0
  end.

(** [delete_range]: the keys of [from..to], then one delete after the other. *)
Definition delete_range_rows (from to : list Z) (rows : list row) : list (list Z) :=
  fst <$> take_while (λ r, negb (bool_decide (r.1 <ᵇ from) || bool_decide (to ≤ᵇ r.1))) rows.

Definition delete_range {K} `{Key K} (db : DB) (from to : K) : DB :=
  let cf := key_subspace from in
  let from := key_serialize from 0 in
  let to := key_serialize to 0 in
  fold_left (λ db k, delete_cf db cf k)
    (delete_range_rows from to (iterator_cf db cf (FromForward from))) db.

(** [purge_store] of the backend: the keys of the zero counters are collected
    first; each is then deleted in a transaction that reads it again.
    [interfere i db] is the database after what other writers did to [db]
    before the [i]-th transaction ran, and before it commits. *)
Fixpoint zero_keys (rows : list row) : result (list (list Z)) :=
  match rows with
  | [] => Ok []
  | (key, value) :: rows =>
      match i64_from_be value with
      | None => Err (InternalError "Failed to deserialize i64")
      | Some v =>
          keys ← zero_keys rows;
          Ok (if decide (v = 0) then key :: keys else keys)
      end
  end.

Definition purge_key (db db' : DB) (cf : Z) (key : list Z) : DB + ErrorKind :=
  let '(value, t) := txn_get_for_update_cf (transaction_opt db) db cf key in
  let is_zero := match value with
                 | Some value => bool_decide (i64_from_be value = Some 0)
                 | None => false
                 end in
  if is_zero then txn_commit (txn_delete_cf t cf key) db' else inl db'.

Fixpoint purge_keys (interfere : nat → DB → DB) (i : nat) (cf : Z) (keys : list (list Z)) (db : DB)
    : DB + ErrorKind :=
  match keys with
  | [] => inl db
  | key :: keys =>
      let db := interfere i db in
      match purge_key db (interfere (S i) db) cf key with
      | inl db => purge_keys interfere (S (S i)) cf keys db
      | inr e => inr e
      end
  end.

Definition purge_counters (interfere : nat → DB → DB) (i : nat) (cf : Z) (db : DB) : result DB :=
  keys ← zero_keys (iterator_cf db cf Start);
  match purge_keys interfere i cf keys db with
  | inl db => Ok db
  | inr _ => Err (InternalError "RocksDB error")
  end.

Definition backend_purge_store (interfere : nat → nat → DB → DB) (db : DB) : result DB :=
  db ← purge_counters (interfere 0%nat) 0 SUBSPACE_QUOTA db;
  purge_counters (interfere 1%nat) 0 SUBSPACE_COUNTER db.
End read.

(** ** Iteration *)

(** A callback run over rows until it stops. *)
Fixpoint visit {A} (only_first : bool) (cb : A → list Z → list Z → result (A * bool))
    (rows : list row) (acc : A) : result A :=
  match rows with
  | [] => Ok acc
  | (key, value) :: rows =>
      '(acc, continue) ← cb acc key value;
      if negb continue || only_first then Ok acc else visit only_first cb rows acc
  end.

Definition in_range (lo hi : list Z) (r : row) : bool :=
  bool_decide (lo ≤ᵇ r.1 ∧ r.1 ≤ᵇ hi).

(** The rows of [lo..=hi], in the direction of the iteration. *)
Definition range_rows (m : store_map) (s : Z) (lo hi : list Z) (ascending : bool) : list row :=
  let rows := filter (λ r, in_range lo hi r = true) (cf_rows m s) in
  if ascending then rows else reverse rows.

Lemma iterate_loop_visit {A} lo hi f (cb : A → list Z → list Z → result (A * bool)) rows acc :
  iterate_loop lo hi f cb rows acc = visit f cb (take_while (in_range lo hi) rows) acc.
Proof.
  revert acc. induction rows as [|[k v] rows IH]; intros acc; [done|].
  cbn [iterate_loop take_while]. unfold in_range at 1. cbn [fst].
  destruct (decide (lo ≤ᵇ k ∧ k ≤ᵇ hi)) as [[H1 H2]|Hn].
  - rewrite (bool_decide_true (_ ∧ _)) by done.
    rewrite (bool_decide_false (k <ᵇ lo)) by (by rewrite bytes_nlt_ge).
    rewrite (bool_decide_false (hi <ᵇ k)) by (by rewrite bytes_nlt_ge). cbn [orb visit].
    destruct (cb acc k v) as [[acc' cont]|e]; [|done]. cbn [mbind result_bind].
    destruct (negb cont || f); [done|apply IH].
  - rewrite (bool_decide_false (_ ∧ _)) by done.
    assert (bool_decide (k <ᵇ lo) || bool_decide (hi <ᵇ k) = true) as ->; [|done].
    apply orb_true_iff. rewrite !bool_decide_eq_true.
    destruct (decide (k <ᵇ lo)); [by left|right]. apply bytes_nle_gt. intros H2. apply Hn.
    split; [by apply bytes_nlt_ge|done].
Qed.

Lemma reverse_filter {A} (P : A → Prop) `{∀ x, Decision (P x)} l :
  reverse (filter P l) = filter P (reverse l).
Proof.
  induction l as [|x l IH]; [done|]. rewrite reverse_cons, filter_app, filter_cons, filter_cons.
  case_decide; rewrite ?reverse_cons, IH; [done|]. by rewrite filter_nil, app_nil_r.
Qed.

Lemma StronglySorted_reverse {A} (R : A → A → Prop) l :
  StronglySorted R l → StronglySorted (flip R) (reverse l).
Proof.
  induction 1 as [|x l Hs IH Hf]; [constructor|]. rewrite reverse_cons.
  apply StronglySorted_app. split_and!; [|done|by repeat constructor].
  intros y z Hy Hz. rewrite elem_of_reverse in Hy. apply list_elem_of_singleton in Hz as ->.
  rewrite list.Forall_forall in Hf. by apply Hf.
Qed.

Lemma range_rows_fwd m s lo hi :
  take_while (in_range lo hi) (iter_rows m s (FromForward lo)) = range_rows m s lo hi true.
Proof.
  cbn [iter_rows range_rows]. rewrite (take_while_filter row_lt).
  - rewrite list_filter_filter. apply list_filter_iff. intros r. unfold in_range.
    rewrite bool_decide_eq_true. tauto.
  - apply StronglySorted_filter, cf_rows_sorted.
  - intros x y Hxy Hx Hy. unfold in_range. rewrite !bool_decide_eq_false.
    apply list_elem_of_filter in Hx as [Hx _]. intros Hnx [_ Hyhi]. apply Hnx. split; [done|].
    apply (bytes_le_trans _ y.1); [by apply bytes_lt_le|done].
Qed.

Lemma range_rows_rev m s lo hi :
  take_while (in_range lo hi) (iter_rows m s (FromReverse hi)) = range_rows m s lo hi false.
Proof.
  cbn [iter_rows range_rows]. rewrite (take_while_filter (flip row_lt)).
  - rewrite <-reverse_filter, list_filter_filter. f_equal. apply list_filter_iff.
    intros r. unfold in_range. rewrite bool_decide_eq_true. tauto.
  - apply StronglySorted_reverse, StronglySorted_filter, cf_rows_sorted.
  - intros x y Hxy Hx Hy. unfold in_range. rewrite !bool_decide_eq_false.
    apply elem_of_reverse, list_elem_of_filter in Hx as [Hx _]. intros Hnx [Hylo _].
    apply Hnx. split; [|done]. apply (bytes_le_trans _ y.1); [done|by apply bytes_lt_le].
Qed.

Lemma elem_of_range_rows m s lo hi asc k v :
  (k, v) ∈ range_rows m s lo hi asc ↔ lo ≤ᵇ k ∧ k ≤ᵇ hi ∧ m !! (s, k) = Some v.
Proof.
  unfold range_rows. assert ((k, v) ∈ filter (λ r, in_range lo hi r = true) (cf_rows m s) ↔
    lo ≤ᵇ k ∧ k ≤ᵇ hi ∧ m !! (s, k) = Some v) as Hf.
  { rewrite list_elem_of_filter, elem_of_cf_rows. unfold in_range. rewrite bool_decide_eq_true.
    cbn. tauto. }
  destruct asc; [done|]. by rewrite elem_of_reverse.
Qed.

Section iterate.
Context {DB Txn : Type} `{RocksDBLaws DB Txn}.

Lemma iterate_visit {A K} `{Key K} (db : DB) (p : IterateParams K)
    (cb : A → list Z → list Z → result (A * bool)) acc :
  iterate db p cb acc
  = visit (first p) cb
      (range_rows (db_map db) (key_subspace (begin p)) (key_serialize (begin p) 0)
         (key_serialize (end_ p) 0) (ascending p)) acc.
Proof.
  unfold iterate. rewrite iterator_spec, iterate_loop_visit.
  destruct (ascending p); [by rewrite range_rows_fwd|by rewrite range_rows_rev].
Qed.
End iterate.

(** ** Reading a bitmap *)

(** The classes whose keys end in the id of their documents and start with
    their own prefix: document ids and tags.  Texts of tags are keywords,
    without control characters. *)
Definition bitmap_class_ok (c : BitmapClass Z) : Prop :=
  match c with
  | DocumentIds => True
  | Tag field (TagId id) => 0 ≤ field < 128 ∧ uint_ok 32 id
  | Tag field (TagText text) => 0 ≤ field < 128 ∧ Forall (λ b, 32 ≤ b < 256) text
  | Text _ _ => False
  end.

(** A key of a well-formed bitmap: document ids below 2^29 start with a byte
    below the characters of a keyword. *)
Definition bitmap_entry (s : Z) (k : list Z) : Prop :=
  ∃ c a col d, bitmap_subspace c = s ∧ bitmap_class_ok c ∧ uint_ok 32 a ∧ uint_ok 8 col ∧
    0 ≤ d < 2 ^ 29 ∧ k = bitmap_prefix c a col ++ to_be_bytes 4 d.

Definition bitmaps_ok (m : store_map) : Prop :=
  ∀ s k v, s = SUBSPACE_BITMAP_ID ∨ s = SUBSPACE_BITMAP_TAG → m !! (s, k) = Some v →
    bitmap_entry s k.

Lemma be32_head d : 0 ≤ d < 2 ^ 29 → ∃ x r, to_be_bytes 4 d = x :: r ∧ 0 ≤ x < 32.
Proof.
  intros Hd. cbn [to_be_bytes]. eexists _, _. split; [done|]. unfold wrap. cbn [Z.of_nat].
  rewrite Z.shiftr_div_pow2 by lia. change (Z.mul 8 (Z.of_nat 3)) with 24.
  assert (0 ≤ d / 2 ^ 24 < 32) by (split; [apply Z.div_pos|apply Z.div_lt_upper_bound]; lia).
  rewrite Z.mod_small; lia.
Qed.

(** Field markers: a keyword tag has the high bit set. *)
Lemma field_marker f g : 0 ≤ f < 128 → 0 ≤ g < 128 → f ≠ Z.lor g BM_MARKER.
Proof.
  intros Hf Hg Heq. apply (f_equal (λ z, Z.testbit z 7)) in Heq.
  rewrite Z.lor_spec, (testbit_above f 7) in Heq by lia. unfold BM_MARKER in Heq.
  rewrite orb_comm in Heq. done.
Qed.

(** Two keyword tags of one field, one in the range of the other. *)
Lemma text_tag_cases t t' d r :
  Forall (λ b, 32 ≤ b < 256) t → Forall (λ b, 32 ≤ b < 256) t' → 0 ≤ d < 2 ^ 29 →
  t' ++ to_be_bytes 4 d = t ++ r →
  r = to_be_bytes 4 d ∨ ∃ w q, r = w :: q ∧ 32 ≤ w ∧ (4 ≤ length q)%nat.
Proof.
  intros Ht Ht' Hd Heq. apply app_eq_app in Heq as (u & [[-> ->]|[-> Hu]]).
  - destruct u as [|w u]; [by left|]. right. exists w, (u ++ to_be_bytes 4 d).
    apply Forall_app in Ht' as [_ Hw]. apply Forall_cons_1 in Hw as [Hw _].
    split; [done|]. rewrite length_app, to_be_bytes_length. lia.
  - destruct u as [|w u]; [by left|]. exfalso. destruct (be32_head d Hd) as (x & r' & Hx & Hr).
    rewrite Hx in Hu. injection Hu as -> _.
    apply Forall_app in Ht as [_ Hw]. apply Forall_cons_1 in Hw as [Hw _]. lia.
Qed.

(** The keys in the range of a bitmap: its own, or longer keywords after all
    of them. *)
Lemma bitmap_range_cases c a col k :
  bitmap_class_ok c → uint_ok 32 a → uint_ok 8 col → bitmap_entry (bitmap_subspace c) k →
  bitmap_prefix c a col ++ to_be_bytes 4 0 ≤ᵇ k →
  k ≤ᵇ bitmap_prefix c a col ++ to_be_bytes 4 U32_MAX →
  (∃ d, 0 ≤ d < 2 ^ 29 ∧ k = bitmap_prefix c a col ++ to_be_bytes 4 d) ∨
  (∃ w q, k = bitmap_prefix c a col ++ w :: q ∧ 32 ≤ w ∧ (4 ≤ length q)%nat).
Proof.
  intros Hc Ha Hcol (c' & a' & col' & d & Hs & Hc' & Ha' & Hcol' & Hd & ->) Hlo Hhi.
  pose proof (bytes_range_prefix _ _ _ _ Hlo Hhi) as Hp. revert Hp.
  generalize (drop (length (bitmap_prefix c a col))
    (bitmap_prefix c' a' col' ++ to_be_bytes 4 d)) as r. intros r Hp. rewrite Hp.
  assert (r = to_be_bytes 4 d ∨ ∃ w q, r = w :: q ∧ 32 ≤ w ∧ (4 ≤ length q)%nat) as Hr.
  { clear Hlo Hhi. destruct c as [|f [id|t]|], c' as [|f' [id'|t']|]; try done;
      cbn [bitmap_prefix bitmap_class_ok] in *; rewrite <-?app_assoc in Hp; destruct_and?;
      apply be32_split in Hp as [_ Hp]; try done; cbn [app] in Hp.
    - apply cons_split in Hp as [_ Hp]. by left.
    - apply cons_split in Hp as [_ [_ Hp]%cons_split].
      apply Leb128.leb_prefix_free in Hp as [_ <-]; [by left|..]; unfold uint_ok in *; lia.
    - apply cons_split in Hp as [_ [Hf _]%cons_split]. symmetry in Hf. by apply field_marker in Hf.
    - apply cons_split in Hp as [_ [Hf _]%cons_split]. by apply field_marker in Hf.
    - apply cons_split in Hp as [_ [_ Hp]%cons_split]. by apply (text_tag_cases t t'). }
  destruct Hr as [-> |(w & q & -> & Hw & Hq)]; [left; by exists d|right; by exists w, q].
Qed.

Section get_bitmap.
Context {DB Txn : Type} `{RocksDBLaws DB Txn} {B : Type} `{RoaringBitmapLaws B}.

Lemma bitmap_rows m c a col :
  bitmaps_ok m → bitmap_class_ok c → uint_ok 32 a → uint_ok 8 col →
  let p := bitmap_prefix c a col in
  let rows := iter_rows m (bitmap_subspace c) (FromForward (p ++ to_be_bytes 4 0)) in
  ∀ k v, (k, v) ∈ rows → k ≤ᵇ p ++ to_be_bytes 4 U32_MAX →
    m !! (bitmap_subspace c, k) = Some v ∧
    ((∃ d, 0 ≤ d < 2 ^ 29 ∧ k = p ++ to_be_bytes 4 d) ∨
     (∃ w q, k = p ++ w :: q ∧ 32 ≤ w ∧ (4 ≤ length q)%nat)).
Proof.
  intros Hm Hc Ha Hcol p rows k v Hin Hhi. unfold rows in Hin. cbn [iter_rows] in Hin.
  apply list_elem_of_filter in Hin as [Hlo Hin%elem_of_cf_rows]. split; [done|].
  apply bitmap_range_cases; try done. apply (Hm _ k v); [|done].
  destruct c as [|f [id|t]|]; [by left|by right..|done].
Qed.

Lemma drop_be32 p d :
  uint_ok 32 d → from_be_bytes (drop (length (p ++ to_be_bytes 4 d) - 4) (p ++ to_be_bytes 4 d)) = d.
Proof.
  intros Hd. rewrite length_app, to_be_bytes_length, Nat.add_sub, drop_app_length.
  by apply from_to_be_bytes.
Qed.

(** C23: for the bitmaps of document ids and of tags, where no keyword of a tag
    has a control character and all stored document ids are below 2^29,
    reading a bitmap returns exactly the documents stored under it, and [None]
    when there are none: neither the tags with ids of another length nor the
    keywords that extend a keyword stop the scan early.  Bitmaps of text
    tokens, whose keys contain hashes, are not covered. *)
Theorem get_bitmap_exact db c a col :
  bitmaps_ok (db_map db) → bitmap_class_ok c → uint_ok 32 a → uint_ok 8 col →
  ∃ r : option B,
    get_bitmap db {| bk_account_id := a; bk_collection := col; bk_class := c; bk_document_id := 0 |}
      = Ok r ∧
    (∀ d, d ∈ rb_opt_elems r ↔
       0 ≤ d < 2 ^ 29 ∧
       is_Some (db_map db !! (bitmap_subspace c, bitmap_serialize c a col d 0 None))) ∧
    (r = None ↔ rb_opt_elems r = ∅).
Proof.
  intros Hm Hc Ha Hcol. unfold get_bitmap, bitmap_key_serialize, bitmap_key_subspace.
  cbn [bk_class bk_account_id bk_collection bk_document_id].
  rewrite !bitmap_serialize_bytes, iterator_spec. change (flag_bytes 0 ?s) with (@nil Z).
  rewrite !app_nil_l. set (p := bitmap_prefix c a col).
  set (rows := iter_rows _ _ _). pose proof (bitmap_rows (db_map db) c a col Hm Hc Ha Hcol) as Hrows.
  fold p rows in Hrows.
  assert (length (p ++ to_be_bytes 4 0) = length p + 4)%nat as Hlen
    by (by rewrite length_app, to_be_bytes_length).
  destruct (scan_bitmap_spec (p ++ to_be_bytes 4 0) (p ++ to_be_bytes 4 U32_MAX) rows (rb_new : B))
    as (bm & -> & Hbm).
  - apply StronglySorted_filter, cf_rows_sorted.
  - lia.
  - intros [k v] [Hlo _]%list_elem_of_filter. done.
  - intros [k v] [k' v'] Hk Hk' Hhi Hhi'. cbn [fst] in *. rewrite Hlen. intros Hl Hl'.
    destruct (Hrows _ _ Hk Hhi) as [_ [(d & _ & ->)|(w & q & -> & Hw & Hq)]];
      [by rewrite length_app, to_be_bytes_length in Hl|].
    destruct (Hrows _ _ Hk' Hhi') as [_ [(d & Hd & ->)|(w' & q' & -> & Hw' & Hq')]];
      [|rewrite length_app in Hl'; cbn in Hl'; lia].
    apply bytes_lt_app. destruct (be32_head d Hd) as (x & r & -> & Hx).
    unfold bytes_lt. cbn [bytes_cmp]. by rewrite (proj2 (Z.compare_lt_iff x w)) by lia.
  - exists (if rb_is_empty bm then None else Some bm). split; [done|].
    assert (rb_opt_elems (if rb_is_empty bm then None else Some bm) = rb_elems bm) as ->.
    { rewrite rb_is_empty_spec. case_bool_decide as He; cbn; [by rewrite He|done]. }
    split; [|rewrite rb_is_empty_spec; by case_bool_decide].
    intros d. rewrite Hbm, rb_elems_new, bitmap_serialize_bytes, app_nil_l. fold p. split.
    + intros [?|(k & v & Hk & Hl & Hhi & ->)]; [set_solver|].
      destruct (Hrows _ _ Hk Hhi) as [Hkv [(d & Hd & ->)|(w & q & -> & Hw & Hq)]].
      * rewrite drop_be32 by (unfold uint_ok; lia). by rewrite Hkv.
      * rewrite Hlen, length_app in Hl. cbn in Hl. lia.
    + intros [Hd [v Hv]]. right. assert (uint_ok 32 d) as Hu by (unfold uint_ok; lia).
      exists (p ++ to_be_bytes 4 d), v. rewrite drop_be32 by done.
      rewrite !length_app, !to_be_bytes_length, bytes_le_app.
      split_and!; [|done|apply be32_max_ge; [apply to_be_bytes_length|apply to_be_bytes_ok]|done].
      apply list_elem_of_filter. rewrite elem_of_cf_rows. split; [|done]. cbn [fst].
      apply bytes_le_app, be32_zero_le; [apply to_be_bytes_length|apply to_be_bytes_ok].
Qed.
End get_bitmap.

Lemma bitmaps_ok_empty : bitmaps_ok ∅.
Proof. intros s k v _ Hl. by rewrite lookup_empty in Hl. Qed.

Lemma bitmaps_ok_insert m s k v : bitmaps_ok m → bitmap_entry s k → bitmaps_ok (<[(s, k) := v]> m).
Proof.
  intros Hm He s' k' v' Hs'. rewrite lookup_insert. case_decide as Heq; [|by apply Hm].
  injection Heq as <- <-. intros _. done.
Qed.

(** Keywords [$a] and [$ab] and a mailbox tag, as RocksDB entries. *)
Definition tag_cell (tag : TagValue Z) (d : Z) : Z * list Z :=
  (SUBSPACE_BITMAP_TAG, bitmap_serialize (Tag 5 tag) 1 0 d 0 None).
Definition example_tags : LogDb.DB :=
  [(tag_cell (TagText (str_bytes "$a")) 7, Some []);
   (tag_cell (TagText (str_bytes "$ab")) 3, Some []);
   (tag_cell (TagText (str_bytes "$a")) 2, Some []);
   (tag_cell (TagId 300) 2, Some [])].

Lemma get_bitmap_exact_witness :
  ∃ r : option (gset Z),
    get_bitmap example_tags {| bk_account_id := 1; bk_collection := 0;
      bk_class := Tag 5 (TagText (str_bytes "$a")); bk_document_id := 0 |} = Ok r ∧
    7 ∈ rb_opt_elems r.
Proof.
  destruct (get_bitmap_exact (B:=gset Z) example_tags (Tag 5 (TagText (str_bytes "$a"))) 1 0)
    as (r & Hr & Hel & _).
  - unfold example_tags. cbn [db_map LogDb.log_db_laws LogDb.log_map foldr LogDb.apply_event fst snd].
    repeat first [apply bitmaps_ok_empty|apply bitmaps_ok_insert].
    + exists (Tag 5 (TagId 300)), 1, 0, 2. split_and!; by vm_compute.
    + exists (Tag 5 (TagText (str_bytes "$a"))), 1, 0, 2. split_and!; try by vm_compute.
      repeat constructor; by vm_compute.
    + exists (Tag 5 (TagText (str_bytes "$ab"))), 1, 0, 3. split_and!; try by vm_compute.
      repeat constructor; by vm_compute.
    + exists (Tag 5 (TagText (str_bytes "$a"))), 1, 0, 7. split_and!; try by vm_compute.
      repeat constructor; by vm_compute.
  - split; [by vm_compute|]. repeat constructor; by vm_compute.
  - by vm_compute.
  - by vm_compute.
  - exists r. split; [done|]. apply Hel. split; [lia|]. exists []. vm_compute. reflexivity.
Defined.

(** Above 2^29 a longer keyword can end the scan: document [99 * 2^24] of the
    keyword [$a] sorts after [$ab] and is not found. *)
Example get_bitmap_high_id_missed :
  get_bitmap (B:=gset Z)
    [(tag_cell (TagText (str_bytes "$a")) (99 * 2 ^ 24), Some []);
     (tag_cell (TagText (str_bytes "$ab")) 3, Some [])]
    {| bk_account_id := 1; bk_collection := 0;
       bk_class := Tag 5 (TagText (str_bytes "$a")); bk_document_id := 0 |}
  = Ok None.
Proof. by vm_compute. Qed.

(** ** Ranges *)
Section ranges.
Context {DB Txn : Type} `{RocksDBLaws DB Txn}.

(** an iteration calls back for exactly the entries of the subspace whose
    keys lie in [begin..=end], once each and in key order (descending when
    asked to), until the callback stops it or, for [only_first], after one. *)
Theorem iterate_exact {A K} `{Key K} (db : DB) (p : IterateParams K)
    (cb : A → list Z → list Z → result (A * bool)) acc :
  let lo := key_serialize (begin p) 0 in let hi := key_serialize (end_ p) 0 in
  let s := key_subspace (begin p) in
  let rows := range_rows (db_map db) s lo hi (ascending p) in
  iterate db p cb acc = visit (first p) cb rows acc ∧
  StronglySorted (if ascending p then row_lt else flip row_lt) rows ∧
  ∀ k v, (k, v) ∈ rows ↔ lo ≤ᵇ k ∧ k ≤ᵇ hi ∧ db_map db !! (s, k) = Some v.
Proof.
  intros lo hi s rows. split_and!; [apply iterate_visit| |intros; apply elem_of_range_rows].
  unfold rows, range_rows. destruct (ascending p); [|apply StronglySorted_reverse];
    apply StronglySorted_filter, cf_rows_sorted.
Qed.

Lemma delete_keys_map (db : DB) cf keys s k :
  db_map (fold_left (λ db k, delete_cf db cf k) keys db) !! (s, k)
  = if decide (s = cf ∧ k ∈ keys) then None else db_map db !! (s, k).
Proof.
  revert db. induction keys as [|k0 keys IH]; intros db; cbn [fold_left].
  - rewrite decide_False; [done|]. intros [_ Hk]. by apply elem_of_nil in Hk.
  - rewrite IH, delete_spec. destruct (decide (s = cf ∧ k ∈ keys)) as [Hk|Hk].
    + rewrite decide_True; [done|]. rewrite elem_of_cons. tauto.
    + rewrite lookup_delete. destruct (decide ((cf, k0) = (s, k))) as [[= -> ->]|Hne].
      * by rewrite decide_True by (split; [done|by left]).
      * rewrite decide_False; [done|]. intros [-> [->|?]%elem_of_cons]; tauto.
Qed.

Lemma delete_range_rows_spec m cf from to k :
  k ∈ delete_range_rows from to (iter_rows m cf (FromForward from)) ↔
  from ≤ᵇ k ∧ k <ᵇ to ∧ is_Some (m !! (cf, k)).
Proof.
  unfold delete_range_rows. cbn [iter_rows]. rewrite (take_while_filter row_lt).
  - rewrite list_elem_of_fmap. split.
    + intros ([k' v] & -> & Hin). apply list_elem_of_filter in Hin as [Hp Hin].
      apply list_elem_of_filter in Hin as [Hlo Hin%elem_of_cf_rows]. cbn [fst] in *.
      apply negb_true_iff, orb_false_iff in Hp as [_ Hp%bool_decide_eq_false].
      apply bytes_nle_gt in Hp. by rewrite Hin.
    + intros (Hlo & Hhi & [v Hv]). exists (k, v). split; [done|]. apply list_elem_of_filter. split.
      * cbn [fst]. rewrite (bool_decide_false (k <ᵇ from)) by (by apply bytes_nlt_ge).
        rewrite bool_decide_false; [done|]. by apply bytes_nle_gt.
      * apply list_elem_of_filter. by rewrite elem_of_cf_rows.
  - apply StronglySorted_filter, cf_rows_sorted.
  - intros x y Hxy Hx Hy. apply list_elem_of_filter in Hx as [Hx _].
    apply list_elem_of_filter in Hy as [Hy _].
    rewrite !(bool_decide_false (_ <ᵇ from)) by (by apply bytes_nlt_ge). cbn [orb].
    rewrite !negb_false_iff, !bool_decide_eq_true. intros Hto.
    apply (bytes_le_trans _ x.1); [done|by apply bytes_lt_le].
Qed.

(** [delete_range] deletes the half-open range and nothing else. *)
Lemma delete_range_map {K} `{Key K} (db : DB) (from to : K) s k :
  db_map (delete_range db from to) !! (s, k)
  = if decide (s = key_subspace from ∧ key_serialize from 0 ≤ᵇ k ∧ k <ᵇ key_serialize to 0)
    then None else db_map db !! (s, k).
Proof.
  unfold delete_range. rewrite delete_keys_map, iterator_spec.
  destruct (decide (s = key_subspace from ∧ key_serialize from 0 ≤ᵇ k ∧ k <ᵇ key_serialize to 0))
    as [(-> & Hlo & Hhi)|Hn].
  - destruct (db_map db !! (key_subspace from, k)) as [v|] eqn:Hv; [|by destruct (decide _)].
    rewrite decide_True; [done|]. split; [done|]. apply delete_range_rows_spec.
    by rewrite Hv.
  - rewrite decide_False; [done|]. intros [-> Hin]. apply Hn.
    apply delete_range_rows_spec in Hin as (? & ? & _). done.
Qed.

(** ** Purging zero counters *)

Definition is_zero_counter (v : list Z) : bool := bool_decide (i64_from_be v = Some 0).

Lemma purge_key_map (db db' db'' : DB) cf key :
  db_le db db' → purge_key db db' cf key = inl db'' →
  let zero := match db_map db !! (cf, key) with Some v => is_zero_counter v | None => false end in
  db_map db'' = (if zero then delete (cf, key) (db_map db') else db_map db') ∧
  (zero = true → db_map db' !! (cf, key) = db_map db !! (cf, key)).
Proof.
  intros Hle. unfold purge_key.
  destruct (txn_get_for_update_cf (transaction_opt db) db cf key) as [value t] eqn:Hg.
  apply get_for_update_inv in Hg as (-> & Hm & Ht & Hb). rewrite begin_map. cbv zeta.
  fold (is_zero_counter). destruct (match db_map db !! (cf, key) with Some v => is_zero_counter v
    | None => false end) eqn:Hz.
  - unfold is_zero_counter in Hz. rewrite Hz. intros Hc. split.
    + rewrite (txn_commit_map _ _ _ Hc), txn_delete_map, Hm, begin_map. done.
    + intros _. symmetry. apply (txn_commit_unmodified _ _ _ _ _ Hc); [|done|].
      * rewrite txn_delete_began, Hb, begin_began. done.
      * rewrite txn_delete_tracked. set_solver.
  - unfold is_zero_counter in Hz. rewrite Hz. intros [= <-]. split; done.
Qed.
End ranges.

Lemma zero_keys_spec rows keys k :
  zero_keys rows = Ok keys → k ∈ keys ↔ ∃ v, (k, v) ∈ rows ∧ is_zero_counter v = true.
Proof.
  revert keys. induction rows as [|[k0 v0] rows IH]; intros keys; cbn [zero_keys].
  - intros [= <-]. set_solver.
  - destruct (i64_from_be v0) as [n|] eqn:Hn; [|done].
    intros (ks & Hks & [= <-])%result_bind_ok. specialize (IH ks Hks).
    assert (is_zero_counter v0 = bool_decide (n = 0)) as Hz.
    { unfold is_zero_counter. rewrite Hn. apply bool_decide_ext. split; [by intros [= ->]|by intros ->]. }
    case_decide as Hn0.
    + setoid_rewrite elem_of_cons. rewrite IH. split.
      * intros [->|(v & ? & ?)]; [exists v0; split; [by left|by rewrite Hz, bool_decide_true]|eauto].
      * intros (v & [[= -> ->]|?] & ?); eauto.
    + rewrite IH. setoid_rewrite elem_of_cons. split; [intros (v & ? & ?); eauto|].
      intros (v & [[= -> ->]|?] & Hv); [|eauto]. by rewrite Hz, bool_decide_false in Hv.
Qed.

(** They are in key order, each once. *)
Lemma zero_keys_nodup rows keys :
  StronglySorted row_lt rows → zero_keys rows = Ok keys → NoDup keys.
Proof.
  intros Hs. revert keys. induction Hs as [|[k0 v0] rows _ IH Hlt]; intros keys; cbn [zero_keys].
  - intros [= <-]. constructor.
  - destruct (i64_from_be v0) as [n|]; [|done].
    intros (ks & Hks & [= <-])%result_bind_ok. case_decide; [|by apply IH].
    constructor; [|by apply IH]. intros (v & Hin & _)%(zero_keys_spec _ _ _ Hks).
    rewrite Forall_forall in Hlt. exact (bytes_lt_irrefl _ (Hlt _ Hin)).
Qed.

(** What is left of a counter after a purge. *)
Definition purged (value : option (list Z)) : option (list Z) :=
  match value with
  | Some v => if is_zero_counter v then None else Some v
  | None => None
  end.

Section purge.
Context {DB Txn : Type} `{RocksDBLaws DB Txn}.
Context (interfere : nat → DB → DB).
Hypothesis interfere_le : ∀ i db, db_le db (interfere i db).

Lemma purge_keys_map i cf keys (db db' : DB) s k :
  (∀ i db, db_map (interfere i db) !! (s, k) = db_map db !! (s, k)) →
  purge_keys interfere i cf keys db = inl db' →
  db_map db' !! (s, k)
  = if decide (s = cf ∧ k ∈ keys) then purged (db_map db !! (s, k)) else db_map db !! (s, k).
Proof.
  intros Hi. revert i db. induction keys as [|key keys IH]; intros i db; cbn [purge_keys].
  - intros [= <-]. rewrite decide_False; [done|]. intros [_ Hk]. by apply elem_of_nil in Hk.
  - destruct (purge_key _ _ cf key) as [db1|e] eqn:Hp; [|done]. intros Hks.
    apply IH in Hks. rewrite Hks. clear Hks IH.
    apply purge_key_map in Hp as [Hdb1 _]; [|apply interfere_le].
    assert (db_map db1 !! (s, k) =
      if decide (s = cf ∧ k = key) then purged (db_map db !! (s, k)) else db_map db !! (s, k)) as ->.
    { rewrite Hdb1. destruct (decide (s = cf ∧ k = key)) as [[-> ->]|Hne].
      - rewrite !Hi. unfold purged. destruct (db_map db !! (cf, key)) as [v|] eqn:Hv.
        + destruct (is_zero_counter v); [by rewrite lookup_delete_eq|by rewrite !Hi].
        + by rewrite !Hi.
      - assert ((cf, key) ≠ (s, k)) by (intros [= -> ->]; tauto).
        destruct (match _ with Some v => is_zero_counter v | None => false end);
          rewrite ?lookup_delete_ne by done; by rewrite !Hi. }
    destruct (decide (s = cf ∧ k = key)) as [[-> ->]|Hne].
    + rewrite (decide_True (P:=cf = cf ∧ key ∈ key :: keys)) by (split; [done|by left]).
      destruct (db_map db !! (cf, key)) as [v|]; cbn; [|by destruct (decide _)].
      destruct (is_zero_counter v) eqn:Hz; cbn; [by destruct (decide _)|].
      rewrite Hz. by destruct (decide _).
    + apply decide_ext. rewrite elem_of_cons. tauto.
Qed.

(** The counters that are zero. *)
Definition zero_at (m : store_map) (cf : Z) (k : list Z) : Prop :=
  ∃ v, m !! (cf, k) = Some v ∧ is_zero_counter v = true.

(** A purge and the other writers, step by step: other writers, a look at the
    next of [keys], other writers again, and then either nothing, when the
    counter was not zero, or its deletion, while it still has the value that
    was seen. *)
Inductive purge_run (cf : Z) : nat → DB → list (list Z) → DB → Prop :=
  | run_done i db : purge_run cf i db [] db
  | run_kept i db key keys db' :
      ¬ zero_at (db_map (interfere i db)) cf key →
      purge_run cf (S (S i)) (interfere (S i) (interfere i db)) keys db' →
      purge_run cf i db (key :: keys) db'
  | run_dropped i db key keys db1 db' :
      zero_at (db_map (interfere i db)) cf key →
      db_map (interfere (S i) (interfere i db)) !! (cf, key) = db_map (interfere i db) !! (cf, key) →
      db_map db1 = delete (cf, key) (db_map (interfere (S i) (interfere i db))) →
      purge_run cf (S (S i)) db1 keys db' → purge_run cf i db (key :: keys) db'.

Lemma purge_keys_run cf keys i (db db' : DB) :
  purge_keys interfere i cf keys db = inl db' → purge_run cf i db keys db'.
Proof.
  revert i db. induction keys as [|key keys IH]; intros i db; cbn [purge_keys].
  - intros [= <-]. constructor.
  - destruct (purge_key _ _ cf key) as [db1|e] eqn:Hp; [|done]. intros Hks%IH.
    pose proof Hp as Hp'. apply purge_key_map in Hp as [Hdb1 Hsame]; [|apply interfere_le]. unfold purge_key in Hp'.
    destruct (db_map (interfere i db) !! (cf, key)) as [v|] eqn:Hv.
    + destruct (is_zero_counter v) eqn:Hz.
      * eapply run_dropped; [by exists v|by rewrite Hsame|exact Hdb1|exact Hks].
      * apply run_kept; [by intros (v' & Hv' & Hz'); simplify_eq; congruence|].
        destruct (txn_get_for_update_cf _ _ _ _) as [value t] eqn:Hg.
        apply get_for_update_inv in Hg as (-> & _). rewrite begin_map, Hv in Hp'.
        unfold is_zero_counter in Hz. rewrite Hz in Hp'. by injection Hp' as ->.
    + apply run_kept; [by intros (v' & Hv' & _); simplify_eq|].
      destruct (txn_get_for_update_cf _ _ _ _) as [value t] eqn:Hg.
      apply get_for_update_inv in Hg as (-> & _). rewrite begin_map, Hv in Hp'. by injection Hp' as ->.
Qed.

(** C24: a purge of a counter subspace that succeeds, interleaved with whatever
    other writers do, looks once at each counter that was zero when it began, and deletes it
    exactly if it is zero at that moment; a counter that is deleted still has
    that value when the deletion commits, so no change of another writer is
    lost, and the purge changes nothing else.  In particular a counter that
    no one else touches is removed if and only if it is zero, and entries of
    other subspaces that no one else touches keep their values. *)
Theorem purge_counters_exact i cf (db db' : DB) :
  purge_counters interfere i cf db = Ok db' →
  (∃ keys, NoDup keys ∧ (∀ k, k ∈ keys ↔ zero_at (db_map db) cf k) ∧ purge_run cf i db keys db') ∧
  ∀ s k, (∀ i db, db_map (interfere i db) !! (s, k) = db_map db !! (s, k)) →
    db_map db' !! (s, k)
    = if decide (s = cf) then purged (db_map db !! (s, k)) else db_map db !! (s, k).
Proof.
  unfold purge_counters. intros (keys & Hkeys & Hp)%result_bind_ok.
  destruct (purge_keys _ _ _ _ _) as [db1|e] eqn:Hks; [|done]. injection Hp as <-.
  rewrite iterator_spec in Hkeys. cbn [iter_rows] in Hkeys.
  assert (∀ k, k ∈ keys ↔ zero_at (db_map db) cf k) as Hz.
  { intros k. rewrite (zero_keys_spec _ _ k Hkeys). unfold zero_at. by setoid_rewrite elem_of_cf_rows. }
  split.
  - exists keys. split_and!; [|done|by apply purge_keys_run].
    by eapply zero_keys_nodup, Hkeys; apply cf_rows_sorted.
  - intros s k Hi. rewrite (purge_keys_map i cf keys db db1 s k Hi Hks).
    destruct (decide (s = cf)) as [->|]; [|by rewrite decide_False by tauto].
    destruct (decide (cf = cf ∧ k ∈ keys)) as [|Hn]; [done|].
    unfold purged. destruct (db_map db !! (cf, k)) as [v|] eqn:Hv; [|done].
    destruct (is_zero_counter v) eqn:Hzv; [|done]. exfalso. apply Hn. split; [done|].
    apply Hz. by exists v.
Qed.
End purge.

Lemma purge_counters_exact_witness :
  let quota uid n := ((SUBSPACE_QUOTA, 4 :: Leb128.leb uid), Some (i64_to_le n)) in
  let db : LogDb.DB := [quota 7 0; quota 8 5] in
  match purge_counters (λ _ db, db) 0 SUBSPACE_QUOTA db with
  | Ok db' =>
      db_map db' !! (SUBSPACE_QUOTA, 4 :: Leb128.leb 7) = None ∧
      db_map db' !! (SUBSPACE_QUOTA, 4 :: Leb128.leb 8) = Some (i64_to_le 5)
  | Err _ => False
  end.
Proof.
  intros quota db. destruct (purge_counters (λ _ db, db) 0 SUBSPACE_QUOTA db) as [db'|e] eqn:E;
    [|by vm_compute in E].
  destruct (purge_counters_exact (λ _ db, db) ltac:(done) 0 SUBSPACE_QUOTA db db' E) as [_ Hk].
  split; rewrite Hk; by vm_compute.
Defined.
