(* ===== verification/Store.v ===== *)
(** * The store above its backend

    [dispatch/store.rs] for the RocksDB variant: intersections of bitmaps,
    deletion of the entries of a set of documents, purging of an account and
    of expired reports.  Writes go through the interface [StoreWrite]: what
    the clients of a store rely on is [StoreWriteLaws], which the write path
    of the backend discharges ([sequential_write_laws]).  The [PARANOID_WRITE]
    debugging mode of [Store::write] is not modelled. *)

From stdpp Require Import base gmap sorting strings numbers list.
From S2P Require Import Prelude Codec Keys KeyTheory KeyOrder Roaring Kv KvModel Batch Commit CommitTheory Read.
Open Scope Z_scope.
Open Scope bytes_scope.

(** ** What a store promises its clients *)

Class StoreWrite (DB : Type) := store_write : Batch → DB → result (AssignedIds * DB).

(** A batch of [n] operations on a well-formed store. *)
Definition batch_ok (b : Z) (batch : Batch) : Prop :=
  0 ≤ b ∧ b + 101 * Z.of_nat (length (ops batch)) ≤ 2 ^ 32 - 100 ∧ ops_ok b U8_MAX (ops batch).

Class StoreWriteLaws (DB Txn : Type) `{RocksDBLaws DB Txn, StoreWrite DB} := {
  store_hash : list Z → Z;
  store_write_exec b db batch ids db' :
    store_ok b (db_map db) → batch_ok b batch → store_write batch db = Ok (ids, db') →
    ∃ c, exec_ops store_hash (coords_init, db_map db) (ops batch) (c, db_map db') ∧
      c_result c = ids;
}.

(** The backend with one writer. *)
Section sequential.
Context {DB Txn : Type} `{RocksDBLaws DB Txn} {B : Type} `{RoaringBitmapLaws B}.
Context (xxh3_64 : list Z → Z) (gen_range : nat → nat → nat → nat) (in_time : nat → bool).

Definition sequential_write : StoreWrite DB := λ batch db,
  match write B xxh3_64 (λ _ _, db) gen_range in_time batch with
  | Some r => r
  | None => Err (InternalError "unreachable")
  end.

Lemma sequential_write_laws :
  (∀ a i, gen_range_ok (gen_range a i)) →
  @StoreWriteLaws DB Txn _ _ sequential_write.
Proof.
  intros Hg. refine {| store_hash := xxh3_64 |}.
  intros b db batch ids db' Hdb (Hb & Hlen & Hok). unfold store_write, sequential_write, write.
  destruct (write_loop_outcome (B:=B) xxh3_64 (S MAX_COMMIT_ATTEMPTS) 0 (λ _ _, db) gen_range in_time
    batch) as (r & a & -> & _ & _ & Hend); [lia|unfold MAX_COMMIT_ATTEMPTS; lia|]. intros ->.
  unfold ends_with in Hend. destruct (commit _ _ _ _ _) as [[ids1 db1]|[e|k]] eqn:Hc;
    [|done|by destruct Hend]. injection Hend as <- <-.
  by destruct (commit_exec xxh3_64 (λ _, db) (gen_range a) batch ids db' b) as [Hex _].
Qed.
End sequential.

(** ** Intersections *)
Section intersection.
Context {DB Txn : Type} `{RocksDB DB Txn} {B : Type} `{RoaringBitmap B}.

(** [get_bitmaps_intersection] *)
Fixpoint intersection_loop (db : DB) (keys : list BitmapKey) (r : option B) : result (option B) :=
  match keys with
  | [] => Ok r
  | key :: keys =>
      bitmap ← get_bitmap db key;
      match bitmap with
      | Some bitmap =>
          match r with
          | Some r =>
              let r := rb_bitand r bitmap in
              if rb_is_empty r then Ok (Some r) else intersection_loop db keys (Some r)
          | None => intersection_loop db keys (Some bitmap)
          end
      | None => Ok None
      end
  end.

Definition get_bitmaps_intersection (db : DB) (keys : list BitmapKey) : result (option B) :=
  intersection_loop db keys None.
End intersection.

Section intersection_theory.
Context {DB Txn : Type} `{RocksDBLaws DB Txn} {B : Type} `{RoaringBitmapLaws B}.

Lemma intersection_loop_spec (db : DB) keys (bms : BitmapKey → option B) (r : B) :
  (∀ key, key ∈ keys → get_bitmap db key = Ok (bms key)) →
  ∃ r', intersection_loop db keys (Some r) = Ok r' ∧
    ∀ d, d ∈ rb_opt_elems r' ↔ d ∈ rb_elems r ∧ ∀ key, key ∈ keys → d ∈ rb_opt_elems (bms key).
Proof.
  revert r. induction keys as [|key keys IH]; intros r Hk; cbn [intersection_loop].
  - exists (Some r). split; [done|]. intros d. cbn. set_solver.
  - rewrite (Hk key) by (by left). cbn [mbind result_bind].
    destruct (bms key) as [bm|] eqn:Hbm.
    + rewrite rb_is_empty_spec, rb_elems_bitand. case_bool_decide as He.
      * eexists. split; [done|]. intros d. cbn. rewrite rb_elems_bitand, He. split; [set_solver|].
        intros [Hr Hall]. rewrite <-He. specialize (Hall key ltac:(by left)). rewrite Hbm in Hall.
        set_solver.
      * destruct (IH (rb_bitand r bm)) as (r' & -> & Hr'); [intros; apply Hk; by right|].
        exists r'. split; [done|]. intros d. rewrite Hr', rb_elems_bitand, elem_of_intersection.
        setoid_rewrite elem_of_cons. split.
        -- intros [[? ?] ?]. split; [done|]. intros k' [->|?]; [by rewrite Hbm|auto].
        -- intros [? Hall]. split_and!; [done| |auto]. specialize (Hall key ltac:(by left)).
           by rewrite Hbm in Hall.
    + exists None. split; [done|]. intros d. cbn. split; [set_solver|]. intros [_ Hall].
      specialize (Hall key ltac:(by left)). by rewrite Hbm in Hall.
Qed.

(** intersecting the bitmaps of several keys, with its early exits on an
    empty result and on a missing bitmap, yields the documents that are in all
    of them. *)
Theorem get_bitmaps_intersection_exact (db : DB) keys (bms : BitmapKey → option B) :
  keys ≠ [] → (∀ key, key ∈ keys → get_bitmap db key = Ok (bms key)) →
  ∃ r, get_bitmaps_intersection db keys = Ok r ∧
    ∀ d, d ∈ rb_opt_elems r ↔ ∀ key, key ∈ keys → d ∈ rb_opt_elems (bms key).
Proof.
  intros Hne Hk. destruct keys as [|key keys]; [done|]. unfold get_bitmaps_intersection.
  cbn [intersection_loop]. rewrite (Hk key) by (by left). cbn [mbind result_bind].
  destruct (bms key) as [bm|] eqn:Hbm.
  - destruct (intersection_loop_spec db keys bms bm) as (r & -> & Hr);
      [intros; apply Hk; by right|].
    exists r. split; [done|]. intros d. rewrite Hr. setoid_rewrite elem_of_cons. split.
    + intros [? Hall] k' [->|?]; [by rewrite Hbm|auto].
    + intros Hall. split; [|auto]. specialize (Hall key ltac:(by left)). by rewrite Hbm in Hall.
  - exists None. split; [done|]. intros d. cbn. split; [set_solver|]. intros Hall.
    specialize (Hall key ltac:(by left)). by rewrite Hbm in Hall.
Qed.
End intersection_theory.

Lemma get_bitmaps_intersection_exact_witness :
  let keyword t := {| bk_account_id := 1; bk_collection := 0;
                      bk_class := Tag 5 (TagText (str_bytes t)); bk_document_id := 0 |} in
  let mailbox := {| bk_account_id := 1; bk_collection := 0; bk_class := Tag 5 (TagId 300);
                    bk_document_id := 0 |} in
  let bms (key : BitmapKey) : option (gset Z) :=
    match get_bitmap example_tags key with Ok r => r | Err _ => None end in
  ∃ r : option (gset Z),
    get_bitmaps_intersection example_tags [keyword "$a"; mailbox] = Ok r ∧ 2 ∈ rb_opt_elems r.
Proof.
  intros keyword mailbox bms.
  destruct (get_bitmaps_intersection_exact (B:=gset Z) example_tags [keyword "$a"; mailbox] bms)
    as (r & Hr & Hd); [done| |].
  - intros key [-> | [-> | []%elem_of_nil]%elem_of_cons]%elem_of_cons; vm_compute; reflexivity.
  - exists r. split; [exact Hr|]. apply Hd.
    intros key [-> | [-> | []%elem_of_nil]%elem_of_cons]%elem_of_cons;
      apply (bool_decide_unpack _); vm_compute; reflexivity.
Defined.

(** ** Deleting the entries of documents *)

(** [DocumentSet] *)
Class DocumentSet (D : Type) := ds_contains : D → Z → bool.
#[export] Instance unit_document_set : DocumentSet unit := λ _ _, true.
#[export] Instance bitmap_document_set `{RoaringBitmap B} : DocumentSet B := rb_contains.

(** [key.get(key.len() - U32_LEN - offset)]: an index below zero wraps and is
    out of range. *)
Definition key_collection (key : list Z) (offset : nat) : option Z :=
  if decide (U32_LEN + offset ≤ length key)%nat
  then key !! (length key - U32_LEN - offset)%nat else None.

Section delete_documents.
Context {DB Txn D : Type} `{RocksDB DB Txn} `{StoreWrite DB} `{DocumentSet D}.

Definition documents_from (account_id collection : Z) (collection_offset : option nat) : list Z :=
  match collection_offset with
  | Some _ => finalize (ks_new (U32_LEN + 2) » write_u32 account_id » write_u8 collection)
  | None => finalize (ks_new U32_LEN » write_u32 account_id)
  end.
Definition documents_to (account_id collection : Z) (collection_offset : option nat) : list Z :=
  match collection_offset with
  | Some _ =>
      finalize (ks_new (U32_LEN + 2) » write_u32 account_id » write_u8 (wrap 8 (collection + 1)))
  | None => finalize (ks_new U32_LEN » write_u32 (wrap 32 (account_id + 1)))
  end.

Definition collect_key (collection : Z) (collection_offset : option nat) (document_ids : D)
    (delete_keys : list (list Z)) (key _value : list Z) : result (list (list Z) * bool) :=
  if match collection_offset with
     | None => true
     | Some offset => bool_decide (key_collection key offset = Some collection)
     end
  then
    document_id ← deserialize_be_u32_end key U32_LEN;
    Ok (if ds_contains document_ids document_id then delete_keys ++ [key] else delete_keys, true)
  else Ok (delete_keys, true).

Definition op_delete (subspace : Z) (key : list Z) : Operation :=
  OpValue (Any {| any_subspace := subspace; any_key := key |}) Clear.

Fixpoint delete_loop (subspace : Z) (delete_keys : list (list Z)) (batch : BatchBuilder) (db : DB)
    : result (BatchBuilder * DB) :=
  match delete_keys with
  | [] => Ok (batch, db)
  | key :: delete_keys =>
      '(batch, db) ←
        (if decide (1000 ≤ length (b_ops batch))%nat
         then '(_, db) ← store_write (build batch) db; Ok (builder_new, db)
         else Ok (batch, db));
      delete_loop subspace delete_keys (b_push (op_delete subspace key) batch) db
  end.

Definition delete_documents (db : DB) (subspace account_id collection : Z)
    (collection_offset : option nat) (document_ids : D) : result DB :=
  delete_keys ← iterate db
    (no_values (params_new
      {| ak_subspace := subspace;
         ak_key := documents_from account_id collection collection_offset |}
      {| ak_subspace := subspace;
         ak_key := documents_to account_id collection collection_offset |}))
    (collect_key collection collection_offset document_ids) [];
  '(batch, db) ← delete_loop subspace delete_keys builder_new db;
  if is_empty batch then Ok db
  else '(_, db) ← store_write (build batch) db; Ok db.
End delete_documents.

(** Whether an entry belongs to one of the documents. *)
Definition doc_selected {D} `{DocumentSet D} (collection : Z) (collection_offset : option nat)
    (document_ids : D) (key : list Z) : bool :=
  match collection_offset with
  | None => true
  | Some offset => bool_decide (key_collection key offset = Some collection)
  end && ds_contains document_ids (from_be_bytes (drop (length key - 4) key)).

Section delete_documents_theory.
Context {DB Txn D : Type} `{StoreWriteLaws DB Txn} `{DocumentSet D}.

Lemma any_cell c a : class_cell c (Any a) = (any_subspace a, any_key a).
Proof. unfold class_cell, class_key. by rewrite value_serialize_resolve, value_serialize_bytes. Qed.

Lemma exec_deletes h c m subspace keys st :
  exec_ops h (c, m) (op_delete subspace <$> keys) st →
  ∀ s k, st.2 !! (s, k) = if decide (s = subspace ∧ k ∈ keys) then None else m !! (s, k).
Proof.
  revert m. induction keys as [|key keys IH]; intros m Hex s k; rewrite ?fmap_cons in Hex.
  - inversion Hex; subst. rewrite decide_False; [done|]. intros [_ Hk]. by apply elem_of_nil in Hk.
  - inversion Hex as [|? ? ? ? ? Hop Hops]; subst. inversion Hop; subst.
    rewrite (IH _ Hops). unfold op_delete in *. rewrite any_cell. cbn [any_subspace any_key].
    destruct (decide (s = subspace ∧ k ∈ keys)) as [[-> Hk]|Hk].
    + by rewrite decide_True by (split; [done|by right]).
    + rewrite lookup_delete. destruct (decide ((subspace, key) = (s, k))) as [[= -> ->]|Hne].
      * by rewrite decide_True by (split; [done|by left]).
      * rewrite decide_False; [done|]. intros [-> [->|?]%elem_of_cons]; tauto.
Qed.

Lemma deletes_ok b coll subspace keys : ops_ok b coll (op_delete subspace <$> keys).
Proof. induction keys; [done|]. by split. Qed.

(** The content after keys of a subspace are gone. *)
Definition without (m : store_map) (subspace : Z) (keys : list (list Z)) (m' : store_map) : Prop :=
  ∀ s k, m' !! (s, k) = if decide (s = subspace ∧ k ∈ keys) then None else m !! (s, k).

Lemma without_store_ok b m subspace keys m' :
  store_ok b m → without m subspace keys m' → store_ok b m'.
Proof.
  intros [Hc Hd] Hw. split.
  - intros s k v Hs. rewrite Hw. case_decide; [done|]. by apply Hc.
  - intros k v. rewrite Hw. case_decide; [done|]. by apply Hd.
Qed.

Lemma without_app m subspace ks1 ks2 m1 m2 :
  without m subspace ks1 m1 → without m1 subspace ks2 m2 → without m subspace (ks1 ++ ks2) m2.
Proof.
  intros Hw1 Hw2 s k. rewrite Hw2, Hw1.
  destruct (decide (s = subspace ∧ k ∈ ks2)) as [[-> Hk]|Hn2].
  - rewrite decide_True; [done|]. split; [done|]. rewrite elem_of_app. by right.
  - apply decide_ext. rewrite elem_of_app. tauto.
Qed.

Lemma write_deletes b (db db' : DB) subspace keys ids :
  store_ok b (db_map db) → 0 ≤ b ≤ 2 ^ 31 → (length keys ≤ 1000)%nat →
  store_write (build {| b_ops := op_delete subspace <$> keys |}) db = Ok (ids, db') →
  without (db_map db) subspace keys (db_map db').
Proof.
  intros Hdb Hb Hl Hw. destruct (store_write_exec b db (build {| b_ops := op_delete subspace <$> keys |}) ids db' Hdb)
    as (c & Hex & _); [|done|].
  - split_and!; [lia| |apply deletes_ok]. cbn. rewrite length_fmap. lia.
  - intros s k. by rewrite (exec_deletes _ _ _ _ _ _ Hex).
Qed.

Lemma delete_loop_without b (db db' : DB) subspace keys pending batch :
  store_ok b (db_map db) → 0 ≤ b ≤ 2 ^ 31 → (length pending ≤ 1000)%nat →
  delete_loop subspace keys {| b_ops := op_delete subspace <$> pending |} db = Ok (batch, db') →
  ∃ done_ pending', pending ++ keys = done_ ++ pending' ∧ (length pending' ≤ 1000)%nat ∧
    batch = {| b_ops := op_delete subspace <$> pending' |} ∧
    without (db_map db) subspace done_ (db_map db').
Proof.
  intros Hdb Hb. revert db pending Hdb. induction keys as [|key keys IH]; intros db pending Hdb Hl;
    cbn [delete_loop].
  - intros [= <- <-]. exists [], pending. rewrite app_nil_r. split_and!; [done..|].
    intros s k. rewrite decide_False; [done|]. intros [_ Hk]. by apply elem_of_nil in Hk.
  - intros ([batch1 db1] & Hw & Hrec)%result_bind_ok. cbn [b_ops] in Hw. rewrite length_fmap in Hw.
    case_decide as Hfull.
    + apply result_bind_ok in Hw as ([ids db2] & Hw & [= <- <-]).
      apply (write_deletes b) in Hw; [|done..].
      destruct (IH db2 [key]) as (dn & pd & He & Hpd & -> & Hwo);
        [by eapply without_store_ok|cbn; lia|done|].
      exists (pending ++ dn), pd. rewrite <-app_assoc, <-He. split_and!; [done..|].
      by eapply without_app.
    + injection Hw as <- <-.
      destruct (IH db (pending ++ [key])) as (dn & pd & He & Hpd & -> & Hwo); [done|..].
      { rewrite length_app. cbn. lia. }
      { unfold b_push in Hrec. cbn [b_ops] in Hrec. by rewrite fmap_app. }
      exists dn, pd. rewrite <-He, <-app_assoc. done.
Qed.

(** The keys the iteration collects. *)
Lemma collect_keys_spec collection offset (ds : D) rows acc keys :
  visit false (collect_key collection offset ds) rows acc = Ok keys →
  ∀ k, k ∈ keys ↔ k ∈ acc ∨ ∃ v, (k, v) ∈ rows ∧ doc_selected collection offset ds k = true.
Proof.
  revert acc. induction rows as [|[k0 v0] rows IH]; intros acc; cbn [visit].
  - intros [= <-] k. set_solver.
  - intros ([acc1 cont] & Hcb & Hrec)%result_bind_ok k.
    assert (cont = true ∧ ∀ k, k ∈ acc1 ↔ k ∈ acc ∨ k = k0 ∧ doc_selected collection offset ds k0 = true)
      as [-> Hacc1].
    { unfold collect_key in Hcb. unfold doc_selected.
      destruct (match offset with None => true | Some off => _ end); cbn [andb].
      - apply result_bind_ok in Hcb as (id & Hid & [= <- <-]). split; [done|]. intros k'.
        assert (4 ≤ length k0)%nat as Hl.
        { unfold deserialize_be_u32_end in Hid. case_decide; [done|discriminate Hid]. }
        rewrite deserialize_be_u32_end_drop in Hid by done. injection Hid as <-.
        destruct (ds_contains ds _); rewrite ?elem_of_app, ?list_elem_of_singleton; naive_solver.
      - injection Hcb as <- <-. split; [done|]. naive_solver. }
    cbn [negb orb] in Hrec. rewrite (IH acc1 Hrec k), Hacc1. setoid_rewrite elem_of_cons.
    naive_solver.
Qed.

(** deleting the entries of documents removes from the subspace exactly
    the entries in the range of the account (and collection) that end in the
    id of one of the documents, however many batches it takes, and touches
    nothing else. *)
Theorem delete_documents_exact b (db db' : DB) subspace account_id collection offset (ds : D) :
  store_ok b (db_map db) → 0 ≤ b ≤ 2 ^ 31 →
  delete_documents db subspace account_id collection offset ds = Ok db' →
  ∀ s k, db_map db' !! (s, k)
    = if decide (s = subspace ∧ documents_from account_id collection offset ≤ᵇ k ∧
                 k ≤ᵇ documents_to account_id collection offset ∧
                 doc_selected collection offset ds k = true)
      then None else db_map db !! (s, k).
Proof.
  intros Hdb Hb. unfold delete_documents. intros (keys & Hkeys & Hdel)%result_bind_ok s k.
  apply result_bind_ok in Hdel as ([batch db1] & Hloop & Hlast).
  destruct (delete_loop_without b db db1 subspace keys [] batch) as (dn & pd & He & Hpd & -> & Hwo);
    [done..|cbn; lia|done|].
  assert (without (db_map db) subspace keys (db_map db')) as Hwo'.
  { cbn [app] in He. rewrite He. destruct (is_empty _) eqn:Hempty.
    - injection Hlast as <-. assert (pd = []) as -> by (by destruct pd). by rewrite app_nil_r.
    - apply result_bind_ok in Hlast as ([ids db2] & Hw & [= <-]).
      apply (write_deletes b) in Hw; [by eapply without_app| |done..].
      by eapply without_store_ok. }
  rewrite Hwo'. destruct (db_map db !! (s, k)) as [v|] eqn:Hv; [|by repeat case_decide].
  apply decide_ext. rewrite iterate_visit in Hkeys.
  rewrite (collect_keys_spec _ _ _ _ _ _ Hkeys k). cbn [begin end_ no_values params_new key_subspace
    any_key_key ak_subspace key_serialize]. setoid_rewrite elem_of_range_rows.
  rewrite !any_key_bytes. cbn [ak_key ak_subspace ascending]. change (flag_bytes 0 ?x) with (@nil Z).
  rewrite !app_nil_l, elem_of_nil. naive_solver.
Qed.
End delete_documents_theory.

(** One writer on the log-structured engine. *)
Definition example_write : StoreWrite LogDb.DB :=
  sequential_write (B:=gset Z) (λ _, 0) (λ _ _ n, Nat.pred n) (λ _, true).
Lemma example_write_laws : @StoreWriteLaws LogDb.DB LogDb.Txn _ _ example_write.
Proof. apply (sequential_write_laws (B:=gset Z)). intros a i n Hn. lia. Defined.

Definition index_entry (d : Z) : Z * list Z :=
  (SUBSPACE_INDEXES, index_key_serialize {| ik_account_id := 1; ik_collection := 0;
     ik_document_id := d; ik_field := 4; ik_key := [65; 66] |} 0).

Lemma delete_documents_exact_witness :
  let db : LogDb.DB := [(index_entry 2, Some []); (index_entry 3, Some [])] in
  match @delete_documents _ _ (gset Z) _ example_write _ db SUBSPACE_INDEXES 1 0 None {[2]} with
  | Ok db' => db_map db' !! index_entry 2 = None ∧ db_map db' !! index_entry 3 = Some []
  | Err _ => False
  end.
Proof.
  intros db.
  destruct (@delete_documents _ _ (gset Z) _ example_write _ db SUBSPACE_INDEXES 1 0 None {[2]})
    as [db'|e] eqn:E; [|by vm_compute in E].
  assert (store_ok 0 (db_map db)) as Hok.
  { apply (store_ok_insert 0 (<[index_entry 3 := []]> ∅)); [apply store_ok_insert|];
      [apply store_ok_empty|by split..]. }
  split; unfold index_entry;
    rewrite (@delete_documents_exact _ _ _ _ _ _ example_write_laws _ 0 db db' _ _ _ _ _ Hok
      ltac:(lia) E); vm_compute; reflexivity.
Defined.

(** ** Purging *)
Section purge.
Context {DB Txn : Type} `{RocksDB DB Txn}.

Definition account_key (subspace account_id : Z) : AnyKey :=
  {| ak_subspace := subspace; ak_key := finalize (ks_new U32_LEN » write_u32 account_id) |}.

Definition class_key_of (account_id : Z) (class : ValueClass Z) : ValueKey :=
  {| vk_account_id := account_id; vk_collection := 0; vk_document_id := 0; vk_class := class |}.

(** [purge_account].  [delete_range] fails in the source only when the database
    itself does, which is not modelled: here it always succeeds. *)
Definition purge_account (db : DB) (account_id : Z) : DB :=
  let next_id := wrap 32 (account_id + 1) in
  let db := fold_left (λ db subspace,
      delete_range db (account_key subspace account_id) (account_key subspace next_id))
    [SUBSPACE_BITMAP_ID; SUBSPACE_BITMAP_TAG; SUBSPACE_BITMAP_TEXT; SUBSPACE_LOGS;
     SUBSPACE_INDEXES] db in
  fold_left (λ db classes,
      delete_range db (class_key_of account_id classes.1) (class_key_of next_id classes.2))
    [(Acl account_id, Acl next_id);
     (Property 0, Property 0);
     (FtsIndex {| hash := replicate 8 0; len := 0 |},
      FtsIndex {| hash := replicate 8 U8_MAX; len := U8_MAX |})] db.

(** [purge_store]: expired reports, then the zero counters of the backend;
    [now] is the time in seconds. *)
Definition delete_reports (db : DB) (now : Z) (report : Z → Z → ReportClass) : DB :=
  delete_range db (value_key_from (Report (report 0 0))) (value_key_from (Report (report U64_MAX now))).

Definition purge_reports (now : Z) (db : DB) : DB :=
  let db := delete_reports db now ReportDmarc in
  let db := delete_reports db now ReportTls in
  delete_reports db now ReportArf.

Definition purge_store (interfere : nat → nat → DB → DB) (now : Z) (db : DB) : result DB :=
  backend_purge_store interfere (purge_reports now db).
End purge.

Section purge_theory.
Context {DB Txn : Type} `{RocksDBLaws DB Txn}.

Definition report_expires (r : ReportClass) : Z :=
  match r with ReportTls _ e | ReportDmarc _ e | ReportArf _ e => e end.
Definition report_id (r : ReportClass) : Z :=
  match r with ReportTls i _ | ReportDmarc i _ | ReportArf i _ => i end.
Definition report_tag (r : ReportClass) : Z :=
  match r with ReportTls _ _ => 0 | ReportDmarc _ _ => 1 | ReportArf _ _ => 2 end.
Definition report_cell (r : ReportClass) : Z * list Z :=
  (SUBSPACE_REPORT_OUT, value_serialize (Report r : ValueClass Z) 0 0 0 0 None).

Lemma report_cell_bytes r :
  report_cell r = (SUBSPACE_REPORT_OUT,
    [report_tag r] ++ to_be_bytes 8 (report_expires r) ++ to_be_bytes 8 (report_id r)).
Proof. unfold report_cell. rewrite value_serialize_bytes. by destruct r. Qed.

(** Lexicographic order of two 64-bit fields. *)
Lemma be64_pair_lt x y x' y' :
  uint_ok 64 x → uint_ok 64 y → uint_ok 64 x' → uint_ok 64 y' →
  to_be_bytes 8 x ++ to_be_bytes 8 y <ᵇ to_be_bytes 8 x' ++ to_be_bytes 8 y'
  ↔ x < x' ∨ x = x' ∧ y < y'.
Proof.
  intros Hx Hy Hx' Hy'. unfold bytes_lt.
  rewrite bytes_cmp_app_eqlen by (by rewrite !to_be_bytes_length).
  rewrite !to_be_bytes_cmp by done.
  destruct (Z.compare_spec x x'), (Z.compare_spec y y'); split; try done; lia.
Qed.

Lemma report_key_bytes r :
  key_serialize (value_key_from (Report r)) 0
  = [report_tag r] ++ to_be_bytes 8 (report_expires r) ++ to_be_bytes 8 (report_id r).
Proof. apply (f_equal snd (report_cell_bytes r)). Qed.

(** A range of keys that start with one byte. *)
Lemma tagged_range t t' lo hi r :
  ([t] ++ lo ≤ᵇ [t'] ++ r ∧ [t'] ++ r <ᵇ [t] ++ hi) ↔ t' = t ∧ lo ≤ᵇ r ∧ r <ᵇ hi.
Proof.
  unfold bytes_le, bytes_lt. cbn [app bytes_cmp]. rewrite (Z.compare_antisym t t').
  destruct (Z.compare_spec t t'); cbn; split; try done; try lia; intros (? & ?); try lia; done.
Qed.

Lemma delete_reports_map (db : DB) now (report : Z → Z → ReportClass) t r :
  (∀ i e, report_id (report i e) = i ∧ report_expires (report i e) = e ∧
          report_tag (report i e) = t) →
  uint_ok 64 now → uint_ok 64 (report_id r) → uint_ok 64 (report_expires r) →
  db_map (delete_reports db now report) !! report_cell r
  = if decide (report_tag r = t ∧ (report_expires r < now ∨
                                   report_expires r = now ∧ report_id r < U64_MAX))
    then None else db_map db !! report_cell r.
Proof.
  intros Hr Hnow Hid Hexp. unfold delete_reports. rewrite report_cell_bytes, delete_range_map.
  apply decide_ext. rewrite !report_key_bytes.
  destruct (Hr 0 0) as (-> & -> & ->), (Hr U64_MAX now) as (-> & -> & ->).
  rewrite tagged_range, <-bytes_nlt_ge, !be64_pair_lt by done. unfold uint_ok in *.
  split; [intuition lia|]. intros [-> ?]. split_and!; [done|done|lia|done].
Qed.

(** purging the store removes the reports that have expired, of every
    kind, and keeps the others. *)
Theorem purge_reports_exact (db : DB) now r :
  uint_ok 64 now → uint_ok 64 (report_id r) → uint_ok 64 (report_expires r) →
  db_map (purge_reports now db) !! report_cell r
  = if decide (report_expires r < now ∨ report_expires r = now ∧ report_id r < U64_MAX)
    then None else db_map db !! report_cell r.
Proof.
  intros Hnow Hid Hexp. unfold purge_reports.
  rewrite !(delete_reports_map _ now ReportArf 2), !(delete_reports_map _ now ReportTls 0),
    !(delete_reports_map _ now ReportDmarc 1) by done.
  repeat case_decide; try tauto. exfalso. destruct r; cbn in *; tauto.
Qed.

(** The entries of an account in the subspaces whose keys start with it. *)
Lemma account_key_range (db : DB) s a s' a' rest :
  0 ≤ a < 2 ^ 32 - 1 → uint_ok 32 a' →
  db_map (delete_range db (account_key s a) (account_key s (wrap 32 (a + 1))))
    !! (s', to_be_bytes 4 a' ++ rest)
  = if decide (s' = s ∧ a' = a) then None else db_map db !! (s', to_be_bytes 4 a' ++ rest).
Proof.
  intros Ha Ha'. rewrite delete_range_map. apply decide_ext.
  cbn [key_subspace any_key_key account_key ak_subspace key_serialize]. rewrite !any_key_bytes.
  rewrite wrap_small by (unfold uint_ok; lia).
  change (flag_bytes 0 ?x) with (@nil Z). rewrite !app_nil_l.
  change (ak_key (account_key s ?x)) with (to_be_bytes 4 x). by rewrite account_range_lt.
Qed.

Lemma delete_range_other {K} `{Key K} (db : DB) (from to : K) s k :
  s ≠ key_subspace from → db_map (delete_range db from to) !! (s, k) = db_map db !! (s, k).
Proof. intros Hs. rewrite delete_range_map, decide_False; tauto. Qed.

(** The smallest tail of a property key. *)
Lemma property_tail_min col f d :
  uint_ok 8 col → uint_ok 8 f → uint_ok 32 d →
  [0; 0] ++ to_be_bytes 4 0 ≤ᵇ [col; f] ++ to_be_bytes 4 d.
Proof.
  unfold uint_ok, bytes_le. intros Hc Hf Hd. cbn [app bytes_cmp].
  destruct (Z.compare_spec 0 col); try lia; try done.
  destruct (Z.compare_spec 0 f); try lia; try done.
  rewrite to_be_bytes_cmp by (change (256 ^ Z.of_nat 4) with (2 ^ 32); lia).
  rewrite Z.compare_le_iff. lia.
Qed.

Lemma property_range a a' col f d :
  0 ≤ a < 2 ^ 32 - 1 → uint_ok 32 a' → uint_ok 8 col → uint_ok 8 f → uint_ok 32 d →
  let tail := [0; 0] ++ to_be_bytes 4 0 in
  let k := to_be_bytes 4 a' ++ [col; f] ++ to_be_bytes 4 d in
  (to_be_bytes 4 a ++ tail ≤ᵇ k ∧ k <ᵇ to_be_bytes 4 (a + 1) ++ tail) ↔ a' = a.
Proof.
  intros Ha Ha' Hc Hf Hd tail k. pose proof (property_tail_min col f d Hc Hf Hd) as Hmin.
  fold tail in Hmin. unfold k, bytes_le, bytes_lt, uint_ok in *.
  rewrite !bytes_cmp_app_eqlen by (by rewrite !to_be_bytes_length).
  rewrite !to_be_bytes_cmp by (change (256 ^ Z.of_nat 4) with (2 ^ 32); lia).
  rewrite (bytes_cmp_antisym tail) in *.
  destruct (Z.compare_spec a a'), (Z.compare_spec a' (a + 1)); try lia;
    split; try done; try lia; intros [? Hlt]; destruct (bytes_cmp tail _); done.
Qed.

(** Purging an account deletes all of its bitmaps, change logs, index
    entries and property values, and none of another account's. *)
Lemma purge_account_exact (db : DB) a a' :
  0 ≤ a < 2 ^ 32 - 1 → uint_ok 32 a' →
  (∀ s rest,
     s ∈ [SUBSPACE_BITMAP_ID; SUBSPACE_BITMAP_TAG; SUBSPACE_BITMAP_TEXT; SUBSPACE_LOGS;
          SUBSPACE_INDEXES] →
     db_map (purge_account db a) !! (s, to_be_bytes 4 a' ++ rest)
     = if decide (a' = a) then None else db_map db !! (s, to_be_bytes 4 a' ++ rest)) ∧
  (∀ col f d, uint_ok 8 col → uint_ok 8 f → uint_ok 32 d →
     let cell := (SUBSPACE_PROPERTY, value_serialize (Property f : ValueClass Z) a' col d 0 None) in
     db_map (purge_account db a) !! cell = if decide (a' = a) then None else db_map db !! cell).
Proof.
  intros Ha Ha'. unfold purge_account. cbn [fold_left fst snd]. split.
  - intros s rest Hs. rewrite 3!delete_range_other by (by intros ->; vm_compute in Hs; set_solver).
    rewrite !account_key_range by done. repeat case_decide; try tauto. set_solver.
  - intros col f d Hc Hf Hd. rewrite delete_range_other by done.
    rewrite delete_range_map. rewrite !delete_range_other by done. apply decide_ext.
    rewrite value_serialize_bytes, wrap_small by (unfold uint_ok; lia).
    change (key_subspace _) with SUBSPACE_PROPERTY.
    cbn [key_serialize value_key value_key_serialize class_key_of vk_class vk_account_id
      vk_collection vk_document_id]. unfold value_key_serialize. cbn [class_key_of vk_class
      vk_account_id vk_collection vk_document_id]. rewrite !value_serialize_bytes.
    change (flag_bytes 0 ?x) with (@nil Z). rewrite !app_nil_l. cbn [value_bytes].
    rewrite <-(property_range a a' col f d) by done. tauto.
Qed.
End purge_theory.

Lemma purge_reports_exact_witness :
  let db : LogDb.DB := [(report_cell (ReportTls 9 100), Some [1]);
                        (report_cell (ReportTls 9 300), Some [1])] in
  db_map (purge_reports 200 db) !! report_cell (ReportTls 9 100) = None ∧
  db_map (purge_reports 200 db) !! report_cell (ReportTls 9 300) = Some [1].
Proof.
  intros db. split; rewrite purge_reports_exact by (unfold uint_ok; cbn; lia); vm_compute; reflexivity.
Defined.

Lemma purge_account_exact_witness :
  let cell a := (SUBSPACE_INDEXES, to_be_bytes 4 a ++ [0; 4; 65; 0; 0; 0; 2]) in
  let db : LogDb.DB := [(cell 5, Some []); (cell 6, Some [])] in
  db_map (purge_account db 5) !! cell 5 = None ∧ db_map (purge_account db 5) !! cell 6 = Some [].
Proof.
  intros cell db. split; unfold cell.
  - rewrite (proj1 (purge_account_exact db 5 5 ltac:(lia) ltac:(unfold uint_ok; lia)))
      by (by repeat constructor). by vm_compute.
  - rewrite (proj1 (purge_account_exact db 5 6 ltac:(lia) ltac:(unfold uint_ok; lia)))
      by (by repeat constructor). vm_compute. reflexivity.
Defined.

(** What [purge_account] does outside that: the range of the ACL keys, which
    start with the account a permission is granted to, runs from (5, 5) to
    (6, 6).  A permission granted to account 5 by account 3 stays, one granted
    to account 6 by account 4 goes. *)
Definition acl_cell (granted_to owner : Z) : Z * list Z :=
  (SUBSPACE_ACL, value_serialize (Acl granted_to : ValueClass Z) owner 0 1 0 None).

Example purge_account_acl :
  let db : LogDb.DB := [(acl_cell 5 3, Some []); (acl_cell 6 4, Some [])] in
  db_map (purge_account db 5) !! acl_cell 5 3 = Some [] ∧
  db_map (purge_account db 5) !! acl_cell 6 4 = None.
Proof. split; vm_compute; reflexivity. Qed.

(** The range of the full-text index ends at the largest term of the next
    account, whose index goes with it. *)
Definition fts_cell (a : Z) (term : list Z) (d : Z) : Z * list Z :=
  (SUBSPACE_FTS_INDEX,
   value_serialize (FtsIndex {| hash := take 8 (term ++ replicate 8 0);
     len := Z.of_nat (length term) |} : ValueClass Z) a 0 d 0 None).

Example purge_account_next_fts_index :
  let db : LogDb.DB := [(fts_cell 6 (str_bytes "hello") 1, Some [])] in
  db_map (purge_account db 5) !! fts_cell 6 (str_bytes "hello") 1 = None.
Proof. vm_compute. reflexivity. Qed.

(** Received reports and outgoing report events share a subspace and their
    first byte: an outgoing event that is due is deleted as if it were an
    expired report. *)
Definition dmarc_event_cell (due_ : Z) : Z * list Z :=
  (SUBSPACE_REPORT_OUT,
   value_serialize (Queue (DmarcReportEvent {| due := due_; policy_hash := 1; seq_id := 2;
     domain := str_bytes "example.org" |}) : ValueClass Z) 0 0 0 0 None).

Example purge_reports_outgoing_event :
  let db : LogDb.DB := [(dmarc_event_cell 100, Some [])] in
  db_map (purge_reports 200 db) !! dmarc_event_cell 100 = None.
Proof. vm_compute. reflexivity. Qed.
