(* ===== verification/ClearLoop.v ===== *)
(** * Clearing many entries in batches

    The store removes the permissions and the blob links of an account with
    the same loop: clear one entry after the other, writing a batch whenever
    it has a thousand operations, and select the collection only when it
    changes.  [clear_all] is that loop ([acl_revoke_all] of query/acl.rs,
    [blob_hash_unlink_account] of write/blob.rs); its effect is proved here
    once. *)

From stdpp Require Import base gmap sorting strings numbers list.
From S2P Require Import Prelude Codec Keys KeyTheory Roaring Kv KvModel Batch Commit CommitTheory Read Store.
Open Scope Z_scope.
Open Scope bytes_scope.

(** An entry of a document of the account. *)
Record clear_item := {
  ci_collection : Z; ci_document_id : Z; ci_class : ValueClass MaybeDynamicId }.

Section clear_loop.
Context {DB : Type} `{StoreWrite DB}.

Definition account_batch (account_id : Z) : BatchBuilder := with_account_id account_id builder_new.

Fixpoint clear_loop (account_id : Z) (items : list clear_item) (batch : BatchBuilder)
    (last_collection : Z) (db : DB) : result (BatchBuilder * DB) :=
  match items with
  | [] => Ok (batch, db)
  | item :: items =>
      '(batch, last_collection, db) ←
        (if decide (1000 ≤ length (b_ops batch))%nat
         then '(_, db) ← store_write (build batch) db;
              Ok (account_batch account_id, U8_MAX, db)
         else Ok (batch, last_collection, db));
      let batch := if decide (ci_collection item ≠ last_collection)
                   then with_collection (ci_collection item) batch else batch in
      let batch := update_document (ci_document_id item) batch in
      clear_loop account_id items (b_push (OpValue (ci_class item) Clear) batch)
        (ci_collection item) db
  end.

Definition clear_all (account_id : Z) (items : list clear_item) (db : DB) : result DB :=
  '(batch, db) ← clear_loop account_id items (account_batch account_id) U8_MAX db;
  if is_empty batch then Ok db
  else '(_, db) ← store_write (build batch) db; Ok db.
End clear_loop.

(** ** Its effect *)

(** The content after some entries are gone. *)
Definition without_cells (m : store_map) (cells : list (Z * list Z)) (m' : store_map) : Prop :=
  ∀ sk, m' !! sk = if decide (sk ∈ cells) then None else m !! sk.

Lemma without_cells_nil m : without_cells m [] m.
Proof. intros sk. rewrite decide_False; [done|]. by intros ?%elem_of_nil. Qed.

Lemma without_cells_app m c1 c2 m1 m2 :
  without_cells m c1 m1 → without_cells m1 c2 m2 → without_cells m (c1 ++ c2) m2.
Proof.
  intros Hw1 Hw2 sk. rewrite Hw2, Hw1.
  destruct (decide (sk ∈ c2)); [by rewrite decide_True by (rewrite elem_of_app; tauto)|].
  apply decide_ext. rewrite elem_of_app. tauto.
Qed.

Lemma without_cells_delete m cells m' sk :
  without_cells m cells m' → without_cells m (cells ++ [sk]) (delete sk m').
Proof.
  intros Hw. apply (without_cells_app m cells [sk] m'); [done|]. intros sk'.
  rewrite lookup_delete. apply decide_ext. rewrite list_elem_of_singleton. naive_solver.
Qed.

Lemma without_cells_store_ok b m cells m' :
  store_ok b m → without_cells m cells m' → store_ok b m'.
Proof.
  intros [Hc Hd] Hw. split.
  - intros s k v Hs. rewrite Hw. case_decide; [done|]. by apply Hc.
  - intros k v. rewrite Hw. case_decide; [done|]. by apply Hd.
Qed.

Lemma exec_ops_snoc h st l op st'' :
  exec_ops h st (l ++ [op]) st'' → ∃ st', exec_ops h st l st' ∧ exec_op h st' op st''.
Proof.
  revert st. induction l as [|o l IH]; intros st Hex; cbn [app] in Hex.
  - inversion Hex as [|? ? st' ? ? Hop Hops]; subst. inversion Hops; subst.
    exists st. split; [constructor|done].
  - inversion Hex as [|? ? st1 ? ? Hop Hops]; subst. destruct (IH _ Hops) as (st' & H1 & H2).
    exists st'. split; [by econstructor|done].
Qed.

Lemma ops_ok_snoc b coll l op :
  ops_ok b coll l → (∀ c, op_ok b c op) → ops_ok b coll (l ++ [op]).
Proof.
  revert coll. induction l as [|o l IH]; intros coll; cbn [app ops_ok]; [by auto|].
  intros [? ?] ?. auto.
Qed.

(** The entry an item stands for. *)
Definition item_cell (account_id : Z) (item : clear_item) : Z * list Z :=
  (subspace (ci_class item) (ci_collection item),
   value_serialize (ci_class item) account_id (ci_collection item) (ci_document_id item) 0
     (Some assigned_default)).

Definition item_in (b : Z) (item : clear_item) : Prop :=
  uint_ok 8 (ci_collection item) ∧ 0 ≤ ci_document_id item < b.

(** Removing the rows of a subspace whose keys satisfy [P]. *)
Lemma without_filtered m s0 (P : list Z → Prop) `{∀ k, Decision (P k)} (rows : list row) m' :
  (∀ k v, (k, v) ∈ rows ↔ m !! (s0, k) = Some v) →
  without_cells m ((λ k, (s0, k)) <$> (fst <$> base.filter (λ r, P r.1) rows)) m' →
  ∀ s k, m' !! (s, k) = if decide (s = s0 ∧ P k) then None else m !! (s, k).
Proof.
  intros Hrows Hwo s k. rewrite Hwo. destruct (m !! (s, k)) as [v|] eqn:Hv; [|by repeat case_decide].
  apply decide_ext. rewrite <-list_fmap_compose, list_elem_of_fmap.
  setoid_rewrite list_elem_of_filter. split.
  - intros ([k' v'] & [= -> ->] & Ho & _). done.
  - intros [-> Ho]. exists (k, v). split_and!; [done..|]. by apply Hrows.
Qed.

(** ** Batches under construction *)

Lemma is_empty_clear batch class : is_empty (b_push (OpValue class Clear) batch) = false.
Proof.
  unfold is_empty, b_push. cbn [b_ops]. rewrite existsb_app. cbn [existsb]. rewrite orb_true_r.
  rewrite bool_decide_false by (by destruct (b_ops batch)). done.
Qed.

(** The batch removes some cells and leaves the coordinates in [P]. *)
Record removes (b : Z) (P : coords → Prop) (cells : list (Z * list Z)) (batch : BatchBuilder) : Prop := {
  rm_ops : ops_ok b U8_MAX (b_ops batch);
  rm_exec h m c m' : exec_ops h (coords_init, m) (b_ops batch) (c, m') →
    P c ∧ without_cells m cells m';
}.

Lemma removes_new b (P : coords → Prop) : P coords_init → removes b P [] builder_new.
Proof.
  split; [done|]. intros h m c m' Hex. inversion Hex; subst. split; [done|apply without_cells_nil].
Qed.

(** An operation that selects an account, a collection or a document. *)
Lemma removes_select b (P Q : coords → Prop) cells batch op :
  removes b P cells batch → (∀ c, op_ok b c op) →
  (∀ h c m c' m', exec_op h (c, m) op (c', m') → P c → Q c' ∧ m' = m) →
  removes b Q cells (b_push op batch).
Proof.
  intros [Hops Hex] Hop Hsel. split; [by apply ops_ok_snoc|].
  intros h m c m' ([c1 m1] & X1 & X2)%exec_ops_snoc. apply Hex in X1 as [HP Hw].
  apply Hsel in X2 as [? ->]; done.
Qed.

(** One more cell. *)
Lemma removes_clear b (P : coords → Prop) cells batch class cell :
  removes b P cells batch → (∀ c, P c → class_cell c class = cell) →
  removes b P (cells ++ [cell]) (b_push (OpValue class Clear) batch).
Proof.
  intros [Hops Hex] Hcell. split; [by apply ops_ok_snoc|].
  intros h m c m' ([c1 m1] & X1 & X2)%exec_ops_snoc. apply Hex in X1 as [HP Hw].
  inversion X2; subst. split; [done|]. rewrite Hcell by done. by apply without_cells_delete.
Qed.

Lemma removes_write {DB Txn : Type} `{StoreWriteLaws DB Txn} b P cells batch (db db' : DB) ids :
  store_ok b (db_map db) → 0 ≤ b ≤ 2 ^ 31 → (length (b_ops batch) ≤ 1003)%nat →
  removes b P cells batch → store_write (build batch) db = Ok (ids, db') →
  without_cells (db_map db) cells (db_map db').
Proof.
  intros Hdb Hb Hl [Hops Hex] Hw.
  destruct (store_write_exec b db (build batch) ids db' Hdb) as (c & He & _); [|done|].
  - split_and!; [lia| |done]. cbn. lia.
  - by apply Hex in He as (_ & ?).
Qed.

(** The last batch is written only when it has something to remove. *)
Lemma removes_finish {DB Txn : Type} `{StoreWriteLaws DB Txn} b P cells batch (db db' : DB) :
  store_ok b (db_map db) → 0 ≤ b ≤ 2 ^ 31 → (length (b_ops batch) ≤ 1003)%nat →
  removes b P cells batch → (is_empty batch = true → cells = []) →
  (if is_empty batch then Ok db
   else '(_, db) ← store_write (build batch) db; Ok db) = Ok db' →
  without_cells (db_map db) cells (db_map db').
Proof.
  intros Hdb Hb Hl Hrm Hempty. destruct (is_empty batch).
  - intros [= <-]. rewrite Hempty by done. apply without_cells_nil.
  - intros ([ids db2] & Hw & [= <-])%result_bind_ok. by eapply removes_write.
Qed.

Section clear_theory.
Context {DB Txn : Type} `{StoreWriteLaws DB Txn}.
Context (b account_id : Z).
Hypothesis account_ok : uint_ok 32 account_id.

(** What the loop keeps of the coordinates. *)
Definition at_collection (last : Z) (c : coords) : Prop :=
  c_account_id c = account_id ∧ c_collection c = last ∧ c_result c = assigned_default.

Lemma removes_account : removes b (at_collection U8_MAX) [] (account_batch account_id).
Proof.
  eapply (removes_select b (eq coords_init)); [by apply removes_new|done|].
  intros h c m c' m' Hop <-. by inversion Hop.
Qed.

Lemma removes_item last cells batch item :
  removes b (at_collection last) cells batch → item_in b item →
  let batch1 := if decide (ci_collection item ≠ last)
                then with_collection (ci_collection item) batch else batch in
  removes b (at_collection (ci_collection item)) (cells ++ [item_cell account_id item])
    (b_push (OpValue (ci_class item) Clear) (update_document (ci_document_id item) batch1)).
Proof.
  intros Hrm [Hc Hd] batch1.
  assert (removes b (at_collection (ci_collection item)) cells batch1) as Hrm1.
  { unfold batch1. case_decide as Hl; [|by rewrite Hl].
    eapply removes_select; [done..|]. intros h c m c' m' Hop (? & _ & ?). by inversion Hop. }
  clearbody batch1. set (P c := at_collection (ci_collection item) c ∧ c_document_id c = ci_document_id item).
  assert (removes b P cells (update_document (ci_document_id item) batch1)) as Hrm2.
  { eapply removes_select; [done|by right|]. intros h c m c' m' Hop (? & ? & ?). by inversion Hop; subst. }
  apply (removes_clear b P _ _ (ci_class item) (item_cell account_id item)) in Hrm2.
  - destruct Hrm2 as [Hops Hex]. split; [done|]. intros ???? (Hp & ?)%Hex. by destruct Hp.
  - intros c ((Ha & Hcol & Hres) & Hdoc). unfold class_cell, class_key. by rewrite Ha, Hcol, Hres, Hdoc.
Qed.

Lemma clear_loop_spec items last cells batch (db : DB) batch' (db' : DB) :
  store_ok b (db_map db) → 0 ≤ b ≤ 2 ^ 31 → Forall (item_in b) items →
  removes b (at_collection last) cells batch → (is_empty batch = true → cells = []) →
  (length (b_ops batch) ≤ 1002)%nat →
  clear_loop account_id items batch last db = Ok (batch', db') →
  ∃ done_ pending last', cells ++ (item_cell account_id <$> items) = done_ ++ pending ∧
    (length (b_ops batch') ≤ 1002)%nat ∧ removes b (at_collection last') pending batch' ∧
    (is_empty batch' = true → pending = []) ∧
    without_cells (db_map db) done_ (db_map db') ∧ store_ok b (db_map db').
Proof.
  intros Hdb Hb Hitems. revert last cells batch db Hdb.
  induction Hitems as [|item items Hitem Hitems IH]; intros last cells batch db Hdb Hrm Hempty Hlen;
    cbn [clear_loop].
  - intros [= <- <-]. exists [], cells, last. rewrite app_nil_r.
    split_and!; done || apply without_cells_nil.
  - intros ([[batch1 last1] db1] & Hw & Hrec)%result_bind_ok. rewrite fmap_cons.
    destruct (decide (1000 ≤ length (b_ops batch))%nat) as [Hfull|Hfull] in Hw.
    + apply result_bind_ok in Hw as ([ids db2] & Hw & [= <- <- <-]).
      apply (removes_write b (at_collection last) cells) in Hw; [|done|done|lia|done].
      pose proof (without_cells_store_ok _ _ _ _ Hdb Hw) as Hdb2.
      destruct (IH _ _ _ db2 Hdb2 (removes_item _ _ _ item removes_account Hitem))
        as (dn & pd & last' & He & Hl & Hcl' & Hem & Hwo & Hok).
      { by rewrite is_empty_clear. }
      { unfold account_batch. case_decide; cbn; lia. }
      { exact Hrec. }
      exists (cells ++ dn), pd, last'. rewrite <-app_assoc, <-He. split_and!; try done.
      by eapply without_cells_app.
    + injection Hw as <- <- <-.
      destruct (IH _ _ _ db Hdb (removes_item _ _ _ item Hrm Hitem))
        as (dn & pd & last' & He & Hl & Hcl' & Hem & Hwo & Hok).
      { by rewrite is_empty_clear. }
      { unfold b_push, update_document, with_collection. case_decide; cbn; rewrite !length_app; cbn; lia. }
      { exact Hrec. }
      exists dn, pd, last'. rewrite <-app_assoc in He. done.
Qed.

(** The entries of the items are removed, and nothing else. *)
Lemma clear_all_spec items (db db' : DB) :
  store_ok b (db_map db) → 0 ≤ b ≤ 2 ^ 31 → Forall (item_in b) items →
  clear_all account_id items db = Ok db' →
  without_cells (db_map db) (item_cell account_id <$> items) (db_map db') ∧ store_ok b (db_map db').
Proof.
  intros Hdb Hb Hitems. unfold clear_all. intros ([batch db1] & Hloop & Hlast)%result_bind_ok.
  destruct (clear_loop_spec items U8_MAX [] (account_batch account_id) db batch db1)
    as (dn & pd & last' & He & Hl & Hrm & Hem & Hwo & Hok); [done..|apply removes_account|done|cbn; lia|done|].
  cbn [app] in He. rewrite He. eapply removes_finish in Hlast; [|done..|lia|done|done].
  pose proof (without_cells_app _ _ _ _ _ Hwo Hlast) as Hw.
  split; [done|]. exact (without_cells_store_ok _ _ _ _ Hdb Hw).
Qed.
End clear_theory.
