(* ===== verification/Bitset.v ===== *)
(** * [Bitmap<T>], a set of items in a word

    [Bitmap] of the utilities crate (map/bitmap.rs) keeps a set of up to 64
    items (access rights, collections, data types) as the bits of a [u64].
    The theorems say that its operations are those of finite sets and that its
    iterator enumerates the set.  [remove] flips the bit of its item: it is a
    removal for an item in the set, and an insertion otherwise. *)

From stdpp Require Import base gmap sorting strings numbers list.
From S2P Require Import Prelude.
Open Scope Z_scope.

Module Bitmap.

(** [BitmapItem]: the largest item plus one, and the items that exist. *)
Class BitmapItem (T : Type) := {
  item_max : Z;
  is_valid : T → bool;
  into_u64 : T → Z;
  from_u64 : Z → T;
}.
Arguments item_max _ {_}.

Section bitmap.
Context {T : Type} `{BitmapItem T}.

Record Bitmap := { bitmap : Z }.

(** [1 << item] on [u64]: the shift amount is taken modulo 64. *)
Definition bit (item : T) : Z := wrap 64 (Z.shiftl 1 (into_u64 item `mod` 64)).

Definition new : Bitmap := {| bitmap := 0 |}.
Definition all : Bitmap := {| bitmap := Z.shiftr U64_MAX ((64 - item_max T) `mod` 64) |}.
Definition union (b items : Bitmap) : Bitmap := {| bitmap := Z.lor (bitmap b) (bitmap items) |}.
Definition intersection (b items : Bitmap) : Bitmap :=
  {| bitmap := Z.land (bitmap b) (bitmap items) |}.
Definition insert (b : Bitmap) (item : T) : Bitmap := {| bitmap := Z.lor (bitmap b) (bit item) |}.
Definition with_item (b : Bitmap) (item : T) : Bitmap := insert b item.
Definition remove (b : Bitmap) (item : T) : Bitmap := {| bitmap := Z.lxor (bitmap b) (bit item) |}.
Definition contains (b : Bitmap) (item : T) : bool :=
  negb (bool_decide (Z.land (bitmap b) (bit item) = 0)).
Fixpoint contains_any (b : Bitmap) (items : list T) : bool :=
  match items with
  | [] => false
  | item :: items =>
      if negb (bool_decide (Z.land (bitmap b) (bit item) = 0)) then true else contains_any b items
  end.
Definition is_empty (b : Bitmap) : bool := bool_decide (bitmap b = 0).
Definition clear (b : Bitmap) : Bitmap * Bitmap := (b, {| bitmap := 0 |}).

(** [63 - leading_zeros()] is the position of the highest bit. *)
Definition highest (w : Z) : Z := Z.log2 w.

(** [Iterator::next] *)
Definition next (b : Bitmap) : option (T * Bitmap) :=
  if bool_decide (bitmap b = 0) then None else
  let item := highest (bitmap b) in
  Some (from_u64 item, {| bitmap := Z.lxor (bitmap b) (wrap 64 (Z.shiftl 1 item)) |}).

(** [pop] *)
Definition pop (b : Bitmap) : option (T * Bitmap) := next b.

(** [From<Bitmap<T>> for Vec<T>]: the iterator run to its end; every step
    clears a bit, so 64 steps are enough. *)
Fixpoint drain (fuel : nat) (b : Bitmap) : list T :=
  match fuel with
  | O => []
  | S fuel => match next b with Some (item, b) => item :: drain fuel b | None => [] end
  end.
Definition into_vec (b : Bitmap) : list T := drain 65 b.

(** [From<Vec<T>>], [FromIterator]: invalid items are skipped. *)
Definition from_iter (items : list T) : Bitmap :=
  fold_left (λ b item, if is_valid item then insert b item else b) items new.
End bitmap.
Arguments Bitmap : clear implicits.

(** ** The set of a bitmap *)

(** What the item types promise: valid items are numbered below the maximum. *)
Class BitmapItemLaws (T : Type) `{BitmapItem T} := {
  item_max_ok : 1 ≤ item_max T ≤ 64;
  item_range x : is_valid x = true → 0 ≤ into_u64 x < item_max T;
  from_into x : is_valid x = true → from_u64 (into_u64 x) = x;
  into_from n : 0 ≤ n < item_max T → into_u64 (from_u64 n) = n ∧ is_valid (from_u64 n : T) = true;
}.

Section bitmap_theory.
Context {T : Type} `{BitmapItemLaws T}.

(** Only the bits of items are set. *)
Definition wf (b : Bitmap) : Prop := 0 ≤ bitmap b < 2 ^ item_max T.

Lemma bit_spec (x : T) i : is_valid x = true → Z.testbit (bit x) i = bool_decide (i = into_u64 x).
Proof.
  intros Hx. pose proof (item_range x Hx) as Hr. pose proof item_max_ok as Hm.
  unfold bit. rewrite (Z.mod_small (into_u64 x)) by lia.
  unfold wrap. rewrite Z.shiftl_mul_pow2, Z.mul_1_l by lia.
  rewrite Z.mod_small by (split; [lia|apply Z.pow_lt_mono_r; lia]).
  rewrite Z.pow2_bits_eqb by lia. case_bool_decide; [by subst; rewrite Z.eqb_refl|].
  by apply Z.eqb_neq.
Qed.

Lemma contains_spec b (x : T) :
  is_valid x = true → contains b x = Z.testbit (bitmap b) (into_u64 x).
Proof.
  intros Hx. unfold contains. pose proof (item_range x Hx).
  destruct (Z.testbit (bitmap b) (into_u64 x)) eqn:Ht.
  - rewrite bool_decide_false; [done|]. intros Hz.
    apply (f_equal (λ z, Z.testbit z (into_u64 x))) in Hz.
    rewrite Z.land_spec, bit_spec, Ht, bool_decide_true, Z.testbit_0_l in Hz by done. done.
  - rewrite bool_decide_true; [done|]. apply Z.bits_inj'. intros i Hi.
    rewrite Z.land_spec, bit_spec, Z.testbit_0_l by done. case_bool_decide; subst; [by rewrite Ht|].
    apply andb_false_r.
Qed.

Lemma wf_bits b : wf b ↔ 0 ≤ bitmap b ∧ ∀ i, item_max T ≤ i → Z.testbit (bitmap b) i = false.
Proof.
  pose proof item_max_ok. unfold wf. split.
  - intros Hb. split; [lia|]. intros i Hi. by apply (testbit_above _ (item_max T)).
  - intros [Hnn Hb]. split; [done|].
    destruct (decide (bitmap b = 0)) as [->|Hne]; [apply Z.pow_pos_nonneg; lia|].
    apply Z.log2_lt_pow2; [lia|]. apply Z.nle_gt. intros Hle.
    pose proof (Z.bit_log2 (bitmap b) ltac:(lia)) as Hbit. by rewrite Hb in Hbit.
Qed.

Lemma insert_wf b (x : T) : is_valid x = true → wf b → wf (insert b x).
Proof.
  rewrite !wf_bits. intros Hx [Hnn Hb]. pose proof (item_range x Hx). cbn. split.
  - apply Z.lor_nonneg. split; [done|]. unfold bit. apply (wrap_ok 64). lia.
  - intros i Hi. rewrite Z.lor_spec, Hb, bit_spec, bool_decide_false by (try done; lia). done.
Qed.

(** Taking the highest item out. *)
Lemma next_spec b :
  wf b → bitmap b ≠ 0 →
  let h := Z.log2 (bitmap b) in
  ∃ b', next b = Some (from_u64 h : T, b') ∧ 0 ≤ h < item_max T ∧ wf b' ∧
    0 ≤ bitmap b' < 2 ^ h ∧ ∀ i, Z.testbit (bitmap b) i = bool_decide (i = h) || Z.testbit (bitmap b') i.
Proof.
  intros Hwf Hne h. pose proof item_max_ok as Hm. pose proof (Z.log2_nonneg (bitmap b)) as Hh.
  fold h in Hh. unfold wf in Hwf. assert (h < item_max T) as Hlt by (apply Z.log2_lt_pow2; lia).
  pose proof (Z.log2_spec (bitmap b) ltac:(lia)) as [Hlo Hhi]. fold h in Hlo, Hhi.
  assert (wrap 64 (Z.shiftl 1 h) = 2 ^ h) as Hbit.
  { unfold wrap. rewrite Z.shiftl_mul_pow2, Z.mul_1_l by lia.
    apply Z.mod_small. split; [lia|apply Z.pow_lt_mono_r; lia]. }
  assert (∀ i, Z.testbit (Z.lxor (bitmap b) (2 ^ h)) i
    = xorb (Z.testbit (bitmap b) i) (bool_decide (i = h))) as Hx.
  { intros i. rewrite Z.lxor_spec. f_equal. rewrite Z.pow2_bits_eqb by lia.
    case_bool_decide; [subst; apply Z.eqb_refl|apply Z.eqb_neq; lia]. }
  pose proof (Z.bit_log2 (bitmap b) ltac:(lia)) as Hset. fold h in Hset.
  exists {| bitmap := Z.lxor (bitmap b) (2 ^ h) |}. unfold next.
  rewrite bool_decide_false by done. fold h. unfold highest. fold h. rewrite Hbit.
  assert (0 ≤ Z.lxor (bitmap b) (2 ^ h) < 2 ^ h) as Hb'.
  { assert (Z.lxor (bitmap b) (2 ^ h) = bitmap b - 2 ^ h) as ->; [|rewrite Z.pow_succ_r in Hhi by lia; lia].
    rewrite Z.sub_nocarry_ldiff.
    - apply Z.bits_inj'. intros i Hi. rewrite Hx, Z.ldiff_spec, Z.pow2_bits_eqb by lia.
      destruct (Z.eqb_spec h i) as [<-|]; [by rewrite Hset, bool_decide_true|].
      rewrite bool_decide_false by lia. by destruct (Z.testbit (bitmap b) i).
    - apply Z.bits_inj'. intros i Hi. rewrite Z.ldiff_spec, Z.pow2_bits_eqb, Z.testbit_0_l by lia.
      destruct (Z.eqb_spec h i) as [<-|]; [by rewrite Hset|done]. }
  split; [done|]. split; [lia|]. split; [|split; [done|]].
  - unfold wf. cbn [bitmap]. assert (2 ^ h < 2 ^ item_max T) by (apply Z.pow_lt_mono_r; lia). lia.
  - intros i. cbn [bitmap]. rewrite Hx. case_bool_decide; subst; [by rewrite Hset|].
    by rewrite xorb_false_r.
Qed.

Definition descending : T → T → Prop := λ x y, into_u64 y < into_u64 x.

Lemma drain_spec fuel b n :
  wf b → 0 ≤ n ≤ Z.of_nat fuel → bitmap b < 2 ^ n →
  Forall (λ x, is_valid x = true ∧ into_u64 x < n) (drain fuel b) ∧
  StronglySorted descending (drain fuel b) ∧
  ∀ i, 0 ≤ i → Z.testbit (bitmap b) i = true ↔ ∃ x, x ∈ drain fuel b ∧ into_u64 x = i.
Proof.
  revert b n. induction fuel as [|fuel IH]; intros b n Hwf Hn Hb; cbn [drain].
  - assert (bitmap b = 0) as Hz by (unfold wf in Hwf; replace n with 0 in Hb by lia; cbn in Hb; lia).
    split_and!; [constructor|constructor|]. intros i _. rewrite Hz, Z.testbit_0_l. set_solver.
  - destruct (decide (bitmap b = 0)) as [Hz|Hne].
    { unfold next. rewrite bool_decide_true by done. split_and!; [constructor|constructor|].
      intros i _. rewrite Hz, Z.testbit_0_l. set_solver. }
    destruct (next_spec b Hwf Hne) as (b' & -> & Hh & Hwf' & Hb' & Hbits).
    set (h := Z.log2 (bitmap b)) in *.
    assert (h < n) as Hhn by (apply Z.log2_lt_pow2; [unfold wf in Hwf; lia|done]).
    destruct (IH b' h Hwf' ltac:(lia) ltac:(lia)) as (Hf & Hs & Hall).
    destruct (into_from h Hh) as [Hih Hvh]. split_and!.
    + constructor; [split; [done|lia]|]. eapply Forall_impl; [exact Hf|]. cbn. intros x [? ?].
      split; [done|lia].
    + constructor; [done|]. eapply Forall_impl; [exact Hf|]. cbn. intros x [_ ?].
      unfold descending. lia.
    + intros i Hi. rewrite Hbits. setoid_rewrite elem_of_cons. split.
      * intros [Hi'%bool_decide_eq_true|Hi']%orb_true_iff; [subst; eauto|].
        apply Hall in Hi' as (x & ? & ?); [eauto|done].
      * intros (x & [->|Hx] & <-); apply orb_true_iff; [left; by apply bool_decide_eq_true|].
        right. apply Hall; eauto.
Qed.

Lemma from_iter_bits (l : list T) b i :
  0 ≤ i →
  Z.testbit (bitmap (fold_left (λ b item, if is_valid item then insert b item else b) l b)) i = true ↔
    Z.testbit (bitmap b) i = true ∨ ∃ x, x ∈ l ∧ is_valid x = true ∧ into_u64 x = i.
Proof.
  intros Hi. revert b. induction l as [|y l IH]; intros b; cbn [fold_left].
  { split; [by left|]. intros [?|(x & []%elem_of_nil & _)]. done. }
  rewrite IH. setoid_rewrite elem_of_cons. destruct (is_valid y) eqn:Hv.
  - unfold insert. cbn [bitmap]. rewrite Z.lor_spec, orb_true_iff, bit_spec by done.
    rewrite bool_decide_eq_true. split.
    + intros [[?| ->]|(x & ? & ? & ?)]; [by left|right|right]; eauto.
    + intros [?|(x & [-> |?] & ? & ?)]; [by left; left|left; right; done|right; eauto].
  - split; [intros [?|(x & ? & ? & ?)]; [by left|right; eauto]|].
    intros [?|(x & [-> |?] & ? & ?)]; [by left|congruence|right; eauto].
Qed.

Lemma into_vec_spec b :
  wf b →
  Forall (λ x, is_valid x = true) (into_vec b) ∧ StronglySorted descending (into_vec b) ∧
  ∀ i, 0 ≤ i → Z.testbit (bitmap b) i = true ↔ ∃ x, x ∈ into_vec b ∧ into_u64 x = i.
Proof.
  intros Hwf. pose proof item_max_ok.
  destruct (drain_spec 65 b 64 Hwf) as (Hf & Hs & Hb); [lia| |].
  { unfold wf in Hwf. assert (2 ^ item_max T ≤ 2 ^ 64) by (apply Z.pow_le_mono_r; lia). lia. }
  split; [|done]. eapply Forall_impl; [exact Hf|]. by intros x [? _].
Qed.

Lemma valid_inj x y : is_valid x = true → is_valid y = true → into_u64 x = into_u64 y → x = y.
Proof. intros Hx Hy Heq. by rewrite <-(from_into x Hx), <-(from_into y Hy), Heq. Qed.

Lemma elem_of_into_vec b x :
  wf b → is_valid x = true → x ∈ into_vec b ↔ contains b x = true.
Proof.
  intros Hwf Hx. destruct (into_vec_spec b Hwf) as (Hf & _ & Hb). pose proof (item_range x Hx).
  rewrite contains_spec, Hb by (done || lia). split; [eauto|]. intros (y & Hy & Heq).
  rewrite Forall_forall in Hf. by rewrite <-(valid_inj y x (Hf y Hy) Hx Heq).
Qed.

Lemma bitmap_ext b1 b2 :
  wf b1 → wf b2 → (∀ x, is_valid x = true → contains b1 x = contains b2 x) → b1 = b2.
Proof.
  intros H1 H2 Heq. destruct b1 as [z1], b2 as [z2]. f_equal. apply Z.bits_inj'. intros i Hi.
  apply wf_bits in H1 as [_ H1], H2 as [_ H2]. cbn in *.
  destruct (decide (i < item_max T)) as [Hlt|Hge]; [|by rewrite H1, H2 by lia].
  destruct (into_from i (conj Hi Hlt)) as [Hin Hv]. specialize (Heq _ Hv).
  rewrite !contains_spec, Hin in Heq by done. done.
Qed.

Lemma from_iter_wf l b :
  wf b → wf (fold_left (λ b (item : T), if is_valid item then insert b item else b) l b).
Proof.
  revert b. induction l as [|x l IH]; intros b Hb; cbn [fold_left]; [done|]. apply IH.
  destruct (is_valid x) eqn:?; [by apply insert_wf|done].
Qed.

Lemma empty_wf : wf new.
Proof. unfold wf, new. cbn. pose proof item_max_ok. split; [done|]. apply Z.pow_pos_nonneg; lia. Qed.

Lemma contains_from_iter l x :
  is_valid x = true → contains (from_iter l) x = true ↔ x ∈ l.
Proof.
  intros Hx. pose proof (item_range x Hx). unfold from_iter.
  rewrite contains_spec, from_iter_bits by (done || lia). cbn [bitmap new].
  rewrite Z.testbit_0_l. split.
  - intros [[=]|(y & Hy & Hv & Heq)]. by rewrite <-(valid_inj y x Hv Hx Heq).
  - intros Hin. right. eauto.
Qed.

Lemma union_wf b1 b2 : wf b1 → wf b2 → wf (union b1 b2).
Proof.
  rewrite !wf_bits. intros [Hn1 Hb1] [Hn2 Hb2]. cbn. split; [by apply Z.lor_nonneg|].
  intros i Hi. by rewrite Z.lor_spec, Hb1, Hb2.
Qed.

Lemma intersection_wf b1 b2 : wf b1 → wf b2 → wf (intersection b1 b2).
Proof.
  rewrite !wf_bits. intros [Hn1 Hb1] [Hn2 Hb2]. cbn. split; [apply Z.land_nonneg; by left|].
  intros i Hi. by rewrite Z.land_spec, Hb1.
Qed.

Lemma all_bitmap : bitmap all = Z.ones (item_max T).
Proof.
  pose proof item_max_ok as Hm. unfold all. cbn [bitmap].
  rewrite (Z.mod_small (64 - item_max T)) by lia. change U64_MAX with (Z.ones 64).
  rewrite Z.shiftr_div_pow2, Z.ones_div_pow2 by lia. f_equal. lia.
Qed.

Lemma all_wf : wf all.
Proof.
  pose proof item_max_ok. unfold wf. rewrite all_bitmap, Z.ones_equiv.
  assert (0 < 2 ^ item_max T) by (apply Z.pow_pos_nonneg; lia). lia.
Qed.

Lemma contains_insert b x y :
  is_valid x = true → is_valid y = true →
  contains (insert b x) y = true ↔ y = x ∨ contains b y = true.
Proof.
  intros Hx Hy. rewrite !contains_spec by done. cbn [insert bitmap].
  rewrite Z.lor_spec, bit_spec, orb_true_iff, bool_decide_eq_true by done.
  split; [intros [?|?]; [by right|left; by apply valid_inj]|].
  intros [-> |?]; [by right|by left].
Qed.

Lemma remove_wf b (x : T) : is_valid x = true → wf b → wf (remove b x).
Proof.
  rewrite !wf_bits. intros Hx [Hnn Hb]. pose proof (item_range x Hx). cbn. split.
  - apply Z.lxor_nonneg. split; [|done]. intros _. unfold bit. apply (wrap_ok 64). lia.
  - intros i Hi. rewrite Z.lxor_spec, Hb, bit_spec, bool_decide_false by (try done; lia). done.
Qed.

(** [remove] flips the bit of the item. *)
Lemma contains_remove b x y :
  is_valid x = true → is_valid y = true →
  contains (remove b x) y = xorb (contains b y) (bool_decide (into_u64 y = into_u64 x)).
Proof.
  intros Hx Hy. rewrite !contains_spec by done. cbn [remove bitmap].
  by rewrite Z.lxor_spec, bit_spec by done.
Qed.

(** C26: The bitmap of item numbers is the set of its items.  [insert], [union],
    [intersection] and [all] are the set operations; [remove] takes out an
    item that is in the set, and puts in one that is not.  All of them keep
    the bitmap within the items' range.  The iterator yields exactly the
    members, each once and from the highest number down, and collecting what
    it yields gives the bitmap back.  Items are valid ones. *)
Theorem bitmap_set_semantics b1 b2 x y :
  wf b1 → wf b2 → is_valid x = true → is_valid y = true →
  (wf (insert b1 x) ∧ (contains (insert b1 x) y = true ↔ y = x ∨ contains b1 y = true)) ∧
  (wf (remove b1 x) ∧ contains (remove b1 x) x = negb (contains b1 x) ∧
   (y ≠ x → contains (remove b1 x) y = contains b1 y)) ∧
  (wf (union b1 b2) ∧ contains (union b1 b2) y = contains b1 y || contains b2 y) ∧
  (wf (intersection b1 b2) ∧ contains (intersection b1 b2) y = contains b1 y && contains b2 y) ∧
  (wf all ∧ contains all y = true) ∧
  (y ∈ into_vec b1 ↔ contains b1 y = true) ∧ StronglySorted descending (into_vec b1) ∧
  from_iter (into_vec b1) = b1.
Proof.
  intros Hw1 Hw2 Hx Hy. pose proof (item_range y Hy).
  split; [split; [by apply insert_wf|by apply contains_insert]|].
  split; [split_and!; [by apply remove_wf|..]|].
  { rewrite contains_remove, bool_decide_true by done. by destruct (contains b1 x). }
  { intros Hne. rewrite contains_remove, bool_decide_false by (done || (intros He; by apply Hne, valid_inj)).
    by destruct (contains b1 y). }
  split; [split; [by apply union_wf|rewrite !contains_spec by done; apply Z.lor_spec]|].
  split; [split; [by apply intersection_wf|rewrite !contains_spec by done; apply Z.land_spec]|].
  split; [split; [apply all_wf|rewrite contains_spec, all_bitmap by done; apply Z.ones_spec_low; lia]|].
  split; [by apply elem_of_into_vec|]. split; [by apply into_vec_spec|].
  apply bitmap_ext; [apply from_iter_wf, empty_wf|done|]. intros z Hz.
  apply eq_iff_eq_true. by rewrite contains_from_iter, elem_of_into_vec.
Qed.
End bitmap_theory.
End Bitmap.
