(* ===== verification/Utf8.v ===== *)
(** * Utf8: the UTF-8 functions of the standard library

    [String::from_utf8], [String::from_utf8_lossy], [char::from_u32] and
    [char::encode_utf8], which the JSON and IMAP parsers apply to the bytes
    they have collected.  A character is its scalar value. *)

From stdpp Require Import base gmap sorting strings numbers list.
From S2P Require Import Prelude.
Open Scope Z_scope.

Module Utf8.

Definition between (lo hi b : Z) : bool := (lo <=? b) && (b <=? hi).
Definition is_cont (b : Z) : bool := between 0x80 0xBF b.

(** The range of the second byte of a sequence. *)
Definition second_ok (b0 b1 : Z) : bool :=
  if b0 =? 0xE0 then between 0xA0 0xBF b1
  else if b0 =? 0xED then between 0x80 0x9F b1
  else if b0 =? 0xF0 then between 0x90 0xBF b1
  else if b0 =? 0xF4 then between 0x80 0x8F b1
  else is_cont b1.

(** The sequence at the head of the bytes: whether it is well formed, and its
    length; an ill-formed one is as long as its longest prefix that could
    have started a character, at least one byte. *)
Definition chunk (l : list Z) : bool * nat :=
  match l with
  | [] => (false, 0%nat)
  | b0 :: l =>
      if between 0 0x7F b0 then (true, 1%nat)
      else if between 0xC2 0xF4 b0 then
        match l with
        | b1 :: l =>
            if second_ok b0 b1 then
              if b0 <=? 0xDF then (true, 2%nat)
              else match l with
                   | b2 :: l =>
                       if is_cont b2 then
                         if b0 <=? 0xEF then (true, 3%nat)
                         else match l with
                              | b3 :: _ => if is_cont b3 then (true, 4%nat) else (false, 3%nat)
                              | [] => (false, 3%nat)
                              end
                       else (false, 2%nat)
                   | [] => (false, 2%nat)
                   end
            else (false, 1%nat)
        | [] => (false, 1%nat)
        end
      else (false, 1%nat)
  end.

Fixpoint from_utf8_loop (fuel : nat) (l : list Z) : bool :=
  match l with
  | [] => true
  | _ => match fuel with
         | O => false
         | S fuel => let '(ok, n) := chunk l in ok && from_utf8_loop fuel (drop n l)
         end
  end.

(** [String::from_utf8], [str::from_utf8]: whether the bytes are a string. *)
Definition from_utf8 (l : list Z) : bool := from_utf8_loop (length l) l.

Definition REPLACEMENT : list Z := [0xEF; 0xBF; 0xBD].

(** [String::from_utf8_lossy]: ill-formed sequences become U+FFFD. *)
Fixpoint lossy_loop (fuel : nat) (l : list Z) : list Z :=
  match l with
  | [] => []
  | _ => match fuel with
         | O => []
         | S fuel =>
             let '(ok, n) := chunk l in
             (if ok then take n l else REPLACEMENT) ++ lossy_loop fuel (drop n l)
         end
  end.
Definition from_utf8_lossy (l : list Z) : list Z := lossy_loop (length l) l.

(** [char::from_u32] *)
Definition from_u32 (c : Z) : option Z :=
  if between 0xD800 0xDFFF c || (0x10FFFF <? c) then None else Some c.

(** [char::encode_utf8] *)
Definition encode_utf8 (c : Z) : list Z :=
  if c <? 0x80 then [c]
  else if c <? 0x800 then [Z.lor (Z.shiftr c 6) 0xC0; Z.lor (Z.land c 0x3F) 0x80]
  else if c <? 0x10000 then
    [Z.lor (Z.shiftr c 12) 0xE0; Z.lor (Z.land (Z.shiftr c 6) 0x3F) 0x80;
     Z.lor (Z.land c 0x3F) 0x80]
  else
    [Z.lor (Z.shiftr c 18) 0xF0; Z.lor (Z.land (Z.shiftr c 12) 0x3F) 0x80;
     Z.lor (Z.land (Z.shiftr c 6) 0x3F) 0x80; Z.lor (Z.land c 0x3F) 0x80].

(** ** Concatenation *)

Lemma chunk_length l : l ≠ [] → (1 ≤ (chunk l).2)%nat ∧ ((chunk l).1 = true → (chunk l).2 ≤ length l)%nat.
Proof.
  destruct l as [|b0 l]; [done|]. intros _. unfold chunk.
  repeat first [case_match; simpl; try lia | split; simpl; lia].
Qed.

Lemma from_utf8_loop_fuel fuel fuel' l :
  (length l ≤ fuel)%nat → (length l ≤ fuel')%nat → from_utf8_loop fuel l = from_utf8_loop fuel' l.
Proof.
  revert fuel' l. induction fuel as [|fuel IH]; intros fuel' l H1 H2.
  { destruct l; [by destruct fuel'|simpl in H1; lia]. }
  destruct l as [|b l]; [by destruct fuel'|]. destruct fuel' as [|fuel']; [simpl in H2; lia|].
  cbn [from_utf8_loop]. destruct (chunk_length (b :: l)) as [Hn _]; [done|].
  destruct (chunk (b :: l)) as [ok n]. simpl in Hn. f_equal. apply IH; rewrite length_drop; simpl in *; lia.
Qed.

Lemma from_utf8_chunk l :
  l ≠ [] → from_utf8 l = (chunk l).1 && from_utf8 (drop (chunk l).2 l).
Proof.
  intros Hl. destruct (chunk_length l Hl) as [Hn _]. destruct l as [|b l]; [done|].
  unfold from_utf8. cbn [length from_utf8_loop]. destruct (chunk (b :: l)) as [ok n]. simpl in Hn.
  cbn [fst snd]. f_equal. apply from_utf8_loop_fuel; rewrite length_drop; simpl; lia.
Qed.

(** A well-formed sequence stays what it is when more bytes follow. *)
Lemma chunk_app l l' : (chunk l).1 = true → chunk (l ++ l') = chunk l.
Proof.
  destruct l as [|b0 [|b1 [|b2 [|b3 l]]]]; cbn [chunk app]; intros H; [done|..];
    repeat (case_match; try done).
Qed.

Lemma from_utf8_app l l' : from_utf8 l = true → from_utf8 (l ++ l') = from_utf8 l'.
Proof.
  induction l as [l IH] using (induction_ltof1 _ length). unfold ltof in IH. intros Hl.
  destruct l as [|b l]; [done|]. destruct (chunk_length (b :: l)) as [Hn Hlen]; [done|].
  rewrite from_utf8_chunk in Hl by done. apply andb_true_iff in Hl as [Hok Hrest].
  specialize (Hlen Hok). rewrite from_utf8_chunk by done. rewrite chunk_app, Hok by done.
  cbn [andb]. rewrite drop_app_le by done. apply IH; [|done]. rewrite length_drop. simpl in *. lia.
Qed.

Lemma lossy_loop_valid fuel l :
  (length l ≤ fuel)%nat → from_utf8 l = true → lossy_loop fuel l = l.
Proof.
  revert l. induction fuel as [|fuel IH]; intros l Hf Hl; [by destruct l; [|simpl in Hf; lia]|].
  destruct l as [|b l]; [done|]. cbn [lossy_loop].
  destruct (chunk_length (b :: l)) as [Hn _]; [done|].
  rewrite from_utf8_chunk in Hl by done. apply andb_true_iff in Hl as [Hok Hrest].
  destruct (chunk (b :: l)) as [ok n]. cbn [fst snd] in *. rewrite Hok.
  rewrite IH; [apply take_drop|rewrite length_drop; simpl in *; lia|done].
Qed.

(** Replacing nothing in a string that is valid. *)
Lemma from_utf8_lossy_valid l : from_utf8 l = true → from_utf8_lossy l = l.
Proof. by apply lossy_loop_valid. Qed.

Lemma from_utf8_ascii l : Forall (λ b, 0 ≤ b < 0x80) l → from_utf8 l = true.
Proof.
  induction 1 as [|b l Hb Hl IH]; [done|]. rewrite from_utf8_chunk by done. unfold chunk, between.
  destruct (Z.leb_spec 0 b), (Z.leb_spec b 0x7F); try lia. done.
Qed.
End Utf8.
