(* ===== verification/Json.v ===== *)
(** * Json: the JSON tokenizer of the JMAP protocol crate

    Models [crates/jmap-proto/src/parser/json.rs] (the pull parser),
    [parser/mod.rs] (tokens and errors) and [parser/impls.rs] (the parsers of
    the standard types).  The parser is a mutable record; a call is a function
    from the record to an outcome that carries the record on, also with an
    error, because callers go on after an error.  A slice out of range is the
    outcome [Panic].  The loops run on fuel, and running out of it is the
    outcome [Diverged]. *)

From stdpp Require Import base gmap sorting strings numbers list.
From S2P Require Import Prelude Utf8 VecMap Bitset.
Open Scope Z_scope.

Module Json.

(** [fast_float::parse], of another crate, and the casts of [f64]. *)
Class FastFloat := {
  f64 : Type;
  fast_float_parse : list Z → option f64;
  float_eq : f64 → f64 → bool;
  float_ge_zero : f64 → bool;
  float_as_u64 : f64 → Z;
  float_as_i64 : f64 → Z;
  float_as_i32 : f64 → Z;
}.

(** The texts of the errors, with the position they mention. *)
Inductive message :=
  | At (text : string) (pos : Z)
  | UnexpectedCharacter (ch : Z) (pos : Z)
  | InvalidUnicode (code : list Z) (pos : Z)
  | FailedNumber (text : list Z) (pos : Z)
  | UnterminatedString (pos : Z)
  | InvalidUtf8 (pos : Z)
  | InvalidValue (value : list Z) (pos : Z)
  | ExpectedProperty (pos : Z)
  | InvalidArgument (property expected : string).

(** [parser::Error] *)
Inductive Error :=
  | Request (m : message)
  | Method (m : message).

(** [request::method::MethodObject] *)
Inductive MethodObject :=
  | MEmail | MMailbox | MCore | MBlob | MPushSubscription | MThread | MSearchSnippet | MIdentity
  | MEmailSubmission | MVacationResponse | MSieveScript | MPrincipal | MQuota.

Record Parser := {
  bytes : list Z;
  iter : list Z;
  next_ch : option Z;
  pos : Z;
  pos_marker : Z;
  depth_array : Z;
  depth_dict : Z;
  is_eof : bool;
  ctx : MethodObject;
}.

(** [Parser::new] *)
Definition new (bs : list Z) : Parser :=
  {| bytes := bs; iter := bs; next_ch := None; pos := 0; pos_marker := 0;
     depth_array := 0; depth_dict := 0; is_eof := false; ctx := MCore |}.

(** Assignments to the fields. *)
Definition set_iter (p : Parser) (it : list Z) (ps : Z) : Parser :=
  {| bytes := bytes p; iter := it; next_ch := next_ch p; pos := ps; pos_marker := pos_marker p;
     depth_array := depth_array p; depth_dict := depth_dict p; is_eof := is_eof p; ctx := ctx p |}.
Definition set_next_ch (p : Parser) (c : option Z) : Parser :=
  {| bytes := bytes p; iter := iter p; next_ch := c; pos := pos p; pos_marker := pos_marker p;
     depth_array := depth_array p; depth_dict := depth_dict p; is_eof := is_eof p; ctx := ctx p |}.
Definition set_eof (p : Parser) : Parser :=
  {| bytes := bytes p; iter := iter p; next_ch := next_ch p; pos := pos p;
     pos_marker := pos_marker p; depth_array := depth_array p; depth_dict := depth_dict p;
     is_eof := true; ctx := ctx p |}.
Definition start_string (p : Parser) : Parser :=
  {| bytes := bytes p; iter := iter p; next_ch := next_ch p; pos := pos p; pos_marker := pos p;
     depth_array := depth_array p; depth_dict := depth_dict p; is_eof := false; ctx := ctx p |}.
Definition set_depth (p : Parser) (a d : Z) : Parser :=
  {| bytes := bytes p; iter := iter p; next_ch := next_ch p; pos := pos p;
     pos_marker := pos_marker p; depth_array := a; depth_dict := d; is_eof := is_eof p;
     ctx := ctx p |}.

Inductive outcome (A : Type) :=
  | Ret (a : A) (p : Parser)
  | Throw (e : Error) (p : Parser)
  | Panic
  | Diverged.
Arguments Ret {_} _ _.
Arguments Throw {_} _ _.
Arguments Panic {_}.
Arguments Diverged {_}.

Definition M (A : Type) : Type := Parser → outcome A.

#[export] Instance M_ret : MRet M := λ _ a p, Ret a p.
#[export] Instance M_bind : MBind M := λ _ _ f m p,
  match m p with
  | Ret a p => f a p
  | Throw e p => Throw e p
  | Panic => Panic
  | Diverged => Diverged
  end.
#[export] Instance M_fmap : FMap M := λ _ _ f m p,
  match m p with
  | Ret a p => Ret (f a) p
  | Throw e p => Throw e p
  | Panic => Panic
  | Diverged => Diverged
  end.

Definition throw {A} (e : Parser → Error) : M A := λ p, Throw (e p) p.

(** [&l[a..b]] and [l.get(a..b)], with the bounds of [usize]. *)
Definition slice (l : list Z) (a b : Z) : option (list Z) :=
  if decide (0 ≤ a ≤ b ∧ b ≤ Z.of_nat (length l))
  then Some (take (Z.to_nat (b - a)) (drop (Z.to_nat a) l)) else None.

(** The end of the text read so far, without the character just read. *)
Definition before (p : Parser) : Z := wrap 64 (pos p - 1).

(** *** Errors *)

Definition error (text : string) (p : Parser) : Error := Request (At text (pos p)).
Definition error_unterminated (p : Parser) : Error := Request (UnterminatedString (pos p)).
Definition error_utf8 (p : Parser) : Error := Request (InvalidUtf8 (pos p)).

(** *** Characters *)

Definition peek_char (p : Parser) : option Z := head (iter p).

(** [next_char]: the position advances also at the end of the input. *)
Definition next_char (p : Parser) : option Z * Parser :=
  match iter p with
  | [] => (None, set_iter p [] (pos p + 1))
  | ch :: it => (Some ch, set_iter p it (pos p + 1))
  end.

Definition QUOTE : Z := 34.
Definition BACKSLASH : Z := 92.

Definition next_unescaped : M (option Z) := λ p,
  match next_char p with
  | (Some ch, p) =>
      if ch =? QUOTE then Ret None (set_eof p)
      else if ch =? BACKSLASH then
        match next_char p with
        | (Some ch, p) => Ret (Some ch) p
        | (None, p) => Throw (error_unterminated p) p
        end
      else Ret (Some ch) p
  | (None, p) => if is_eof p then Ret None p else Throw (error_unterminated p) p
  end.

(** [skip_string]; the loop ends with the input. *)
Fixpoint skip_loop (last_ch : Z) (it : list Z) (p : Parser) : bool * Parser :=
  match it with
  | [] => (false, set_iter p [] (pos p + 1))
  | ch :: it =>
      let p := set_iter p it (pos p + 1) in
      if (ch =? QUOTE) && negb (last_ch =? BACKSLASH) then (true, set_eof p)
      else skip_loop ch it p
  end.
Definition skip_string (p : Parser) : bool * Parser := skip_loop 0 (iter p) p.

(** [self.is_eof || self.skip_string()] *)
Definition eof_or_skip (p : Parser) : bool * Parser :=
  if is_eof p then (true, p) else skip_string p.

(** [Err(self.error_value())]: the rest of the string is skipped; the slice
    of the message panics when the position is out of the text. *)
Definition error_value {A} : M A := λ p,
  match eof_or_skip p with
  | (true, p) =>
      match slice (bytes p) (pos_marker p) (before p) with
      | Some text => Throw (Method (InvalidValue (Utf8.from_utf8_lossy text) (pos p))) p
      | None => Panic
      end
  | (false, p) => Throw (error_unterminated p) p
  end.

(** [T::parse] *)
Class JsonObjectParser (T : Type) := parse : M T.

Section tokens.
Context `{FastFloat}.

Inductive Token (T : Type) :=
  | Colon
  | Comma
  | DictStart
  | DictEnd
  | ArrayStart
  | ArrayEnd
  | Integer (i : Z)
  | Float (f : f64)
  | Boolean (b : bool)
  | String (s : T)
  | Null.
Arguments Colon {_}.
Arguments Comma {_}.
Arguments DictStart {_}.
Arguments DictEnd {_}.
Arguments ArrayStart {_}.
Arguments ArrayEnd {_}.
Arguments Integer {_} _.
Arguments Float {_} _.
Arguments Boolean {_} _.
Arguments String {_} _.
Arguments Null {_}.

Definition MAX_NESTED_LEVELS : Z := 16.

(** *** Numbers *)

Definition I64_MAX : Z := 2 ^ 63 - 1.
Definition I64_MIN : Z := - 2 ^ 63.
Definition saturate (z : Z) : Z := Z.max I64_MIN (Z.min I64_MAX z).

Definition is_digit (ch : Z) : bool := (48 <=? ch) && (ch <=? 57).
Definition is_ws (ch : Z) : bool := (ch =? 32) || (ch =? 13) || (ch =? 9) || (ch =? 10).

Record number := { num : Z; is_float : bool; is_negative : bool }.

(** What a character does to a number: it goes on, it ends, with the delimiter
    kept for the next token, or the character is not one of a number. *)
Inductive number_flow :=
  | More (n : number)
  | Stop (delimiter : option Z)
  | Bad.

Definition number_char (ch : Z) (n : number) : number_flow :=
  if ch =? 45 then More {| num := num n; is_float := is_float n; is_negative := true |}
  else if is_digit ch then
    More (if is_float n then n
          else {| num := saturate (saturate (num n * 10) + (ch - 48));
                  is_float := is_float n; is_negative := is_negative n |})
  else if (ch =? 44) || (ch =? 93) || (ch =? 125) then Stop (Some ch)
  else if ch =? 43 then More n
  else if (ch =? 46) || (ch =? 101) || (ch =? 69) then
    More {| num := num n; is_float := true; is_negative := is_negative n |}
  else if is_ws ch then Stop None
  else Bad.

(** The loop over a number, from its first character. *)
Fixpoint number_loop (fuel : nat) (ch : Z) (n : number) (p : Parser) : outcome number :=
  match number_char ch n with
  | More n =>
      match fuel with
      | O => Diverged
      | S fuel =>
          match next_char p with
          | (Some ch, p) => number_loop fuel ch n p
          | (None, p) => Throw (error_unterminated p) p
          end
      end
  | Stop (Some delimiter) => Ret n (set_next_ch p (Some delimiter))
  | Stop None => Ret n p
  | Bad => Throw (Request (UnexpectedCharacter ch (pos p))) p
  end.

Definition number_token {T} (ch : Z) (p : Parser) : outcome (Token T) :=
  let num_start := before p in
  match number_loop (S (length (iter p))) ch {| num := 0; is_float := false; is_negative := false |} p with
  | Ret n p =>
      if negb (is_float n) then Ret (Integer (if negb (is_negative n) then num n else - num n)) p
      else
        let text := default [] (slice (bytes p) num_start (before p)) in
        match fast_float_parse text with
        | Some f => Ret (Float f) p
        | None => Throw (Request (FailedNumber text (pos p))) p
        end
  | Throw e p => Throw e p
  | Panic => Panic
  | Diverged => Diverged
  end.

(** The characters of a literal after its first: all of them are taken from
    the iterator before they are compared. *)
Definition literal {T} (rest : list Z) (token : Token T) (p : Parser) : outcome (Token T) :=
  let n := length rest in
  let p' := set_iter p (drop n (iter p)) (pos p) in
  if decide (take n (iter p) = rest)
  then Ret token (set_iter p' (iter p') (pos p + Z.of_nat n))
  else Throw (error "Invalid JSON token" p') p'.

(** *** Tokens *)

Definition string_token {T} `{JsonObjectParser T} (p : Parser) : outcome (Token T) :=
  match parse (start_string p) with
  | Ret value p =>
      match eof_or_skip p with
      | (true, p) => Ret (String value) p
      | (false, p) => Throw (error_unterminated p) p
      end
  | Throw e p => Throw e p
  | Panic => Panic
  | Diverged => Diverged
  end.

(** One turn of the loop of [next_token]; [None] is white space. *)
Definition token_step {T} `{JsonObjectParser T} (ch : Z) (p : Parser) : option (outcome (Token T)) :=
  if ch =? QUOTE then Some (string_token p)
  else if ch =? 44 then Some (Ret Comma p)
  else if ch =? 58 then Some (Ret Colon p)
  else if ch =? 91 then
    Some (if depth_array p + depth_dict p <? MAX_NESTED_LEVELS
          then Ret ArrayStart (set_depth p (depth_array p + 1) (depth_dict p))
          else Throw (error "Too many nested objects" p) p)
  else if ch =? 93 then
    Some (if negb (depth_array p =? 0) then Ret ArrayEnd (set_depth p (depth_array p - 1) (depth_dict p))
          else Throw (error "Unexpected array end" p) p)
  else if ch =? 123 then
    Some (if depth_array p + depth_dict p <? MAX_NESTED_LEVELS
          then Ret DictStart (set_depth p (depth_array p) (depth_dict p + 1))
          else Throw (error "Too many nested objects" p) p)
  else if ch =? 125 then
    Some (if negb (depth_dict p =? 0) then Ret DictEnd (set_depth p (depth_array p) (depth_dict p - 1))
          else Throw (error "Unexpected dictionary end" p) p)
  else if is_digit ch || (ch =? 45) || (ch =? 43) then Some (number_token ch p)
  else if ch =? 116 then Some (literal [114; 117; 101] (Boolean true) p)
  else if ch =? 102 then Some (literal [97; 108; 115; 101] (Boolean false) p)
  else if ch =? 110 then Some (literal [117; 108; 108] Null p)
  else if is_ws ch then None
  else Some (Throw (Request (UnexpectedCharacter ch (pos p))) p).

Fixpoint token_loop {T} `{JsonObjectParser T} (fuel : nat) (next_ch : option Z) : M (Token T) := λ p,
  match next_ch with
  | None => Throw (error "Unexpected EOF" p) p
  | Some ch =>
      match token_step ch p with
      | Some o => o
      | None =>
          match fuel with
          | O => Diverged
          | S fuel => let '(c, p) := next_char p in token_loop fuel c p
          end
      end
  end.

Definition next_token (T : Type) `{JsonObjectParser T} : M (Token T) := λ p,
  let '(c, p) :=
    match next_ch p with
    | Some ch => (Some ch, set_next_ch p None)
    | None => next_char p
    end in
  token_loop (S (length (iter p))) c p.

(** *** [Token]: what the callers expect *)

Section expect.
Context {T : Type} `{EqDecision T}.

Definition token_error {A} (property expected : string) : M A :=
  throw (λ _, Method (InvalidArgument property expected)).

Definition unwrap_string (property : string) (t : Token T) : M T :=
  match t with String s => mret s | _ => token_error property "string" end.
Definition unwrap_string_or_null (property : string) (t : Token T) : M (option T) :=
  match t with
  | String s => mret (Some s)
  | Null => mret None
  | _ => token_error property "string"
  end.
Definition unwrap_bool (property : string) (t : Token T) : M bool :=
  match t with Boolean v => mret v | _ => token_error property "boolean" end.
Definition unwrap_bool_or_null (property : string) (t : Token T) : M (option bool) :=
  match t with
  | Boolean v => mret (Some v)
  | Null => mret None
  | _ => token_error property "boolean"
  end.

(** [unwrap_usize_or_null] and [unwrap_uint_or_null]; both types have 64 bits. *)
Definition unwrap_uint_or_null (property : string) (t : Token T) : M (option Z) :=
  match t with
  | Integer v => if 0 <=? v then mret (Some v) else token_error property "unsigned integer"
  | Float v => if float_ge_zero v then mret (Some (float_as_u64 v))
               else token_error property "unsigned integer"
  | Null => mret None
  | _ => token_error property "unsigned integer"
  end.
Definition unwrap_int_or_null (property : string) (t : Token T) : M (option Z) :=
  match t with
  | Integer v => mret (Some v)
  | Float v => mret (Some (float_as_i64 v))
  | Null => mret None
  | _ => token_error property "unsigned integer"
  end.

(** [v as i32] *)
Definition as_i32 (v : Z) : Z := if decide (wrap 32 v < 2 ^ 31) then wrap 32 v else wrap 32 v - 2 ^ 32.
Definition unwrap_ints_or_null (property : string) (t : Token T) : M (option Z) :=
  match t with
  | Integer v => mret (Some (as_i32 v))
  | Float v => mret (Some (float_as_i32 v))
  | Null => mret None
  | _ => token_error property "unsigned integer"
  end.

(** [PartialEq] of the tokens *)
Definition token_eqb (a b : Token T) : bool :=
  match a, b with
  | Colon, Colon | Comma, Comma | DictStart, DictStart | DictEnd, DictEnd
  | ArrayStart, ArrayStart | ArrayEnd, ArrayEnd | Null, Null => true
  | Integer a, Integer b => a =? b
  | Float a, Float b => float_eq a b
  | Boolean a, Boolean b => Bool.eqb a b
  | String a, String b => bool_decide (a = b)
  | _, _ => false
  end.

(** [assert]; the expected token is named in the message. *)
Definition assert (token : Token T) (name : string) (t : Token T) : M () :=
  if token_eqb t token then mret () else token_error "" name.
End expect.

(** *** [Ignore], object keys and skipped values *)

Definition Ignore : Type := unit.
#[local] Instance parse_ignore : JsonObjectParser Ignore := λ p,
  match skip_string p with
  | (true, p) => Ret () p
  | (false, p) => Throw (error_unterminated p) p
  end.

(** The loop of [next_dict_key]; every token takes a character. *)
Fixpoint dict_key_loop (T : Type) `{JsonObjectParser T, EqDecision T} (fuel : nat) : M (option T) := λ p,
  match next_token T p with
  | Ret (String k) p => ((next_token T ≫= assert Colon ":") ≫= λ _, mret (Some k)) p
  | Ret Comma p =>
      match fuel with O => Diverged | S fuel => dict_key_loop T fuel p end
  | Ret DictEnd p => Ret None p
  | Ret _ p => Throw (Request (ExpectedProperty (pos p))) p
  | Throw e p => Throw e p
  | Panic => Panic
  | Diverged => Diverged
  end.
Definition next_dict_key (T : Type) `{JsonObjectParser T, EqDecision T} : M (option T) := λ p,
  dict_key_loop T (S (length (iter p))) p.

Fixpoint skip_token_loop (fuel : nat) (start_depth_array start_depth_dict : Z) : M () := λ p,
  match next_token Ignore p with
  | Ret _ p =>
      if negb (start_depth_array =? depth_array p) || negb (start_depth_dict =? depth_dict p) then
        match fuel with
        | O => Diverged
        | S fuel => skip_token_loop fuel start_depth_array start_depth_dict p
        end
      else Ret () p
  | Throw e p => Throw e p
  | Panic => Panic
  | Diverged => Diverged
  end.
Definition skip_token (start_depth_array start_depth_dict : Z) : M () := λ p,
  skip_token_loop (S (length (iter p))) start_depth_array start_depth_dict p.
End tokens.
#[export] Existing Instance parse_ignore.
Arguments Colon {_ _}.
Arguments Comma {_ _}.
Arguments DictStart {_ _}.
Arguments DictEnd {_ _}.
Arguments ArrayStart {_ _}.
Arguments ArrayEnd {_ _}.
Arguments Integer {_ _} _.
Arguments Float {_ _} _.
Arguments Boolean {_ _} _.
Arguments String {_ _} _.
Arguments Null {_ _}.

(** *** [while let Some(ch) = parser.next_unescaped()?] *)

Inductive flow (S R : Type) :=
  | Continue (s : S)
  | Break (s : S)
  | Return (r : M R).
Arguments Continue {_ _} _.
Arguments Break {_ _} _.
Arguments Return {_ _} _.

Fixpoint while_loop {St R} (fuel : nat) (body : St → Z → flow St R) (after : St → M R) (s : St) : M R :=
  λ p,
  match next_unescaped p with
  | Ret None p => after s p
  | Ret (Some ch) p =>
      match body s ch with
      | Continue s =>
          match fuel with O => Diverged | S fuel => while_loop fuel body after s p end
      | Break s => after s p
      | Return r => r p
      end
  | Throw e p => Throw e p
  | Panic => Panic
  | Diverged => Diverged
  end.

(** Every turn takes a character. *)
Definition while_unescaped {St R} (body : St → Z → flow St R) (after : St → M R) (s : St) : M R := λ p,
  while_loop (S (length (iter p))) body after s p.

(** *** The parsers of [impls.rs] *)

(** [(ch as uN) << shift] *)
Definition hash_step (width : Z) (hash shift ch : Z) : Z :=
  Z.lor hash (wrap width (Z.shiftl ch shift)).

Record u64 := U64 { u64_value : Z }.
Record u128 := U128 { u128_value : Z }.

Definition parse_hash (width : Z) : M Z :=
  while_unescaped
    (λ '(hash, shift) ch,
      if shift <? width then Continue (hash_step width hash shift ch, shift + 8)
      else Break (0, shift))
    (λ '(hash, _), mret hash) (0, 0).
#[export] Instance parse_u64 : JsonObjectParser u64 := U64 <$> parse_hash 64.
#[export] Instance parse_u128 : JsonObjectParser u128 := U128 <$> parse_hash 128.

(** [u32::from_str_radix(_, 16)] on the four characters of an escape. *)
Definition hex_digit (ch : Z) : option Z :=
  if is_digit ch then Some (ch - 48)
  else if (97 <=? ch) && (ch <=? 102) then Some (ch - 87)
  else if (65 <=? ch) && (ch <=? 70) then Some (ch - 55)
  else None.
Fixpoint hex_digits (acc : Z) (l : list Z) : option Z :=
  match l with
  | [] => Some acc
  | ch :: l => d ← hex_digit ch; hex_digits (acc * 16 + d) l
  end.
Definition from_hex (l : list Z) : option Z :=
  match l with
  | [] => None
  | ch :: l => if ch =? 43 then match l with [] => None | _ => hex_digits 0 l end else hex_digits 0 (ch :: l)
  end.

(** The four characters of [\u]: taken from the iterator one by one, the
    position is moved after the last. *)
Definition unicode_escape : M (list Z) := λ p,
  match iter p with
  | a :: b :: c :: d :: it =>
      let code := [a; b; c; d] in
      let p := set_iter p it (pos p + 4) in
      if negb (Utf8.from_utf8 code) then Throw (error_utf8 p) p
      else match from_hex code with
           | None => Throw (Request (InvalidUnicode code (pos p))) p
           | Some n =>
               match Utf8.from_u32 n with
               | None => Throw (Request (InvalidUnicode code (pos p))) p
               | Some ch => Ret (Utf8.encode_utf8 ch) p
               end
           end
  | _ =>
      let p := set_iter p [] (pos p) in Throw (error "Incomplete unicode sequence" p) p
  end.

Definition simple_escape (ch : Z) : Z :=
  if ch =? 110 then 10 else if ch =? 116 then 9 else if ch =? 114 then 13
  else if ch =? 98 then 8 else if ch =? 102 then 12 else ch.

(** The loop after the first backslash. *)
Fixpoint escaped_loop (fuel : nat) (is_escaped : bool) (buf : list Z) : M (list Z) := λ p,
  let next is_escaped buf p :=
    match fuel with O => Diverged | S fuel => escaped_loop fuel is_escaped buf p end in
  match next_char p with
  | (None, p) => Throw (error_unterminated p) p
  | (Some ch, p) =>
      if (ch =? BACKSLASH) && negb is_escaped then next true buf p
      else if (ch =? QUOTE) && negb is_escaped then
        let p := set_eof p in
        if Utf8.from_utf8 buf then Ret buf p else Throw (error_utf8 p) p
      else if negb is_escaped then next is_escaped (buf ++ [ch]) p
      else if ch =? 117 then
        match unicode_escape p with
        | Ret utf8 p => next false (buf ++ utf8) p
        | Throw e p => Throw e p
        | Panic => Panic
        | Diverged => Diverged
        end
      else next false (buf ++ [simple_escape ch]) p
  end.

(** The loop before it; [start_pos] is where the string starts. *)
Fixpoint plain_loop (fuel : nat) (start_pos : Z) : M (list Z) := λ p,
  match next_char p with
  | (None, p) => Throw (error_unterminated p) p
  | (Some ch, p) =>
      if ch =? BACKSLASH then
        match slice (bytes p) start_pos (before p) with
        | Some buf => escaped_loop (S (length (iter p))) true buf p
        | None => Panic
        end
      else if ch =? QUOTE then
        let p := set_eof p in
        let text := default [] (slice (bytes p) start_pos (before p)) in
        if Utf8.from_utf8 text then Ret text p else Throw (error_utf8 p) p
      else match fuel with O => Diverged | S fuel => plain_loop fuel start_pos p end
  end.

(** [String] as its bytes. *)
#[export] Instance parse_string : JsonObjectParser (list Z) := λ p,
  plain_loop (S (length (iter p))) (pos p) p.

Section containers.
Context `{FastFloat}.

(** The loop over the items of an array. *)
Fixpoint array_loop (T : Type) `{JsonObjectParser T} {A} (push : A → T → A) (expected : string)
    (fuel : nat) (acc : A) : M A := λ p,
  let next acc p :=
    match fuel with O => Diverged | S fuel => array_loop T push expected fuel acc p end in
  match next_token T p with
  | Ret (String item) p => next (push acc item) p
  | Ret Comma p => next acc p
  | Ret ArrayEnd p => Ret acc p
  | Ret _ p => Throw (Method (InvalidArgument "" expected)) p
  | Throw e p => Throw e p
  | Panic => Panic
  | Diverged => Diverged
  end.
Definition array_items (T : Type) `{JsonObjectParser T} {A} (push : A → T → A) (expected : string)
    (acc : A) : M A := λ p, array_loop T push expected (S (length (iter p))) acc p.

Definition vec_push {T} (l : list T) (x : T) : list T := l ++ [x].

(** [Vec<T>] *)
Definition parse_vec (T : Type) `{JsonObjectParser T} : M (list T) :=
  t ← next_token Ignore; _ ← assert ArrayStart "[" t; array_items T vec_push "[ or string" [].

(** [Option<Vec<T>>] *)
Definition parse_opt_vec (T : Type) `{JsonObjectParser T} : M (option (list T)) :=
  t ← next_token Ignore;
  match t with
  | ArrayStart => Some <$> array_items T vec_push "string" []
  | Null => mret None
  | _ => token_error "" "array or null"
  end.

(** [Bitmap<T>] *)
Definition parse_bitmap (T : Type) `{JsonObjectParser T, Bitmap.BitmapItem T} : M Bitmap.Bitmap :=
  t ← next_token Ignore;
  match t with
  | ArrayStart => array_items T Bitmap.insert "string" Bitmap.new
  | Null => mret Bitmap.new
  | _ => token_error "" "array or null"
  end.

(** The loop over the keys of an object. *)
Fixpoint dict_loop (K V : Type) `{JsonObjectParser K, EqDecision K, JsonObjectParser V}
    (fuel : nat) (map : VecMap.VecMap K V) : M (VecMap.VecMap K V) := λ p,
  match next_dict_key K p with
  | Ret (Some key) p =>
      match parse p with
      | Ret value p =>
          match fuel with
          | O => Diverged
          | S fuel => dict_loop K V fuel (VecMap.append map key value) p
          end
      | Throw e p => Throw e p
      | Panic => Panic
      | Diverged => Diverged
      end
  | Ret None p => Ret map p
  | Throw e p => Throw e p
  | Panic => Panic
  | Diverged => Diverged
  end.
Definition dict_items (K V : Type) `{JsonObjectParser K, EqDecision K, JsonObjectParser V} :
    M (VecMap.VecMap K V) := λ p, dict_loop K V (S (length (iter p))) VecMap.new p.

(** [VecMap<K, V>] *)
Definition parse_vec_map (K V : Type) `{JsonObjectParser K, EqDecision K, JsonObjectParser V} :
    M (VecMap.VecMap K V) :=
  t ← next_token Ignore; _ ← assert DictStart "{" t; dict_items K V.

(** [Option<VecMap<K, V>>] *)
Definition parse_opt_vec_map (K V : Type) `{JsonObjectParser K, EqDecision K, JsonObjectParser V} :
    M (option (VecMap.VecMap K V)) :=
  t ← next_token Ignore;
  match t with
  | DictStart => Some <$> dict_items K V
  | Null => mret None
  | _ => token_error "" ""
  end.

(** [bool] *)
Definition parse_bool : M bool :=
  t ← next_token Ignore;
  match t with
  | Boolean value => mret value
  | Null => mret false
  | _ => token_error "" ""
  end.
End containers.
End Json.
