(* ===== verification/JsonTheory.v ===== *)
(** * JsonTheory: safety of the JSON tokenizer

    The invariant of the parser, the contract of the parsers of string values
    ([StringParserLaws]) and the proof that a tokenizer built from parsers
    that keep the contract never panics, always ends, keeps the nesting
    depths within the limit and takes at least a character for each token. *)

From stdpp Require Import base gmap sorting strings numbers list.
From S2P Require Import Prelude Utf8 Json.
Import Json.
Open Scope Z_scope.

(** ** The invariant *)

Record wf (p : Parser) : Prop := {
  wf_size : Z.of_nat (length (bytes p)) < 2 ^ 63;
  wf_pos : 0 ≤ pos p ≤ Z.of_nat (length (bytes p));
  wf_iter : iter p = drop (Z.to_nat (pos p)) (bytes p);
  wf_depth : 0 ≤ depth_array p ∧ 0 ≤ depth_dict p ∧ depth_array p + depth_dict p ≤ MAX_NESTED_LEVELS;
  wf_next : next_ch p ∈ [None; Some 44; Some 93; Some 125];
}.

(** What reading characters leaves alone. *)
Record frame (p p' : Parser) : Prop := {
  frame_bytes : bytes p' = bytes p;
  frame_next : next_ch p' = next_ch p;
  frame_marker : pos_marker p' = pos_marker p;
  frame_array : depth_array p' = depth_array p;
  frame_dict : depth_dict p' = depth_dict p;
  frame_ctx : ctx p' = ctx p;
}.

#[global] Instance frame_preorder : PreOrder frame.
Proof.
  split; [by constructor|]. intros p q r [] []. constructor; congruence.
Qed.

(** [p'] is [p] after reading: well formed and not behind it. *)
Definition advances (p p' : Parser) : Prop := wf p' ∧ frame p p' ∧ pos p ≤ pos p'.

Lemma advances_refl p : wf p → advances p p.
Proof. intros. split; [done|]. split; [done|lia]. Qed.
Lemma advances_trans p q r : advances p q → advances q r → advances p r.
Proof. intros (_ & ? & ?) (? & ? & ?). split; [done|]. split; [by etrans|lia]. Qed.

Create HintDb json.
#[export] Hint Resolve advances_refl : json.

(** ** Outcomes *)

(** [Q] of a value, [E] of the state after an error the callers recover from,
    no claim about the state after an error that ends the request, and
    neither a panic nor an endless loop. *)
Definition post {A} (Q : A → Parser → Prop) (E : Parser → Prop) (o : outcome A) : Prop :=
  match o with
  | Ret a p => Q a p
  | Throw (Method _) p => E p
  | Throw (Request _) _ => True
  | Panic | Diverged => False
  end.

Lemma post_mono {A} (Q Q' : A → Parser → Prop) (E E' : Parser → Prop) o :
  post Q E o → (∀ a p, Q a p → Q' a p) → (∀ p, E p → E' p) → post Q' E' o.
Proof. destruct o as [? ?|[?|?] ?| |]; simpl; auto. Qed.

Lemma post_bind {A B} (f : A → M B) (m : M A) (Q : A → Parser → Prop) (Q' : B → Parser → Prop) E p :
  post Q E (m p) → (∀ a p, Q a p → post Q' E (f a p)) → post Q' E ((m ≫= f) p).
Proof. intros Hm Hf. unfold mbind, M_bind. destruct (m p) as [? ?|[?|?] ?| |]; simpl in *; auto. Qed.

Lemma post_fmap {A B} (f : A → B) (m : M A) (Q : B → Parser → Prop) E p :
  post (λ a p, Q (f a) p) E (m p) → post Q E ((f <$> m) p).
Proof. intros Hm. unfold fmap, M_fmap. by destruct (m p) as [? ?|[?|?] ?| |]. Qed.

(** ** Characters *)

Lemma wf_length p : wf p → Z.of_nat (length (iter p)) = Z.of_nat (length (bytes p)) - pos p.
Proof. intros [_ Hp Hi _ _]. rewrite Hi, length_drop. lia. Qed.

Lemma set_iter_wf p ch it :
  wf p → iter p = ch :: it → wf (set_iter p it (pos p + 1)).
Proof.
  intros Hwf Hit. pose proof (wf_length p Hwf) as Hlen. rewrite Hit in Hlen. cbn in Hlen.
  destruct Hwf as [Hs Hp Hi Hd Hn]. constructor; cbn; try done; [lia|].
  replace (Z.to_nat (pos p + 1)) with (Z.to_nat (pos p) + 1)%nat by lia.
  by rewrite <-drop_drop, <-Hi, Hit.
Qed.

Lemma next_char_spec p :
  wf p →
  (iter p = [] ∧ next_char p = (None, set_iter p [] (pos p + 1))) ∨
  ∃ ch it, iter p = ch :: it ∧ next_char p = (Some ch, set_iter p it (pos p + 1)) ∧
    advances p (set_iter p it (pos p + 1)).
Proof.
  intros Hwf. unfold next_char. destruct (iter p) as [|ch it] eqn:Hit; [by left|right].
  exists ch, it. split_and!; [done..|]. split; [by eapply set_iter_wf|]. split; [done|cbn; lia].
Qed.

Lemma set_eof_advances p p' : advances p p' → advances p (set_eof p').
Proof. intros ([] & [] & ?). split; [by constructor|]. split; [by constructor|done]. Qed.
#[export] Hint Resolve set_eof_advances : json.

Lemma next_unescaped_safe p :
  wf p → is_eof p = false →
  post (λ c p', advances p p' ∧ pos p < pos p' ∧ is_eof p' = bool_decide (c = None)) (λ _, False)
    (next_unescaped p).
Proof.
  intros Hwf He. unfold next_unescaped.
  destruct (next_char_spec p Hwf) as [[_ ->]|(ch & it & _ & -> & Ha)]; cbn [is_eof set_iter].
  { by rewrite He. }
  case_match; [cbn; split_and!; [auto with json|lia|done]|].
  case_match; [|cbn; rewrite He; split_and!; [done|lia|done]].
  destruct (next_char_spec _ (proj1 Ha)) as [[_ ->]|(ch' & it' & _ & -> & Ha')]; [done|].
  cbn. rewrite He. split_and!; [by eapply advances_trans|lia|done].
Qed.

Lemma skip_loop_safe last p p' b :
  wf p → skip_loop last (iter p) p = (b, p') →
  b = true → advances p p' ∧ pos p < pos p' ∧ is_eof p' = true.
Proof.
  remember (iter p) as it eqn:Hit. revert last p Hit.
  induction it as [|ch it IH]; intros last p Hit Hwf; cbn [skip_loop]; [by intros [= <- <-]|].
  assert (advances p (set_iter p it (pos p + 1))) as Ha.
  { split; [by eapply set_iter_wf|]. split; [done|cbn; lia]. }
  case_match; [intros [= <- <-] _; cbn; split_and!; [auto with json|lia|done]|].
  intros Hs Hb. destruct (IH ch (set_iter p it (pos p + 1)) eq_refl (proj1 Ha) Hs Hb) as (Ha' & Hp & He).
  cbn in Hp. split_and!; [by eapply advances_trans|lia|done].
Qed.

Lemma eof_or_skip_safe p p' :
  wf p → eof_or_skip p = (true, p') →
  advances p p' ∧ is_eof p' = true ∧ (is_eof p = false → pos p < pos p').
Proof.
  intros Hwf. unfold eof_or_skip. destruct (is_eof p) eqn:He.
  - intros [= <-]. split_and!; [auto with json|done|done].
  - intros Hs. destruct (skip_loop_safe _ _ _ _ Hwf Hs eq_refl) as (? & ? & ?). done.
Qed.

(** The position of a string value: after its first character, the opening
    quote is behind the marker. *)
Definition in_string (p : Parser) : Prop :=
  0 ≤ pos_marker p ≤ pos p ∧ (is_eof p = true → pos_marker p < pos p).

Lemma slice_some l a b : 0 ≤ a ≤ b → b ≤ Z.of_nat (length l) → is_Some (slice l a b).
Proof. intros. unfold slice. rewrite decide_True by lia. eauto. Qed.

Lemma before_spec p : wf p → 0 < pos p → before p = pos p - 1.
Proof. intros [Hs Hp _ _ _] Hpos. unfold before. apply wrap_small. unfold uint_ok. lia. Qed.

Lemma error_value_safe {A} (Q : A → Parser → Prop) p :
  wf p → in_string p →
  post Q (λ p', advances p p' ∧ is_eof p' = true ∧ in_string p') (error_value p).
Proof.
  intros Hwf [Hm He]. unfold error_value. destruct (eof_or_skip p) as [[] p'] eqn:Hs; [|done].
  destruct (eof_or_skip_safe p p' Hwf Hs) as (Ha & He' & Hp). pose proof Ha as (Hwf' & Hf & Hle).
  assert (pos_marker p' < pos p').
  { rewrite (frame_marker _ _ Hf). destruct (is_eof p); [specialize (He eq_refl); lia|].
    specialize (Hp eq_refl). lia. }
  assert (0 ≤ pos_marker p') by (rewrite (frame_marker _ _ Hf); lia).
  destruct (slice_some (bytes p') (pos_marker p') (before p')) as [text ->].
  - rewrite before_spec by (done || lia). lia.
  - rewrite before_spec by (done || lia). pose proof (wf_pos _ Hwf'). lia.
  - cbn. split_and!; [done|done|split; [lia|done]].
Qed.

Lemma in_string_advances p p' :
  in_string p → advances p p' → pos p < pos p' → in_string p'.
Proof. intros [Hm _] (_ & Hf & _) Hp. unfold in_string. rewrite (frame_marker _ _ Hf). lia. Qed.

(** ** The contract of the parsers of string values *)

Definition string_ok {A} (p : Parser) : outcome A → Prop :=
  post (λ _ p', advances p p' ∧ in_string p')
       (λ p', advances p p' ∧ is_eof p' = true ∧ in_string p').

(** Called inside a string, such a parser reads on in the input, leaves the
    rest of the parser alone and reports a bad value with the string read. *)
Class StringParserLaws (T : Type) `{JsonObjectParser T} :=
  parse_safe : ∀ p, wf p → is_eof p = false → in_string p → string_ok p (parse p).

Lemma string_ok_advances {A} p q (o : outcome A) : advances p q → string_ok q o → string_ok p o.
Proof.
  intros Ha Ho. eapply post_mono; [exact Ho|..]; cbn.
  - intros _ r [??]. split; [by eapply advances_trans|done].
  - intros r (? & ? & ?). split_and!; [by eapply advances_trans|done|done].
Qed.

Lemma string_ok_error_value {A} p : wf p → in_string p → string_ok (A := A) p (error_value p).
Proof. apply error_value_safe. Qed.

Lemma string_ok_ret {A} p (a : A) : wf p → in_string p → string_ok p (Ret a p).
Proof. intros. cbn. split; [auto with json|done]. Qed.
#[export] Hint Resolve string_ok_error_value string_ok_ret : json.

(** A loop over the characters of a string, with an invariant of its state. *)
Section while_loop.
Context {St R : Type} (Inv : St → Prop) (body : St → Z → flow St R) (after : St → M R) (p : Parser).
Context (Hafter : ∀ s q, Inv s → wf q → in_string q → advances p q → is_eof q = true →
  string_ok q (after s q)).
Context (Hbody : ∀ s ch q, Inv s → wf q → in_string q → advances p q → is_eof q = false →
  match body s ch with
  | Continue s' => Inv s'
  | Break s' => string_ok q (after s' q)
  | Return r => string_ok q (r q)
  end).

Lemma while_loop_safe fuel s q :
  advances p q → is_eof q = false → in_string q → Inv s → (length (iter q) ≤ fuel)%nat →
  string_ok q (while_loop fuel body after s q).
Proof using Hafter Hbody.
  revert s q. induction fuel as [|fuel IH]; intros s q Ha He Hin Hs Hfuel;
    cbn [while_loop]; pose proof (next_unescaped_safe q (proj1 Ha) He) as Hn;
    (destruct (next_unescaped q) as [c r|[m|m] r| |];
      [|exact I|destruct Hn|destruct Hn|destruct Hn]);
    destruct Hn as (Hqr & Hlt & Heof); pose proof (proj1 Hqr) as Hwf;
    assert (in_string r) as Hinr by (by eapply in_string_advances);
    assert (advances p r) as Hpr by (by eapply advances_trans);
    pose proof (wf_length q (proj1 Ha)); pose proof (wf_length r Hwf); pose proof (wf_pos r Hwf);
    rewrite (frame_bytes _ _ (proj1 (proj2 Hqr))) in *;
    (destruct c as [ch|]; rewrite ?bool_decide_true, ?bool_decide_false in Heof by done;
      [specialize (Hbody s ch r Hs Hwf Hinr Hpr Heof); destruct (body s ch)|]);
    try (eapply string_ok_advances; [exact Hqr|]; by auto).
  - lia.
  - eapply string_ok_advances; [exact Hqr|]. apply IH; try done. lia.
Qed.

Lemma while_safe s :
  wf p → is_eof p = false → in_string p → Inv s → string_ok p (while_unescaped body after s p).
Proof using Hafter Hbody. intros. apply while_loop_safe; auto with json. Qed.
End while_loop.

Lemma parse_hash_safe width p :
  wf p → is_eof p = false → in_string p → string_ok p (parse_hash width p).
Proof.
  intros. apply (while_safe (λ _, True)); try done.
  - intros [] q **. by apply string_ok_ret.
  - intros [hash shift] ch q **. destruct (_ <? _); [done|by apply string_ok_ret].
Qed.

#[export] Instance u64_safe : StringParserLaws u64.
Proof. intros p **. apply post_fmap. by apply parse_hash_safe. Qed.
#[export] Instance u128_safe : StringParserLaws u128.
Proof. intros p **. apply post_fmap. by apply parse_hash_safe. Qed.

#[export] Instance ignore_safe : StringParserLaws Ignore.
Proof.
  intros p Hwf He Hin. unfold parse, parse_ignore.
  pose proof (eof_or_skip_safe p) as Hs. unfold eof_or_skip in Hs. rewrite He in Hs.
  destruct (skip_string p) as [[] p']; [|done].
  destruct (Hs p' Hwf eq_refl) as (Ha & He' & Hp). cbn. split; [done|].
  eapply in_string_advances; eauto.
Qed.

(** ** Strings *)

Lemma skip_chars_wf p n :
  wf p → (n ≤ length (iter p))%nat → advances p (set_iter p (drop n (iter p)) (pos p + Z.of_nat n)).
Proof.
  intros Hwf Hn. pose proof (wf_length p Hwf) as Hlen. destruct Hwf as [Hs Hp Hi Hd Hnx].
  split; [constructor; cbn; try done; [lia|]|split; [done|cbn; lia]].
  rewrite Hi, drop_drop. f_equal. lia.
Qed.

Lemma unicode_escape_safe p :
  wf p → post (λ _ p', advances p p' ∧ is_eof p' = is_eof p) (λ _, False) (unicode_escape p).
Proof.
  intros Hwf. unfold unicode_escape.
  destruct (iter p) as [|a [|b [|c [|d it]]]] eqn:Hit; try done.
  pose proof (skip_chars_wf p 4 Hwf) as Ha. rewrite Hit in Ha. cbn [drop length] in Ha.
  specialize (Ha ltac:(lia)).
  destruct (negb _); [done|]. destruct (from_hex _); [|done]. by destruct (Utf8.from_u32 _).
Qed.

Lemma escaped_loop_safe fuel esc buf p :
  wf p → is_eof p = false → in_string p → (length (iter p) ≤ fuel)%nat →
  string_ok p (escaped_loop fuel esc buf p).
Proof.
  revert esc buf p. induction fuel as [|fuel IH]; intros esc buf p Hwf He Hin Hf; cbn [escaped_loop];
    (destruct (next_char_spec p Hwf) as [[_ ->]|(ch & it & Hit & -> & Ha)]; [done|]);
    set (q := set_iter p it (pos p + 1)) in *; rewrite Hit in Hf; cbn in Hf; [lia|];
    assert (in_string q) as Hq by (eapply in_string_advances; [done|done|cbn; lia]);
    pose proof (proj1 Ha) as Hwq; assert (is_eof q = false) as Heq by done.
  assert (∀ esc buf, string_ok p (escaped_loop fuel esc buf q)) as Hnext.
  { intros. eapply string_ok_advances; [exact Ha|]. apply IH; try done. cbn. lia. }
  case_match; [done|]. case_match.
  { case_match; [|done]. cbn. split; [auto with json|]. split; [apply Hq|].
    intros _. cbn. destruct Hin. lia. }
  case_match; [done|]. case_match; [|done].
  pose proof (unicode_escape_safe q Hwq) as Hu.
  destruct (unicode_escape q) as [u r|[] r| |]; cbn [post] in Hu; try done.
  destruct Hu as [Hr Her]. eapply string_ok_advances; [by eapply advances_trans|].
  pose proof (wf_length q Hwq). pose proof (wf_length r (proj1 Hr)). pose proof (wf_pos r (proj1 Hr)).
  destruct Hr as (Hwr & Hfr & Hle). rewrite (frame_bytes _ _ Hfr) in *.
  apply IH; [done|congruence| |cbn in *; lia].
  destruct Hq as [Hq _]. split; [rewrite (frame_marker _ _ Hfr); lia|congruence].
Qed.

Lemma plain_loop_safe fuel start p :
  wf p → is_eof p = false → in_string p → 0 ≤ start ≤ pos p → (length (iter p) ≤ fuel)%nat →
  string_ok p (plain_loop fuel start p).
Proof.
  revert p. induction fuel as [|fuel IH]; intros p Hwf He Hin Hst Hf; cbn [plain_loop];
    (destruct (next_char_spec p Hwf) as [[_ ->]|(ch & it & Hit & -> & Ha)]; [done|]);
    set (q := set_iter p it (pos p + 1)) in *; rewrite Hit in Hf; cbn in Hf; [lia|];
    assert (in_string q) as Hq by (eapply in_string_advances; [done|done|cbn; lia]);
    pose proof (proj1 Ha) as Hwq; assert (is_eof q = false) as Heq by done.
  case_match.
  - destruct (slice_some (bytes q) start (before q)) as [buf ->].
    + rewrite before_spec; [cbn; lia|done|cbn; lia].
    + rewrite before_spec; [|done|cbn; lia]. pose proof (wf_pos q Hwq). lia.
    + eapply string_ok_advances; [exact Ha|]. apply escaped_loop_safe; try done. lia.
  - case_match; [case_match; [|done]|].
    + cbn. split; [auto with json|]. split; [apply Hq|]. intros _. cbn. destruct Hin. lia.
    + eapply string_ok_advances; [exact Ha|]. apply IH; try done; cbn; lia.
Qed.

#[export] Instance string_safe : StringParserLaws (list Z).
Proof.
  intros p Hwf He Hin. pose proof (wf_pos p Hwf). apply plain_loop_safe; try done; lia.
Qed.

(** ** Tokens *)

(** The characters a parser can still take. *)
Definition measure (p : Parser) : Z :=
  Z.of_nat (length (iter p)) + match next_ch p with Some _ => 1 | None => 0 end.

(** [p'] comes after [p]: the same input, fewer characters left. *)
Definition later (p p' : Parser) : Prop :=
  wf p' ∧ bytes p' = bytes p ∧ ctx p' = ctx p ∧ measure p' < measure p.

Definition same_depth (p p' : Parser) : Prop :=
  depth_array p' = depth_array p ∧ depth_dict p' = depth_dict p.

Section tokens.
Context `{FastFloat}.

(** The effect of a token on the nesting depths. *)
Definition nesting {T} (t : Token T) (p p' : Parser) : Prop :=
  depth_array p' = depth_array p + match t with ArrayStart => 1 | ArrayEnd => -1 | _ => 0 end ∧
  depth_dict p' = depth_dict p + match t with DictStart => 1 | DictEnd => -1 | _ => 0 end.

Definition token_ok {T} (p : Parser) : outcome (Token T) → Prop :=
  post (λ t p', later p p' ∧ nesting t p p') (λ p', later p p' ∧ same_depth p p').

Lemma token_ok_later {T} p q (o : outcome (Token T)) :
  later p q → same_depth p q → token_ok q o → token_ok p o.
Proof.
  intros (Hw & Hb & Hc & Hm) [Ha Hd] Ho. eapply post_mono; [exact Ho|..]; cbn.
  - intros t r [(Hw' & Hb' & Hc' & Hm') [Ha' Hd']]. unfold later, nesting.
    rewrite Ha', Hd', Ha, Hd. split_and!; (done || congruence || lia).
  - intros r [(Hw' & Hb' & Hc' & Hm') [Ha' Hd']]. unfold later, same_depth.
    split_and!; (done || congruence || lia).
Qed.

Lemma set_next_ch_wf p c : wf p → c ∈ [None; Some 44; Some 93; Some 125] → wf (set_next_ch p c).
Proof. intros [] Hc. by constructor. Qed.

Definition number_ok (p : Parser) : outcome number → Prop :=
  post (λ _ p', wf p' ∧ bytes p' = bytes p ∧ ctx p' = ctx p ∧ same_depth p p' ∧
                measure p' ≤ measure p + 1) (λ _, False).

Lemma number_char_stop ch n c :
  number_char ch n = Stop c → c ∈ [None; Some 44; Some 93; Some 125] ∧ is_digit ch || (ch =? 45) || (ch =? 43) = false.
Proof.
  unfold number_char. destruct (ch =? 45); [done|]. destruct (is_digit ch); [done|].
  destruct ((ch =? 44) || (ch =? 93) || (ch =? 125)) eqn:Hd.
  - intros [= <-]. assert (ch = 44 ∨ ch = 93 ∨ ch = 125) as Hc by lia.
    split; [destruct Hc as [-> | [-> | ->] ]; set_solver|cbn; lia].
  - destruct (ch =? 43); [done|]. destruct ((ch =? 46) || (ch =? 101) || (ch =? 69)); [done|]. destruct (is_ws ch); [|done].
    intros [= <-]. split; [set_solver|done].
Qed.

Lemma number_loop_safe fuel ch n p :
  wf p → next_ch p = None → (length (iter p) < fuel)%nat → number_ok p (number_loop fuel ch n p).
Proof.
  revert ch n p. induction fuel as [|fuel IH]; intros ch n p Hwf Hn Hf; [lia|]. cbn [number_loop].
  destruct (number_char ch n) as [n'|c|] eqn:Hc; [| |done].
  - destruct (next_char_spec p Hwf) as [[_ ->]|(ch' & it & Hit & -> & Ha)]; [done|].
    rewrite Hit in Hf. cbn in Hf. eapply post_mono; [apply IH; cbn; try done; [apply Ha|lia]|..]; [|done].
    cbn. intros _ p' (? & ? & ? & ? & Hm). split_and!; try done. revert Hm. unfold measure at 2 4.
    cbn. rewrite Hit, Hn. cbn. lia.
  - apply number_char_stop in Hc as [Hc _]. destruct c as [c|]; cbn.
    + split_and!; try done; [by apply set_next_ch_wf|]. unfold measure. cbn. rewrite Hn. lia.
    + split_and!; try done. lia.
Qed.

Lemma number_start_safe ch n p :
  wf p → next_ch p = None → is_digit ch || (ch =? 45) || (ch =? 43) = true →
  post (λ _ p', wf p' ∧ bytes p' = bytes p ∧ ctx p' = ctx p ∧ same_depth p p' ∧
                measure p' ≤ measure p) (λ _, False)
    (number_loop (S (length (iter p))) ch n p).
Proof.
  intros Hwf Hn Hch. cbn [number_loop]. destruct (number_char ch n) as [n'|c|] eqn:Hc.
  - destruct (next_char_spec p Hwf) as [[_ ->]|(ch' & it & Hit & -> & Ha)]; [done|].
    rewrite Hit. eapply post_mono; [apply number_loop_safe; cbn; try done; [apply Ha|lia]|..]; [|done].
    cbn. intros _ p' (? & ? & ? & ? & Hm). split_and!; try done. revert Hm. unfold measure at 2 4.
    cbn. rewrite Hit, Hn. cbn. lia.
  - apply number_char_stop in Hc as [_ Hc]. congruence.
  - done.
Qed.

Lemma number_token_safe {T} ch p :
  wf p → next_ch p = None → is_digit ch || (ch =? 45) || (ch =? 43) = true →
  post (λ t p', wf p' ∧ bytes p' = bytes p ∧ ctx p' = ctx p ∧ nesting t p p' ∧
                measure p' ≤ measure p) (λ _, False)
    (number_token (T := T) ch p).
Proof.
  intros Hwf Hn Hch. unfold number_token.
  pose proof (number_start_safe ch {| num := 0; is_float := false; is_negative := false |} p Hwf Hn Hch)
    as Hl.
  destruct (number_loop _ _ _ _) as [n p'|[]| |]; cbn in Hl; try done.
  destruct Hl as (? & ? & ? & [? ?] & ?). destruct (negb (is_float n)).
  - cbn. split_and!; try done; unfold nesting; lia.
  - destruct (fast_float_parse _); [|done]. cbn. split_and!; try done; unfold nesting; lia.
Qed.

(** What a token does once its first character, no longer in [p], is taken. *)
Definition step_ok {T} (p : Parser) : outcome (Token T) → Prop :=
  post (λ t p', wf p' ∧ bytes p' = bytes p ∧ ctx p' = ctx p ∧ nesting t p p' ∧ measure p' ≤ measure p)
       (λ p', wf p' ∧ bytes p' = bytes p ∧ ctx p' = ctx p ∧ same_depth p p' ∧ measure p' ≤ measure p).

Lemma advances_measure p p' : wf p → advances p p' → measure p' ≤ measure p.
Proof.
  intros Hwf (Hwf' & Hf & Hle). unfold measure. rewrite !wf_length by done.
  rewrite (frame_bytes _ _ Hf), (frame_next _ _ Hf). lia.
Qed.

Lemma literal_safe {T} rest (t : Token T) p :
  wf p → (∀ p', same_depth p p' → nesting t p p') → step_ok p (literal rest t p).
Proof.
  intros Hwf Ht. unfold literal. destruct (decide _) as [Heq|]; [|done]. cbn.
  assert (length rest ≤ length (iter p))%nat as Hlen.
  { rewrite <-Heq at 1. rewrite length_take. lia. }
  pose proof (skip_chars_wf p _ Hwf Hlen) as Ha.
  split_and!; [apply Ha|done|done|by apply Ht|exact (advances_measure _ _ Hwf Ha)].
Qed.

Lemma start_string_wf p : wf p → wf (start_string p).
Proof. intros []. by constructor. Qed.

Context {T : Type} `{StringParserLaws T}.

Lemma string_token_safe p : wf p → step_ok p (string_token (T := T) p).
Proof.
  intros Hwf. pose proof (start_string_wf p Hwf) as Hws. unfold string_token.
  assert (in_string (start_string p)) as Hin.
  { pose proof (wf_pos p Hwf). split; [cbn; lia|done]. }
  pose proof (parse_safe (start_string p) Hws eq_refl Hin) as Hp.
  destruct (parse (start_string p)) as [v q|[] q| |]; cbn in Hp; try done.
  - destruct Hp as [Ha Hq]. destruct (eof_or_skip q) as [[] r] eqn:Hr; [|done].
    destruct (eof_or_skip_safe q r (proj1 Ha) Hr) as (Hqr & _ & _).
    pose proof (advances_trans _ _ _ Ha Hqr) as Har. cbn.
    pose proof (advances_measure _ _ Hws Har) as Hm. destruct Har as (? & [] & ?).
    split_and!; try done. unfold nesting. cbn in *. lia.
  - destruct Hp as (Ha & _ & _). pose proof (advances_measure _ _ Hws Ha) as Hm.
    destruct Ha as (? & [] & ?). split_and!; done.
Qed.

Lemma set_depth_wf p a d :
  wf p → 0 ≤ a → 0 ≤ d → a + d ≤ MAX_NESTED_LEVELS → wf (set_depth p a d).
Proof. intros [] ???. by constructor. Qed.

Lemma token_step_safe ch p o :
  wf p → (next_ch p = None) → token_step (T := T) ch p = Some o → step_ok p o.
Proof.
  intros Hwf Hn. unfold token_step. pose proof (wf_depth p Hwf) as Hd.
  assert (∀ t : Token T, nesting t p p → step_ok p (Ret t p)) as Hret.
  { intros t Ht. cbn. split_and!; (done || lia || apply Ht). }
  assert (∀ (t : Token T) a d, nesting t p (set_depth p a d) → 0 ≤ a → 0 ≤ d →
    a + d ≤ MAX_NESTED_LEVELS → step_ok p (Ret t (set_depth p a d))) as Hdepth.
  { intros t a d Ht ???. cbn. split_and!; try done; [by apply set_depth_wf|apply Ht..]. }
  destruct (ch =? QUOTE); [intros [= <-]; by apply string_token_safe|].
  destruct (ch =? 44); [intros [= <-]; apply Hret; unfold nesting; lia|].
  destruct (ch =? 58); [intros [= <-]; apply Hret; unfold nesting; lia|].
  destruct (ch =? 91).
  { intros [= <-]. destruct (_ <? _) eqn:Hlt; [|done]. apply Hdepth; unfold nesting; cbn in *; lia. }
  destruct (ch =? 93).
  { intros [= <-]. destruct (negb _) eqn:Hlt; [|done]. apply Hdepth; unfold nesting; cbn in *; lia. }
  destruct (ch =? 123).
  { intros [= <-]. destruct (_ <? _) eqn:Hlt; [|done]. apply Hdepth; unfold nesting; cbn in *; lia. }
  destruct (ch =? 125).
  { intros [= <-]. destruct (negb _) eqn:Hlt; [|done]. apply Hdepth; unfold nesting; cbn in *; lia. }
  destruct (is_digit ch || (ch =? 45) || (ch =? 43)) eqn:Hch.
  { intros [= <-]. eapply post_mono; [by apply number_token_safe|done|done]. }
  do 3 (case_match; [intros [= <-]; apply literal_safe; [done|unfold nesting, same_depth; lia]|]).
  case_match; [done|]. by intros [= <-].
Qed.

Lemma token_loop_safe fuel c p q :
  wf p → next_ch p = None → (length (iter p) < fuel)%nat →
  bytes p = bytes q → ctx p = ctx q → same_depth q p → measure p < measure q →
  token_ok q (token_loop (T := T) fuel c p).
Proof.
  revert c p. induction fuel as [|fuel IH]; intros c p Hwf Hn Hf Hb Hc Hd Hm; [lia|]. cbn [token_loop].
  destruct c as [ch|]; [|done]. destruct (token_step ch p) as [o|] eqn:Hs.
  - pose proof (token_step_safe ch p o Hwf Hn Hs) as Ho.
    destruct Hd as [Hda Hdd]. eapply post_mono; [exact Ho|..]; cbn.
    + intros t r (? & ? & ? & [Hna Hnd] & ?). unfold later, nesting.
      rewrite Hna, Hnd, Hda, Hdd. split_and!; (done || congruence || lia).
    + intros r (? & ? & ? & [? ?] & ?). unfold later, same_depth. split_and!; (done || congruence || lia).
  - destruct (next_char_spec p Hwf) as [[Hi ->]|(ch' & it & Hit & -> & Ha)].
    { by destruct fuel. }
    rewrite Hit in Hf. cbn in Hf. apply IH; try done; [apply Ha|cbn; lia|].
    pose proof (advances_measure _ _ Hwf Ha). lia.
Qed.

Lemma next_token_ok p : wf p → token_ok p (next_token T p).
Proof.
  intros Hwf. unfold next_token. destruct (next_ch p) as [ch|] eqn:Hn.
  - apply token_loop_safe; try done; [apply set_next_ch_wf; [done|set_solver]|cbn; lia|].
    unfold measure. cbn. rewrite Hn. lia.
  - destruct (next_char_spec p Hwf) as [[Hi ->]|(ch & it & Hit & -> & Ha)]; [done|].
    apply token_loop_safe; try done; [apply Ha|lia|].
    unfold measure. cbn. rewrite Hn, Hit. cbn. lia.
Qed.
End tokens.

(** ** Keys and skipped values *)

Section loops.
Context `{FastFloat}.

Lemma later_trans p q r : later p q → later q r → later p r.
Proof. intros (? & ? & ? & ?) (? & ? & ? & ?). unfold later. split_and!; (done || congruence || lia). Qed.

Definition call_ok {A} (p : Parser) (Q : A → Parser → Prop) : outcome A → Prop :=
  post (λ a p', later p p' ∧ Q a p') (later p).

Lemma skip_token_loop_safe fuel a d p :
  wf p → measure p ≤ Z.of_nat fuel →
  call_ok p (λ _ p', depth_array p' = a ∧ depth_dict p' = d) (skip_token_loop fuel a d p).
Proof.
  revert p. induction fuel as [|fuel IH]; intros p Hwf Hm; cbn [skip_token_loop];
    pose proof (next_token_ok (T := Ignore) p Hwf) as Ht;
    destruct (next_token Ignore p) as [t q|[] q| |]; cbn [token_ok post] in Ht; try done.
  - destruct Ht as [(_ & _ & _ & ?) _]. assert (0 ≤ measure q) by (unfold measure; case_match; lia). lia.
  - destruct Ht as [(_ & _ & _ & ?) _]. assert (0 ≤ measure q) by (unfold measure; case_match; lia). lia.
  - destruct Ht as [Hl _]. case_match eqn:Hd.
    + eapply post_mono; [apply IH; [apply Hl|destruct Hl as (_ & _ & _ & ?); lia]|..]; cbn.
      * intros _ r [? ?]. split; [by eapply later_trans|done].
      * intros r ?. by eapply later_trans.
    + cbn. split; [done|]. lia.
  - by destruct Ht.
Qed.

Lemma measure_fuel p : measure p ≤ Z.of_nat (S (length (iter p))).
Proof. unfold measure. case_match; lia. Qed.

(** Skipping a value from any state: it ends, without a panic, and on success
    at the nesting depth it was given. *)
Lemma skip_token_safe a d p :
  wf p → call_ok p (λ _ p', depth_array p' = a ∧ depth_dict p' = d) (skip_token a d p).
Proof. intros. apply skip_token_loop_safe; [done|apply measure_fuel]. Qed.

Context {T : Type} `{StringParserLaws T, EqDecision T}.

Lemma dict_key_loop_safe fuel p :
  wf p → measure p ≤ Z.of_nat fuel →
  call_ok p (λ k p', depth_array p' = depth_array p ∧
    depth_dict p' = depth_dict p - match k with Some _ => 0 | None => 1 end) (dict_key_loop T fuel p).
Proof.
  revert p. induction fuel as [|fuel IH]; intros p Hwf Hm; cbn [dict_key_loop];
    pose proof (next_token_ok (T := T) p Hwf) as Ht;
    destruct (next_token T p) as [t q|[] q| |]; cbn [token_ok post] in Ht; try done.
  1,2: destruct Ht as [(_ & _ & _ & ?) _]; assert (0 ≤ measure q) by (unfold measure; case_match; lia); lia.
  - destruct Ht as [Hl [Ha Hd]]. destruct t as [| | | | | | | | |k|]; try done.
    + eapply post_mono; [apply IH; [apply Hl|destruct Hl as (_ & _ & _ & ?); lia]|..]; cbn.
      * intros k r [? [Ha' Hd']]. split; [by eapply later_trans|]. rewrite Ha', Hd', Ha, Hd.
        case_match; lia.
      * intros r ?. by eapply later_trans.
    + cbn. split; [done|]. lia.
    + eapply post_bind.
      * eapply (post_bind _ _ (λ t r, later p r ∧ nesting t q r)).
        { eapply post_mono; [apply next_token_ok, Hl|..]; cbn.
          - intros t r [? ?]. split; [by eapply later_trans|done].
          - intros r [? _]. by eapply later_trans. }
        intros t r [Hr Hn]. unfold assert, token_error, throw.
        destruct (token_eqb t Colon) eqn:Ht; [|done].
        assert (t = Colon) as -> by (by destruct t).
        exact (conj Hr Hn : (λ (_ : ()) r, later p r ∧ nesting (T := T) Colon q r) () r).
      * cbn. intros _ r [Hr [Hna Hnd]]. split; [done|]. rewrite Hna, Hnd, Ha, Hd. lia.
  - by destruct Ht.
Qed.

Lemma next_dict_key_safe p :
  wf p →
  call_ok p (λ k p', depth_array p' = depth_array p ∧
    depth_dict p' = depth_dict p - match k with Some _ => 0 | None => 1 end) (next_dict_key T p).
Proof. intros. apply dict_key_loop_safe; [done|apply measure_fuel]. Qed.

(** Reading a token or an object key: no panic, no endless loop, the
    invariant, the nesting moved by the token's own brackets, and a character
    less to read. *)
Definition reads_safely (p : Parser) : Prop :=
  post (λ t p', later p p' ∧ nesting t p p') (λ p', later p p' ∧ same_depth p p') (next_token T p) ∧
  post (λ k p', later p p' ∧ depth_array p' = depth_array p ∧
          depth_dict p' = depth_dict p - match k with Some _ => 0 | None => 1 end)
    (later p) (next_dict_key T p).
Lemma tokens_safe p : wf p → reads_safely p.
Proof. intros Hwf. split; [by apply next_token_ok|by apply next_dict_key_safe]. Qed.
End loops.
Arguments reads_safely {_} _ {_ _} _.

(** Numbers with a fraction as their texts, a parser of floats for examples. *)
Definition text_float : FastFloat := {|
  f64 := list Z;
  fast_float_parse := Some;
  float_eq := λ a b, bool_decide (a = b);
  float_ge_zero := λ _, true;
  float_as_u64 := λ _, 0;
  float_as_i64 := λ _, 0;
  float_as_i32 := λ _, 0;
|}.

Lemma new_wf bs : Z.of_nat (length bs) < 2 ^ 63 → wf (new bs).
Proof. intros. constructor; cbn; try done; [lia|set_solver]. Qed.

