(* ===== verification/JsonPrint.v ===== *)
(** * JsonPrint: the tokenizer reads back JSON texts

    The texts of a sequence of tokens: strings with the escapes of JSON,
    integers in decimal, numbers with a fraction or an exponent, white space
    anywhere between the tokens or nowhere.  The tokenizer of [Json] returns
    the tokens of every such text whose nesting is balanced and within the
    limit. *)

From stdpp Require Import base gmap sorting strings numbers list.
From S2P Require Import Prelude Utf8 Json JsonTheory.
Import Json.
Open Scope Z_scope.

Section print.
Context `{FastFloat}.

(** ** The printer *)

Definition hex_char (d : Z) : Z := if d <? 10 then 48 + d else 87 + d.

(** A character of a string: the short escapes of JSON, [\u00XX] for the other
    control characters, and itself otherwise. *)
Definition esc (c : Z) : list Z :=
  if (c =? QUOTE) || (c =? BACKSLASH) then [BACKSLASH; c]
  else if c =? 10 then [BACKSLASH; 110]
  else if c =? 9 then [BACKSLASH; 116]
  else if c =? 13 then [BACKSLASH; 114]
  else if c =? 8 then [BACKSLASH; 98]
  else if c =? 12 then [BACKSLASH; 102]
  else if c <? 32 then [BACKSLASH; 117; 48; 48; hex_char (c / 16); hex_char (c `mod` 16)]
  else [c].

Definition quote (s : list Z) : list Z := [QUOTE] ++ (s ≫= esc) ++ [QUOTE].

Fixpoint digits (fuel : nat) (z : Z) : list Z :=
  match fuel with
  | O => []
  | S fuel => if z <? 10 then [48 + z] else digits fuel (z / 10) ++ [48 + z `mod` 10]
  end.
Definition decimal (z : Z) : list Z := if z <? 0 then 45 :: digits 20 (- z) else digits 20 z.

(** The text of a token that is not a number. *)
Definition print_token (t : Token (list Z)) : list Z :=
  match t with
  | Colon => [58]
  | Comma => [44]
  | DictStart => [123]
  | DictEnd => [125]
  | ArrayStart => [91]
  | ArrayEnd => [93]
  | Integer _ | Float _ => []
  | Boolean true => str_bytes "true"
  | Boolean false => str_bytes "false"
  | String s => quote s
  | Null => str_bytes "null"
  end.

Definition valid_string (s : list Z) : Prop := bytes_ok s ∧ Utf8.from_utf8 s = true.

(** The characters of numbers; those that make a number a float; those a
    number ends at. *)
Definition float_mark (ch : Z) : bool := (ch =? 46) || (ch =? 101) || (ch =? 69).
Definition number_start (ch : Z) : bool := is_digit ch || (ch =? 45) || (ch =? 43).
Definition number_part (ch : Z) : bool := number_start ch || float_mark ch.
Definition delimiter (ch : Z) : bool := (ch =? 44) || (ch =? 93) || (ch =? 125).
Definition ends_number (text : list Z) : Prop :=
  ∃ ch rest, text = ch :: rest ∧ is_ws ch || delimiter ch = true.

(** [l] is a text of the token, with a condition on the strings. *)
Definition token_text (ok : list Z → Prop) (t : Token (list Z)) (l : list Z) : Prop :=
  match t with
  | Integer i => Z.abs i ≤ I64_MAX ∧ l = decimal i
  | Float r =>
      (∃ ch cs, l = ch :: cs ∧ number_start ch = true ∧ Forall (λ c, number_part c = true) cs) ∧
      Exists (λ c, float_mark c = true) l ∧ fast_float_parse l = Some r
  | String s => ok s ∧ l = quote s
  | _ => l = print_token t
  end.
Definition is_number (t : Token (list Z)) : bool :=
  match t with Integer _ | Float _ => true | _ => false end.

(** [text] is a text of the tokens followed by [rest]: white space may come
    before a token and before [rest]; a number is followed by white space, a
    comma or a closing bracket. *)
Inductive spelled (ok : list Z → Prop) (rest : list Z) : list (Token (list Z)) → list Z → Prop :=
  | spelled_end ws : Forall (λ c, is_ws c = true) ws → spelled ok rest [] (ws ++ rest)
  | spelled_token ws t l ts text :
      Forall (λ c, is_ws c = true) ws → token_text ok t l → (is_number t = true → ends_number text) →
      spelled ok rest ts text → spelled ok rest (t :: ts) (ws ++ l ++ text).
(** What follows does not start with white space. *)
Definition starts_dark (text : list Z) : Prop := ∀ ch r, text = ch :: r → is_ws ch = false.

(** The token of another string type. *)
Definition token_map {T} (f : list Z → T) (t : Token (list Z)) : Token T :=
  match t with
  | Colon => Colon | Comma => Comma | DictStart => DictStart | DictEnd => DictEnd
  | ArrayStart => ArrayStart | ArrayEnd => ArrayEnd
  | Integer i => Integer i | Float f => Float f | Boolean b => Boolean b
  | String s => String (f s) | Null => Null
  end.

(** Nesting that stays within the limit and closes only what is open. *)
Fixpoint nested (a d : Z) (ts : list (Token (list Z))) : Prop :=
  match ts with
  | [] => True
  | ArrayStart :: ts => a + d < MAX_NESTED_LEVELS ∧ nested (a + 1) d ts
  | ArrayEnd :: ts => 0 < a ∧ nested (a - 1) d ts
  | DictStart :: ts => a + d < MAX_NESTED_LEVELS ∧ nested a (d + 1) ts
  | DictEnd :: ts => 0 < d ∧ nested a (d - 1) ts
  | _ :: ts => nested a d ts
  end.

(** All the tokens of a parser, to the first error. *)
Fixpoint read_tokens (fuel : nat) (p : Parser) : list (Token (list Z)) * option Error :=
  match fuel with
  | O => ([], None)
  | S fuel =>
      match next_token (list Z) p with
      | Ret t p => let '(ts, e) := read_tokens fuel p in (t :: ts, e)
      | Throw e _ => ([], Some e)
      | Panic | Diverged => ([], None)
      end
  end.

(** ** Strings *)

(** What the string parser does with each escape of the printer. *)
Definition esc_read (c : Z) : bool :=
  match esc c with
  | [x] => (x =? c) && negb (c =? QUOTE) && negb (c =? BACKSLASH)
  | [b; e] => (b =? BACKSLASH) && negb (e =? 117) && (simple_escape e =? c)
  | [b; u; w; x; y; z] =>
      (b =? BACKSLASH) && (u =? 117) && Utf8.from_utf8 [w; x; y; z] &&
      bool_decide (from_hex [w; x; y; z] = Some c ∧ Utf8.from_u32 c = Some c ∧ Utf8.encode_utf8 c = [c])
  | _ => false
  end.

Lemma esc_cases c :
  uint_ok 8 c →
  (esc c = [c] ∧ c ≠ QUOTE ∧ c ≠ BACKSLASH) ∨
  (∃ e, esc c = [BACKSLASH; e] ∧ e ≠ 117 ∧ simple_escape e = c) ∨
  (∃ w x y z, esc c = [BACKSLASH; 117; w; x; y; z] ∧ Utf8.from_utf8 [w; x; y; z] = true ∧
     from_hex [w; x; y; z] = Some c ∧ Utf8.from_u32 c = Some c ∧ Utf8.encode_utf8 c = [c]).
Proof.
  intros Hc. pose proof (byte_forallb esc_read ltac:(vm_compute; reflexivity) c Hc) as Hr.
  unfold esc_read in Hr. destruct (esc c) as [|b [|u [|w [|x [|y [|z [|? ?]]]]]]]; try done.
  - left. repeat (apply andb_true_iff in Hr as [Hr ?]). split_and!; [f_equal|..]; lia.
  - right; left. repeat (apply andb_true_iff in Hr as [Hr ?]). exists u. split_and!; [f_equal|..]; lia.
  - right; right. apply andb_true_iff in Hr as [Hr (? & ? & ?)%bool_decide_eq_true].
    repeat (apply andb_true_iff in Hr as [Hr ?]). exists w, x, y, z.
    split_and!; try done. repeat f_equal; lia.
Qed.

(** The state after the characters [l]. *)
Definition ahead (p : Parser) (l rest : list Z) : Parser := set_iter p rest (pos p + Z.of_nat (length l)).

Lemma ahead_wf p l rest : wf p → iter p = l ++ rest → wf (ahead p l rest).
Proof.
  intros Hwf Hi. pose proof (skip_chars_wf p (length l) Hwf) as Ha.
  rewrite Hi, drop_app_length in Ha. apply Ha. rewrite length_app. lia.
Qed.

Lemma ahead_ahead p l l' rest rest' : ahead (ahead p l rest) l' rest' = ahead p (l ++ l') rest'.
Proof. unfold ahead, set_iter. cbn. f_equal. rewrite length_app. lia. Qed.

Lemma next_char_ahead p ch rest : iter p = ch :: rest → next_char p = (Some ch, ahead p [ch] rest).
Proof. unfold next_char, ahead. intros ->. done. Qed.

Lemma app_snoc {A} (l : list A) x k : l ++ x :: k = (l ++ [x]) ++ k.
Proof. by rewrite <-app_assoc. Qed.

(** The rest of an escape, after its backslash. *)
Lemma escaped_loop_escape fuel c e buf p rest :
  uint_ok 8 c → esc c = BACKSLASH :: e → iter p = e ++ rest → (length (iter p) ≤ fuel)%nat →
  ∃ fuel', (length rest ≤ fuel')%nat ∧
    escaped_loop fuel true buf p = escaped_loop fuel' false (buf ++ [c]) (ahead p e rest).
Proof.
  intros Hc He Hi Hf.
  destruct (esc_cases c Hc) as [(He' & Hq & Hb)|[(x & He' & Hx & Hs)|(w & x & y & z & He' & Hu & Hh & H32 & Hutf)]].
  - rewrite He in He'. congruence.
  - rewrite He in He'. injection He' as ->. cbn [app] in Hi. rewrite Hi in Hf. cbn in Hf.
    destruct fuel as [|fuel]; [lia|]. exists fuel. split; [lia|]. cbn [escaped_loop].
    rewrite (next_char_ahead _ _ _ Hi), !andb_false_r. cbn [negb].
    destruct (Z.eqb_spec x 117); [lia|]. by rewrite Hs.
  - rewrite He in He'. injection He' as ->. cbn [app] in Hi. rewrite Hi in Hf. cbn in Hf.
    destruct fuel as [|fuel]; [lia|]. exists fuel. split; [lia|]. cbn [escaped_loop].
    rewrite (next_char_ahead _ _ _ Hi), !andb_false_r. cbn [negb Z.eqb Pos.eqb].
    unfold unicode_escape. cbn [iter ahead set_iter]. rewrite Hu, Hh, H32, Hutf. cbn [negb].
    f_equal. unfold ahead, set_iter. cbn. f_equal. lia.
Qed.

Lemma escaped_loop_print fuel s buf p rest :
  bytes_ok s → iter p = (s ≫= esc) ++ QUOTE :: rest → (length (iter p) ≤ fuel)%nat →
  Utf8.from_utf8 (buf ++ s) = true →
  escaped_loop fuel false buf p = Ret (buf ++ s) (set_eof (ahead p ((s ≫= esc) ++ [QUOTE]) rest)).
Proof.
  revert fuel buf p. induction s as [|c s IH]; intros fuel buf p Hs Hi Hf Hu.
  { cbn in Hi. rewrite Hi in Hf. destruct fuel as [|fuel]; [cbn in Hf; lia|]. cbn [escaped_loop].
    rewrite (next_char_ahead _ _ _ Hi). cbn [andb Z.eqb negb QUOTE BACKSLASH Pos.eqb].
    rewrite app_nil_r in *. by rewrite Hu. }
  inversion Hs as [|? ? Hc Hs']; subst. rewrite bind_cons, <-app_assoc in Hi.
  rewrite (app_snoc buf c s) in Hu |- *.
  assert (∀ fuel' q e, esc c = e → q = ahead p e ((s ≫= esc) ++ QUOTE :: rest) →
    (length ((s ≫= esc) ++ QUOTE :: rest) ≤ fuel')%nat →
    escaped_loop fuel' false (buf ++ [c]) q
    = Ret ((buf ++ [c]) ++ s) (set_eof (ahead p (((c :: s) ≫= esc) ++ [QUOTE]) rest))) as Hnext.
  { intros fuel' q e He -> Hf'. rewrite IH; try done. rewrite bind_cons, ahead_ahead, He.
    by rewrite <-!app_assoc. }
  destruct fuel as [|fuel].
  { rewrite Hi, !length_app in Hf. cbn in Hf. lia. }
  destruct (esc c) as [|b e] eqn:He.
  { unfold esc in He. repeat case_match; done. }
  cbn [app] in Hi. cbn [escaped_loop]. rewrite (next_char_ahead _ _ _ Hi).
  rewrite Hi in Hf. cbn [length] in Hf.
  destruct (Z.eqb_spec b BACKSLASH) as [-> |Hb].
  - cbn [andb negb].
    destruct (escaped_loop_escape fuel c e buf (ahead p [BACKSLASH] (e ++ (s ≫= esc) ++ QUOTE :: rest))
      ((s ≫= esc) ++ QUOTE :: rest)) as (fuel' & Hf' & ->); try done; [cbn; lia|].
    apply (Hnext _ _ (BACKSLASH :: e)); try done. by rewrite ahead_ahead.
  - destruct (esc_cases c Hc) as [(He' & Hq & Hbs)|[(x & He' & _)|(w & x & y & z & He' & _)]];
      rewrite He in He'; [|congruence..].
    injection He' as -> ->. destruct (Z.eqb_spec c QUOTE); [done|]. cbn [andb negb].
    apply (Hnext _ _ [c]); try done. cbn [app] in Hf. lia.
Qed.

Lemma slice_snoc l a n x :
  slice l a n = Some x → ∀ c, l !! Z.to_nat n = Some c → slice l a (n + 1) = Some (x ++ [c]).
Proof.
  unfold slice. intros Hs c Hc. destruct (decide _) as [Hd|]; [|done]. injection Hs as <-.
  pose proof (lookup_lt_Some _ _ _ Hc). rewrite decide_True by lia. f_equal.
  replace (Z.to_nat (n + 1 - a)) with (S (Z.to_nat (n - a))) by lia.
  apply take_S_r. rewrite lookup_drop. rewrite <-Hc. f_equal. lia.
Qed.

Lemma iter_lookup p ch rest : wf p → iter p = ch :: rest → bytes p !! Z.to_nat (pos p) = Some ch.
Proof.
  intros Hwf Hi. rewrite (wf_iter p Hwf) in Hi.
  assert ((drop (Z.to_nat (pos p)) (bytes p)) !! 0%nat = Some ch) as Hl by (by rewrite Hi).
  rewrite lookup_drop in Hl. by rewrite Nat.add_0_r in Hl.
Qed.

Lemma plain_loop_print fuel start s1 s2 p rest :
  wf p → bytes_ok s2 → slice (bytes p) start (pos p) = Some s1 →
  iter p = (s2 ≫= esc) ++ QUOTE :: rest → (length (iter p) ≤ fuel)%nat →
  Utf8.from_utf8 (s1 ++ s2) = true →
  plain_loop fuel start p = Ret (s1 ++ s2) (set_eof (ahead p ((s2 ≫= esc) ++ [QUOTE]) rest)).
Proof.
  revert fuel s1 p. induction s2 as [|c s2 IH]; intros fuel s1 p Hwf Hs Hsl Hi Hf Hu.
  all: destruct fuel as [|fuel]; [rewrite Hi in Hf; rewrite length_app in Hf; cbn in Hf; lia|].
  { cbn in Hi. cbn [plain_loop]. rewrite (next_char_ahead _ _ _ Hi).
    change (QUOTE =? BACKSLASH) with false. change (QUOTE =? QUOTE) with true. cbv iota zeta.
    assert (before (set_eof (ahead p [QUOTE] rest)) = pos p) as Hb.
    { rewrite before_spec; cbn; [lia| |].
      - destruct (set_eof_advances p (ahead p [QUOTE] rest)) as [Hw _]; [|done].
        split; [by apply ahead_wf|]. split; [done|cbn; lia].
      - pose proof (wf_pos p Hwf). lia. }
    rewrite Hb. cbn [bytes ahead set_iter set_eof]. rewrite Hsl. change (default [] (Some s1)) with s1.
    rewrite app_nil_r in *. by rewrite Hu. }
  inversion Hs as [|? ? Hc Hs']; subst. rewrite bind_cons, <-app_assoc in Hi.
  destruct (esc c) as [|b e] eqn:He; [unfold esc in He; repeat case_match; done|].
  cbn [app] in Hi. cbn [plain_loop]. rewrite (next_char_ahead _ _ _ Hi).
  set (tail := (s2 ≫= esc) ++ QUOTE :: rest) in *. rewrite Hi in Hf. cbn [app length] in Hf.
  pose proof (ahead_wf p [b] (e ++ tail) Hwf Hi) as Hwq.
  assert (before (ahead p [b] (e ++ tail)) = pos p) as Hb.
  { rewrite before_spec; [cbn; lia|done|]. cbn. pose proof (wf_pos p Hwf). lia. }
  destruct (Z.eqb_spec b BACKSLASH) as [-> |Hbs].
  - rewrite Hb. cbn [bytes ahead set_iter]. rewrite Hsl.
    destruct (escaped_loop_escape (S (length (iter (ahead p [BACKSLASH] (e ++ tail))))) c e s1
      (ahead p [BACKSLASH] (e ++ tail)) tail) as (fuel' & Hf' & Heq); try done; [cbn; lia|].
    unfold ahead in Heq at 1. cbn [iter set_iter] in Heq |- *. cbn [app] in Heq.
    etrans; [exact Heq|]. rewrite ahead_ahead. rewrite (app_snoc s1 c s2) in Hu |- *.
    rewrite (escaped_loop_print fuel' s2 (s1 ++ [c]) _ rest); try done.
    rewrite ahead_ahead, bind_cons, He. by rewrite <-!app_assoc.
  - destruct (esc_cases c Hc) as [(He' & Hq & _)|[(x & He' & _)|(w & x & y & z & He' & _)]];
      rewrite He in He'; [|congruence..].
    injection He' as -> ->. destruct (Z.eqb_spec c QUOTE); [done|].
    rewrite (app_snoc s1 c s2) in Hu |- *.
    change ([] ++ tail) with tail in *.
    rewrite (IH fuel (s1 ++ [c]) (ahead p [c] tail)); try done.
    + rewrite ahead_ahead, bind_cons, He. by rewrite <-!app_assoc.
    + cbn [bytes ahead set_iter pos length]. change (Z.of_nat 1) with 1. rewrite (slice_snoc _ _ _ _ Hsl c); [done|].
      by eapply iter_lookup.
    + cbn. lia.
Qed.

(** ** Numbers *)

Definition digit_step (n d : Z) : Z := saturate (saturate (n * 10) + (d - 48)).

Lemma digits_chars fuel z : 0 ≤ z → Forall (λ d, is_digit d = true) (digits fuel z).
Proof.
  revert z. induction fuel as [|fuel IH]; intros z Hz; cbn [digits]; [constructor|].
  destruct (Z.ltb_spec z 10).
  - constructor; [|constructor]. unfold is_digit. lia.
  - apply Forall_app. split; [apply IH; apply Z.div_pos; lia|]. constructor; [|constructor].
    unfold is_digit. pose proof (Z.mod_pos_bound z 10). lia.
Qed.

Lemma digits_value fuel z :
  0 ≤ z ≤ I64_MAX → z < 10 ^ Z.of_nat fuel → fold_left digit_step (digits fuel z) 0 = z.
Proof.
  revert z. induction fuel as [|fuel IH]; intros z Hz Hf; cbn [digits]; [cbn in *; lia|].
  unfold I64_MAX in *. destruct (Z.ltb_spec z 10).
  - cbn. unfold digit_step, saturate, I64_MIN, I64_MAX. lia.
  - rewrite fold_left_app, IH.
    + cbn. unfold digit_step, saturate, I64_MIN, I64_MAX.
      pose proof (Z.div_mod z 10). pose proof (Z.mod_pos_bound z 10). lia.
    + pose proof (Z.div_mod z 10). pose proof (Z.mod_pos_bound z 10). lia.
    + rewrite Nat2Z.inj_succ, Z.pow_succ_r in Hf by lia. apply Z.div_lt_upper_bound; lia.
Qed.

(** What a character does to a number that goes on. *)
Definition number_step (n : number) (ch : Z) : number :=
  match number_char ch n with More n => n | _ => n end.
(** The state at the character a number ends at. *)
Definition stop_at (ch : Z) (p : Parser) : Parser := if is_ws ch then p else set_next_ch p (Some ch).

Lemma number_part_more ch n : number_part ch = true → number_char ch n = More (number_step n ch).
Proof.
  intros Hc. unfold number_step, number_char.
  unfold number_part, number_start, float_mark in Hc.
  destruct (ch =? 45) eqn:?; [done|]. destruct (is_digit ch) eqn:Hd; [done|].
  destruct ((ch =? 44) || (ch =? 93) || (ch =? 125)) eqn:?; [lia|].
  destruct (ch =? 43) eqn:?; [done|]. by rewrite orb_false_r in Hc; cbn [orb] in Hc; rewrite Hc.
Qed.
Lemma number_stop ch n p fuel :
  is_ws ch || delimiter ch = true → number_loop fuel ch n p = Ret n (stop_at ch p).
Proof.
  intros Hc. unfold stop_at, delimiter in *. destruct fuel; cbn [number_loop]; unfold number_char.
  all: assert (is_digit ch = false) as -> by (unfold is_digit, is_ws in *; lia).
  all: destruct (ch =? 45) eqn:?; [unfold is_ws in *; lia|].
  all: destruct ((ch =? 44) || (ch =? 93) || (ch =? 125)) eqn:?;
    [destruct (is_ws ch) eqn:?; [unfold is_ws in *; lia|done]|].
  all: destruct (ch =? 43) eqn:?; [unfold is_ws in *; lia|].
  all: destruct ((ch =? 46) || (ch =? 101) || (ch =? 69)) eqn:?; [unfold is_ws in *; lia|].
  all: rewrite orb_false_r in Hc; by rewrite Hc.
Qed.

(** The loop over a number, to the character it ends at. *)
Lemma number_loop_run fuel cs ch n p stop rest :
  Forall (λ c, number_part c = true) (ch :: cs) → is_ws stop || delimiter stop = true →
  iter p = cs ++ stop :: rest → (length (iter p) ≤ fuel)%nat →
  number_loop fuel ch n p
  = Ret (fold_left number_step (ch :: cs) n) (stop_at stop (ahead p (cs ++ [stop]) rest)).
Proof.
  revert fuel ch n p. induction cs as [|c cs IH]; intros fuel ch n p Hc Hs Hi Hf;
    (destruct fuel as [|fuel]; [rewrite Hi in Hf; cbn in Hf; lia|]);
    inversion Hc as [|? ? Hch Hcs]; subst; cbn [number_loop]; rewrite number_part_more by done;
    cbn [app] in Hi; rewrite (next_char_ahead _ _ _ Hi).
  - by apply number_stop.
  - rewrite IH; try done; [by rewrite ahead_ahead|].
    rewrite Hi in Hf. cbn [length app iter ahead set_iter] in *. lia.
Qed.

Lemma number_step_digits ds n :
  Forall (λ d, is_digit d = true) ds → is_float n = false →
  fold_left number_step ds n
  = {| num := fold_left digit_step ds (num n); is_float := false; is_negative := is_negative n |}.
Proof.
  intros Hd. revert n. induction Hd as [|d ds Hd Hds IH]; intros n Hn; cbn [fold_left].
  - destruct n. cbn in *. by subst.
  - assert (number_step n d = {| num := digit_step (num n) d; is_float := false; is_negative := is_negative n |}) as ->.
    { unfold number_step, number_char. destruct (Z.eqb_spec d 45) as [-> |]; [done|]. by rewrite Hd, Hn. }
    by rewrite IH.
Qed.
Lemma number_step_is_float n c : is_float (number_step n c) = is_float n || float_mark c.
Proof.
  unfold number_step, number_char, float_mark.
  destruct (is_digit c) eqn:Hd;
    [assert ((c =? 46) || (c =? 101) || (c =? 69) = false) as -> by (unfold is_digit in Hd; lia)|];
    destruct (Z.eqb_spec c 45) as [-> |]; cbn [is_float]; rewrite ?orb_false_r; try done.
  - by destruct (is_float n) eqn:Hn.
  - destruct ((c =? 44) || (c =? 93) || (c =? 125)) eqn:?.
    { assert ((c =? 46) || (c =? 101) || (c =? 69) = false) as -> by lia. by rewrite orb_false_r. }
    destruct (Z.eqb_spec c 43) as [-> |]; [by rewrite orb_false_r|].
    destruct ((c =? 46) || (c =? 101) || (c =? 69)); cbn [is_float]; [by rewrite orb_true_r|rewrite orb_false_r].
    by destruct (is_ws c).
Qed.
Lemma number_step_float cs n :
  is_float n = true ∨ Exists (λ c, float_mark c = true) cs → is_float (fold_left number_step cs n) = true.
Proof.
  revert n. induction cs as [|c cs IH]; intros n Hn; cbn [fold_left].
  - destruct Hn as [Hn|Hn]; [done|by apply Exists_nil in Hn].
  - apply IH. rewrite number_step_is_float. destruct Hn as [-> |[-> |Hcs]%Exists_cons]; [by left|left|by right].
    apply orb_true_r.
Qed.

Lemma digits_nonempty fuel z : digits (S fuel) z ≠ [].
Proof. cbn [digits]. case_match; [done|]. by destruct (digits fuel (z / 10)). Qed.
Lemma digit_part d : is_digit d = true → number_part d = true.
Proof. intros Hd. unfold number_part, number_start. by rewrite Hd. Qed.

(** The characters of an integer and what they make. *)
Lemma decimal_run i :
  Z.abs i ≤ I64_MAX → ∃ ch cs, decimal i = ch :: cs ∧ number_start ch = true ∧
    Forall (λ c, number_part c = true) cs ∧
    let n := fold_left number_step (decimal i) {| num := 0; is_float := false; is_negative := false |} in
    is_float n = false ∧ (if negb (is_negative n) then num n else - num n) = i.
Proof.
  intros Hi. unfold decimal, I64_MAX in *.
  assert (∀ z, 0 ≤ z ≤ I64_MAX → fold_left digit_step (digits 20 z) 0 = z) as Hval.
  { intros z Hz. apply digits_value; [done|]. unfold I64_MAX in Hz. lia. }
  destruct (Z.ltb_spec i 0) as [Hneg|Hpos].
  - pose proof (digits_chars 20 (- i) ltac:(lia)) as Hd. exists 45, (digits 20 (- i)).
    split; [done|]. split; [done|]. split; [eapply Forall_impl; [exact Hd|apply digit_part]|].
    cbn [fold_left]. change (number_step _ 45) with {| num := 0; is_float := false; is_negative := true |}.
    rewrite number_step_digits by done. cbn [num is_float is_negative negb].
    rewrite Hval by (unfold I64_MAX; lia). split; [done|lia].
  - pose proof (digits_chars 20 i Hpos) as Hd. rewrite number_step_digits by done. cbn [num is_negative is_float].
    rewrite Hval by (unfold I64_MAX; lia).
    destruct (digits 20 i) as [|d ds] eqn:Hds; [by apply digits_nonempty in Hds|].
    apply Forall_cons in Hd as [Hd Hds']. exists d, ds. split; [done|].
    split; [unfold number_start; by rewrite Hd|]. split; [|done].
    eapply Forall_impl; [exact Hds'|apply digit_part].
Qed.

(** A text of a number, from its first character to the one it ends at. *)
Lemma number_token_text {T} ok t ch cs p stop rest :
  wf p → is_number t = true → token_text ok t (ch :: cs) → is_ws stop || delimiter stop = true →
  iter p = ch :: cs ++ stop :: rest →
  number_start ch = true ∧
  number_token (T := T) ch (ahead p [ch] (cs ++ stop :: rest))
  = Ret (match t with Integer i => Integer i | Float r => Float r | _ => Null end)
      (stop_at stop (ahead p ((ch :: cs) ++ [stop]) rest)).
Proof.
  intros Hwf Ht Hl Hs Hi. unfold number_token.
  assert (before (ahead p [ch] (cs ++ stop :: rest)) = pos p) as Hb.
  { rewrite before_spec; [cbn; lia|by apply ahead_wf|]. cbn. pose proof (wf_pos p Hwf). lia. }
  assert (∃ ch' cs', ch :: cs = ch' :: cs' ∧ number_start ch' = true ∧ Forall (λ c, number_part c = true) cs') as Hrun.
  { destruct t as [| | | | | |i|r| | |]; try done; cbn [token_text] in Hl; [|apply Hl].
    destruct Hl as [Hi' ->]. destruct (decimal_run i Hi') as (ch' & cs' & ? & ? & ? & _). by exists ch', cs'. }
  destruct Hrun as (ch' & cs' & [= <- <-] & Hch & Hcs). split; [done|].
  assert (Forall (λ c, number_part c = true) (ch :: cs)) as Hall.
  { constructor; [|done]. unfold number_part. by rewrite Hch. }
  rewrite (number_loop_run _ cs ch _ _ stop rest) by (try done; cbn; lia).
  rewrite ahead_ahead. change ([ch] ++ cs ++ [stop]) with ((ch :: cs) ++ [stop]).
  destruct t as [| | | | | |i|r| | |]; try done; cbn [token_text] in Hl.
  - destruct Hl as [Hi' Hl]. destruct (decimal_run i Hi') as (_ & _ & _ & _ & _ & Hf & Hv).
    rewrite Hl. cbv zeta in Hf, Hv. by rewrite Hf, Hv.
  - destruct Hl as (_ & Hm & Hp). rewrite number_step_float by (by right). cbn [negb].
    assert (slice (bytes p) (pos p) (pos p + Z.of_nat (length (ch :: cs))) = Some (ch :: cs)) as Hsl.
    { pose proof (wf_pos p Hwf) as Hpos. pose proof (wf_iter p Hwf) as Hit. rewrite Hi in Hit.
      assert (length (ch :: cs ++ stop :: rest) = length (bytes p) - Z.to_nat (pos p))%nat as Hlen
        by (by rewrite Hit, length_drop).
      cbn [length] in Hlen |- *. rewrite length_app in Hlen. unfold slice.
      rewrite decide_True by (cbn in Hlen; lia). f_equal. rewrite <-Hit.
      replace (Z.to_nat _) with (length (ch :: cs)) by (cbn; lia). apply (take_app_length (ch :: cs)). }
    assert (before (stop_at stop (ahead p ((ch :: cs) ++ [stop]) rest)) = pos p + Z.of_nat (length (ch :: cs))) as Hb'.
    { assert (before (stop_at stop (ahead p ((ch :: cs) ++ [stop]) rest)) = before (ahead p ((ch :: cs) ++ [stop]) rest)) as ->
        by (unfold stop_at; by destruct (is_ws stop)).
      rewrite before_spec.
      - cbn [pos ahead set_iter]. rewrite length_app. cbn. lia.
      - apply ahead_wf; [done|]. rewrite Hi. cbn. by rewrite <-app_assoc.
      - cbn [pos ahead set_iter]. rewrite length_app. cbn. pose proof (wf_pos p Hwf). lia. }
    assert (bytes (stop_at stop (ahead p ((ch :: cs) ++ [stop]) rest)) = bytes p) as ->
      by (unfold stop_at; by destruct (is_ws stop)).
    cbv zeta. rewrite Hb, Hb', Hsl. change (default [] (Some ?x)) with x. by rewrite Hp.
Qed.

(** ** Tokens *)

(** A depth at which the token may come. *)
Definition may_nest (t : Token (list Z)) (p : Parser) : Prop :=
  match t with
  | ArrayStart | DictStart => depth_array p + depth_dict p < MAX_NESTED_LEVELS
  | ArrayEnd => 0 < depth_array p
  | DictEnd => 0 < depth_dict p
  | _ => True
  end.

(** What is left to read: the input, with the delimiter that ended a number
    before it. *)
Definition remaining (p : Parser) (text : list Z) : Prop :=
  match next_ch p with
  | None => iter p = text
  | Some ch => delimiter ch = true ∧ text = ch :: iter p
  end.

(** White space in front can be read. *)
Lemma spelled_ws ok rest ts ch text :
  starts_dark rest → is_ws ch = true → spelled ok rest ts (ch :: text) → spelled ok rest ts text.
Proof.
  intros Hrest Hc Hs. inversion Hs as [ws Hws Hts Heq|ws t l ts' text' Hws Hl Hn Ht Hts Heq]; subst;
    (destruct ws as [|w ws]; [|injection Heq as -> <-; apply Forall_cons in Hws as [_ Hws]; by constructor]).
  - cbn [app] in Heq. pose proof (Hrest _ _ Heq). congruence.
  - exfalso. cbn [app] in Heq.
    assert (∃ c r, l = c :: r ∧ is_ws c = false) as (c & r & -> & Hd).
    { destruct t as [| | | | | |i|f|[]|s|]; cbn [token_text print_token] in Hl; subst; try by eexists _, _.
      - destruct Hl as [Hi ->]. destruct (decimal_run i Hi) as (c & cs & -> & Hst & _). exists c, cs.
        split; [done|]. unfold number_start, is_digit, is_ws in *. lia.
      - destruct Hl as ((c & cs & -> & Hst & _) & _). exists c, cs. split; [done|].
        unfold number_start, is_digit, is_ws in *. lia.
      - destruct Hl as [_ ->]. by eexists _, _. }
    injection Heq as -> _. congruence.
Qed.

Lemma spelled_length ok rest ts text : spelled ok rest ts text → (length ts ≤ length text)%nat.
Proof.
  induction 1 as [|ws t l ts text _ Hl _ _ IH]; cbn; [lia|]. rewrite !length_app.
  enough (1 ≤ length l)%nat by lia.
  destruct t as [| | | | | |i|f|[]|s|]; cbn [token_text print_token] in Hl; subst; try (cbn; lia).
  - destruct Hl as [Hi ->]. destruct (decimal_run i Hi) as (c & cs & -> & _). cbn. lia.
  - destruct Hl as ((c & cs & -> & _) & _). cbn. lia.
  - destruct Hl as [_ ->]. cbn. lia.
Qed.

Section generic.
Context {T : Type} `{StringParserLaws T} (f : list Z → T) (ok : list Z → Prop).
Context (Hstring : ∀ s p rest, wf p → ok s → iter p = (s ≫= esc) ++ QUOTE :: rest →
  ∃ p', string_token (T := T) p = Ret (String (f s)) p' ∧ iter p' = rest ∧ next_ch p' = next_ch p).

Lemma token_step_ws ch p : is_ws ch = true → token_step (T := T) ch p = None.
Proof using Type.
  intros Hc. unfold token_step, QUOTE. rewrite Hc.
  assert (is_digit ch || (ch =? 45) || (ch =? 43) = false) as -> by (unfold is_ws, is_digit in *; lia).
  repeat match goal with |- context [ch =? ?k] => destruct (Z.eqb_spec ch k); [unfold is_ws in *; lia|] end. done.
Qed.

Lemma token_loop_first fuel ws ch0 p ch it :
  Forall (λ c, is_ws c = true) (ch0 :: ws) → iter p = ws ++ ch :: it → (length (iter p) ≤ fuel)%nat →
  ∀ o, token_step (T := T) ch (ahead p (ws ++ [ch]) it) = Some o → token_loop fuel (Some ch0) p = o.
Proof using Type.
  revert fuel ch0 p. induction ws as [|w ws IH]; intros fuel ch0 p Hws Hi Hf o Ho;
    inversion Hws as [|? ? Hw Hws']; subst; (destruct fuel as [|fuel]; [rewrite Hi in Hf; cbn in Hf; lia|]);
    cbn [token_loop]; rewrite token_step_ws by done; cbn [app] in Hi; rewrite (next_char_ahead _ _ _ Hi).
  - cbn [app] in Ho. destruct fuel; cbn [token_loop]; by rewrite Ho.
  - eapply IH; [done|done|rewrite Hi in Hf; cbn [iter ahead set_iter length app] in *; lia|]. rewrite ahead_ahead. exact Ho.
Qed.

(** The first character of a token. *)
Lemma next_token_first p ws ch it :
  next_ch p = None → Forall (λ c, is_ws c = true) ws → iter p = ws ++ ch :: it →
  ∀ o, token_step (T := T) ch (ahead p (ws ++ [ch]) it) = Some o → next_token T p = o.
Proof using Type.
  intros Hn Hws Hi o Ho. unfold next_token. rewrite Hn. destruct ws as [|w ws].
  - rewrite (next_char_ahead _ _ _ Hi). cbn [app] in Ho. cbn [token_loop]. by rewrite Ho.
  - cbn [app] in Hi. rewrite (next_char_ahead _ _ _ Hi). eapply token_loop_first; [exact Hws|done|cbn; lia|].
    rewrite ahead_ahead. exact Ho.
Qed.

Lemma literal_print rest l (t : Token T) p :
  iter p = l ++ rest → literal l t p = Ret t (ahead p l rest).
Proof using Type.
  intros Hi. unfold literal. rewrite Hi, take_app_length, drop_app_length, decide_True by done. done.
Qed.

Lemma token_step_number ch p :
  number_start ch = true → token_step (T := T) ch p = Some (number_token ch p).
Proof using Type.
  intros Hch. unfold token_step, QUOTE. unfold number_start in Hch. rewrite Hch.
  assert ((48 ≤ ch ≤ 57) ∨ ch = 45 ∨ ch = 43) as Hr by (unfold is_digit in Hch; lia).
  repeat match goal with |- context [ch =? ?k] => destruct (Z.eqb_spec ch k); [lia|] end. done.
Qed.

Lemma literal_first ch l (t : Token T) p rest :
  (∀ p, token_step ch p = Some (literal l t p)) → iter p = l ++ rest →
  token_step ch p = Some (Ret t (ahead p l rest)).
Proof using Type. intros Hs Hi. rewrite Hs. f_equal. by apply literal_print. Qed.

Ltac solve_depth :=
  cbn [token_step QUOTE Z.eqb Pos.eqb]; cbn [depth_array depth_dict ahead set_iter set_next_ch];
  match goal with
  | |- context [?x <? ?y] => destruct (Z.ltb_spec x y); [reflexivity|lia]
  | |- context [negb (?x =? ?y)] => destruct (Z.eqb_spec x y); [lia|reflexivity]
  | |- _ => reflexivity
  end.

(** The delimiter kept from a number is the next token. *)
Lemma next_token_pending t p ch text :
  next_ch p = Some ch → delimiter ch = true → ch :: iter p = print_token t ++ text → is_number t = false →
  may_nest t p →
  ∃ p', next_token T p = Ret (token_map f t) p' ∧ remaining p' text.
Proof using Type.
  intros Hn Hc Hi Ht Hd. unfold next_token, remaining. rewrite Hn. cbn [token_loop].
  destruct t as [| | | | | |i|r|[]|s|]; try done; cbn [print_token app str_bytes quote] in Hi; cbn in Hd;
    injection Hi as Hch Hi; subst ch; try (by vm_compute in Hc).
  - by eexists.
  - eexists. split; [solve_depth|done].
  - eexists. split; [solve_depth|done].
Qed.

(** A token that is not a number. *)
Lemma next_token_other ws t l p text :
  wf p → next_ch p = None → Forall (λ c, is_ws c = true) ws → token_text ok t l → is_number t = false →
  may_nest t p → iter p = ws ++ l ++ text →
  ∃ p', next_token T p = Ret (token_map f t) p' ∧ remaining p' text.
Proof using Hstring.
  intros Hwf Hn Hws Hl Ht Hd Hi.
  assert (∀ ch it p', l ++ text = ch :: it → token_step ch (ahead p (ws ++ [ch]) it) = Some (Ret (token_map f t) p') →
    iter p' = text → next_ch p' = None →
    ∃ p', next_token T p = Ret (token_map f t) p' ∧ remaining p' text) as Hstep.
  { intros ch it p' Hi' Hs Hit Hn'. exists p'. unfold remaining. rewrite Hn'. split; [|done].
    eapply next_token_first; [done|exact Hws| |exact Hs]. by rewrite Hi, Hi'. }
  destruct t as [| | | | | |i|r|b|s|]; cbn [token_text print_token] in Hl; cbn in Hd; try done.
  1-6: subst l; eapply Hstep; [reflexivity|solve_depth|done|done].
  - subst l. destruct b.
    + eapply Hstep; [reflexivity|by apply (literal_first 116 [114; 117; 101])|done|done].
    + eapply Hstep; [reflexivity|by apply (literal_first 102 [97; 108; 115; 101])|done|done].
  - destruct Hl as [Hs ->]. unfold quote in Hi.
    destruct (Hstring s (ahead p (ws ++ [QUOTE]) ((s ≫= esc) ++ QUOTE :: text)) text) as (p' & Hs' & Hi' & Hn');
      [|done|done|].
    { apply ahead_wf; [done|]. rewrite Hi. cbn [app]. by rewrite <-!app_assoc. }
    eapply (Hstep QUOTE ((s ≫= esc) ++ QUOTE :: text)); [by unfold quote; cbn [app]; rewrite <-app_assoc| |exact Hi'|by rewrite Hn'].
    unfold token_step. by rewrite Z.eqb_refl, Hs'.
  - subst l. eapply Hstep; [reflexivity|by apply (literal_first 110 [117; 108; 108])|done|done].
Qed.

(** A number: what it ends at is read, or kept when it is a token. *)
Lemma next_token_number ws t l p text :
  wf p → next_ch p = None → Forall (λ c, is_ws c = true) ws → token_text ok t l → is_number t = true →
  ends_number text → iter p = ws ++ l ++ text →
  ∃ p', next_token T p = Ret (token_map f t) p' ∧
    (remaining p' text ∨ ∃ ch text', text = ch :: text' ∧ is_ws ch = true ∧ remaining p' text').
Proof using Type.
  intros Hwf Hn Hws Hl Ht (stop & rest & -> & Hstop) Hi.
  destruct l as [|ch cs].
  { destruct t as [| | | | | |i|r| | |]; try done; cbn [token_text] in Hl.
    - destruct Hl as [Hz Hl]. destruct (decimal_run i Hz) as (? & ? & Hx & _). congruence.
    - by destruct Hl as ((? & ? & ? & _) & _). }
  set (q := ahead p ws ((ch :: cs) ++ stop :: rest)).
  destruct (number_token_text (T := T) ok t ch cs q stop rest) as [Hch Hnum]; try done; [by apply ahead_wf|].
  unfold q in Hnum. rewrite !ahead_ahead in Hnum. eexists. split.
  - eapply (next_token_first p ws ch (cs ++ stop :: rest)); [done|exact Hws|exact Hi|]. rewrite token_step_number by done. f_equal.
    rewrite Hnum. by destruct t.
  - unfold remaining, stop_at. destruct (is_ws stop) eqn:Hw.
    + right. exists stop, rest. split_and!; [done..|]. cbn [next_ch ahead set_iter iter]. by rewrite Hn.
    + left. cbn [orb] in Hstop. done.
Qed.

Lemma nested_may_nest t ts p :
  nested (depth_array p) (depth_dict p) (t :: ts) → may_nest t p.
Proof using Type. destruct t; cbn; try done; by intros [? _]. Qed.

Lemma nested_step t ts p p' :
  nested (depth_array p) (depth_dict p) (t :: ts) → nesting (token_map f t) p p' →
  nested (depth_array p') (depth_dict p') ts.
Proof using Type.
  intros Hn [-> ->]. destruct t; cbn in Hn |- *; rewrite ?Z.add_0_r; try done; by destruct Hn as [? ?].
Qed.

(** The first token of a text: it is returned, and a text of the others is
    left. *)
Lemma next_token_spelled rest t ts p text :
  wf p → starts_dark rest → remaining p text → spelled ok rest (t :: ts) text → may_nest t p →
  ∃ p' text', next_token T p = Ret (token_map f t) p' ∧ remaining p' text' ∧ spelled ok rest ts text'.
Proof using Hstring.
  intros Hwf Hdark Hrem Hsp Hd. inversion Hsp as [|ws t' l ts' text' Hws Hl Hnum Hsp']; subst.
  unfold remaining in Hrem. destruct (next_ch p) as [ch|] eqn:Hn.
  - destruct Hrem as [Hch Hi].
    assert (ws = []) as ->.
    { destruct ws as [|w ws]; [done|]. apply Forall_cons in Hws as [Hw _]. injection Hi as -> _.
      unfold is_ws, delimiter in *. lia. }
    cbn [app] in Hi. assert (is_number t = false ∧ l = print_token t) as [Ht ->].
    { destruct t as [| | | | | |i|r| |s|]; try done; cbn [token_text] in Hl.
      - destruct Hl as [Hz ->]. destruct (decimal_run i Hz) as (c & cs & Hx & Hst & _). rewrite Hx in Hi.
        injection Hi as -> _. unfold number_start, is_digit, delimiter in *. lia.
      - destruct Hl as ((c & cs & -> & Hst & _) & _). injection Hi as -> _.
        unfold number_start, is_digit, delimiter in *. lia.
      - by destruct Hl as [_ ->]. }
    destruct (next_token_pending t p ch text' Hn Hch) as (p' & Hp & Hr); [done..|]. eauto 6.
  - destruct (is_number t) eqn:Ht.
    + destruct (next_token_number ws t l p text') as (p' & Hp & [Hr|(c & text'' & -> & Hw & Hr)]); [by auto..|eauto 6|].
      exists p', text''. split_and!; [done..|]. by eapply spelled_ws.
    + destruct (next_token_other ws t l p text') as (p' & Hp & Hr); [done..|]. eauto 6.
Qed.

(** The same with the invariant and the nesting. *)
Lemma next_token_sequence rest t ts p text :
  wf p → starts_dark rest → remaining p text → spelled ok rest (t :: ts) text →
  nested (depth_array p) (depth_dict p) (t :: ts) →
  ∃ p' text', next_token T p = Ret (token_map f t) p' ∧ wf p' ∧ nesting (token_map f t) p p' ∧
    remaining p' text' ∧ spelled ok rest ts text' ∧ nested (depth_array p') (depth_dict p') ts.
Proof using All.
  intros Hwf Hdark Hrem Hsp Hnest. pose proof (next_token_ok (T := T) p Hwf) as Hok.
  destruct (next_token_spelled rest t ts p text) as (p' & text' & Heq & Hr & Hs); try done;
    [by eapply nested_may_nest|].
  rewrite Heq in Hok. destruct Hok as [(Hwf' & _) Hnt]. exists p', text'.
  split_and!; try done; [apply Hnt..|]. by eapply nested_step.
Qed.
End generic.

(** ** Reading strings *)

Lemma string_token_print s p rest :
  wf p → valid_string s → iter p = (s ≫= esc) ++ QUOTE :: rest →
  ∃ p', string_token (T := list Z) p = Ret (String s) p' ∧ iter p' = rest ∧ next_ch p' = next_ch p.
Proof.
  intros Hwf [Hs Hu] Hi. exists (set_eof (ahead (start_string p) ((s ≫= esc) ++ [QUOTE]) rest)).
  split; [|done]. unfold string_token, parse, parse_string.
  rewrite (plain_loop_print _ _ [] s _ rest); try done; [by apply start_string_wf| |cbn; lia].
  unfold slice. pose proof (wf_pos p Hwf). cbn [pos start_string bytes].
  rewrite decide_True by lia. by rewrite Z.sub_diag.
Qed.

(** White space to the end of the input. *)
Lemma token_loop_eof {T} `{JsonObjectParser T} fuel ch p :
  is_ws ch = true → Forall (λ c, is_ws c = true) (iter p) → (length (iter p) ≤ fuel)%nat →
  ∃ n q, token_loop (T := T) (S fuel) (Some ch) p = Throw (Request (At "Unexpected EOF" n)) q.
Proof.
  revert ch p. induction fuel as [|fuel IH]; intros ch p Hc Hws Hf; cbn [token_loop];
    rewrite token_step_ws by done; unfold next_char; destruct (iter p) as [|c it] eqn:Hi; try by eexists _, _.
  - cbn in Hf. lia.
  - apply Forall_cons in Hws as [Hc' Hws]. apply IH; [done|done|cbn in *; lia].
Qed.
Lemma next_token_eof {T} `{JsonObjectParser T} p :
  next_ch p = None → Forall (λ c, is_ws c = true) (iter p) →
  ∃ n q, next_token T p = Throw (Request (At "Unexpected EOF" n)) q.
Proof.
  intros Hn Hws. unfold next_token. rewrite Hn. unfold next_char. destruct (iter p) as [|c it]; [by eexists _, _|].
  apply Forall_cons in Hws as [Hc Hws]. by apply token_loop_eof.
Qed.

Lemma token_map_id t : token_map id t = t.
Proof. by destruct t. Qed.

Lemma read_tokens_spelled fuel ts p text :
  wf p → remaining p text → spelled valid_string [] ts text →
  nested (depth_array p) (depth_dict p) ts → (length ts < fuel)%nat →
  ∃ n, read_tokens fuel p = (ts, Some (Request (At "Unexpected EOF" n))).
Proof.
  revert fuel p text. induction ts as [|t ts IH]; intros fuel p text Hwf Hrem Hsp Hnest Hf;
    (destruct fuel as [|fuel]; [lia|]); cbn [read_tokens].
  - inversion Hsp as [ws Hws Hts Heq|]; subst. rewrite app_nil_r in Hrem. unfold remaining in Hrem.
    destruct (next_ch p) as [ch|] eqn:Hn.
    { destruct Hrem as [Hch ->]. apply Forall_cons in Hws as [Hw _]. unfold is_ws, delimiter in *. lia. }
    destruct (next_token_eof (T := list Z) p Hn) as (n & q & ->); [by rewrite Hrem|]. eauto.
  - destruct (next_token_sequence id valid_string string_token_print [] t ts p text)
      as (p' & text' & -> & Hwf' & _ & Hrem' & Hsp' & Hnest'); try done.
    destruct (IH fuel p' text' Hwf' Hrem' Hsp' Hnest' ltac:(cbn in Hf; lia)) as (n & ->).
    rewrite token_map_id. eauto.
Qed.

(** C28: The tokenizer reads back every text of a sequence of tokens: strings
    are valid UTF-8, quoted with the escapes of JSON; integers are decimal and
    in the range of [i64] without its least value; floats are texts with a
    point or an exponent, of the value that [fast_float] gives them; white
    space is anywhere between the tokens or nowhere, except that a number is
    followed by white space, a comma or a closing bracket.  When the nesting is
    balanced and within the limit, tokenizing the text gives exactly that
    sequence, and then the end of the input. *)
Theorem tokens_roundtrip ts text :
  spelled valid_string [] ts text → nested 0 0 ts → Z.of_nat (length text) < 2 ^ 63 →
  ∃ n, read_tokens (S (length ts)) (new text) = (ts, Some (Request (At "Unexpected EOF" n))).
Proof.
  intros Hsp Hnest Hlen. eapply read_tokens_spelled; [by apply new_wf|done|exact Hsp|done|lia].
Qed.

(** ** Skipping values *)

(** The strings the skipping of strings stops at the end of. *)
Definition skippable (s : list Z) : Prop := bytes_ok s ∧ last s ≠ Some BACKSLASH.

(** The nesting a sequence leaves open. *)
Fixpoint open (ts : list (Token (list Z))) : Z * Z :=
  match ts with
  | [] => (0, 0)
  | t :: ts =>
      let '(a, d) := open ts in
      (a + match t with ArrayStart => 1 | ArrayEnd => -1 | _ => 0 end,
       d + match t with DictStart => 1 | DictEnd => -1 | _ => 0 end)
  end.

(** The tokens of a value: nothing is left open at its end, and only there. *)
Definition value_tokens (ts : list (Token (list Z))) : Prop :=
  ts ≠ [] ∧ open ts = (0, 0) ∧ ∀ l r, ts = l ++ r → l ≠ [] → r ≠ [] → open l ≠ (0, 0).

Lemma skip_loop_char last ch it p :
  ch ≠ QUOTE ∨ last = BACKSLASH →
  skip_loop last (ch :: it) p = skip_loop ch it (ahead p [ch] it).
Proof.
  intros Hc. cbn [skip_loop].
  destruct ((ch =? QUOTE) && negb (last =? BACKSLASH)) eqn:E; [lia|done].
Qed.

Lemma skip_loop_esc last c it p :
  uint_ok 8 c → ∃ last', (last' = BACKSLASH → c = BACKSLASH) ∧
    skip_loop last (esc c ++ it) p = skip_loop last' it (ahead p (esc c) it).
Proof.
  intros Hc. unfold esc, QUOTE in *.
  assert (∀ e, e = 34 ∨ e ≠ 34 → (e = BACKSLASH → c = BACKSLASH) →
    ∃ last', (last' = BACKSLASH → c = BACKSLASH) ∧
    skip_loop last ([BACKSLASH; e] ++ it) p = skip_loop last' it (ahead p [BACKSLASH; e] it)) as Htwo.
  { intros e _ He. exists e. split; [done|]. cbn [app]. rewrite skip_loop_char by (left; done).
    rewrite skip_loop_char by (right; done). by rewrite ahead_ahead. }
  destruct ((c =? 34) || (c =? BACKSLASH)) eqn:Hq; [apply Htwo; [lia|done]|].
  do 5 (case_match; [apply Htwo; [lia|done]|]).
  case_match.
  - unfold uint_ok in Hc.
    assert (48 ≤ hex_char (c / 16) ≤ 57) as Hh.
    { unfold hex_char. pose proof (Z.div_lt_upper_bound c 16 2). pose proof (Z.div_pos c 16).
      case_match; lia. }
    assert (48 ≤ hex_char (c `mod` 16) ≤ 57 ∨ 97 ≤ hex_char (c `mod` 16) ≤ 102) as Hl.
    { unfold hex_char. pose proof (Z.mod_pos_bound c 16). case_match; lia. }
    exists (hex_char (c `mod` 16)). split; [unfold BACKSLASH; lia|]. cbn [app].
    rewrite !skip_loop_char by (unfold QUOTE; left; (done || lia)). by rewrite !ahead_ahead.
  - exists c. split; [done|]. cbn [app]. apply skip_loop_char. left. unfold QUOTE. lia.
Qed.

Lemma skip_loop_print s last p rest :
  bytes_ok s → (s = [] → last ≠ BACKSLASH) → list.last s ≠ Some BACKSLASH →
  skip_loop last ((s ≫= esc) ++ QUOTE :: rest) p = (true, set_eof (ahead p ((s ≫= esc) ++ [QUOTE]) rest)).
Proof.
  intros Hs. revert last p. induction Hs as [|c s Hc Hs IH]; intros last p Hlast Hend.
  - cbn [mbind list_bind app skip_loop]. rewrite Z.eqb_refl.
    destruct (Z.eqb_spec last BACKSLASH); [by specialize (Hlast eq_refl)|done].
  - rewrite bind_cons, <-app_assoc.
    destruct (skip_loop_esc last c ((s ≫= esc) ++ QUOTE :: rest) p Hc) as (last' & Hl & ->).
    rewrite IH.
    + by rewrite ahead_ahead, <-app_assoc.
    + intros -> Hb. apply Hend. cbn. by rewrite Hl.
    + destruct s; [done|]. by rewrite last_cons_cons in Hend.
Qed.

Lemma string_token_skip s p rest :
  wf p → skippable s → iter p = (s ≫= esc) ++ QUOTE :: rest →
  ∃ p', string_token (T := Ignore) p = Ret (String ()) p' ∧ iter p' = rest ∧ next_ch p' = next_ch p.
Proof.
  intros Hwf [Hs Hl] Hi. exists (set_eof (ahead (start_string p) ((s ≫= esc) ++ [QUOTE]) rest)).
  split; [|done]. unfold string_token, parse, parse_ignore, skip_string.
  cbn [iter start_string]. rewrite Hi, skip_loop_print by done. done.
Qed.

Lemma open_app l r : open (l ++ r) = (((open l).1 + (open r).1)%Z, ((open l).2 + (open r).2)%Z).
Proof.
  induction l as [|t l IH]; cbn; [by destruct (open r)|]. rewrite IH.
  destruct (open l), (open r). cbn. f_equal; lia.
Qed.

(** The loop of [skip_token] over the tokens that close a value. *)
Lemma skip_token_loop_spelled fuel ts p text rest a d :
  wf p → starts_dark rest → remaining p text → spelled skippable rest ts text →
  nested (depth_array p) (depth_dict p) ts → ts ≠ [] →
  depth_array p + (open ts).1 = a → depth_dict p + (open ts).2 = d →
  (∀ l r, ts = l ++ r → l ≠ [] → r ≠ [] →
    (depth_array p + (open l).1, depth_dict p + (open l).2) ≠ (a, d)) →
  (length ts ≤ fuel)%nat →
  ∃ p' text', skip_token_loop fuel a d p = Ret () p' ∧ remaining p' text' ∧ spelled skippable rest [] text'.
Proof.
  revert fuel p text. induction ts as [|t ts IH]; intros fuel p text Hwf Hdark Hrem Hsp Hnest Hne Ha Hd Hpre Hf; [done|].
  destruct (next_token_sequence (T := Ignore) (λ _, ()) skippable string_token_skip rest t ts p text)
    as (p' & text' & Heq & Hwf' & [Hna Hnd] & Hrem' & Hsp' & Hnest'); try done.
  assert (depth_array p' = depth_array p + (open [t]).1) as Hda by (rewrite Hna; by destruct t).
  assert (depth_dict p' = depth_dict p + (open [t]).2) as Hdd by (rewrite Hnd; by destruct t).
  destruct fuel as [|fuel]; [cbn in Hf; lia|]. cbn [skip_token_loop]. rewrite Heq.
  change (t :: ts) with ([t] ++ ts) in Ha, Hd. rewrite open_app in Ha, Hd. cbn [fst snd] in Ha, Hd.
  destruct ts as [|t' ts].
  - cbn [open fst snd] in *. exists p', text'. split; [|done].
    destruct (Z.eqb_spec a (depth_array p')), (Z.eqb_spec d (depth_dict p')); (done || lia).
  - pose proof (Hpre [t] (t' :: ts) eq_refl ltac:(done) ltac:(done)) as Hneq.
    destruct (negb (a =? depth_array p') || negb (d =? depth_dict p')) eqn:Hcmp.
    + eapply IH; try done; [lia|lia| |cbn in *; lia].
      intros l r Hlr Hl Hr. specialize (Hpre (t :: l) r ltac:(by rewrite Hlr) ltac:(done) Hr).
      change (t :: l) with ([t] ++ l) in Hpre. rewrite open_app in Hpre. cbn [fst snd] in Hpre.
      rewrite Hda, Hdd. intros [= E1 E2]. apply Hpre. f_equal; cbn [open fst snd]; lia.
    + exfalso. apply Hneq. f_equal; lia.
Qed.

(** C29: Skipping a value in which no string ends in a backslash: called where
    a text of the value stands, at the depth of the parser and within the
    limit of nesting, [skip_token] takes that value and, but for white space,
    nothing of what follows. *)
Theorem skip_token_exact ts p text rest :
  wf p → remaining p text → spelled skippable rest ts text → starts_dark rest →
  nested (depth_array p) (depth_dict p) ts → value_tokens ts →
  ∃ p' ws, skip_token (depth_array p) (depth_dict p) p = Ret () p' ∧ remaining p' (ws ++ rest) ∧
    Forall (λ c, is_ws c = true) ws ∧ depth_array p' = depth_array p ∧ depth_dict p' = depth_dict p.
Proof.
  intros Hwf Hrem Hsp Hdark Hnest (Hne & Hopen & Hpre).
  destruct (skip_token_loop_spelled (S (length (iter p))) ts p text rest (depth_array p) (depth_dict p))
    as (p' & text' & Heq & Hrem' & Hsp'); try done.
  - rewrite Hopen. cbn. lia.
  - rewrite Hopen. cbn. lia.
  - intros l r Hlr Hl Hr [= E1 E2]. apply (Hpre l r Hlr Hl Hr). destruct (open l). cbn in *. f_equal; lia.
  - pose proof (spelled_length _ _ _ _ Hsp). unfold remaining in Hrem.
    destruct (next_ch p); [destruct Hrem as [_ ->]; cbn in *; lia|subst; lia].
  - inversion Hsp' as [ws Hws Hts Ht|]; subst. exists p', ws. split_and!; try done.
    all: pose proof (skip_token_safe (depth_array p) (depth_dict p) p Hwf) as Hs;
      unfold skip_token in Hs; rewrite Heq in Hs; apply Hs.
Qed.
End print.

(** ** Examples *)

#[local] Existing Instance text_float.

Definition example_tokens : list (Token (list Z)) :=
  [DictStart; String [97; 34]; Colon; ArrayStart; Integer (-120); Comma; Boolean true; Comma; Null; Comma;
   Float (str_bytes "1.5e3"); ArrayEnd; Comma; String []; Colon; Integer I64_MAX; DictEnd].
(** The object of an a and a quote with its array, with spaces here and there;
    the quotes are character 34. *)
Definition example_text : list Z :=
  str_bytes "{ " ++ [QUOTE; 97; BACKSLASH; QUOTE; QUOTE] ++ str_bytes ":[-120,true ,null,1.5e3 ] ,"
    ++ [QUOTE; QUOTE] ++ str_bytes ": 9223372036854775807}".

Lemma example_float ok : token_text ok (Float (str_bytes "1.5e3")) (str_bytes "1.5e3").
Proof.
  split_and!; [|by apply (bool_decide_unpack _)|done]. eexists _, _. split_and!; [done..|by repeat constructor].
Qed.
(** The next token of an example, its text and the white space before it. *)
Ltac spell ws l :=
  refine (spelled_token _ _ ws _ l _ _ _ _ _ _);
  [by repeat constructor|first [apply example_float|done|split; [by vm_compute|done] ]
  |intros ?; first [done|by eexists _, _]|].
Lemma example_spelled ok rest : ok [97; 34] → ok [] → spelled ok rest example_tokens (example_text ++ rest).
Proof.
  intros H1 H2. unfold example_tokens, example_text. cbn.
  spell (@nil Z) [123]. spell [32] [QUOTE; 97; BACKSLASH; QUOTE; QUOTE]. spell (@nil Z) [58]. spell (@nil Z) [91].
  spell (@nil Z) (str_bytes "-120"). spell (@nil Z) [44]. spell (@nil Z) (str_bytes "true"). spell [32] [44].
  spell (@nil Z) (str_bytes "null"). spell (@nil Z) [44]. spell (@nil Z) (str_bytes "1.5e3"). spell [32] [93].
  spell [32] [44]. spell (@nil Z) [QUOTE; QUOTE]. spell (@nil Z) [58]. spell [32] (str_bytes "9223372036854775807").
  spell (@nil Z) [125]. apply (spelled_end _ _ []). constructor.
Qed.

Lemma tokens_roundtrip_witness :
  ∃ n, read_tokens 18 (new example_text) = (example_tokens, Some (Request (At "Unexpected EOF" n))).
Proof.
  apply (tokens_roundtrip example_tokens example_text).
  - rewrite <-(app_nil_r example_text). apply example_spelled; split; done || by repeat constructor.
  - cbv [example_tokens nested MAX_NESTED_LEVELS]. lia.
  - vm_compute. reflexivity.
Defined.

Lemma skip_token_exact_witness :
  let p := new (example_text ++ [44]) in
  ∃ p' ws, skip_token 0 0 p = Ret () p' ∧ remaining p' (ws ++ [44]) ∧ Forall (λ c, is_ws c = true) ws ∧
    depth_array p' = 0 ∧ depth_dict p' = 0.
Proof.
  apply (skip_token_exact example_tokens (new (example_text ++ [44])) (example_text ++ [44]) [44]).
  - apply new_wf. vm_compute. reflexivity.
  - reflexivity.
  - apply example_spelled; split; done || by repeat constructor.
  - by intros ch r [= <- <-].
  - cbv [example_tokens nested MAX_NESTED_LEVELS depth_array depth_dict new]. lia.
  - split_and!; [done|reflexivity|]. intros l r Hlr Hl Hr.
    do 17 (destruct l as [|? l]; [done|]; injection Hlr as <- Hlr; try (vm_compute; done)).
    symmetry in Hlr. apply app_nil in Hlr as [_ ->]. done.
Defined.

(** The backslash that ends a string is taken for an escape of its quote: the
    rest of the input is skipped with the string. *)
Example skip_string_backslash :
  let text := quote [BACKSLASH] ++ [44] in
  skip_token 0 0 (new text) =
    Throw (Request (UnterminatedString 6)) (set_iter (start_string (set_iter (new text) [] 1)) [] 6).
Proof. vm_compute. reflexivity. Qed.

(** The least [i64] is read as its successor. *)
Example least_integer :
  ∃ p, next_token (list Z) (new (str_bytes "-9223372036854775808 ")) = Ret (Integer (I64_MIN + 1)) p.
Proof. eexists. vm_compute. reflexivity. Qed.

(** A character outside of the basic plane, written as a surrogate pair, is
    rejected. *)
Example surrogate_pair_rejected :
  let text := [QUOTE] ++ str_bytes "\ud83d\ude00" ++ [QUOTE] in
  ∃ p, next_token (list Z) (new text) = Throw (Request (InvalidUnicode (str_bytes "d83d") 7)) p.
Proof. eexists. vm_compute. reflexivity. Qed.
