(* ===== verification/JsonText.v ===== *)
(** * JsonText: string values and their texts

    [reads T text v]: wherever the text stands between quotes, the tokenizer
    returns the value [v] of type [T] and goes on after the closing quote.
    The lemmas that establish it for the loops the parsers of the JMAP types
    are made of. *)

From stdpp Require Import base gmap sorting strings numbers list.
From S2P Require Import Prelude Utf8 Json JsonTheory JsonPrint.
Import Json.
Open Scope Z_scope.

(** A character that stands for itself in a string. *)
Definition plain (c : Z) : Prop := c ≠ QUOTE ∧ c ≠ BACKSLASH.
#[export] Instance plain_dec c : Decision (plain c).
Proof. unfold plain. apply _. Defined.

Definition reads `{FastFloat} (T : Type) `{JsonObjectParser T} (text : list Z) (v : T) : Prop :=
  ∀ p rest, wf p → iter p = text ++ QUOTE :: rest →
    ∃ p', string_token p = Ret (String v) p' ∧ iter p' = rest ∧ next_ch p' = next_ch p.

Lemma next_unescaped_plain p c rest :
  plain c → iter p = c :: rest → next_unescaped p = Ret (Some c) (ahead p [c] rest).
Proof.
  intros [Hq Hb] Hi. unfold next_unescaped. rewrite (next_char_ahead _ _ _ Hi).
  destruct (Z.eqb_spec c QUOTE); [done|]. by destruct (Z.eqb_spec c BACKSLASH).
Qed.

Lemma next_unescaped_quote p rest :
  iter p = QUOTE :: rest → next_unescaped p = Ret None (set_eof (ahead p [QUOTE] rest)).
Proof.
  intros Hi. unfold next_unescaped. rewrite (next_char_ahead _ _ _ Hi). by rewrite Z.eqb_refl.
Qed.

(** A loop that goes through all the characters of a text. *)
Fixpoint run {St R} (body : St → Z → flow St R) (s : St) (text : list Z) : option St :=
  match text with
  | [] => Some s
  | ch :: text => match body s ch with Continue s => run body s text | _ => None end
  end.

Lemma while_loop_run {St R} (body : St → Z → flow St R) after fuel s s' text p rest :
  Forall plain text → run body s text = Some s' → iter p = text ++ QUOTE :: rest →
  (length text ≤ fuel)%nat →
  while_loop fuel body after s p = after s' (set_eof (ahead p (text ++ [QUOTE]) rest)).
Proof.
  revert fuel s p. induction text as [|c text IH]; intros fuel s p Hpl Hrun Hi Hf.
  - injection Hrun as <-. destruct fuel; cbn [while_loop]; by rewrite (next_unescaped_quote p rest).
  - inversion Hpl as [|? ? Hc Hpl']; subst. cbn in Hrun. destruct (body s c) as [s1| |] eqn:Hb; try done.
    destruct fuel as [|fuel]; [cbn in Hf; lia|]. cbn [while_loop app] in *.
    rewrite (next_unescaped_plain _ _ _ Hc Hi), Hb.
    rewrite (IH fuel s1); try done; [|cbn in Hf; lia]. by rewrite ahead_ahead.
Qed.

Lemma while_run {St R} (body : St → Z → flow St R) after s s' text p rest :
  Forall plain text → run body s text = Some s' → iter p = text ++ QUOTE :: rest →
  while_unescaped body after s p = after s' (set_eof (ahead p (text ++ [QUOTE]) rest)).
Proof.
  intros Hpl Hrun Hi. unfold while_unescaped. apply while_loop_run; try done.
  rewrite Hi, length_app. lia.
Qed.

Lemma skip_loop_plain last text p rest :
  Forall plain text → last ≠ BACKSLASH →
  skip_loop last (text ++ QUOTE :: rest) p = (true, set_eof (ahead p (text ++ [QUOTE]) rest)).
Proof.
  revert last p. induction text as [|c text IH]; intros last p Hpl Hl.
  - cbn [app skip_loop]. rewrite Z.eqb_refl. by destruct (Z.eqb_spec last BACKSLASH).
  - inversion Hpl as [|? ? [Hq Hb] Hpl']; subst. cbn [app]. rewrite skip_loop_char by (by left).
    rewrite IH by done. by rewrite ahead_ahead.
Qed.

Section reads.
Context `{FastFloat} {T : Type} `{JsonObjectParser T}.

(** A parser that takes the whole string. *)
Lemma reads_eof text (v : T) :
  (∀ p rest, wf p → in_string p → is_eof p = false → iter p = text ++ QUOTE :: rest →
     parse p = Ret v (set_eof (ahead p (text ++ [QUOTE]) rest))) →
  reads T text v.
Proof.
  intros Hparse p rest Hwf Hi. pose proof (wf_pos p Hwf).
  eexists. unfold string_token. rewrite (Hparse (start_string p) rest).
  - done.
  - by apply start_string_wf.
  - split; [cbn; lia|done].
  - done.
  - done.
Qed.

(** A parser that stops before the end. *)
Lemma reads_prefix text text' (v : T) :
  Forall plain text' →
  (∀ p rest, wf p → in_string p → is_eof p = false → iter p = (text ++ text') ++ QUOTE :: rest →
     parse p = Ret v (ahead p text (text' ++ QUOTE :: rest))) →
  reads T (text ++ text') v.
Proof.
  intros Hpl Hparse p rest Hwf Hi. pose proof (wf_pos p Hwf).
  eexists. unfold string_token. rewrite (Hparse (start_string p) rest).
  - unfold eof_or_skip. cbn [is_eof ahead set_iter start_string]. unfold skip_string.
    cbn [iter ahead set_iter]. rewrite skip_loop_plain by done. done.
  - by apply start_string_wf.
  - split; [cbn; lia|done].
  - done.
  - done.
Qed.
End reads.

(** The text between two positions. *)
Lemma slice_text p text rest :
  wf p → iter p = text ++ QUOTE :: rest →
  slice (bytes p) (pos p) (wrap 64 (pos p + Z.of_nat (length (text ++ [QUOTE])) - 1)) = Some text.
Proof.
  intros Hwf Hi. pose proof (wf_pos p Hwf) as Hp. pose proof (wf_size p Hwf) as Hs.
  pose proof (wf_length p Hwf) as Hl. rewrite Hi, length_app in Hl. cbn in Hl.
  rewrite length_app. cbn [length]. rewrite wrap_small by (unfold uint_ok; lia).
  unfold slice. rewrite decide_True by lia. rewrite <-(wf_iter p Hwf), Hi. f_equal.
  replace (Z.to_nat _) with (length text) by lia. by rewrite take_app_length.
Qed.

(** A loop that stops within a text. *)
Lemma while_loop_break {St R} (body : St → Z → flow St R) after fuel s s1 s2 t1 c t2 p :
  Forall plain t1 → plain c → run body s t1 = Some s1 → body s1 c = Break s2 →
  iter p = t1 ++ c :: t2 → (length t1 ≤ fuel)%nat →
  while_loop fuel body after s p = after s2 (ahead p (t1 ++ [c]) t2).
Proof.
  revert fuel s p. induction t1 as [|x t1 IH]; intros fuel s p Hpl Hc Hrun Hb Hi Hf.
  - injection Hrun as ->. cbn [app] in Hi.
    destruct fuel; cbn [while_loop]; by rewrite (next_unescaped_plain _ _ _ Hc Hi), Hb.
  - inversion Hpl as [|? ? Hx Hpl']; subst. cbn in Hrun. destruct (body s x) as [s3| |] eqn:Hbx; try done.
    destruct fuel as [|fuel]; [cbn in Hf; lia|]. cbn [while_loop app] in *.
    rewrite (next_unescaped_plain _ _ _ Hx Hi), Hbx.
    rewrite (IH fuel s3); try done; [|cbn in Hf; lia]. by rewrite ahead_ahead.
Qed.

Lemma eof_or_skip_plain p t1 t2 rest :
  is_eof p = false → Forall plain t2 →
  eof_or_skip (ahead p t1 (t2 ++ QUOTE :: rest)) = (true, set_eof (ahead p ((t1 ++ t2) ++ [QUOTE]) rest)).
Proof.
  intros He Hpl. unfold eof_or_skip. change (is_eof (ahead _ _ _)) with (is_eof p). rewrite He.
  unfold skip_string. change (iter (ahead _ _ ?l)) with l. rewrite skip_loop_plain by done.
  by rewrite ahead_ahead, app_assoc.
Qed.
