(* ===== verification/JmapEnums.v ===== *)
(** * JmapEnums: the enumerations of the JMAP protocol crate

    Models [crates/jmap-proto/src/types]: [acl.rs], [type_state.rs],
    [collection.rs] and [keyword.rs].  Their names are recognised by a number
    built from the characters, eight bits each; the tables below are the ones
    of the sources.  The theorems: every name is read back from its text, in
    JSON and in the store, and the three sets of flags satisfy the laws of
    [Bitset]. *)

From stdpp Require Import base gmap sorting strings numbers list.
From S2P Require Import Prelude Codec Keys Serde Batch Utf8 VecMap Bitset Json JsonTheory JsonPrint JsonText.
Import Json.
Open Scope Z_scope.

(** [match hash] over a table. *)
Fixpoint assoc {A} (hash : Z) (table : list (Z * A)) : option A :=
  match table with
  | [] => None
  | (h, a) :: table => if h =? hash then Some a else assoc hash table
  end.

(** The parser of a name: the characters are collected in a [u128], a
    seventeenth one is an error. *)
Definition parse_enum {A} (table : list (Z * A)) : M A :=
  while_unescaped
    (λ '(hash, shift) ch,
      if shift <? 128 then Continue (hash_step 128 hash shift ch, shift + 8) else Return error_value)
    (λ '(hash, _),
      match assoc hash table with
      | Some a => mret a
      | None => error_value
      end) (0, 0).

(** ** [Acl] *)

Module Acl.
Inductive Acl :=
  | Read | Modify | Delete | ReadItems | AddItems | ModifyItems | RemoveItems | CreateChild
  | Administer | Submit | None.

#[global] Instance Acl_eq_dec : EqDecision Acl.
Proof. solve_decision. Defined.

(** [as u64] and [From<u64>] *)
Definition into_u64 (a : Acl) : Z :=
  match a with
  | Read => 0
  | Modify => 1
  | Delete => 2
  | ReadItems => 3
  | AddItems => 4
  | ModifyItems => 5
  | RemoveItems => 6
  | CreateChild => 7
  | Administer => 8
  | Submit => 9
  | None => 10
  end.
Definition from_u64 (value : Z) : Acl :=
  default None (assoc value
  [(0, Read); (1, Modify); (2, Delete); (3, ReadItems); (4, AddItems); (5, ModifyItems);
   (6, RemoveItems); (7, CreateChild); (8, Administer); (9, Submit)]).

Definition as_str (a : Acl) : string :=
  match a with
  | Read => "read"
  | Modify => "modify"
  | Delete => "delete"
  | ReadItems => "readItems"
  | AddItems => "addItems"
  | ModifyItems => "modifyItems"
  | RemoveItems => "removeItems"
  | CreateChild => "createChild"
  | Administer => "administer"
  | Submit => "submit"
  | None => ""
  end.

Definition hashes : list (Z * Acl) :=
  [(0x64616572, Read); (0x796669646f6d, Modify); (0x6574656c6564, Delete);
   (0x00736d65744964616572, ReadItems); (0x736d657449646461, AddItems);
   (0x00736d657449796669646f6d, ModifyItems); (0x00736d65744965766f6d6572, RemoveItems);
   (0x00646c696843657461657263, CreateChild); (0x72657473696e696d6461, Administer);
   (0x74696d627573, Submit)].

#[global] Instance parse_acl : JsonObjectParser Acl := parse_enum hashes.

(** [BitmapItem for Acl] *)
#[global] Instance acl_item : Bitmap.BitmapItem Acl := {|
  Bitmap.item_max := into_u64 None;
  Bitmap.is_valid a := negb (bool_decide (a = None));
  Bitmap.into_u64 := into_u64;
  Bitmap.from_u64 := from_u64;
|}.
End Acl.

(** ** [DataType] *)

Module DataType.
Inductive DataType :=
  | Email | EmailDelivery | EmailSubmission | Mailbox | Thread | Identity | Core
  | PushSubscription | SearchSnippet | VacationResponse | Mdn | Quota | SieveScript | None.

#[global] Instance DataType_eq_dec : EqDecision DataType.
Proof. solve_decision. Defined.

(** [as u64] and [From<u64>] *)
Definition into_u64 (d : DataType) : Z :=
  match d with
  | Email => 0
  | EmailDelivery => 1
  | EmailSubmission => 2
  | Mailbox => 3
  | Thread => 4
  | Identity => 5
  | Core => 6
  | PushSubscription => 7
  | SearchSnippet => 8
  | VacationResponse => 9
  | Mdn => 10
  | Quota => 11
  | SieveScript => 12
  | None => 13
  end.
Definition from_u64 (value : Z) : DataType :=
  default None (assoc value
  [(0, Email); (1, EmailDelivery); (2, EmailSubmission); (3, Mailbox); (4, Thread);
   (5, Identity); (6, Core); (7, PushSubscription); (8, SearchSnippet); (9, VacationResponse);
   (10, Mdn); (11, Quota); (12, SieveScript)]).

Definition as_str (d : DataType) : string :=
  match d with
  | Email => "Email"
  | EmailDelivery => "EmailDelivery"
  | EmailSubmission => "EmailSubmission"
  | Mailbox => "Mailbox"
  | Thread => "Thread"
  | Identity => "Identity"
  | Core => "Core"
  | PushSubscription => "PushSubscription"
  | SearchSnippet => "SearchSnippet"
  | VacationResponse => "VacationResponse"
  | Mdn => "MDN"
  | Quota => "Quota"
  | SieveScript => "SieveScript"
  | None => ""
  end.

Definition hashes : list (Z * DataType) :=
  [(0x006c69616d45, Email); (0x0079726576696c65446c69616d45, EmailDelivery);
   (0x006e6f697373696d6275536c69616d45, EmailSubmission); (0x00786f626c69614d, Mailbox);
   (0x646165726854, Thread); (0x797469746e656449, Identity); (0x65726f43, Core);
   (0x6e6f6974706972637362755368737550, PushSubscription);
   (0x0074657070696e53686372616553, SearchSnippet);
   (0x65736e6f707365526e6f697461636156, VacationResponse); (0x004e444d, Mdn);
   (0x0061746f7551, Quota); (0x007470697263536576656953, SieveScript)].

#[global] Instance parse_data_type : JsonObjectParser DataType := parse_enum hashes.

(** [TryFrom<&str>] *)
Fixpoint hash_bytes (hash shift : Z) (bs : list Z) : option Z :=
  match bs with
  | [] => Some hash
  | ch :: bs =>
      if shift <? 128 then hash_bytes (hash_step 128 hash shift ch) (shift + 8) bs else Datatypes.None
  end.
Definition try_from_str (value : list Z) : option DataType :=
  hash ← hash_bytes 0 0 value; assoc hash hashes.

(** [BitmapItem for DataType] *)
#[global] Instance data_type_item : Bitmap.BitmapItem DataType := {|
  Bitmap.item_max := into_u64 None;
  Bitmap.is_valid d := negb (bool_decide (d = None));
  Bitmap.into_u64 := into_u64;
  Bitmap.from_u64 := from_u64;
|}.

(** [SerializeInto], [DeserializeFrom]: one byte. *)
Definition data_type_serialize_into (d : DataType) (buf : list Z) : list Z := buf ++ [into_u64 d].
Definition data_type_deserialize_from (it : list Z) : option (DataType * list Z) :=
  match it with
  | [] => Datatypes.None
  | b :: it =>
      match assoc b
      [(0, Email); (1, EmailDelivery); (2, EmailSubmission); (3, Mailbox); (4, Thread);
       (5, Identity); (6, Core); (7, PushSubscription); (8, SearchSnippet);
       (9, VacationResponse); (10, Mdn); (11, Quota); (12, SieveScript)] with
      | Some d => Some (d, it)
      | Datatypes.None => Datatypes.None
      end
  end.
#[global] Instance data_type_into : SerializeInto DataType := data_type_serialize_into.
#[global] Instance data_type_from : DeserializeFrom DataType := data_type_deserialize_from.
End DataType.

(** ** [Collection] *)

Module Collection.
Inductive Collection :=
  | Email | Mailbox | Thread | Identity | EmailSubmission | SieveScript | PushSubscription
  | Principal | None.

#[global] Instance Collection_eq_dec : EqDecision Collection.
Proof. solve_decision. Defined.

(** [as u8], [as u64], and [From<u8>], [From<u64>], which have one table. *)
Definition into_u64 (c : Collection) : Z :=
  match c with
  | Email => 0
  | Mailbox => 1
  | Thread => 2
  | Identity => 3
  | EmailSubmission => 4
  | SieveScript => 5
  | PushSubscription => 6
  | Principal => 7
  | None => 8
  end.
Definition from_u64 (v : Z) : Collection :=
  default None (assoc v
  [(0, Email); (1, Mailbox); (2, Thread); (3, Identity); (4, EmailSubmission);
   (5, SieveScript); (6, PushSubscription); (7, Principal)]).

(** [TryFrom<Collection> for DataType] *)
Definition data_type (c : Collection) : option DataType.DataType :=
  match c with
  | Email => Some DataType.Email
  | Mailbox => Some DataType.Mailbox
  | Thread => Some DataType.Thread
  | Identity => Some DataType.Identity
  | EmailSubmission => Some DataType.EmailSubmission
  | SieveScript => Some DataType.SieveScript
  | PushSubscription => Some DataType.PushSubscription
  | _ => Datatypes.None
  end.

Definition as_str (c : Collection) : string :=
  match c with
  | PushSubscription => "pushSubscription"
  | Email => "email"
  | Mailbox => "mailbox"
  | Thread => "thread"
  | Identity => "identity"
  | EmailSubmission => "emailSubmission"
  | SieveScript => "sieveScript"
  | Principal => "principal"
  | None => ""
  end.

(** [BitmapItem for Collection] *)
#[global] Instance collection_item : Bitmap.BitmapItem Collection := {|
  Bitmap.item_max := into_u64 None;
  Bitmap.is_valid c := negb (bool_decide (c = None));
  Bitmap.into_u64 := into_u64;
  Bitmap.from_u64 := from_u64;
|}.
End Collection.

(** ** [Keyword] *)

Module Keyword.
Definition SEEN : Z := 0.
Definition DRAFT : Z := 1.
Definition FLAGGED : Z := 2.
Definition ANSWERED : Z := 3.
Definition RECENT : Z := 4.
Definition IMPORTANT : Z := 5.
Definition PHISHING : Z := 6.
Definition JUNK : Z := 7.
Definition NOTJUNK : Z := 8.
Definition DELETED : Z := 9.
Definition FORWARDED : Z := 10.
Definition MDN_SENT : Z := 11.
Definition OTHER : Z := 12.

Inductive Keyword :=
  | Seen | Draft | Flagged | Answered | Recent | Important | Phishing | Junk | NotJunk
  | Deleted | Forwarded | MdnSent | Other (s : list Z).

#[global] Instance Keyword_eq_dec : EqDecision Keyword.
Proof. solve_decision. Defined.

Definition hashes : list (Z * Keyword) :=
  [(0x6e656573, Seen); (0x007466617264, Draft); (0x0064656767616c66, Flagged);
   (0x6465726577736e61, Answered); (0x746e65636572, Recent);
   (0x00746e6174726f706d69, Important); (0x676e696873696870, Phishing); (0x6b6e756a, Junk);
   (0x006b6e756a746f6e, NotJunk); (0x00646574656c6564, Deleted);
   (0x00646564726177726f66, Forwarded); (0x00746e65736e646d, MdnSent)].

(** [to_string] *)
Definition to_string (k : Keyword) : list Z :=
  match k with
  | Seen => str_bytes "$seen"
  | Draft => str_bytes "$draft"
  | Flagged => str_bytes "$flagged"
  | Answered => str_bytes "$answered"
  | Recent => str_bytes "$recent"
  | Important => str_bytes "$important"
  | Phishing => str_bytes "$phishing"
  | Junk => str_bytes "$junk"
  | NotJunk => str_bytes "$notjunk"
  | Deleted => str_bytes "$deleted"
  | Forwarded => str_bytes "$forwarded"
  | MdnSent => str_bytes "$mdnsent"
  | Other s => s
  end.

(** The text of an unknown keyword, from where it starts; the escapes in it
    stay as they are. *)
Definition other_keyword (start : Z) : M Keyword := λ p,
  match eof_or_skip p with
  | (true, p) =>
      match slice (bytes p) start (before p) with
      | Some text => Ret (Other (Utf8.from_utf8_lossy text)) p
      | None => Panic
      end
  | (false, p) => Throw (error_unterminated p) p
  end.

(** [JsonObjectParser for Keyword]; the loop stops after 16 characters. *)
#[global] Instance parse_keyword : JsonObjectParser Keyword := λ p,
  let start := pos p in
  (first ← next_unescaped;
   match first with
   | None => error_value
   | Some ch =>
       if ch =? 36 then
         while_unescaped
           (λ '(hash, shift) ch,
             if shift <? 128 then Continue (hash_step 128 hash shift ch, shift + 8)
             else Break (hash, shift))
           (λ '(hash, _),
             match assoc hash hashes with
             | Some keyword => mret keyword
             | None => other_keyword start
             end) (0, 0)
       else other_keyword start
   end) p.

(** [From<String>]: the hash includes the dollar sign. *)
Fixpoint hash_prefix (hash shift : Z) (bs : list Z) : Z :=
  match bs with
  | [] => hash
  | ch :: bs => if shift <? 128 then hash_prefix (hash_step 128 hash shift ch) (shift + 8) bs else hash
  end.
Definition from_string (value : list Z) : Keyword :=
  match value with
  | 36 :: _ => default (Other value) (assoc (hash_prefix 0 0 value) hashes)
  | _ => Other value
  end.

(** [Serialize] *)
Definition serialize (k : Keyword) : list Z :=
  match k with
  | Seen => [SEEN]
  | Draft => [DRAFT]
  | Flagged => [FLAGGED]
  | Answered => [ANSWERED]
  | Recent => [RECENT]
  | Important => [IMPORTANT]
  | Phishing => [PHISHING]
  | Junk => [JUNK]
  | NotJunk => [NOTJUNK]
  | Deleted => [DELETED]
  | Forwarded => [FORWARDED]
  | MdnSent => [MDN_SENT]
  | Other string => string
  end.

(** [SerializeInto] *)
Definition keyword_serialize_into (k : Keyword) : list Z → list Z :=
  match k with
  | Seen => λ buf, buf ++ [SEEN]
  | Draft => λ buf, buf ++ [DRAFT]
  | Flagged => λ buf, buf ++ [FLAGGED]
  | Answered => λ buf, buf ++ [ANSWERED]
  | Recent => λ buf, buf ++ [RECENT]
  | Important => λ buf, buf ++ [IMPORTANT]
  | Phishing => λ buf, buf ++ [PHISHING]
  | Junk => λ buf, buf ++ [JUNK]
  | NotJunk => λ buf, buf ++ [NOTJUNK]
  | Deleted => λ buf, buf ++ [DELETED]
  | Forwarded => λ buf, buf ++ [FORWARDED]
  | MdnSent => λ buf, buf ++ [MDN_SENT]
  | Other string => λ buf, Leb128.push_leb128 buf (wrap 64 (OTHER + Z.of_nat (length string))) ++ string
  end.

Definition keyword_of_number : list (Z * Keyword) :=
  [(SEEN, Seen); (DRAFT, Draft); (FLAGGED, Flagged); (ANSWERED, Answered); (RECENT, Recent);
   (IMPORTANT, Important); (PHISHING, Phishing); (JUNK, Junk); (NOTJUNK, NotJunk);
   (DELETED, Deleted); (FORWARDED, Forwarded); (MDN_SENT, MdnSent)].

(** [DeserializeFrom]; the length of an unknown keyword is what its number
    exceeds the known ones by. *)
Definition keyword_deserialize_from (it : list Z) : option (Keyword * list Z) :=
  match Leb128.next_leb128 Leb128.Usize it with
  | (None, _) => None
  | (Some n, it) =>
      match assoc n keyword_of_number with
      | Some keyword => Some (keyword, it)
      | None =>
          let len := Z.to_nat (wrap 64 (n - OTHER)) in
          let keyword := take len it in
          if (length keyword =? len)%nat && Utf8.from_utf8 keyword
          then Some (Other keyword, drop len it) else None
      end
  end.
#[global] Instance keyword_into : SerializeInto Keyword := keyword_serialize_into.
#[global] Instance keyword_from : DeserializeFrom Keyword := keyword_deserialize_from.

(** [id], [into_id]: the number, or the text. *)
Definition id (k : Keyword) : Z + list Z :=
  match k with
  | Seen => inl SEEN
  | Draft => inl DRAFT
  | Flagged => inl FLAGGED
  | Answered => inl ANSWERED
  | Recent => inl RECENT
  | Important => inl IMPORTANT
  | Phishing => inl PHISHING
  | Junk => inl JUNK
  | NotJunk => inl NOTJUNK
  | Deleted => inl DELETED
  | Forwarded => inl FORWARDED
  | MdnSent => inl MDN_SENT
  | Other string => inr string
  end.

(** [From<Keyword> for TagValue<u32>] and [TagValue<MaybeDynamicId>] *)
Definition tag_value (k : Keyword) : TagValue Z :=
  match id k with inl id => TagId id | inr string => TagText string end.
Definition tag_value_dynamic (k : Keyword) : TagValue MaybeDynamicId :=
  match id k with inl id => TagId (Static id) | inr string => TagText string end.

(** [ToBitmaps]: the operations of a keyword. *)
Definition keyword_to_bitmaps (k : Keyword) (field : Z) (set : bool) : list Operation :=
  [OpBitmap (Tag field (tag_value_dynamic k)) set].
End Keyword.

(** ** Names and their texts *)

(** The hash of a text by the loop of the parsers. *)
Definition text_hash (text : list Z) : option Z :=
  fst <$> run (R := ()) (λ '(hash, shift) ch,
    if shift <? 128 then Continue (hash_step 128 hash shift ch, shift + 8) else Break (hash, shift)) (0, 0) text.

(** Whether the table recognises a text. *)
Definition recognises {A} `{EqDecision A} (table : list (Z * A)) (text : list Z) (a : A) : bool :=
  bool_decide (Forall plain text) &&
  match text_hash text with Some h => bool_decide (assoc h table = Some a) | None => false end.

Lemma run_flow {St R R'} (f : St → Z → flow St R) (g : St → Z → flow St R') s text :
  (∀ s ch s', f s ch = Continue s' ↔ g s ch = Continue s') → run f s text = run g s text.
Proof.
  intros Hfg. revert s. induction text as [|c text IH]; intros s; cbn; [done|].
  pose proof (Hfg s c) as Hc. destruct (f s c) as [s1|s1|r1], (g s c) as [s2|s2|r2]; try done.
  - assert (Continue s1 = Continue s2 :> flow St R') as [= ->]; [|done]. symmetry. by apply Hc.
  - discriminate (proj1 (Hc s1) eq_refl).
  - discriminate (proj1 (Hc s1) eq_refl).
  - discriminate (proj2 (Hc s2) eq_refl).
  - discriminate (proj2 (Hc s2) eq_refl).
Qed.

Lemma recognises_spec {A} `{EqDecision A} (table : list (Z * A)) text a :
  recognises table text a = true →
  Forall plain text ∧ ∃ h sh, assoc h table = Some a ∧
    ∀ R (alt : Z * Z → flow (Z * Z) R), (∀ s s', alt s ≠ Continue s') →
      run (λ '(hash, shift) ch,
        if shift <? 128 then Continue (hash_step 128 hash shift ch, shift + 8) else alt (hash, shift))
        (0, 0) text = Some (h, sh).
Proof.
  unfold recognises, text_hash. intros [Hpl%bool_decide_eq_true Hh]%andb_true_iff. split; [done|].
  destruct (run _ (0, 0) text) as [[h sh]|] eqn:Hrun; cbn in Hh; [|done].
  apply bool_decide_eq_true in Hh. exists h, sh. split; [done|]. intros R alt Halt.
  rewrite <-Hrun. apply run_flow. intros [hash shift] ch [h' s'].
  destruct (shift <? 128); [split; intros [= <- <-]; done|].
  split; [by intros ?%Halt|done].
Qed.

Lemma parse_enum_reads `{FastFloat} {A} `{EqDecision A} (table : list (Z * A)) text a :
  recognises table text a = true → @reads _ A (parse_enum table) text a.
Proof.
  intros (Hpl & h & sh & Ha & Hrun)%recognises_spec. apply reads_eof. intros p rest Hwf _ _ Hi.
  unfold parse, parse_enum. rewrite (while_run _ _ _ (h, sh) text p rest); [by rewrite Ha|done| |done].
  by apply (Hrun _ (λ _, Return error_value)).
Qed.

Lemma parse_enum_safe {A} (table : list (Z * A)) p :
  wf p → is_eof p = false → in_string p → string_ok p (parse_enum table p).
Proof.
  intros. apply (while_safe (λ _, True)); try done.
  - intros [hash shift] q **. destruct (assoc hash table); auto with json.
  - intros [hash shift] ch q **. destruct (shift <? 128); auto with json.
Qed.

#[export] Instance acl_safe : StringParserLaws Acl.Acl.
Proof. intros p. apply parse_enum_safe. Qed.
#[export] Instance data_type_safe : StringParserLaws DataType.DataType.
Proof. intros p. apply parse_enum_safe. Qed.

#[export] Instance acl_item_laws : Bitmap.BitmapItemLaws Acl.Acl.
Proof.
  constructor; [cbn; lia|by intros []|by intros []|].
  intros n Hn. cbn in Hn. assert (n ∈ seqZ 0 10) as Hin by (apply elem_of_seqZ; lia).
  cbn in Hin. repeat (apply elem_of_cons in Hin as [-> |Hin]; [by split|]). by apply elem_of_nil in Hin.
Qed.
#[export] Instance data_type_item_laws : Bitmap.BitmapItemLaws DataType.DataType.
Proof.
  constructor; [cbn; lia|by intros []|by intros []|].
  intros n Hn. cbn in Hn. assert (n ∈ seqZ 0 13) as Hin by (apply elem_of_seqZ; lia).
  cbn in Hin. repeat (apply elem_of_cons in Hin as [-> |Hin]; [by split|]). by apply elem_of_nil in Hin.
Qed.
#[export] Instance collection_item_laws : Bitmap.BitmapItemLaws Collection.Collection.
Proof.
  constructor; [cbn; lia|by intros []|by intros []|].
  intros n Hn. cbn in Hn. assert (n ∈ seqZ 0 8) as Hin by (apply elem_of_seqZ; lia).
  cbn in Hin. repeat (apply elem_of_cons in Hin as [-> |Hin]; [by split|]). by apply elem_of_nil in Hin.
Qed.

(** The set of the read and the delete right. *)
Lemma bitmap_set_semantics_witness :
  let b := Bitmap.insert (Bitmap.insert Bitmap.new Acl.Read) Acl.Delete in
  Bitmap.from_iter (T := Acl.Acl) (Bitmap.into_vec b) = b ∧
  Bitmap.contains (Bitmap.union b (Bitmap.insert Bitmap.new Acl.Administer)) Acl.Read = true.
Proof.
  intros b.
  assert (Bitmap.wf (T := Acl.Acl) b) as Hb by (split; by vm_compute).
  assert (Bitmap.wf (T := Acl.Acl) (Bitmap.insert Bitmap.new Acl.Administer)) as Hw
    by (split; by vm_compute).
  destruct (Bitmap.bitmap_set_semantics b _ Acl.Read Acl.Read Hb Hw eq_refl eq_refl)
    as (_ & _ & [_ Hu] & _ & _ & _ & _ & Hf).
  split; [exact Hf|by rewrite Hu].
Defined.

(** Removing a right that is not in the set adds it. *)
Example bitmap_remove_absent :
  Bitmap.contains (Bitmap.remove Bitmap.new Acl.Delete) Acl.Delete = true.
Proof. reflexivity. Qed.

(** ** Keywords *)

Section keyword.
Import Keyword.

Lemma other_keyword_safe start p :
  wf p → in_string p → 0 ≤ start < pos p ∨ (is_eof p = false ∧ 0 ≤ start ≤ pos p) →
  string_ok p (other_keyword start p).
Proof.
  intros Hwf Hin Hst. unfold other_keyword. destruct (eof_or_skip p) as [[] q] eqn:Hs; [|done].
  destruct (eof_or_skip_safe p q Hwf Hs) as (Ha & He & Hp). destruct Ha as (Hwq & Hf & Hle).
  assert (pos p < pos q ∨ pos p = pos q) as Hpq by lia.
  assert (start < pos q) as Hlt by (destruct Hst as [?|[E ?]]; [lia|specialize (Hp E); lia]).
  destruct (slice_some (bytes q) start (before q)) as [text ->].
  - rewrite before_spec by (done || lia). lia.
  - rewrite before_spec by (done || lia). pose proof (wf_pos q Hwq). lia.
  - cbn. split; [by split_and!|]. destruct Hin as [Hm Hin']. split; [rewrite (frame_marker _ _ Hf); lia|].
    intros _. rewrite (frame_marker _ _ Hf).
    destruct (is_eof p); [specialize (Hin' eq_refl); lia|specialize (Hp eq_refl); lia].
Qed.

#[export] Instance keyword_safe : StringParserLaws Keyword.
Proof.
  intros p Hwf He Hin. unfold parse, parse_keyword.
  pose proof (wf_pos p Hwf). pose proof (next_unescaped_safe p Hwf He) as Hn.
  unfold mbind, M_bind. destruct (next_unescaped p) as [c q|[m|m] q| |]; cbn [post] in Hn; try done.
  destruct Hn as (Ha & Hlt & Heq). pose proof (proj1 Ha) as Hwq.
  assert (in_string q) as Hq by (by eapply in_string_advances).
  eapply string_ok_advances; [exact Ha|].
  destruct c as [c|]; [|by apply error_value_safe].
  destruct (c =? 36); [|apply other_keyword_safe; auto; lia].
  apply (while_safe (λ _, True)); try done.
  - intros [h sh] r _ Hwr Hr Har _. destruct (assoc h hashes); [by apply string_ok_ret|].
    apply other_keyword_safe; try done. left. destruct Har as (_ & _ & ?). lia.
  - intros [h sh] ch r _ Hwr Hr Har _. destruct (sh <? 128); [done|].
    destruct (assoc h hashes); [by apply string_ok_ret|].
    apply other_keyword_safe; try done. left. destruct Har as (_ & _ & ?). lia.
Qed.

Lemma hash_run {R} (alt : Z * Z → flow (Z * Z) R) n text hash :
  (n + length text ≤ 16)%nat →
  run (λ '(hash, shift) ch,
    if shift <? 128 then Continue (hash_step 128 hash shift ch, shift + 8) else alt (hash, shift))
    (hash, 8 * Z.of_nat n) text
  = Some (hash_prefix hash (8 * Z.of_nat n) text, 8 * Z.of_nat (n + length text)).
Proof.
  revert n hash. induction text as [|c text IH]; intros n hash Hn; cbn [run hash_prefix length] in *.
  - by rewrite Nat.add_0_r.
  - destruct (Z.ltb_spec (8 * Z.of_nat n) 128) as [_|?]; [|lia].
    replace (8 * Z.of_nat n + 8) with (8 * Z.of_nat (S n)) by lia. rewrite IH by lia.
    by rewrite Nat.add_succ_comm.
Qed.

Lemma hash_prefix_take n text hash :
  (n ≤ 16)%nat →
  hash_prefix hash (8 * Z.of_nat n) (take (16 - n) text) = hash_prefix hash (8 * Z.of_nat n) text.
Proof.
  revert n hash. induction text as [|c text IH]; intros n hash Hn; [by rewrite take_nil|].
  destruct (decide (n = 16%nat)) as [-> |Hne]; [done|].
  replace (16 - n)%nat with (S (16 - S n)) by lia. cbn [take hash_prefix].
  destruct (Z.ltb_spec (8 * Z.of_nat n) 128) as [_|?]; [|lia].
  replace (8 * Z.of_nat n + 8) with (8 * Z.of_nat (S n)) by lia. apply IH. lia.
Qed.

(** The texts of unknown keywords that are kept as they are. *)
Definition other_text (s : list Z) : Prop :=
  s ≠ [] ∧ Forall plain s ∧ Utf8.from_utf8 s = true ∧
  ∀ tl, s = 36 :: tl → assoc (hash_prefix 0 0 tl) hashes = None.

Lemma other_keyword_end p q text rest :
  wf p → iter p = text ++ QUOTE :: rest → Utf8.from_utf8 text = true →
  q = set_eof (ahead p (text ++ [QUOTE]) rest) →
  other_keyword (pos p) q = Ret (Other text) q.
Proof.
  intros Hwf Hi Hu ->. unfold other_keyword, eof_or_skip. cbn [is_eof set_eof].
  unfold before. cbn [bytes pos set_eof ahead set_iter].
  rewrite (slice_text p text rest) by done. by rewrite Utf8.from_utf8_lossy_valid.
Qed.

Lemma other_keyword_rest p text1 text2 rest :
  wf p → is_eof p = false → Forall plain text2 → iter p = (text1 ++ text2) ++ QUOTE :: rest →
  Utf8.from_utf8 (text1 ++ text2) = true →
  other_keyword (pos p) (ahead p text1 (text2 ++ QUOTE :: rest))
  = Ret (Other (text1 ++ text2)) (set_eof (ahead p ((text1 ++ text2) ++ [QUOTE]) rest)).
Proof.
  intros Hwf He Hpl Hi Hu. rewrite <-(other_keyword_end p _ _ rest Hwf Hi Hu eq_refl).
  unfold other_keyword. rewrite eof_or_skip_plain by done. done.
Qed.

Lemma keyword_first p c text :
  plain c → iter p = c :: text →
  parse (T := Keyword) p =
    (if c =? 36 then
       while_unescaped
         (λ '(hash, shift) ch,
           if shift <? 128 then Continue (hash_step 128 hash shift ch, shift + 8) else Break (hash, shift))
         (λ '(hash, _),
           match assoc hash hashes with Some keyword => mret keyword | None => other_keyword (pos p) end) (0, 0)
     else other_keyword (pos p)) (ahead p [c] text).
Proof.
  intros Hc Hi. unfold parse, parse_keyword, mbind, M_bind. rewrite (next_unescaped_plain _ _ _ Hc Hi).
  by destruct (c =? 36).
Qed.

(** An unknown keyword with a dollar sign and more than 16 characters: the
    loop stops at the seventeenth. *)
Lemma long_keyword p s rest :
  wf p → is_eof p = false → Forall plain s → Utf8.from_utf8 (36 :: s) = true →
  (16 < length s)%nat → assoc (hash_prefix 0 0 s) hashes = None →
  iter p = (36 :: s) ++ QUOTE :: rest →
  parse (T := Keyword) p = Ret (Other (36 :: s)) (set_eof (ahead p ((36 :: s) ++ [QUOTE]) rest)).
Proof.
  intros Hwf He Hpl Hu Hlen Hhash Hi. rewrite (keyword_first p 36 _ ltac:(done) Hi). cbn [Z.eqb Pos.eqb].
  destruct (drop 16 s) as [|x s2] eqn:Hd.
  { apply (f_equal length) in Hd. rewrite length_drop in Hd. cbn in Hd. lia. }
  pose proof (take_drop 16 s) as Hs. rewrite Hd in Hs.
  assert (Forall plain (take 16 s) ∧ plain x ∧ Forall plain s2) as (Hp1 & Hpx & Hp2).
  { rewrite <-Hs in Hpl. apply Forall_app in Hpl as [? [? ?]%Forall_cons]. done. }
  assert (36 :: s = (36 :: take 16 s ++ [x]) ++ s2) as Heq.
  { cbn [app]. rewrite <-app_assoc. cbn [app]. by rewrite Hs. }
  unfold while_unescaped.
  rewrite (while_loop_break _ _ _ _ _ (hash_prefix 0 0 s, 128) (take 16 s) x (s2 ++ QUOTE :: rest) _
    Hp1 Hpx (hash_run (λ '(h, s), Break (h, s)) 0 (take 16 s) 0 ltac:(rewrite length_take; lia))).
  - rewrite Hhash, ahead_ahead, Heq.
    apply (other_keyword_rest p (36 :: take 16 s ++ [x]) s2 rest); try done; by rewrite <-Heq.
  - rewrite length_take_le by lia. pose proof (hash_prefix_take 0 s 0 ltac:(lia)) as Ht.
    change (hash_prefix 0 0 (take 16 s) = hash_prefix 0 0 s) in Ht.
    change (Break (hash_prefix 0 0 (take 16 s), 128) = Break (R := Keyword) (hash_prefix 0 0 s, 128)).
    by rewrite Ht.
  - transitivity (s ++ QUOTE :: rest); [done|]. rewrite <-Hs at 1. by rewrite <-app_assoc.
  - change (iter (ahead _ _ ?l)) with l. rewrite length_take, length_app. lia.
Qed.

Lemma other_reads `{FastFloat} s : other_text s → reads Keyword s (Other s).
Proof.
  intros (Hne & Hpl & Hu & Hhash). apply reads_eof. intros p rest Hwf _ He Hi.
  destruct s as [|c s]; [done|]. apply Forall_cons in Hpl as [Hc Hpl].
  destruct (Z.eqb_spec c 36) as [-> |Hc36].
  - specialize (Hhash s eq_refl). destruct (decide (length s ≤ 16)%nat) as [Hlen|Hlen].
    + rewrite (keyword_first p 36 _ Hc Hi). cbn [Z.eqb Pos.eqb].
      rewrite (while_run _ _ _ _ s _ rest Hpl (hash_run (λ '(h, s), Break (h, s)) 0 s 0 Hlen)); [|done].
      change (8 * Z.of_nat 0) with 0. rewrite Hhash, ahead_ahead.
      by apply (other_keyword_end p _ (36 :: s) rest).
    + apply long_keyword; try done. lia.
  - rewrite (keyword_first p c _ Hc Hi). destruct (Z.eqb_spec c 36); [done|].
    by apply (other_keyword_rest p [c] s rest).
Qed.

Lemma known_reads `{FastFloat} k name :
  to_string k = 36 :: name → recognises hashes name k = true → reads Keyword (to_string k) k.
Proof.
  intros -> (Hpl & h & sh & Ha & Hrun)%recognises_spec. apply reads_eof. intros p rest Hwf _ He Hi.
  rewrite (keyword_first p 36 _ ltac:(done) Hi). cbn [Z.eqb Pos.eqb].
  rewrite (while_run _ _ _ (h, sh) name _ rest Hpl (Hrun _ (λ '(h, s), Break (h, s)) ltac:(by intros []))); [|done].
  by rewrite Ha, ahead_ahead.
Qed.

Lemma keyword_reads `{FastFloat} k :
  match k with Other s => other_text s | _ => True end → reads Keyword (to_string k) k.
Proof.
  destruct k; intros Hk; [..|by apply other_reads].
  all: eapply known_reads; [reflexivity|vm_compute; reflexivity].
Qed.
End keyword.

(** ** The store *)

#[export] Program Instance data_type_serde : SerdeLaws DataType.DataType := {|
  item_ok d := d ≠ DataType.None;
  item_bytes d := [DataType.into_u64 d];
|}.
Next Obligation. done. Qed.
Next Obligation. done. Qed.
Next Obligation.
  intros [|b it] x rest; [done|]. cbn -[assoc]. destruct (assoc b _); [|done]. intros [= _ <-]. cbn. lia.
Qed.
Next Obligation. by intros []. Qed.

Section keyword_serde.
Import Keyword.

Lemma keyword_bytes k buf : keyword_serialize_into k buf = buf ++ keyword_serialize_into k [].
Proof. destruct k; try done. cbn. by rewrite !push_leb128_spec, <-app_assoc. Qed.

Lemma keyword_of_number_other n : OTHER ≤ n → assoc n keyword_of_number = None.
Proof.
  unfold OTHER. intros Hn. cbn [assoc keyword_of_number].
  repeat (match goal with |- context [?a =? n] => destruct (Z.eqb_spec a n) as [E|_] end;
    [vm_compute in E; lia|]). done.
Qed.

Definition keyword_ok (k : Keyword) : Prop :=
  match k with
  | Other s => Utf8.from_utf8 s = true ∧ uint_ok 64 (OTHER + Z.of_nat (length s))
  | _ => True
  end.

Lemma keyword_deserialize_serialize k rest :
  keyword_ok k → keyword_deserialize_from (keyword_serialize_into k [] ++ rest) = Some (k, rest).
Proof.
  destruct k as [| | | | | | | | | | | |s]; intros Hk; try reflexivity.
  destruct Hk as [Hu Hlen]. unfold keyword_serialize_into, keyword_deserialize_from.
  rewrite push_leb128_spec, wrap_small by done. cbn [app]. rewrite <-app_assoc.
  rewrite Leb128.next_leb128_leb by (by split). rewrite keyword_of_number_other by lia.
  replace (wrap 64 _) with (Z.of_nat (length s)); [|rewrite wrap_small; [lia|unfold uint_ok, OTHER in *; lia]].
  rewrite Nat2Z.id, take_app_length, drop_app_length, Nat.eqb_refl, Hu. done.
Qed.

#[export] Program Instance keyword_serde : SerdeLaws Keyword := {|
  item_ok := keyword_ok;
  item_bytes k := keyword_serialize_into k [];
|}.
Next Obligation. intros. apply keyword_bytes. Qed.
Next Obligation.
  intros []; try done. cbn. rewrite push_leb128_spec. intros [Hl _]%app_eq_nil. by apply leb_nonempty in Hl.
Qed.
Next Obligation.
  intros it x rest. unfold deserialize_from, keyword_from, keyword_deserialize_from.
  destruct (Leb128.next_leb128 _ it) as [[n|] it'] eqn:Hn; [|done].
  apply from_leb128_it_consumes in Hn. destruct (assoc n keyword_of_number); [by intros [= _ <-]|].
  destruct (_ && _); [|done]. intros [= _ <-]. rewrite length_drop. lia.
Qed.
Next Obligation. intros k rest Hk. by apply keyword_deserialize_serialize. Qed.
End keyword_serde.

(** Every name is read back from its text.  The rights, the data types and
    the keywords, known or not, are returned by the tokenizer for the text the
    server prints for them, and the data types and keywords are also returned
    from the bytes they have in the store. *)
Theorem jmap_names_roundtrip `{FastFloat} a d k rest :
  a ≠ Acl.None → d ≠ DataType.None →
  match k with Keyword.Other s => other_text s ∧ Z.of_nat (length s) < 2 ^ 63 | _ => True end →
  reads Acl.Acl (str_bytes (Acl.as_str a)) a ∧
  reads DataType.DataType (str_bytes (DataType.as_str d)) d ∧
  DataType.try_from_str (str_bytes (DataType.as_str d)) = Some d ∧
  deserialize_from (serialize_into d [] ++ rest) = Some (d, rest) ∧
  reads Keyword.Keyword (Keyword.to_string k) k ∧
  deserialize_from (serialize_into k [] ++ rest) = Some (k, rest).
Proof.
  intros Ha Hd Hk. split_and!.
  - apply parse_enum_reads. destruct a; [vm_compute; reflexivity..|done].
  - apply parse_enum_reads. destruct d; [vm_compute; reflexivity..|done].
  - destruct d; [vm_compute; reflexivity..|done].
  - rewrite serialize_into_app. by apply deserialize_item.
  - apply keyword_reads. destruct k; try done. apply Hk.
  - rewrite serialize_into_app. apply deserialize_item. destruct k; try done. destruct Hk as [(_ & _ & Hu & _) Hl].
    split; [done|]. unfold uint_ok, Keyword.OTHER. lia.
Qed.

#[local] Existing Instance text_float.

Lemma jmap_names_roundtrip_witness :
  reads Keyword.Keyword (str_bytes "$seen") Keyword.Seen ∧
  deserialize_from (serialize_into (Keyword.Other (str_bytes "$work")) [] ++ [7])
    = Some (Keyword.Other (str_bytes "$work"), [7]).
Proof.
  split.
  - apply (jmap_names_roundtrip Acl.Read DataType.Email Keyword.Seen [7]); [discriminate..|exact I].
  - apply (jmap_names_roundtrip Acl.Read DataType.Email (Keyword.Other (str_bytes "$work")) [7]);
      [discriminate..|].
    split; [|vm_compute; reflexivity]. split_and!; [discriminate| |reflexivity|].
    + apply (bool_decide_unpack _). vm_compute. exact I.
    + intros tl [= <-]. reflexivity.
Defined.

(** [Keyword::from(String)] hashes the dollar sign with the name, and so
    recognises none of the known keywords. *)
Example keyword_from_string_known :
  Keyword.from_string (str_bytes "$seen") = Keyword.Other (str_bytes "$seen").
Proof. reflexivity. Qed.

(** Zero bytes after a name leave its hash as it is. *)
Example name_with_zero : reads Acl.Acl (str_bytes "read" ++ [0; 0]) Acl.Read.
Proof. apply parse_enum_reads. vm_compute. reflexivity. Qed.
