(* ===== verification/JmapIds.v ===== *)
(** * JmapIds: identifiers of the JMAP protocol crate

    Models [crates/jmap-proto/src/types]: [id.rs], [state.rs], [blob.rs] and
    [any_id.rs], with the Base32 reader over the JSON parser
    ([parser/base32.rs]).  The theorems: each identifier is read back from the
    text the server prints for it, and the printed texts of the ids have the
    digits of the number without leading zeros. *)

From stdpp Require Import base gmap sorting strings numbers list.
From S2P Require Import Prelude Codec Base32 Serde Utf8 Json JsonTheory JsonPrint JsonText JmapEnums.
Import Json.
Open Scope Z_scope.

(** [BASE32_INVERSE[ch as usize]], [None] for the entries that are [u8::MAX]. *)
Definition base32_digit (ch : Z) : option Z :=
  match Base32.BASE32_INVERSE !! Z.to_nat ch with
  | Some i => if i =? U8_MAX then None else Some i
  | None => None
  end.

(** ** [Id] *)

Module Id.
Record Id := { id : Z }.

#[global] Instance Id_eq_dec : EqDecision Id.
Proof. solve_decision. Defined.

(** [(id << 5) | i] *)
Definition push_digit (id i : Z) : Z := Z.lor (wrap 64 (Z.shiftl id 5)) i.

#[global] Instance parse_id : JsonObjectParser Id :=
  while_unescaped
    (λ id ch,
      match base32_digit ch with
      | Some i => Continue (push_digit id i)
      | None => Return error_value
      end)
    (λ id, mret {| id := id |}) 0.

Fixpoint digits_value (id : Z) (bs : list Z) : option Z :=
  match bs with
  | [] => Some id
  | ch :: bs => i ← base32_digit ch; digits_value (push_digit id i) bs
  end.
Definition from_bytes (bs : list Z) : option Id :=
  (λ id, {| id := id |}) <$> digits_value 0 bs.

Definition singleton : Id := {| id := 20080258862541 |}.
Definition is_singleton (i : Id) : bool := id i =? 20080258862541.
Definition is_valid (i : Id) : bool := negb (id i =? U64_MAX).
Definition default : Id := {| id := U64_MAX |}.

Definition STOP_BIT : Z := 2 ^ 60.

(** [n << k] on [u64] *)
Definition shl (n k : Z) : Z := wrap 64 (Z.shiftl n k).

(** The loop of [as_string]: the five highest bits until the stop bit. *)
Fixpoint five_loop (fuel : nat) (n : Z) (buf : list Z) : option (list Z) :=
  if n =? STOP_BIT then Some buf
  else match fuel with
       | O => None
       | S fuel => five_loop fuel (shl n 5) (buf ++ [Base32.alpha (Z.shiftr n 59)])
       end.

Definition leading_zeros (n : Z) : Z := 63 - Z.log2 n.

(** [as_string]; thirteen digits are enough for 64 bits. *)
Definition as_string (i : Id) : option (list Z) :=
  if id i =? 0 then Some (str_bytes "a")
  else
    let n := Z.lor (shl (id i) 4) 1 in
    let top := Z.shiftr (id i) 60 in
    if top =? 0 then five_loop 13 (shl n (leading_zeros n / 5 * 5)) []
    else five_loop 13 n [Base32.alpha top].

(** [from_parts], [document_id], [prefix_id] *)
Definition from_parts (prefix_id doc_id : Z) : Id :=
  {| id := Z.lor (wrap 64 (Z.shiftl prefix_id 32)) doc_id |}.
Definition document_id (i : Id) : Z := Z.land (id i) 0xFFFFFFFF.
Definition prefix_id (i : Id) : Z := Z.shiftr (id i) 32.
End Id.

(** ** Byte iterators *)

(** [Iterator<Item = u8>], with the LEB128 numbers of [Leb128Iterator]. *)
Class ByteIter (R : Type) := next_byte : R → option Z * R.

Section byte_iter.
Context {R : Type} `{ByteIter R}.

Fixpoint leb128_it (w : Z) (shifts : list Z) (result : Z) (it : R) : option Z * R :=
  match shifts with
  | [] => (None, it)
  | shift :: shifts =>
      match next_byte it with
      | (None, it) => (None, it)
      | (Some byte, it) =>
          if decide (Z.land byte 0x80 = 0)
          then (Some (Z.lor result (wrap w (Z.shiftl byte shift))), it)
          else leb128_it w shifts (Z.lor result (wrap w (Z.shiftl (Z.land byte 0x7F) shift))) it
      end
  end.
Definition iter_leb128 (ty : Leb128.int_ty) (it : R) : option Z * R :=
  leb128_it (Leb128.bits ty) (Leb128.shifts ty) 0 it.
End byte_iter.

#[export] Instance list_iter : ByteIter (list Z) := λ l,
  match l with [] => (None, []) | b :: l => (Some b, l) end.
#[export] Instance base32_iter : ByteIter Base32.Base32Reader := Base32.next.

(** ** [JsonBase32Reader] *)

(** The reader holds the parser. *)
Record JsonBase32Reader := { jr_parser : Parser; jr_last_byte : Z; jr_pos : nat }.

Definition jr_new (p : Parser) : JsonBase32Reader :=
  {| jr_parser := p; jr_last_byte := 0; jr_pos := 0 |}.

(** [map_byte]: an error of the parser is an end of the bytes. *)
Definition jr_map_byte (r : JsonBase32Reader) : option Z * JsonBase32Reader :=
  let keep p := {| jr_parser := p; jr_last_byte := jr_last_byte r; jr_pos := jr_pos r |} in
  match next_unescaped (jr_parser r) with
  | Ret (Some byte) p =>
      match base32_digit byte with
      | Some digit => (Some digit, {| jr_parser := p; jr_last_byte := digit; jr_pos := jr_pos r |})
      | None => (None, keep p)
      end
  | Ret None p | Throw _ p => (None, keep p)
  | Panic | Diverged => (None, r)
  end.

Definition jr_next (r : JsonBase32Reader) : option Z * JsonBase32Reader :=
  let p := (jr_pos r mod 5)%nat in
  let last := jr_last_byte r in
  match jr_map_byte r with
  | (None, r) => (None, r)
  | (Some byte, r) =>
      let r := {| jr_parser := jr_parser r; jr_last_byte := jr_last_byte r; jr_pos := S (jr_pos r) |} in
      match p with
      | 0%nat =>
          let '(c, r) := jr_map_byte r in
          (Some (Z.lor (Base32.shl8 byte 3) (Z.shiftr (default 0 c) 2)), r)
      | 1%nat =>
          let '(c, r) := jr_map_byte r in
          (Some (Z.lor (Z.lor (Base32.shl8 last 6) (Base32.shl8 byte 1)) (Z.shiftr (default 0 c) 4)), r)
      | 2%nat => (Some (Z.lor (Base32.shl8 last 4) (Z.shiftr byte 1)), r)
      | 3%nat =>
          let '(c, r) := jr_map_byte r in
          (Some (Z.lor (Z.lor (Base32.shl8 last 7) (Base32.shl8 byte 2)) (Z.shiftr (default 0 c) 3)), r)
      | 4%nat => (Some (Z.lor (Base32.shl8 last 5) byte), r)
      | _ => (None, r)
      end
  end.
#[export] Instance json_base32_iter : ByteIter JsonBase32Reader := jr_next.

(** [Leb128Writer::write_leb128], over a writer that takes all the bytes. *)
Definition write_leb128 {W} (write : W → list Z → option W) (w : W) (v : Z) : option W :=
  fst <$> Leb128.to_leb128_writer (λ w bs, w ← write w bs; Some (w, Z.of_nat (length bs))) v w.

(** ** [State] *)

Module State.
Record JMAPIntermediateState := { from_id : Z; to_id : Z; items_sent : Z }.

Inductive State :=
  | Initial
  | Exact (id : Z)
  | Intermediate (s : JMAPIntermediateState).

#[global] Instance State_eq_dec : EqDecision State.
Proof. unfold EqDecision, Decision. decide equality; [apply Z.eq_dec|decide equality; apply Z.eq_dec]. Defined.

(** [From<Option<ChangeId>>], [get_change_id] *)
Definition from_option (change_id : option Z) : State :=
  match change_id with Some id => Exact id | None => Initial end.
Definition get_change_id (s : State) : Z :=
  match s with Exact id => id | Intermediate i => to_id i | Initial => U64_MAX end.

Definition saturating_add (a b : Z) : Z := Z.min U64_MAX (a + b).

(** The state after its first character. *)
Definition parse_exact : M State := λ p,
  match iter_leb128 Leb128.U64 (jr_new p) with
  | (Some id, r) => Ret (Exact id) (jr_parser r)
  | (None, r) => error_value (jr_parser r)
  end.

(** The three numbers are read before any of them is looked at. *)
Definition parse_intermediate : M State := λ p,
  let '(from_id, r) := iter_leb128 Leb128.U64 (jr_new p) in
  let '(to_id, r) := iter_leb128 Leb128.U64 r in
  let '(items_sent, r) := iter_leb128 Leb128.Usize r in
  match from_id, to_id, items_sent with
  | Some from_id, Some to_id, Some items_sent =>
      if 0 <? items_sent then
        Ret (Intermediate {| from_id := from_id; to_id := saturating_add from_id to_id;
                             items_sent := items_sent |}) (jr_parser r)
      else error_value (jr_parser r)
  | _, _, _ => error_value (jr_parser r)
  end.

Definition state_parse : M State :=
  first ← next_unescaped;
  match first with
  | None => error_value
  | Some ch =>
      if ch =? 110 then mret Initial
      else if ch =? 115 then parse_exact
      else if ch =? 114 then parse_intermediate
      else error_value
  end.
#[global] Instance parse_state : JsonObjectParser State := state_parse.

(** [to_string] *)
Definition to_string (s : State) : option (list Z) :=
  let writer := Base32.with_capacity 10 in
  w ← match s with
      | Initial => Some (Base32.push_char writer 110)
      | Exact id => write_leb128 Base32.write (Base32.push_char writer 115) id
      | Intermediate i =>
          w ← write_leb128 Base32.write (Base32.push_char writer 114) (from_id i);
          w ← write_leb128 Base32.write w (wrap 64 (to_id i - from_id i));
          write_leb128 Base32.write w (items_sent i)
      end;
  Base32.finalize w.
End State.

(** ** [BlobId] *)

Module BlobId.
Definition B_LINKED : Z := 0x10.
Definition B_RESERVED : Z := 0x20.
Definition BLOB_HASH_LEN : nat := 32.

Inductive BlobClass :=
  | Reserved (account_id expires : Z)
  | Linked (account_id collection document_id : Z).

Record BlobSection := { offset_start : Z; size : Z; encoding : Z }.

Record BlobId := {
  hash : list Z;
  class : BlobClass;
  section : option BlobSection;
}.

Definition new (hash : list Z) (class : BlobClass) : BlobId :=
  {| hash := hash; class := class; section := None |}.
Definition new_section (hash : list Z) (class : BlobClass) (start stop enc : Z) : BlobId :=
  {| hash := hash; class := class;
     section := Some {| offset_start := start; size := wrap 64 (stop - start); encoding := enc |} |}.
Definition with_section_size (b : BlobId) (sz : Z) : BlobId :=
  let s := default {| offset_start := 0; size := 0; encoding := 0 |} (section b) in
  {| hash := hash b; class := class b;
     section := Some {| offset_start := offset_start s; size := sz; encoding := encoding s |} |}.
Definition start_offset (b : BlobId) : Z :=
  match section b with Some s => offset_start s | None => 0 end.

Section from_iter.
Context {R : Type} `{ByteIter R}.

Fixpoint next_bytes (n : nat) (it : R) : option (list Z) * R :=
  match n with
  | O => (Some [], it)
  | S n =>
      match next_byte it with
      | (None, it) => (None, it)
      | (Some b, it) =>
          let '(bs, it) := next_bytes n it in ((λ bs, b :: bs) <$> bs, it)
      end
  end.

(** The class of a blob, after its account. *)
Definition class_from_iter (marker account_id : Z) (it : R) : option BlobClass * R :=
  if negb (Z.land marker B_LINKED =? 0) then
    match next_byte it with
    | (None, it) => (None, it)
    | (Some collection, it) =>
        let '(document_id, it) := iter_leb128 Leb128.U32 it in
        ((λ d, Linked account_id collection d) <$> document_id, it)
    end
  else
    let '(expires, it) := iter_leb128 Leb128.U64 it in
    ((λ e, Reserved account_id e) <$> expires, it).

Definition section_from_iter (encoding : Z) (it : R) : option (option BlobSection) * R :=
  if negb (encoding =? 0) then
    match iter_leb128 Leb128.Usize it with
    | (None, it) => (None, it)
    | (Some start, it) =>
        let '(size, it) := iter_leb128 Leb128.Usize it in
        ((λ s, Some {| offset_start := start; size := s; encoding := encoding - 1 |}) <$> size, it)
    end
  else (Some None, it).

Definition from_iter (it : R) : option BlobId * R :=
  match next_byte it with
  | (None, it) => (None, it)
  | (Some marker, it) =>
      match next_bytes BLOB_HASH_LEN it with
      | (None, it) => (None, it)
      | (Some hash, it) =>
          match iter_leb128 Leb128.U32 it with
          | (None, it) => (None, it)
          | (Some account_id, it) =>
              match class_from_iter marker account_id it with
              | (None, it) => (None, it)
              | (Some class, it) =>
                  let '(section, it) := section_from_iter (Z.land marker 0x0F) it in
                  ((λ s, {| hash := hash; class := class; section := s |}) <$> section, it)
              end
          end
      end
  end.
End from_iter.

#[global] Instance parse_blob_id : JsonObjectParser BlobId := λ p,
  match from_iter (jr_new p) with
  | (Some b, r) => Ret b (jr_parser r)
  | (None, r) => error_value (jr_parser r)
  end.

Definition from_base32 (value : list Z) : option BlobId := fst (from_iter (Base32.reader_new value)).

(** [serialize_as], over any writer *)
Definition marker (b : BlobId) : Z :=
  Z.lor (match section b with Some s => wrap 8 (encoding s + 1) | None => 0 end)
        (match class b with Linked _ _ _ => B_LINKED | Reserved _ _ => B_RESERVED end).
Definition serialize_as {W} (write : W → list Z → option W) (b : BlobId) (w : W) : option W :=
  w ← write w [marker b];
  w ← write w (hash b);
  w ← match class b with
      | Reserved account_id expires =>
          w ← write_leb128 write w account_id; write_leb128 write w expires
      | Linked account_id collection document_id =>
          w ← write_leb128 write w account_id;
          w ← write w [collection];
          write_leb128 write w document_id
      end;
  match section b with
  | Some s => w ← write_leb128 write w (offset_start s); write_leb128 write w (size s)
  | None => Some w
  end.

(** [to_string] *)
Definition to_string (b : BlobId) : option (list Z) :=
  w ← serialize_as Base32.write b (Base32.with_capacity 0); Base32.finalize w.

(** [SerializeInto], [DeserializeFrom] *)
#[global] Instance blob_id_into : SerializeInto BlobId := λ b buf,
  default buf (serialize_as (λ buf bs, Some (buf ++ bs)) b buf).
#[global] Instance blob_id_from : DeserializeFrom BlobId := λ it,
  match from_iter it with (Some b, it) => Some (b, it) | (None, _) => None end.
End BlobId.

(** ** [AnyId] *)

Module AnyId.
Inductive AnyId :=
  | AId (id : Id.Id)
  | ABlob (id : BlobId.BlobId).

Definition as_id (a : AnyId) : option Id.Id := match a with AId id => Some id | _ => None end.
Definition as_blob_id (a : AnyId) : option BlobId.BlobId :=
  match a with ABlob id => Some id | _ => None end.

#[global] Instance parse_any_id : JsonObjectParser AnyId :=
  while_unescaped (λ id ch, Continue (id ++ [ch]))
    (λ id,
      if decide (id = []) then error_value
      else match BlobId.from_base32 id with
           | Some b => mret (ABlob b)
           | None =>
               match Id.from_bytes id with
               | Some i => mret (AId i)
               | None => error_value
               end
           end) [].
End AnyId.
