(* ===== verification/JmapIdsTheory.v ===== *)
(** * JmapIdsTheory: the identifiers are read back

    The ids of [id.rs] (the stop bit that ends the digits, the decoder), and
    the LEB128 numbers that the states and blob ids hold, read through any
    byte iterator: the bytes of the store, a Base32 text, and a Base32 text
    inside of a JSON string. *)

From stdpp Require Import base gmap sorting strings numbers list.
From S2P Require Import Prelude Codec Base32 Serde Utf8 Json JsonTheory JsonPrint JsonText JmapEnums JmapIds.
Import Json.
Open Scope Z_scope.

(** ** Ids *)

Section ids.
Import Id.

(** The [m] base-32 digits of a number, the highest first. *)
Fixpoint b32 (m : nat) (r : Z) : list Z :=
  match m with
  | O => []
  | S m => r / 2 ^ (5 * Z.of_nat m) :: b32 m (r `mod` 2 ^ (5 * Z.of_nat m))
  end.

Lemma b32_range m r : 0 ≤ r < 2 ^ (5 * Z.of_nat m) → Forall (λ d, 0 ≤ d < 32) (b32 m r).
Proof.
  revert r. induction m as [|m IH]; intros r Hr; cbn [b32]; [constructor|].
  assert (0 < 2 ^ (5 * Z.of_nat m)) by (apply Z.pow_pos_nonneg; lia).
  constructor; [|apply IH, Z.mod_pos_bound; lia].
  replace (5 * Z.of_nat (S m)) with (5 * Z.of_nat m + 5) in Hr by lia.
  rewrite Z.pow_add_r in Hr by lia. split; [apply Z.div_pos; lia|]. apply Z.div_lt_upper_bound; lia.
Qed.

Lemma b32_length m r : length (b32 m r) = m.
Proof. revert r. induction m as [|m IH]; intros r; cbn; [done|]. by rewrite IH. Qed.

Lemma base32_digit_alpha d : 0 ≤ d < 32 → base32_digit (Base32.alpha d) = Some d.
Proof.
  intros Hd. unfold base32_digit. destruct (Base32.inverse_alpha d Hd) as [-> Hne].
  by destruct (Z.eqb_spec d U8_MAX).
Qed.

Lemma push_digit_add acc d : 0 ≤ acc → acc * 32 < 2 ^ 64 → 0 ≤ d < 32 → push_digit acc d = acc * 32 + d.
Proof.
  intros Ha Hlt Hd. unfold push_digit. rewrite wrap_small.
  - rewrite Z.lor_comm, lor_shiftl_add by lia. lia.
  - rewrite Z.shiftl_mul_pow2 by lia. unfold uint_ok. lia.
Qed.

Lemma digits_value_b32 m r acc :
  0 ≤ acc → 0 ≤ r < 2 ^ (5 * Z.of_nat m) → acc * 2 ^ (5 * Z.of_nat m) + r < 2 ^ 64 →
  digits_value acc (Base32.alpha <$> b32 m r) = Some (acc * 2 ^ (5 * Z.of_nat m) + r).
Proof.
  revert r acc. induction m as [|m IH]; intros r acc Ha Hr Hlt; cbn [b32 fmap list_fmap digits_value].
  { f_equal. cbn in *. lia. }
  pose proof (b32_range (S m) r Hr) as Hd. cbn [b32] in Hd. apply Forall_cons in Hd as [Hd _].
  rewrite base32_digit_alpha by done. cbn [mbind option_bind].
  set (c := 2 ^ (5 * Z.of_nat m)) in *.
  assert (0 < c) by (apply Z.pow_pos_nonneg; lia).
  replace (2 ^ (5 * Z.of_nat (S m))) with (32 * c) in *
    by (unfold c; replace (5 * Z.of_nat (S m)) with (5 + 5 * Z.of_nat m) by lia;
        by rewrite Z.pow_add_r by lia).
  pose proof (Z.div_mod r c ltac:(lia)) as Hdm. pose proof (Z.mod_pos_bound r c ltac:(lia)).
  assert (acc * 32 ≤ acc * 32 * c) by nia.
  rewrite push_digit_add by lia. rewrite IH by (try lia; nia). f_equal. nia.
Qed.

(** The word of [as_string] with [m] digits left: they are the highest bits,
    and the stop bit is four bits below them. *)
Definition word (m : nat) (r : Z) : Z := r * 2 ^ (64 - 5 * Z.of_nat m) + 2 ^ (60 - 5 * Z.of_nat m).

Lemma word_zero : word 0 0 = STOP_BIT.
Proof. reflexivity. Qed.

(** One turn of the loop. *)
Lemma word_succ m r :
  (m < 12)%nat → 0 ≤ r < 2 ^ (5 * Z.of_nat (S m)) →
  word (S m) r ≠ STOP_BIT ∧
  Z.shiftr (word (S m) r) 59 = r / 2 ^ (5 * Z.of_nat m) ∧
  shl (word (S m) r) 5 = word m (r `mod` 2 ^ (5 * Z.of_nat m)).
Proof.
  intros Hm Hr. unfold word, STOP_BIT, shl, wrap.
  set (c := 2 ^ (5 * Z.of_nat m)) in *. set (b := 2 ^ (55 - 5 * Z.of_nat m)).
  assert (0 < c) by (apply Z.pow_pos_nonneg; lia).
  assert (0 < b) by (apply Z.pow_pos_nonneg; lia).
  assert (b * c = 2 ^ 55) as Hbc.
  { unfold b, c. rewrite <-Z.pow_add_r by lia. f_equal. lia. }
  replace (64 - 5 * Z.of_nat (S m)) with (4 + (55 - 5 * Z.of_nat m)) by lia.
  replace (60 - 5 * Z.of_nat (S m)) with (55 - 5 * Z.of_nat m) by lia.
  replace (64 - 5 * Z.of_nat m) with (9 + (55 - 5 * Z.of_nat m)) by lia.
  replace (60 - 5 * Z.of_nat m) with (5 + (55 - 5 * Z.of_nat m)) by lia.
  rewrite !(Z.pow_add_r 2 _ (55 - 5 * Z.of_nat m)) by lia. fold b.
  change (2 ^ 4) with 16. change (2 ^ 9) with 512. change (2 ^ 5) with 32.
  rewrite Z.shiftr_div_pow2, Z.shiftl_mul_pow2 by lia. change (2 ^ 5) with 32.
  pose proof (Z.div_mod r c ltac:(lia)) as Hdm. pose proof (Z.mod_pos_bound r c ltac:(lia)) as Hmod.
  set (q := r / c) in *. set (s := r `mod` c) in *.
  assert (r * (16 * b) = q * 2 ^ 59 + s * (16 * b)) as Hw.
  { rewrite Hdm. change (2 ^ 59) with (16 * 2 ^ 55). rewrite <-Hbc. ring. }
  assert (s * (16 * b) + b < 2 ^ 59) as Hs.
  { change (2 ^ 59) with (16 * 2 ^ 55). rewrite <-Hbc. nia. }
  assert (0 ≤ s * (16 * b)) by nia.
  split_and!.
  - intros Heq. assert ((r * 16 + 1) * b = 2 ^ 60) as Heq' by lia.
    assert (2 ^ 60 = (32 * c) * b) as H60 by (change (2 ^ 60) with (32 * 2 ^ 55); rewrite <-Hbc; ring).
    rewrite H60 in Heq'. apply Z.mul_reg_r in Heq'; lia.
  - symmetry. apply (Z.div_unique_pos _ _ _ (s * (16 * b) + b)); lia.
  - symmetry. apply (Z.mod_unique_pos _ _ q); [|].
    + change (2 ^ 64) with (32 * 2 ^ 59). lia.
    + change (2 ^ 64) with (32 * 2 ^ 59). lia.
Qed.

Lemma five_loop_word m r fuel buf :
  (m ≤ 12)%nat → (m ≤ fuel)%nat → 0 ≤ r < 2 ^ (5 * Z.of_nat m) →
  five_loop fuel (word m r) buf = Some (buf ++ (Base32.alpha <$> b32 m r)).
Proof.
  revert r fuel buf. induction m as [|m IH]; intros r fuel buf Hm Hf Hr.
  - assert (r = 0) as -> by (cbn in Hr; lia). rewrite word_zero. destruct fuel; cbn; by rewrite app_nil_r.
  - destruct fuel as [|fuel]; [lia|]. destruct (word_succ m r ltac:(lia) Hr) as (Hne & Hd & Hn).
    cbn [five_loop]. destruct (Z.eqb_spec (word (S m) r) STOP_BIT); [done|].
    rewrite Hd, Hn, IH; [|lia|lia|].
    + cbn [b32 fmap list_fmap]. by rewrite <-app_assoc.
    + apply Z.mod_pos_bound. apply Z.pow_pos_nonneg; lia.
Qed.

(** The printed id: the digits of the number, the first one not zero. *)
Lemma as_string_digits i :
  uint_ok 64 (id i) → id i ≠ 0 →
  ∃ m, (m ≤ 13)%nat ∧ 2 ^ (5 * (Z.of_nat m - 1)) ≤ id i < 2 ^ (5 * Z.of_nat m) ∧
    as_string i = Some (Base32.alpha <$> b32 m (id i)).
Proof.
  intros Hok Hne. destruct i as [n]. cbn [id] in *. unfold uint_ok in Hok. unfold as_string. cbn [id].
  destruct (Z.eqb_spec n 0); [done|]. rewrite Z.shiftr_div_pow2 by lia.
  assert (Z.lor (shl n 4) 1 = (n `mod` 2 ^ 60) * 16 + 1) as Hw.
  { unfold shl, wrap. rewrite Z.shiftl_mul_pow2 by lia. change (2 ^ 64) with (2 ^ 60 * 2 ^ 4).
    rewrite Z.mul_mod_distr_r by lia. rewrite <-Z.shiftl_mul_pow2 by lia.
    rewrite Z.lor_comm, lor_shiftl_add by lia. lia. }
  rewrite Hw. destruct (Z.eqb_spec (n / 2 ^ 60) 0) as [Htop|Htop].
  - assert (n < 2 ^ 60) as Hlt by (apply Z.div_small_iff in Htop; lia).
    rewrite (Z.mod_small n) by lia. unfold leading_zeros.
    set (l := Z.log2 (n * 16 + 1)).
    pose proof (Z.log2_spec (n * 16 + 1) ltac:(lia)) as [Hlo Hhi]. fold l in Hlo, Hhi.
    assert (0 ≤ l) as Hl0 by apply Z.log2_nonneg.
    assert (l < 64) as Hl by (apply (Z.pow_lt_mono_r_iff 2); lia).
    set (k := (63 - l) / 5). pose proof (Z.div_mod (63 - l) 5 ltac:(lia)) as Hk. fold k in Hk.
    pose proof (Z.mod_pos_bound (63 - l) 5 ltac:(lia)) as Hk5.
    assert (4 ≤ l) as Hl4.
    { apply Z.lt_succ_r, (Z.pow_lt_mono_r_iff 2); [lia|lia|]. change (2 ^ 4) with 16. lia. }
    assert (0 ≤ k ≤ 11) as Hk11 by lia.
    assert (n < 2 ^ (60 - 5 * k)) as Hn1.
    { assert (n * 16 + 1 < 2 ^ (64 - 5 * k)) as Hup.
      { eapply Z.lt_le_trans; [exact Hhi|]. apply Z.pow_le_mono_r; lia. }
      replace (64 - 5 * k) with (4 + (60 - 5 * k)) in Hup by lia.
      rewrite Z.pow_add_r in Hup by lia. lia. }
    assert (2 ^ (55 - 5 * k) ≤ n) as Hn2.
    { assert (2 ^ (59 - 5 * k) ≤ n * 16 + 1) as Hup.
      { etrans; [|exact Hlo]. apply Z.pow_le_mono_r; lia. }
      replace (59 - 5 * k) with (4 + (55 - 5 * k)) in Hup by lia.
      rewrite Z.pow_add_r in Hup by lia. lia. }
    exists (Z.to_nat (12 - k)). split; [lia|]. split.
    { split; [|by replace (5 * Z.of_nat _) with (60 - 5 * k) by lia].
      by replace (5 * _) with (55 - 5 * k) by lia. }
    rewrite <-(app_nil_l (Base32.alpha <$> _)). rewrite <-(five_loop_word _ n 13); [|lia|lia|].
    + f_equal. unfold shl, word. replace (64 - 5 * Z.of_nat _) with (4 + 5 * k) by lia.
      replace (60 - 5 * Z.of_nat _) with (5 * k) by lia. replace (k * 5) with (5 * k) by lia.
      rewrite Z.shiftl_mul_pow2 by lia.
      rewrite wrap_small; [rewrite Z.pow_add_r by lia; ring|].
      assert (0 < 2 ^ (5 * k)) by (apply Z.pow_pos_nonneg; lia). split; [nia|].
      assert (2 ^ (60 - 5 * k) * 2 ^ (5 * k) = 2 ^ 60) as Hp.
      { rewrite <-Z.pow_add_r by lia. f_equal. lia. }
      change (2 ^ 64) with (16 * 2 ^ 60). rewrite <-Hp. nia.
    + split; [lia|]. by replace (5 * Z.of_nat _) with (60 - 5 * k) by lia.
  - pose proof (Z.div_mod n (2 ^ 60) ltac:(lia)) as Hdm.
    pose proof (Z.mod_pos_bound n (2 ^ 60) ltac:(lia)) as Hmod.
    exists 13%nat. split; [lia|]. split.
    { change (5 * (Z.of_nat 13 - 1)) with 60. change (5 * Z.of_nat 13) with 65.
      split; [|lia]. assert (0 ≤ n / 2 ^ 60) by (apply Z.div_pos; lia). lia. }
    change (b32 13 n) with (n / 2 ^ 60 :: b32 12 (n `mod` 2 ^ 60)). rewrite fmap_cons.
    change (?a :: ?l) with ([a] ++ l). rewrite <-(five_loop_word 12 _ 13); [done|lia|lia|].
    by change (5 * Z.of_nat 12) with 60.
Qed.

Lemma alpha_plain d : 0 ≤ d < 32 → plain (Base32.alpha d).
Proof.
  intros Hd. pose proof (Base32.quintet_forallb
    (λ d, negb (Base32.alpha d =? QUOTE) && negb (Base32.alpha d =? BACKSLASH))
    ltac:(vm_compute; reflexivity) d Hd) as Hp. cbv beta in Hp. unfold plain. lia.
Qed.

Lemma alpha_text_plain ds : Forall (λ d, 0 ≤ d < 32) ds → Forall plain (Base32.alpha <$> ds).
Proof. intros Hd. apply Forall_fmap. eapply Forall_impl; [exact Hd|]. apply alpha_plain. Qed.

Lemma run_digits_value {R} (alt : flow Z R) text acc v :
  digits_value acc text = Some v →
  run (λ id ch, match base32_digit ch with Some i => Continue (push_digit id i) | None => alt end)
    acc text = Some v.
Proof.
  revert acc. induction text as [|c text IH]; intros acc; [done|]. cbn [digits_value run].
  destruct (base32_digit c); [apply IH|done].
Qed.

Lemma parse_id_reads `{FastFloat} text v :
  Forall plain text → digits_value 0 text = Some v → reads Id text {| id := v |}.
Proof.
  intros Hpl Hv. apply reads_eof. intros p rest Hwf _ _ Hi. unfold parse, parse_id.
  by rewrite (while_run _ _ _ v text p rest Hpl (run_digits_value _ _ _ _ Hv)).
Qed.

#[export] Instance id_safe : StringParserLaws Id.
Proof.
  intros p Hwf He Hin. apply (while_safe (λ _, True)); [intros; by apply string_ok_ret| |done..].
  intros id ch q **. destruct (base32_digit ch); [done|by apply error_value_safe].
Qed.

(** An id is read back from its text.  The text has the base-32 digits of the
    number, at most thirteen and the first of them not zero, and both decoders
    return the id for it. *)
Theorem id_roundtrip `{FastFloat} i :
  uint_ok 64 (id i) →
  ∃ s, as_string i = Some s ∧ (1 ≤ length s ≤ 13)%nat ∧
    (id i ≠ 0 → head s ≠ Some (Base32.alpha 0)) ∧
    from_bytes s = Some i ∧ reads Id s i.
Proof.
  intros Hok. destruct (decide (id i = 0)) as [Hz|Hne].
  - exists (str_bytes "a"). destruct i as [n]. cbn in Hz. subst n.
    split_and!; [done|vm_compute; lia|vm_compute; lia|done|done|].
    apply parse_id_reads; [|reflexivity]. apply (bool_decide_unpack _). vm_compute. exact I.
  - destruct (as_string_digits i Hok Hne) as (m & Hm & Hr & Hs). exists (Base32.alpha <$> b32 m (id i)).
    assert (0 ≤ id i < 2 ^ (5 * Z.of_nat m)) as Hr' by (unfold uint_ok in Hok; lia).
    assert (digits_value 0 (Base32.alpha <$> b32 m (id i)) = Some (id i)) as Hv.
    { rewrite digits_value_b32; unfold uint_ok in Hok; [f_equal; lia|lia|done|lia]. }
    assert (m ≠ 0%nat) as Hm0 by (intros ->; cbn in Hr; lia).
    split_and!; try done.
    + rewrite length_fmap, b32_length. lia.
    + rewrite length_fmap, b32_length. lia.
    + intros _. destruct m as [|m]; [done|]. cbn [b32]. rewrite fmap_cons. cbn [head].
      intros Heq%(inj Some).
      pose proof (b32_range _ _ Hr') as Hd. cbn [b32] in Hd. apply Forall_cons in Hd as [Hd _].
      apply (f_equal base32_digit) in Heq. rewrite !base32_digit_alpha in Heq by lia. injection Heq as Heq.
      apply Z.div_small_iff in Heq; [|apply Z.pow_nonzero; lia].
      replace (5 * (Z.of_nat (S m) - 1)) with (5 * Z.of_nat m) in Hr by lia. lia.
    + unfold from_bytes. rewrite Hv. by destruct i.
    + destruct i as [n]. apply parse_id_reads; [|done]. by apply alpha_text_plain, b32_range.
Qed.

Lemma id_parts p d : uint_ok 32 p → uint_ok 32 d →
  prefix_id (from_parts p d) = p ∧ document_id (from_parts p d) = d ∧ uint_ok 64 (id (from_parts p d)).
Proof.
  unfold uint_ok. intros Hp Hd. unfold from_parts, prefix_id, document_id. cbn [id].
  rewrite wrap_small by (rewrite Z.shiftl_mul_pow2 by lia; unfold uint_ok; lia).
  rewrite Z.lor_comm, lor_shiftl_add by lia. rewrite Z.shiftr_div_pow2 by lia.
  change 0xFFFFFFFF with (Z.ones 32). rewrite Z.land_ones by lia. split_and!; try lia.
  - rewrite Z.div_add by lia. rewrite Z.div_small by lia. lia.
  - rewrite Z.mod_add by lia. apply Z.mod_small. lia.
Qed.
End ids.

(** ** Byte iterators *)

Section yields.
Context {R : Type} `{ByteIter R}.

(** The next bytes of an iterator, and the iterator after them. *)
Fixpoint yields (r : R) (bs : list Z) (r' : R) : Prop :=
  match bs with
  | [] => r' = r
  | b :: bs => ∃ r1, next_byte r = (Some b, r1) ∧ yields r1 bs r'
  end.

Lemma yields_app r bs bs' r' :
  yields r (bs ++ bs') r' ↔ ∃ r1, yields r bs r1 ∧ yields r1 bs' r'.
Proof.
  revert r. induction bs as [|b bs IH]; intros r; cbn.
  - split; [eauto|]. by intros (? & -> & ?).
  - setoid_rewrite IH. split.
    + intros (r1 & ? & r2 & ? & ?). exists r2. eauto.
    + intros (r2 & (r1 & ? & ?) & ?). exists r1. eauto.
Qed.

Lemma leb128_it_yields w ss acc r r' bs v rest :
  Leb128.from_leb128_it w ss acc (bs ++ rest) = (Some v, rest) → yields r bs r' →
  leb128_it w ss acc r = (Some v, r').
Proof.
  revert acc r bs. induction ss as [|s ss IH]; intros acc r bs; cbn [Leb128.from_leb128_it leb128_it]; [done|].
  destruct bs as [|b bs]; cbn [app yields].
  - intros Hd _. destruct rest as [|b rest]; [done|].
    assert (length rest < length (b :: rest))%nat by (cbn; lia). destruct (decide _) in Hd.
    + injection Hd as _ Hd. apply (f_equal length) in Hd. cbn in Hd. lia.
    + apply from_leb128_it_consumes in Hd. lia.
  - intros Hd (r1 & -> & Hy). destruct (decide (Z.land b 0x80 = 0)).
    + injection Hd as <- Hbs. assert (bs = []) as ->.
      { apply (f_equal length) in Hbs. rewrite length_app in Hbs. destruct bs; [done|cbn in Hbs; lia]. }
      cbn in Hy. by subst.
    + by eapply IH.
Qed.

Lemma iter_leb128_yields ty v r r' :
  Leb128.decodable ty v → yields r (Leb128.to_leb128_bytes v []) r' → iter_leb128 ty r = (Some v, r').
Proof.
  intros Hd Hy. eapply (leb128_it_yields _ _ _ _ _ _ _ []); [|exact Hy]. by apply Leb128.next_leb128_leb.
Qed.

Lemma next_bytes_yields r bs r' :
  yields r bs r' → BlobId.next_bytes (length bs) r = (Some bs, r').
Proof.
  revert r. induction bs as [|b bs IH]; intros r; cbn; [by intros -> |].
  intros (r1 & -> & Hy). by rewrite (IH r1).
Qed.
End yields.

Lemma list_yields bs rest : yields (R := list Z) (bs ++ rest) bs rest.
Proof. induction bs as [|b bs IH]; cbn; eauto. Qed.

(** ** Writers *)

Section writers.
Context {W : Type} (write : W → list Z → option W).
Context (write_nil : ∀ w, write w [] = Some w).
Context (write_app : ∀ w l l', write w (l ++ l') = w ← write w l; write w l').

Lemma write_leb128_loop fuel v w n :
  fst <$> Leb128.to_leb128_writer_loop (λ w bs, w ← write w bs; Some (w, Z.of_nat (length bs))) fuel v w n
  = write w (Leb128.to_leb128_loop fuel v []).
Proof using write_app write_nil.
  revert v w n. induction fuel as [|fuel IH]; intros v w n;
    cbn [Leb128.to_leb128_writer_loop Leb128.to_leb128_loop app].
  - case_decide; by destruct (write w _).
  - case_decide; [by destruct (write w _)|]. rewrite Leb128.to_leb128_loop_app.
    rewrite write_app. destruct (write w _) as [w'|]; [|done]. cbn. apply IH.
Qed.

Lemma write_leb128_spec w v : write_leb128 write w v = write w (Leb128.to_leb128_bytes v []).
Proof using write_app write_nil. apply write_leb128_loop. Qed.

(** The bytes of a blob id. *)
Definition blob_bytes (b : BlobId.BlobId) : list Z :=
  [BlobId.marker b] ++ BlobId.hash b ++
  match BlobId.class b with
  | BlobId.Reserved account_id expires =>
      Leb128.to_leb128_bytes account_id [] ++ Leb128.to_leb128_bytes expires []
  | BlobId.Linked account_id collection document_id =>
      Leb128.to_leb128_bytes account_id [] ++ [collection] ++ Leb128.to_leb128_bytes document_id []
  end ++
  match BlobId.section b with
  | Some s => Leb128.to_leb128_bytes (BlobId.offset_start s) [] ++ Leb128.to_leb128_bytes (BlobId.size s) []
  | None => []
  end.

Lemma serialize_as_bytes b w : BlobId.serialize_as write b w = write w (blob_bytes b).
Proof using write_app write_nil.
  unfold BlobId.serialize_as, blob_bytes. rewrite write_app.
  destruct (write w _) as [w1|]; [|done]. cbn [mbind option_bind]. rewrite write_app.
  destruct (write w1 (BlobId.hash b)) as [w2|]; [|done]. cbn [mbind option_bind].
  assert (∀ w, match BlobId.section b with
    | Some s => w ← write_leb128 write w (BlobId.offset_start s); write_leb128 write w (BlobId.size s)
    | None => Some w
    end = write w match BlobId.section b with
    | Some s => Leb128.to_leb128_bytes (BlobId.offset_start s) [] ++ Leb128.to_leb128_bytes (BlobId.size s) []
    | None => []
    end) as Hsec.
  { intros w'. destruct (BlobId.section b); [|by rewrite write_nil]. rewrite write_app, write_leb128_spec.
    destruct (write w' _); [|done]. apply write_leb128_spec. }
  rewrite write_app. destruct (BlobId.class b); rewrite write_app, write_leb128_spec;
    (destruct (write w2 _) as [w3|]; [|done]); cbn [mbind option_bind].
  - rewrite write_leb128_spec. destruct (write w3 _); [|done]. apply Hsec.
  - rewrite write_app. destruct (write w3 _) as [w4|]; [|done]. cbn [mbind option_bind].
    rewrite write_leb128_spec. destruct (write w4 _); [|done]. apply Hsec.
Qed.
End writers.

Lemma base32_write_app w l l' : Base32.write w (l ++ l') = w ← Base32.write w l; Base32.write w l'.
Proof.
  revert w. induction l as [|b l IH]; intros w; cbn [app Base32.write]; [done|].
  destruct (Base32.push_byte w b false); [|done]. apply IH.
Qed.

(** ** Blob ids *)

(** A blob id the server makes: a hash of 32 bytes, numbers within their
    types and an encoding below 15. *)
Definition blob_ok (b : BlobId.BlobId) : Prop :=
  bytes_ok (BlobId.hash b) ∧ length (BlobId.hash b) = BlobId.BLOB_HASH_LEN ∧
  match BlobId.class b with
  | BlobId.Reserved account_id expires => uint_ok 32 account_id ∧ uint_ok 64 expires
  | BlobId.Linked account_id collection document_id =>
      uint_ok 32 account_id ∧ uint_ok 8 collection ∧ uint_ok 32 document_id
  end ∧
  match BlobId.section b with
  | Some s => uint_ok 64 (BlobId.offset_start s) ∧ uint_ok 64 (BlobId.size s) ∧ 0 ≤ BlobId.encoding s < 15
  | None => True
  end.

Lemma marker_spec b :
  blob_ok b →
  uint_ok 8 (BlobId.marker b) ∧
  Z.land (BlobId.marker b) 0x0F = match BlobId.section b with Some s => BlobId.encoding s + 1 | None => 0 end ∧
  (Z.land (BlobId.marker b) BlobId.B_LINKED =? 0)
  = match BlobId.class b with BlobId.Linked _ _ _ => false | BlobId.Reserved _ _ => true end.
Proof.
  intros (_ & _ & _ & Hs). unfold BlobId.marker.
  assert (∀ e, 0 ≤ e < 16 →
    (uint_ok 8 (Z.lor e BlobId.B_LINKED) ∧ Z.land (Z.lor e BlobId.B_LINKED) 0x0F = e ∧
     (Z.land (Z.lor e BlobId.B_LINKED) BlobId.B_LINKED =? 0) = false) ∧
    (uint_ok 8 (Z.lor e BlobId.B_RESERVED) ∧ Z.land (Z.lor e BlobId.B_RESERVED) 0x0F = e ∧
     (Z.land (Z.lor e BlobId.B_RESERVED) BlobId.B_LINKED =? 0) = true)) as Hm.
  { intros e He. assert (e ∈ seqZ 0 16) as Hin by (apply elem_of_seqZ; lia).
    cbn in Hin. repeat (apply elem_of_cons in Hin as [-> |Hin]; [vm_compute; intuition congruence|]).
    by apply elem_of_nil in Hin. }
  destruct (BlobId.section b) as [s|].
  - destruct Hs as (_ & _ & He). rewrite wrap_small by (unfold uint_ok; lia).
    destruct (Hm (BlobId.encoding s + 1) ltac:(lia)) as [? ?]. by destruct (BlobId.class b).
  - destruct (Hm 0 ltac:(lia)) as [? ?]. by destruct (BlobId.class b).
Qed.

Lemma read_leb {R} `{ByteIter R} ty v (r r' : R) :
  yields r (Leb128.to_leb128_bytes v []) r' → ty ≠ Leb128.U8 → uint_ok (Leb128.bits ty) v →
  iter_leb128 ty r = (Some v, r').
Proof. intros. by apply iter_leb128_yields. Qed.

(** Whatever the iterator, the bytes of a blob id give it back. *)
Lemma from_iter_yields {R} `{ByteIter R} b (r r' : R) :
  blob_ok b → yields r (blob_bytes b) r' → BlobId.from_iter r = (Some b, r').
Proof.
  intros Hok Hy. destruct (marker_spec b Hok) as (_ & Henc & Hlink).
  unfold blob_bytes in Hy. apply yields_app in Hy as (r1 & (r1' & Hn & ->) & Hy).
  apply yields_app in Hy as (r2 & Hh & Hy). apply yields_app in Hy as (r4 & Hc & Hs).
  unfold BlobId.from_iter. rewrite Hn. destruct Hok as (_ & Hlen & Hclass & Hsec).
  rewrite <-Hlen, (next_bytes_yields _ _ _ Hh). unfold BlobId.class_from_iter. rewrite Hlink, Henc.
  assert (BlobId.section_from_iter match BlobId.section b with Some s => BlobId.encoding s + 1 | None => 0 end r4
    = (Some (BlobId.section b), r')) as Hsection.
  { destruct (BlobId.section b) as [s|]; [|by inversion Hs].
    destruct Hsec as (? & ? & ?). unfold BlobId.section_from_iter.
    destruct (Z.eqb_spec (BlobId.encoding s + 1) 0); [lia|]. cbn [negb].
    apply yields_app in Hs as (r5 & Ho & Hz).
    rewrite (read_leb Leb128.Usize _ _ _ Ho) by done.
    rewrite (read_leb Leb128.Usize _ _ _ Hz) by done.
    cbn. replace (BlobId.encoding s + 1 - 1) with (BlobId.encoding s) by lia. by destruct s. }
  destruct b as [hash class section]. cbn [BlobId.class BlobId.section BlobId.hash] in *.
  destruct class as [account_id expires|account_id collection document_id]; cbn [negb].
  - destruct Hclass as [? ?]. apply yields_app in Hc as (r3 & Ha & He).
    rewrite (read_leb Leb128.U32 _ _ _ Ha) by done.
    rewrite (read_leb Leb128.U64 _ _ _ He) by done.
    cbn [fmap option_fmap option_map]. by rewrite Hsection.
  - destruct Hclass as (? & ? & ?). apply yields_app in Hc as (r3 & Ha & (r5 & (r5' & Hb & ->) & Hd)%yields_app).
    rewrite (read_leb Leb128.U32 _ _ _ Ha) by done.
    rewrite Hb.
    rewrite (read_leb Leb128.U32 _ _ _ Hd) by done.
    cbn [fmap option_fmap option_map]. by rewrite Hsection.
Qed.

Lemma blob_bytes_ok b : blob_ok b → bytes_ok (blob_bytes b).
Proof.
  intros Hok. destruct (marker_spec b Hok) as (Hm & _). destruct Hok as (Hh & _ & Hc & Hs).
  unfold blob_bytes. constructor; [done|]. apply Forall_app. split; [done|]. apply Forall_app.
  unfold uint_ok in Hc, Hs. split.
  - destruct (BlobId.class b); [apply Forall_app; split; apply Leb128.leb_ok; lia|].
    apply Forall_app. split; [apply Leb128.leb_ok; lia|].
    constructor; [unfold uint_ok; lia|apply Leb128.leb_ok; lia].
  - destruct (BlobId.section b); [|constructor]. apply Forall_app; split; apply Leb128.leb_ok; lia.
Qed.

(** ** Base32 texts *)

Lemma base32_yields r B bs :
  uint_ok 8 B → bytes_ok bs → Base32.reader_at r B bs → ∃ r', yields r bs r'.
Proof.
  intros HB Hbs. revert r B HB. induction Hbs as [|b bs Hb Hbs IH]; intros r B HB Hr; cbn; [eauto|].
  destruct (Base32.next_byte r B b bs HB Hb Hbs Hr) as (r1 & Hn & Hr1).
  destruct (IH r1 b Hb Hr1) as (r' & Hy). exists r', r1. done.
Qed.

(** The reader over the JSON parser goes with the reader over the text: it
    started at [p] and has read [done], the rest of the text is before the
    closing quote. *)
Definition together (p : Parser) (text rest : list Z) (j : JsonBase32Reader) (r : Base32.Base32Reader) : Prop :=
  jr_last_byte j = Base32.r_last_byte r ∧ jr_pos j = Base32.r_pos r ∧
  ∃ done, text = done ++ Base32.r_bytes r ∧ jr_parser j = ahead p done (Base32.r_bytes r ++ QUOTE :: rest).

Lemma map_byte_together p text rest j r c cs :
  0 ≤ c < 32 → Base32.r_bytes r = Base32.alpha c :: cs → together p text rest j r →
  ∃ j', jr_map_byte j = (Some c, j') ∧ together p text rest j' (snd (Base32.map_byte r)) ∧
    Base32.map_byte r = (Some c, snd (Base32.map_byte r)) ∧
    Base32.r_bytes (snd (Base32.map_byte r)) = cs ∧ Base32.r_pos (snd (Base32.map_byte r)) = Base32.r_pos r.
Proof.
  intros Hc Hcs (Hl & Hp & dn & Ht & Hj). destruct r as [rb rl rp].
  cbn [Base32.r_bytes Base32.r_last_byte Base32.r_pos] in *. subst rb.
  rewrite Base32.map_byte_alpha by done. unfold jr_map_byte. rewrite Hj.
  cbn [Base32.r_bytes app].
  rewrite (next_unescaped_plain _ (Base32.alpha c) (cs ++ QUOTE :: rest)) by (done || by apply alpha_plain).
  rewrite base32_digit_alpha by done. eexists. split; [done|]. split; [|done].
  split; [done|]. split; [done|]. exists (dn ++ [Base32.alpha c]).
  cbn [snd Base32.r_bytes jr_parser]. split; [by rewrite <-app_assoc|]. by rewrite ahead_ahead.
Qed.

(** How many quintets a byte takes at each position. *)
Definition need (p : nat) : nat := match p with 2%nat | 4%nat => 1 | _ => 2 end.

Lemma next_together p text rest j r cs :
  Forall (λ c, 0 ≤ c < 32) cs → Base32.r_bytes r = Base32.alpha <$> cs →
  (need (Base32.r_pos r mod 5) ≤ length cs)%nat → together p text rest j r →
  ∃ j', jr_next j = (fst (Base32.next r), j') ∧ together p text rest j' (snd (Base32.next r)).
Proof.
  intros Hcs Hb Hneed Ht. pose proof (Nat.mod_upper_bound (Base32.r_pos r) 5 ltac:(lia)) as Hp5.
  destruct Hcs as [|c cs Hc Hcs].
  { exfalso. destruct (Base32.r_pos r mod 5)%nat as [|[|[|[|[|]]]]]; cbn in Hneed; lia. }
  destruct (map_byte_together p text rest j r c _ Hc Hb Ht) as (j1 & Hj1 & Ht1 & Hr1 & Hb1 & Hp1).
  unfold jr_next, Base32.next. rewrite Hj1, Hr1.
  pose proof Ht as (Hl & Hp & _). rewrite Hl, Hp.
  set (r1 := snd (Base32.map_byte r)) in *.
  set (r2 := {| Base32.r_bytes := Base32.r_bytes r1; Base32.r_last_byte := Base32.r_last_byte r1;
                Base32.r_pos := S (Base32.r_pos r1) |}).
  set (j2 := {| jr_parser := jr_parser j1; jr_last_byte := jr_last_byte j1; jr_pos := S (jr_pos j1) |}).
  assert (together p text rest j2 r2) as Ht2.
  { destruct Ht1 as (? & E & ?). split; [done|]. split; [cbn; by rewrite E|done]. }
  destruct (decide (need (Base32.r_pos r mod 5) = 1%nat)) as [H1|H1].
  - destruct (Base32.r_pos r mod 5)%nat as [|[|[|[|[|]]]]]; try done; cbn [fst snd]; eauto.
  - destruct Hcs as [|d cs Hd Hcs].
    { destruct (Base32.r_pos r mod 5)%nat as [|[|[|[|[|]]]]]; cbn in Hneed, H1; lia. }
    destruct (map_byte_together p text rest j2 r2 d _ Hd Hb1 Ht2)
      as (j3 & Hj3 & Ht3 & Hr3 & _).
    set (r3 := snd (Base32.map_byte r2)) in *. clearbody r3.
    destruct (Base32.r_pos r mod 5)%nat as [|[|[|[|[|]]]]]; try done; rewrite ?Hj3, ?Hr3;
      cbn [fst snd]; eauto.
Qed.

Lemma reader_at_need r B b bs :
  uint_ok 8 B → bytes_ok (b :: bs) → Base32.reader_at r B (b :: bs) →
  ∃ cs, Forall (λ c, 0 ≤ c < 32) cs ∧ Base32.r_bytes r = Base32.alpha <$> cs ∧
    (need (Base32.r_pos r mod 5) ≤ length cs)%nat.
Proof.
  intros HB Hbs [Hr _]. eexists. split; [|split; [exact Hr|]].
  - pose proof (Base32.quintets_range (Base32.r_pos r mod 5) B (b :: bs) HB Hbs) as Hq.
    destruct (Base32.r_pos r mod 5)%nat; [done|]. cbn [Base32.ahead]. by inversion Hq.
  - apply Forall_cons in Hbs as [Hb _].
    destruct (Base32.second_quintet_eval b Hb) as (S0 & S1 & S2 & S3 & S4).
    pose proof (Nat.mod_upper_bound (Base32.r_pos r) 5 ltac:(lia)) as Hp5.
    destruct (Base32.r_pos r mod 5)%nat as [|[|[|[|[|]]]]]; [..|lia];
      cbn [Base32.ahead Base32.quintets tail need Base32.next_pos]; rewrite ?S0, ?S1, ?S2, ?S3, ?S4;
      cbn [app]; rewrite ?(Base32.quintets_head _ b bs) by done; cbn [length]; lia.
Qed.

Lemma json_yields p text rest j r B bs :
  uint_ok 8 B → bytes_ok bs → Base32.reader_at r B bs → together p text rest j r →
  ∃ j' r', yields j bs j' ∧ together p text rest j' r'.
Proof.
  intros HB Hbs. revert j r B HB. induction Hbs as [|b bs Hb Hbs IH]; intros j r B HB Hr Ht; cbn; [eauto|].
  destruct (Base32.next_byte r B b bs HB Hb Hbs Hr) as (r1 & Hn & Hr1).
  destruct (reader_at_need r B b bs HB ltac:(by constructor) Hr) as (cs & Hcs & Hrb & Hneed).
  destruct (next_together p text rest j r cs Hcs Hrb Hneed Ht) as (j1 & Hj & Ht1).
  rewrite Hn in Hj, Ht1. destruct (IH j1 r1 b Hb Hr1 Ht1) as (j' & r' & Hy & Ht'). eauto 10.
Qed.

(** The Base32 text of some bytes. *)
Definition base32_text (bs : list Z) : list Z := Base32.alpha <$> Base32.quintets 0 0 bs.

Lemma base32_text_plain bs : bytes_ok bs → Forall plain (base32_text bs).
Proof. intros Hbs. apply alpha_text_plain, Base32.quintets_range; [split; lia|done]. Qed.

(** Inside of a JSON string, the text gives the bytes and stays within it. *)
Lemma json_text_yields p bs rest :
  bytes_ok bs → iter p = base32_text bs ++ QUOTE :: rest →
  ∃ t1 t2 j', base32_text bs = t1 ++ t2 ∧ yields (jr_new p) bs j' ∧
    jr_parser j' = ahead p t1 (t2 ++ QUOTE :: rest).
Proof.
  intros Hbs Hi.
  destruct (json_yields p (base32_text bs) rest (jr_new p) (Base32.reader_new (base32_text bs)) 0 bs)
    as (j' & r' & Hy & (_ & _ & t1 & Ht & Hp)); [split; lia|done|by split| |eauto 10].
  split; [done|]. split; [done|]. exists []. split; [done|]. cbn [Base32.r_bytes Base32.reader_new jr_new jr_parser].
  unfold ahead. rewrite <-Hi. destruct p. cbn. unfold set_iter. cbn. f_equal. lia.
Qed.

Lemma finalize_writer w bs :
  uint_ok 8 (Base32.last_byte w) → bytes_ok bs → Base32.pos w = 0%nat → Base32.last_byte w = 0 →
  (w' ← Base32.write w bs; Base32.finalize w') = Some (Base32.result w ++ base32_text bs).
Proof. intros HB Hbs Hp Hl. rewrite Base32.write_finalize by done. by rewrite Hp, Hl. Qed.

(** ** Texts read in part *)

Lemma reads_part `{FastFloat} {T} `{JsonObjectParser T} text (v : T) :
  Forall plain text →
  (∀ p rest, wf p → is_eof p = false → iter p = text ++ QUOTE :: rest →
     ∃ t1 t2, text = t1 ++ t2 ∧ parse p = Ret v (ahead p t1 (t2 ++ QUOTE :: rest))) →
  reads T text v.
Proof.
  intros Hpl Hparse p rest Hwf Hi. unfold string_token.
  destruct (Hparse (start_string p) rest) as (t1 & t2 & -> & ->); [by apply start_string_wf|done|done|].
  rewrite eof_or_skip_plain; [|done|]; [eauto|]. by apply Forall_app in Hpl as [_ ?].
Qed.

(** ** States *)

Definition state_ok (s : State.State) : Prop :=
  match s with
  | State.Initial => True
  | State.Exact id => uint_ok 64 id
  | State.Intermediate i =>
      0 ≤ State.from_id i ≤ State.to_id i ∧ uint_ok 64 (State.to_id i) ∧
      0 < State.items_sent i < 2 ^ 64
  end.

(** The bytes of a state, after the letter of its kind. *)
Definition state_letter (s : State.State) : Z :=
  match s with State.Initial => 110 | State.Exact _ => 115 | State.Intermediate _ => 114 end.
Definition state_bytes (s : State.State) : list Z :=
  match s with
  | State.Initial => []
  | State.Exact id => Leb128.to_leb128_bytes id []
  | State.Intermediate i =>
      Leb128.to_leb128_bytes (State.from_id i) [] ++
      Leb128.to_leb128_bytes (State.to_id i - State.from_id i) [] ++
      Leb128.to_leb128_bytes (State.items_sent i) []
  end.

Lemma state_bytes_ok s : state_ok s → bytes_ok (state_bytes s).
Proof.
  destruct s as [|id|i]; cbn; [constructor|unfold uint_ok; intros; apply Leb128.leb_ok; lia|].
  unfold uint_ok. intros (? & ? & ?). repeat (apply Forall_app; split); apply Leb128.leb_ok; lia.
Qed.

Lemma state_text s :
  state_ok s → State.to_string s = Some (state_letter s :: base32_text (state_bytes s)).
Proof.
  intros Hs. unfold State.to_string. set (w := Base32.with_capacity 10).
  assert (∀ c bs, bytes_ok bs →
    (w' ← Base32.write (Base32.push_char w c) bs; Base32.finalize w') = Some (c :: base32_text bs)) as Hfin.
  { intros c bs Hbs. by apply finalize_writer; [split; cbn; lia|..]. }
  rewrite <-(Hfin (state_letter s)) by (by apply state_bytes_ok). f_equal.
  pose proof (write_leb128_spec Base32.write (λ w, eq_refl) base32_write_app) as Hw.
  destruct s as [|id|i]; cbn [state_letter state_bytes]; [done|apply Hw|].
  destruct Hs as (? & ? & ?). unfold uint_ok in *. rewrite wrap_small by (unfold uint_ok; lia).
  rewrite Hw, !base32_write_app.
  destruct (Base32.write (Base32.push_char w 114) _) as [w1|]; [|done]. cbn [mbind option_bind].
  rewrite base32_write_app, Hw. destruct (Base32.write w1 _); [|done]. apply Hw.
Qed.

(** What the parser does after the letter. *)
Lemma state_body s p rest :
  state_ok s → iter p = base32_text (state_bytes s) ++ QUOTE :: rest →
  ∃ t1 t2, base32_text (state_bytes s) = t1 ++ t2 ∧
    match s with
    | State.Initial => mret State.Initial
    | State.Exact _ => State.parse_exact
    | State.Intermediate _ => State.parse_intermediate
    end p = Ret s (ahead p t1 (t2 ++ QUOTE :: rest)).
Proof.
  intros Hs Hi.
  destruct (json_text_yields p (state_bytes s) rest (state_bytes_ok s Hs) Hi) as (t1 & t2 & j & Ht & Hy & Hj).
  exists t1, t2. split; [done|]. rewrite <-Hj. destruct s as [|id|i]; cbn [state_bytes] in Hy.
  - cbn in Hy. by subst.
  - unfold State.parse_exact. by rewrite (read_leb Leb128.U64 _ _ _ Hy).
  - destruct Hs as (? & ? & ?). unfold uint_ok in *.
    apply yields_app in Hy as (j1 & Hy1 & (j2 & Hy2 & Hy3)%yields_app). unfold State.parse_intermediate.
    rewrite (read_leb Leb128.U64 _ _ _ Hy1) by (done || (unfold uint_ok; cbn; lia)).
    rewrite (read_leb Leb128.U64 _ _ _ Hy2) by (done || (unfold uint_ok; cbn; lia)).
    rewrite (read_leb Leb128.Usize _ _ _ Hy3) by (done || (unfold uint_ok; cbn; lia)).
    destruct (Z.ltb_spec 0 (State.items_sent i)); [|lia]. destruct i as [a b c]. cbn in *.
    unfold State.saturating_add, U64_MAX. do 3 f_equal. lia.
Qed.

(** A state is read back from its text, whatever its kind. *)
Theorem state_roundtrip `{FastFloat} s :
  state_ok s → ∃ text, State.to_string s = Some text ∧ reads State.State text s.
Proof.
  intros Hs. eexists. split; [by apply state_text|].
  pose proof (base32_text_plain _ (state_bytes_ok s Hs)) as Hpl. apply reads_part.
  { constructor; [by destruct s|done]. }
  intros p rest Hwf He Hi. cbn [app] in Hi.
  set (q := ahead p [state_letter s] (base32_text (state_bytes s) ++ QUOTE :: rest)).
  destruct (state_body s q rest Hs eq_refl) as (t1 & t2 & Ht & Hp).
  exists (state_letter s :: t1), t2. split; [by rewrite Ht|].
  unfold parse, State.parse_state, State.state_parse, mbind, M_bind.
  rewrite (next_unescaped_plain p (state_letter s) _ ltac:(by destruct s) Hi). fold q.
  unfold q in Hp |- *. rewrite ahead_ahead in Hp. by destruct s.
Qed.

(** C30: A blob id is read back: from the bytes of the store, from its Base32 text
    and from the text inside of a JSON string. *)
Theorem blob_id_roundtrip `{FastFloat} b rest :
  blob_ok b →
  deserialize_from (serialize_into b [] ++ rest) = Some (b, rest) ∧
  ∃ text, BlobId.to_string b = Some text ∧ BlobId.from_base32 text = Some b ∧
    reads BlobId.BlobId text b.
Proof.
  intros Hok. assert (bytes_ok (blob_bytes b)) as Hbytes by (by apply blob_bytes_ok).
  split.
  - unfold serialize_into, BlobId.blob_id_into.
    rewrite (serialize_as_bytes (λ buf bs, Some (buf ++ bs))).
    + change (default [] (Some ([] ++ blob_bytes b))) with (blob_bytes b).
      unfold deserialize_from, BlobId.blob_id_from.
      by rewrite (from_iter_yields b _ rest Hok (list_yields (blob_bytes b) rest)).
    + intros. by rewrite app_nil_r.
    + intros. cbn. by rewrite app_assoc.
  - exists (base32_text (blob_bytes b)). split_and!.
    + unfold BlobId.to_string.
      rewrite (serialize_as_bytes Base32.write (λ w, eq_refl) base32_write_app).
      by apply (finalize_writer (Base32.with_capacity 0)); [split; cbn; lia|..].
    + destruct (base32_yields (Base32.reader_new (base32_text (blob_bytes b))) 0 (blob_bytes b))
        as (r' & Hy); [split; lia|done|by split|].
      unfold BlobId.from_base32. by rewrite (from_iter_yields b _ _ Hok Hy).
    + apply reads_part; [by apply base32_text_plain|]. intros p rest' Hwf He Hi.
      destruct (json_text_yields p (blob_bytes b) rest' Hbytes Hi) as (t1 & t2 & j & Ht & Hy & Hj).
      exists t1, t2. split; [done|]. unfold parse, BlobId.parse_blob_id.
      by rewrite (from_iter_yields b _ _ Hok Hy), Hj.
Qed.

(** ** Examples *)

#[local] Existing Instance text_float.

Lemma id_roundtrip_witness :
  ∃ s, Id.as_string {| Id.id := 12345 |} = Some s ∧ reads Id.Id s {| Id.id := 12345 |}.
Proof.
  destruct (id_roundtrip {| Id.id := 12345 |}) as (s & Hs & _ & _ & _ & Hr); [split; cbn; lia|eauto].
Defined.

Lemma state_roundtrip_witness :
  let s := State.Intermediate {| State.from_id := 1024; State.to_id := 2048; State.items_sent := 100 |} in
  ∃ text, State.to_string s = Some text ∧ reads State.State text s.
Proof. apply state_roundtrip. cbn. unfold uint_ok. lia. Defined.

Definition example_blob : BlobId.BlobId :=
  {| BlobId.hash := seqZ 100 32; BlobId.class := BlobId.Linked 7 1 300;
     BlobId.section := Some {| BlobId.offset_start := 10; BlobId.size := 200; BlobId.encoding := 2 |} |}.

Lemma blob_id_roundtrip_witness :
  deserialize_from (serialize_into example_blob [] ++ [1]) = Some (example_blob, [1]) ∧
  ∃ text, BlobId.to_string example_blob = Some text ∧ BlobId.from_base32 text = Some example_blob ∧
    reads BlobId.BlobId text example_blob.
Proof.
  apply blob_id_roundtrip. split_and!; [apply (bool_decide_unpack _); vm_compute; exact I|done|..];
    cbn; unfold uint_ok; lia.
Defined.

(** An intermediate state without numbers reads three times past the end of
    the input, and the message of its error is cut from beyond it. *)
Example state_parse_panics :
  next_token State.State (new ([QUOTE] ++ str_bytes "r" ++ [QUOTE])) = Panic.
Proof. vm_compute. reflexivity. Qed.

(** A short blob id takes the character after its closing quote: the brace of
    the object is gone after the error, from which the request goes on. *)
Example blob_id_takes_brace :
  ∃ m p, next_token BlobId.BlobId (new ([QUOTE] ++ str_bytes "a" ++ [QUOTE; 125])) = Throw (Method m) p ∧
    iter p = [].
Proof. eexists _, _. split; [vm_compute; reflexivity|reflexivity]. Qed.

(** ** Tokenizers *)

#[local] Instance u64_eq_dec : EqDecision u64.
Proof. solve_decision. Defined.
#[local] Instance u128_eq_dec : EqDecision u128.
Proof. solve_decision. Defined.

(** C27: The tokenizer is safe with the parsers of strings that are proved to
    keep the tokenizer's contract: those of plain strings, 64- and 128-bit
    numbers, ignored strings, rights, data types, keywords and ids (the parsers
    of states and blob ids do not keep it).  From every state that satisfies
    the invariant, as the state at the start of any input does, reading a
    token or an object key with one of these parsers, or skipping a value,
    neither panics nor runs forever; what it returns leaves the invariant in
    place, the nesting depths within [0..16] and moved only by the token's own
    brackets, and at least one character less to read.  The same invariant
    holds after an error from which the request parser goes on. *)
Theorem tokenizer_safe `{FastFloat} a d p :
  wf p →
  reads_safely (list Z) p ∧ reads_safely u64 p ∧ reads_safely u128 p ∧ reads_safely Ignore p ∧
  reads_safely Acl.Acl p ∧ reads_safely DataType.DataType p ∧ reads_safely Keyword.Keyword p ∧
  reads_safely Id.Id p ∧
  post (λ _ p', later p p' ∧ depth_array p' = a ∧ depth_dict p' = d) (later p) (skip_token a d p).
Proof. intros Hwf. split_and!; [by apply tokens_safe..|by apply skip_token_safe]. Qed.

Lemma tokenizer_safe_witness :
  let _ := text_float in
  let p := new (str_bytes "[1, {") in
  match next_token (list Z) p with Ret t p' => t = ArrayStart ∧ later p p' | _ => False end.
Proof.
  intros tf p.
  destruct (tokenizer_safe 0 0 p ltac:(by apply new_wf)) as [[Ht _] _].
  split; [reflexivity|apply Ht].
Defined.
