(* ===== verification/JmapDate.v ===== *)
(** * JmapDate: dates of the JMAP protocol crate

    Models [crates/jmap-proto/src/types/date.rs]: [UTCDate], its parser, its
    text, and the conversions from and to Unix time.  The theorems: a time is
    the time of the date made from it, and a date is read back from its text. *)

From stdpp Require Import base gmap sorting strings numbers list.
From S2P Require Import Prelude Utf8 Json JsonTheory JsonPrint JsonText.
Import Json.
Open Scope Z_scope.

Module UTCDate.
Record UTCDate := {
  year : Z;
  month : Z;
  day : Z;
  hour : Z;
  minute : Z;
  second : Z;
  tz_before_gmt : bool;
  tz_hour : Z;
  tz_minute : Z;
}.

(** *** The parser *)

Record scan := {
  at_part : nat;
  parts : list Z;
  parts_sizes : list Z;
  skip_digits : bool;
  is_plus : bool;
}.

Definition scan_start : scan := {|
  at_part := 0;
  parts := replicate 8 0;
  parts_sizes := [4; 2; 2; 2; 2; 2; 2; 2];
  skip_digits := false;
  is_plus := true;
|}.

Definition next_part (s : scan) : scan :=
  {| at_part := S (at_part s); parts := parts s; parts_sizes := parts_sizes s;
     skip_digits := skip_digits s; is_plus := is_plus s |}.
(** The zone: the digits of the fraction, if any, are over. *)
Definition zone_part (s : scan) (plus : bool) : scan :=
  {| at_part := S (at_part s); parts := parts s; parts_sizes := parts_sizes s;
     skip_digits := false; is_plus := plus |}.

Definition scan_char (s : scan) (ch : Z) : flow scan UTCDate :=
  if is_digit ch then
    if skip_digits s then Continue s
    else
      match parts_sizes s !! at_part s, parts s !! at_part s with
      | Some size, Some part =>
          if 0 <? size then
            Continue
              {| at_part := at_part s;
                 parts := <[at_part s := wrap 32 (part + (ch - 48) * 10 ^ (size - 1))]> (parts s);
                 parts_sizes := <[at_part s := size - 1]> (parts_sizes s);
                 skip_digits := skip_digits s; is_plus := is_plus s |}
          else Break s
      | _, _ => Return (λ _, Panic)
      end
  else if ch =? 45 then
    if (at_part s <=? 1)%nat then Continue (next_part s)
    else if (at_part s =? 5)%nat then Continue (zone_part s false)
    else Break s
  else if ch =? 84 then
    if (at_part s =? 2)%nat then Continue (next_part s) else Break s
  else if ch =? 58 then
    if bool_decide (at_part s ∈ [3; 4; 6]%nat) then Continue (next_part s) else Break s
  else if ch =? 43 then
    if (at_part s =? 5)%nat then Continue (zone_part s (is_plus s)) else Break s
  else if ch =? 46 then
    if (at_part s =? 5)%nat then
      Continue {| at_part := at_part s; parts := parts s; parts_sizes := parts_sizes s;
                  skip_digits := true; is_plus := is_plus s |}
    else Break s
  else if (ch =? 90) || (ch =? 122) then Continue s
  else Break s.

Definition part (s : scan) (i : nat) : Z := nth i (parts s) 0.

Definition scan_end (s : scan) : M UTCDate :=
  if (5 <=? at_part s)%nat then
    mret {| year := wrap 16 (part s 0); month := wrap 8 (part s 1); day := wrap 8 (part s 2);
            hour := wrap 8 (part s 3); minute := wrap 8 (part s 4); second := wrap 8 (part s 5);
            tz_hour := wrap 8 (part s 6); tz_minute := wrap 8 (part s 7);
            tz_before_gmt := negb (is_plus s) |}
  else error_value.

#[global] Instance parse_date : JsonObjectParser UTCDate := while_unescaped scan_char scan_end scan_start.

(** *** Unix time *)

(** [from_timestamp]; the division of [i64] rounds towards zero. *)
Definition from_timestamp (timestamp : Z) : UTCDate :=
  let z := Z.quot timestamp 86400 + 719468 in
  let seconds := Z.rem timestamp 86400 in
  let era := Z.quot (if 0 <=? z then z else z - 146096) 146097 in
  let doe := wrap 64 (z - era * 146097) in
  let yoe := (doe - doe / 1460 + doe / 36524 - doe / 146096) / 365 in
  let y := yoe + era * 400 in
  let doy := doe - (365 * yoe + yoe / 4 - yoe / 100) in
  let mp := (5 * doy + 2) / 153 in
  let d := doy - (153 * mp + 2) / 5 + 1 in
  let m := if mp <? 10 then mp + 3 else mp - 9 in
  {| year := wrap 16 (y + (if m <=? 2 then 1 else 0));
     month := wrap 8 m;
     day := wrap 8 d;
     hour := wrap 8 (Z.quot seconds 3600);
     minute := wrap 8 (Z.rem (Z.quot seconds 60) 60);
     second := wrap 8 (Z.rem seconds 60);
     tz_before_gmt := false;
     tz_hour := 0;
     tz_minute := 0 |}.

Definition within (lo hi v : Z) : bool := (lo <=? v) && (v <=? hi).

Definition is_valid (d : UTCDate) : bool :=
  within 0 23 (tz_hour d) && within 1970 3000 (year d) && within 0 59 (tz_minute d) &&
  within 1 12 (month d) && within 1 31 (day d) && within 0 23 (hour d) &&
  within 0 59 (minute d) && within 0 59 (second d).

Definition timestamp (date : UTCDate) : Z :=
  let m := month date in
  let m_adj := wrap 32 (m - 3) in
  let carry := if m <? m_adj then 1 else 0 in
  let adjust := if 0 <? carry then 12 else 0 in
  let y_adj := year date + 4800 - carry in
  let month_days := wrap 32 (wrap 32 (wrap 32 (m_adj + adjust) * 62719) + 769) / 2048 in
  let leap_days := y_adj / 4 - y_adj / 100 + y_adj / 400 in
  (y_adj * 365 + leap_days + month_days + (day date - 1) - 2472632) * 86400
    + hour date * 3600 + minute date * 60 + second date
    + (tz_hour date * 3600 + tz_minute date * 60) * (if tz_before_gmt date then 1 else -1).

(** *** The text *)

(** [{:0w}] *)
Definition pad (w : nat) (n : Z) : list Z :=
  let ds := digits 20 n in replicate (w - length ds) 48 ++ ds.

Definition to_string (d : UTCDate) : list Z :=
  pad 4 (year d) ++ [45] ++ pad 2 (month d) ++ [45] ++ pad 2 (day d) ++ [84] ++
  pad 2 (hour d) ++ [58] ++ pad 2 (minute d) ++ [58] ++ pad 2 (second d) ++
  if negb (tz_hour d =? 0) || negb (tz_minute d =? 0) then
    [if tz_before_gmt d && ((0 <? tz_hour d) || (0 <? tz_minute d)) then 45 else 43] ++
    pad 2 (tz_hour d) ++ [58] ++ pad 2 (tz_minute d)
  else [90].
End UTCDate.
Import UTCDate.

(** ** Unix time *)

Definition yoe_of (doe : Z) : Z := (doe - doe / 1460 + doe / 36524 - doe / 146096) / 365.
Definition doy_of (doe : Z) : Z := doe - (365 * yoe_of doe + yoe_of doe / 4 - yoe_of doe / 100).

(** The year and the day of the year within an era of 146097 days. *)
Lemma era_days doe : 0 ≤ doe < 146097 → 0 ≤ yoe_of doe ≤ 399 ∧ 0 ≤ doy_of doe ≤ 365.
Proof.
  intros Hd. assert (0 ≤ yoe_of doe ≤ 399) as Hy
    by (unfold yoe_of; Z.to_euclidean_division_equations; lia).
  split; [done|]. unfold doy_of.
  assert (yoe_of doe = (doe - doe / 1460 + doe / 36524 - doe / 146096) / 365) as Heq by done.
  revert Hy Heq. generalize (yoe_of doe) as yoe. intros yoe Hy Heq.
  assert (doe / 36524 = 0 ∨ doe / 36524 = 1 ∨ doe / 36524 = 2 ∨ doe / 36524 = 3 ∨ doe / 36524 = 4) as Hc
    by (clear Heq; Z.to_euclidean_division_equations; lia).
  assert (doe / 146096 = 0 ∨ doe / 146096 = 1) as Hf by (clear Heq; Z.to_euclidean_division_equations; lia).
  assert (yoe / 100 = 0 ∨ yoe / 100 = 1 ∨ yoe / 100 = 2 ∨ yoe / 100 = 3) as Hq
    by (clear Heq; Z.to_euclidean_division_equations; lia).
  Z.to_euclidean_division_equations.
  destruct Hc as [Hc|[Hc|[Hc|[Hc|Hc]]]], Hf as [Hf|Hf], Hq as [Hq|[Hq|[Hq|Hq]]];
    rewrite ?Hc, ?Hf, ?Hq in *; lia.
Qed.

Lemma month_days_eq mp : 0 ≤ mp ≤ 11 → (mp * 62719 + 769) / 2048 = (153 * mp + 2) / 5.
Proof. intros. Z.to_euclidean_division_equations. lia. Qed.

(** A date within the ranges of its fields. *)
Definition date_ok (d : UTCDate) : Prop :=
  0 ≤ year d < 2 ^ 16 ∧ 1 ≤ month d ≤ 12 ∧ 1 ≤ day d ≤ 31 ∧
  0 ≤ hour d ≤ 23 ∧ 0 ≤ minute d ≤ 59 ∧ 0 ≤ second d ≤ 59.

(** The month and day of a day of the year, counted from March. *)
Lemma civil_month doy :
  0 ≤ doy ≤ 365 →
  let mp := (5 * doy + 2) / 153 in
  let m := if mp <? 10 then mp + 3 else mp - 9 in
  0 ≤ mp ≤ 11 ∧ 1 ≤ doy - (153 * mp + 2) / 5 + 1 ≤ 31 ∧ 1 ≤ m ≤ 12 ∧
  wrap 32 (wrap 32 (m - 3) + (if m <? wrap 32 (m - 3) then 12 else 0)) = mp ∧
  (m <? wrap 32 (m - 3)) = (m <=? 2).
Proof.
  intros Hd mp m. assert (0 ≤ mp ≤ 11) as Hmp.
  { unfold mp. Z.to_euclidean_division_equations. lia. }
  assert (1 ≤ doy - (153 * mp + 2) / 5 + 1 ≤ 31) as Hday.
  { unfold mp. Z.to_euclidean_division_equations. lia. }
  split; [done|]. split; [done|]. unfold m.
  assert (mp ∈ seqZ 0 12) as Hin by (apply elem_of_seqZ; lia). clearbody mp. clear -Hin.
  cbn in Hin. repeat (apply elem_of_cons in Hin as [-> |Hin]; [vm_compute; intuition congruence|]).
  by apply elem_of_nil in Hin.
Qed.

(** The date of a day, counted from the first of March of the year 0, with no
    wrap-around. *)
Definition date_of_day (z seconds : Z) : UTCDate :=
  let era := z / 146097 in
  let doe := z - era * 146097 in
  let doy := doy_of doe in
  let mp := (5 * doy + 2) / 153 in
  let m := if mp <? 10 then mp + 3 else mp - 9 in
  {| year := yoe_of doe + era * 400 + (if m <=? 2 then 1 else 0); month := m;
     day := doy - (153 * mp + 2) / 5 + 1;
     hour := seconds / 3600; minute := (seconds / 60) `mod` 60; second := seconds `mod` 60;
     tz_before_gmt := false; tz_hour := 0; tz_minute := 0 |}.

Lemma timestamp_from_day z seconds :
  719468 ≤ z → z < 2 ^ 24 → 0 ≤ seconds < 86400 →
  date_ok (date_of_day z seconds) ∧
  timestamp (date_of_day z seconds) = (z - 719468) * 86400 + seconds.
Proof.
  intros Hz Hz2 Hs. unfold date_of_day. set (era := z / 146097). set (doe := z - era * 146097).
  set (doy := doy_of doe). set (mp := (5 * doy + 2) / 153). set (m := if mp <? 10 then mp + 3 else mp - 9).
  set (d := doy - (153 * mp + 2) / 5 + 1).
  assert (0 ≤ doe < 146097) as Hdoe.
  { unfold doe, era. pose proof (Z.div_mod z 146097 ltac:(lia)). pose proof (Z.mod_pos_bound z 146097 ltac:(lia)). lia. }
  assert (4 ≤ era ≤ 115) as Hera by (unfold era; Z.to_euclidean_division_equations; lia).
  destruct (era_days doe Hdoe) as [Hyoe Hdoy]. fold doy in Hdoy.
  destruct (civil_month doy Hdoy) as (Hmp & Hd & Hm & Hadj & Hcarry).
  fold mp in Hmp, Hd, Hm, Hadj, Hcarry. fold m in Hm, Hadj, Hcarry. fold d in Hd.
  assert (doy = doe - (365 * yoe_of doe + yoe_of doe / 4 - yoe_of doe / 100)) as Hdoy_eq by done.
  split.
  { unfold date_ok. cbn [year month day hour minute second].
    split; [destruct (m <=? 2); lia|]. split; [done|]. split; [done|].
    Z.to_euclidean_division_equations. lia. }
  unfold timestamp. cbn [year month day hour minute second tz_hour tz_minute tz_before_gmt].
  assert ((if 0 <? (if m <? wrap 32 (m - 3) then 1 else 0) then 12 else 0)
    = (if m <? wrap 32 (m - 3) then 12 else 0)) as -> by (by destruct (m <? wrap 32 (m - 3))).
  rewrite Hadj, Hcarry.
  rewrite (wrap_small 32 (mp * 62719)) by (unfold uint_ok; lia).
  rewrite (wrap_small 32 (mp * 62719 + 769)) by (unfold uint_ok; lia). rewrite month_days_eq by done.
  replace (yoe_of doe + era * 400 + (if m <=? 2 then 1 else 0) + 4800 - (if m <=? 2 then 1 else 0))
    with (yoe_of doe + 400 * (era + 12)) by lia.
  generalize dependent (yoe_of doe). intros yoe Hyoe Hdoy_eq.
  assert ((yoe + 400 * (era + 12)) / 4 = yoe / 4 + 100 * (era + 12)) as ->
    by (replace (yoe + 400 * (era + 12)) with (yoe + (100 * (era + 12)) * 4) by lia; by rewrite Z.div_add by lia).
  assert ((yoe + 400 * (era + 12)) / 100 = yoe / 100 + 4 * (era + 12)) as ->
    by (replace (yoe + 400 * (era + 12)) with (yoe + (4 * (era + 12)) * 100) by lia; by rewrite Z.div_add by lia).
  assert ((yoe + 400 * (era + 12)) / 400 = era + 12) as ->
    by (rewrite (Z.mul_comm 400), Z.div_add, Z.div_small by lia; lia).
  assert (seconds / 3600 * 3600 + (seconds / 60) `mod` 60 * 60 + seconds `mod` 60 = seconds) as Hsec
    by (Z.to_euclidean_division_equations; lia).
  unfold d. lia.
Qed.

(** The date of a time is a date, and its time is that time. *)
Theorem timestamp_roundtrip t :
  0 ≤ t < 2 ^ 40 → date_ok (from_timestamp t) ∧ timestamp (from_timestamp t) = t.
Proof.
  intros Ht.
  assert (0 ≤ t / 86400 < 2 ^ 24 - 719468) as Hz by (Z.to_euclidean_division_equations; lia).
  assert (0 ≤ t `mod` 86400 < 86400) as Hs by (apply Z.mod_pos_bound; lia).
  pose proof (timestamp_from_day (t / 86400 + 719468) (t `mod` 86400) ltac:(lia) ltac:(lia) Hs) as [Hok Heq].
  enough (from_timestamp t = date_of_day (t / 86400 + 719468) (t `mod` 86400)) as Heq'.
  { split; [by rewrite Heq'|]. rewrite Heq', Heq. pose proof (Z.div_mod t 86400 ltac:(lia)). lia. }
  unfold from_timestamp. rewrite Z.quot_div_nonneg, Z.rem_mod_nonneg by lia.
  destruct (Z.leb_spec 0 (t / 86400 + 719468)); [|lia]. rewrite Z.quot_div_nonneg by lia.
  set (z := t / 86400 + 719468) in *.
  pose proof (Z.div_mod z 146097 ltac:(lia)) as Hera. pose proof (Z.mod_pos_bound z 146097 ltac:(lia)).
  rewrite (wrap_small 64 (z - z / 146097 * 146097)) by (unfold uint_ok; lia).
  fold (yoe_of (z - z / 146097 * 146097)). fold (doy_of (z - z / 146097 * 146097)).
  unfold date_ok, date_of_day in Hok |- *. cbn [year month day hour minute second] in Hok.
  rewrite !Z.quot_div_nonneg, !Z.rem_mod_nonneg by (try lia; apply Z.div_pos; lia).
  rewrite !wrap_small by (unfold uint_ok; lia). reflexivity.
Qed.

Lemma timestamp_roundtrip_witness :
  from_timestamp 1700000000 = {| year := 2023; month := 11; day := 14; hour := 22; minute := 13;
    second := 20; tz_before_gmt := false; tz_hour := 0; tz_minute := 0 |} ∧
  timestamp (from_timestamp 1700000000) = 1700000000.
Proof. split; [vm_compute; reflexivity|]. apply timestamp_roundtrip. lia. Defined.

(** Times before 1970 have a negative rest of seconds, which wraps around. *)
Example timestamp_before_epoch :
  hour (from_timestamp (-3600)) = 255 ∧ timestamp (from_timestamp (-3600)) ≠ -3600.
Proof. split; vm_compute; [reflexivity|discriminate]. Qed.

(** ** The text *)

Definition two (n : Z) : list Z := [48 + n / 10; 48 + n `mod` 10].
Definition four (n : Z) : list Z :=
  [48 + n / 1000; 48 + (n / 100) `mod` 10; 48 + (n / 10) `mod` 10; 48 + n `mod` 10].

Fixpoint check_pads (w : nat) (f : Z → list Z) (k : nat) (n : Z) : bool :=
  match k with
  | O => true
  | S k => bool_decide (pad w n = f n) && check_pads w f k (n + 1)
  end.
Lemma check_pads_spec w f k a n : check_pads w f k a = true → a ≤ n < a + Z.of_nat k → pad w n = f n.
Proof.
  revert a. induction k as [|k IH]; intros a Hc Hn; [lia|]. cbn [check_pads] in Hc.
  apply andb_true_iff in Hc as [Hc%bool_decide_eq_true Hk]. destruct (decide (n = a)) as [-> |]; [done|].
  apply (IH (a + 1)); [done|lia].
Qed.
Lemma pad_two n : 0 ≤ n < 100 → pad 2 n = two n.
Proof. intros. apply (check_pads_spec _ _ 100 0); [vm_compute; reflexivity|lia]. Qed.
Lemma pad_four n : 0 ≤ n < 10000 → pad 4 n = four n.
Proof. intros. apply (check_pads_spec _ _ (Z.to_nat 10000) 0); [vm_compute; reflexivity|lia]. Qed.

(** A digit of the part the scanner is at. *)
Lemma scan_digit i ps ss plus d size part :
  0 ≤ d < 10 → ss !! i = Some size → ps !! i = Some part → 0 < size →
  scan_char {| at_part := i; parts := ps; parts_sizes := ss; skip_digits := false; is_plus := plus |} (48 + d)
  = Continue {| at_part := i; parts := <[i := wrap 32 (part + d * 10 ^ (size - 1))]> ps;
                parts_sizes := <[i := size - 1]> ss; skip_digits := false; is_plus := plus |}.
Proof.
  intros Hd Hs Hp Hpos. unfold scan_char. assert (is_digit (48 + d) = true) as -> by (unfold is_digit; lia).
  cbn [skip_digits at_part parts parts_sizes is_plus]. rewrite Hs, Hp.
  destruct (Z.ltb_spec 0 size); [|lia]. by replace (48 + d - 48) with d by lia.
Qed.

Lemma run_app {St R} (body : St → Z → flow St R) s t1 t2 s1 :
  run body s t1 = Some s1 → run body s (t1 ++ t2) = run body s1 t2.
Proof.
  revert s. induction t1 as [|c t1 IH]; intros s; cbn; [by intros [= ->]|].
  destruct (body s c); [apply IH|done|done].
Qed.

Lemma scan_two i ps ss plus n :
  0 ≤ n < 100 → ss !! i = Some 2 → ps !! i = Some 0 →
  run scan_char {| at_part := i; parts := ps; parts_sizes := ss; skip_digits := false; is_plus := plus |} (two n)
  = Some {| at_part := i; parts := <[i := n]> ps; parts_sizes := <[i := 0]> ss; skip_digits := false; is_plus := plus |}.
Proof.
  intros Hn Hs Hp. assert (0 ≤ n / 10 < 10 ∧ 0 ≤ n `mod` 10 < 10 ∧ n = 10 * (n / 10) + n `mod` 10) as (Ha & Hb & Hn')
    by (Z.to_euclidean_division_equations; lia).
  pose proof (lookup_lt_Some _ _ _ Hs). pose proof (lookup_lt_Some _ _ _ Hp).
  unfold two. cbn [run]. rewrite (scan_digit i ps ss plus _ 2 0) by (done || lia).
  rewrite (scan_digit i _ _ plus _ 1 (wrap 32 (0 + n / 10 * 10 ^ (2 - 1))))
    by (first [lia | by rewrite list_lookup_insert_eq]).
  rewrite !list_insert_insert_eq. do 3 f_equal. cbn [Z.sub Z.pow Z.pow_pos Pos.iter].
  rewrite !wrap_small; unfold uint_ok; rewrite ?wrap_small; unfold uint_ok; cbn; lia.
Qed.

Lemma scan_four i ps ss plus n :
  0 ≤ n < 10000 → ss !! i = Some 4 → ps !! i = Some 0 →
  run scan_char {| at_part := i; parts := ps; parts_sizes := ss; skip_digits := false; is_plus := plus |} (four n)
  = Some {| at_part := i; parts := <[i := n]> ps; parts_sizes := <[i := 0]> ss; skip_digits := false; is_plus := plus |}.
Proof.
  intros Hn Hs Hp.
  set (a := n / 1000). set (b := (n / 100) `mod` 10). set (c := (n / 10) `mod` 10). set (d := n `mod` 10).
  assert (0 ≤ a < 10 ∧ 0 ≤ b < 10 ∧ 0 ≤ c < 10 ∧ 0 ≤ d < 10 ∧ n = 1000 * a + 100 * b + 10 * c + d)
    as (Ha & Hb & Hc & Hd & Hn') by (unfold a, b, c, d; Z.to_euclidean_division_equations; lia).
  pose proof (lookup_lt_Some _ _ _ Hs). pose proof (lookup_lt_Some _ _ _ Hp).
  unfold four. cbn [run]. fold a b c d.
  assert (∀ x, 0 ≤ x < 100000 → wrap 32 x = x) as Hw by (intros; apply wrap_small; unfold uint_ok; lia).
  rewrite (scan_digit i ps ss plus a 4 0) by (done || lia).
  change (10 ^ (4 - 1)) with 1000. rewrite Hw by lia.
  rewrite (scan_digit i _ _ plus b 3 (0 + a * 1000)) by (first [lia | by rewrite list_lookup_insert_eq]).
  change (10 ^ (3 - 1)) with 100. rewrite Hw, !list_insert_insert_eq by lia.
  rewrite (scan_digit i _ _ plus c 2 (0 + a * 1000 + b * 100)) by (first [lia | by rewrite list_lookup_insert_eq]).
  change (10 ^ (2 - 1)) with 10. rewrite Hw, !list_insert_insert_eq by lia.
  rewrite (scan_digit i _ _ plus d 1 (0 + a * 1000 + b * 100 + c * 10)) by (first [lia | by rewrite list_lookup_insert_eq]).
  change (10 ^ (1 - 1)) with 1. rewrite Hw, !list_insert_insert_eq by lia.
  do 3 f_equal. lia.
Qed.

(** The dates whose text has all of them: four digits for the year, two for
    the other fields, and no sign of a zone that is zero. *)
Definition text_ok (d : UTCDate) : Prop :=
  0 ≤ year d < 10000 ∧ 0 ≤ month d < 100 ∧ 0 ≤ day d < 100 ∧ 0 ≤ hour d < 100 ∧
  0 ≤ minute d < 100 ∧ 0 ≤ second d < 100 ∧ 0 ≤ tz_hour d < 100 ∧ 0 ≤ tz_minute d < 100 ∧
  (tz_hour d = 0 → tz_minute d = 0 → tz_before_gmt d = false).

Lemma run_cons {St R} (body : St → Z → flow St R) s s1 c t :
  body s c = Continue s1 → run body s (c :: t) = run body s1 t.
Proof. intros Hb. cbn. by rewrite Hb. Qed.

Lemma scan_two_app i ps ss plus n rest :
  0 ≤ n < 100 → ss !! i = Some 2 → ps !! i = Some 0 →
  run scan_char {| at_part := i; parts := ps; parts_sizes := ss; skip_digits := false; is_plus := plus |}
    (two n ++ rest)
  = run scan_char {| at_part := i; parts := <[i := n]> ps; parts_sizes := <[i := 0]> ss;
                     skip_digits := false; is_plus := plus |} rest.
Proof. intros. apply run_app. by apply scan_two. Qed.

Lemma scan_four_app i ps ss plus n rest :
  0 ≤ n < 10000 → ss !! i = Some 4 → ps !! i = Some 0 →
  run scan_char {| at_part := i; parts := ps; parts_sizes := ss; skip_digits := false; is_plus := plus |}
    (four n ++ rest)
  = run scan_char {| at_part := i; parts := <[i := n]> ps; parts_sizes := <[i := 0]> ss;
                     skip_digits := false; is_plus := plus |} rest.
Proof. intros. apply run_app. by apply scan_four. Qed.

(** A separator moves the scanner to the next part. *)
Lemma scan_separator i ps ss plus c rest :
  (i, c) ∈ [(0, 45); (1, 45); (2, 84); (3, 58); (4, 58); (6, 58)]%nat →
  run scan_char {| at_part := i; parts := ps; parts_sizes := ss; skip_digits := false; is_plus := plus |}
    (Z.of_nat c :: rest)
  = run scan_char {| at_part := S i; parts := ps; parts_sizes := ss;
                     skip_digits := false; is_plus := plus |} rest.
Proof.
  intros Hin. apply run_cons.
  repeat (apply elem_of_cons in Hin as [[= -> ->]|Hin]; [reflexivity|]). by apply elem_of_nil in Hin.
Qed.

(** The scanner on the date and time. *)
Lemma scan_date_time d tail :
  text_ok d →
  run scan_char scan_start
    (four (year d) ++ 45 :: two (month d) ++ 45 :: two (day d) ++ 84 :: two (hour d) ++ 58 ::
     two (minute d) ++ 58 :: two (second d) ++ tail)
  = run scan_char
      {| at_part := 5; parts := [year d; month d; day d; hour d; minute d; second d; 0; 0];
         parts_sizes := [0; 0; 0; 0; 0; 0; 2; 2]; skip_digits := false; is_plus := true |} tail.
Proof.
  intros (Hy & Hmo & Hd & Hh & Hmi & Hs & _). unfold scan_start.
  rewrite scan_four_app by done. rewrite (scan_separator 0 _ _ _ 45) by set_solver.
  rewrite scan_two_app by done. rewrite (scan_separator 1 _ _ _ 45) by set_solver.
  rewrite scan_two_app by done. rewrite (scan_separator 2 _ _ _ 84) by set_solver.
  rewrite scan_two_app by done. rewrite (scan_separator 3 _ _ _ 58) by set_solver.
  rewrite scan_two_app by done. rewrite (scan_separator 4 _ _ _ 58) by set_solver.
  by rewrite scan_two_app by done.
Qed.

Lemma scan_zone d ps :
  text_ok d → ps = [year d; month d; day d; hour d; minute d; second d] → ∀ minus : bool,
  run scan_char
    {| at_part := 5; parts := ps ++ [0; 0];
       parts_sizes := [0; 0; 0; 0; 0; 0; 2; 2]; skip_digits := false; is_plus := true |}
    ((if minus then 45 else 43) :: two (tz_hour d) ++ 58 :: two (tz_minute d))
  = Some {| at_part := 7; parts := ps ++ [tz_hour d; tz_minute d];
            parts_sizes := replicate 8 0; skip_digits := false; is_plus := negb minus |}.
Proof.
  intros (_ & _ & _ & _ & _ & _ & Hth & Htm & _) -> minus.
  rewrite (run_cons _ _ (zone_part {| at_part := 5;
       parts := [year d; month d; day d; hour d; minute d; second d] ++ [0; 0];
       parts_sizes := [0; 0; 0; 0; 0; 0; 2; 2]; skip_digits := false; is_plus := true |} (negb minus)))
    by (by destruct minus).
  unfold zone_part. cbn [at_part parts parts_sizes app].
  rewrite scan_two_app by done. rewrite (scan_separator 6 _ _ _ 58) by set_solver.
  by rewrite scan_two by done.
Qed.

Lemma digit_plain n : 0 ≤ n < 10 → plain (48 + n).
Proof. unfold plain, QUOTE, BACKSLASH. lia. Qed.

Lemma two_plain n : 0 ≤ n < 100 → Forall plain (two n).
Proof.
  intros. assert (0 ≤ n / 10 < 10 ∧ 0 ≤ n `mod` 10 < 10) as [? ?] by (Z.to_euclidean_division_equations; lia).
  repeat constructor; by apply digit_plain.
Qed.
Lemma four_plain n : 0 ≤ n < 10000 → Forall plain (four n).
Proof.
  intros. assert (0 ≤ n / 1000 < 10 ∧ 0 ≤ (n / 100) `mod` 10 < 10 ∧ 0 ≤ (n / 10) `mod` 10 < 10 ∧ 0 ≤ n `mod` 10 < 10)
    as (? & ? & ? & ?) by (Z.to_euclidean_division_equations; lia).
  repeat constructor; by apply digit_plain.
Qed.

Lemma text_shape d :
  text_ok d → to_string d =
    four (year d) ++ 45 :: two (month d) ++ 45 :: two (day d) ++ 84 :: two (hour d) ++ 58 ::
    two (minute d) ++ 58 :: two (second d) ++
    if bool_decide (tz_hour d = 0 ∧ tz_minute d = 0) then [90]
    else (if tz_before_gmt d then 45 else 43) :: two (tz_hour d) ++ 58 :: two (tz_minute d).
Proof.
  intros (Hy & Hmo & Hd & Hh & Hmi & Hs & Hth & Htm & _). unfold to_string.
  rewrite pad_four, !pad_two by done. cbn [app]. do 12 f_equal.
  case_bool_decide as Hz.
  - destruct Hz as [-> ->]. done.
  - destruct (negb (tz_hour d =? 0) || negb (tz_minute d =? 0)) eqn:E; [|lia].
    destruct ((0 <? tz_hour d) || (0 <? tz_minute d)) eqn:E2; [|lia].
    by rewrite andb_true_r.
Qed.

Definition scan_of (d : UTCDate) : scan :=
  let zone := negb (bool_decide (tz_hour d = 0 ∧ tz_minute d = 0)) in
  {| at_part := if zone then 7 else 5;
     parts := [year d; month d; day d; hour d; minute d; second d; tz_hour d; tz_minute d];
     parts_sizes := if zone then replicate 8 0 else [0; 0; 0; 0; 0; 0; 2; 2];
     skip_digits := false; is_plus := negb (tz_before_gmt d) |}.

Lemma scan_text d : text_ok d → run scan_char scan_start (to_string d) = Some (scan_of d).
Proof.
  intros Hok. rewrite text_shape, scan_date_time by done. unfold scan_of.
  case_bool_decide as Hz; cbn [negb].
  - destruct Hz as [Hz1 Hz2]. rewrite Hz1, Hz2. destruct Hok as (_ & _ & _ & _ & _ & _ & _ & _ & Hg).
    by rewrite (Hg Hz1 Hz2).
  - exact (scan_zone d _ Hok eq_refl (tz_before_gmt d)).
Qed.

Lemma text_plain d : text_ok d → Forall plain (to_string d).
Proof.
  intros Hok. rewrite text_shape by done. destruct Hok as (Hy & Hmo & Hd & Hh & Hmi & Hs & Hth & Htm & _).
  repeat first [apply Forall_app; split; [first [by apply four_plain | by apply two_plain]|]
    | constructor; [by split|]].
  case_bool_decide; [repeat constructor; done|].
  constructor; [by destruct (tz_before_gmt d)|].
  apply Forall_app. split; [by apply two_plain|]. constructor; [by split|by apply two_plain].
Qed.

(** C31: A date is read back from its text. *)
Theorem date_roundtrip `{FastFloat} d : text_ok d → reads UTCDate (to_string d) d.
Proof.
  intros Hok. apply reads_eof. intros p rest Hwf _ _ Hi. unfold parse, parse_date.
  rewrite (while_run _ _ _ _ _ p rest (text_plain d Hok) (scan_text d Hok) Hi).
  unfold scan_end, scan_of, part. cbn [at_part parts is_plus nth].
  destruct Hok as (Hy & Hmo & Hd & Hh & Hmi & Hs & Hth & Htm & _).
  rewrite !wrap_small by (unfold uint_ok; lia). rewrite negb_involutive.
  case_bool_decide; by destruct d.
Qed.

Lemma date_roundtrip_witness :
  let _ := text_float in
  let d := {| year := 1997; month := 11; day := 21; hour := 9; minute := 55; second := 6;
              tz_before_gmt := true; tz_hour := 6; tz_minute := 0 |} in
  to_string d = str_bytes "1997-11-21T09:55:06-06:00" ∧ reads UTCDate (to_string d) d.
Proof. intros tf d. split; [vm_compute; reflexivity|]. apply date_roundtrip. unfold text_ok. cbn. lia. Defined.
