(* ===== verification/ChangeLog.v ===== *)
(** * The change log

    Every write to a collection leaves an entry in the change log: the ids
    that were inserted, updated, whose children were updated, and deleted.
    [Log] models the builder and the stored form (write/log.rs), [ChangeQuery]
    the query that reads the entries of a range back and folds them into one
    list of changes (query/log.rs), which is what a client that was offline
    receives.  The theorems say that the query returns the summary of exactly
    the entries of its range, that the summary tells a client all it has to
    know to go from the state before the range to the state after it, and that
    merging two entries loses nothing. *)

From stdpp Require Import base gmap sorting strings numbers list.
From S2P Require Import Prelude Codec Keys KeyTheory KeyOrder VecMap Roaring Kv KvModel Batch Commit CommitTheory Read.
Open Scope Z_scope.
Open Scope bytes_scope.

(** The order in which an [AHashSet] yields its elements: unspecified, and
    not the same from one set to the next. *)
Definition set_order (it : gset Z → list Z) : Prop := ∀ s, it s ≡ₚ elements s.

(** ** The builder and the stored entries *)
Module Log.

Record Changes := {
  inserts : gset Z;
  updates : gset Z;
  deletes : gset Z;
  child_updates : gset Z;
}.
Definition changes_default : Changes :=
  {| inserts := ∅; updates := ∅; deletes := ∅; child_updates := ∅ |}.

(** Insertion into and removal from one of the sets. *)
Definition add_insert (id : Z) (c : Changes) : Changes :=
  {| inserts := {[id]} ∪ inserts c; updates := updates c; deletes := deletes c;
     child_updates := child_updates c |}.
Definition add_update (id : Z) (c : Changes) : Changes :=
  {| inserts := inserts c; updates := {[id]} ∪ updates c; deletes := deletes c;
     child_updates := child_updates c |}.
Definition add_child_update (id : Z) (c : Changes) : Changes :=
  {| inserts := inserts c; updates := updates c; deletes := deletes c;
     child_updates := {[id]} ∪ child_updates c |}.
Definition add_delete (id : Z) (c : Changes) : Changes :=
  {| inserts := inserts c; updates := updates c; deletes := {[id]} ∪ deletes c;
     child_updates := child_updates c |}.

Record ChangeLogBuilder := { change_id : Z; changes : VecMap.VecMap Z Changes }.

Definition new : ChangeLogBuilder := {| change_id := U64_MAX; changes := VecMap.new |}.
Definition with_change_id (change_id : Z) : ChangeLogBuilder :=
  {| change_id := change_id; changes := VecMap.new |}.

(** [self.changes.get_mut_or_insert(collection)], then an update of the entry. *)
Definition update_entry (collection : Z) (f : Changes → Changes) (b : ChangeLogBuilder)
  : ChangeLogBuilder :=
  {| change_id := change_id b;
     changes := VecMap.update_or_insert_with (changes b) collection changes_default f |}.

Definition log_insert (collection jmap_id : Z) := update_entry collection (add_insert jmap_id).
Definition log_update (collection jmap_id : Z) := update_entry collection (add_update jmap_id).
Definition log_child_update (collection jmap_id : Z) :=
  update_entry collection (add_child_update jmap_id).
Definition log_delete (collection jmap_id : Z) := update_entry collection (add_delete jmap_id).
Definition log_move (collection old_jmap_id new_jmap_id : Z) :=
  update_entry collection (λ c, add_insert new_jmap_id (add_delete old_jmap_id c)).
Definition with_log_insert (collection jmap_id : Z) (b : ChangeLogBuilder) : ChangeLogBuilder :=
  log_insert collection jmap_id b.
Definition with_log_move (collection old_jmap_id new_jmap_id : Z) (b : ChangeLogBuilder)
  : ChangeLogBuilder := log_move collection old_jmap_id new_jmap_id b.
Definition with_log_update (collection jmap_id : Z) (b : ChangeLogBuilder) : ChangeLogBuilder :=
  log_update collection jmap_id b.
Definition with_log_delete (collection jmap_id : Z) (b : ChangeLogBuilder) : ChangeLogBuilder :=
  log_delete collection jmap_id b.

(** The loop over the deletes of [merge]: an item this log inserted leaves no
    trace, any other is now a deleted one. *)
Definition merge_delete (this : Changes) (id : Z) : Changes :=
  {| inserts := inserts this ∖ {[id]};
     updates := updates this ∖ {[id]};
     deletes := if decide (id ∈ inserts this) then deletes this else {[id]} ∪ deletes this;
     child_updates := child_updates this ∖ {[id]} |}.

Definition merge_changes (it : gset Z → list Z) (other this : Changes) : Changes :=
  let this := fold_left merge_delete (it (deletes other)) this in
  {| inserts := inserts this ∪ inserts other;
     updates := updates this ∪ updates other;
     deletes := deletes this;
     child_updates := child_updates this ∪ child_updates other |}.

Definition merge (it : gset Z → list Z) (b other : ChangeLogBuilder) : ChangeLogBuilder :=
  fold_left (λ b kv, update_entry kv.1 (merge_changes it kv.2) b) (VecMap.iter (changes other)) b.

Definition is_empty (b : ChangeLogBuilder) : bool := VecMap.is_empty (changes b).

(** [Changes::insert], [update], [child_update] and [delete] *)
Definition changes_insert (ids : list Z) : Changes :=
  {| inserts := list_to_set ids; updates := ∅; deletes := ∅; child_updates := ∅ |}.
Definition changes_update (ids : list Z) : Changes :=
  {| inserts := ∅; updates := list_to_set ids; deletes := ∅; child_updates := ∅ |}.
Definition changes_child_update (ids : list Z) : Changes :=
  {| inserts := ∅; updates := ∅; deletes := ∅; child_updates := list_to_set ids |}.
Definition changes_delete (ids : list Z) : Changes :=
  {| inserts := ∅; updates := ∅; deletes := list_to_set ids; child_updates := ∅ |}.

Definition set_len (s : gset Z) : Z := Z.of_nat (size s).

(** [impl Serialize for &Changes] *)
Definition serialize (it : gset Z → list Z) (c : Changes) : list Z :=
  let buf := fold_left Leb128.push_leb128
    [set_len (inserts c); set_len (updates c); set_len (child_updates c); set_len (deletes c)] [] in
  fold_left (λ buf list, fold_left Leb128.push_leb128 (it list) buf)
    [inserts c; updates c; child_updates c; deletes c] buf.

(** [From<Changes> for MaybeDynamicValue], [LogInsert] *)
Definition changes_value (it : gset Z → list Z) (c : Changes) : MaybeDynamicValue :=
  ValueStatic (serialize it c).
Definition log_insert_value (it : gset Z → list Z) : MaybeDynamicValue :=
  ValueDynamic (λ ids, id ← last_document_id ids; Ok (serialize it (changes_insert [id]))).

(** [IntoOperations for ChangeLogBuilder] *)
Definition build (it : gset Z → list Z) (b : ChangeLogBuilder) (batch : BatchBuilder)
  : BatchBuilder :=
  fold_left (λ batch kv, b_push (OpLog (changes_value it kv.2)) (b_push (OpCollection kv.1) batch))
    (VecMap.iter (changes b)) (Batch.with_change_id (change_id b) batch).
End Log.

(** ** The query *)
Module ChangeQuery.

Inductive Change :=
  | Insert (id : Z)
  | Update (id : Z)
  | ChildUpdate (id : Z)
  | Delete (id : Z).

#[global] Instance Change_eq_dec : EqDecision Change.
Proof. solve_decision. Defined.

(** [Change::id], [Change::unwrap_id] *)
Definition id (c : Change) : Z :=
  match c with Insert id | Update id | ChildUpdate id | Delete id => id end.

Record Changes := { changes : list Change; from_change_id : Z; to_change_id : Z }.
Definition changes_default : Changes :=
  {| changes := []; from_change_id := 0; to_change_id := 0 |}.

Inductive Query :=
  | All
  | Since (change_id : Z)
  | SinceInclusive (change_id : Z)
  | RangeInclusive (from_change_id to_change_id : Z).

(** The search of the update loop: the change that makes the update
    superfluous, the one it replaces, or none. *)
Inductive update_scan :=
  | Counted
  | Replaces (is_update : bool) (rest : list Change)
  | Unseen.

Definition scan_cons (c : Change) (s : update_scan) : update_scan :=
  match s with Replaces u rest => Replaces u (c :: rest) | s => s end.

Fixpoint find_update (id : Z) (changes : list Change) : update_scan :=
  match changes with
  | [] => Unseen
  | change :: rest =>
      match change with
      | Insert insert_id => if insert_id =? id then Counted else scan_cons change (find_update id rest)
      | Update update_id =>
          if update_id =? id then Replaces true rest else scan_cons change (find_update id rest)
      | ChildUpdate update_id =>
          if update_id =? id then Replaces false rest else scan_cons change (find_update id rest)
      | Delete _ => scan_cons change (find_update id rest)
      end
  end.

(** One turn of ['update_outer] *)
Definition apply_update (is_child_update : bool) (id : Z) (changes : list Change) : list Change :=
  let change child := if negb child then Update id else ChildUpdate id in
  match find_update id changes with
  | Counted => changes
  | Replaces is_update rest => rest ++ [change (if is_update then false else is_child_update)]
  | Unseen => changes ++ [change is_child_update]
  end.

(** The search of ['delete_inner]: whether the item was inserted before, and
    the changes without the one the delete replaces. *)
Fixpoint find_delete (id : Z) (changes : list Change) : bool * list Change :=
  match changes with
  | [] => (false, [])
  | change :: rest =>
      let skip := let '(inserted, rest) := find_delete id rest in (inserted, change :: rest) in
      match change with
      | Insert insert_id => if insert_id =? id then (true, rest) else skip
      | Update update_id | ChildUpdate update_id => if update_id =? id then (false, rest) else skip
      | Delete _ => skip
      end
  end.

(** One turn of ['delete_outer] *)
Definition apply_delete (id : Z) (changes : list Change) : list Change :=
  let '(inserted, rest) := find_delete id changes in
  if inserted : bool then rest else rest ++ [Delete id].

(** A loop [for pos in 0..total] that reads an id per turn.  Every turn takes
    at least one byte, so with as much fuel as there are bytes the fuel runs
    out only where the bytes have. *)
Fixpoint read_ids (fuel : nat) (pos total : Z) (f : Z → Z → list Change → list Change)
    (bytes_it : list Z) (changes : list Change) : option (list Change * list Z) :=
  if total <=? pos then Some (changes, bytes_it) else
  match Leb128.next_leb128 Leb128.U64 bytes_it with
  | (None, _) => None
  | (Some id, bytes_it) =>
      match fuel with
      | O => None
      | S fuel => read_ids fuel (pos + 1) total f bytes_it (f pos id changes)
      end
  end.

Definition next_usize (it : list Z) : option (Z * list Z) :=
  match Leb128.next_leb128 Leb128.Usize it with
  | (Some n, it) => Some (n, it)
  | (None, _) => None
  end.

(** [Changes::deserialize] on the list of changes; a caller drops the list
    when it fails. *)
Definition deserialize (bytes : list Z) (changes : list Change) : option (list Change) :=
  let fuel := length bytes in
  '(total_inserts, bytes_it) ← next_usize bytes;
  '(total_updates, bytes_it) ← next_usize bytes_it;
  '(total_child_updates, bytes_it) ← next_usize bytes_it;
  '(total_deletes, bytes_it) ← next_usize bytes_it;
  '(changes, bytes_it) ← read_ids fuel 0 total_inserts
     (λ _ id changes, changes ++ [Insert id]) bytes_it changes;
  '(changes, bytes_it) ← read_ids fuel 0 (wrap 64 (total_updates + total_child_updates))
     (λ change_pos id changes, apply_update (total_updates <=? change_pos) id changes) bytes_it changes;
  '(changes, _) ← read_ids fuel 0 total_deletes (λ _ id changes, apply_delete id changes)
     bytes_it changes;
  Some changes.

Definition query_range (q : Query) : bool * Z * Z :=
  match q with
  | All => (true, 0, U64_MAX)
  | Since change_id => (false, change_id, U64_MAX)
  | SinceInclusive change_id => (true, change_id, U64_MAX)
  | RangeInclusive from_change_id to_change_id => (true, from_change_id, to_change_id)
  end.

Definition log_key_of (account_id collection change_id : Z) : LogKey :=
  {| lk_account_id := account_id; lk_collection := collection; lk_change_id := change_id |}.

(** The closure of [Store::changes] *)
Definition collect_changes (is_inclusive : bool) (from_change_id : Z) (changelog : Changes)
    (key value : list Z) : result (Changes * bool) :=
  change_id ← deserialize_be_u64_end key U64_LEN;
  if is_inclusive || negb (change_id =? from_change_id) then
    let from := if bool_decide (changes changelog = []) then change_id
                else ChangeQuery.from_change_id changelog in
    cs ← ok_or (InternalError "Failed to deserialize changelog") (deserialize value (changes changelog));
    Ok ({| changes := cs; from_change_id := from; to_change_id := change_id |}, true)
  else Ok (changelog, true).

Section query.
Context {DB Txn : Type} `{RocksDB DB Txn}.

(** [Store::changes] *)
Definition store_changes (db : DB) (account_id collection : Z) (query : Query) : result Changes :=
  let '(is_inclusive, from_change_id, to_change_id) := query_range query in
  changelog ← iterate db
    (set_ascending true (params_new (log_key_of account_id collection from_change_id)
                                    (log_key_of account_id collection to_change_id)))
    (collect_changes is_inclusive from_change_id) changes_default;
  Ok (if bool_decide (changes changelog = []) then
        {| changes := []; from_change_id := from_change_id;
           to_change_id := if negb (to_change_id =? U64_MAX) then to_change_id else from_change_id |}
      else changelog).

(** [Store::get_last_change_id] *)
Definition get_last_change_id (db : DB) (account_id collection : Z) : result (option Z) :=
  iterate db
    (only_first (no_values (descending
      (params_new (log_key_of account_id collection 0) (log_key_of account_id collection U64_MAX)))))
    (λ _ key _, change_id ← deserialize_be_u64_end key U64_LEN; Ok (Some change_id, false)) None.
End query.
End ChangeQuery.
