(* ===== verification/ChangeLogTheory.v ===== *)
(** * What the change log tells a client

    The summary of a range of log entries against the history of the
    collection, the stored form of an entry, and the range that the query
    reads. *)

From stdpp Require Import base gmap sorting strings numbers list.
From S2P Require Import Prelude Codec Keys KeyTheory KeyOrder VecMap Roaring Kv KvModel Batch Commit CommitTheory Read ChangeLog.
Import Log ChangeQuery.
Open Scope Z_scope.
Open Scope bytes_scope.

(** ** Applying one event *)

(** An event of the history in the words of the log. *)
Definition apply_change (cs : list Change) (c : Change) : list Change :=
  match c with
  | Insert i => cs ++ [Insert i]
  | Update i => apply_update false i cs
  | ChildUpdate i => apply_update true i cs
  | Delete i => apply_delete i cs
  end.

Definition summary (events cs : list Change) : list Change := fold_left apply_change events cs.

(** The changes of one item. *)
Definition at_id (i : Z) (cs : list Change) : list Change := filter (λ c, ChangeQuery.id c = i) cs.
Arguments at_id : simpl never.

Lemma at_id_app i a b : at_id i (a ++ b) = at_id i a ++ at_id i b.
Proof. apply filter_app. Qed.
Lemma at_id_cons_eq i c cs : ChangeQuery.id c = i → at_id i (c :: cs) = c :: at_id i cs.
Proof. intros. unfold at_id. by rewrite filter_cons_True. Qed.
Lemma at_id_cons_ne i c cs : ChangeQuery.id c ≠ i → at_id i (c :: cs) = at_id i cs.
Proof. intros. unfold at_id. by rewrite filter_cons_False. Qed.

Definition scan_map (f : list Change → list Change) (s : update_scan) : update_scan :=
  match s with Replaces u rest => Replaces u (f rest) | s => s end.

Lemma find_update_at i cs : find_update i (at_id i cs) = scan_map (at_id i) (find_update i cs).
Proof.
  induction cs as [|c cs IH]; [done|].
  destruct (decide (ChangeQuery.id c = i)) as [Hc|Hc].
  - rewrite at_id_cons_eq by done. destruct c; cbn in Hc |- *; subst; rewrite ?Z.eqb_refl; try done.
    rewrite IH. destruct (find_update i cs) as [|u rest|]; cbn; try done. by rewrite at_id_cons_eq.
  - rewrite at_id_cons_ne, IH by done.
    destruct c; cbn in Hc |- *; rewrite ?(proj2 (Z.eqb_neq _ _)) by done;
      (destruct (find_update i cs) as [|u rest|]; cbn; [done| |done]; by rewrite at_id_cons_ne).
Qed.

(** What a search drops is a change of the item it looks for. *)
Lemma find_update_other i j cs u rest :
  j ≠ i → find_update i cs = Replaces u rest → at_id j rest = at_id j cs.
Proof.
  intros Hj. revert rest. induction cs as [|c cs IH]; intros rest; [done|].
  destruct (decide (ChangeQuery.id c = i)) as [Hc|Hc].
  - destruct c; cbn in Hc |- *; subst; rewrite ?Z.eqb_refl; try done;
      try (intros [= _ <-]; by rewrite at_id_cons_ne by done).
    destruct (find_update i cs) as [|u' rest'|]; try done. intros [= -> <-].
    rewrite !at_id_cons_ne by done. by apply IH.
  - destruct c; cbn in Hc |- *; rewrite ?(proj2 (Z.eqb_neq _ _)) by done;
      (destruct (find_update i cs) as [|u' rest'|]; [done| |done]; intros [= -> <-];
       unfold at_id; rewrite !filter_cons; fold (at_id j rest') (at_id j cs); by rewrite IH).
Qed.

Lemma apply_update_at b i cs : at_id i (apply_update b i cs) = apply_update b i (at_id i cs).
Proof.
  unfold apply_update. rewrite find_update_at. destruct (find_update i cs) as [|u rest|]; cbn; try done;
    rewrite at_id_app; f_equal; apply at_id_cons_eq; by repeat case_match.
Qed.

Lemma apply_update_other b i j cs : j ≠ i → at_id j (apply_update b i cs) = at_id j cs.
Proof.
  intros Hj. unfold apply_update. destruct (find_update i cs) as [|u rest|] eqn:Hf; [done|..];
    rewrite at_id_app, (at_id_cons_ne j _ []), app_nil_r by (repeat case_match; cbn; congruence).
  - by eapply find_update_other.
  - done.
Qed.

Lemma find_delete_at i cs :
  find_delete i (at_id i cs) = let '(b, rest) := find_delete i cs in (b, at_id i rest).
Proof.
  induction cs as [|c cs IH]; [done|].
  destruct (decide (ChangeQuery.id c = i)) as [Hc|Hc].
  - rewrite at_id_cons_eq by done. destruct c; cbn in Hc |- *; subst; rewrite ?Z.eqb_refl; try done.
    rewrite IH. destruct (find_delete i cs) as [b rest]. by rewrite at_id_cons_eq.
  - rewrite at_id_cons_ne, IH by done.
    destruct c; cbn in Hc |- *; rewrite ?(proj2 (Z.eqb_neq _ _)) by done;
      (destruct (find_delete i cs) as [b rest]; by rewrite at_id_cons_ne).
Qed.

Lemma find_delete_other i j cs : j ≠ i → at_id j (find_delete i cs).2 = at_id j cs.
Proof.
  intros Hj. induction cs as [|c cs IH]; [done|].
  destruct (decide (ChangeQuery.id c = i)) as [Hc|Hc].
  - destruct c; cbn in Hc |- *; subst; rewrite ?Z.eqb_refl; try by rewrite at_id_cons_ne by done.
    destruct (find_delete i cs) as [b rest]. cbn in *. by rewrite !at_id_cons_ne by done.
  - destruct c; cbn in Hc |- *; rewrite ?(proj2 (Z.eqb_neq _ _)) by done;
      (destruct (find_delete i cs) as [b rest]; cbn in *;
       unfold at_id; rewrite !filter_cons; fold (at_id j rest) (at_id j cs); by rewrite IH).
Qed.

Lemma apply_delete_at i cs : at_id i (apply_delete i cs) = apply_delete i (at_id i cs).
Proof.
  unfold apply_delete. rewrite find_delete_at. destruct (find_delete i cs) as [[] rest]; [done|].
  rewrite at_id_app. f_equal. by apply at_id_cons_eq.
Qed.

Lemma apply_delete_other i j cs : j ≠ i → at_id j (apply_delete i cs) = at_id j cs.
Proof.
  intros Hj. unfold apply_delete. pose proof (find_delete_other i j cs Hj) as Hf.
  destruct (find_delete i cs) as [[] rest]; cbn in Hf; [done|].
  rewrite at_id_app, (at_id_cons_ne j _ []), app_nil_r by (cbn; congruence). done.
Qed.

(** An event concerns its own item, and there depends on that item's changes
    only. *)
Lemma apply_change_at c cs :
  at_id (ChangeQuery.id c) (apply_change cs c) = apply_change (at_id (ChangeQuery.id c) cs) c.
Proof.
  destruct c; cbn; try apply apply_update_at; [|apply apply_delete_at].
  rewrite at_id_app. f_equal. by apply at_id_cons_eq.
Qed.

Lemma apply_change_other c j cs :
  j ≠ ChangeQuery.id c → at_id j (apply_change cs c) = at_id j cs.
Proof.
  intros Hj. destruct c; cbn in *; try (by apply apply_update_other); [|by apply apply_delete_other].
  by rewrite at_id_app, (at_id_cons_ne j _ []), app_nil_r by (cbn; congruence).
Qed.

Lemma summary_at events i cs :
  at_id i (summary events cs) = summary (at_id i events) (at_id i cs).
Proof.
  unfold summary. revert cs. induction events as [|e events IH]; intros cs; [done|]. cbn [fold_left].
  rewrite IH. destruct (decide (ChangeQuery.id e = i)) as [Hi|Hi].
  - rewrite (at_id_cons_eq i e events) by done. cbn [fold_left]. subst i. by rewrite apply_change_at.
  - rewrite (at_id_cons_ne i e events) by done. by rewrite apply_change_other by congruence.
Qed.

(** ** The history of a collection *)

(** An item has a content and children (a mailbox and its messages, a thread
    and its emails). *)
Section history.
Context {A B : Type}.

Inductive history (m0 : gmap Z (A * B)) : list Change → gmap Z (A * B) → Prop :=
  | history_start : history m0 [] m0
  | history_insert es m i x :
      history m0 es m → m !! i = None → history m0 (es ++ [Insert i]) (<[i := x]> m)
  | history_update es m i x :
      history m0 es m → is_Some (m !! i) → history m0 (es ++ [Update i]) (<[i := x]> m)
  | history_child es m i a b b' :
      history m0 es m → m !! i = Some (a, b) → history m0 (es ++ [ChildUpdate i]) (<[i := (a, b')]> m)
  | history_delete es m i :
      history m0 es m → is_Some (m !! i) → history m0 (es ++ [Delete i]) (delete i m).

(** What the changes of one item say of its value before and after. *)
Definition item_summary (x y : option (A * B)) (cs : list Change) : Prop :=
  match cs with
  | [] => x = y
  | [Insert _] => x = None ∧ is_Some y
  | [Update _] => is_Some x ∧ is_Some y
  | [ChildUpdate _] => ∃ a b b', x = Some (a, b) ∧ y = Some (a, b')
  | [Delete _] => is_Some x ∧ y = None
  | [Delete _; Insert _] => is_Some x ∧ is_Some y
  | _ => False
  end.

Definition summarises (m0 m1 : gmap Z (A * B)) (cs : list Change) : Prop :=
  ∀ i, item_summary (m0 !! i) (m1 !! i) (at_id i cs).

Lemma item_summary_step x y y' c cs :
  item_summary x y cs → (∀ d, d ∈ cs → ChangeQuery.id d = ChangeQuery.id c) →
  (match c with
  | Insert _ => y = None ∧ is_Some y'
  | Update _ => is_Some y ∧ is_Some y'
  | ChildUpdate _ => ∃ a b b', y = Some (a, b) ∧ y' = Some (a, b')
  | Delete _ => is_Some y ∧ y' = None
  end) → item_summary x y' (apply_change cs c).
Proof.
  intros Hs Hid Hc.
  destruct cs as [|d [|e [|f cs]]]; cbn [item_summary] in Hs;
    [|pose proof (Hid d ltac:(by left)) as Hd
     |pose proof (Hid d ltac:(by left)) as Hd; pose proof (Hid e ltac:(right; by left)) as He
     |by destruct d; try done; destruct e];
    clear Hid; destruct c as [i|i|i|i]; try destruct d; try destruct e; try done; cbn in * |-; subst;
    cbn [apply_change]; unfold apply_update, apply_delete; cbn; rewrite ?Z.eqb_refl; cbn; rewrite ?Z.eqb_refl; cbn;
    destruct_and?; destruct_or?; subst; try naive_solver eauto using is_Some_None.
Qed.
End history.

Lemma elem_of_at_id i d cs : d ∈ at_id i cs → ChangeQuery.id d = i.
Proof. unfold at_id. by intros [? _]%list_elem_of_filter. Qed.

(** The summary of a history, at every item. *)
Lemma history_summarises {A B} (m0 m1 : gmap Z (A * B)) es :
  history m0 es m1 → summarises m0 m1 (summary es []).
Proof.
  assert (∀ es m m' c, summarises m0 m (summary es []) →
    (∀ j, j ≠ ChangeQuery.id c → m' !! j = m !! j) →
    (match c with
     | Insert i => m !! i = None ∧ is_Some (m' !! i)
     | Update i => is_Some (m !! i) ∧ is_Some (m' !! i)
     | ChildUpdate i => ∃ a b b', m !! i = Some (a, b) ∧ m' !! i = Some (a, b')
     | Delete i => is_Some (m !! i) ∧ m' !! i = None
     end) → summarises m0 m' (summary (es ++ [c]) [])) as Hstep.
  { intros es' m m' c Hs Hother Hc j. unfold summary. rewrite fold_left_app. cbn [fold_left].
    fold (summary es' []). destruct (decide (j = ChangeQuery.id c)) as [->|Hj].
    - rewrite apply_change_at. eapply item_summary_step; [apply Hs| |].
      + intros d. apply elem_of_at_id.
      + by destruct c.
    - rewrite apply_change_other, Hother by done. apply Hs. }
  induction 1; [intros j; by cbn|..]; (eapply Hstep; [eassumption|intros j Hj; cbn in Hj|]);
    rewrite ?lookup_insert_ne, ?lookup_delete_ne, ?lookup_insert_eq, ?lookup_delete_eq by congruence;
    eauto 10.
Qed.

(** ** The stored form of an entry *)

(** The events of an entry, in the order in which they are stored. *)
Definition entry_events (it : gset Z → list Z) (c : Log.Changes) : list Change :=
  (Insert <$> it (inserts c)) ++ (Update <$> it (updates c)) ++
  (ChildUpdate <$> it (child_updates c)) ++ (Delete <$> it (deletes c)).

Definition changes_ok (c : Log.Changes) : Prop :=
  (∀ i, i ∈ inserts c ∪ updates c ∪ child_updates c ∪ deletes c → uint_ok 64 i) ∧
  set_len (inserts c) < 2 ^ 64 ∧ set_len (updates c) + set_len (child_updates c) < 2 ^ 64 ∧
  set_len (deletes c) < 2 ^ 64.

Definition lebs (l : list Z) : list Z := concat ((λ v, Leb128.leb v) <$> l).

Lemma lebs_app a b : lebs (a ++ b) = lebs a ++ lebs b.
Proof. unfold lebs. by rewrite fmap_app, concat_app. Qed.

Lemma push_lebs l buf : fold_left Leb128.push_leb128 l buf = buf ++ lebs l.
Proof.
  revert buf. induction l as [|x l IH]; intros buf; cbn [fold_left]; [by rewrite app_nil_r|].
  by rewrite IH, Leb128.push_leb128_app, <-app_assoc.
Qed.

Lemma lebs_length l : Forall (uint_ok 64) l → (length l ≤ length (lebs l))%nat.
Proof.
  induction 1 as [|x l Hx _ IH]; [done|]. unfold lebs in *. rewrite fmap_cons. cbn [concat length].
  rewrite length_app. pose proof (Leb128.leb_length 9 x) as Hl.
  destruct Hl as [Hl _]; [unfold uint_ok in Hx; cbn; lia|]. lia.
Qed.

Lemma serialize_bytes it c :
  serialize it c
  = lebs [set_len (inserts c); set_len (updates c); set_len (child_updates c); set_len (deletes c)]
    ++ lebs (it (inserts c)) ++ lebs (it (updates c)) ++ lebs (it (child_updates c))
    ++ lebs (it (deletes c)).
Proof.
  unfold serialize. rewrite push_lebs. cbn [fold_left]. by rewrite !push_lebs, <-!app_assoc.
Qed.

Lemma read_ids_lebs fuel pos total f g l rest cs :
  Forall (uint_ok 64) l → (length l ≤ fuel)%nat → pos + Z.of_nat (length l) ≤ total →
  (∀ p i cs, pos ≤ p < pos + Z.of_nat (length l) → f p i cs = g cs i) →
  read_ids fuel pos total f (lebs l ++ rest) cs
  = read_ids (fuel - length l) (pos + Z.of_nat (length l)) total f rest (fold_left g l cs).
Proof.
  intros Hl. revert fuel pos cs. induction Hl as [|x l Hx Hl IH]; intros fuel pos cs Hf Ht Hg.
  - cbn [length fold_left]. rewrite Nat.sub_0_r, Z.add_0_r. done.
  - destruct fuel as [|fuel]; [cbn in Hf; lia|]. cbn [length] in Hf, Ht, Hg |- *.
    cbn [read_ids]. rewrite (proj2 (Z.leb_gt _ _)) by lia.
    unfold lebs. rewrite fmap_cons. cbn [concat]. fold (lebs l). rewrite <-app_assoc.
    rewrite (Leb128.next_leb128_leb Leb128.U64) by (by split).
    rewrite IH by (try lia; intros; apply Hg; lia). rewrite Hg by lia.
    cbn [fold_left Nat.sub]. f_equal. lia.
Qed.

Lemma read_ids_done fuel pos total f it cs :
  total ≤ pos → read_ids fuel pos total f it cs = Some (cs, it).
Proof. intros. destruct fuel; cbn [read_ids]; by rewrite (proj2 (Z.leb_le _ _)). Qed.

Lemma summary_fmap (K : Z → Change) l cs :
  summary (K <$> l) cs = fold_left (λ cs i, apply_change cs (K i)) l cs.
Proof. unfold summary. revert cs. induction l as [|x l IH]; intros cs; [done|]. apply IH. Qed.

Lemma next_usize_leb v rest : uint_ok 64 v → next_usize (Leb128.leb v ++ rest) = Some (v, rest).
Proof. intros Hv. unfold next_usize. by rewrite Leb128.next_leb128_leb by (by split). Qed.

Lemma set_order_length it s : set_order it → Z.of_nat (length (it s)) = set_len s.
Proof. intros Hit. unfold set_len, size, set_size. cbn. by rewrite (Hit s). Qed.

Lemma set_order_Forall it s (P : Z → Prop) : set_order it → (∀ i, i ∈ s → P i) → Forall P (it s).
Proof.
  intros Hit HP. rewrite (Hit s). apply list.Forall_forall. intros i. rewrite elem_of_elements. auto.
Qed.

(** Reading an entry back applies its events. *)
Lemma deserialize_serialize it c cs :
  set_order it → changes_ok c →
  deserialize (serialize it c) cs = Some (summary (entry_events it c) cs).
Proof.
  intros Hit (Hids & Hi & Hu & Hd). unfold deserialize. set (fuel := length _).
  assert (Forall (uint_ok 64) (it (inserts c)) ∧ Forall (uint_ok 64) (it (updates c)) ∧
    Forall (uint_ok 64) (it (child_updates c)) ∧ Forall (uint_ok 64) (it (deletes c))) as (Hfi & Hfu & Hfc & Hfd).
  { split_and!; apply set_order_Forall; try done; intros i Hin; apply Hids; set_solver. }
  pose proof (set_order_length it (inserts c) Hit) as Hli.
  pose proof (set_order_length it (updates c) Hit) as Hlu.
  pose proof (set_order_length it (child_updates c) Hit) as Hlc.
  pose proof (set_order_length it (deletes c) Hit) as Hld.
  assert (length (it (inserts c)) + length (it (updates c)) + length (it (child_updates c))
    + length (it (deletes c)) ≤ fuel)%nat as Hfuel.
  { unfold fuel. rewrite serialize_bytes, !length_app.
    pose proof (lebs_length _ Hfi). pose proof (lebs_length _ Hfu).
    pose proof (lebs_length _ Hfc). pose proof (lebs_length _ Hfd). lia. }
  rewrite serialize_bytes. clearbody fuel. unfold lebs at 1. rewrite !fmap_cons. cbn [concat fmap list_fmap].
  rewrite <-!app_assoc, app_nil_l.
  rewrite (next_usize_leb (set_len (inserts c))) by (unfold uint_ok; lia). cbn [mbind option_bind].
  rewrite (next_usize_leb (set_len (updates c))) by (unfold uint_ok; lia). cbn [mbind option_bind].
  rewrite (next_usize_leb (set_len (child_updates c))) by (unfold uint_ok; lia). cbn [mbind option_bind].
  rewrite (next_usize_leb (set_len (deletes c))) by (unfold uint_ok; lia). cbn [mbind option_bind].
  rewrite (read_ids_lebs _ _ _ _ (λ cs i, apply_change cs (Insert i))) by (done || lia).
  rewrite read_ids_done by lia. cbn [mbind option_bind]. rewrite wrap_small by (unfold uint_ok; lia).
  rewrite (read_ids_lebs _ _ _ _ (λ cs i, apply_change cs (Update i))); [|done|lia|lia|].
  2: { intros p i cs' Hp. cbn. by rewrite (proj2 (Z.leb_gt _ _)) by lia. }
  rewrite (read_ids_lebs _ _ _ _ (λ cs i, apply_change cs (ChildUpdate i))); [|done|lia|lia|].
  2: { intros p i cs' Hp. cbn. by rewrite (proj2 (Z.leb_le _ _)) by lia. }
  rewrite read_ids_done by lia. cbn [mbind option_bind].
  rewrite <-(app_nil_r (lebs (it (deletes c)))).
  rewrite (read_ids_lebs _ _ _ _ (λ cs i, apply_change cs (Delete i))) by (done || lia).
  rewrite read_ids_done by lia. cbn [mbind option_bind]. f_equal.
  unfold entry_events, summary. by rewrite !fold_left_app; repeat rewrite <-?summary_fmap.
Qed.

(** ** The entries of a range *)

(** The log of a collection: the events of each change id, in stored order. *)
Definition encodes (v : list Z) (es : list Change) : Prop :=
  ∃ it c, set_order it ∧ changes_ok c ∧ v = serialize it c ∧ es = entry_events it c.

Definition log_cell_of (a col i : Z) : Z * list Z :=
  (SUBSPACE_LOGS, log_key_serialize (log_key_of a col i) 0).

Definition log_stored (m : store_map) (a col : Z) (log : gmap Z (list Change)) : Prop :=
  (∀ i es, log !! i = Some es → uint_ok 64 i) ∧
  ∀ i, uint_ok 64 i →
    match m !! log_cell_of a col i, log !! i with
    | Some v, Some es => encodes v es
    | None, None => True
    | _, _ => False
    end.

(** The keys of the log's subspace: account, collection and change id. *)
Definition logs_ok (m : store_map) : Prop :=
  ∀ k v, m !! (SUBSPACE_LOGS, k) = Some v → bytes_ok k ∧ length k = 13%nat.

(** The change ids of a range, ascending, and what happened in them. *)
Definition log_ids (log : gmap Z (list Change)) (lo hi : Z) : list Z :=
  merge_sort Z.le (elements (filter (λ i, lo ≤ i ≤ hi) (dom log))).
Definition log_events (log : gmap Z (list Change)) (ids : list Z) : list Change :=
  concat ((λ i, default [] (log !! i)) <$> ids).

Definition query_ids (log : gmap Z (list Change)) (q : Query) : list Z :=
  let '(incl, from, to) := query_range q in
  filter (λ i, incl = true ∨ i ≠ from) (log_ids log from to).

Lemma elem_of_log_ids log lo hi i : i ∈ log_ids log lo hi ↔ lo ≤ i ≤ hi ∧ is_Some (log !! i).
Proof.
  unfold log_ids. rewrite merge_sort_Permutation, elem_of_elements, elem_of_filter, elem_of_dom. done.
Qed.

Lemma log_ids_sorted log lo hi : StronglySorted Z.lt (log_ids log lo hi).
Proof.
  assert (NoDup (log_ids log lo hi)) as Hnd
    by (unfold log_ids; rewrite merge_sort_Permutation; apply NoDup_elements).
  pose proof (Sorted_merge_sort Z.le (elements (filter (λ i, lo ≤ i ≤ hi) (dom log)))) as Hs.
  fold (log_ids log lo hi) in Hs. apply Sorted_StronglySorted in Hs; [|apply _].
  induction Hs as [|x l Hs IH Hx]; [constructor|].
  apply NoDup_cons in Hnd as [Hnx Hnd]. constructor; [by apply IH|].
  rewrite list.Forall_forall in Hx |- *. intros y Hy. specialize (Hx y Hy).
  assert (x ≠ y) by (intros ->; done). lia.
Qed.

(** Two ascending lists with the same elements are the same. *)
Lemma ascending_unique (l1 l2 : list Z) :
  StronglySorted Z.lt l1 → StronglySorted Z.lt l2 → (∀ i, i ∈ l1 ↔ i ∈ l2) → l1 = l2.
Proof.
  assert (∀ l, StronglySorted Z.lt l → NoDup l ∧ StronglySorted Z.le l) as Hweak.
  { induction 1 as [|x l Hs [IHn IHs] Hx]; [by repeat constructor|]. rewrite list.Forall_forall in Hx.
    split; constructor; try done.
    - intros Hin. specialize (Hx x Hin). lia.
    - apply list.Forall_forall. intros y Hy. specialize (Hx y Hy). lia. }
  intros [Hn1 H1]%Hweak [Hn2 H2]%Hweak Heq.
  eapply (StronglySorted_unique Z.le); [done|done|]. by apply NoDup_Permutation.
Qed.

Definition row_id (r : row) : Z := from_be_bytes (drop 5 r.1).

Lemma log_key_le a col i j :
  uint_ok 64 i → uint_ok 64 j →
  log_key_serialize (log_key_of a col i) 0 ≤ᵇ log_key_serialize (log_key_of a col j) 0 ↔ i ≤ j.
Proof.
  intros Hi Hj. rewrite !log_key_bytes. cbn [lk_account_id lk_collection lk_change_id log_key_of].
  rewrite !bytes_le_app, <-(be_le 8 i j); [done|exact Hi|exact Hj].
Qed.

(** A key in the range is the key of the change id at its end. *)
Lemma log_range_key a col lo hi k :
  bytes_ok k → length k = 13%nat →
  log_key_serialize (log_key_of a col lo) 0 ≤ᵇ k → k ≤ᵇ log_key_serialize (log_key_of a col hi) 0 →
  uint_ok 64 (from_be_bytes (drop 5 k)) ∧
  k = log_key_serialize (log_key_of a col (from_be_bytes (drop 5 k))) 0.
Proof.
  rewrite !log_key_bytes. cbn [lk_account_id lk_collection lk_change_id log_key_of].
  change (flag_bytes 0 SUBSPACE_LOGS) with (@nil Z). rewrite !app_nil_l, !app_assoc.
  set (p := to_be_bytes 4 a ++ [col]).
  assert (length p = 5%nat) as Hp by (unfold p; by rewrite length_app, to_be_bytes_length).
  intros Hk Hl Hlo Hhi. pose proof (bytes_range_prefix _ _ _ _ Hlo Hhi) as Heq. rewrite Hp in Heq.
  destruct (be64_of_bytes (drop 5 k)) as [Hu Hr]; [rewrite length_drop; lia|by apply Forall_drop|].
  split; [done|]. by rewrite <-Hr.
Qed.

Lemma row_id_key a col i v :
  uint_ok 64 i → row_id (log_key_serialize (log_key_of a col i) 0, v) = i.
Proof.
  intros Hi. unfold row_id. cbn [fst]. rewrite log_key_bytes.
  cbn [lk_account_id lk_collection lk_change_id log_key_of].
  change (flag_bytes 0 SUBSPACE_LOGS) with (@nil Z). rewrite app_nil_l, app_assoc.
  rewrite (drop_app_length' (to_be_bytes 4 a ++ [col])) by (by rewrite length_app, to_be_bytes_length).
  by apply from_to_be_bytes.
Qed.

Section range.
Context (m : store_map) (a col : Z) (log : gmap Z (list Change)).
Context (Hok : logs_ok m) (Hlog : log_stored m a col log).

Definition log_rows (lo hi : Z) : list row :=
  range_rows m SUBSPACE_LOGS (log_key_serialize (log_key_of a col lo) 0)
    (log_key_serialize (log_key_of a col hi) 0) true.

(** A row that holds the entry of a change id. *)
Definition row_entry (r : row) (i : Z) : Prop :=
  uint_ok 64 i ∧ r.1 = log_key_serialize (log_key_of a col i) 0 ∧
  ∃ es, log !! i = Some es ∧ encodes r.2 es.

Lemma log_rows_entry lo hi r :
  uint_ok 64 lo → uint_ok 64 hi → r ∈ log_rows lo hi → row_entry r (row_id r) ∧ lo ≤ row_id r ≤ hi.
Proof.
  intros Hlo Hhi. destruct r as [k v]. unfold log_rows. rewrite elem_of_range_rows.
  intros (H1 & H2 & Hm). destruct (Hok k v Hm) as [Hk Hl].
  destruct (log_range_key a col lo hi k Hk Hl H1 H2) as [Hu Heq].
  change (from_be_bytes (drop 5 k)) with (row_id (k, v)) in *.
  rewrite Heq in H1, H2. rewrite log_key_le in H1, H2 by done. split; [|done].
  split_and!; [done|done|]. destruct Hlog as [_ Hcell]. specialize (Hcell _ Hu).
  unfold log_cell_of in Hcell. rewrite <-Heq, Hm in Hcell.
  destruct (log !! row_id (k, v)) as [es|]; [by exists es|done].
Qed.

Lemma log_rows_ids lo hi :
  uint_ok 64 lo → uint_ok 64 hi → row_id <$> log_rows lo hi = log_ids log lo hi.
Proof.
  intros Hlo Hhi. apply ascending_unique; [|apply log_ids_sorted|].
  - assert (StronglySorted row_lt (log_rows lo hi)) as Hs
      by (apply StronglySorted_filter, cf_rows_sorted).
    assert (Forall (λ r, row_entry r (row_id r)) (log_rows lo hi)) as Hall.
    { apply list.Forall_forall. intros r Hr. exact (proj1 (log_rows_entry lo hi r Hlo Hhi Hr)). }
    induction Hs as [|r rows Hs IH Hr]; [constructor|]. apply Forall_cons_1 in Hall as [Hr0 Hall].
    rewrite fmap_cons. constructor; [by apply IH|]. apply Forall_fmap, list.Forall_forall.
    rewrite list.Forall_forall in Hr, Hall. intros r' Hin. cbn. specialize (Hr r' Hin).
    destruct (Hall r' Hin) as (Hu' & Hk' & _). destruct Hr0 as (Hu & Hk & _).
    unfold row_lt in Hr. rewrite Hk, Hk', <-bytes_nle_gt, log_key_le in Hr by done. lia.
  - intros i. rewrite list_elem_of_fmap, elem_of_log_ids. split.
    + intros (r & -> & Hr). destruct (log_rows_entry lo hi r Hlo Hhi Hr) as [(_ & _ & es & Hes & _) ?].
      by rewrite Hes.
    + intros [Hi [es Hes]]. destruct Hlog as [Hdom Hcell]. specialize (Hdom i es Hes).
      specialize (Hcell i Hdom). rewrite Hes in Hcell.
      destruct (m !! log_cell_of a col i) as [v|] eqn:Hv; [|done].
      exists (log_key_serialize (log_key_of a col i) 0, v). rewrite row_id_key by done. split; [done|].
      apply elem_of_range_rows. rewrite !log_key_le by done. split_and!; [lia|lia|exact Hv].
Qed.

Lemma log_rows_Forall2 lo hi :
  uint_ok 64 lo → uint_ok 64 hi → Forall2 row_entry (log_rows lo hi) (log_ids log lo hi).
Proof.
  intros Hlo Hhi. rewrite <-log_rows_ids by done. apply Forall2_fmap_r, Forall_Forall2_diag.
  apply list.Forall_forall. intros r Hr. exact (proj1 (log_rows_entry lo hi r Hlo Hhi Hr)).
Qed.

Lemma row_entry_id r i :
  row_entry r i → deserialize_be_u64_end r.1 U64_LEN = Ok i.
Proof.
  intros (Hi & -> & _). rewrite log_key_bytes. cbn [lk_account_id lk_collection lk_change_id log_key_of].
  change (flag_bytes 0 SUBSPACE_LOGS) with (@nil Z). rewrite app_nil_l, app_assoc.
  by apply deserialize_be_u64_end_app.
Qed.

(** The closure of the query at one entry. *)
Lemma collect_entry incl from acc r i :
  row_entry r i →
  collect_changes incl from acc r.1 r.2
  = Ok (if decide (incl = true ∨ i ≠ from) then
          {| changes := summary (default [] (log !! i)) (changes acc);
             from_change_id := if bool_decide (changes acc = []) then i else from_change_id acc;
             to_change_id := i |}
        else acc, true).
Proof.
  intros Hr. pose proof (row_entry_id r i Hr) as Hid. destruct Hr as (Hi & Hk & es & Hes & He).
  unfold collect_changes. rewrite Hid, Hes. cbn [mbind result_bind]. case_decide as Hsel.
  - assert (incl || negb (i =? from) = true) as ->
      by (apply orb_true_iff; rewrite negb_true_iff, Z.eqb_neq; done).
    destruct He as (it & c & Hit & Hc & -> & ->). by rewrite deserialize_serialize.
  - assert (incl || negb (i =? from) = false) as ->; [|done].
    apply orb_false_iff. rewrite negb_false_iff, Z.eqb_eq. destruct incl; [tauto|].
    destruct (decide (i = from)); [done|tauto].
Qed.

(** The closure of the query over the entries of a range. *)
Lemma visit_changes incl from rows ids acc :
  Forall2 row_entry rows ids →
  let sel := filter (λ i, incl = true ∨ i ≠ from) ids in
  ∃ r, visit false (collect_changes incl from) rows acc = Ok r ∧
    changes r = summary (log_events log sel) (changes acc) ∧
    to_change_id r = default (to_change_id acc) (last sel) ∧
    from_change_id r ∈ from_change_id acc :: sel ∧
    (changes acc = [] → changes r ≠ [] → from_change_id r ∈ sel).
Proof.
  intros Hall. revert acc. induction Hall as [|[k v] i rows ids Hr Hall IH]; intros acc sel.
  { exists acc. unfold sel. cbn. split_and!; try done. by left. }
  cbn [visit]. pose proof (collect_entry incl from acc (k, v) i Hr) as Hce. cbn [fst snd] in Hce.
  rewrite Hce. cbn [mbind result_bind negb orb]. unfold sel. rewrite filter_cons. case_decide as Hsel.
  2: { apply IH. }
  set (acc' := {| changes := _ |}).
  destruct (IH acc') as (r & -> & Hch & Hto & Hfrom & _). exists r. split; [done|].
  assert (from_change_id acc' ∈ [from_change_id acc; i]) as Hin
    by (unfold acc'; cbn; case_bool_decide; set_solver).
  set (sel' := filter _ ids) in *. rewrite Hch. split_and!.
  - unfold log_events, summary. rewrite fmap_cons. cbn [concat]. by rewrite fold_left_app.
  - rewrite Hto. destruct sel' as [|x sel'']; [done|]. rewrite last_cons_cons, (last_cons x). by destruct (last sel'').
  - apply elem_of_cons in Hfrom as [->|?]; [|by do 2 right]. apply elem_of_cons in Hin as [->|Hin%list_elem_of_singleton]; [by left|rewrite Hin; right; by left].
  - intros Hnil _. unfold acc' in Hfrom. cbn in Hfrom. rewrite bool_decide_true in Hfrom by done. done.
Qed.
End range.

Section changes.
Context {DB Txn : Type} `{RocksDBLaws DB Txn}.

Definition query_ok (q : Query) : Prop :=
  let '(_, from, to) := query_range q in uint_ok 64 from ∧ uint_ok 64 to.

(** C32: The query folds exactly the entries of its range, in the order
    of their change ids, into one list of changes and ends at the id of the
    last one (or, without changes, where it started or was asked to end).
    For any history of the collection that the entries record, the list tells
    for every item how its value after the range relates to its value before:
    unchanged, inserted, updated, only its children updated, deleted, or
    deleted and inserted anew.  The last change id is that of the last entry. *)
Theorem changes_exact db a col log q :
  logs_ok (db_map db) → log_stored (db_map db) a col log → query_ok q →
  let ids := query_ids log q in
  let '(_, from, to) := query_range q in
  (∃ r, store_changes db a col q = Ok r ∧
    changes r = summary (log_events log ids) [] ∧
    (changes r ≠ [] → last ids = Some (to_change_id r) ∧ from_change_id r ∈ ids) ∧
    (changes r = [] → from_change_id r = from ∧
       to_change_id r = if decide (to = U64_MAX) then from else to) ∧
    ∀ A B (m0 m1 : gmap Z (A * B)), history m0 (log_events log ids) m1 → summarises m0 m1 (changes r)) ∧
  get_last_change_id db a col = Ok (last (log_ids log 0 U64_MAX)).
Proof.
  intros Hok Hlog Hq ids. unfold query_ok in Hq. unfold ids, query_ids.
  destruct (query_range q) as [[incl from] to] eqn:Hqr. destruct Hq as [Hfrom Hto]. split.
  - pose proof (log_rows_Forall2 (db_map db) a col log Hok Hlog from to Hfrom Hto) as Hall.
    destruct (visit_changes (db_map db) a col log Hok Hlog incl from _ _ changes_default Hall) as (r & Hr & Hch & Hlast & _ & Hin).
    set (sel := filter _ _) in *. unfold store_changes. rewrite Hqr, iterate_visit.
    cbn [begin end_ first ascending params_new set_ascending key_subspace key_serialize log_key].
    unfold log_rows in Hr. rewrite Hr. cbn [mbind result_bind]. eexists. split; [done|].
    cbn [changes changes_default] in Hch.
    assert (∀ c, summary (log_events log sel) [] = c → ∀ A B (m0 m1 : gmap Z (A * B)),
      history m0 (log_events log sel) m1 → summarises m0 m1 c) as Hsum
      by (intros c <- A B m0 m1; apply history_summarises).
    case_bool_decide as Hnil; cbn [changes from_change_id to_change_id].
    + rewrite Hnil in Hch. split_and!; try done; [|by apply Hsum].
      intros _. split; [done|]. destruct (Z.eqb_spec to U64_MAX); case_decide; done.
    + split_and!; [done| |done|by apply Hsum]. intros _. split; [|by apply Hin].
      rewrite Hlast. destruct (last sel) eqn:Hl; [done|]. apply last_None in Hl.
      rewrite Hch, Hl in Hnil. by destruct Hnil.
  - pose proof (log_rows_Forall2 (db_map db) a col log Hok Hlog 0 U64_MAX) as Hall.
    specialize (Hall ltac:(by vm_compute) ltac:(by vm_compute)).
    unfold get_last_change_id. rewrite iterate_visit.
    cbn [begin end_ first ascending params_new set_ascending only_first no_values Read.descending
      key_subspace key_serialize log_key].
    unfold log_rows in Hall. unfold range_rows in Hall |- *. set (rows := filter _ _) in *.
    set (lids := log_ids log 0 U64_MAX) in *. clearbody rows lids.
    destruct lids as [|i lids _] using rev_ind.
    { by apply Forall2_nil_inv_r in Hall as ->. }
    apply Forall2_app_inv_r in Hall as (rows1 & rows2 & _ & Hall & ->).
    apply Forall2_cons_inv_r in Hall as (r & ? & Hr & ->%Forall2_nil_inv_r & ->).
    rewrite reverse_snoc, last_snoc. cbn [visit]. destruct r as [k v].
    pose proof (row_entry_id a col log (k, v) i Hr) as Hid. cbn [fst] in Hid. rewrite Hid. done.
Qed.
End changes.

(** ** Merging entries *)

(** The changes of one item as an automaton: absent or present and unchanged,
    inserted, updated, children updated, deleted, deleted and inserted anew. *)
Inductive kind := KInsert | KUpdate | KChild | KDelete.
Inductive item_state := IAbsent | IPresent | IInserted | IUpdated | IChild | IDeleted | IReplaced.

Definition of_kind (i : Z) (k : kind) : Change :=
  match k with KInsert => Insert i | KUpdate => Update i | KChild => ChildUpdate i | KDelete => Delete i end.
Definition of_state (i : Z) (s : item_state) : list Change :=
  match s with
  | IAbsent | IPresent => []
  | IInserted => [Insert i]
  | IUpdated => [Update i]
  | IChild => [ChildUpdate i]
  | IDeleted => [Delete i]
  | IReplaced => [Delete i; Insert i]
  end.
Definition present (s : item_state) : bool :=
  match s with IAbsent | IDeleted => false | _ => true end.

Definition next_state (s : item_state) (k : kind) : option item_state :=
  match s, k with
  | IAbsent, KInsert => Some IInserted
  | IPresent, KUpdate => Some IUpdated
  | IPresent, KChild => Some IChild
  | IPresent, KDelete => Some IDeleted
  | IInserted, (KUpdate | KChild) => Some IInserted
  | IInserted, KDelete => Some IAbsent
  | IUpdated, (KUpdate | KChild) => Some IUpdated
  | IUpdated, KDelete => Some IDeleted
  | IChild, KUpdate => Some IUpdated
  | IChild, KChild => Some IChild
  | IChild, KDelete => Some IDeleted
  | IDeleted, KInsert => Some IReplaced
  | IReplaced, (KUpdate | KChild) => Some IReplaced
  | IReplaced, KDelete => Some IDeleted
  | _, _ => None
  end.
Definition run_states (s : item_state) (ks : list kind) : option item_state :=
  foldl (λ s k, s ≫= λ s, next_state s k) (Some s) ks.

Lemma run_states_app s ks1 ks2 : run_states s (ks1 ++ ks2) = run_states s ks1 ≫= λ s, run_states s ks2.
Proof.
  unfold run_states. rewrite foldl_app. destruct (foldl _ (Some s) ks1); [done|].
  cbn. induction ks2; [done|]. apply IHks2.
Qed.

Lemma apply_change_state i s k s' :
  next_state s k = Some s' → apply_change (of_state i s) (of_kind i k) = of_state i s'.
Proof.
  destruct s, k; intros [= <-]; cbn [apply_change of_state of_kind app]; try done;
    unfold apply_update, apply_delete; cbn; by rewrite Z.eqb_refl.
Qed.

Lemma summary_states i s ks s' :
  run_states s ks = Some s' → summary (of_kind i <$> ks) (of_state i s) = of_state i s'.
Proof.
  revert s. induction ks as [|k ks IH]; intros s; [by intros [= <-]|]. unfold run_states. cbn [foldl mbind option_bind].
  destruct (next_state s k) as [s1|] eqn:Hn; cbn.
  - intros Hr. rewrite (apply_change_state i s k s1 Hn). by apply IH.
  - intros Hr. exfalso. clear -Hr. induction ks; [done|]. by apply IHks.
Qed.

(** The kinds of the events of an entry at one item: four flags. *)
Definition flag_kinds (ins upd child del : bool) : list kind :=
  (if ins then [KInsert] else []) ++ (if upd then [KUpdate] else []) ++
  (if child then [KChild] else []) ++ (if del then [KDelete] else []).
Definition entry_kinds (c : Log.Changes) (i : Z) : list kind :=
  flag_kinds (bool_decide (i ∈ inserts c)) (bool_decide (i ∈ updates c))
    (bool_decide (i ∈ child_updates c)) (bool_decide (i ∈ deletes c)).

Lemma at_id_set it (s : gset Z) i k (K : Z → Change) :
  set_order it → (∀ j, K j = of_kind j k) →
  at_id i (K <$> it s) = if bool_decide (i ∈ s) then [of_kind i k] else [].
Proof.
  intros Hit HK. assert (NoDup (it s) ∧ (i ∈ s ↔ i ∈ it s)) as [Hnd Hin].
  { rewrite (Hit s). split; [apply NoDup_elements|]. by rewrite elem_of_elements. }
  rewrite (bool_decide_ext _ _ Hin). clear Hin. induction Hnd as [|x l Hx Hnd IH]; [done|].
  rewrite fmap_cons, HK. destruct (decide (x = i)) as [->|Hne].
  - rewrite at_id_cons_eq, IH by (by destruct k). rewrite (bool_decide_false (i ∈ l)) by done.
    by rewrite bool_decide_true by (by left).
  - rewrite at_id_cons_ne, IH by (by destruct k). erewrite bool_decide_ext; [done|].
    rewrite elem_of_cons. split; [by right|by intros [->|?]].
Qed.

Lemma at_id_entry it c i : set_order it → at_id i (entry_events it c) = of_kind i <$> entry_kinds c i.
Proof.
  intros Hit. unfold entry_events, entry_kinds, flag_kinds. rewrite !at_id_app.
  rewrite (at_id_set it (inserts c) i KInsert Insert), (at_id_set it (updates c) i KUpdate Update),
    (at_id_set it (child_updates c) i KChild ChildUpdate), (at_id_set it (deletes c) i KDelete Delete) by done.
  by repeat case_bool_decide.
Qed.

Lemma next_state_total s k :
  present s = match k with KInsert => false | _ => true end →
  ∃ s', next_state s k = Some s' ∧ present s' = match k with KDelete => false | _ => true end.
Proof. destruct s, k; try done; intros _; by eexists. Qed.

(** The automaton has run over the events of an item, up to a value. *)
Definition item_run (s0 : item_state) (i : Z) (es : list Change) (p : bool) : Prop :=
  ∃ ks s, at_id i es = of_kind i <$> ks ∧ run_states s0 ks = Some s ∧ present s = p.

Lemma item_run_other s0 i es p c :
  item_run s0 i es p → ChangeQuery.id c ≠ i → item_run s0 i (es ++ [c]) p.
Proof.
  intros (ks & s & Hks & Hrun & Hp) Hc. exists ks, s. by rewrite at_id_app, at_id_cons_ne, app_nil_r.
Qed.
Lemma item_run_step s0 i es k :
  item_run s0 i es (match k with KInsert => false | _ => true end) →
  item_run s0 i (es ++ [of_kind i k]) (match k with KDelete => false | _ => true end).
Proof.
  intros (ks & s & Hks & Hrun & Hp). destruct (next_state_total s k Hp) as (s' & Hn & Hp').
  exists (ks ++ [k]), s'. rewrite at_id_app, at_id_cons_eq, Hks, fmap_app by (by destruct k).
  split_and!; [done| |done]. by rewrite run_states_app, Hrun.
Qed.

(** A history runs the automaton at every item. *)
Lemma history_states {A B} (m0 m1 : gmap Z (A * B)) es i :
  history m0 es m1 →
  item_run (if decide (is_Some (m0 !! i)) then IPresent else IAbsent) i es (bool_decide (is_Some (m1 !! i))).
Proof.
  set (s0 := if decide _ then _ else _).
  assert (∀ es (m m' : gmap Z (A * B)) j k, item_run s0 i es (bool_decide (is_Some (m !! i))) →
    (j ≠ i → m' !! i = m !! i) →
    bool_decide (is_Some (m !! j)) = (match k with KInsert => false | _ => true end) →
    bool_decide (is_Some (m' !! j)) = (match k with KDelete => false | _ => true end) →
    item_run s0 i (es ++ [of_kind j k]) (bool_decide (is_Some (m' !! i)))) as Hstep.
  { intros es' m m' j k IH Hother Hm Hm'. destruct (decide (j = i)) as [->|Hj].
    - rewrite Hm'. apply item_run_step. by rewrite <-Hm.
    - rewrite Hother by done. apply item_run_other; [done|by destruct k]. }
  induction 1 as [|es m j x _ IH Hm|es m j x _ IH Hm|es m j x b b' _ IH Hm|es m j _ IH Hm].
  - exists [], s0. split_and!; [done|done|]. unfold s0. case_decide; cbn.
    + by rewrite bool_decide_true.
    + by rewrite bool_decide_false.
  - apply (Hstep _ _ _ j KInsert IH); [intros; by rewrite lookup_insert_ne|by rewrite Hm|].
    by rewrite lookup_insert_eq.
  - apply (Hstep _ _ _ j KUpdate IH); [intros; by rewrite lookup_insert_ne|by rewrite bool_decide_true|].
    by rewrite lookup_insert_eq.
  - apply (Hstep _ _ _ j KChild IH); [intros; by rewrite lookup_insert_ne|by rewrite Hm|].
    by rewrite lookup_insert_eq.
  - apply (Hstep _ _ _ j KDelete IH); [intros; by rewrite lookup_delete_ne|by rewrite bool_decide_true|].
    by rewrite lookup_delete_eq.
Qed.

(** The deletes of a merge, one after the other, at one item. *)
Lemma merge_deletes_spec ids c i :
  NoDup ids →
  let c' := fold_left merge_delete ids c in
  (i ∈ inserts c' ↔ i ∈ inserts c ∧ i ∉ ids) ∧ (i ∈ updates c' ↔ i ∈ updates c ∧ i ∉ ids) ∧
  (i ∈ child_updates c' ↔ i ∈ child_updates c ∧ i ∉ ids) ∧
  (i ∈ deletes c' ↔ i ∈ deletes c ∨ (i ∈ ids ∧ i ∉ inserts c)).
Proof.
  intros Hnd. revert c. induction Hnd as [|x ids Hx Hnd IH]; intros c; cbn [fold_left].
  { setoid_rewrite elem_of_nil. tauto. }
  destruct (IH (merge_delete c x)) as (Hi & Hu & Hc & Hd). cbn in Hi, Hu, Hc, Hd |- *.
  rewrite Hi, Hu, Hc, Hd, elem_of_cons, !elem_of_difference, elem_of_singleton. clear IH Hi Hu Hc Hd.
  split_and!; try tauto. destruct (decide (x ∈ inserts c)) as [Hxi|Hxi].
  - destruct (decide (i = x)) as [->|Hne]; tauto.
  - rewrite elem_of_union, elem_of_singleton. destruct (decide (i = x)) as [->|Hne]; tauto.
Qed.

Definition merged_kinds (ia ua ca da ib ub cb db : bool) : list kind :=
  flag_kinds ((ia && negb db) || ib) ((ua && negb db) || ub) ((ca && negb db) || cb)
    (da || (db && negb ia)).

Lemma merge_entry_kinds it a b i :
  set_order it →
  entry_kinds (merge_changes it b a) i
  = merged_kinds (bool_decide (i ∈ inserts a)) (bool_decide (i ∈ updates a))
      (bool_decide (i ∈ child_updates a)) (bool_decide (i ∈ deletes a))
      (bool_decide (i ∈ inserts b)) (bool_decide (i ∈ updates b))
      (bool_decide (i ∈ child_updates b)) (bool_decide (i ∈ deletes b)).
Proof.
  intros Hit. assert (NoDup (it (deletes b)) ∧ (i ∈ it (deletes b) ↔ i ∈ deletes b)) as [Hnd Hin].
  { rewrite (Hit (deletes b)). split; [apply NoDup_elements|]. by rewrite elem_of_elements. }
  destruct (merge_deletes_spec (it (deletes b)) a i Hnd) as (Hi & Hu & Hc & Hd).
  unfold entry_kinds, merge_changes, merged_kinds. cbn [inserts updates child_updates deletes].
  rewrite Hin in Hi, Hu, Hc, Hd.
  rewrite <-!bool_decide_not, <-!bool_decide_and, <-!bool_decide_or.
  f_equal; apply bool_decide_ext; rewrite ?elem_of_union, ?Hi, ?Hu, ?Hc, ?Hd; tauto.
Qed.

(** A merged entry and the two entries run the automaton to the same state. *)
Lemma merged_run s ia ua ca da ib ub cb db s' :
  da && ib = false → ia && db && (ub || cb) = false →
  run_states s (flag_kinds ia ua ca da ++ flag_kinds ib ub cb db) = Some s' →
  ∃ s'', run_states s (merged_kinds ia ua ca da ib ub cb db) = Some s'' ∧ of_state 0 s'' = of_state 0 s'.
Proof.
  destruct s, ia, da, ib, db; try done; destruct ua, ca, ub, cb; cbn; intros _; try done; intros _ Hr; try discriminate Hr;
    injection Hr as <-; by eexists.
Qed.

(** The merge of two logs, collection by collection. *)
Definition merge_all (it : gset Z → list Z) (b : ChangeLogBuilder) (l : list (Z * Log.Changes))
  : ChangeLogBuilder := fold_left (λ b kv, update_entry kv.1 (merge_changes it kv.2) b) l b.

Lemma update_entry_get k f b col :
  VecMap.wf (Log.changes b) →
  VecMap.wf (Log.changes (update_entry k f b)) ∧
  VecMap.get (Log.changes (update_entry k f b)) col
  = if decide (col = k) then Some (f (default Log.changes_default (VecMap.get (Log.changes b) k)))
    else VecMap.get (Log.changes b) col.
Proof.
  intros Hw. destruct (VecMap.update_or_insert_spec (Log.changes b) k Log.changes_default f Hw)
    as [Hw' Hg]. split; [done|apply Hg].
Qed.

Lemma merge_all_other it l b col :
  VecMap.wf (Log.changes b) → (∀ o, (col, o) ∉ l) →
  VecMap.wf (Log.changes (merge_all it b l)) ∧
  VecMap.get (Log.changes (merge_all it b l)) col = VecMap.get (Log.changes b) col.
Proof.
  unfold merge_all. revert b. induction l as [|[k o] l IH]; intros b Hw Hl; [done|]. cbn [fold_left fst snd].
  destruct (update_entry_get k (merge_changes it o) b col Hw) as [Hw' Hg].
  rewrite decide_False in Hg by (intros ->; apply (Hl o); by left). rewrite <-Hg.
  apply IH; [done|]. intros o' Hin. apply (Hl o'). by right.
Qed.

Lemma merge_get it b1 b2 col :
  VecMap.wf (Log.changes b1) → VecMap.wf (Log.changes b2) →
  VecMap.get (Log.changes (merge it b1 b2)) col
  = match VecMap.get (Log.changes b2) col with
    | Some other => Some (merge_changes it other (default Log.changes_default (VecMap.get (Log.changes b1) col)))
    | None => VecMap.get (Log.changes b1) col
    end.
Proof.
  intros Hw1 Hw2. change (merge it b1 b2) with (merge_all it b1 (VecMap.iter (Log.changes b2))).
  destruct (VecMap.get (Log.changes b2) col) as [o|] eqn:Hget.
  - apply VecMap.get_spec in Hget; [|done].
    assert (NoDup (VecMap.iter (Log.changes b2)).*1) as Hnd
      by (rewrite VecMap.iter_keys by apply Hw2; apply Hw2).
    apply list_elem_of_split in Hget as (l1 & l2 & Heq). rewrite Heq in Hnd |- *.
    rewrite fmap_app, fmap_cons in Hnd. apply NoDup_app in Hnd as (_ & H1 & [H2 _]%NoDup_cons).
    assert (∀ o', (col, o') ∉ l1) as Hl1.
    { intros o' Hin. apply (H1 col); [apply list_elem_of_fmap; by exists (col, o')|by left]. }
    assert (∀ o', (col, o') ∉ l2) as Hl2.
    { intros o' Hin. apply H2, list_elem_of_fmap. by exists (col, o'). }
    unfold merge_all. rewrite fold_left_app. cbn [fold_left fst snd]. fold (merge_all it b1 l1).
    destruct (merge_all_other it l1 b1 col Hw1 Hl1) as [Hw3 Hg3].
    destruct (update_entry_get col (merge_changes it o) (merge_all it b1 l1) col Hw3) as [Hw4 Hg4].
    rewrite decide_True in Hg4 by done.
    destruct (merge_all_other it l2 _ col Hw4 Hl2) as [_ Hg5]. unfold merge_all in Hg5 at 1.
    rewrite Hg5, Hg4, Hg3. done.
  - apply merge_all_other; [done|]. intros o Hin. apply VecMap.get_spec in Hin; [congruence|done].
Qed.

(** C33: Merging the log of a later write into that of an earlier one
    leaves, in every collection, an entry whose replay gives each item the
    changes that replaying the two entries one after the other gives, after
    any history: provided the later write does not insert an id the earlier
    one deleted, nor logs both an update and the delete of an item the earlier
    one inserted. *)
Theorem merge_replay {A B} it (b1 b2 : ChangeLogBuilder) col c1 c2 es (m0 m1 : gmap Z (A * B)) :
  set_order it → VecMap.wf (Log.changes b1) → VecMap.wf (Log.changes b2) →
  VecMap.get (Log.changes b1) col = Some c1 → VecMap.get (Log.changes b2) col = Some c2 →
  history m0 (es ++ entry_events it c1 ++ entry_events it c2) m1 →
  deletes c1 ∩ inserts c2 = ∅ → inserts c1 ∩ deletes c2 ∩ (updates c2 ∪ child_updates c2) = ∅ →
  ∃ c, VecMap.get (Log.changes (merge it b1 b2)) col = Some c ∧
    ∀ i, at_id i (summary (es ++ entry_events it c) [])
         = at_id i (summary (es ++ entry_events it c1 ++ entry_events it c2) []).
Proof.
  intros Hit Hw1 Hw2 Hc1 Hc2 Hh Hdi Hidu. exists (merge_changes it c2 c1).
  split; [by rewrite merge_get, Hc2, Hc1|]. intros i. rewrite !summary_at, !at_id_app, !at_id_entry by done.
  destruct (history_states m0 m1 _ i Hh) as (ks & s & Hks & Hrun & _).
  set (s0 := if decide _ then _ else _) in *. rewrite !at_id_app, !at_id_entry in Hks by done.
  symmetry in Hks. apply fmap_app_inv in Hks as (ks1 & ks2 & Hes & Hks & ->).
  assert (∀ l l' : list kind, of_kind i <$> l = of_kind i <$> l' → l = l') as Hinj.
  { intros l l' Heq. eapply (list_fmap_eq_inj (of_kind i)); [|exact Heq]. by intros [] []. }
  rewrite <-fmap_app in Hks. apply Hinj in Hks as <-. rewrite Hes, merge_entry_kinds by done.
  rewrite run_states_app in Hrun. apply bind_Some in Hrun as (s1 & Hr1 & Hr2).
  assert (at_id i [] = of_state i s0) as -> by (unfold s0; by case_decide).
  unfold entry_kinds in Hr2 |- *.
  pose proof Hr2 as Hr2'. apply merged_run in Hr2' as (s'' & Hm & Hs'').
  2: { apply not_true_is_false. rewrite andb_true_iff, !bool_decide_eq_true. set_solver. }
  2: { apply not_true_is_false. rewrite !andb_true_iff, orb_true_iff, !bool_decide_eq_true. set_solver. }
  rewrite <-!fmap_app.
  rewrite (summary_states i s0 _ s'') by (rewrite run_states_app, Hr1; exact Hm).
  rewrite (summary_states i s0 _ s) by (rewrite run_states_app, Hr1; exact Hr2).
  by destruct s'', s.
Qed.

(** *** Examples *)

Definition example_log : gmap Z (list Change) :=
  {[ 5 := [Insert 1; Update 2]; 7 := [ChildUpdate 3; Delete 1] ]}.
Definition example_entry (i : Z) : Log.Changes :=
  if decide (i = 5) then
    {| inserts := {[1]}; updates := {[2]}; deletes := ∅; child_updates := ∅ |}
  else {| inserts := ∅; updates := ∅; deletes := {[1]}; child_updates := {[3]} |}.
Definition example_log_db : LogDb.DB :=
  [(log_cell_of 9 0 5, Some (serialize elements (example_entry 5)));
   (log_cell_of 9 0 7, Some (serialize elements (example_entry 7)))].

Lemma elements_order : set_order elements.
Proof. by intros s. Qed.

Lemma example_log_stored : log_stored (db_map example_log_db) 9 0 example_log.
Proof.
  split.
  - intros i es. unfold example_log, uint_ok. rewrite lookup_insert, lookup_singleton.
    repeat case_decide; subst; [lia|lia|done].
  - intros i Hi. unfold example_log_db.
    cbn [db_map LogDb.log_db_laws LogDb.log_map foldr LogDb.apply_event fst snd].
    assert (∀ j, uint_ok 64 j → log_cell_of 9 0 j = log_cell_of 9 0 i ↔ j = i) as Hinj.
    { intros j Hj. unfold log_cell_of. split; [|by intros ->].
      intros Heq%(f_equal snd). cbn [snd] in Heq.
      apply Z.le_antisymm; eapply (log_key_le 9 0); try done; rewrite Heq; apply bytes_le_refl. }
    rewrite !lookup_insert, lookup_empty. unfold example_log. rewrite lookup_insert, lookup_singleton.
    repeat case_decide; try done;
      repeat match goal with
      | Hd : log_cell_of _ _ ?j = log_cell_of _ _ _ |- _ =>
          apply Hinj in Hd; [|by vm_compute]; subst
      | Hd : log_cell_of _ _ ?j ≠ log_cell_of _ _ _ |- _ =>
          rewrite Hinj in Hd by (by vm_compute)
      end; try lia; try done.
    + exists elements, (example_entry 5). split_and!; [apply elements_order| |done|by vm_compute].
      split_and!; [|by vm_compute..]. intros i Hin. cbn in Hin. assert (i = 1 ∨ i = 2) by set_solver.
      unfold uint_ok. lia.
    + exists elements, (example_entry 7). split_and!; [apply elements_order| |done|by vm_compute].
      split_and!; [|by vm_compute..]. intros i Hin. cbn in Hin. assert (i = 1 ∨ i = 3) by set_solver.
      unfold uint_ok. lia.
Qed.

(** Item 1 came and went within the range: it is not mentioned. *)
Lemma changes_exact_witness :
  ∃ r, store_changes example_log_db 9 0 (Since 4) = Ok r ∧
    changes r = [Update 2; ChildUpdate 3] ∧ to_change_id r = 7 ∧
    get_last_change_id example_log_db 9 0 = Ok (Some 7).
Proof.
  destruct (changes_exact example_log_db 9 0 example_log (Since 4)) as [(r & Hr & Hch & Hne & _) Hlast].
  - intros k v. unfold example_log_db.
    cbn [db_map LogDb.log_db_laws LogDb.log_map foldr LogDb.apply_event fst snd].
    rewrite !lookup_insert, lookup_empty. repeat case_decide; try done;
      match goal with Hd : log_cell_of _ _ _ = _ |- _ => apply (f_equal snd) in Hd; cbn [snd log_cell_of] in Hd; subst k end; intros _;
      (split; [repeat constructor; by vm_compute|done]).
  - apply example_log_stored.
  - split; by vm_compute.
  - exists r. assert (changes r = [Update 2; ChildUpdate 3]) as Hc by (rewrite Hch; by vm_compute).
    rewrite Hc in Hne. destruct (Hne ltac:(done)) as [Hl _]. split_and!; [done|done| |].
    + assert (last (query_ids example_log (Since 4)) = Some 7) as Hl' by by vm_compute.
      rewrite Hl' in Hl. by injection Hl as <-.
    + rewrite Hlast. by vm_compute.
Defined.

(** A log that inserts item 1 and updates item 2, and a later one that
    deletes item 1. *)
Lemma merge_replay_witness :
  let b1 := log_update 0 2 (log_insert 0 1 (Log.with_change_id 5)) in
  let b2 := log_delete 0 1 (Log.with_change_id 6) in
  ∃ c, VecMap.get (Log.changes (merge elements b1 b2)) 0 = Some c ∧
    at_id 1 (summary (entry_events elements c) []) = [].
Proof.
  intros b1 b2.
  set (m0 := {[ 2 := (0, 0) ]} : gmap Z (Z * Z)).
  set (m1 := delete 1 (<[2 := (1, 0)]> (<[1 := (0, 0)]> m0))).
  set (c1 := add_update 2 (add_insert 1 Log.changes_default)).
  set (c2 := add_delete 1 Log.changes_default).
  assert (∀ c : Log.Changes, VecMap.wf {| VecMap.k := [0]; VecMap.v := [c] |}) as Hwf
    by (intros c; split; [done|apply NoDup_singleton]).
  destruct (merge_replay elements b1 b2 0 c1 c2 [] m0 m1) as (c & Hc & Heq).
  - apply elements_order.
  - apply Hwf.
  - apply Hwf.
  - done.
  - done.
  - change (history m0 ((([] ++ [Insert 1]) ++ [Update 2]) ++ [Delete 1]) m1).
    repeat constructor; by eexists.
  - by vm_compute.
  - by vm_compute.
  - exists c. split; [done|]. specialize (Heq 1). cbn [app] in Heq. rewrite Heq. by vm_compute.
Defined.

(** A later log with an update and the delete of an item leaves the update
    behind when the earlier log inserted the item: the client is told of an
    update of an item that does not exist. *)
Example merge_update_of_deleted :
  let c1 := changes_insert [1] in
  let c2 := add_update 1 (changes_delete [1]) in
  summary (entry_events elements (merge_changes elements c2 c1)) [] = [Update 1] ∧
  summary (entry_events elements c1 ++ entry_events elements c2) [] = [].
Proof. by vm_compute. Qed.
