(* ===== verification/Text.v ===== *)
(** * Integers as text

    [Display] and [FromStr] of the integer types of the standard library, on
    the bytes of a string, and a few byte classes that the parsers share. *)

From stdpp Require Import base gmap sorting strings numbers list.
From S2P Require Import Prelude.
Open Scope Z_scope.

(** ** Byte classes of [u8] *)

Definition ch_between (lo hi ch : Z) : bool := (lo <=? ch) && (ch <=? hi).
Definition is_ascii_digit : Z → bool := ch_between 48 57.
Definition is_ascii_upper : Z → bool := ch_between 65 90.
Definition is_ascii_lower : Z → bool := ch_between 97 122.
Definition is_ascii_alphabetic (ch : Z) : bool := is_ascii_upper ch || is_ascii_lower ch.
Definition is_ascii_alphanumeric (ch : Z) : bool := is_ascii_alphabetic ch || is_ascii_digit ch.
Definition is_ascii_whitespace (ch : Z) : bool :=
  (ch =? 32) || (ch =? 9) || (ch =? 10) || (ch =? 12) || (ch =? 13).
Definition to_ascii_lowercase (ch : Z) : Z := if is_ascii_upper ch then ch + 32 else ch.
Definition to_ascii_uppercase (ch : Z) : Z := if is_ascii_lower ch then ch - 32 else ch.
Definition eq_ignore_ascii_case (a b : list Z) : bool :=
  bool_decide (to_ascii_lowercase <$> a = to_ascii_lowercase <$> b).

(** ** [Display] *)

Fixpoint dec_loop (fuel : nat) (n : Z) : list Z :=
  match fuel with
  | O => []
  | S fuel => if n <? 10 then [48 + n] else dec_loop fuel (n / 10) ++ [48 + n `mod` 10]
  end.
Definition dec (n : Z) : list Z := dec_loop (S (Z.to_nat (Z.log2 n))) n.
Arguments dec : simpl never.
Definition int_to_string (n : Z) : list Z := if n <? 0 then 45 :: dec (- n) else dec n.

(** ** [FromStr] *)

Definition push_dec (acc ch : Z) : Z := acc * 10 + (ch - 48).
Definition parse_digits (s : list Z) : option Z :=
  if bool_decide (s = []) || negb (forallb is_ascii_digit s) then None
  else Some (fold_left push_dec s 0).

(** A [w]-bit unsigned integer: an optional plus sign and digits; overflow is
    an error. *)
Definition parse_uint (w : Z) (s : list Z) : option Z :=
  let s := match s with 43 :: s => s | _ => s end in
  n ← parse_digits s; if n <? 2 ^ w then Some n else None.

Definition parse_i64 (s : list Z) : option Z :=
  match s with
  | 45 :: s => n ← parse_digits s; if n <=? 2 ^ 63 then Some (- n) else None
  | _ =>
      let s := match s with 43 :: s => s | _ => s end in
      n ← parse_digits s; if n <? 2 ^ 63 then Some n else None
  end.

(** ** Round trip *)

Lemma dec_loop_digits fuel n : 0 ≤ n → Forall (λ d, is_ascii_digit d = true) (dec_loop fuel n).
Proof.
  revert n. induction fuel as [|fuel IH]; intros n Hn; cbn [dec_loop]; [constructor|].
  destruct (Z.ltb_spec n 10).
  - repeat constructor. unfold is_ascii_digit, ch_between. lia.
  - apply Forall_app. split; [apply IH, Z.div_pos; lia|]. repeat constructor.
    pose proof (Z.mod_pos_bound n 10). unfold is_ascii_digit, ch_between. lia.
Qed.

Lemma dec_loop_value fuel n :
  0 ≤ n → n < 10 ^ Z.of_nat fuel → fold_left push_dec (dec_loop fuel n) 0 = n.
Proof.
  revert n. induction fuel as [|fuel IH]; intros n Hn Hf; cbn [dec_loop]; [cbn in *; lia|].
  destruct (Z.ltb_spec n 10); [unfold push_dec; cbn; lia|].
  rewrite fold_left_app, IH.
  - unfold push_dec. cbn. pose proof (Z.div_mod n 10). lia.
  - apply Z.div_pos; lia.
  - rewrite Nat2Z.inj_succ, Z.pow_succ_r in Hf by lia. apply Z.div_lt_upper_bound; lia.
Qed.

Lemma dec_fuel n : 0 ≤ n → n < 10 ^ Z.of_nat (S (Z.to_nat (Z.log2 n))).
Proof.
  intros Hn. rewrite Nat2Z.inj_succ, Z2Nat.id by apply Z.log2_nonneg.
  destruct (decide (n = 0)) as [->|]; [done|].
  pose proof (Z.log2_spec n ltac:(lia)) as [_ Hl]. pose proof (Z.log2_nonneg n).
  apply Z.lt_le_trans with (2 ^ Z.succ (Z.log2 n)); [done|]. apply Z.pow_le_mono_l. lia.
Qed.

Lemma dec_nonempty n : dec n ≠ [].
Proof. unfold dec. cbn [dec_loop]. case_match; [done|]. by destruct (dec_loop _ (n / 10)). Qed.

Lemma dec_digits n : 0 ≤ n → Forall (λ d, is_ascii_digit d = true) (dec n).
Proof. apply dec_loop_digits. Qed.

Lemma parse_digits_dec n : 0 ≤ n → parse_digits (dec n) = Some n.
Proof.
  intros Hn. unfold parse_digits. rewrite bool_decide_false by apply dec_nonempty.
  rewrite (proj2 (forallb_forall _ _)).
  - cbn [orb negb]. f_equal. by apply dec_loop_value, dec_fuel.
  - pose proof (dec_digits n Hn) as Hd. rewrite list.Forall_forall in Hd.
    intros x Hx. by apply Hd, list_elem_of_In.
Qed.

Lemma dec_head n : 0 ≤ n → ∃ d l, dec n = d :: l ∧ 48 ≤ d ≤ 57.
Proof.
  intros Hn. pose proof (dec_digits n Hn) as Hd. destruct (dec n) as [|d l] eqn:He; [by apply dec_nonempty in He|].
  exists d, l. split; [done|]. apply Forall_cons_1 in Hd as [Hd _]. unfold is_ascii_digit, ch_between in Hd. lia.
Qed.

Lemma parse_uint_dec w n : 0 ≤ n < 2 ^ w → parse_uint w (dec n) = Some n.
Proof.
  intros Hn. pose proof (parse_digits_dec n ltac:(lia)) as Hp.
  destruct (dec_head n) as (d & l & He & Hd); [lia|]. unfold parse_uint. rewrite He in *.
  assert (match d :: l with 43 :: s => s | _ => d :: l end = d :: l) as ->
    by (repeat (case_match; try done; try lia)).
  rewrite Hp. cbn. by rewrite (proj2 (Z.ltb_lt _ _)) by lia.
Qed.

Lemma parse_i64_to_string n : i64_ok n → parse_i64 (int_to_string n) = Some n.
Proof.
  unfold i64_ok, int_to_string. intros Hn. destruct (Z.ltb_spec n 0).
  - cbn. rewrite parse_digits_dec by lia. cbn. rewrite (proj2 (Z.leb_le _ _)) by lia.
    f_equal. lia.
  - pose proof (parse_digits_dec n ltac:(lia)) as Hp.
    destruct (dec_head n) as (d & l & He & Hd); [lia|]. unfold parse_i64. rewrite He in *.
    assert (∀ A (x y : A), match d with 45 => x | _ => y end = y) as Hm
      by (intros; repeat (case_match; try done; try lia)).
    repeat (case_match; try done; try lia); rewrite Hp; cbn;
      by rewrite (proj2 (Z.ltb_lt _ _)) by lia.
Qed.
