(* ===== verification/Expr.v ===== *)
(** * The expression language of the configuration

    Settings of the server may be expressions.  [Value] models the values and
    their operators (expr/eval.rs, expr/mod.rs of the common crate), [Parser]
    the operator-precedence parser that turns tokens into a program for a
    stack machine (expr/parser.rs), and [Eval] the machine, with its jumps for
    short-circuit evaluation, and the evaluation of an [IfBlock].

    [f64] is the binary64 of the standard library's [SpecFloat]; reading and
    printing a float is a parameter, and so are the regular expressions, the
    variables' values and the functions an expression calls. *)

From Stdlib Require Import SpecFloat.
From stdpp Require Import base gmap sorting strings numbers list.
From S2P Require Import Prelude Text.
Open Scope Z_scope.

(** ** Values *)
Module Value.

Definition f64 : Type := spec_float.
Definition f64_prec : Z := 53.
Definition f64_emax : Z := 1024.
Definition f64_zero : f64 := S754_zero false.
Definition f64_add : f64 → f64 → f64 := SFadd f64_prec f64_emax.
Definition f64_sub : f64 → f64 → f64 := SFsub f64_prec f64_emax.
Definition f64_mul : f64 → f64 → f64 := SFmul f64_prec f64_emax.
Definition f64_div : f64 → f64 → f64 := SFdiv f64_prec f64_emax.

(** [n as f64] *)
Definition f64_of_int (n : Z) : f64 := binary_normalize f64_prec f64_emax n 0 false.

(** [f as i64], [f as usize]: truncation that saturates, 0 for NaN. *)
Definition f64_trunc (f : f64) (lo hi : Z) : Z :=
  match f with
  | S754_zero _ | S754_nan => 0
  | S754_infinity s => if s then lo else hi
  | S754_finite s m e =>
      let n := if 0 <=? e then Zpos m * 2 ^ e else Zpos m / 2 ^ (- e) in
      Z.max lo (Z.min hi (if s then - n else n))
  end.

Definition I64_MIN : Z := - 2 ^ 63.
Definition I64_MAX : Z := 2 ^ 63 - 1.
Definition saturate (z : Z) : Z := Z.max I64_MIN (Z.min I64_MAX z).

(** [str::parse::<f64>] and [f64]'s [Display]. *)
Class FloatText := {
  f64_parse : list Z → option f64;
  f64_to_string : f64 → list Z;
}.

Inductive variable :=
  | VString (s : list Z)
  | VInteger (i : Z)
  | VFloat (f : f64)
  | VArray (a : list variable).

Definition variable_default : variable := VString [].

Inductive Constant :=
  | CInteger (i : Z)
  | CFloat (f : f64)
  | CString (s : list Z).

Definition of_constant (c : Constant) : variable :=
  match c with CInteger i => VInteger i | CFloat f => VFloat f | CString s => VString s end.
Definition of_bool (b : bool) : variable := VInteger (Z.b2z b).

Inductive BinaryOperator :=
  | Add | Subtract | Multiply | Divide | And | Or | Xor | Eq | Ne | Lt | Le | Gt | Ge.
Inductive UnaryOperator := Not | Minus.

#[global] Instance BinaryOperator_eq_dec : EqDecision BinaryOperator.
Proof. solve_decision. Defined.
#[global] Instance UnaryOperator_eq_dec : EqDecision UnaryOperator.
Proof. solve_decision. Defined.

Definition to_bool (v : variable) : bool :=
  match v with
  | VFloat f => negb (SFeqb f f64_zero)
  | VInteger n => negb (n =? 0)
  | VString s => negb (bool_decide (s = []))
  | VArray a => match a with [] => false | _ => true end
  end.

Definition is_empty (v : variable) : bool :=
  match v with VString s => bool_decide (s = []) | _ => false end.

Definition into_array (v : variable) : list variable :=
  match v with
  | VArray l => l
  | v => if negb (is_empty v) then [v] else []
  end.

Section operators.
Context `{FloatText}.

Definition parse_number (v : variable) : variable :=
  match v with
  | VString s =>
      if bool_decide (s = []) then VInteger 0 else
      match parse_i64 s with
      | Some n => VInteger n
      | None => match f64_parse s with Some f => VFloat f | None => VInteger 0 end
      end
  | VInteger n => VInteger n
  | VFloat f => VFloat f
  | VArray l => VInteger (Z.b2z match l with [] => true | _ => false end)
  end.

(** The items of an array in [to_string]; nested arrays are left out. *)
Definition item_string (v : variable) : list Z :=
  match v with
  | VString s => s
  | VInteger n => int_to_string n
  | VFloat f => f64_to_string f
  | VArray _ => []
  end.

(** [to_string], [into_string] *)
Definition to_string (v : variable) : list Z :=
  match v with
  | VArray l =>
      fold_left (λ result item,
        (if bool_decide (result = []) then [] else result ++ [13; 10]) ++ item_string item) l []
  | v => item_string v
  end.

Definition to_integer (v : variable) : option Z :=
  match v with
  | VInteger n => Some n
  | VFloat f => Some (f64_trunc f I64_MIN I64_MAX)
  | VString s => if bool_decide (s = []) then None else parse_i64 s
  | VArray _ => None
  end.

Definition to_usize (v : variable) : option Z :=
  match v with
  | VInteger n => Some (wrap 64 n)
  | VFloat f => Some (f64_trunc f 0 U64_MAX)
  | VString s => if bool_decide (s = []) then None else parse_uint 64 s
  | VArray _ => None
  end.

(** [PartialEq for Variable] *)
Fixpoint var_eqb (a b : variable) : bool :=
  match a, b with
  | VInteger a, VInteger b => a =? b
  | VFloat a, VFloat b => SFeqb a b
  | VInteger a, VFloat b => SFeqb (f64_of_int a) b
  | VFloat a, VInteger b => SFeqb (f64_of_int b) a
  | VString a, VString b => bool_decide (a = b)
  | VString _, (VInteger _ | VFloat _) =>
      match parse_number a, b with
      | VInteger a, VInteger b => a =? b
      | VFloat a, VFloat b => SFeqb a b
      | VInteger a, VFloat b => SFeqb (f64_of_int a) b
      | VFloat a, VInteger b => SFeqb (f64_of_int b) a
      | _, _ => false
      end
  | (VInteger _ | VFloat _), VString _ =>
      match a, parse_number b with
      | VInteger a, VInteger b => a =? b
      | VFloat a, VFloat b => SFeqb a b
      | VInteger a, VFloat b => SFeqb (f64_of_int a) b
      | VFloat a, VInteger b => SFeqb (f64_of_int b) a
      | _, _ => false
      end
  | VArray a, VArray b =>
      (fix list_eqb (a b : list variable) : bool :=
         match a, b with
         | [], [] => true
         | x :: a, y :: b => var_eqb x y && list_eqb a b
         | _, _ => false
         end) a b
  | _, _ => false
  end.

(** [PartialOrd for Variable] *)
Definition num_cmp (a b : variable) : option comparison :=
  match a, b with
  | VInteger a, VInteger b => Some (Z.compare a b)
  | VFloat a, VFloat b => SFcompare a b
  | VInteger a, VFloat b => SFcompare (f64_of_int a) b
  | VFloat a, VInteger b => SFcompare a (f64_of_int b)
  | _, _ => None
  end.
Fixpoint partial_cmp (a b : variable) : option comparison :=
  match a, b with
  | VString a, VString b => Some (bytes_cmp a b)
  | VString _, (VInteger _ | VFloat _) => num_cmp (parse_number a) b
  | (VInteger _ | VFloat _), VString _ => num_cmp a (parse_number b)
  | VArray a, VArray b =>
      (fix list_cmp (a b : list variable) : option comparison :=
         match a, b with
         | [], [] => Some Datatypes.Eq
         | [], _ :: _ => Some Datatypes.Lt
         | _ :: _, [] => Some Datatypes.Gt
         | x :: a, y :: b =>
             match partial_cmp x y with
             | Some Datatypes.Eq => list_cmp a b
             | r => r
             end
         end) a b
  | (VArray _ | VString _), _ => Some Datatypes.Gt
  | _, VArray _ => Some Datatypes.Lt
  | a, b => num_cmp a b
  end.

Definition op_add (a b : variable) : variable :=
  match a, b with
  | VInteger a, VInteger b => VInteger (saturate (a + b))
  | VFloat a, VFloat b => VFloat (f64_add a b)
  | VInteger i, VFloat f | VFloat f, VInteger i => VFloat (f64_add (f64_of_int i) f)
  | VArray a, VArray b => VArray (a ++ b)
  | VArray a, b => VArray (a ++ [b])
  | a, VArray b => VArray (a :: b)
  | VString s, b => if bool_decide (s = []) then b else VString (s ++ item_string b)
  | a, VString s => if bool_decide (s = []) then a else VString (item_string a ++ s)
  end.

(** Subtraction, multiplication and division of numbers. *)
Definition num_subtract (a b : variable) : variable :=
  match a, b with
  | VInteger a, VInteger b => VInteger (saturate (a - b))
  | VFloat a, VFloat b => VFloat (f64_sub a b)
  | VInteger a, VFloat b => VFloat (f64_sub (f64_of_int a) b)
  | VFloat a, VInteger b => VFloat (f64_sub a (f64_of_int b))
  | _, _ => VInteger 0
  end.
Definition op_subtract (a b : variable) : variable :=
  match a, b with
  | VArray l, b => VArray (filter (λ v, var_eqb v b = false) l)
  | a, VArray l => VArray (filter (λ v, var_eqb v a = false) l)
  | a, b => num_subtract (parse_number a) (parse_number b)
  end.

Definition num_multiply (a b : variable) : variable :=
  match a, b with
  | VInteger a, VInteger b => VInteger (saturate (a * b))
  | VFloat a, VFloat b => VFloat (f64_mul a b)
  | VInteger i, VFloat f | VFloat f, VInteger i => VFloat (f64_mul (f64_of_int i) f)
  | _, _ => VInteger 0
  end.
Definition op_multiply (a b : variable) : variable := num_multiply (parse_number a) (parse_number b).

Definition div_or_zero (is_zero : bool) (a b : f64) : variable :=
  VFloat (if is_zero then f64_zero else f64_div a b).
Definition num_divide (a b : variable) : variable :=
  match a, b with
  | VInteger a, VInteger b => div_or_zero (b =? 0) (f64_of_int a) (f64_of_int b)
  | VFloat a, VFloat b => div_or_zero (SFeqb b f64_zero) a b
  | VInteger a, VFloat b => div_or_zero (SFeqb b f64_zero) (f64_of_int a) b
  | VFloat a, VInteger b => div_or_zero (b =? 0) a (f64_of_int b)
  | _, _ => VInteger 0
  end.
Definition op_divide (a b : variable) : variable := num_divide (parse_number a) (parse_number b).

Definition op_and (a b : variable) : variable := of_bool (to_bool a && to_bool b).
Definition op_or (a b : variable) : variable := of_bool (to_bool a || to_bool b).
Definition op_xor (a b : variable) : variable := of_bool (xorb (to_bool a) (to_bool b)).
Definition op_eq (a b : variable) : variable := of_bool (var_eqb a b).
Definition op_ne (a b : variable) : variable := of_bool (negb (var_eqb a b)).
Definition op_lt (a b : variable) : variable :=
  of_bool match partial_cmp a b with Some Datatypes.Lt => true | _ => false end.
Definition op_le (a b : variable) : variable :=
  of_bool match partial_cmp a b with Some (Datatypes.Lt | Datatypes.Eq) => true | _ => false end.
Definition op_gt (a b : variable) : variable :=
  of_bool match partial_cmp a b with Some Datatypes.Gt => true | _ => false end.
Definition op_ge (a b : variable) : variable :=
  of_bool match partial_cmp a b with Some (Datatypes.Gt | Datatypes.Eq) => true | _ => false end.

Definition op_not (a : variable) : variable := of_bool (negb (to_bool a)).
(** Negating the least integer wraps around. *)
Definition op_minus (a : variable) : variable :=
  match parse_number a with
  | VInteger n => VInteger (i64_of_u64 (wrap 64 (- n)))
  | VFloat f => VFloat (SFopp f)
  | v => v
  end.

Definition unary (op : UnaryOperator) (v : variable) : variable :=
  match op with Not => op_not v | Minus => op_minus v end.
Definition binary (op : BinaryOperator) (lhs rhs : variable) : variable :=
  match op with
  | Add => op_add lhs rhs
  | Subtract => op_subtract lhs rhs
  | Multiply => op_multiply lhs rhs
  | Divide => op_divide lhs rhs
  | And => op_and lhs rhs
  | Or => op_or lhs rhs
  | Xor => op_xor lhs rhs
  | Eq => op_eq lhs rhs
  | Ne => op_ne lhs rhs
  | Lt => op_lt lhs rhs
  | Le => op_le lhs rhs
  | Gt => op_gt lhs rhs
  | Ge => op_ge lhs rhs
  end.
End operators.
End Value.
Import Value.

(** ** Programs and tokens *)

Inductive ExpressionItem (Regex : Type) :=
  | IVariable (v : Z)
  | ICapture (c : Z)
  | IConstant (c : Constant)
  | IBinary (op : BinaryOperator)
  | IUnary (op : UnaryOperator)
  | IRegex (r : Regex)
  | IJmpIf (val : bool) (pos : Z)
  | IFunction (id num_args : Z)
  | IArrayAccess
  | IArrayBuild (num_items : Z).
Arguments IVariable {_} _.
Arguments ICapture {_} _.
Arguments IConstant {_} _.
Arguments IBinary {_} _.
Arguments IUnary {_} _.
Arguments IRegex {_} _.
Arguments IJmpIf {_} _ _.
Arguments IFunction {_} _ _.
Arguments IArrayAccess {_}.
Arguments IArrayBuild {_} _.

Record Expression (Regex : Type) := { items : list (ExpressionItem Regex) }.
Arguments items {_} _.

Inductive Token (Regex : Type) :=
  | TVariable (v : Z)
  | TCapture (c : Z)
  | TFunction (name : list Z) (id num_args : Z)
  | TConstant (c : Constant)
  | TRegex (r : Regex)
  | TBinary (op : BinaryOperator)
  | TUnary (op : UnaryOperator)
  | TOpenParen
  | TCloseParen
  | TOpenBracket
  | TCloseBracket
  | TComma.
Arguments TVariable {_} _.
Arguments TCapture {_} _.
Arguments TFunction {_} _ _ _.
Arguments TConstant {_} _.
Arguments TRegex {_} _.
Arguments TBinary {_} _.
Arguments TUnary {_} _.
Arguments TOpenParen {_}.
Arguments TCloseParen {_}.
Arguments TOpenBracket {_}.
Arguments TCloseBracket {_}.
Arguments TComma {_}.

(** ** The parser *)
Module Parser.

Inductive parse_error :=
  | MismatchedParentheses
  | WrongArguments (name : list Z) (expected got : Z)
  | MissingArrayIndex
  | MatchesArguments
  | InvalidTokenOnStack
  | Lexical (message : string).

(** A result of the parser: [Panic] is an [unwrap] of [None] or an index out
    of range. *)
Inductive presult (A : Type) :=
  | POk (a : A)
  | PErr (e : parse_error)
  | PPanic.
Arguments POk {_} _.
Arguments PErr {_} _.
Arguments PPanic {_}.

#[global] Instance presult_bind : MBind presult := λ _ _ f r,
  match r with POk a => f a | PErr e => PErr e | PPanic => PPanic end.

Definition ID_ARRAY_ACCESS : Z := U32_MAX.
Definition ID_ARRAY_BUILD : Z := U32_MAX - 1.

Definition precedence (op : BinaryOperator) : Z :=
  match op with
  | Multiply | Divide => 7
  | Add | Subtract => 6
  | Gt | Ge | Lt | Le => 5
  | Eq | Ne => 4
  | Xor => 3
  | And => 2
  | Or => 1
  end.

(** An operator waiting for its right operand, with the position of its jump.
    The stacks have their top first. *)
Abbreviation entry R := (Token R * option nat)%type.

Section parser.
Context {Regex : Type}.

Record ExpressionParser := {
  output : list (ExpressionItem Regex);
  operator_stack : list (entry Regex);
  arg_count : list Z;
}.
Definition parser_new : ExpressionParser :=
  {| output := []; operator_stack := []; arg_count := [] |}.

Definition set_output (o : list (ExpressionItem Regex)) (p : ExpressionParser) : ExpressionParser :=
  {| output := o; operator_stack := operator_stack p; arg_count := arg_count p |}.
Definition set_stack (s : list (entry Regex)) (p : ExpressionParser) : ExpressionParser :=
  {| output := output p; operator_stack := s; arg_count := arg_count p |}.
Definition emit (i : ExpressionItem Regex) (p : ExpressionParser) : ExpressionParser :=
  set_output (output p ++ [i]) p.
Definition push (e : entry Regex) (p : ExpressionParser) : ExpressionParser :=
  set_stack (e :: operator_stack p) p.
Definition push_arg_count (n : Z) (p : ExpressionParser) : ExpressionParser :=
  {| output := output p; operator_stack := operator_stack p; arg_count := n :: arg_count p |}.

(** [i32::saturating_add] and [saturating_sub] *)
Definition i32_saturate (z : Z) : Z := Z.max (- 2 ^ 31) (Z.min (2 ^ 31 - 1) z).
(** [u32 as i32] *)
Definition u32_as_i32 (z : Z) : Z := if decide (z < 2 ^ 31) then z else z - 2 ^ 32.

(** The entry below the top counts the items of the array being built; with
    fewer than two entries it is the top one. *)
Definition count_item (e : entry Regex) : entry Regex :=
  match e with
  | (TFunction name id num_args, j) =>
      if id =? ID_ARRAY_BUILD then (TFunction name id (wrap 32 (num_args + 1)), j) else e
  | e => e
  end.
Definition count_array_item (stack : list (entry Regex)) : list (entry Regex) :=
  match stack with
  | top :: e :: stack => top :: count_item e :: stack
  | [e] => [count_item e]
  | [] => []
  end.

Definition inc_arg_count (p : ExpressionParser) : ExpressionParser :=
  match arg_count p with
  | [] => p
  | x :: counts =>
      {| output := output p; operator_stack := count_array_item (operator_stack p);
         arg_count := i32_saturate (x + 1) :: counts |}
  end.
Definition dec_arg_count (p : ExpressionParser) : ExpressionParser :=
  match arg_count p with
  | [] => p
  | x :: counts =>
      {| output := output p; operator_stack := operator_stack p;
         arg_count := i32_saturate (x - 1) :: counts |}
  end.

Definition update_jmp_pos (jmp_pos : option nat) (out : list (ExpressionItem Regex))
  : presult (list (ExpressionItem Regex)) :=
  match jmp_pos with
  | None => POk out
  | Some j =>
      match out !! j with
      | Some (IJmpIf val _) =>
          POk (<[j := IJmpIf val (wrap 32 (Z.of_nat (length out) - Z.of_nat j))]> out)
      | Some _ => POk out
      | None => PPanic
      end
  end.

(** The loop of a closing parenthesis or bracket. *)
Definition is_open (close_paren : bool) (t : Token Regex) : bool :=
  match t with
  | TOpenParen => close_paren
  | TOpenBracket => negb close_paren
  | _ => false
  end.

Fixpoint close_loop (close_paren : bool) (stack : list (entry Regex)) (out : list (ExpressionItem Regex))
  : presult (list (entry Regex) * list (ExpressionItem Regex)) :=
  match stack with
  | [] => PErr MismatchedParentheses
  | (t, jmp_pos) :: stack =>
      if is_open close_paren t then POk (stack, out) else
      match t with
      | TBinary bop =>
          out ← update_jmp_pos jmp_pos out; close_loop close_paren stack (out ++ [IBinary bop])
      | TUnary uop => close_loop close_paren stack (out ++ [IUnary uop])
      | _ => PErr MismatchedParentheses
      end
  end.

(** What a closing token does to a function or an array access below it. *)
Definition call_item (id num_args : Z) : ExpressionItem Regex :=
  if id =? ID_ARRAY_ACCESS then IArrayAccess
  else if id =? ID_ARRAY_BUILD then IArrayBuild num_args
  else IFunction id num_args.

Definition close_call (p : ExpressionParser) : presult ExpressionParser :=
  match operator_stack p with
  | (TFunction name id num_args, _) :: stack =>
      match arg_count p with
      | [] => PPanic
      | got_args :: counts =>
          if negb (got_args =? u32_as_i32 num_args) then
            PErr (if negb (id =? U32_MAX) then WrongArguments name num_args got_args
                  else MissingArrayIndex)
          else POk {| output := output p ++ [call_item id num_args]; operator_stack := stack;
                      arg_count := counts |}
      end
  | (TRegex regex, _) :: stack =>
      match arg_count p with
      | [] => PPanic
      | got_args :: counts =>
          if negb (got_args =? 1) then PErr MatchesArguments
          else POk {| output := output p ++ [IRegex regex]; operator_stack := stack;
                      arg_count := counts |}
      end
  | _ => POk p
  end.

(** The loop of a binary operator: operators that bind at least as tightly
    have both their operands. *)
Fixpoint binary_loop (bop : BinaryOperator) (stack : list (entry Regex)) (out : list (ExpressionItem Regex))
  : presult (list (entry Regex) * list (ExpressionItem Regex)) :=
  match stack with
  | (TBinary top_bop, jmp_pos) :: stack' =>
      if precedence bop <=? precedence top_bop then
        out ← update_jmp_pos jmp_pos out; binary_loop bop stack' (out ++ [IBinary top_bop])
      else POk (stack, out)
  | (TUnary top_uop, _) :: stack' => binary_loop bop stack' (out ++ [IUnary top_uop])
  | _ => POk (stack, out)
  end.

(** The jump over the right operand of [And] and [Or]. *)
Definition jmp_item (bop : BinaryOperator) : option (ExpressionItem Regex) :=
  match bop with
  | And => Some (IJmpIf false 0)
  | Or => Some (IJmpIf true 0)
  | _ => None
  end.

(** The loop of a comma. *)
Fixpoint comma_loop (stack : list (entry Regex)) (out : list (ExpressionItem Regex))
  : presult (list (entry Regex) * list (ExpressionItem Regex)) :=
  match stack with
  | (TBinary bop, jmp_pos) :: stack' =>
      out ← update_jmp_pos jmp_pos out; comma_loop stack' (out ++ [IBinary bop])
  | (TUnary uop, _) :: stack' => comma_loop stack' (out ++ [IUnary uop])
  | _ => POk (stack, out)
  end.

Definition close_token (close_paren : bool) (p : ExpressionParser) : presult ExpressionParser :=
  '(stack, out) ← close_loop close_paren (operator_stack p) (output p);
  close_call {| output := out; operator_stack := stack; arg_count := arg_count p |}.

Definition binary_token (bop : BinaryOperator) (p : ExpressionParser) : presult ExpressionParser :=
  let p := dec_arg_count p in
  '(stack, out) ← binary_loop bop (operator_stack p) (output p);
  POk (match jmp_item bop with
       | Some jmp =>
           {| output := out ++ [jmp];
              operator_stack := (TBinary bop, Some (length out)) :: stack;
              arg_count := arg_count p |}
       | None =>
           {| output := out; operator_stack := (TBinary bop, None) :: stack;
              arg_count := arg_count p |}
       end).

Definition bracket_token (last_is_var_or_fnc : bool) (p : ExpressionParser) : ExpressionParser :=
  let call id num_args count p :=
    push (TOpenBracket, None)
      (push (TFunction (str_bytes "array") id num_args, None) (push_arg_count count p)) in
  if last_is_var_or_fnc then call ID_ARRAY_ACCESS 2 1 p
  else call ID_ARRAY_BUILD 0 0 (inc_arg_count p).

(** One turn of the loop of [parse]: the new state, and whether the token was
    a variable or a call. *)
Definition parse_step (last_is_var_or_fnc : bool) (token : Token Regex) (p : ExpressionParser)
  : presult (ExpressionParser * bool) :=
  match token with
  | TVariable v => POk (emit (IVariable v) (inc_arg_count p), true)
  | TConstant c => POk (emit (IConstant c) (inc_arg_count p), false)
  | TCapture c => POk (emit (ICapture c) (inc_arg_count p), false)
  | TUnary uop => POk (push (TUnary uop, None) p, false)
  | TOpenParen => POk (push (TOpenParen, None) p, false)
  | TCloseParen => p ← close_token true p; POk (p, true)
  | TCloseBracket => p ← close_token false p; POk (p, true)
  | TBinary bop => p ← binary_token bop p; POk (p, false)
  | TFunction name id num_args =>
      POk (push (TFunction name id num_args, None) (push_arg_count 0 (inc_arg_count p)), false)
  | TRegex regex => POk (push (TRegex regex, None) (push_arg_count 0 (inc_arg_count p)), false)
  | TOpenBracket => POk (bracket_token last_is_var_or_fnc p, false)
  | TComma =>
      '(stack, out) ← comma_loop (operator_stack p) (output p);
      POk ({| output := out; operator_stack := stack; arg_count := arg_count p |}, false)
  end.

(** The operators that are left at the end. *)
Fixpoint finish_loop (stack : list (entry Regex)) (out : list (ExpressionItem Regex))
  : presult (list (ExpressionItem Regex)) :=
  match stack with
  | [] => POk out
  | (TBinary bop, jmp_pos) :: stack =>
      out ← update_jmp_pos jmp_pos out; finish_loop stack (out ++ [IBinary bop])
  | (TUnary uop, _) :: stack => finish_loop stack (out ++ [IUnary uop])
  | _ => PErr InvalidTokenOnStack
  end.

Definition finish (p : ExpressionParser) : presult (Expression Regex) :=
  out ← finish_loop (operator_stack p) (output p); POk {| items := out |}.

(** [ExpressionParser::parse] over a source of tokens: [next] is
    [Tokenizer::next], which takes something from its input on every call that
    returns a token. *)
Fixpoint parse_loop {S} (next : S → presult (option (Token Regex) * S)) (fuel : nat) (s : S)
    (last : bool) (p : ExpressionParser) : option (presult (Expression Regex)) :=
  match next s with
  | PErr e => Some (PErr e)
  | PPanic => Some PPanic
  | POk (None, _) => Some (finish p)
  | POk (Some token, s) =>
      match parse_step last token p with
      | PErr e => Some (PErr e)
      | PPanic => Some PPanic
      | POk (p, last) =>
          match fuel with
          | O => None
          | S fuel => parse_loop next fuel s last p
          end
      end
  end.

(** The parser on a list of tokens. *)
Fixpoint parse_tokens (tokens : list (Token Regex)) (last : bool) (p : ExpressionParser)
  : presult (ExpressionParser * bool) :=
  match tokens with
  | [] => POk (p, last)
  | token :: tokens => '(p, last) ← parse_step last token p; parse_tokens tokens last p
  end.
Definition parse (tokens : list (Token Regex)) : presult (Expression Regex) :=
  '(p, _) ← parse_tokens tokens false parser_new; finish p.
End parser.
End Parser.

(** ** The machine *)
Module Eval.
Section eval.
Context `{FloatText} {Regex : Type}.
(** [Regex::captures]: the groups of a match; [FUNCTIONS] by position and the
    functions of the core after them; the value of a variable.  A function is
    seen as its result for its arguments: what some of the asynchronous ones
    also do (set a key, count up a counter) is not modelled. *)
Context (regex_captures : Regex → list Z → option (list (option (list Z)))).
Context (call : Z → list variable → variable) (resolve_variable : Z → variable).

Definition pop (stack : list variable) : variable * list variable :=
  match stack with [] => (variable_default, []) | v :: stack => (v, stack) end.

(** The last [n] values of the stack, in the order they were pushed. *)
Fixpoint pop_n (n : nat) (acc stack : list variable) : list variable * list variable :=
  match n with
  | O => (acc, stack)
  | S n => let '(v, stack) := pop stack in pop_n n (v :: acc) stack
  end.

Definition regex_match (regex : Regex) (value : list Z) : list (list Z) :=
  match regex_captures regex value with
  | Some groups => default [] <$> groups
  | None => []
  end.

(** One item other than a jump. *)
Definition eval_item (item : ExpressionItem Regex) (stack : list variable) (captures : list (list Z))
  : list variable * list (list Z) :=
  match item with
  | IVariable v => (resolve_variable v :: stack, captures)
  | IConstant val => (of_constant val :: stack, captures)
  | ICapture v => (VString (default [] (captures !! Z.to_nat v)) :: stack, captures)
  | IUnary op => let '(value, stack) := pop stack in (unary op value :: stack, captures)
  | IBinary op =>
      let '(rhs, stack) := pop stack in
      let '(lhs, stack) := pop stack in
      (binary op lhs rhs :: stack, captures)
  | IFunction id num_args =>
      let '(arguments, stack) := pop_n (Z.to_nat num_args) [] stack in
      (call id arguments :: stack, captures)
  | IArrayAccess =>
      let '(index, stack) := pop stack in
      let '(array, stack) := pop stack in
      (default variable_default (into_array array !! Z.to_nat (default 0 (to_usize index))) :: stack,
       captures)
  | IArrayBuild num_items =>
      let '(items, stack) := pop_n (Z.to_nat num_items) [] stack in
      (VArray items :: stack, captures)
  | IRegex regex =>
      let '(value, stack) := pop stack in
      let captures := regex_match regex (to_string value) in
      (of_bool (negb (bool_decide (captures = []))) :: stack, captures)
  | IJmpIf _ _ => (stack, captures)
  end.

(** The loop of [Expression::eval]; a jump skips items. *)
Fixpoint eval_loop (skip : Z) (program : list (ExpressionItem Regex)) (stack : list variable)
    (captures : list (list Z)) : list variable * list (list Z) :=
  match program with
  | [] => (stack, captures)
  | item :: program =>
      if 0 <? skip then eval_loop (skip - 1) program stack captures else
      match item with
      | IJmpIf val pos =>
          let top := match stack with [] => false | v :: _ => to_bool v end in
          eval_loop (if Bool.eqb top val then pos else 0) program stack captures
      | item =>
          let '(stack, captures) := eval_item item stack captures in
          eval_loop 0 program stack captures
      end
  end.

(** [Expression::eval] *)
Definition eval (e : Expression Regex) (captures : list (list Z)) : variable * list (list Z) :=
  let '(stack, captures) := eval_loop 0 (items e) [] captures in
  (fst (pop stack), captures).

Definition expr_is_empty (e : Expression Regex) : bool :=
  match items e with [] => true | _ => false end.

Record IfThen := { expr : Expression Regex; then_ : Expression Regex }.
Record IfBlock := { key : list Z; if_then : list IfThen; default_ : Expression Regex }.

Definition block_is_empty (b : IfBlock) : bool :=
  expr_is_empty (default_ b) && match if_then b with [] => true | _ => false end.

(** [IfBlock::eval] *)
Fixpoint eval_block_loop (l : list IfThen) (default : Expression Regex) (captures : list (list Z))
  : variable :=
  match l with
  | [] => fst (eval default captures)
  | i :: l =>
      let '(v, captures) := eval (expr i) captures in
      if to_bool v then fst (eval (then_ i) captures) else eval_block_loop l default captures
  end.
Definition eval_block (b : IfBlock) : variable := eval_block_loop (if_then b) (default_ b) [].

(** [Core::eval_if], [Core::eval_expr]: [try_into] is the conversion of the
    setting's type. *)
Definition eval_if {R} (try_into : variable → option R) (b : IfBlock) : option R :=
  if block_is_empty b then None else try_into (eval_block b).
Definition eval_expr {R} (try_into : variable → option R) (e : Expression Regex) : option R :=
  if expr_is_empty e then None else try_into (fst (eval e [])).
End eval.
End Eval.
