(* ===== verification/ExprTokenizer.v ===== *)
(** * The tokenizer of the expression language

    [Tokenizer] of expr/tokenizer.rs with the table of functions
    (expr/functions/mod.rs), the constants and variables of a [TokenMap], and
    durations ([Duration::parse_value] of the utilities crate).  The
    compilation of regular expressions is a parameter. *)

From stdpp Require Import base gmap sorting strings numbers list.
From S2P Require Import Prelude Text Utf8 Expr.
Import Value Parser.
Open Scope Z_scope.

(** ** Durations *)

Definition duration_multiplier (unit_ : list Z) : option Z :=
  if decide (unit_ = str_bytes "d") then Some (24 * 60 * 60 * 1000)
  else if decide (unit_ = str_bytes "h") then Some (60 * 60 * 1000)
  else if decide (unit_ = str_bytes "m") then Some (60 * 1000)
  else if decide (unit_ = str_bytes "s") then Some 1000
  else if decide (unit_ = str_bytes "ms") then Some 1
  else if decide (unit_ = []) then Some 1
  else None.

(** [Duration::parse_value], in milliseconds; the product wraps around. *)
Definition duration_parse_value (value : list Z) : option Z :=
  let digits := filter (λ ch, is_ascii_digit ch = true) value in
  let unit_ := to_ascii_lowercase <$>
    filter (λ ch, is_ascii_digit ch = false ∧ is_ascii_whitespace ch = false) value in
  multiplier ← duration_multiplier unit_;
  num ← parse_uint 64 digits;
  if 0 <? num then Some (wrap 64 (num * multiplier)) else None.

(** ** The functions *)

(** [FUNCTIONS]: names and numbers of arguments; the position is the id. *)
Definition FUNCTIONS : list (string * Z) := [
  ("count", 1); ("sort", 2); ("dedup", 1); ("winnow", 1); ("is_intersect", 2); ("is_email", 1);
  ("email_part", 2); ("is_empty", 1); ("is_number", 1); ("is_ip_addr", 1); ("is_ipv4_addr", 1);
  ("is_ipv6_addr", 1); ("ip_reverse_name", 1); ("trim", 1); ("trim_end", 1); ("trim_start", 1);
  ("len", 1); ("to_lowercase", 1); ("to_uppercase", 1); ("is_uppercase", 1); ("is_lowercase", 1);
  ("has_digits", 1); ("count_spaces", 1); ("count_uppercase", 1); ("count_lowercase", 1);
  ("count_chars", 1); ("contains", 2); ("contains_ignore_case", 2); ("eq_ignore_case", 2);
  ("starts_with", 2); ("ends_with", 2); ("lines", 1); ("substring", 3); ("strip_prefix", 2);
  ("strip_suffix", 2); ("split", 2); ("rsplit", 2); ("split_once", 2); ("rsplit_once", 2);
  ("split_words", 1)]%string.

(** [ASYNC_FUNCTIONS] *)
Definition ASYNC_FUNCTIONS : list (string * Z * Z) := [
  ("is_local_domain", 0, 2); ("is_local_address", 1, 2); ("key_get", 2, 2); ("key_exists", 3, 2);
  ("key_set", 4, 3); ("counter_incr", 5, 3); ("counter_get", 6, 2); ("dns_query", 8, 2);
  ("sql_query", 7, 3)]%string.

Fixpoint find_function (name : list Z) (idx : Z) (l : list (string * Z)) : option (Z * Z) :=
  match l with
  | [] => None
  | (n, num_args) :: l =>
      if decide (str_bytes n = name) then Some (idx, num_args) else find_function name (idx + 1) l
  end.
Fixpoint find_async (name : list Z) (l : list (string * Z * Z)) : option (Z * Z) :=
  match l with
  | [] => None
  | (n, idx, num_args) :: l =>
      if decide (str_bytes n = name) then Some (idx, num_args) else find_async name l
  end.

(** ** The variables *)

(** [VARIABLES_MAP] *)
Definition VARIABLES_MAP : list (string * Z) := [
  ("rcpt", 0); ("rcpt_domain", 1); ("sender", 2); ("sender_domain", 3); ("mx", 4);
  ("helo_domain", 5); ("authenticated_as", 6); ("listener", 7); ("remote_ip", 8); ("local_ip", 10);
  ("priority", 12); ("local_port", 11); ("remote_port", 9); ("protocol", 13); ("is_tls", 14);
  ("recipients", 15); ("retry_num", 16); ("notify_num", 17); ("expires_in", 18);
  ("last_status", 19); ("last_error", 20)]%string.

Module Tokenizer.
Section tokenizer.
Context `{FloatText} {Regex : Type}.
Context (regex_new : list Z → option Regex).

(** [TokenMap]: an association list; a later entry replaces an earlier one. *)
Record TokenMap := { map_tokens : list (list Z * Token Regex) }.
Definition map_default : TokenMap := {| map_tokens := [] |}.
Definition map_insert (name : list Z) (t : Token Regex) (m : TokenMap) : TokenMap :=
  {| map_tokens := (name, t) :: map_tokens m |}.
Fixpoint assoc_get (name : list Z) (l : list (list Z * Token Regex)) : option (Token Regex) :=
  match l with
  | [] => None
  | (n, t) :: l => if decide (n = name) then Some t else assoc_get name l
  end.
Definition map_get (name : list Z) (m : TokenMap) : option (Token Regex) :=
  assoc_get name (map_tokens m).
Definition with_variables (variables : list Z) (m : TokenMap) : TokenMap :=
  fold_left (λ m '(name, idx),
    if bool_decide (idx ∈ variables) then map_insert (str_bytes name) (TVariable idx) m else m)
    VARIABLES_MAP m.
Definition with_all_variables : TokenMap → TokenMap :=
  with_variables [0; 1; 2; 3; 4; 5; 6; 7; 8; 9; 10; 11; 12; 13; 14; 16; 17; 18; 19; 20].
Definition with_variables_map (vars : list (list Z * Z)) (m : TokenMap) : TokenMap :=
  fold_left (λ m '(name, idx), map_insert name (TVariable idx) m) vars m.
Definition set_constants (consts : list (list Z * Constant)) (m : TokenMap) : TokenMap :=
  fold_left (λ m '(name, c), map_insert name (TConstant c) m) consts m.
Definition add_constant (name : list Z) (c : Constant) (m : TokenMap) : TokenMap :=
  map_insert name (TConstant c) m.

Record Tokenizer := {
  iter : list Z;
  token_map : TokenMap;
  buf : list Z;
  depth : Z;
  next_token : list (Token Regex);
  has_number : bool;
  has_dot : bool;
  has_alpha : bool;
  is_start : bool;
  is_eof : bool;
}.

Definition tokenizer_new (expr : list Z) (m : TokenMap) : Tokenizer :=
  {| iter := expr; token_map := m; buf := []; depth := 0; next_token := []; has_number := false;
     has_dot := false; has_alpha := false; is_start := true; is_eof := false |}.

(** Assignments to the fields. *)
Definition set_iter (it : list Z) (t : Tokenizer) : Tokenizer :=
  {| iter := it; token_map := token_map t; buf := buf t; depth := depth t;
     next_token := next_token t; has_number := has_number t; has_dot := has_dot t;
     has_alpha := has_alpha t; is_start := is_start t; is_eof := is_eof t |}.
Definition set_buf (b : list Z) (number dot alpha : bool) (t : Tokenizer) : Tokenizer :=
  {| iter := iter t; token_map := token_map t; buf := b; depth := depth t;
     next_token := next_token t; has_number := number; has_dot := dot;
     has_alpha := alpha; is_start := is_start t; is_eof := is_eof t |}.
Definition set_depth (d : Z) (t : Tokenizer) : Tokenizer :=
  {| iter := iter t; token_map := token_map t; buf := buf t; depth := d;
     next_token := next_token t; has_number := has_number t; has_dot := has_dot t;
     has_alpha := has_alpha t; is_start := is_start t; is_eof := is_eof t |}.
Definition set_next_token (l : list (Token Regex)) (t : Tokenizer) : Tokenizer :=
  {| iter := iter t; token_map := token_map t; buf := buf t; depth := depth t;
     next_token := l; has_number := has_number t; has_dot := has_dot t;
     has_alpha := has_alpha t; is_start := is_start t; is_eof := is_eof t |}.
Definition set_start (b : bool) (t : Tokenizer) : Tokenizer :=
  {| iter := iter t; token_map := token_map t; buf := buf t; depth := depth t;
     next_token := next_token t; has_number := has_number t; has_dot := has_dot t;
     has_alpha := has_alpha t; is_start := b; is_eof := is_eof t |}.
Definition set_eof (t : Tokenizer) : Tokenizer :=
  {| iter := iter t; token_map := token_map t; buf := buf t; depth := depth t;
     next_token := next_token t; has_number := has_number t; has_dot := has_dot t;
     has_alpha := has_alpha t; is_start := is_start t; is_eof := true |}.

Definition lex_error {A} (message : string) : presult A := PErr (Lexical message).

(** [find_char]: the first character that is not white space. *)
Fixpoint find_char (chars : list Z) (it : list Z) : presult (Z * list Z) :=
  match it with
  | [] => lex_error "Unexpected end of expression"
  | ch :: it =>
      if is_ascii_whitespace ch then find_char chars it
      else if bool_decide (ch ∈ chars) then POk (ch, it)
      else lex_error "Expected character, found invalid character"
  end.

(** [parse_string]: what a backslash stands for is pushed after the backslash
    itself. *)
Definition unescape (ch : Z) : Z :=
  if ch =? 110 then 10 else if ch =? 114 then 13 else if ch =? 116 then 9 else ch.
Fixpoint string_loop (stop_ch last_ch : Z) (it buf : list Z) : option (list Z * list Z) :=
  match it with
  | [] => None
  | ch :: it =>
      if negb (last_ch =? 92) then
        if negb (ch =? stop_ch) then string_loop stop_ch ch it (buf ++ [ch]) else Some (buf, it)
      else string_loop stop_ch ch it (buf ++ [unescape ch])
  end.
Definition parse_string (stop_ch : Z) (it : list Z) : presult (list Z * list Z) :=
  match string_loop stop_ch 0 it [] with
  | None => lex_error "Unterminated string"
  | Some (buf, it) =>
      if Utf8.from_utf8 buf then POk (buf, it) else lex_error "Invalid UTF-8"
  end.

(** What a word that is not a number stands for. *)
Definition word_token (m : TokenMap) (plain : bool) (w : list Z) : presult (Token Regex) :=
  if plain && bool_decide (w = str_bytes "true") then POk (TConstant (CInteger 1))
  else if plain && bool_decide (w = str_bytes "false") then POk (TConstant (CInteger 0))
  else
  match match w with 36 :: n => parse_uint 32 n | _ => None end with
  | Some c => POk (TCapture c)
  | None =>
      match find_function w 0 FUNCTIONS with
      | Some (idx, num_args) => POk (TFunction w idx num_args)
      | None =>
          match find_async w ASYNC_FUNCTIONS with
          | Some (idx, num_args) => POk (TFunction w (idx + Z.of_nat (length FUNCTIONS)) num_args)
          | None =>
              match map_get w m with
              | Some t => POk t
              | None =>
                  match duration_parse_value w with
                  | Some ms => POk (TConstant (CInteger (i64_of_u64 ms)))
                  | None => lex_error "Invalid variable or constant"
                  end
              end
          end
      end
  end.

(** [parse_buf] *)
Definition buf_token (t : Tokenizer) : presult (Token Regex) :=
  let w := if Utf8.from_utf8 (buf t) then buf t else [] in
  if has_number t && negb (has_alpha t) then
    if has_dot t then
      match f64_parse w with
      | Some f => POk (TConstant (CFloat f))
      | None => lex_error "Invalid float value"
      end
    else
      match parse_i64 w with
      | Some i => POk (TConstant (CInteger i))
      | None => lex_error "Invalid integer value"
      end
  else word_token (token_map t) (negb (has_number t) && negb (has_dot t)) w.

(** The flags [parse_buf] leaves. *)
Definition clear_buf (t : Tokenizer) : Tokenizer :=
  if has_number t && negb (has_alpha t)
  then set_buf [] false (if has_dot t then false else has_dot t) (has_alpha t) t
  else set_buf [] false false false t.
Definition parse_buf (t : Tokenizer) : presult (Token Regex * Tokenizer) :=
  tok ← buf_token t; POk (tok, clear_buf t).

(** [self.iter.peek()] and [self.iter.next()] for one expected character. *)
Definition peek (ch : Z) (it : list Z) : bool :=
  match it with c :: _ => c =? ch | [] => false end.
Definition eat (ch : Z) (it : list Z) : list Z := if peek ch it then tail it else it.

(** The token of a character that is not part of a word, with the input after
    it; [None] for white space. *)
Definition op_token (ch : Z) (t : Tokenizer) : presult (option (Token Regex) * Tokenizer) :=
  let binary op it := POk (Some (TBinary op), set_iter it t) in
  let it := iter t in
  if ch =? 38 (* & *) then binary And (eat 38 it)
  else if ch =? 124 (* | *) then binary Or (eat 124 it)
  else if ch =? 33 (* ! *) then
    if peek 61 it then binary Ne (tail it) else POk (Some (TUnary Not), t)
  else if ch =? 94 (* ^ *) then binary Xor it
  else if ch =? 40 (* ( *) then POk (Some TOpenParen, set_depth (wrap 32 (depth t + 1)) t)
  else if ch =? 41 (* ) *) then
    if depth t =? 0 then lex_error "Unmatched close parenthesis"
    else POk (Some TCloseParen, set_depth (depth t - 1) t)
  else if ch =? 43 (* + *) then binary Add it
  else if ch =? 42 (* * *) then binary Multiply it
  else if ch =? 47 (* / *) then binary Divide it
  else if ch =? 45 (* - *) then
    if is_start t then POk (Some (TUnary Minus), t) else binary Subtract it
  else if ch =? 61 (* = *) then
    (* the next character is taken whatever it is *)
    binary (if peek 61 it then Eq else if peek 62 it then Ge else if peek 60 it then Le else Eq)
      (tail it)
  else if ch =? 62 (* > *) then binary (if peek 61 it then Ge else Gt) (eat 61 it)
  else if ch =? 60 (* < *) then binary (if peek 61 it then Le else Lt) (eat 61 it)
  else if ch =? 44 (* , *) then POk (Some TComma, t)
  else if ch =? 91 (* [ *) then POk (Some TOpenBracket, t)
  else if ch =? 93 (* ] *) then POk (Some TCloseBracket, t)
  else if (ch =? 32) || (ch =? 13) || (ch =? 10) then POk (None, t)
  else if (ch =? 34) || (ch =? 39) (* quotes *) then
    '(s, it) ← parse_string ch it; POk (Some (TConstant (CString s)), set_iter it t)
  else lex_error "Invalid character".

Definition starts_after (t : Token Regex) : bool :=
  match t with TOpenParen | TComma | TBinary _ => true | _ => false end.

(** The word before the character: a [matches] with its regular expression,
    a word, or nothing. *)
Definition prev_token (ch : Z) (t : Tokenizer) : presult (option (Token Regex) * Tokenizer) :=
  if (ch =? 40) && bool_decide (buf t = str_bytes "matches") then
    '(stop_ch, it) ← find_char [34; 39] (iter t);
    '(regex_str, it) ← parse_string stop_ch it;
    match regex_new regex_str with
    | None => lex_error "Invalid regular expression"
    | Some regex =>
        '(_, it) ← find_char [44] it;
        POk (Some (TRegex regex), set_iter it (set_buf [] (has_number t) (has_dot t) false t))
    end
  else if bool_decide (buf t = []) then POk (None, t)
  else '(tok, t) ← parse_buf (set_start false t); POk (Some tok, t).

Definition at_end (t : Tokenizer) : presult (option (Token Regex) * Tokenizer) :=
  if 0 <? depth t then lex_error "Unmatched open parenthesis"
  else if bool_decide (buf t = []) then POk (None, t)
  else '(tok, t) ← parse_buf t; POk (Some tok, t).

Definition is_word_alpha (ch : Z) : bool := is_ascii_alphabetic ch || (ch =? 95) || (ch =? 36).

(** Characters that are part of a word where they stand. *)
Definition in_word (ch : Z) (b : list Z) : bool :=
  ((ch =? 45) && bool_decide (last b = Some 91)) ||
  ((ch =? 58) && bool_decide (46 ∈ b)) ||
  ((ch =? 93) && bool_decide (91 ∈ b)) ||
  ((ch =? 42) && bool_decide (last b = Some 91 ∨ last b = Some 46)).

(** The loop of [next] over the input [it]. *)
Fixpoint next_loop (it : list Z) (t : Tokenizer) : presult (option (Token Regex) * Tokenizer) :=
  match it with
  | [] => at_end (set_iter [] t)
  | ch :: it =>
      if is_word_alpha ch then
        next_loop it (set_buf (buf t ++ [ch]) (has_number t) (has_dot t) true t)
      else if is_ascii_digit ch then
        next_loop it (set_buf (buf t ++ [ch]) true (has_dot t) (has_alpha t) t)
      else if ch =? 46 then
        next_loop it (set_buf (buf t ++ [ch]) (has_number t) true (has_alpha t) t)
      else if ch =? 125 then at_end (set_eof (set_iter it t))
      else if in_word ch (buf t) then
        next_loop it (set_buf (buf t ++ [ch]) (has_number t) (has_dot t) (has_alpha t) t)
      else
        '(prev, t) ← prev_token ch (set_iter it t);
        '(tok, t) ← op_token ch t;
        match tok, prev with
        | None, None => next_loop it t
        | None, Some prev => POk (Some prev, t)
        | Some tok, None => POk (Some tok, set_start (starts_after tok) t)
        | Some tok, Some prev =>
            POk (Some prev, set_next_token (tok :: next_token t) (set_start (starts_after tok) t))
        end
  end.

(** [Tokenizer::next] *)
Definition next (t : Tokenizer) : presult (option (Token Regex) * Tokenizer) :=
  match next_token t with
  | tok :: l => POk (Some tok, set_next_token l t)
  | [] => if is_eof t then POk (None, t) else next_loop (iter t) t
  end.

(** [ExpressionParser::new(Tokenizer::new(expr, token_map)).parse()]: a
    character of the text is at most two tokens. *)
Definition parse_text (expr : list Z) (m : TokenMap) : option (presult (Expression Regex)) :=
  parse_loop next (2 * length expr + 1) (tokenizer_new expr m) false parser_new.
End tokenizer.
End Tokenizer.
