(* ===== verification/ExprTheory.v ===== *)
(** * Correctness of the expression compiler

    Expressions as trees, their text as tokens with the parentheses that the
    precedences ask for, and their meaning.  The parser compiles the tokens of
    a tree to a program, and the machine runs the program to the value the
    tree means, with [&&] and [||] evaluating their right operand only when
    the left one does not decide.  On any tokens at all the parser ends with a
    program or an error, never in a panic. *)

From stdpp Require Import base gmap sorting strings numbers list.
From S2P Require Import Prelude Text Expr.
Import Value Parser Eval.
Open Scope Z_scope.

(** ** Trees *)

Section tree.
Context {Regex : Type}.

Inductive tree :=
  | NVar (v : Z)
  | NConst (c : Constant)
  | NCapture (c : Z)
  | NUn (op : UnaryOperator) (a : tree)
  | NBin (op : BinaryOperator) (l r : tree)
  | NCall (name : list Z) (id : Z) (args : list tree)
  | NMatch (regex : Regex) (a : tree)
  | NIndex (a i : tree)
  | NArray (l : list tree).

Section tree_ind.
Context (P : tree → Prop).
Context (Hvar : ∀ v, P (NVar v)) (Hconst : ∀ c, P (NConst c)) (Hcapture : ∀ c, P (NCapture c)).
Context (Hun : ∀ op a, P a → P (NUn op a)) (Hbin : ∀ op l r, P l → P r → P (NBin op l r)).
Context (Hcall : ∀ name id args, Forall P args → P (NCall name id args)).
Context (Hmatch : ∀ regex a, P a → P (NMatch regex a)).
Context (Hindex : ∀ a i, P a → P i → P (NIndex a i)).
Context (Harray : ∀ l, Forall P l → P (NArray l)).

Fixpoint tree_induction (t : tree) : P t :=
  let fix all (l : list tree) : Forall P l :=
    match l with
    | [] => Forall_nil_2 P
    | x :: l => Forall_cons_2 P x l (tree_induction x) (all l)
    end in
  match t with
  | NVar v => Hvar v
  | NConst c => Hconst c
  | NCapture c => Hcapture c
  | NUn op a => Hun op a (tree_induction a)
  | NBin op l r => Hbin op l r (tree_induction l) (tree_induction r)
  | NCall name id args => Hcall name id args (all args)
  | NMatch regex a => Hmatch regex a (tree_induction a)
  | NIndex a i => Hindex a i (tree_induction a) (tree_induction i)
  | NArray l => Harray l (all l)
  end.
End tree_ind.

(** How tightly the operator at the top of a tree binds. *)
Definition level (t : tree) : Z := match t with NBin op _ _ => precedence op | _ => 8 end.

(** The trees that can be indexed without parentheses. *)
Definition indexable (t : tree) : bool :=
  match t with NVar _ | NCall _ _ _ | NMatch _ _ | NIndex _ _ | NArray _ => true | _ => false end.

Definition in_parens (b : bool) (ts : list (Token Regex)) : list (Token Regex) :=
  if b then TOpenParen :: ts ++ [TCloseParen] else ts.

Definition commas (l : list (list (Token Regex))) : list (Token Regex) :=
  match l with
  | [] => []
  | ts :: l => ts ++ concat (cons TComma <$> l)
  end.

(** The tokens of a tree. *)
Fixpoint tokens (t : tree) : list (Token Regex) :=
  match t with
  | NVar v => [TVariable v]
  | NConst c => [TConstant c]
  | NCapture c => [TCapture c]
  | NUn op a => TUnary op :: in_parens (level a <? 8) (tokens a)
  | NBin op l r =>
      in_parens (level l <? precedence op) (tokens l) ++
      TBinary op :: in_parens (level r <=? precedence op) (tokens r)
  | NCall name id args =>
      TFunction name id (Z.of_nat (length args)) :: TOpenParen ::
      commas (map tokens args) ++ [TCloseParen]
  | NMatch regex a => TRegex regex :: TOpenParen :: tokens a ++ [TCloseParen]
  | NIndex a i => in_parens (negb (indexable a)) (tokens a) ++ TOpenBracket :: tokens i ++ [TCloseBracket]
  | NArray l => TOpenBracket :: commas (map tokens l) ++ [TCloseBracket]
  end.

(** Whether the tokens of a tree start with an operand, not with a
    parenthesis or a unary operator. *)
Fixpoint starts_operand (t : tree) : bool :=
  match t with
  | NUn _ _ => false
  | NBin op l _ => negb (level l <? precedence op) && starts_operand l
  | NIndex a _ => indexable a && starts_operand a
  | _ => true
  end.

(** The program of a tree. *)
Definition jmp_over (op : BinaryOperator) (n : Z) : list (ExpressionItem Regex) :=
  match op with And => [IJmpIf false n] | Or => [IJmpIf true n] | _ => [] end.

Fixpoint compile (t : tree) : list (ExpressionItem Regex) :=
  match t with
  | NVar v => [IVariable v]
  | NConst c => [IConstant c]
  | NCapture c => [ICapture c]
  | NUn op a => compile a ++ [IUnary op]
  | NBin op l r =>
      compile l ++ jmp_over op (Z.of_nat (length (compile r)) + 1) ++ compile r ++ [IBinary op]
  | NCall name id args => concat (map compile args) ++ [IFunction id (Z.of_nat (length args))]
  | NMatch regex a => compile a ++ [IRegex regex]
  | NIndex a i => compile a ++ compile i ++ [IArrayAccess]
  | NArray l => concat (map compile l) ++ [IArrayBuild (Z.of_nat (length l))]
  end.

(** Sizes within the counters of the parser, identifiers that are functions',
    and array items that start with an operand: the parser does not count an
    item that starts with a parenthesis or a unary operator. *)
Fixpoint tree_ok (t : tree) : Prop :=
  match t with
  | NVar _ | NConst _ | NCapture _ => True
  | NUn _ a => tree_ok a
  | NBin _ l r => tree_ok l ∧ tree_ok r ∧ Z.of_nat (length (compile r)) < 2 ^ 31
  | NCall _ id args =>
      0 ≤ id < ID_ARRAY_BUILD ∧ Z.of_nat (length args) < 2 ^ 31 - 1 ∧
      (fix all (l : list tree) : Prop := match l with [] => True | x :: l => tree_ok x ∧ all l end) args
  | NMatch _ a => tree_ok a
  | NIndex a i => tree_ok a ∧ tree_ok i
  | NArray l =>
      Z.of_nat (length l) < 2 ^ 31 - 1 ∧
      (fix all (l : list tree) : Prop :=
         match l with [] => True | x :: l => (starts_operand x = true ∧ tree_ok x) ∧ all l end) l
  end.

Lemma all_Forall (P : tree → Prop) l :
  (fix all (l : list tree) : Prop := match l with [] => True | x :: l => P x ∧ all l end) l → Forall P l.
Proof. induction l as [|x l IH]; [constructor|]. intros [Hx Hl]. constructor; [done|by apply IH]. Qed.

(** ** Pending operators *)

(** Operators whose right operand has been read, none of which binds less
    tightly than a level. *)
Definition pending_ok (lvl : Z) (e : entry Regex) : Prop :=
  match e with
  | (TBinary op, _) => lvl ≤ precedence op
  | (TUnary _, None) => True
  | _ => False
  end.

Definition flush (pend : list (entry Regex)) (out : list (ExpressionItem Regex)) := finish_loop pend out.

Lemma flush_app lvl pend1 pend2 out :
  Forall (pending_ok lvl) pend1 → flush (pend1 ++ pend2) out = flush pend1 out ≫= flush pend2.
Proof.
  unfold flush. intros Hp. revert out. induction Hp as [|[t j] pend1 Ht Hp IH]; intros out; [done|].
  cbn [app finish_loop]. destruct t; try done.
  destruct (update_jmp_pos j out); cbn [mbind presult_bind]; [apply IH|done..].
Qed.

Lemma close_loop_flush lvl close_paren pend t j stk out :
  Forall (pending_ok lvl) pend → is_open close_paren t = true →
  close_loop close_paren (pend ++ (t, j) :: stk) out = flush pend out ≫= λ out, POk (stk, out).
Proof.
  unfold flush. intros Hp Ht. revert out. induction Hp as [|[t' j'] pend Ht' Hp IH]; intros out.
  { cbn [app close_loop finish_loop mbind presult_bind]. by rewrite Ht. }
  cbn [app close_loop finish_loop]. destruct t'; try done; try exact (IH _).
  destruct (update_jmp_pos j' out); cbn [is_open mbind presult_bind]; [apply IH|done..].
Qed.

Lemma comma_loop_flush lvl pend t j stk out :
  Forall (pending_ok lvl) pend → t = TOpenParen ∨ t = TOpenBracket →
  comma_loop (pend ++ (t, j) :: stk) out = flush pend out ≫= λ out, POk ((t, j) :: stk, out).
Proof.
  unfold flush. intros Hp Ht. revert out. induction Hp as [|[t' j'] pend Ht' Hp IH]; intros out.
  { by destruct Ht as [-> | ->]. }
  cbn [app comma_loop finish_loop]. destruct t'; try done; try exact (IH _).
  destruct (update_jmp_pos j' out); cbn [mbind presult_bind]; [apply IH|done..].
Qed.

(** A stack on which an operand of a level may start: what is below binds
    less tightly, and no call waits for its parenthesis. *)
Definition blocked (lvl : Z) (stk : list (entry Regex)) : Prop :=
  match stk with
  | (TBinary op, _) :: _ => precedence op < lvl
  | (TUnary _, _) :: _ => 7 < lvl
  | (TOpenParen, _) :: _ | (TOpenBracket, _) :: _ | [] => True
  | _ => False
  end.

Lemma binary_loop_flush lvl op pend stk out :
  Forall (pending_ok lvl) pend → precedence op ≤ lvl → blocked (precedence op) stk →
  binary_loop op (pend ++ stk) out = flush pend out ≫= λ out, POk (stk, out).
Proof.
  unfold flush. intros Hp Hop Hb. revert out. induction Hp as [|[t' j'] pend Ht' Hp IH]; intros out.
  { cbn [app finish_loop mbind presult_bind]. destruct stk as [|[[] j] stk]; try done; cbn in Hb |- *.
    - by rewrite (proj2 (Z.leb_gt _ _)) by lia.
    - destruct op; cbn in Hb; lia. }
  cbn [app binary_loop finish_loop]. destruct t'; try done; try exact (IH _). cbn in Ht'.
  rewrite (proj2 (Z.leb_le _ _)) by lia.
  destruct (update_jmp_pos j' out); cbn [mbind presult_bind]; [apply IH|done..].
Qed.

Lemma blocked_call lvl stk p :
  blocked lvl stk → operator_stack p = stk → close_call p = POk p.
Proof. intros Hb <-. unfold close_call. by destruct (operator_stack p) as [|[[] j] stk]. Qed.

Lemma blocked_mono lvl lvl' stk : blocked lvl stk → lvl ≤ lvl' → blocked lvl' stk.
Proof. destruct stk as [|[[] j] stk]; cbn; try done; lia. Qed.

Lemma pending_mono lvl lvl' pend :
  Forall (pending_ok lvl') pend → lvl ≤ lvl' → Forall (pending_ok lvl) pend.
Proof.
  intros Hp Hl. eapply list.Forall_impl; [exact Hp|]. intros [[] [|]]; cbn; try done; lia.
Qed.

Lemma level_bounds t : 1 ≤ level t ≤ 8.
Proof. destruct t; cbn; try lia. destruct op; cbn; lia. Qed.

(** Counting an array item leaves a blocked stack blocked, and does nothing
    below a parenthesis or an operator. *)
Definition counts_items (e : entry Regex) : Prop := count_item e ≠ e.
Lemma count_item_blocked lvl e stk : blocked lvl (e :: stk) → count_item e = e.
Proof. by destruct e as [[] j]. Qed.

Lemma count_array_blocked lvl t j stk :
  blocked lvl stk → t ≠ TOpenBracket → (∀ name id n, t ≠ TFunction name id n) →
  count_array_item ((t, j) :: stk) = (t, j) :: stk.
Proof.
  intros Hb Ht Hf. unfold count_array_item. destruct stk as [|e stk].
  - destruct t; try done. by destruct (Hf name id num_args).
  - by rewrite (count_item_blocked lvl e stk).
Qed.

Lemma blocked_count lvl stk : blocked lvl stk → blocked lvl (count_array_item stk).
Proof.
  destruct stk as [|e [|e' stk]]; [done| |done]. intros Hb. cbn [count_array_item].
  by rewrite (count_item_blocked lvl e []).
Qed.

(** ** Parsing the tokens of a tree *)

Lemma parse_tokens_app ts1 ts2 last (p : ExpressionParser (Regex := Regex)) :
  parse_tokens (ts1 ++ ts2) last p
  = parse_tokens ts1 last p ≫= λ '(p, last), parse_tokens ts2 last p.
Proof.
  revert last p. induction ts1 as [|t ts1 IH]; intros last p; [done|]. cbn [app parse_tokens].
  destruct (parse_step last t p) as [[p' last']| |]; cbn [mbind presult_bind]; [apply IH|done..].
Qed.

(** The counters after an operand: one more argument, and one more item of an
    array when the operand is counted there. *)
Definition counted_stack (b : bool) (p : ExpressionParser) : list (entry Regex) :=
  match arg_count p with
  | [] => operator_stack p
  | _ => if b then count_array_item (operator_stack p) else operator_stack p
  end.
Definition counted_args (p : ExpressionParser (Regex := Regex)) : list Z :=
  match arg_count p with [] => [] | x :: counts => x + 1 :: counts end.
Definition counts_ok (p : ExpressionParser (Regex := Regex)) : Prop :=
  match arg_count p with [] => True | x :: _ => 0 ≤ x < 2 ^ 31 - 1 end.

(** Tokens that parse as one operand with a given program. *)
Definition parses (ts : list (Token Regex)) (b idx : bool) (lvl : Z)
    (code : list (ExpressionItem Regex)) : Prop :=
  ∀ p, blocked lvl (operator_stack p) → counts_ok p →
  ∃ out pend last,
    parse_tokens ts false p
    = POk ({| output := out; operator_stack := pend ++ counted_stack b p; arg_count := counted_args p |}, last) ∧
    flush pend out = POk (output p ++ code) ∧ Forall (pending_ok lvl) pend ∧
    (idx = true → pend = [] ∧ last = true).

Lemma i32_saturate_id z : - 2 ^ 31 ≤ z < 2 ^ 31 → i32_saturate z = z.
Proof. unfold i32_saturate. lia. Qed.

Lemma inc_arg_count_eq p :
  counts_ok p →
  inc_arg_count p = {| output := output p; operator_stack := counted_stack true p; arg_count := counted_args p |}.
Proof.
  unfold inc_arg_count, counts_ok, counted_stack, counted_args. destruct p as [out stk [|x counts]]; [done|].
  cbn. intros Hx. by rewrite i32_saturate_id by lia.
Qed.

(** An operand of one token. *)
Lemma parses_operand t idx i :
  (∀ p, parse_step false t p = POk (emit i (inc_arg_count p), idx)) → parses [t] true idx 8 [i].
Proof.
  intros Ht p Hb Hc. cbn [parse_tokens]. rewrite Ht, inc_arg_count_eq by done.
  exists (output p ++ [i]), [], idx. split_and!; [done|done|constructor|done].
Qed.

Lemma counted_parens lvl p out :
  blocked lvl (operator_stack p) →
  ∀ b, counted_stack b {| output := out; operator_stack := (TOpenParen, None) :: operator_stack p;
                          arg_count := arg_count p |}
  = (TOpenParen, None) :: operator_stack p.
Proof.
  intros Hb b. unfold counted_stack. cbn [arg_count operator_stack]. destruct (arg_count p); [done|]. destruct b; [|done].
  by apply (count_array_blocked lvl).
Qed.

Lemma parses_parens ts b idx lvl code :
  parses ts b idx lvl code → parses (TOpenParen :: ts ++ [TCloseParen]) false true 8 code.
Proof.
  intros Hts p Hb Hc. cbn [parse_tokens parse_step mbind presult_bind].
  set (p1 := push (TOpenParen, None) p).
  destruct (Hts p1) as (out & pend & last & Hp & Hf & Hpend & _); [done|done|].
  rewrite parse_tokens_app, Hp. cbn [mbind presult_bind parse_tokens parse_step close_token operator_stack output arg_count].
  assert (counted_stack b p1 = (TOpenParen, None) :: operator_stack p) as ->
    by (by apply (counted_parens 8 p (output p))).
  unfold close_token. cbn [operator_stack output arg_count]. rewrite (close_loop_flush lvl) by done. rewrite Hf. cbn [mbind presult_bind].
  rewrite (blocked_call 8 (operator_stack p)) by done. cbn [mbind presult_bind].
  exists (output p ++ code), [], true. split_and!; [|done|constructor|done].
  unfold counted_stack, counted_args. cbn. by destruct (arg_count p).
Qed.

Lemma parses_in_parens c ts b idx lvl code :
  parses ts b idx lvl code →
  parses (in_parens c ts) (negb c && b) (c || idx) (if c then 8 else lvl) code.
Proof. destruct c; [apply parses_parens|done]. Qed.

Lemma counted_blocked lvl b p : blocked lvl (operator_stack p) → blocked lvl (counted_stack b p).
Proof.
  intros Hb. unfold counted_stack. destruct (arg_count p); [done|]. destruct b; [by apply blocked_count|done].
Qed.

(** A unary operator. *)
Lemma parses_unary op ts b idx code :
  parses ts b idx 8 code → parses (TUnary op :: ts) false false 8 (code ++ [IUnary op]).
Proof.
  intros Hts p Hb Hc. cbn [parse_tokens parse_step mbind presult_bind].
  set (p1 := push (TUnary op, None) p).
  destruct (Hts p1) as (out & pend & last & Hp & Hf & Hpend & _); [done|done|].
  rewrite Hp. exists out, (pend ++ [(TUnary op, None)]), last. split_and!; [| | |done].
  - rewrite <-app_assoc. cbn [app]. do 4 f_equal. unfold counted_stack.
    cbn [arg_count operator_stack p1 push set_stack]. destruct (arg_count p); [done|]. destruct b; [|done]. by apply (count_array_blocked 8).
  - rewrite (flush_app 8) by done. rewrite Hf. cbn. by rewrite <-app_assoc.
  - apply Forall_app. split; [done|]. by repeat constructor.
Qed.

(** A binary operator between its operands. *)
Lemma update_jmp_over op out code :
  Z.of_nat (length code) < 2 ^ 31 →
  ∀ jmp, jmp_item (Regex := Regex) op = Some jmp →
  update_jmp_pos (Some (length out)) (out ++ jmp :: code)
  = POk (out ++ jmp_over op (Z.of_nat (length code) + 1) ++ code).
Proof.
  intros Hlen jmp Hj. unfold update_jmp_pos.
  rewrite (list_lookup_middle out code jmp) by done.
  assert (wrap 32 (Z.of_nat (length (out ++ jmp :: code)) - Z.of_nat (length out))
    = Z.of_nat (length code) + 1) as Hw.
  { rewrite length_app. cbn [length]. rewrite wrap_small; unfold uint_ok; lia. }
  destruct op; try done; injection Hj as <-; rewrite Hw;
    rewrite insert_app_r_alt, Nat.sub_diag by lia; done.
Qed.

Lemma parses_binary op ts1 b1 idx1 lvl1 code1 ts2 b2 idx2 lvl2 code2 :
  parses ts1 b1 idx1 lvl1 code1 → precedence op ≤ lvl1 →
  parses ts2 b2 idx2 lvl2 code2 → precedence op < lvl2 → Z.of_nat (length code2) < 2 ^ 31 →
  parses (ts1 ++ TBinary op :: ts2) b1 false (precedence op)
    (code1 ++ jmp_over op (Z.of_nat (length code2) + 1) ++ code2 ++ [IBinary op]).
Proof.
  intros H1 Hl1 H2 Hl2 Hlen p Hb Hc.
  destruct (H1 p) as (out1 & pend1 & last1 & Hp1 & Hf1 & Hpend1 & _); [by eapply blocked_mono|done|].
  rewrite parse_tokens_app, Hp1. cbn [mbind presult_bind parse_tokens parse_step]. unfold binary_token.
  set (p1 := dec_arg_count _).
  assert (operator_stack p1 = pend1 ++ counted_stack b1 p ∧ output p1 = out1 ∧ arg_count p1 = arg_count p)
    as (-> & -> & Hargs).
  { unfold p1, dec_arg_count, counted_args. unfold counts_ok in Hc. cbn. destruct (arg_count p) as [|x counts]; [done|].
    cbn. split_and!; [done|done|]. rewrite i32_saturate_id by lia. f_equal. lia. }
  rewrite (binary_loop_flush lvl1) by (try done; by apply counted_blocked). rewrite Hf1. cbn [mbind presult_bind].
  rewrite Hargs. clear p1 Hargs. set (out := output p ++ code1).
  set (jmp := jmp_item op).
  set (p2 := match jmp with Some _ => _ | None => _ end).
  assert (operator_stack p2 = (TBinary op, (λ _, length out) <$> jmp) :: counted_stack b1 p ∧
    output p2 = out ++ match jmp with Some j => [j] | None => [] end ∧ arg_count p2 = arg_count p)
    as (Hs2 & Ho2 & Ha2) by (unfold p2; destruct jmp; rewrite ?app_nil_r; done).
  clearbody p2.
  destruct (H2 p2) as (out2 & pend2 & last2 & Hp2 & Hf2 & Hpend2 & _);
    [by rewrite Hs2|unfold counts_ok in *; by rewrite Ha2|].
  rewrite Hp2. exists out2, (pend2 ++ [(TBinary op, (λ _, length out) <$> jmp)]), last2.
  assert (counted_stack b2 p2 = operator_stack p2) as ->.
  { unfold counted_stack. rewrite Hs2. destruct (arg_count p2); [done|]. destruct b2; [|done].
    apply (count_array_blocked (precedence op)); [by apply counted_blocked|done|done]. }
  split_and!; [| | |done].
  - rewrite Hs2, <-app_assoc. unfold counted_args. by rewrite Ha2.
  - rewrite (flush_app lvl2) by done. rewrite Hf2, Ho2. cbn [mbind presult_bind flush finish_loop].
    unfold jmp. destruct (jmp_item op) as [j|] eqn:Hj; cbn [fmap option_fmap option_map].
    + rewrite <-app_assoc. cbn [app]. rewrite (update_jmp_over op) by done. cbn [mbind presult_bind].
      unfold out. by rewrite <-!app_assoc.
    + cbn [update_jmp_pos mbind presult_bind]. unfold out. rewrite app_nil_r, <-!app_assoc.
      by destruct op.
  - apply Forall_app. split; [eapply pending_mono; [done|lia]|]. constructor; [cbn; lia|constructor].
Qed.

(** Items between commas, below an opening token and a call. *)
Section items.
Context (l : list tree).
Context (Hl : Forall (λ t, parses (tokens t) (starts_operand t) (indexable t) (level t) (compile t)) l).

Lemma parses_tail items out pend t e stk n counts last :
  Forall (λ t, parses (tokens t) (starts_operand t) (indexable t) (level t) (compile t)) items →
  t = TOpenParen ∨ t = TOpenBracket → Forall (pending_ok 1) pend →
  0 ≤ n → n + Z.of_nat (length items) < 2 ^ 31 →
  Forall (λ t, starts_operand t = true) items ∨ count_item e = e →
  ∀ code, flush pend out = POk code →
  ∃ out' pend' last',
    parse_tokens (concat (cons TComma <$> map tokens items)) last
      {| output := out; operator_stack := pend ++ (t, None) :: e :: stk; arg_count := n :: counts |}
    = POk ({| output := out';
              operator_stack := pend' ++ (t, None) :: Nat.iter (length items) count_item e :: stk;
              arg_count := n + Z.of_nat (length items) :: counts |}, last') ∧
    flush pend' out' = POk (code ++ concat (map compile items)) ∧ Forall (pending_ok 1) pend'.
Proof.
  intros Hitems Ht. revert out pend e n last.
  induction Hitems as [|x items Hx Hitems IH]; intros out pend e n last Hpend Hn0 Hn He code Hf.
  { exists out, pend, last. cbn. rewrite app_nil_r, Z.add_0_r. done. }
  cbn [map]. rewrite fmap_cons. cbn [concat app parse_tokens parse_step operator_stack output arg_count].
  rewrite (comma_loop_flush 1) by done. rewrite Hf. cbn [mbind presult_bind].
  rewrite parse_tokens_app. cbn [length] in Hn.
  destruct (Hx {| output := code; operator_stack := (t, None) :: e :: stk; arg_count := n :: counts |})
    as (out1 & pend1 & last1 & -> & Hf1 & Hpend1 & _).
  { by destruct Ht as [-> | ->]. }
  { unfold counts_ok. cbn. lia. }
  cbn [mbind presult_bind]. unfold counted_stack, counted_args.
  cbn [arg_count operator_stack output count_array_item] in *.
  assert (∃ e', (if starts_operand x then (t, None) :: count_item e :: stk else (t, None) :: e :: stk)
    = (t, None) :: e' :: stk ∧ e' = count_item e ∧
    (Forall (λ t, starts_operand t = true) items ∨ count_item e' = e')) as (e' & -> & -> & He').
  { destruct He as [[Hs Hall]%Forall_cons_1|He].
    - rewrite Hs. exists (count_item e). split_and!; [done|done|by left].
    - exists (count_item e). split_and!; [|done|right; by rewrite He]. rewrite He. by destruct (starts_operand x). }
  destruct (IH out1 pend1 (count_item e) (n + 1) last1) with (code := code ++ compile x)
    as (out' & pend' & last' & -> & Hf' & Hpend'); try done; try lia.
  { eapply pending_mono; [done|]. pose proof (level_bounds x). lia. }
  exists out', pend', last'. cbn [length]. rewrite Nat.iter_succ_r. split_and!; [|by rewrite Hf', <-app_assoc|done].
  do 4 f_equal. lia.
Qed.

Lemma parses_items out t e stk counts :
  t = TOpenParen ∨ t = TOpenBracket → Z.of_nat (length l) < 2 ^ 31 - 1 →
  Forall (λ t, starts_operand t = true) l ∨ count_item e = e →
  ∃ out' pend' last',
    parse_tokens (commas (map tokens l)) false
      {| output := out; operator_stack := (t, None) :: e :: stk; arg_count := 0 :: counts |}
    = POk ({| output := out';
              operator_stack := pend' ++ (t, None) :: Nat.iter (length l) count_item e :: stk;
              arg_count := Z.of_nat (length l) :: counts |}, last') ∧
    flush pend' out' = POk (out ++ concat (map compile l)) ∧ Forall (pending_ok 1) pend'.
Proof.
  intros Ht Hlen He. destruct Hl as [|x items Hx Hitems].
  { exists out, [], false. cbn. rewrite app_nil_r. by repeat constructor. }
  cbn [map commas]. rewrite parse_tokens_app. cbn [length] in Hlen.
  destruct (Hx {| output := out; operator_stack := (t, None) :: e :: stk; arg_count := 0 :: counts |})
    as (out1 & pend1 & last1 & -> & Hf1 & Hpend1 & _).
  { by destruct Ht as [-> | ->]. }
  { unfold counts_ok. cbn. lia. }
  cbn [mbind presult_bind]. unfold counted_stack, counted_args.
  cbn [arg_count operator_stack output count_array_item] in *.
  assert ((if starts_operand x then (t, None) :: count_item e :: stk else (t, None) :: e :: stk)
    = (t, None) :: count_item e :: stk) as ->.
  { destruct He as [[-> _]%Forall_cons_1| ->]; [done|]. by destruct (starts_operand x). }
  change (0 + 1) with 1.
  destruct (parses_tail items out1 pend1 t (count_item e) stk 1 counts last1) with (code := out ++ compile x)
    as (out' & pend' & last' & -> & Hf' & Hpend'); try done; try lia.
  { eapply pending_mono; [done|]. pose proof (level_bounds x). lia. }
  { destruct He as [[_ ?]%Forall_cons_1|He]; [by left|right; by rewrite He]. }
  exists out', pend', last'. cbn [length]. rewrite Nat.iter_succ_r. split_and!; [|by rewrite Hf', <-app_assoc|done].
  do 4 f_equal. lia.
Qed.
End items.

(** The end of a call: the operators of its last argument, its parenthesis or
    bracket, and the check of the number of its arguments. *)
Lemma close_call_items close_paren pend t e stk out code n counts item :
  Forall (pending_ok 1) pend → is_open close_paren t = true → flush pend out = POk code →
  (∀ p, operator_stack p = e :: stk → arg_count p = n :: counts →
     close_call p = POk {| output := output p ++ [item]; operator_stack := stk; arg_count := counts |}) →
  close_token close_paren
    {| output := out; operator_stack := pend ++ (t, None) :: e :: stk; arg_count := n :: counts |}
  = POk {| output := code ++ [item]; operator_stack := stk; arg_count := counts |}.
Proof.
  intros Hpend Ht Hf Hc. unfold close_token. cbn [operator_stack output arg_count].
  rewrite (close_loop_flush 1) by done. rewrite Hf. cbn [mbind presult_bind]. by rewrite Hc.
Qed.

Lemma close_function name id k stk counts p :
  operator_stack p = (TFunction name id k, None) :: stk → arg_count p = k :: counts → 0 ≤ k < 2 ^ 31 →
  close_call (Regex := Regex) p
  = POk {| output := output p ++ [call_item id k]; operator_stack := stk; arg_count := counts |}.
Proof.
  intros Hs Ha Hk. unfold close_call. rewrite Hs, Ha. unfold u32_as_i32. rewrite decide_True by lia.
  by rewrite Z.eqb_refl.
Qed.

Lemma iter_count_build name n k j :
  0 ≤ k → k + Z.of_nat n < 2 ^ 32 →
  Nat.iter n count_item ((TFunction name ID_ARRAY_BUILD k, j) : entry Regex)
  = (TFunction name ID_ARRAY_BUILD (k + Z.of_nat n), j).
Proof.
  intros Hk. induction n as [|n IH]; intros Hn; [cbn; by rewrite Z.add_0_r|].
  rewrite Nat.iter_succ, IH by lia. unfold count_item. rewrite Z.eqb_refl.
  rewrite wrap_small by (unfold uint_ok; lia). do 2 f_equal. lia.
Qed.

Lemma iter_fixed {A} (f : A → A) n x : f x = x → Nat.iter n f x = x.
Proof. intros Hx. induction n as [|n IH]; [done|]. by rewrite Nat.iter_succ, IH. Qed.

(** A call from its opening token on: the items, and the closing token. *)
Lemma parses_call close_paren t f l code item (call : ExpressionParser → ExpressionParser) :
  Forall (λ t, parses (tokens t) (starts_operand t) (indexable t) (level t) (compile t)) l →
  t = TOpenParen ∨ t = TOpenBracket → is_open close_paren t = true → Z.of_nat (length l) < 2 ^ 31 - 1 →
  Forall (λ t, starts_operand t = true) l ∨ count_item f = f → code = concat (map compile l) →
  (∀ p, call p = {| output := output p; operator_stack := (t, None) :: f :: counted_stack true p;
                    arg_count := 0 :: counted_args p |}) →
  (∀ p stk, operator_stack p = Nat.iter (length l) count_item f :: stk →
     ∀ counts, arg_count p = Z.of_nat (length l) :: counts →
     close_call p = POk {| output := output p ++ [item]; operator_stack := stk; arg_count := counts |}) →
  ∀ p, ∃ last,
    parse_tokens (commas (map tokens l) ++ [if close_paren then TCloseParen else TCloseBracket]) false (call p)
    = POk ({| output := output p ++ code ++ [item]; operator_stack := counted_stack true p;
              arg_count := counted_args p |}, last) ∧ last = true.
Proof.
  intros Hl Ht Hopen Hlen Hf -> Hcall Hclose p. rewrite Hcall, parse_tokens_app.
  destruct (parses_items l Hl (output p) t f (counted_stack true p) (counted_args p) Ht Hlen Hf)
    as (out & pend & last & -> & Hfl & Hpend).
  cbn [mbind presult_bind parse_tokens]. exists true. split; [|done].
  assert (∀ q last, parse_step last (if close_paren then TCloseParen else TCloseBracket) q
    = close_token close_paren q ≫= λ q, POk (q, true)) as -> by (by destruct close_paren).
  rewrite (close_call_items close_paren pend t _ _ out _ _ _ item Hpend Hopen Hfl).
  - cbn [mbind presult_bind]. by rewrite <-app_assoc.
  - intros q Hq Ha. by apply (Hclose q _ Hq).
Qed.

Lemma parses_last ts last code p b lvl :
  parse_tokens ts false p
  = POk ({| output := output p ++ code; operator_stack := counted_stack b p; arg_count := counted_args p |}, last) →
  last = true →
  ∃ out pend last',
    parse_tokens ts false p
    = POk ({| output := out; operator_stack := pend ++ counted_stack b p; arg_count := counted_args p |}, last') ∧
    flush pend out = POk (output p ++ code) ∧ Forall (pending_ok lvl) pend ∧
    (true = true → pend = [] ∧ last' = true).
Proof. intros Hp Hl. exists (output p ++ code), [], last. split_and!; [done|done|constructor|done]. Qed.

Lemma parses_function name id args :
  0 ≤ id < ID_ARRAY_BUILD → Z.of_nat (length args) < 2 ^ 31 - 1 →
  Forall (λ t, parses (tokens t) (starts_operand t) (indexable t) (level t) (compile t)) args →
  parses (tokens (NCall name id args)) true true 8 (compile (NCall name id args)).
Proof.
  intros Hid Hlen Hargs p Hb Hc. set (f := (TFunction name id (Z.of_nat (length args)), None) : entry Regex).
  assert (count_item f = f) as Hf.
  { unfold f, count_item. by rewrite (proj2 (Z.eqb_neq _ _)) by lia. }
  destruct (parses_call true TOpenParen f args (concat (map compile args)) (IFunction id (Z.of_nat (length args)))
    (λ p, {| output := output p; operator_stack := (TOpenParen, None) :: f :: counted_stack true p;
             arg_count := 0 :: counted_args p |}) Hargs) with (p := p) as (last & Hp & Hlast); try done; try lia.
  { by left. }
  { by right. }
  { intros q stk Hs counts Ha. rewrite iter_fixed in Hs by done.
    rewrite (close_function name id _ stk counts q Hs Ha) by lia.
    unfold call_item. unfold ID_ARRAY_BUILD, ID_ARRAY_ACCESS in *.
    by rewrite !(proj2 (Z.eqb_neq _ _)) by lia. }
  apply (parses_last _ last _ p true 8); [|done]. refine (eq_trans _ Hp).
  cbn [tokens parse_tokens parse_step mbind presult_bind]. by rewrite inc_arg_count_eq.
Qed.

Lemma parses_array l :
  Z.of_nat (length l) < 2 ^ 31 - 1 → Forall (λ t, starts_operand t = true) l →
  Forall (λ t, parses (tokens t) (starts_operand t) (indexable t) (level t) (compile t)) l →
  parses (tokens (NArray l)) true true 8 (compile (NArray l)).
Proof.
  intros Hlen Hst Hargs p Hb Hc.
  set (f := (TFunction (str_bytes "array") ID_ARRAY_BUILD 0, None) : entry Regex).
  destruct (parses_call false TOpenBracket f l (concat (map compile l)) (IArrayBuild (Z.of_nat (length l)))
    (λ p, {| output := output p; operator_stack := (TOpenBracket, None) :: f :: counted_stack true p;
             arg_count := 0 :: counted_args p |}) Hargs) with (p := p) as (last & Hp & Hlast); try done; try lia.
  { by right. }
  { by left. }
  { intros q stk Hs counts Ha. unfold f in Hs. rewrite iter_count_build, Z.add_0_l in Hs by lia.
    by rewrite (close_function _ _ _ stk counts q Hs Ha) by lia. }
  apply (parses_last _ last _ p true 8); [|done]. refine (eq_trans _ Hp).
  cbn [tokens parse_tokens parse_step mbind presult_bind]. unfold bracket_token. by rewrite inc_arg_count_eq.
Qed.

Lemma parses_match regex t :
  parses (tokens t) (starts_operand t) (indexable t) (level t) (compile t) →
  parses (tokens (NMatch regex t)) true true 8 (compile (NMatch regex t)).
Proof.
  intros Ht p Hb Hc. set (f := (TRegex regex, None) : entry Regex).
  destruct (parses_call true TOpenParen f [t] (compile t) (IRegex regex)
    (λ p, {| output := output p; operator_stack := (TOpenParen, None) :: f :: counted_stack true p;
             arg_count := 0 :: counted_args p |})) with (p := p) as (last & Hp & Hlast); try done.
  { by repeat constructor. }
  { by left. }
  { by right. }
  { cbn. by rewrite app_nil_r. }
  { intros q stk Hs counts Ha. unfold close_call. cbn in Hs. by rewrite Hs, Ha. }
  apply (parses_last _ last _ p true 8); [|done]. refine (eq_trans _ Hp).
  cbn [map tokens commas concat fmap list_fmap parse_tokens parse_step mbind presult_bind].
  rewrite app_nil_r. by rewrite inc_arg_count_eq.
Qed.

Lemma parses_index ts b code i :
  parses ts b true 8 code →
  parses (tokens i) (starts_operand i) (indexable i) (level i) (compile i) →
  parses (ts ++ TOpenBracket :: tokens i ++ [TCloseBracket]) b true 8 (code ++ compile i ++ [IArrayAccess]).
Proof.
  intros Hts Hi p Hb Hc. destruct (Hts p Hb Hc) as (out & pend & last & Hp & Hf & _ & Hidx).
  destruct (Hidx eq_refl) as [-> ->]. cbn in Hf. injection Hf as ->. cbn [app] in Hp.
  set (f := (TFunction (str_bytes "array") ID_ARRAY_ACCESS 2, None) : entry Regex).
  destruct (Hi {| output := output p ++ code; operator_stack := (TOpenBracket, None) :: f :: counted_stack b p;
                  arg_count := 1 :: counted_args p |}) as (out & pend & last & Hp2 & Hf & Hpend & _);
    [done|unfold counts_ok; cbn; lia|].
  apply (parses_last _ true _ p b 8); [|done].
  rewrite parse_tokens_app, Hp. cbn [mbind presult_bind parse_tokens parse_step].
  assert (∀ q, bracket_token true q = {| output := output q;
    operator_stack := (TOpenBracket, None) :: f :: operator_stack q; arg_count := 1 :: arg_count q |})
    as -> by done.
  cbn [output operator_stack arg_count].
  rewrite parse_tokens_app, Hp2. cbn [mbind presult_bind parse_tokens parse_step].
  unfold counted_stack at 1. unfold counted_args at 1. cbn [arg_count operator_stack].
  assert ((if starts_operand i then count_array_item ((TOpenBracket, None) :: f :: counted_stack b p)
    else (TOpenBracket, None) :: f :: counted_stack b p) = (TOpenBracket, None) :: f :: counted_stack b p) as ->
    by (by destruct (starts_operand i)).
  rewrite (close_call_items false pend TOpenBracket f _ out ((output p ++ code) ++ compile i) 2 (counted_args p) IArrayAccess).
  - cbn [mbind presult_bind]. by rewrite <-!app_assoc.
  - eapply pending_mono; [done|]. pose proof (level_bounds i). lia.
  - done.
  - done.
  - intros q Hq Ha. by rewrite (close_function _ _ 2 _ (counted_args p) q Hq Ha).
Qed.

(** The tokens of a tree parse as its program. *)
Lemma parses_tree t :
  tree_ok t → parses (tokens t) (starts_operand t) (indexable t) (level t) (compile t).
Proof.
  induction t as [v|c|c|op a IH|op l r IHl IHr|name id args IH|regex a IH|a i IHa IHi|l IH]
    using tree_induction; intros Hok.
  - by apply parses_operand.
  - by apply parses_operand.
  - by apply parses_operand.
  - cbn [tokens starts_operand indexable level compile]. eapply parses_unary.
    assert (parses (in_parens (level a <? 8) (tokens a)) (negb (level a <? 8) && starts_operand a)
      ((level a <? 8) || indexable a) 8 (compile a)) as Hp; [|exact Hp].
    pose proof (level_bounds a). pose proof (parses_in_parens (level a <? 8) _ _ _ _ _ (IH Hok)) as Hp.
    destruct (Z.ltb_spec (level a) 8); [done|]. by replace (level a) with 8 in Hp by lia.
  - destruct Hok as (Hl & Hr & Hlen). cbn [tokens starts_operand indexable level compile].
    eapply parses_binary; [apply parses_in_parens, IHl, Hl| |apply parses_in_parens, IHr, Hr| |done].
    + destruct (Z.ltb_spec (level l) (precedence op)); [|lia]. destruct op; cbn; lia.
    + destruct (Z.leb_spec (level r) (precedence op)); [|lia]. destruct op; cbn; lia.
  - destruct Hok as (Hid & Hlen & Hall%all_Forall). apply parses_function; [done|done|].
    rewrite list.Forall_forall in *. intros x Hx. by apply IH, Hall.
  - apply parses_match, IH, Hok.
  - destruct Hok as [Ha Hi]. cbn [tokens starts_operand indexable level compile].
    pose proof (parses_in_parens (negb (indexable a)) _ _ _ _ _ (IHa Ha)) as Hp.
    rewrite negb_involutive in Hp. apply parses_index; [|by apply IHi].
    destruct a; cbn [indexable negb orb andb level starts_operand] in Hp |- *; done.
  - destruct Hok as [Hlen Hall%all_Forall]. apply parses_array; [done| |].
    + eapply list.Forall_impl; [exact Hall|]. by intros x [? _].
    + rewrite list.Forall_forall in *. intros x Hx. apply IH; [done|]. by apply Hall.
Qed.

Lemma parse_tree t : tree_ok t → parse (tokens t) = POk {| items := compile t |}.
Proof.
  intros Hok. unfold parse.
  destruct (parses_tree t Hok parser_new) as (out & pend & last & -> & Hf & _ & _); [done|done|].
  cbn [mbind presult_bind]. unfold finish. cbn [operator_stack output counted_stack arg_count parser_new].
  rewrite app_nil_r. unfold flush in Hf. by rewrite Hf.
Qed.
End tree.

(** ** Meaning *)

Section meaning.
Context `{FloatText} {Regex : Type}.
Context (regex_captures : Regex → list Z → option (list (option (list Z)))).
Context (call : Z → list variable → variable) (resolve_variable : Z → variable).

(** The value of a tree and the captures of the last [matches]; a conjunction
    with a false left operand and a disjunction with a true one are that
    operand. *)
Fixpoint denote (t : tree (Regex := Regex)) (caps : list (list Z)) : variable * list (list Z) :=
  let fix all (l : list tree) (caps : list (list Z)) : list variable * list (list Z) :=
    match l with
    | [] => ([], caps)
    | x :: l =>
        let '(v, caps) := denote x caps in
        let '(vs, caps) := all l caps in (v :: vs, caps)
    end in
  match t with
  | NVar v => (resolve_variable v, caps)
  | NConst c => (of_constant c, caps)
  | NCapture c => (VString (default [] (caps !! Z.to_nat c)), caps)
  | NUn op a => let '(v, caps) := denote a caps in (unary op v, caps)
  | NBin op l r =>
      let '(vl, caps) := denote l caps in
      let both := let '(vr, caps) := denote r caps in (binary op vl vr, caps) in
      match op with
      | And => if to_bool vl then both else (vl, caps)
      | Or => if to_bool vl then (vl, caps) else both
      | _ => both
      end
  | NCall _ id args => let '(vs, caps) := all args caps in (call id vs, caps)
  | NMatch regex a =>
      let '(v, caps) := denote a caps in
      let caps := regex_match regex_captures regex (to_string v) in
      (of_bool (negb (bool_decide (caps = []))), caps)
  | NIndex a i =>
      let '(v, caps) := denote a caps in
      let '(vi, caps) := denote i caps in
      (default variable_default (into_array v !! Z.to_nat (default 0 (to_usize vi))), caps)
  | NArray l => let '(vs, caps) := all l caps in (VArray vs, caps)
  end.

Fixpoint denote_all (l : list (tree (Regex := Regex))) (caps : list (list Z))
  : list variable * list (list Z) :=
  match l with
  | [] => ([], caps)
  | x :: l =>
      let '(v, caps) := denote x caps in
      let '(vs, caps) := denote_all l caps in (v :: vs, caps)
  end.

Abbreviation run := (eval_loop regex_captures call resolve_variable).
Abbreviation runs t := (∀ rest stack caps,
  run 0 (compile t ++ rest) stack caps
  = run 0 rest ((denote t caps).1 :: stack) (denote t caps).2).

Lemma run_skip n program stack caps :
  run (Z.of_nat n) program stack caps = run 0 (drop n program) stack caps.
Proof.
  revert program. induction n as [|n IH]; intros program; [by rewrite drop_0|].
  destruct program as [|item program]; [done|]. cbn [drop]. rewrite <-(IH program). cbn [eval_loop].
  rewrite (proj2 (Z.ltb_lt _ _)) by lia. f_equal. lia.
Qed.

Lemma pop_n_rev vs stack acc : pop_n (length vs) acc (rev vs ++ stack) = (vs ++ acc, stack).
Proof.
  revert acc stack. induction vs as [|v vs IH] using rev_ind; intros acc stack; [done|].
  rewrite length_app, Nat.add_comm, rev_app_distr. cbn. by rewrite IH, <-app_assoc.
Qed.

Lemma run_all l :
  Forall (λ t, runs t) l → ∀ rest stack caps,
  run 0 (concat (map compile l) ++ rest) stack caps
  = run 0 rest (rev (denote_all l caps).1 ++ stack) (denote_all l caps).2 ∧
  length (denote_all l caps).1 = length l.
Proof.
  induction 1 as [|t l Ht Hl IH]; intros rest stack caps; [done|].
  cbn [map concat denote_all]. rewrite <-app_assoc, Ht. destruct (denote t caps) as [v caps1]. cbn [fst snd].
  destruct (IH rest (v :: stack) caps1) as [-> Hlen]. destruct (denote_all l caps1) as [vs caps2].
  cbn [fst snd rev length] in *. split; [by rewrite <-app_assoc|by rewrite Hlen].
Qed.

Lemma denote_call name id args caps :
  denote (NCall name id args) caps = (call id (denote_all args caps).1, (denote_all args caps).2).
Proof. change (denote (NCall name id args) caps) with (let '(vs, caps) := denote_all args caps in (call id vs, caps)). by destruct (denote_all args caps). Qed.
Lemma denote_array l caps :
  denote (NArray l) caps = (VArray (denote_all l caps).1, (denote_all l caps).2).
Proof. change (denote (NArray l) caps) with (let '(vs, caps) := denote_all l caps in (VArray vs, caps)). by destruct (denote_all l caps). Qed.

(** Running the program of a tree pushes the value of the tree. *)
Lemma run_tree t : runs t.
Proof.
  induction t as [v|c|c|op a IH|op l r IHl IHr|name id args IH|regex a IH|a i IHa IHi|l IH]
    using tree_induction; intros rest stack caps; try done.
  - cbn [compile]. rewrite <-app_assoc, IH. cbn [denote]. by destruct (denote a caps).
  - cbn [compile]. rewrite <-!app_assoc, IHl. cbn [denote]. destruct (denote l caps) as [vl caps1]. cbn [fst snd].
    assert (∀ stack caps, run 0 (compile r ++ [IBinary op] ++ rest) (vl :: stack) caps
      = run 0 rest (binary op vl (denote r caps).1 :: stack) (denote r caps).2) as Hboth
      by (intros; by rewrite IHr).
    assert (∀ b, jmp_over (Regex := Regex) op (Z.of_nat (length (compile r)) + 1) = [IJmpIf b (Z.of_nat (length (compile r)) + 1)] →
      run 0 (jmp_over op (Z.of_nat (length (compile r)) + 1) ++ compile r ++ [IBinary op] ++ rest) (vl :: stack) caps1
      = if Bool.eqb (to_bool vl) b then run 0 rest (vl :: stack) caps1
        else run 0 rest (binary op vl (denote r caps1).1 :: stack) (denote r caps1).2) as Hjmp.
    { intros b ->. cbn [app eval_loop]. rewrite Z.ltb_irrefl. destruct (Bool.eqb (to_bool vl) b); [|apply Hboth].
      replace (Z.of_nat (length (compile r)) + 1) with (Z.of_nat (S (length (compile r)))) by lia.
      rewrite run_skip. f_equal. rewrite <-Nat.add_1_r, <-drop_drop, drop_app_length. done. }
    destruct op; try (by rewrite Hboth; destruct (denote r caps1)).
    + rewrite (Hjmp false) by done. destruct (to_bool vl); [by destruct (denote r caps1)|done].
    + rewrite (Hjmp true) by done. destruct (to_bool vl); [done|by destruct (denote r caps1)].
  - rewrite denote_call. cbn [compile]. rewrite <-app_assoc.
    destruct (run_all args IH ([IFunction id (Z.of_nat (length args))] ++ rest) stack caps) as [-> Hlen].
    cbn [app eval_loop eval_item]. rewrite Z.ltb_irrefl, Nat2Z.id, <-Hlen, pop_n_rev, app_nil_r. done.
  - cbn [compile]. rewrite <-app_assoc, IH. cbn [denote]. by destruct (denote a caps).
  - cbn [compile]. rewrite <-!app_assoc, IHa. cbn [denote]. destruct (denote a caps) as [va caps1]. cbn [fst snd].
    rewrite IHi. by destruct (denote i caps1).
  - rewrite denote_array. cbn [compile]. rewrite <-app_assoc.
    destruct (run_all l IH ([IArrayBuild (Z.of_nat (length l))] ++ rest) stack caps) as [-> Hlen].
    cbn [app eval_loop eval_item]. rewrite Z.ltb_irrefl, Nat2Z.id, <-Hlen, pop_n_rev, app_nil_r. done.
Qed.

(** The parser compiles the tokens of an expression to a program that
    evaluates to the expression's value. *)
Lemma expression_value (t : tree (Regex := Regex)) caps :
  tree_ok t →
  ∃ e, parse (tokens t) = POk e ∧
    eval regex_captures call resolve_variable e caps = denote t caps.
Proof.
  intros Hok. exists {| items := compile t |}. split; [by apply parse_tree|].
  unfold eval. cbn [items]. rewrite <-(app_nil_r (compile t)), run_tree. cbn. by destruct (denote t caps).
Qed.
End meaning.

(** ** No panics *)

Section no_panic.
Context {Regex : Type}.

(** A call on the operator stack has its counter, and a pending jump lies in
    the program. *)
Definition is_call (e : entry Regex) : bool :=
  match e.1 with TFunction _ _ _ | TRegex _ => true | _ => false end.
Definition calls (stk : list (entry Regex)) : nat := length (filter (λ e, is_call e = true) stk).
Definition jumps_ok (stk : list (entry Regex)) (out : list (ExpressionItem Regex)) : Prop :=
  Forall (λ e : entry Regex, match e.2 with Some j => (j < length out)%nat | None => True end) stk.
Arguments calls : simpl never.
Arguments jumps_ok : simpl never.
Definition parser_ok (p : ExpressionParser (Regex := Regex)) : Prop :=
  calls (operator_stack p) = length (arg_count p) ∧ jumps_ok (operator_stack p) (output p).

Lemma jumps_ok_app stk out out' :
  jumps_ok stk out → (length out ≤ length out')%nat → jumps_ok stk out'.
Proof. intros Hj Hl. eapply list.Forall_impl; [exact Hj|]. intros [t [j|]]; cbn; lia. Qed.

Lemma update_jmp_ok j (out : list (ExpressionItem Regex)) :
  match j with Some j => (j < length out)%nat | None => True end →
  ∃ out', update_jmp_pos j out = POk out' ∧ length out' = length out.
Proof.
  destruct j as [j|]; [|by eexists]. intros Hj. cbn. apply lookup_lt_is_Some in Hj as [i Hi].
  rewrite Hi. destruct i; eexists; (split; [reflexivity|]); by rewrite ?length_insert.
Qed.

Definition no_panic {A} (Q : A → Prop) (r : presult A) : Prop :=
  match r with POk a => Q a | PErr _ => True | PPanic => False end.

Lemma no_panic_bind {A B} (Q : A → Prop) (R : B → Prop) (f : A → presult B) r :
  no_panic Q r → (∀ a, Q a → no_panic R (f a)) → no_panic R (r ≫= f).
Proof. destruct r; cbn; auto. Qed.

(** What the loops leave: a suffix of the stack, with the same number of
    calls, over a longer program. *)
Definition loop_post (n : nat) (r : list (entry Regex) * list (ExpressionItem Regex)) : Prop :=
  calls r.1 = n ∧ jumps_ok r.1 r.2.

Lemma calls_cons e stk : calls (e :: stk) = ((if is_call e then 1 else 0) + calls stk)%nat.
Proof. unfold calls. rewrite filter_cons. by destruct (is_call e). Qed.

Lemma pop_operator_ok t j stk out :
  jumps_ok ((t, j) :: stk) out → 
  ∃ out', update_jmp_pos j out = POk out' ∧ ∀ i, jumps_ok stk (out' ++ [i]).
Proof.
  intros [Hj Hstk]%Forall_cons_1. destruct (update_jmp_ok j out Hj) as (out' & Hu & Hlen).
  exists out'. split; [done|]. intros i. eapply jumps_ok_app; [done|]. rewrite length_app. lia.
Qed.

Lemma close_loop_ok b stk out :
  jumps_ok stk out → no_panic (loop_post (calls stk)) (close_loop b stk out).
Proof.
  revert out. induction stk as [|[t j] stk IH]; intros out Hj; [done|]. cbn [close_loop].
  destruct (is_open b t) eqn:Ho.
  { cbn. split; [by destruct t|]. by apply Forall_cons_1 in Hj as [_ ?]. }
  destruct t; try done.
  - destruct (pop_operator_ok _ _ _ _ Hj) as (out' & -> & Hok). apply IH, Hok.
  - apply IH. apply Forall_cons_1 in Hj as [_ Hj]. eapply jumps_ok_app; [done|]. rewrite length_app. lia.
Qed.

Lemma binary_loop_ok op stk out :
  jumps_ok stk out → no_panic (loop_post (calls stk)) (binary_loop op stk out).
Proof.
  revert out. induction stk as [|[t j] stk IH]; intros out Hj; [done|]. cbn [binary_loop].
  destruct t; try done.
  - destruct (_ <=? _); [|done]. destruct (pop_operator_ok _ _ _ _ Hj) as (out' & -> & Hok). apply IH, Hok.
  - apply IH. apply Forall_cons_1 in Hj as [_ Hj]. eapply jumps_ok_app; [done|]. rewrite length_app. lia.
Qed.

Lemma comma_loop_ok stk out :
  jumps_ok stk out → no_panic (loop_post (calls stk)) (comma_loop stk out).
Proof.
  revert out. induction stk as [|[t j] stk IH]; intros out Hj; [done|]. cbn [comma_loop].
  destruct t; try done.
  - destruct (pop_operator_ok _ _ _ _ Hj) as (out' & -> & Hok). apply IH, Hok.
  - apply IH. apply Forall_cons_1 in Hj as [_ Hj]. eapply jumps_ok_app; [done|]. rewrite length_app. lia.
Qed.

Lemma finish_loop_ok stk out : jumps_ok stk out → finish_loop stk out ≠ PPanic.
Proof.
  revert out. induction stk as [|[t j] stk IH]; intros out Hj; [done|]. cbn [finish_loop].
  destruct t; try done.
  - destruct (pop_operator_ok _ _ _ _ Hj) as (out' & -> & Hok). apply IH, Hok.
  - apply IH. apply Forall_cons_1 in Hj as [_ Hj]. eapply jumps_ok_app; [done|]. rewrite length_app. lia.
Qed.

Lemma close_call_ok p : parser_ok p → no_panic parser_ok (close_call p).
Proof.
  intros [Hc Hj]. unfold close_call. destruct (operator_stack p) as [|[t j] stk] eqn:Hs.
  { split; by rewrite Hs. }
  rewrite calls_cons in Hc. pose proof (proj2 (Forall_cons_1 _ _ _ Hj)) as Hstk.
  assert (∀ i, jumps_ok stk (output p ++ [i])) as Hstk'
    by (intros i; eapply jumps_ok_app; [exact Hstk|rewrite length_app; lia]).
  destruct t; try (split; rewrite Hs; [rewrite calls_cons|]; done);
    (destruct (arg_count p) as [|got counts]; [done|]); cbn [is_call fst length] in Hc; destruct (negb _); try done;
    (split; cbn [operator_stack arg_count output]; [lia|apply Hstk']).
Qed.

Lemma count_item_call e : is_call (count_item e) = is_call e ∧ (count_item e).2 = e.2.
Proof. destruct e as [[] j]; try done. cbn. by destruct (_ =? _). Qed.

Lemma count_array_ok stk out :
  calls (count_array_item stk) = calls stk ∧ (jumps_ok stk out → jumps_ok (count_array_item stk) out).
Proof.
  destruct stk as [|e [|e' stk]]; [done|..]; cbn [count_array_item]; rewrite ?calls_cons.
  - destruct (count_item_call e) as [-> Hj]. split; [done|]. intros [He _]%Forall_cons_1.
    repeat constructor. by rewrite Hj.
  - destruct (count_item_call e') as [-> Hj]. split; [done|]. intros [He [He' Hs]%Forall_cons_1]%Forall_cons_1.
    repeat constructor; [done|by rewrite Hj|done].
Qed.

Lemma inc_ok p : parser_ok p → parser_ok (inc_arg_count p).
Proof.
  unfold inc_arg_count, parser_ok. destruct (arg_count p) as [|x counts] eqn:Ha; [by rewrite Ha|].
  intros [Hc Hj]. destruct (count_array_ok (operator_stack p) (output p)) as [Hcc Hjj]. cbn [operator_stack arg_count output length].
  rewrite Hcc, Hc. split; [done|by apply Hjj].
Qed.

Lemma emit_ok i p : parser_ok p → parser_ok (emit i p).
Proof. intros [Hc Hj]. split; [done|]. eapply jumps_ok_app; [exact Hj|]. cbn. rewrite length_app. lia. Qed.

Lemma push_ok t p : is_call (t, None) = false → parser_ok p → parser_ok (push (t, None) p).
Proof. intros Ht [Hc Hj]. split; cbn; [by rewrite calls_cons, Ht|by constructor]. Qed.

Lemma push_call_ok t n p :
  is_call (t, None) = true → parser_ok p → parser_ok (push (t, None) (push_arg_count n p)).
Proof. intros Ht [Hc Hj]. split; cbn; [rewrite calls_cons, Ht; cbn; by rewrite Hc|by constructor]. Qed.

Lemma parse_step_ok last t p : parser_ok p → no_panic (λ r, parser_ok r.1) (parse_step last t p).
Proof.
  intros Hp. destruct t; cbn [parse_step no_panic fst];
    try (by apply emit_ok, inc_ok); try (by apply push_ok); try (by apply push_call_ok, inc_ok).
  - (* a binary operator *)
    apply (no_panic_bind parser_ok); [|done]. unfold binary_token. set (p1 := dec_arg_count p).
    assert (parser_ok p1) as [Hc Hj].
    { unfold p1, dec_arg_count, parser_ok. destruct Hp as [Hc Hj]. destruct (arg_count p) eqn:Ha; [by rewrite Ha|].
      cbn. by rewrite Hc. }
    eapply no_panic_bind; [by apply binary_loop_ok|]. intros [stk out] [Hcs Hjs]. cbn in Hcs, Hjs |- *.
    assert (parser_ok {| output := out ++ match jmp_item op with Some j => [j] | None => [] end;
      operator_stack := (TBinary op, (λ _, length out) <$> jmp_item (Regex := Regex) op) :: stk; arg_count := arg_count p1 |}) as Hok.
    { split; cbn [operator_stack arg_count output]; [by rewrite calls_cons, Hcs|]. constructor.
      - cbn. destruct (jmp_item (Regex := Regex) op); cbn; [|done]. rewrite length_app. cbn. lia.
      - eapply jumps_ok_app; [exact Hjs|]. rewrite length_app. lia. }
    destruct (jmp_item (Regex := Regex) op); [exact Hok|]. by rewrite app_nil_r in Hok.
  - apply (no_panic_bind parser_ok); [|done]. destruct Hp as [Hc Hj]. unfold close_token.
    eapply no_panic_bind; [by apply close_loop_ok|]. intros [stk out] [Hcs Hjs]. apply close_call_ok.
    split; cbn in *; [congruence|done].
  - unfold bracket_token. destruct last; apply push_ok; try done; apply push_call_ok; try done. by apply inc_ok.
  - apply (no_panic_bind parser_ok); [|done]. destruct Hp as [Hc Hj]. unfold close_token.
    eapply no_panic_bind; [by apply close_loop_ok|]. intros [stk out] [Hcs Hjs]. apply close_call_ok.
    split; cbn in *; [congruence|done].
  - destruct Hp as [Hc Hj]. eapply no_panic_bind; [by apply comma_loop_ok|]. intros [stk out] [Hcs Hjs].
    split; cbn in *; [congruence|done].
Qed.

End no_panic.

(** *** Examples *)

(** A reader and printer of floats, and regular expressions that are literal
    texts with one group. *)
Definition no_floats : FloatText := {| f64_parse _ := None; f64_to_string _ := [] |}.
Definition literal_captures (r s : list Z) : option (list (option (list Z))) :=
  if decide (r = s) then Some [Some s] else None.
Definition sum_call (id : Z) (args : list variable) : variable :=
  fold_left (op_add (H := no_floats)) args (VInteger id).

(** [x == 3 && f(1, 2 * 2) > [7, 5][1] - -1] *)
Definition example_tree : tree (Regex := list Z) :=
  NBin And (NBin Eq (NVar 0) (NConst (CInteger 3)))
    (NBin Gt (NCall (str_bytes "f") 10 [NConst (CInteger 1); NBin Multiply (NConst (CInteger 2)) (NConst (CInteger 2))])
       (NBin Subtract (NIndex (NArray [NConst (CInteger 7); NConst (CInteger 5)]) (NConst (CInteger 1)))
          (NUn Minus (NConst (CInteger 1))))).

Example example_tree_value :
  ∃ e, parse (tokens example_tree) = POk e ∧
    eval (H := no_floats) literal_captures sum_call (λ _, VInteger 3) e [] = (VInteger 1, []) ∧
    eval (H := no_floats) literal_captures sum_call (λ _, VInteger 4) e [] = (VInteger 0, []).
Proof.
  exists {| items := compile example_tree |}. split; [|by vm_compute]. apply parse_tree.
  cbn [tree_ok example_tree]. split_and!; try done; by vm_compute.
Qed.

(** An array item that starts with a parenthesis or a unary operator is not
    counted, and the array is refused. *)
Example array_item_in_parentheses :
  parse (Regex := list Z) [TOpenBracket; TOpenParen; TVariable 0; TCloseParen; TCloseBracket]
  = PErr (WrongArguments (str_bytes "array") 0 1).
Proof. by vm_compute. Qed.
