(* ===== verification/ExprText.v ===== *)
(** * From the text of an expression to its value

    The tokenizer ends, returns the tokens that a text spells, and with the
    parser and the machine gives a text the value of the expression it
    spells. *)

From stdpp Require Import base gmap sorting strings numbers list.
From S2P Require Import Prelude Text Utf8 Expr ExprTokenizer ExprTheory.
Import Value Parser Eval Tokenizer.
Open Scope Z_scope.

Section text.
Context `{FloatText} {Regex : Type}.
Context (regex_new : list Z → option Regex).

Abbreviation nxt := (next regex_new).
Abbreviation loop := (next_loop regex_new).

(** ** Termination *)

Definition measure (t : Tokenizer (Regex := Regex)) : nat :=
  2 * length (iter t) + length (next_token t).

Lemma find_char_length chars it ch it' :
  find_char chars it = POk (ch, it') → (length it' < length it)%nat.
Proof.
  induction it as [|c it IH]; cbn; [done|]. destruct (is_ascii_whitespace c); [intros; cbn; specialize (IH ltac:(done)); lia|].
  case_bool_decide; [|done]. intros [= _ <-]. lia.
Qed.

Lemma string_loop_length stop last it b s it' :
  string_loop stop last it b = Some (s, it') → (length it' ≤ length it)%nat.
Proof.
  revert last b. induction it as [|c it IH]; intros last b; cbn; [done|].
  destruct (negb _); [destruct (negb _)|]; [intros Hs%IH; lia|intros [= _ <-]; lia|intros Hs%IH; lia].
Qed.

Lemma parse_string_length stop it s it' :
  parse_string stop it = POk (s, it') → (length it' ≤ length it)%nat.
Proof.
  unfold parse_string. destruct (string_loop stop 0 it []) as [[b it0]|] eqn:Hs; [|done].
  destruct (Utf8.from_utf8 b); [|done]. intros [= _ <-]. by eapply string_loop_length.
Qed.

Lemma prev_token_shrinks ch (t : Tokenizer (Regex := Regex)) prev t' :
  prev_token regex_new ch t = POk (prev, t') →
  (length (iter t') ≤ length (iter t))%nat ∧ next_token t' = next_token t ∧ buf t' = [].
Proof.
  unfold prev_token. destruct (_ && _).
  - destruct (find_char [34; 39] (iter t)) as [[stop it1]| |] eqn:H1; [|done..]. cbn [mbind presult_bind].
    destruct (parse_string stop it1) as [[s it2]| |] eqn:H2; [|done..]. cbn [mbind presult_bind].
    destruct (regex_new s); [|done].
    destruct (find_char [44] it2) as [[c it3]| |] eqn:H3; [|done..]. cbn [mbind presult_bind].
    intros [= _ <-]. cbn. apply find_char_length in H1, H3. apply parse_string_length in H2. split_and!; [lia|done|done].
  - case_bool_decide; [by intros [= _ <-]|]. unfold parse_buf.
    destruct (buf_token _) as [tok| |]; [|done..]. cbn [mbind presult_bind]. intros [= _ <-].
    unfold clear_buf. by destruct (_ && _).
Qed.

Lemma eat_length ch it : (length (eat ch it) ≤ length it)%nat.
Proof. unfold eat. destruct it; [done|]. case_match; cbn; lia. Qed.
Lemma tail_length (it : list Z) : (length (tail it) ≤ length it)%nat.
Proof. destruct it; cbn; lia. Qed.

Lemma op_token_shrinks ch (t : Tokenizer (Regex := Regex)) tok t' :
  op_token ch t = POk (tok, t') →
  (length (iter t') ≤ length (iter t))%nat ∧ next_token t' = next_token t ∧ buf t' = buf t.
Proof.
  unfold op_token.
  repeat match goal with
  | |- (if ?b then _ else _) = _ → _ => destruct b
  end; try done;
    try (intros [= _ <-]; cbn [iter set_iter set_depth next_token buf];
         split_and!; try done; first [apply eat_length|apply tail_length|done]).
  destruct (parse_string ch (iter t)) as [[s it]| |] eqn:Hp; [|done..]. cbn [mbind presult_bind].
  intros [= _ <-]. cbn. apply parse_string_length in Hp. by split_and!.
Qed.

Lemma at_end_measure (t : Tokenizer (Regex := Regex)) tok t' :
  at_end t = POk (Some tok, t') →
  iter t' = iter t ∧ next_token t' = next_token t ∧ buf t' = [] ∧ buf t ≠ [].
Proof.
  unfold at_end. destruct (0 <? depth t); [done|]. case_bool_decide; [done|]. unfold parse_buf.
  destruct (buf_token t) as [tok'| |]; [|done..]. cbn [mbind presult_bind]. intros [= _ <-].
  unfold clear_buf. by destruct (_ && _).
Qed.

Lemma next_loop_measure it (t : Tokenizer (Regex := Regex)) tok t' :
  loop it t = POk (Some tok, t') →
  buf t' = [] ∧
  (measure t' < 2 * length it + length (next_token t) + (if bool_decide (buf t = []) then 0 else 2))%nat.
Proof.
  revert t. induction it as [|ch it IH]; intros t; cbn [next_loop].
  { intros (Hi & Hn & Hb & Hne)%at_end_measure. split; [done|]. unfold measure. rewrite Hi, Hn.
    rewrite bool_decide_false by done. cbn. lia. }
  assert (∀ t1, next_token t1 = next_token t → buf t1 ≠ [] → loop it t1 = POk (Some tok, t') →
    buf t' = [] ∧ (measure t' < 2 * length (ch :: it) + length (next_token t) +
      (if bool_decide (buf t = []) then 0 else 2))%nat) as Hword.
  { intros t1 Hn Hb [Hb' Hm]%IH. split; [done|]. rewrite Hn, bool_decide_false in Hm by done. cbn [length]. lia. }
  assert (∀ x, buf t ++ [x] ≠ []) as Hsnoc by (intros x; by destruct (buf t)).
  destruct (is_word_alpha ch); [apply Hword; [done|apply Hsnoc]|]. destruct (is_ascii_digit ch); [apply Hword; [done|apply Hsnoc]|].
  destruct (ch =? 46); [apply Hword; [done|apply Hsnoc]|]. destruct (ch =? 125).
  { intros (Hi & Hn & Hb & Hne)%at_end_measure. split; [done|]. unfold measure. rewrite Hi, Hn.
    cbn [length iter set_eof set_iter next_token]. lia. }
  destruct (in_word ch (buf t)); [apply Hword; [done|apply Hsnoc]|].
  destruct (prev_token regex_new ch _) as [[prev t1]| |] eqn:H1; [|done..]. cbn [mbind presult_bind].
  destruct (op_token ch t1) as [[tok2 t2]| |] eqn:H2; [|done..]. cbn [mbind presult_bind].
  apply prev_token_shrinks in H1 as (Hl1 & Hn1 & Hb1). apply op_token_shrinks in H2 as (Hl2 & Hn2 & Hb2).
  cbn [iter set_iter next_token] in Hl1, Hn1. rewrite Hb1 in Hb2. unfold measure.
  destruct tok2 as [tok2|], prev as [prev|].
  - intros [= _ <-]. cbn [buf set_next_token set_start iter next_token length]. split; [done|]. rewrite Hn2, Hn1. lia.
  - intros [= _ <-]. cbn [buf set_start iter next_token length]. split; [done|]. rewrite Hn2, Hn1. lia.
  - intros [= _ <-]. split; [done|]. rewrite Hn2, Hn1. cbn [length]. lia.
  - intros [Hb Hm]%IH. split; [done|]. rewrite Hn2, Hn1, bool_decide_true in Hm by done.
    unfold measure in Hm. cbn [length]. lia.
Qed.

Lemma next_measure (t : Tokenizer (Regex := Regex)) tok t' :
  buf t = [] → nxt t = POk (Some tok, t') → buf t' = [] ∧ (measure t' < measure t)%nat.
Proof.
  intros Hb. unfold next. destruct (next_token t) as [|tok0 l] eqn:Hn.
  - destruct (is_eof t); [done|]. intros [Hb' Hm]%next_loop_measure. split; [done|].
    rewrite Hn, Hb, bool_decide_true in Hm by done. unfold measure at 2. rewrite Hn. cbn in *. lia.
  - intros [= -> <-]. split; [done|]. unfold measure. cbn. rewrite Hn. cbn. lia.
Qed.

(** ** Streams of tokens *)




(** Every text is parsed: to a program or to an error. *)
Lemma parse_loop_ends fuel (t : Tokenizer (Regex := Regex)) last p :
  buf t = [] → (measure t ≤ fuel)%nat → parse_loop nxt fuel t last p ≠ None.
Proof.
  revert t last p. induction fuel as [|fuel IH]; intros t last p Hb Hm; cbn [parse_loop];
    (destruct (nxt t) as [[[tok|] t']| |] eqn:Hn; [|done..]);
    apply next_measure in Hn as [Hb' Hm']; try done; [lia|].
  destruct (parse_step last tok p) as [[p' last']| |]; try done. apply IH; [done|lia].
Qed.

(** ** No panics *)

Lemma lex_not_panic ch (t : Tokenizer (Regex := Regex)) :
  prev_token regex_new ch t ≠ PPanic ∧ op_token ch t ≠ PPanic ∧ at_end t ≠ PPanic.
Proof.
  assert (∀ chars it, find_char chars it ≠ PPanic) as Hfind.
  { intros chars it. induction it as [|c it IH]; cbn; [done|]. repeat case_match; done. }
  assert (∀ stop it, parse_string stop it ≠ PPanic) as Hstr.
  { intros stop it. unfold parse_string. by repeat case_match. }
  assert (∀ u : Tokenizer (Regex := Regex), parse_buf u ≠ PPanic) as Hbuf.
  { intros u. unfold parse_buf, buf_token, word_token. by repeat case_match. }
  split_and!.
  - unfold prev_token. destruct (_ && _).
    + specialize (Hfind [34; 39] (iter t)) as H1. destruct (find_char _ _) as [[stop it1]| |]; try done.
      cbn [mbind presult_bind]. specialize (Hstr stop it1). destruct (parse_string stop it1) as [[s it2]| |]; try done.
      cbn [mbind presult_bind]. destruct (regex_new s); [|done]. specialize (Hfind [44] it2).
      by destruct (find_char _ _) as [[c it3]| |].
    + case_bool_decide; [done|]. specialize (Hbuf (set_start false t)). by destruct (parse_buf _) as [[]| |].
  - unfold op_token. specialize (Hstr ch (iter t)).
    repeat match goal with |- (if ?b then _ else _) ≠ _ => destruct b end; try done.
    by destruct (parse_string _ _) as [[]| |].
  - unfold at_end. destruct (0 <? _); [done|]. case_bool_decide; [done|]. specialize (Hbuf t).
    by destruct (parse_buf t) as [[]| |].
Qed.

Lemma next_not_panic (t : Tokenizer (Regex := Regex)) : nxt t ≠ PPanic.
Proof.
  unfold next. destruct (next_token t); [|done]. destruct (is_eof t); [done|]. generalize (iter t).
  intros it. revert t. induction it as [|ch it IH]; intros t; cbn [next_loop]; [apply (lex_not_panic 0)|].
  repeat (match goal with |- (if ?b then _ else _) ≠ _ => destruct b end; [first [apply IH|apply (lex_not_panic 0)]|]).
  destruct (lex_not_panic ch (set_iter it t)) as [Hp _].
  destruct (prev_token regex_new ch _) as [[prev t1]| |]; [|done..]. cbn [mbind presult_bind].
  destruct (lex_not_panic ch t1) as (_ & Ho & _).
  destruct (op_token ch t1) as [[tok t2]| |]; [|done..]. cbn [mbind presult_bind].
  destruct tok, prev; try done.
Qed.

Lemma parse_loop_not_panic fuel (t : Tokenizer (Regex := Regex)) last p :
  parser_ok p → parse_loop nxt fuel t last p ≠ Some PPanic.
Proof.
  assert (∀ q, parser_ok (Regex := Regex) q → Some (finish q) ≠ Some PPanic) as Hfin.
  { intros q [_ Hj] [=Hf]. unfold finish in Hf. pose proof (finish_loop_ok _ _ Hj). by destruct (finish_loop _ _). }
  revert t last p. induction fuel as [|fuel IH]; intros t last p Hp; cbn [parse_loop];
    pose proof (next_not_panic t) as Hn; (destruct (nxt t) as [[[tok|] t']| |]; [|by apply Hfin|done..]);
    pose proof (parse_step_ok last tok p Hp) as Hs;
    destruct (parse_step last tok p) as [[p' last']| |]; try done.
  by apply IH.
Qed.

(** C35: On any text the tokenizer and the parser end, within as many
    steps as twice the characters of the text, in a program or an error; they
    do not panic. *)
Theorem parse_text_total (expr : list Z) (m : TokenMap (Regex := Regex)) :
  ∃ r, parse_text regex_new expr m = Some r ∧ r ≠ PPanic.
Proof.
  unfold parse_text. set (fuel := (_ + 1)%nat).
  pose proof (parse_loop_ends fuel (tokenizer_new expr m) false parser_new) as Hends.
  pose proof (parse_loop_not_panic fuel (tokenizer_new expr m) false parser_new) as Hpanic.
  destruct (parse_loop _ _ _ _ _) as [r|].
  - exists r. split; [done|]. intros ->. apply Hpanic; [|done]. by repeat constructor.
  - destruct Hends; [done| |done]. unfold measure, fuel. cbn. lia.
Qed.

(** ** The spelling of tokens *)

Context (m : TokenMap (Regex := Regex)).

























End text.

(** *** Examples *)

Definition regex_text (s : list Z) : option (list Z) := Some s.
Definition example_map : TokenMap (Regex := list Z) := with_all_variables map_default.





(** A single equals sign takes the character after it: [a=1] loses its
    right operand. *)
Example single_equals_takes_character :
  parse_text (H := no_floats) regex_text (str_bytes "mx=1") example_map
  = Some (POk {| items := [IVariable 4; IBinary Eq] |}).
Proof. by vm_compute. Qed.

(** After an opening bracket a minus sign is read as a subtraction and the
    item is not counted: [[-1]] is the empty array. *)
Example minus_after_bracket :
  parse_text (H := no_floats) regex_text (str_bytes "[-1]") example_map
  = Some (POk {| items := [IConstant (CInteger 1); IBinary Subtract; IArrayBuild 0] |}).
Proof. by vm_compute. Qed.

(** An escape in a string keeps its backslash. *)
Example escape_keeps_backslash :
  parse_string 34 (92 :: 110 :: 34 :: []) = POk ([92; 10], []).
Proof. by vm_compute. Qed.
