(* ===== verification/Words.v ===== *)
(** * The word tokenizer

    [WordTokenizer] of nlp/src/tokenizers/word.rs, which splits the texts that
    the store indexes and searches into lowercase words.  A text is its list
    of characters (scalar values); positions are byte offsets of its UTF-8.
    The character tables of the standard library are the class [Unicode]. *)

From stdpp Require Import base gmap sorting strings numbers list.
From S2P Require Import Prelude Utf8 Text.
Open Scope Z_scope.

Lemma filter_all {A} (P : A → Prop) `{∀ x, Decision (P x)} (l : list A) :
  (∀ x, x ∈ l → P x) → filter P l = l.
Proof.
  induction l as [|x l IH]; intros HP; [done|]. rewrite filter_cons.
  rewrite decide_True by (apply HP; by left). f_equal. apply IH. intros; apply HP; by right.
Qed.
Lemma filter_none {A} (P : A → Prop) `{∀ x, Decision (P x)} (l : list A) :
  (∀ x, x ∈ l → ¬ P x) → filter P l = [].
Proof. intros HP. apply elem_of_nil_inv. intros x [Hx Hin]%list_elem_of_filter. by apply (HP x). Qed.

(** [char::is_alphanumeric], [char::is_uppercase] and [str::to_lowercase] *)
Class Unicode := {
  is_alphanumeric : Z → bool;
  is_uppercase : Z → bool;
  to_lowercase : list Z → list Z;
}.

(** The tables restricted to ASCII. *)
Definition ascii_unicode : Unicode := {|
  is_alphanumeric := is_ascii_alphanumeric;
  is_uppercase := is_ascii_upper;
  to_lowercase := fmap to_ascii_lowercase;
|}.

Module Words.

Record Token := { word : list Z; from : nat; to : nat }.

Definition token_new (offset len : nat) (word : list Z) : Token :=
  {| word := word; from := offset; to := offset + len |}.

(** [char::len_utf8] and [str::len] *)
Definition len_utf8 (ch : Z) : nat := length (Utf8.encode_utf8 ch).
Definition text_len (text : list Z) : nat := sum_list (len_utf8 <$> text).

(** [str::char_indices], from an offset *)
Fixpoint char_indices (pos : nat) (text : list Z) : list (nat * Z) :=
  match text with
  | [] => []
  | ch :: text => (pos, ch) :: char_indices (pos + len_utf8 ch) text
  end.

(** [text[start..end]], for offsets of characters *)
Definition text_slice (text : list Z) (start end_ : nat) : list Z :=
  snd <$> filter (λ p, (start ≤ p.1)%nat ∧ (p.1 < end_)%nat) (char_indices 0 text).

Section tokenizer.
Context `{Unicode}.

Record WordTokenizer := {
  max_token_length : nat;
  text : list Z;
  iterator : list (nat * Z);
}.

Definition tokenizer_new (text : list Z) (max_token_length : nat) : WordTokenizer :=
  {| max_token_length := max_token_length; text := text; iterator := char_indices 0 text |}.

(** The [filter_map(..).next()] that takes the rest of a word and the
    character after it. *)
Fixpoint word_end (it : list (nat * Z)) (upper : bool) : option nat * bool * list (nat * Z) :=
  match it with
  | [] => (None, upper, [])
  | (pos, ch) :: it =>
      if is_alphanumeric ch then word_end it (upper || is_uppercase ch)
      else (Some pos, upper, it)
  end.

Fixpoint next_loop (fuel : nat) (t : WordTokenizer) : option Token * WordTokenizer :=
  match fuel with
  | O => (None, t)
  | S fuel =>
      match iterator t with
      | [] => (None, t)
      | (token_start, ch) :: it =>
          let with_it it := {| max_token_length := max_token_length t; text := text t;
                               iterator := it |} in
          if is_alphanumeric ch then
            let '(end_, upper, it) := word_end it (is_uppercase ch) in
            let token_end := default (text_len (text t)) end_ in
            let token_len := (token_end - token_start)%nat in
            if bool_decide (token_start < token_end)%nat
               && bool_decide (token_len ≤ max_token_length t)%nat
            then
              let w := text_slice (text t) token_start token_end in
              (Some (token_new token_start token_len (if upper then to_lowercase w else w)),
               with_it it)
            else next_loop fuel (with_it it)
          else next_loop fuel (with_it it)
      end
  end.

(** [Iterator::next]: every turn of the loop takes a character. *)
Definition next (t : WordTokenizer) : option Token * WordTokenizer :=
  next_loop (length (iterator t)) t.

(** [.collect()] *)
Fixpoint collect_loop (fuel : nat) (t : WordTokenizer) : list Token :=
  match fuel with
  | O => []
  | S fuel =>
      match next t with
      | (Some token, t) => token :: collect_loop fuel t
      | (None, _) => []
      end
  end.
Definition collect (t : WordTokenizer) : list Token := collect_loop (S (length (iterator t))) t.

(** The words of a text as the store indexes them: UTF-8 strings. *)
Definition utf8_bytes (w : list Z) : list Z := mjoin (Utf8.encode_utf8 <$> w).
Definition word_tokens (text : list Z) (max_token_length : nat) : list (list Z) :=
  (λ t, utf8_bytes (word t)) <$> collect (tokenizer_new text max_token_length).

(** ** Reference: the maximal runs of alphanumeric characters *)

Fixpoint run (chars : list Z) : list Z * list Z :=
  match chars with
  | [] => ([], [])
  | ch :: rest =>
      if is_alphanumeric ch then let '(w, rest') := run rest in (ch :: w, rest') else ([], chars)
  end.

(** The runs with their offsets; [open] says whether the text so far ends
    inside one. *)
Fixpoint runs (open : bool) (pos : nat) (chars : list Z) : list (nat * list Z) :=
  match chars with
  | [] => []
  | ch :: rest =>
      let later := runs (is_alphanumeric ch) (pos + len_utf8 ch) rest in
      if is_alphanumeric ch && negb open then (pos, ch :: (run rest).1) :: later else later
  end.

Definition lower_word (w : list Z) : list Z := if existsb is_uppercase w then to_lowercase w else w.

Definition run_token (max : nat) (r : nat * list Z) : option Token :=
  if decide (text_len r.2 ≤ max)%nat
  then Some (token_new r.1 (text_len r.2) (lower_word r.2)) else None.
End tokenizer.

(** ** Facts *)

Lemma len_utf8_pos ch : (1 ≤ len_utf8 ch)%nat.
Proof. unfold len_utf8, Utf8.encode_utf8. repeat case_match; cbn; lia. Qed.

Lemma text_len_cons ch w : text_len (ch :: w) = (len_utf8 ch + text_len w)%nat.
Proof. done. Qed.
Lemma text_len_app w1 w2 : text_len (w1 ++ w2) = (text_len w1 + text_len w2)%nat.
Proof. induction w1 as [|ch w1 IH]; [done|]. cbn [app]. rewrite !text_len_cons. lia. Qed.

Lemma char_indices_app pos l1 l2 :
  char_indices pos (l1 ++ l2) = char_indices pos l1 ++ char_indices (pos + text_len l1) l2.
Proof.
  revert pos. induction l1 as [|ch l1 IH]; intros pos; cbn [char_indices app].
  - by rewrite Nat.add_0_r.
  - rewrite IH, text_len_cons. do 3 f_equal. lia.
Qed.

Lemma char_indices_length pos l : length (char_indices pos l) = length l.
Proof. revert pos. induction l; intros; cbn; auto. Qed.

Lemma char_indices_bounds pos l p ch :
  (p, ch) ∈ char_indices pos l → (pos ≤ p < pos + text_len l)%nat.
Proof.
  revert pos. induction l as [|c l IH]; intros pos; cbn [char_indices]; [by intros ?%elem_of_nil|].
  rewrite text_len_cons. pose proof (len_utf8_pos c).
  intros [[= -> ->]|Hin]%elem_of_cons; [lia|]. apply IH in Hin. lia.
Qed.

Lemma text_slice_middle l1 w l2 :
  text_slice (l1 ++ w ++ l2) (text_len l1) (text_len l1 + text_len w) = w.
Proof.
  unfold text_slice. rewrite !char_indices_app, !filter_app, !fmap_app, Nat.add_0_l.
  rewrite (filter_none _ (char_indices 0 l1)), (filter_none _ (char_indices _ l2)), app_nil_r.
  - cbn [fmap list_fmap app]. assert (filter (λ p, text_len l1 ≤ p.1 ∧ p.1 < text_len l1 + text_len w)%nat
      (char_indices (text_len l1) w) = char_indices (text_len l1) w) as ->.
    { apply filter_all. intros [p ch] Hi.
      by apply char_indices_bounds in Hi. }
    generalize (text_len l1). induction w as [|c w IH]; intros n; [done|]. cbn. by rewrite IH.
  - intros [p ch] Hin%char_indices_bounds. cbn. lia.
  - intros [p ch] Hin%char_indices_bounds. cbn. lia.
Qed.

Section theory.
Context `{Unicode}.

Lemma word_run_app chars : (run chars).1 ++ (run chars).2 = chars.
Proof.
  induction chars as [|ch chars IH]; [done|]. cbn [run]. destruct (is_alphanumeric ch); [|done].
  destruct (run chars). cbn in *. by rewrite IH.
Qed.

Lemma word_end_run pos chars upper :
  let '(w, rest) := run chars in
  word_end (char_indices pos chars) upper
  = match rest with
    | [] => (None, upper || existsb is_uppercase w, [])
    | ch :: rest => (Some (pos + text_len w)%nat, upper || existsb is_uppercase w,
                     char_indices (pos + text_len w + len_utf8 ch) rest)
    end.
Proof.
  revert pos upper. induction chars as [|ch chars IH]; intros pos upper; cbn [run char_indices word_end].
  - by rewrite orb_false_r.
  - destruct (is_alphanumeric ch) eqn:Hch.
    + specialize (IH (pos + len_utf8 ch)%nat (upper || is_uppercase ch)).
      destruct (run chars) as [w rest]. rewrite IH. cbn [existsb]. rewrite orb_assoc, text_len_cons.
      destruct rest; [done|]. by rewrite !Nat.add_assoc.
    + cbn [existsb]. rewrite orb_false_r. change (text_len []) with 0%nat. by rewrite Nat.add_0_r.
Qed.

(** After a run the next characters are not inside it. *)
Lemma runs_after pos chars :
  runs true pos chars = runs true (pos + text_len (run chars).1) (run chars).2.
Proof.
  revert pos. induction chars as [|ch chars IH]; intros pos; [done|]. cbn [runs run].
  destruct (is_alphanumeric ch) eqn:Hch; cbn [andb negb].
  - rewrite IH. destruct (run chars) as [w rest]. cbn [fst snd]. rewrite text_len_cons.
    by rewrite Nat.add_assoc.
  - cbn [fst snd runs]. rewrite Hch. cbn [andb]. change (text_len []) with 0%nat.
    by rewrite Nat.add_0_r.
Qed.

Lemma run_rest_head chars ch rest : (run chars).2 = ch :: rest → is_alphanumeric ch = false.
Proof.
  induction chars as [|c chars IH]; [done|]. cbn [run]. destruct (is_alphanumeric c) eqn:Hc.
  - destruct (run chars). exact IH.
  - by intros [= -> ->].
Qed.

Definition at_ (max : nat) (pre chars : list Z) : WordTokenizer :=
  {| max_token_length := max; text := pre ++ chars; iterator := char_indices (text_len pre) chars |}.

Lemma run_length chars : (length (run chars).2 ≤ length chars)%nat.
Proof. rewrite <-(word_run_app chars) at 2. rewrite length_app. lia. Qed.

(** The rest of the text after a word and the character that ends it. *)
Lemma word_end_rest pre ch chars :
  let w := ch :: (run chars).1 in
  let r := word_end (char_indices (text_len pre + len_utf8 ch) chars) (is_uppercase ch) in
  let whole := pre ++ ch :: chars in
  ∃ pre' chars', r.2 = char_indices (text_len pre') chars' ∧ pre' ++ chars' = whole ∧
    (length chars' ≤ length chars)%nat ∧
    runs true (text_len pre + len_utf8 ch) chars = runs false (text_len pre') chars' ∧
    default (text_len whole) r.1.1 = (text_len pre + text_len w)%nat ∧
    r.1.2 = existsb is_uppercase w ∧ whole = pre ++ w ++ (run chars).2.
Proof.
  cbn zeta. pose proof (word_end_run (text_len pre + len_utf8 ch) chars (is_uppercase ch)) as Hw.
  pose proof (word_run_app chars) as Happ. pose proof (run_length chars) as Hrl.
  pose proof (run_rest_head chars) as Hhead. rewrite runs_after.
  destruct (run chars) as [w rest]. cbn [fst snd] in *. rewrite Hw.
  assert (ch :: chars = (ch :: w) ++ rest) as Hsplit by (cbn; by rewrite Happ).
  rewrite Hsplit. destruct rest as [|c rest]; cbn [fst snd default].
  - exists (pre ++ ch :: w), []. rewrite !app_nil_r. split_and!; try done.
    by rewrite text_len_app.
  - exists (pre ++ (ch :: w) ++ [c]), rest. split_and!; try done.
    + f_equal. rewrite !text_len_app, text_len_cons.
      change (text_len [c]) with (len_utf8 c + 0)%nat. lia.
    + by rewrite <-!app_assoc.
    + cbn in Hrl. lia.
    + cbn [runs]. rewrite (Hhead c rest eq_refl). cbn [andb]. f_equal.
      rewrite !text_len_app, text_len_cons. change (text_len [c]) with (len_utf8 c + 0)%nat. lia.
    + unfold id. rewrite text_len_cons. lia.
Qed.

(** The tokens from a position on are those of the runs from there on. *)
Lemma next_runs max fuel pre chars :
  (length chars ≤ fuel)%nat →
  let toks := omap (run_token max) (runs false (text_len pre) chars) in
  match next_loop fuel (at_ max pre chars) with
  | (Some tok, t) => ∃ pre' chars', t = at_ max pre' chars' ∧ (length chars' < length chars)%nat ∧
      toks = tok :: omap (run_token max) (runs false (text_len pre') chars')
  | (None, _) => toks = []
  end.
Proof.
  revert pre chars. induction fuel as [|fuel IH]; intros pre chars Hf.
  { by destruct chars; [|cbn in Hf; lia]. }
  destruct chars as [|ch chars]; [done|]. cbn [length] in *.
  cbn [next_loop at_ iterator char_indices runs max_token_length text].
  destruct (is_alphanumeric ch) eqn:Hch; cbn [andb negb].
  - destruct (word_end_rest pre ch chars)
      as (pre' & chars' & Hit & Htext & Hlen & Hruns & Hdef & Hup & Hwhole). cbn zeta in *.
    destruct (word_end _ _) as [[end_ upper] it]. cbn [fst snd] in *. subst it upper.
    rewrite Hdef, Hruns. cbn [omap list_omap]. set (w := ch :: (run chars).1) in *.
    replace (text_len pre + text_len w - text_len pre)%nat with (text_len w) by lia.
    rewrite (bool_decide_true (text_len pre < _)%nat)
      by (unfold w; rewrite text_len_cons; pose proof (len_utf8_pos ch); lia). cbn [andb].
    change (run_token max (text_len pre, w)) with (if decide (text_len w ≤ max)%nat
      then Some (token_new (text_len pre) (text_len w) (lower_word w)) else None).
    destruct (decide (text_len w ≤ max)%nat) as [Hmax|Hmax].
    + rewrite bool_decide_true by done. exists pre', chars'. unfold at_. rewrite Htext.
      split_and!; [done|lia|]. by rewrite Hwhole, text_slice_middle.
    + rewrite bool_decide_false by done. rewrite <-Htext. fold (at_ max pre' chars').
      specialize (IH pre' chars' ltac:(lia)). cbn zeta in IH.
      destruct (next_loop fuel (at_ max pre' chars')) as [[tok|] t]; [|exact IH].
      destruct IH as (p2 & c2 & -> & Hl2 & Htoks). exists p2, c2. split_and!; [done|lia|exact Htoks].
  - specialize (IH (pre ++ [ch]) chars ltac:(lia)). cbn zeta in IH.
    assert (text_len (pre ++ [ch]) = text_len pre + len_utf8 ch)%nat as Hlen.
    { rewrite text_len_app. change (text_len [ch]) with (len_utf8 ch + 0)%nat. lia. }
    unfold at_ in IH at 1. rewrite Hlen, <-app_assoc in IH. cbn [app] in IH.
    destruct (next_loop fuel _) as [[tok|] t]; [|done].
    destruct IH as (p2 & c2 & -> & Hl2 & Htoks). exists p2, c2. split_and!; [done|lia|done].
Qed.

Lemma collect_runs max fuel pre chars :
  (length chars < fuel)%nat →
  collect_loop fuel (at_ max pre chars) = omap (run_token max) (runs false (text_len pre) chars).
Proof.
  revert pre chars. induction fuel as [|fuel IH]; intros pre chars Hf; [lia|]. cbn [collect_loop].
  pose proof (next_runs max (length (char_indices (text_len pre) chars)) pre chars) as Hn.
  rewrite char_indices_length in Hn. specialize (Hn ltac:(lia)). unfold next. cbn [at_ iterator].
  rewrite char_indices_length. fold (at_ max pre chars). cbn zeta in Hn.
  destruct (next_loop _ _) as [[tok|] t]; [|done].
  destruct Hn as (p2 & c2 & -> & Hl & ->). f_equal. apply IH. lia.
Qed.

(** C40: The tokens of a text are its maximal runs of alphanumeric characters that
    are not longer than the limit, in order, with their positions and in lower
    case. *)
Theorem word_tokens_exact text max :
  collect (tokenizer_new text max) = omap (run_token max) (runs false 0 text).
Proof.
  unfold collect, tokenizer_new. cbn [iterator]. rewrite char_indices_length.
  exact (collect_runs max (S (length text)) [] text ltac:(lia)).
Qed.
End theory.
End Words.
