(* ===== verification/Query.v ===== *)
(** * Queries on the store

    [store/src/query]: filters over documents (filter.rs), sorting and paging
    of their results (sort.rs), the lookup and revocation of permissions
    (acl.rs), and the constructors of query/mod.rs.  The set of words of a
    [HashSet] is listed by [hash_set_iter], whose order is unspecified. *)

From stdpp Require Import base gmap sorting strings numbers list.
From S2P Require Import Prelude Codec Keys Roaring Kv Batch Commit Read Store ClearLoop Text Words.
Open Scope Z_scope.
Open Scope bytes_scope.

(** ** Values *)

(** [Deserialize for u32], [Deserialize for u64] *)
Definition u32_deserialize (bytes : list Z) : result Z :=
  if decide (length bytes = U32_LEN) then Ok (from_be_bytes bytes)
  else Err (InternalError "Failed to deserialize u32").
Definition u64_deserialize (bytes : list Z) : result Z :=
  if decide (length bytes = U64_LEN) then Ok (from_be_bytes bytes)
  else Err (InternalError "Failed to deserialize u64").

(** ** Filters and comparators *)

Inductive Operator := LowerThan | LowerEqualThan | GreaterThan | GreaterEqualThan | Equal.

(** The [text] of [HasText] is its list of characters. *)
Inductive Filter (B : Type) :=
  | MatchValue (field : Z) (op : Operator) (value : list Z)
  | HasText (field : Z) (text : list Z) (tokenize : bool)
  | InBitmap (class : BitmapClass Z)
  | DocumentSet (set : B)
  | And
  | Or
  | Not
  | End_.
Arguments MatchValue {_} _ _ _.
Arguments HasText {_} _ _ _.
Arguments InBitmap {_} _.
Arguments DocumentSet {_} _.
Arguments And {_}.
Arguments Or {_}.
Arguments Not {_}.
Arguments End_ {_}.

Inductive Comparator (B : Type) :=
  | CmpField (field : Z) (ascending : bool)
  | CmpDocumentSet (set : B) (ascending : bool).
Arguments CmpField {_} _ _.
Arguments CmpDocumentSet {_} _ _.

Record ResultSet (B : Type) := { rs_account_id : Z; rs_collection : Z; results : B }.
Arguments rs_account_id {_} _.
Arguments rs_collection {_} _.
Arguments results {_} _.

Record SortedResultSet := { srs_position : Z; srs_ids : list Z; found_anchor : bool }.

Definition apply_mask {B} `{RoaringBitmap B} (r : ResultSet B) (mask : B) : ResultSet B :=
  {| rs_account_id := rs_account_id r; rs_collection := rs_collection r;
     results := rb_bitand (results r) mask |}.

(** The constructors [Filter::cond], [eq], [lt], [le], [gt], [ge],
    [has_text], [has_text_token], [is_in_bitmap], [is_in_set]; the value is
    given serialized. *)
Section constructors.
Context {B : Type}.
Definition cond (field : Z) (op : Operator) (value : list Z) : Filter B := MatchValue field op value.
Definition filter_eq (field : Z) (value : list Z) : Filter B := MatchValue field Equal value.
Definition filter_lt (field : Z) (value : list Z) : Filter B := MatchValue field LowerThan value.
Definition filter_le (field : Z) (value : list Z) : Filter B :=
  MatchValue field LowerEqualThan value.
Definition filter_gt (field : Z) (value : list Z) : Filter B := MatchValue field GreaterThan value.
Definition filter_ge (field : Z) (value : list Z) : Filter B :=
  MatchValue field GreaterEqualThan value.
Definition has_text (field : Z) (text : list Z) : Filter B := HasText field text true.
Definition has_text_token (field : Z) (text : list Z) : Filter B := HasText field text true.
Definition is_in_bitmap (field : Z) (value : TagValue Z) : Filter B := InBitmap (Tag field value).
Definition is_in_set (set : B) : Filter B := DocumentSet set.
End constructors.

(** ** [Store::filter] *)

(** The operator of a [State]: only [And], [Or] and [Not] open a group. *)
Inductive Logical := LAnd | LOr | LNot.
#[global] Instance logical_eq_dec : EqDecision Logical.
Proof. solve_decision. Defined.

Definition op_matches (op : Operator) (value match_value : list Z) : bool :=
  match op with
  | LowerThan => bool_decide (value <ᵇ match_value)
  | LowerEqualThan => bool_decide (value ≤ᵇ match_value)
  | GreaterThan => bool_decide (match_value <ᵇ value)
  | GreaterEqualThan => bool_decide (match_value ≤ᵇ value)
  | Equal => bool_decide (value = match_value)
  end.

(** The bounds of the keys that [range_to_bitmap] visits. *)
Definition range_bounds (account_id collection field : Z) (match_value : list Z) (op : Operator)
  : IndexKey * IndexKey :=
  let key document_id field key :=
    {| ik_account_id := account_id; ik_collection := collection; ik_document_id := document_id;
       ik_field := field; ik_key := key |} in
  match op with
  | LowerThan => (key 0 field [], key 0 field match_value)
  | LowerEqualThan => (key 0 field [], key U32_MAX field match_value)
  | GreaterThan => (key U32_MAX field match_value, key U32_MAX (wrap 8 (field + 1)) [])
  | GreaterEqualThan => (key 0 field match_value, key U32_MAX (wrap 8 (field + 1)) [])
  | Equal => (key 0 field match_value, key U32_MAX field match_value)
  end.

(** [slice::starts_with] *)
Definition starts_with (key prefix : list Z) : bool :=
  bool_decide (take (length prefix) key = prefix).

(** [key.get(IndexKeyPrefix::len()..key.len() - U32_LEN)]; for a key shorter
    than the id the bound wraps and the slice is out of range. *)
Definition index_value (key : list Z) : result (list Z) :=
  ok_or (InternalError "Invalid key found in index")
    (if decide (U32_LEN ≤ length key)%nat
     then slice_get key index_prefix_len (length key - U32_LEN) else None).

Section filter.
Context {DB Txn : Type} `{RocksDB DB Txn} {B : Type} `{RoaringBitmap B} `{Unicode}.
Context (xxh3_64 farm_hash64 : list Z → Z) (hash_set_iter : gset (list Z) → list (list Z)).

Definition range_callback (prefix match_value : list Z) (op : Operator)
    (bm : B) (key _value : list Z) : result (B * bool) :=
  if negb (starts_with key prefix) then Ok (bm, false)
  else
    value ← index_value key;
    if op_matches op value match_value then
      document_id ← deserialize_be_u32_end key U32_LEN;
      Ok (rb_insert document_id bm, true)
    else Ok (bm, true).

Definition range_to_bitmap (db : DB) (account_id collection field : Z) (match_value : list Z)
    (op : Operator) : result (option B) :=
  let '(begin, end_) := range_bounds account_id collection field match_value op in
  let prefix := index_prefix_serialize
    {| ip_account_id := account_id; ip_collection := collection; ip_field := field |} 0 in
  bm ← iterate db (set_ascending true (no_values (params_new begin end_)))
         (range_callback prefix match_value op) rb_new;
  Ok (if rb_is_empty bm then None else Some bm).

(** The arms of [filter] that read the store: the documents of a condition. *)
Definition cond_bitmap (db : DB) (account_id collection : Z) (f : Filter B) : result (option B) :=
  match f with
  | MatchValue field op value => range_to_bitmap db account_id collection field value op
  | HasText field text true =>
      get_bitmaps_intersection db
        (text_token xxh3_64 farm_hash64 account_id collection field
           <$> hash_set_iter (list_to_set (Words.word_tokens text (Z.to_nat MAX_TOKEN_LENGTH))))
  | HasText field text false =>
      get_bitmap db (text_token xxh3_64 farm_hash64 account_id collection field
        (Words.utf8_bytes text))
  | InBitmap class =>
      get_bitmap db {| bk_account_id := account_id; bk_collection := collection;
                       bk_class := class; bk_document_id := 0 |}
  | DocumentSet set => Ok (Some set)
  | And | Or | Not | End_ => Ok None
  end.

Record State := { st_op : Logical; st_bm : option B }.
Definition state_from (op : Logical) : State := {| st_op := op; st_bm := None |}.

(** The logical operation on the bitmap of a group. *)
Definition apply_op (op : Logical) (not_mask : B) (bm result : option B) : B :=
  match bm with
  | Some dest =>
      match op, result with
      | LAnd, Some result => rb_bitand dest result
      | LAnd, None => rb_new
      | LOr, Some result => rb_bitor dest result
      | LOr, None => dest
      | LNot, Some result => rb_bitand dest (rb_bitxor result not_mask)
      | LNot, None => dest
      end
  | None =>
      match op, result with
      | LNot, Some result => rb_bitxor result not_mask
      | _, Some result => result
      | LNot, None => not_mask
      | _, None => rb_new
      end
  end.

(** [get_bitmap(document_ids)?.unwrap_or_else(RoaringBitmap::new)] *)
Definition document_ids (db : DB) (account_id collection : Z) : result B :=
  r ← get_bitmap db (document_ids_key account_id collection); Ok (default rb_new r).

(** The mask of negations, fetched when it is first needed. *)
Definition fetch_mask (db : DB) (account_id collection : Z) (op : Logical) (mask : option B)
    : result (option B) :=
  match op, mask with
  | LNot, None => m ← document_ids db account_id collection; Ok (Some m)
  | _, _ => Ok mask
  end.

(** One turn of the loop after a condition or the end of a group gave
    [result]: the new state, the mask, and whether the rest of the group is
    skipped. *)
Definition absorb (db : DB) (account_id collection : Z) (state : State) (mask : option B)
    (result : option B) : Prelude.result (State * option B * bool) :=
  mask ← fetch_mask db account_id collection (st_op state) mask;
  let bm := apply_op (st_op state) (default rb_new mask) (st_bm state) result in
  Ok ({| st_op := st_op state; st_bm := Some bm |}, mask,
      bool_decide (st_op state = LAnd) && rb_is_empty bm).

(** The loop over the filters.  [skip] is set by the short-circuit of [And],
    which discards filters up to the next [End]; [mask] is [not_mask] with
    [not_fetch]. *)
Fixpoint filter_loop (db : DB) (account_id collection : Z) (filters : list (Filter B))
    (state : State) (stack : list State) (mask : option B) (skip : bool) : result (option B) :=
  match filters with
  | [] => Ok (st_bm state)
  | f :: filters =>
      match f with
      | And | Or | Not =>
          if skip then filter_loop db account_id collection filters state stack mask skip
          else
            let op := match f with And => LAnd | Or => LOr | _ => LNot end in
            filter_loop db account_id collection filters (state_from op) (state :: stack) mask false
      | End_ =>
          match stack with
          | prev_state :: stack =>
              '(state, mask, skip) ←
                absorb db account_id collection prev_state mask (st_bm state);
              filter_loop db account_id collection filters state stack mask skip
          | [] => Ok (st_bm state)
          end
      | _ =>
          if skip then filter_loop db account_id collection filters state stack mask skip
          else
            result ← cond_bitmap db account_id collection f;
            '(state, mask, skip) ← absorb db account_id collection state mask result;
            filter_loop db account_id collection filters state stack mask skip
      end
  end.

Definition filter (db : DB) (account_id collection : Z) (filters : list (Filter B))
    : result (ResultSet B) :=
  let result bm :=
    {| rs_account_id := account_id; rs_collection := collection; results := bm |} in
  match filters with
  | [] => bm ← document_ids db account_id collection; Ok (result bm)
  | _ =>
      bm ← filter_loop db account_id collection filters (state_from LAnd) [] None false;
      Ok (result (default rb_new bm))
  end.
End filter.
Arguments State : clear implicits.

(** ** Paging *)

Record Pagination := {
  requested_position : Z;
  position : Z;
  limit : nat;
  anchor : Z;
  anchor_offset : Z;
  has_anchor : bool;
  anchor_found : bool;
  ids : list Z;
  prefix_key : option ValueKey;
  prefix_unique : bool;
}.

Definition pagination_new (limit : nat) (position : Z) (anchor : option Z) (anchor_offset : Z)
  : Pagination :=
  {| requested_position := position; position := position; limit := limit;
     anchor := default 0 anchor; anchor_offset := anchor_offset;
     has_anchor := bool_decide (anchor ≠ None); anchor_found := false; ids := [];
     prefix_key := None; prefix_unique := false |}.

(** Updates of single fields. *)
Definition set_position (v : Z) (p : Pagination) : Pagination :=
  {| requested_position := requested_position p; position := v; limit := limit p;
     anchor := anchor p; anchor_offset := anchor_offset p; has_anchor := has_anchor p;
     anchor_found := anchor_found p; ids := ids p; prefix_key := prefix_key p;
     prefix_unique := prefix_unique p |}.
Definition set_limit (v : nat) (p : Pagination) : Pagination :=
  {| requested_position := requested_position p; position := position p; limit := v;
     anchor := anchor p; anchor_offset := anchor_offset p; has_anchor := has_anchor p;
     anchor_found := anchor_found p; ids := ids p; prefix_key := prefix_key p;
     prefix_unique := prefix_unique p |}.
Definition set_anchor_offset (v : Z) (p : Pagination) : Pagination :=
  {| requested_position := requested_position p; position := position p; limit := limit p;
     anchor := anchor p; anchor_offset := v; has_anchor := has_anchor p;
     anchor_found := anchor_found p; ids := ids p; prefix_key := prefix_key p;
     prefix_unique := prefix_unique p |}.
Definition set_anchor_found (v : bool) (p : Pagination) : Pagination :=
  {| requested_position := requested_position p; position := position p; limit := limit p;
     anchor := anchor p; anchor_offset := anchor_offset p; has_anchor := has_anchor p;
     anchor_found := v; ids := ids p; prefix_key := prefix_key p;
     prefix_unique := prefix_unique p |}.
Definition push_id (v : Z) (p : Pagination) : Pagination :=
  {| requested_position := requested_position p; position := position p; limit := limit p;
     anchor := anchor p; anchor_offset := anchor_offset p; has_anchor := has_anchor p;
     anchor_found := anchor_found p; ids := ids p ++ [v]; prefix_key := prefix_key p;
     prefix_unique := prefix_unique p |}.
Definition with_prefix_key (v : ValueKey) (p : Pagination) : Pagination :=
  {| requested_position := requested_position p; position := position p; limit := limit p;
     anchor := anchor p; anchor_offset := anchor_offset p; has_anchor := has_anchor p;
     anchor_found := anchor_found p; ids := ids p; prefix_key := Some v;
     prefix_unique := prefix_unique p |}.
Definition with_prefix_unique (v : bool) (p : Pagination) : Pagination :=
  {| requested_position := requested_position p; position := position p; limit := limit p;
     anchor := anchor p; anchor_offset := anchor_offset p; has_anchor := has_anchor p;
     anchor_found := anchor_found p; ids := ids p; prefix_key := prefix_key p;
     prefix_unique := v |}.

Definition is_full (p : Pagination) : bool := bool_decide (length (ids p) = limit p).

(** [self.ids.push(id); if self.ids.len() == self.limit { return false; }] *)
Definition push_limited (id : Z) (p : Pagination) : Pagination * bool :=
  let p := push_id id p in (p, negb (is_full p)).

(** [Pagination::add] *)
Definition pg_add (prefix_id document_id : Z) (p : Pagination) : Pagination * bool :=
  let id := Z.lor (Z.shiftl prefix_id 32) document_id in
  if negb (has_anchor p) then
    if 0 <=? position p then
      if 0 <? position p then (set_position (position p - 1) p, true) else push_limited id p
    else (push_id id p, true)
  else if 0 <=? anchor_offset p then
    if negb (anchor_found p) && negb (document_id =? anchor p) then (p, true)
    else
      let p := set_anchor_found true p in
      if 0 <? anchor_offset p then (set_anchor_offset (anchor_offset p - 1) p, true)
      else push_limited id p
  else
    let found := document_id =? anchor p in
    let p := push_id id (set_anchor_found found p) in
    if found then (set_position (anchor_offset p) p, false) else (p, true).

(** Two's complement reading of a 32-bit word. *)
Definition i32_of_u32 (z : Z) : Z := if decide (z < 2 ^ 31) then z else z - 2 ^ 32.

(** [Pagination::build] *)
Definition pg_build (p : Pagination) : SortedResultSet :=
  let found := negb (has_anchor p) || anchor_found p in
  if found then
    if negb (has_anchor p) && (0 <=? requested_position p) then
      {| srs_position := if position p =? 0 then requested_position p else 0; srs_ids := ids p;
         found_anchor := found |}
    else if 0 <=? position p then
      {| srs_position := position p; srs_ids := ids p; found_anchor := found |}
    else
      let pos := Z.to_nat (Z.abs (position p)) in
      let len := length (ids p) in
      let start_offset := (if decide (pos < len)%nat then len - pos else 0)%nat in
      let end_offset := (if decide (0 < limit p)%nat then (start_offset + limit p) `min` len
                         else len)%nat in
      {| srs_position := i32_of_u32 (wrap 32 (Z.of_nat start_offset));
         srs_ids := take (end_offset - start_offset) (drop start_offset (ids p));
         found_anchor := found |}
  else {| srs_position := 0; srs_ids := ids p; found_anchor := found |}.

(** Adding documents until one is refused. *)
Fixpoint add_all (documents : list Z) (p : Pagination) : Pagination * bool :=
  match documents with
  | [] => (p, true)
  | document_id :: documents =>
      let '(p, continue) := pg_add 0 document_id p in
      if continue then add_all documents p else (p, false)
  end.

(** ** [Store::sort] *)
Section sort.
Context {DB Txn : Type} `{RocksDB DB Txn} {B : Type} `{RoaringBitmap B}.

Definition index_range (rs : ResultSet B) (field : Z) (ascending : bool)
  : IterateParams IndexKeyPrefix :=
  let key field := {| ip_account_id := rs_account_id rs; ip_collection := rs_collection rs;
                      ip_field := field |} in
  set_ascending ascending (no_values (params_new (key field) (key (wrap 8 (field + 1))))).

Definition sort_callback (acc : B * Pagination) (key _value : list Z)
    : result (B * Pagination * bool) :=
  let '(results, paginate) := acc in
  document_id ← deserialize_be_u32_end key U32_LEN;
  if rb_contains results document_id then
    let '(paginate, continue) := pg_add 0 document_id paginate in
    Ok (rb_remove document_id results, paginate, continue)
  else Ok (results, paginate, true).

(** The documents of a set first (or last). *)
Definition split_set (rs : ResultSet B) (set : B) (ascending : bool) : list B :=
  let in_set := rb_bitand (results rs) set in
  let not_in_set := rb_bitxor (results rs) in_set in
  if ascending then [in_set; not_in_set] else [not_in_set; in_set].

Definition get_prefix (db : DB) (key : ValueKey) (document_id : Z) : result (option Z) :=
  get_value u32_deserialize db (with_document_id key document_id).

(** The prefixes of the ids of a page. *)
Fixpoint obtain_prefixes (db : DB) (prefix_key : ValueKey) (ids : list Z) : result (list Z) :=
  match ids with
  | [] => Ok []
  | id :: ids =>
      prefix_id ← get_prefix db prefix_key (wrap 32 id);
      let id := match prefix_id with
                | Some prefix_id => Z.lor id (Z.shiftl prefix_id 32)
                | None => id
                end in
      ids ← obtain_prefixes db prefix_key ids;
      Ok (id :: ids)
  end.

Definition sort_single (db : DB) (rs : ResultSet B) (comparator : Comparator B)
    (paginate : Pagination) : result SortedResultSet :=
  paginate ←
    match comparator with
    | CmpField field ascending =>
        '(results, paginate) ← iterate db (index_range rs field ascending) sort_callback
                                 (results rs, paginate);
        Ok (if negb (rb_is_empty results) && negb (is_full paginate)
            then (add_all (rb_iter results) paginate).1 else paginate)
    | CmpDocumentSet set ascending =>
        Ok (add_all (mjoin (rb_iter <$> split_set rs set ascending)) paginate).1
    end;
  let sorted := pg_build paginate in
  match prefix_key paginate with
  | Some prefix_key =>
      ids ← obtain_prefixes db prefix_key (srs_ids sorted);
      Ok {| srs_position := srs_position sorted; srs_ids := ids;
            found_anchor := found_anchor sorted |}
  | None => Ok sorted
  end.

(** The ranks of the documents, one per comparator. *)
Abbreviation ranks := (gmap Z (list Z)).
Definition set_rank (pos : nat) (idx document_id : Z) (sorted_ids : ranks) : ranks :=
  <[document_id := <[pos := idx]> (default (replicate 4 0) (sorted_ids !! document_id))]> sorted_ids.

Record rank_state := {
  rk_results : B; prev_data : list Z; has_grouped_ids : bool; rk_idx : Z; sorted_ids : ranks }.

Definition rank_callback (pos : nat) (st : rank_state) (key _value : list Z)
    : result (rank_state * bool) :=
  document_id ← deserialize_be_u32_end key U32_LEN;
  if rb_contains (rk_results st) document_id then
    data ← index_value key;
    let results := rb_remove document_id (rk_results st) in
    let grouped := bool_decide (data = prev_data st) in
    let idx := if grouped then rk_idx st else wrap 32 (rk_idx st + 1) in
    Ok ({| rk_results := results; prev_data := data;
           has_grouped_ids := has_grouped_ids st || grouped; rk_idx := idx;
           sorted_ids := set_rank pos idx document_id (sorted_ids st) |},
        negb (rb_is_empty results))
  else Ok (st, true).

(** The loop over the first four comparators; it ends early when a field
    tells all documents apart. *)
Fixpoint rank_loop (db : DB) (rs : ResultSet B) (pos : nat) (comparators : list (Comparator B))
    (sorted : ranks) : result ranks :=
  match comparators with
  | [] => Ok sorted
  | CmpField field ascending :: comparators =>
      st ← iterate db (index_range rs field ascending) (rank_callback pos)
             {| rk_results := results rs; prev_data := []; has_grouped_ids := false; rk_idx := 0;
                sorted_ids := sorted |};
      if negb (rb_is_empty (rk_results st)) then
        let idx := wrap 32 (rk_idx st + 1) in
        rank_loop db rs (S pos) comparators
          (fold_left (λ s d, set_rank pos idx d s) (rb_iter (rk_results st)) (sorted_ids st))
      else if negb (has_grouped_ids st) then Ok (sorted_ids st)
      else rank_loop db rs (S pos) comparators (sorted_ids st)
  | CmpDocumentSet set ascending :: comparators =>
      let rank_set '(idx, ds) s := fold_left (λ s d, set_rank pos idx d s) (rb_iter ds) s in
      rank_loop db rs (S pos) comparators
        (fold_left (λ s p, rank_set p s) (zip [0; 1] (split_set rs set ascending)) sorted)
  end.

(** The order of [sorted_ids.sort_by]: by ranks, then by document id. *)
Definition rank_le (a b : Z * list Z) : Prop :=
  match bytes_cmp a.2 b.2 with Eq => a.1 ≤ b.1 | Lt => True | Gt => False end.
#[export] Instance rank_le_dec : RelDecision rank_le.
Proof. intros a b. unfold rank_le. destruct (bytes_cmp a.2 b.2); apply _. Defined.

(** The documents in order, each with its prefix; a prefix may be wanted only
    once, and a document without one is left out. *)
Fixpoint add_prefixed (db : DB) (documents : list Z) (seen_prefixes : gset Z) (p : Pagination)
    : result Pagination :=
  match documents with
  | [] => Ok p
  | document_id :: documents =>
      match prefix_key p with
      | Some key =>
          prefix_id ← get_prefix db key document_id;
          match prefix_id with
          | Some prefix_id =>
              if prefix_unique p && bool_decide (prefix_id ∈ seen_prefixes)
              then add_prefixed db documents seen_prefixes p
              else
                let '(p, continue) := pg_add prefix_id document_id p in
                if continue then add_prefixed db documents ({[prefix_id]} ∪ seen_prefixes) p
                else Ok p
          | None => add_prefixed db documents seen_prefixes p
          end
      | None =>
          let '(p, continue) := pg_add 0 document_id p in
          if continue then add_prefixed db documents seen_prefixes p else Ok p
      end
  end.

Definition sort (db : DB) (rs : ResultSet B) (comparators : list (Comparator B))
    (paginate : Pagination) : result SortedResultSet :=
  let len := Z.to_nat (rb_len (results rs)) in
  if decide (len = 0%nat) then
    Ok {| srs_position := position paginate; srs_ids := []; found_anchor := true |}
  else
    let paginate :=
      set_limit (if decide (limit paginate = 0%nat) then len else len `min` limit paginate)%nat
        paginate in
    match comparators, prefix_unique paginate with
    | [comparator], false => sort_single db rs comparator paginate
    | _ :: _ :: _, _ =>
        sorted ← rank_loop db rs 0 (take 4 comparators) ∅;
        p ← add_prefixed db (fst <$> merge_sort rank_le (map_to_list sorted)) ∅ paginate;
        Ok (pg_build p)
    | _, _ =>
        p ← add_prefixed db (rb_iter (results rs)) ∅ paginate;
        Ok (pg_build p)
    end.
End sort.

(** ** Permissions *)

Inductive AclQuery :=
  | SharedWith (grant_account_id to_account_id to_collection : Z)
  | HasAccess (grant_account_id : Z).

Record AclItem := {
  to_account_id : Z; to_collection : Z; to_document_id : Z; permissions : Z }.

(** [Deserialize for AclItem] *)
Definition acl_deserialize (bytes : list Z) : result AclItem :=
  to_account_id ← deserialize_be_u32 bytes U32_LEN;
  to_collection ← ok_or (InternalError "Corrupted acl key") (bytes !! (U32_LEN * 2)%nat);
  to_document_id ← deserialize_be_u32 bytes (U32_LEN * 2 + 1);
  Ok {| to_account_id := to_account_id; to_collection := to_collection;
        to_document_id := to_document_id; permissions := 0 |}.
Definition with_permissions (permissions : Z) (item : AclItem) : AclItem :=
  {| to_account_id := to_account_id item; to_collection := to_collection item;
     to_document_id := to_document_id item; permissions := permissions |}.

Definition acl_key (grant_account_id account_id collection document_id : Z) : ValueKey :=
  {| vk_account_id := account_id; vk_collection := collection; vk_document_id := document_id;
     vk_class := Acl grant_account_id |}.

Definition acl_bounds (query : AclQuery) : ValueKey * ValueKey :=
  match query with
  | SharedWith grant to_account to_collection =>
      (acl_key grant to_account to_collection 0, acl_key grant to_account to_collection U32_MAX)
  | HasAccess grant => (acl_key grant 0 0 0, acl_key grant U32_MAX U8_MAX U32_MAX)
  end.

Section acl.
Context {DB Txn : Type} `{RocksDB DB Txn}.

Definition acl_query_callback (results : list AclItem) (key value : list Z)
    : result (list AclItem * bool) :=
  item ← acl_deserialize key;
  permissions ← u64_deserialize value;
  Ok (results ++ [with_permissions permissions item], true).

Definition acl_query (db : DB) (query : AclQuery) : result (list AclItem) :=
  let '(from_key, to_key) := acl_bounds query in
  iterate db (set_ascending true (params_new from_key to_key)) acl_query_callback [].

Context `{StoreWrite DB}.

Definition acl_revoke_callback (account_id : Z) (delete_keys : list (Z * AclItem))
    (key _value : list Z) : result (list (Z * AclItem) * bool) :=
  to_account ← deserialize_be_u32 key U32_LEN;
  if decide (account_id = to_account) then
    grant ← deserialize_be_u32 key 0;
    item ← acl_deserialize key;
    Ok (delete_keys ++ [(grant, item)], true)
  else Ok (delete_keys, true).

(** The entry that a collected permission stands for. *)
Definition revoke_item (e : Z * AclItem) : clear_item :=
  {| ci_collection := to_collection e.2; ci_document_id := to_document_id e.2;
     ci_class := Acl e.1 |}.

Definition acl_revoke_all (db : DB) (account_id : Z) : result DB :=
  delete_keys ← iterate db
    (no_values (set_ascending true (params_new (acl_key 0 0 0 0)
       (acl_key U32_MAX U32_MAX U8_MAX U32_MAX))))
    (acl_revoke_callback account_id) [];
  clear_all account_id (revoke_item <$> delete_keys) db.
End acl.
