(* ===== verification/FilterTheory.v ===== *)
(** * What a filter selects

    The ranges of an index ([range_to_bitmap]) and the logical structure of
    filters ([filter]): a list of filters is the flattening of a tree of
    groups, and what it selects is the value of the tree. *)

From stdpp Require Import base gmap sorting strings numbers list.
From S2P Require Import Prelude Codec Keys KeyTheory KeyOrder Roaring Kv KvModel Batch Commit CommitTheory Read Store ClearLoop Text Words Query.
Open Scope Z_scope.
Open Scope bytes_scope.

(** ** Index entries *)

Definition idx_prefix (a col f : Z) : list Z := to_be_bytes 4 a ++ [col; f].
Definition idx_row (a col f : Z) (v : list Z) (d : Z) : list Z :=
  idx_prefix a col f ++ v ++ to_be_bytes 4 d.

(** Every key of the indexes is one of a document. *)
Definition index_ok (m : store_map) : Prop :=
  ∀ k x, m !! (SUBSPACE_INDEXES, k) = Some x →
    ∃ a col f v d, uint_ok 32 a ∧ uint_ok 32 d ∧ bytes_ok v ∧ k = idx_row a col f v d.

Definition indexed (m : store_map) (a col f : Z) (v : list Z) (d : Z) : Prop :=
  is_Some (m !! (SUBSPACE_INDEXES, idx_row a col f v d)).

Lemma index_ok_empty : index_ok ∅.
Proof. intros k x Hl. by rewrite lookup_empty in Hl. Qed.
Lemma index_ok_insert m a col f v d x :
  index_ok m → uint_ok 32 a → uint_ok 32 d → bytes_ok v →
  index_ok (<[(SUBSPACE_INDEXES, idx_row a col f v d) := x]> m).
Proof.
  intros Hm ??? k y. rewrite lookup_insert. case_decide as He; [|apply Hm].
  injection He as <-. intros _. by exists a, col, f, v, d.
Qed.

Lemma idx_prefix_length a col f : length (idx_prefix a col f) = 6%nat.
Proof. unfold idx_prefix. by rewrite length_app, to_be_bytes_length. Qed.

Lemma idx_row_length a col f v d : length (idx_row a col f v d) = (10 + length v)%nat.
Proof.
  unfold idx_row. rewrite !length_app, idx_prefix_length, to_be_bytes_length. lia.
Qed.

Lemma index_value_row a col f v d : index_value (idx_row a col f v d) = Ok v.
Proof.
  unfold index_value. rewrite idx_row_length. unfold U32_LEN. rewrite decide_True by lia.
  unfold slice_get. change index_prefix_len with 6%nat. rewrite idx_row_length.
  rewrite decide_True by lia. cbn [ok_or]. f_equal. unfold idx_row.
  rewrite drop_app_length' by (by rewrite idx_prefix_length). apply take_app_length'. lia.
Qed.

Lemma index_id_row a col f v d :
  uint_ok 32 d → deserialize_be_u32_end (idx_row a col f v d) U32_LEN = Ok d.
Proof. intros Hd. unfold idx_row. rewrite app_assoc. by apply deserialize_be_u32_end_app. Qed.

(** Rows with one prefix. *)
Lemma starts_with_app p r : starts_with (p ++ r) p = true.
Proof. unfold starts_with. apply bool_decide_true. apply take_app_length. Qed.
Lemma starts_with_inv k p : starts_with k p = true → k = p ++ drop (length p) k.
Proof.
  unfold starts_with. rewrite bool_decide_eq_true. intros He. rewrite <-He at 1.
  by rewrite take_drop.
Qed.

Lemma idx_row_prefix a col f v d a' col' f' :
  uint_ok 32 a → uint_ok 32 a' →
  starts_with (idx_row a' col' f' v d) (idx_prefix a col f) = true →
  idx_row a' col' f' v d = idx_row a col f v d.
Proof.
  intros Ha Ha' He. apply starts_with_inv in He. unfold idx_row in *.
  apply app_inj_1 in He as [-> _]; [done|]. by rewrite !idx_prefix_length.
Qed.

(** An iteration whose callback stops at the first row that fails a test. *)
Lemma visit_take_while {A} (p : row → bool) (cb : A → list Z → list Z → result (A * bool)) rows acc :
  (∀ acc k v, p (k, v) = false → cb acc k v = Ok (acc, false)) →
  visit false cb rows acc = visit false cb (take_while p rows) acc.
Proof.
  intros Hp. revert acc. induction rows as [|[k v] rows IH]; intros acc; [done|].
  cbn [visit take_while]. destruct (p (k, v)) eqn:Hk.
  - cbn [visit]. destruct (cb acc k v) as [[acc' cont]|]; [|done]. cbn [mbind result_bind].
    by rewrite IH.
  - by rewrite Hp.
Qed.

(** Rows from the prefix on: those that start with it come first. *)
Lemma starts_with_range p rows :
  StronglySorted row_lt rows → (∀ r, r ∈ rows → p ≤ᵇ r.1) →
  take_while (λ r, starts_with r.1 p) rows = base.filter (λ r, starts_with r.1 p = true) rows.
Proof.
  intros Hs Hlo. apply (take_while_filter row_lt); [done|]. intros x y Hxy Hx Hy Hpx.
  destruct (starts_with y.1 p) eqn:Hpy; [|done]. exfalso.
  apply starts_with_inv in Hpy. assert (starts_with x.1 p = true) as He; [|by rewrite He in Hpx].
  rewrite (bytes_range_prefix p [] (drop (length p) y.1) x.1); [apply starts_with_app|..].
  - rewrite app_nil_r. by apply Hlo.
  - rewrite <-Hpy. by apply bytes_lt_le.
Qed.

(** The order of rows with values of one width. *)
Lemma bytes_lt_fields v w r s : length v = length w → v <ᵇ w → v ++ r <ᵇ w ++ s.
Proof. intros Hl Hlt. unfold bytes_lt in *. by rewrite bytes_cmp_app_eqlen, Hlt. Qed.

Lemma zeros_le n r : bytes_ok r → (n ≤ length r)%nat → replicate n 0 ≤ᵇ r.
Proof.
  revert r. induction n as [|n IH]; intros r Hr Hl; [by destruct r|].
  destruct r as [|x r]; [cbn in Hl; lia|]. apply Forall_cons_1 in Hr as [Hx Hr].
  unfold bytes_le. cbn [replicate bytes_cmp]. unfold uint_ok in Hx. cbn in Hl.
  destruct (Z.compare_spec 0 x); [apply IH; [done|lia]|done|lia].
Qed.

Lemma be32_zero_le_row v d : bytes_ok v → to_be_bytes 4 0 ≤ᵇ v ++ to_be_bytes 4 d.
Proof.
  intros Hv. change (to_be_bytes 4 0) with (replicate 4 0). apply zeros_le.
  - apply Forall_app. split; [done|apply to_be_bytes_ok].
  - rewrite length_app, to_be_bytes_length. lia.
Qed.

Lemma next_field_lt a col f r s : 0 ≤ f < 255 →
  idx_prefix a col f ++ r <ᵇ idx_prefix a col (wrap 8 (f + 1)) ++ s.
Proof.
  intros Hf. rewrite wrap_small by (unfold uint_ok; lia). unfold idx_prefix.
  rewrite <-!app_assoc. apply bytes_lt_app. unfold bytes_lt. cbn [app bytes_cmp].
  rewrite Z.compare_refl. by rewrite (proj2 (Z.compare_lt_iff f (f + 1))) by lia.
Qed.

Section range.
Context {DB Txn : Type} `{RocksDBLaws DB Txn} {B : Type} `{RoaringBitmapLaws B}.

Lemma range_callback_row a col f mv op (bm : B) v d x :
  uint_ok 32 d →
  range_callback (idx_prefix a col f) mv op bm (idx_row a col f v d) x
  = Ok (if op_matches op v mv then rb_insert d bm else bm, true).
Proof.
  intros Hd. unfold range_callback. rewrite index_value_row, index_id_row by done.
  unfold idx_row. rewrite starts_with_app. cbn [negb mbind result_bind]. by destruct (op_matches op v mv).
Qed.

(** The callback over the rows of one field. *)
Lemma range_visit a col f mv op rows (bm : B) :
  uint_ok 32 a →
  (∀ r, r ∈ rows → starts_with r.1 (idx_prefix a col f) = true ∧
     ∃ a' col' f' v d, uint_ok 32 a' ∧ uint_ok 32 d ∧ bytes_ok v ∧ r.1 = idx_row a' col' f' v d) →
  ∃ bm', visit false (range_callback (idx_prefix a col f) mv op) rows bm = Ok bm' ∧
    ∀ d, d ∈ rb_elems bm' ↔ d ∈ rb_elems bm ∨
      ∃ v x, uint_ok 32 d ∧ bytes_ok v ∧ (idx_row a col f v d, x) ∈ rows ∧
        op_matches op v mv = true.
Proof.
  intros Ha. revert bm. induction rows as [|[k x] rows IH]; intros bm Hrows; cbn [visit].
  { exists bm. split; [done|]. set_solver. }
  destruct (Hrows (k, x)) as (Hp & a' & col' & f' & v & d & Ha' & Hd & Hv & Hk); [by left|].
  cbn [fst] in *. subst k. pose proof (idx_row_prefix a col f v d a' col' f' Ha Ha' Hp) as He.
  rewrite He in Hrows, Hp |- *. clear He Ha' a' col' f'.
  rewrite range_callback_row by done. cbn [mbind result_bind negb orb].
  set (bm1 := if op_matches op v mv then rb_insert d bm else bm).
  destruct (IH bm1) as (bm' & Hvis & Hel); [intros; apply Hrows; by right|].
  exists bm'. split; [exact Hvis|].
  intros e. rewrite Hel. setoid_rewrite elem_of_cons.
  assert (e ∈ rb_elems bm1 ↔ e ∈ rb_elems bm ∨ e = d ∧ op_matches op v mv = true) as ->.
  { unfold bm1. destruct (op_matches op v mv); rewrite ?rb_elems_insert; set_solver. }
  split.
  - intros [[?|[-> ?]]|(w & y & ? & ? & ? & ?)]; [by left|right..].
    + exists v, x. by split_and!; [..|left|].
    + exists w, y. by split_and!; [..|right|].
  - intros [?|(w & y & ? & ? & [He|?] & ?)]; [by left; left| |right; by exists w, y].
    left; right. assert (e = d ∧ w = v) as [-> ->]; [|done].
    apply (f_equal (λ r, (index_value r.1, deserialize_be_u32_end r.1 U32_LEN))) in He.
    cbn [fst] in He. rewrite !index_value_row, !index_id_row in He by done. by injection He.
Qed.

Definition in_bounds (a col f : Z) (mv : list Z) (op : Operator) (k : list Z) : Prop :=
  let '(lo, hi) := range_bounds a col f mv op in
  index_key_serialize lo 0 ≤ᵇ k ∧ k ≤ᵇ index_key_serialize hi 0.

Lemma index_key_row a col d f key :
  index_key_serialize {| ik_account_id := a; ik_collection := col; ik_document_id := d;
    ik_field := f; ik_key := key |} 0 = idx_row a col f key d.
Proof.
  rewrite index_key_bytes. unfold idx_row, idx_prefix. rewrite <-!app_assoc. reflexivity.
Qed.

(** The bounds hold every entry that matches, for values of one width. *)
Lemma matches_in_bounds a col f mv op v d :
  0 ≤ f < 255 → uint_ok 32 d → bytes_ok v → bytes_ok mv → length v = length mv →
  op_matches op v mv = true → in_bounds a col f mv op (idx_row a col f v d).
Proof.
  intros Hf Hd Hv Hmv Hl. unfold in_bounds, op_matches.
  assert (to_be_bytes 4 0 ≤ᵇ to_be_bytes 4 d) as Hz0
    by (apply be32_zero_le; [apply to_be_bytes_length|apply to_be_bytes_ok]).
  assert (to_be_bytes 4 d ≤ᵇ to_be_bytes 4 U32_MAX) as Hz1
    by (apply be32_max_ge; [apply to_be_bytes_length|apply to_be_bytes_ok]).
  pose proof (be32_zero_le_row v d Hv) as Hz2.
  destruct op; cbn [range_bounds]; rewrite !index_key_row, bool_decide_eq_true; unfold idx_row;
    rewrite ?app_nil_l.
  - intros Hlt. rewrite !bytes_le_app. split; [done|]. by apply bytes_lt_le, bytes_lt_fields.
  - rewrite bytes_le_lteq. intros Hle. rewrite !bytes_le_app. split; [done|].
    destruct Hle as [Hlt| ->]; [by apply bytes_lt_le, bytes_lt_fields|by apply bytes_le_app].
  - intros Hlt. rewrite bytes_le_app. split; [by apply bytes_lt_le, bytes_lt_fields|].
    by apply bytes_lt_le, next_field_lt.
  - rewrite bytes_le_lteq. intros Hle. rewrite bytes_le_app.
    split; [|by apply bytes_lt_le, next_field_lt].
    destruct Hle as [Hlt| ->]; [by apply bytes_lt_le, bytes_lt_fields|by apply bytes_le_app].
  - intros ->. by rewrite !bytes_le_app.
Qed.

Lemma range_lower_bound a col f mv op k :
  in_bounds a col f mv op k → idx_prefix a col f ≤ᵇ k.
Proof.
  unfold in_bounds. destruct op; cbn [range_bounds]; rewrite !index_key_row; intros [Hlo _];
    (eapply bytes_le_trans; [apply bytes_le_prefix|exact Hlo]).
Qed.

(** C37: Selecting by the value of an index returns exactly the documents whose
    value compares as asked, for fields whose values have one width (dates,
    sizes, counters). *)
Theorem range_to_bitmap_exact (db : DB) a col f mv op :
  index_ok (db_map db) → uint_ok 32 a → 0 ≤ f < 255 → bytes_ok mv →
  (∀ v d, indexed (db_map db) a col f v d → length v = length mv) →
  ∃ r : option B, range_to_bitmap db a col f mv op = Ok r ∧
    (∀ d, d ∈ rb_opt_elems r ↔ uint_ok 32 d ∧ ∃ v, bytes_ok v ∧
       indexed (db_map db) a col f v d ∧ op_matches op v mv = true) ∧
    (r = None ↔ rb_opt_elems r = ∅).
Proof.
  intros Hm Ha Hf Hmv Hw. unfold range_to_bitmap.
  assert (∀ k, in_bounds a col f mv op k ↔
    index_key_serialize (range_bounds a col f mv op).1 0 ≤ᵇ k ∧
    k ≤ᵇ index_key_serialize (range_bounds a col f mv op).2 0) as Hib.
  { intros k. unfold in_bounds. by destruct (range_bounds a col f mv op). }
  destruct (range_bounds a col f mv op) as [lo hi]. cbn [fst snd] in Hib.
  rewrite index_prefix_bytes. change (flag_bytes 0 _) with (@nil Z). cbn [app ip_account_id ip_collection ip_field].
  change (to_be_bytes 4 a ++ [col; f]) with (idx_prefix a col f).
  rewrite iterate_visit. cbn [first ascending begin end_ set_ascending no_values params_new
    key_subspace key_serialize index_key].
  set (rows := range_rows _ _ _ _ _).
  assert (∀ k x, (k, x) ∈ rows ↔ in_bounds a col f mv op k ∧ db_map db !! (SUBSPACE_INDEXES, k) = Some x)
    as Hrows by (intros; rewrite Hib; unfold rows; rewrite elem_of_range_rows; tauto).
  rewrite (visit_take_while (λ r, starts_with r.1 (idx_prefix a col f)))
    by (intros bm k x Hk; unfold range_callback; cbn [fst] in Hk; by rewrite Hk).
  rewrite starts_with_range.
  - destruct (range_visit a col f mv op (base.filter (λ r, starts_with r.1 (idx_prefix a col f) = true) rows)
      (rb_new : B) Ha) as (bm & -> & Hel).
    { intros [k x] [Hk Hin]%list_elem_of_filter. split; [done|].
      apply Hrows in Hin as [_ Hin]. destruct (Hm _ _ Hin) as (a' & c' & f' & v & d & ? & ? & ? & ->).
      by exists a', c', f', v, d. }
    cbn [mbind result_bind]. eexists. split; [done|].
    assert (rb_opt_elems (if rb_is_empty bm then None else Some bm) = rb_elems bm) as ->.
    { rewrite rb_is_empty_spec. case_bool_decide as He; cbn; [by rewrite He|done]. }
    split; [|rewrite rb_is_empty_spec; by case_bool_decide].
    intros d. rewrite Hel, rb_elems_new. setoid_rewrite list_elem_of_filter. setoid_rewrite Hrows.
    split.
    + intros [?|(v & x & Hd & Hv & (_ & _ & Hx) & Hop)]; [set_solver|]. split; [done|].
      exists v. split_and!; [done|by exists x|done].
    + intros (Hd & v & Hv & [x Hx] & Hop). right. exists v, x. split_and!; try done.
      * apply starts_with_app.
      * apply matches_in_bounds; try done. by apply (Hw v d); exists x.
  - unfold rows, range_rows. apply StronglySorted_filter, cf_rows_sorted.
  - intros [k x] [Hk _]%Hrows. by apply range_lower_bound in Hk.
Qed.
End range.

Lemma range_to_bitmap_exact_witness :
  let db : LogDb.DB := [((SUBSPACE_INDEXES, idx_row 1 0 4 (to_be_bytes 8 30) 7), Some [])] in
  ∃ r : option (gset Z),
    range_to_bitmap db 1 0 4 (to_be_bytes 8 20) GreaterThan = Ok r ∧ 7 ∈ rb_opt_elems r.
Proof.
  intros db. pose (row := idx_row 1 0 4 (to_be_bytes 8 30) 7).
  assert (db_map db = <[(SUBSPACE_INDEXES, row) := []]> (∅ : store_map)) as Hdb by done.
  destruct (range_to_bitmap_exact (B:=gset Z) db 1 0 4 (to_be_bytes 8 20) GreaterThan)
    as (r & Hr & Hel & _).
  - rewrite Hdb. apply index_ok_insert; [apply index_ok_empty|unfold uint_ok; lia..|apply to_be_bytes_ok].
  - unfold uint_ok. lia.
  - lia.
  - apply to_be_bytes_ok.
  - intros v d [x Hx]. rewrite Hdb in Hx.
    apply lookup_insert_Some in Hx as [[He _]|[_ Hx]]; [|by rewrite lookup_empty in Hx].
    apply (f_equal (λ c, length c.2)) in He. cbn [snd] in He. unfold row in He.
    rewrite !idx_row_length in He. rewrite !to_be_bytes_length in *. lia.
  - exists r. split; [exact Hr|]. apply Hel. split; [unfold uint_ok; lia|].
    exists (to_be_bytes 8 30). split_and!; [apply to_be_bytes_ok| |by vm_compute].
    unfold indexed. rewrite Hdb. fold row. rewrite lookup_insert_eq. done.
Defined.

(** A text value that extends the bound is not found by [GreaterThan]: the
    key of "ab" sorts before the end of the keys of "a". *)
Example range_extension_missed :
  let db : LogDb.DB := [((SUBSPACE_INDEXES, idx_row 1 0 4 (str_bytes "ab") 7), Some [])] in
  op_matches GreaterThan (str_bytes "ab") (str_bytes "a") = true ∧
  range_to_bitmap (B:=gset Z) db 1 0 4 (str_bytes "a") GreaterThan = Ok None.
Proof. split; vm_compute; reflexivity. Qed.

(** ** Trees of filters *)

Inductive query (B : Type) :=
  | Cond (f : Filter B)
  | Group (op : Logical) (qs : list (query B)).
Arguments Cond {_} _.
Arguments Group {_} _ _.

Section query_ind.
Context {B : Type} (P : query B → Prop).
Hypothesis cond_case : ∀ f, P (Cond f).
Hypothesis group_case : ∀ op qs, Forall P qs → P (Group op qs).
Fixpoint query_induction (q : query B) : P q :=
  match q with
  | Cond f => cond_case f
  | Group op qs =>
      group_case op qs
        ((fix go (qs : list (query B)) : Forall P qs :=
            match qs with
            | [] => Forall_nil_2 P
            | q :: qs => Forall_cons_2 P q qs (query_induction q) (go qs)
            end) qs)
  end.
End query_ind.

Section tree.
Context {B : Type}.

(** How the clients of a store write a tree as a list of filters. *)
Definition open_ (op : Logical) : Filter B :=
  match op with LAnd => And | LOr => Or | LNot => Not end.
Fixpoint flatten (q : query B) : list (Filter B) :=
  match q with
  | Cond f => [f]
  | Group op qs => open_ op :: mjoin (flatten <$> qs) ++ [End_]
  end.

Definition is_cond (f : Filter B) : bool :=
  match f with And | Or | Not | End_ => false | _ => true end.
Definition is_cond_query (q : query B) : bool := match q with Cond _ => true | _ => false end.

(** The conditions of a tree. *)
Fixpoint conds (q : query B) : list (Filter B) :=
  match q with
  | Cond f => [f]
  | Group _ qs => mjoin (conds <$> qs)
  end.

(** What a group selects from what its members select, in the universe [u];
    a group without members selects nothing. *)
Definition group (u : gset Z) (op : Logical) (l : list (gset Z)) : gset Z :=
  match l with
  | [] => ∅
  | x :: l =>
      match op with
      | LAnd => fold_left (∩) l x
      | LOr => fold_left (∪) l x
      | LNot => u ∖ fold_left (∪) l x
      end
  end.
Fixpoint selects (u : gset Z) (ev : Filter B → gset Z) (q : query B) : gset Z :=
  match q with
  | Cond f => ev f
  | Group op qs => group u op (selects u ev <$> qs)
  end.

(** The trees whose conjunctions keep a group only in the first place. *)
Fixpoint safe (q : query B) : bool :=
  match q with
  | Cond _ => true
  | Group op qs =>
      forallb safe qs &&
      match op, qs with LAnd, _ :: qs => forallb is_cond_query qs | _, _ => true end
  end.
End tree.

Lemma mjoin_cons {A} (l : list A) ls : mjoin (l :: ls) = l ++ mjoin ls.
Proof. done. Qed.

Lemma group_snoc u op l x :
  l ≠ [] → group u op (l ++ [x])
  = match op with
    | LAnd => group u op l ∩ x
    | LOr => group u op l ∪ x
    | LNot => group u op l ∖ x
    end.
Proof.
  destruct l as [|y l]; [done|]. intros _. cbn [app group]. rewrite !fold_left_app. cbn [fold_left].
  destruct op; [done..|]. set_solver.
Qed.

Lemma group_and_empty u l l' : l ≠ [] → group u LAnd l = ∅ → group u LAnd (l ++ l') = ∅.
Proof.
  intros Hl He. induction l' as [|x l' IH] using rev_ind; [by rewrite app_nil_r|].
  rewrite app_assoc, group_snoc, IH; [set_solver|]. destruct l; done.
Qed.

Section filter_theory.
Context {DB Txn : Type} `{RocksDBLaws DB Txn} {B : Type} `{RoaringBitmapLaws B} `{Unicode}.
Context (xxh3_64 farm_hash64 : list Z → Z) (hash_set_iter : gset (list Z) → list (list Z)).
Context (db : DB) (a col : Z) (docs : B) (ev : Filter B → gset Z).
Hypothesis docs_read : document_ids db a col = Ok docs.

Abbreviation u := (rb_elems docs).
Abbreviation run := (filter_loop xxh3_64 farm_hash64 hash_set_iter db a col).

(** A condition reads documents of the collection. *)
Definition cond_ok (f : Filter B) : Prop :=
  is_cond f = true ∧ ev f ⊆ u ∧
  ∃ r, cond_bitmap xxh3_64 farm_hash64 hash_set_iter db a col f = Ok r ∧ rb_opt_elems r = ev f.

(** The state of a group whose first members select [l]. *)
Definition state_ok (op : Logical) (l : list (gset Z)) (s : State B) : Prop :=
  st_op s = op ∧
  match st_bm s with
  | None => l = []
  | Some bm => l ≠ [] ∧ rb_elems bm = group u op l
  end.
Definition mask_ok (mask : option B) : Prop :=
  match mask with Some m => rb_elems m = u | None => True end.

Lemma fetch_mask_ok op mask :
  mask_ok mask → ∃ mask', fetch_mask db a col op mask = Ok mask' ∧ mask_ok mask' ∧
    (op = LNot → rb_elems (default rb_new mask') = u).
Proof.
  intros Hm. unfold fetch_mask. destruct op, mask as [m|]; try (by eexists).
  exists (Some docs). by rewrite docs_read.
Qed.

Lemma apply_op_some op (m dest : B) r :
  (op = LNot → rb_elems m = u ∧ rb_elems dest ⊆ u) → rb_opt_elems r ⊆ u →
  rb_elems (apply_op op m (Some dest) r)
  = match op with
    | LAnd => rb_elems dest ∩ rb_opt_elems r
    | LOr => rb_elems dest ∪ rb_opt_elems r
    | LNot => rb_elems dest ∖ rb_opt_elems r
    end.
Proof.
  intros Hu Hr. destruct op; [clear Hu Hr..|destruct (Hu eq_refl) as [Hm Hd]; clear Hu];
    destruct r as [r|]; cbn [apply_op rb_opt_elems] in *;
    rewrite ?rb_elems_bitand, ?rb_elems_bitor, ?rb_elems_bitxor, ?rb_elems_new, ?Hm.
  - done.
  - by rewrite intersection_empty_r_L.
  - done.
  - by rewrite union_empty_r_L.
  - revert Hr Hd. generalize (rb_elems dest), (rb_elems r), u. set_solver.
  - by rewrite difference_empty_L.
Qed.

Lemma apply_op_none op (m : B) r :
  (op = LNot → rb_elems m = u) → rb_opt_elems r ⊆ u →
  rb_elems (apply_op op m None r) = group u op [rb_opt_elems r].
Proof.
  intros Hu Hr. destruct op; [clear Hu Hr..|specialize (Hu eq_refl)];
    destruct r as [r|]; cbn [apply_op rb_opt_elems group fold_left] in *;
    rewrite ?rb_elems_bitxor, ?rb_elems_new, ?Hu; try done.
  - revert Hr. generalize (rb_elems r), u. set_solver.
  - by rewrite difference_empty_L.
Qed.

Lemma absorb_ok op l s mask r :
  state_ok op l s → mask_ok mask → rb_opt_elems r ⊆ u →
  ∃ s' mask', absorb db a col s mask r
      = Ok (s', mask', bool_decide (op = LAnd ∧ group u op (l ++ [rb_opt_elems r]) = ∅)) ∧
    state_ok op (l ++ [rb_opt_elems r]) s' ∧ mask_ok mask'.
Proof.
  intros [Hop Hbm] Hm Hr. unfold absorb. rewrite Hop.
  destruct (fetch_mask_ok op mask Hm) as (mask' & -> & Hm' & Hu). cbn [mbind result_bind].
  set (bm := apply_op _ _ _ _). assert (rb_elems bm = group u op (l ++ [rb_opt_elems r])) as He.
  { unfold bm. destruct (st_bm s) as [dest|].
    - destruct Hbm as [Hl Hd]. rewrite group_snoc, <-Hd by done. apply apply_op_some; [|done].
      intros ->. split; [by apply Hu|]. rewrite Hd. destruct l; [done|]. cbn [group].
      apply subseteq_difference_l. done.
    - subst l. by apply apply_op_none. }
  eexists _, mask'. split; [|split; [|done]].
  - do 3 f_equal. rewrite rb_is_empty_spec, He. repeat case_bool_decide; cbn [andb]; tauto.
  - split; [done|]. cbn. split; [|done]. by destruct l.
Qed.

(** Skipping the rest of a group of conditions. *)
Lemma filter_run_skip fs rest s stack mask :
  forallb is_cond fs = true → run (fs ++ rest) s stack mask true = run rest s stack mask true.
Proof.
  induction fs as [|f fs IH]; [done|]. cbn [forallb app filter_loop].
  intros [Hf Hfs]%andb_true_iff. destruct f; try done; by apply IH.
Qed.

Lemma run_skip_top fs s mask : run fs s [] mask true = Ok (st_bm s).
Proof. induction fs as [|f fs IH]; [done|]. by destruct f. Qed.

Lemma run_end rest s prev stack mask skip :
  run (End_ :: rest) s (prev :: stack) mask skip
  = ('(s, m, sk) ← absorb db a col prev mask (st_bm s); run rest s stack m sk).
Proof. done. Qed.

(** What running the filters of a tree comes to. *)
Definition tree_ok (q : query B) : Prop :=
  ∀ rest s stack mask, mask_ok mask →
    ∃ r mask', rb_opt_elems r = selects u ev q ∧ mask_ok mask' ∧
      run (flatten q ++ rest) s stack mask false
      = ('(s, m, sk) ← absorb db a col s mask' r; run rest s stack m sk).

Lemma selects_sub q : Forall cond_ok (conds q) → selects u ev q ⊆ u.
Proof.
  induction q as [f|op qs IH] using query_induction; cbn [conds selects].
  - by intros [(_ & Hs & _) _]%Forall_cons_1.
  - intros Hc. assert (Forall (λ x, x ⊆ u) (selects u ev <$> qs)) as Hs.
    { apply Forall_fmap. clear -IH Hc. induction IH as [|q qs Hq Hqs IH]; [done|].
      rewrite fmap_cons in Hc. rewrite mjoin_cons in Hc. apply Forall_app in Hc as [Hc1 Hc2].
      constructor; [by apply Hq|by apply IH]. }
    destruct Hs as [|x l Hx Hl]; [cbn; set_solver|]. cbn [group]. destruct op; [| |set_solver].
    + revert x Hx. induction l as [|y l IHl]; intros x Hx; [done|]. cbn [fold_left].
      apply Forall_cons_1 in Hl as [Hy Hl]. apply IHl; [done|set_solver].
    + revert x Hx. induction l as [|y l IHl]; intros x Hx; [done|]. cbn [fold_left].
      apply Forall_cons_1 in Hl as [Hy Hl]. apply IHl; [done|set_solver].
Qed.

Lemma flatten_conds qs :
  forallb is_cond_query qs = true → Forall cond_ok (mjoin (conds <$> qs)) →
  forallb is_cond (mjoin (flatten <$> qs)) = true.
Proof.
  induction qs as [|q qs IH]; [done|]. rewrite !fmap_cons. rewrite !mjoin_cons. cbn [forallb].
  intros [Hq Hqs]%andb_true_iff [Hc Hcs]%Forall_app. rewrite forallb_app, IH by done.
  destruct q as [f|]; [|done]. apply Forall_cons_1 in Hc as [[Hc _] _]. cbn. by rewrite Hc.
Qed.

(** The members of a group from some member on, up to its end. *)
Lemma run_members op qs l s prev stack mask rest :
  Forall tree_ok qs → Forall (λ q, selects u ev q ⊆ u) qs →
  Forall cond_ok (mjoin (conds <$> qs)) →
  (op = LAnd → match l, qs with [], _ :: qs => forallb is_cond_query qs = true
                             | _, _ => forallb is_cond_query qs = true end) →
  state_ok op l s → mask_ok mask →
  ∃ r mask', rb_opt_elems r = group u op (l ++ (selects u ev <$> qs)) ∧ mask_ok mask' ∧
    run (mjoin (flatten <$> qs) ++ End_ :: rest) s (prev :: stack) mask false
    = ('(s, m, sk) ← absorb db a col prev mask' r; run rest s stack m sk).
Proof.
  intros Ht Hsub. revert l s mask. induction Ht as [|q qs Hq Hqs IH]; intros l s mask Hc Hand Hs Hm.
  - exists (st_bm s), mask. cbn [fmap list_fmap mjoin list_join app]. rewrite app_nil_r.
    split_and!; [|done|apply run_end]. destruct Hs as [Hop Hs].
    destruct (st_bm s) as [bm|]; [by destruct Hs|by subst l].
  - apply Forall_cons_1 in Hsub as [Hsq Hsub]. rewrite fmap_cons in Hc. rewrite mjoin_cons in Hc.
    apply Forall_app in Hc as [Hcq Hc]. rewrite !fmap_cons. rewrite !mjoin_cons.
    rewrite <-app_assoc.
    destruct (Hq (mjoin (flatten <$> qs) ++ End_ :: rest) s (prev :: stack) mask Hm)
      as (r & mask1 & Hr & Hm1 & ->).
    destruct (absorb_ok op l s mask1 r Hs Hm1) as (s2 & mask2 & -> & Hs2 & Hm2).
    { by rewrite Hr. }
    rewrite Hr in Hs2 |- *. cbn [mbind result_bind].
    replace (l ++ selects u ev q :: (selects u ev <$> qs))
      with ((l ++ [selects u ev q]) ++ (selects u ev <$> qs)) by (by rewrite <-app_assoc).
    assert (op = LAnd → forallb is_cond_query qs = true) as Htail.
    { intros ->. specialize (Hand eq_refl). destruct l; [done|]. cbn in Hand.
      by apply andb_true_iff in Hand as [_ ?]. }
    case_bool_decide as Hskip.
    + destruct Hskip as [-> He]. exists (st_bm s2), mask2.
      rewrite filter_run_skip by (apply flatten_conds; auto). rewrite run_end.
      split_and!; [|done|done]. destruct Hs2 as [_ Hs2]. destruct (st_bm s2) as [bm|].
      * destruct Hs2 as [Hne Hbm]. cbn. rewrite Hbm, He. symmetry. by apply group_and_empty.
      * by destruct l.
    + apply IH; [done|done| |done|done]. intros Hop. specialize (Htail Hop).
      destruct (l ++ [selects u ev q]) eqn:E; [by destruct l|done].
Qed.

Lemma filter_run_tree q : safe q = true → Forall cond_ok (conds q) → tree_ok q.
Proof.
  induction q as [f|op qs IH] using query_induction; intros Hsafe Hc rest s stack mask Hm;
    cbn [flatten conds safe] in *.
  - apply Forall_cons_1 in Hc as [(Hf & Hs & r & Hr & He) _]. exists r, mask.
    split_and!; [done|done|]. cbn [app filter_loop]. destruct f; try done;
      rewrite Hr; reflexivity.
  - apply andb_true_iff in Hsafe as [Hsafe Hop].
    assert (Forall tree_ok qs ∧ Forall (λ q, selects u ev q ⊆ u) qs) as [Ht Hsub].
    { clear Hop. induction IH as [|q qs Hq Hqs IHqs]; [done|]. cbn [forallb] in Hsafe.
      apply andb_true_iff in Hsafe as [Hsq Hsqs]. rewrite fmap_cons in Hc.
      rewrite mjoin_cons in Hc. apply Forall_app in Hc as [Hcq Hcqs].
      destruct IHqs as [? ?]; [done..|]. split; constructor; auto using selects_sub. }
    destruct (run_members op qs [] (state_from op) s stack mask rest) as (r & mask' & Hr & Hm' & Hrun);
      [done|done|done| |done|done|].
    { intros ->. destruct qs as [|q qs]; [done|]. exact Hop. }
    exists r, mask'. split_and!; [done|done|]. rewrite <-Hrun. cbn [app].
    rewrite <-app_assoc. cbn [app]. by destruct op.
Qed.

(** At the top, where nothing encloses the conjunction, skipping is right
    whatever is skipped. *)
Lemma run_top qs l s mask :
  Forall tree_ok qs → Forall (λ q, selects u ev q ⊆ u) qs → state_ok LAnd l s → mask_ok mask →
  ∃ r, run (mjoin (flatten <$> qs)) s [] mask false = Ok r ∧
    rb_opt_elems r = group u LAnd (l ++ (selects u ev <$> qs)).
Proof.
  intros Ht. revert l s mask. induction Ht as [|q qs Hq Hqs IH]; intros l s mask Hsub Hs Hm.
  - exists (st_bm s). split; [done|]. rewrite app_nil_r. destruct Hs as [_ Hs].
    destruct (st_bm s); [by destruct Hs|by subst l].
  - apply Forall_cons_1 in Hsub as [Hsq Hsub]. rewrite !fmap_cons. rewrite !mjoin_cons.
    destruct (Hq (mjoin (flatten <$> qs)) s [] mask Hm) as (r & mask1 & Hr & Hm1 & ->).
    destruct (absorb_ok LAnd l s mask1 r Hs Hm1) as (s2 & mask2 & -> & Hs2 & Hm2); [by rewrite Hr|].
    rewrite Hr in Hs2 |- *. cbn [mbind result_bind].
    replace (l ++ selects u ev q :: (selects u ev <$> qs))
      with ((l ++ [selects u ev q]) ++ (selects u ev <$> qs)) by (by rewrite <-app_assoc).
    case_bool_decide as Hskip; [|by apply IH].
    rewrite run_skip_top. exists (st_bm s2). split; [done|]. destruct Hs2 as [_ Hs2].
    destruct (st_bm s2) as [bm|]; [|by destruct l].
    destruct Hs2 as [Hne Hbm]. cbn. rewrite Hbm, (proj2 Hskip). symmetry. apply group_and_empty; [done|].
    apply Hskip.
Qed.

(** C36: Filtering by the flattening of some trees selects the documents in all of
    them, and every document of the collection when there are none, provided
    that a conjunction below the top has a group only as its first member
    ([safe]) and that every condition can be read and selects documents of the
    collection.  For these trees the early exit from a conjunction that is
    already empty and the masks of negations make no difference. *)
Theorem filter_exact qs :
  forallb safe qs = true → Forall cond_ok (mjoin (conds <$> qs)) →
  ∃ r, filter xxh3_64 farm_hash64 hash_set_iter db a col (mjoin (flatten <$> qs))
       = Ok {| rs_account_id := a; rs_collection := col; results := r |} ∧
    rb_elems r = match qs with [] => u | _ => group u LAnd (selects u ev <$> qs) end.
Proof.
  intros Hsafe Hc. assert (Forall tree_ok qs ∧ Forall (λ q, selects u ev q ⊆ u) qs) as [Ht Hsub].
  { induction qs as [|q qs IH]; [done|]. cbn [forallb] in Hsafe.
    apply andb_true_iff in Hsafe as [Hsq Hsqs]. rewrite fmap_cons in Hc.
    rewrite mjoin_cons in Hc. apply Forall_app in Hc as [Hcq Hcqs].
    destruct IH as [? ?]; [done..|]. split; constructor; auto using selects_sub, filter_run_tree. }
  destruct (run_top qs [] (state_from LAnd) None Ht Hsub) as (r & Hrun & Hr); [done|done|].
  unfold filter. destruct qs as [|q qs].
  - cbn [fmap list_fmap mjoin list_join]. rewrite docs_read. by exists docs.
  - rewrite Hrun. cbn [mbind result_bind]. destruct (mjoin (flatten <$> _)) as [|f fs] eqn:E.
    { rewrite fmap_cons in E. rewrite mjoin_cons in E. apply app_eq_nil in E as [E _].
      destruct q; discriminate E. }
    eexists. split; [done|]. rewrite app_nil_l in Hr. rewrite <-Hr.
    destruct r; cbn; [done|apply rb_elems_new].
Qed.
End filter_theory.

(** Documents 1 to 4, of which 1, 2 and 3 carry tag 9. *)
Definition filter_db : LogDb.DB :=
  let ids d := (SUBSPACE_BITMAP_ID, bitmap_serialize DocumentIds 1 0 d 0 None) in
  let tag d := (SUBSPACE_BITMAP_TAG, bitmap_serialize (Tag 5 (TagId 9)) 1 0 d 0 None) in
  [(ids 1, Some []); (ids 2, Some []); (ids 3, Some []); (ids 4, Some []);
   (tag 1, Some []); (tag 2, Some []); (tag 3, Some [])].

Definition run_filter (qs : list (query (gset Z))) : result (ResultSet (gset Z)) :=
  filter (H1 := ascii_unicode) (λ _, 0) (λ _, 0) elements filter_db 1 0 (mjoin (flatten <$> qs)).

Definition example_tag : Filter (gset Z) := InBitmap (Tag 5 (TagId 9)).

Lemma filter_exact_witness :
  ∃ r, run_filter [Cond example_tag;
                   Group LOr [Group LNot [Cond (DocumentSet {[1]})]; Cond (DocumentSet {[4]})]]
       = Ok {| rs_account_id := 1; rs_collection := 0; results := r |} ∧ r = {[2; 3]}.
Proof.
  pose (docs := {[1; 2; 3; 4]} : gset Z).
  pose (ev := λ f : Filter (gset Z), match f with DocumentSet s => s | _ => {[1; 2; 3]} end).
  assert (document_ids filter_db 1 0 = Ok docs) as Hdocs by (vm_compute; reflexivity).
  destruct (filter_exact (H3 := ascii_unicode) (λ _, 0) (λ _, 0) elements filter_db 1 0 docs ev Hdocs
    [Cond example_tag;
     Group LOr [Group LNot [Cond (DocumentSet {[1]})]; Cond (DocumentSet {[4]})]]) as (r & Hr & He).
  - by vm_compute.
  - repeat constructor; try (apply (bool_decide_unpack _); by vm_compute);
      (eexists; split; [vm_compute; reflexivity|by vm_compute]).
  - exists r. split; [exact Hr|]. change (rb_elems r) with r in He. rewrite He. by vm_compute.
Defined.

(** Below the top, a conjunction that becomes empty ends at the [End] of the
    next group inside it: what follows that group joins the enclosing group.
    Here '4, or nothing and (2) and 3' selects 3 as well. *)
Example filter_nested_short_circuit :
  let inner := Group LAnd [Cond (DocumentSet ∅); Group LOr [Cond (DocumentSet {[2]})];
                           Cond (DocumentSet {[3]})] in
  let q := Group LOr [Cond (DocumentSet {[4]}); inner] in
  safe q = false ∧
  selects {[1; 2; 3; 4]} (λ f, match f with DocumentSet s => s | _ => ∅ end) q = {[4]} ∧
  match run_filter [q] with Ok r => results r = {[3; 4]} | Err _ => False end.
Proof. split_and!; vm_compute; reflexivity. Qed.
