(* ===== verification/SortTheory.v ===== *)
(** * Order and pages of query results

    [Pagination] takes documents one by one and may stop early; its result is
    the page of the whole list.  Sorting by a field yields the documents in
    the order of the index. *)

From stdpp Require Import base gmap sorting strings numbers list.
From S2P Require Import Prelude Codec Keys KeyTheory KeyOrder Roaring Kv KvModel Batch Commit CommitTheory Read Store ClearLoop Text Words Query FilterTheory.
Open Scope Z_scope.
Open Scope bytes_scope.

(** ** Pages *)

(** The page of a list of documents that a request asks for. *)
Definition window (limit start : nat) (docs : list Z) : list Z := take limit (drop start docs).

(** From a position, counted from the end when negative. *)
Definition page_at (docs : list Z) (limit : nat) (position : Z) : SortedResultSet :=
  if 0 <=? position then
    {| srs_position := if position <=? Z.of_nat (length docs) then position else 0;
       srs_ids := window limit (Z.to_nat position) docs; found_anchor := true |}
  else
    let start := (length docs - Z.to_nat (- position))%nat in
    {| srs_position := Z.of_nat start; srs_ids := window limit start docs; found_anchor := true |}.

(** From the first occurrence of an anchor, or up to it. *)
Definition page_from (docs : list Z) (limit : nat) (position anchor offset : Z)
  : SortedResultSet :=
  match list_find (eq anchor) docs with
  | Some (i, _) =>
      if 0 <=? offset then
        {| srs_position := position; srs_ids := window limit (i + Z.to_nat offset) docs;
           found_anchor := true |}
      else
        let start := (S i - Z.to_nat (- offset))%nat in
        {| srs_position := Z.of_nat start; srs_ids := window limit start (take (S i) docs);
           found_anchor := true |}
  | None =>
      {| srs_position := 0; srs_ids := if 0 <=? offset then [] else docs; found_anchor := false |}
  end.

Definition page (docs : list Z) (limit : nat) (position : Z) (anchor : option Z) (offset : Z)
  : SortedResultSet :=
  match anchor with
  | None => page_at docs limit position
  | Some anchor => page_from docs limit position anchor offset
  end.

(** ** What [add] accumulates *)

(** The fields that [add] changes. *)
Definition with_page (pos offset : Z) (found : bool) (l : list Z) (p : Pagination) : Pagination :=
  {| requested_position := requested_position p; position := pos; limit := limit p;
     anchor := anchor p; anchor_offset := offset; has_anchor := has_anchor p;
     anchor_found := found; ids := l; prefix_key := prefix_key p;
     prefix_unique := prefix_unique p |}.

Lemma with_page_id p :
  with_page (position p) (anchor_offset p) (anchor_found p) (ids p) p = p.
Proof. by destruct p. Qed.

(** A counter that skips documents down to zero and then keeps them up to the
    limit: positions without an anchor, and offsets after one. *)
Section countdown.
Context (lim : nat) (mk : Z → list Z → Pagination).
Hypothesis step : ∀ n l d, 0 ≤ n →
  pg_add 0 d (mk n l)
  = if 0 <? n then (mk (n - 1) l, true)
    else (mk 0 (l ++ [d]), negb (bool_decide (length (l ++ [d]) = lim))).

Lemma add_all_countdown docs n l :
  0 ≤ n → (length l < lim)%nat →
  let l' := l ++ take (lim - length l) (drop (Z.to_nat n) docs) in
  add_all docs (mk n l)
  = (mk (Z.max 0 (n - Z.of_nat (length docs))) l', bool_decide (length l' < lim)%nat).
Proof.
  revert n l. induction docs as [|d docs IH]; intros n l Hn Hl; cbn [add_all].
  - rewrite drop_nil, take_nil, app_nil_r, bool_decide_true by done. do 2 f_equal. cbn. lia.
  - rewrite step by done. destruct (Z.ltb_spec 0 n).
    + rewrite IH by lia. replace (Z.to_nat n) with (S (Z.to_nat (n - 1))) by lia. cbn [drop].
      do 2 f_equal. cbn [length]. lia.
    + assert (n = 0) as -> by lia.
      replace (lim - length l)%nat with (S (lim - S (length l))) by lia.
      change (drop (Z.to_nat 0) (d :: docs)) with (d :: docs). cbn [take].
      rewrite Z.max_l by lia. rewrite (length_app l [d]). cbn [length].
      destruct (decide (length l + 1 = lim)%nat) as [He|Hne].
      * rewrite bool_decide_true by done. cbn [negb].
        replace (lim - S (length l))%nat with 0%nat by lia. cbn [take].
        rewrite length_app. cbn [length]. by rewrite bool_decide_false by lia.
      * rewrite bool_decide_false by done. cbn [negb].
        rewrite IH by (rewrite ?length_app; cbn; lia). rewrite length_app. cbn [length].
        change (drop (Z.to_nat 0) docs) with docs. rewrite Z.max_l by lia.
        replace (lim - (length l + 1))%nat with (lim - S (length l))%nat by lia.
        by rewrite <-!app_assoc.
Qed.
End countdown.

Lemma step_position p off fnd n l d :
  has_anchor p = false → 0 ≤ n →
  pg_add 0 d (with_page n off fnd l p)
  = if 0 <? n then (with_page (n - 1) off fnd l p, true)
    else (with_page 0 off fnd (l ++ [d]) p, negb (bool_decide (length (l ++ [d]) = limit p))).
Proof.
  intros Ha Hn. unfold pg_add. cbn [with_page has_anchor position]. rewrite Ha. cbn [negb].
  destruct (Z.leb_spec 0 n); [|lia]. destruct (Z.ltb_spec 0 n); [done|].
  by assert (n = 0) as -> by lia.
Qed.

Lemma step_offset p pos n l d :
  has_anchor p = true → 0 ≤ n →
  pg_add 0 d (with_page pos n true l p)
  = if 0 <? n then (with_page pos (n - 1) true l p, true)
    else (with_page pos 0 true (l ++ [d]) p, negb (bool_decide (length (l ++ [d]) = limit p))).
Proof.
  intros Ha Hn. unfold pg_add. cbn [with_page has_anchor anchor_offset anchor_found].
  rewrite Ha. cbn [negb andb]. destruct (Z.leb_spec 0 n); [|lia].
  cbn [set_anchor_found anchor_offset with_page]. destruct (Z.ltb_spec 0 n); [done|].
  by assert (n = 0) as -> by lia.
Qed.

(** No anchor, position from the end: everything is kept. *)
Lemma add_all_from_end docs p n off fnd l :
  has_anchor p = false → n < 0 →
  add_all docs (with_page n off fnd l p) = (with_page n off fnd (l ++ docs) p, true).
Proof.
  intros Ha Hn. revert l. induction docs as [|d docs IH]; intros l; cbn [add_all].
  - by rewrite app_nil_r.
  - unfold pg_add. cbn [with_page has_anchor position]. rewrite Ha. cbn [negb].
    destruct (Z.leb_spec 0 n); [lia|]. change (push_id _ _) with (with_page n off fnd (l ++ [d]) p).
    rewrite IH. by rewrite <-app_assoc.
Qed.

Lemma list_find_cons (a d : Z) docs :
  list_find (eq a) (d :: docs)
  = if decide (a = d) then Some (0%nat, d) else prod_map S id <$> list_find (eq a) docs.
Proof. done. Qed.

Lemma step_before_anchor p pos n l d :
  has_anchor p = true → 0 ≤ n → d ≠ anchor p →
  pg_add 0 d (with_page pos n false l p) = (with_page pos n false l p, true).
Proof.
  intros Ha Hn Hd. unfold pg_add. cbn [with_page has_anchor anchor_offset anchor_found anchor].
  rewrite Ha. destruct (Z.leb_spec 0 n); [|lia]. by destruct (Z.eqb_spec d (anchor p)).
Qed.
Lemma step_at_anchor p pos n l :
  has_anchor p = true →
  pg_add 0 (anchor p) (with_page pos n false l p) = pg_add 0 (anchor p) (with_page pos n true l p).
Proof.
  intros Ha. unfold pg_add. cbn [with_page has_anchor anchor_offset anchor_found anchor].
  rewrite Ha, Z.eqb_refl. done.
Qed.

(** An anchor and an offset after it. *)
Lemma add_all_anchor docs p pos n :
  has_anchor p = true → 0 ≤ n → (0 < limit p)%nat →
  let r := add_all docs (with_page pos n false [] p) in
  match list_find (eq (anchor p)) docs with
  | Some (i, _) =>
      let l' := take (limit p) (drop (i + Z.to_nat n) docs) in
      ∃ n', r = (with_page pos n' true l' p, bool_decide (length l' < limit p)%nat)
  | None => r = (with_page pos n false [] p, true)
  end.
Proof.
  intros Ha Hn Hl. induction docs as [|d docs IH]; [done|]. rewrite list_find_cons.
  case_decide as Hd.
  - pose proof (add_all_countdown (limit p) (λ n l, with_page pos n true l p)
      (λ n l d, step_offset p pos n l d Ha) (d :: docs) n [] Hn ltac:(cbn; lia)) as Hc.
    cbn [app length] in Hc. rewrite Nat.sub_0_r in Hc. eexists. etrans; [|exact Hc].
    cbn [add_all]. by rewrite <-Hd, step_at_anchor.
  - cbn [add_all]. rewrite step_before_anchor by done.
    destruct (list_find (eq (anchor p)) docs) as [[i x]|]; [|done]. cbn in *. done.
Qed.

(** An anchor and a negative offset: everything up to the anchor. *)
Lemma add_all_to_anchor docs p pos n fnd l :
  has_anchor p = true → n < 0 →
  let r := add_all docs (with_page pos n fnd l p) in
  match list_find (eq (anchor p)) docs with
  | Some (i, _) => r = (with_page n n true (l ++ take (S i) docs) p, false)
  | None => docs ≠ [] → r = (with_page pos n false (l ++ docs) p, true)
  end.
Proof.
  intros Ha Hn. revert fnd l. induction docs as [|d docs IH]; intros fnd l; [by intros r Hne|].
  rewrite list_find_cons. cbn [add_all]. unfold pg_add.
  cbn [with_page has_anchor anchor_offset anchor_found anchor]. rewrite Ha. cbn [negb].
  destruct (Z.leb_spec 0 n); [lia|]. case_decide as Hd.
  - subst d. rewrite Z.eqb_refl. done.
  - destruct (Z.eqb_spec d (anchor p)); [by subst|].
    change (push_id _ _) with (with_page pos n false (l ++ [d]) p). cbn zeta.
    specialize (IH false (l ++ [d])). cbn zeta in IH.
    destruct (list_find (eq (anchor p)) docs) as [[i x]|] eqn:E; cbn [fmap option_fmap option_map prod_map id fst snd].
    + rewrite IH. by rewrite <-app_assoc.
    + intros _. destruct docs as [|d2 docs]; [done|]. rewrite IH by done. by rewrite <-app_assoc.
Qed.

(** ** What [build] returns *)

Lemma window_clip limit start (l : list Z) :
  take ((start + limit) `min` length l - start) (drop start l) = window limit start l.
Proof.
  unfold window. destruct (decide (start + limit ≤ length l)%nat).
  - rewrite Nat.min_l by done. f_equal. lia.
  - rewrite Nat.min_r by lia. rewrite !take_ge by (rewrite length_drop; lia). done.
Qed.

Lemma i32_of_nat n : Z.of_nat n < 2 ^ 31 → i32_of_u32 (wrap 32 (Z.of_nat n)) = Z.of_nat n.
Proof.
  intros Hn. unfold i32_of_u32. rewrite wrap_small by (unfold uint_ok; lia).
  by rewrite decide_True.
Qed.

(** A page counted from the end of what was kept. *)
Lemma build_from_end p n fnd (l : list Z) off :
  n < 0 → (0 < limit p)%nat → Z.of_nat (length l) < 2 ^ 31 →
  (has_anchor p = false → requested_position p < 0) → negb (has_anchor p) || fnd = true →
  let start := (length l - Z.to_nat (- n))%nat in
  pg_build (with_page n off fnd l p)
  = {| srs_position := Z.of_nat start; srs_ids := window (limit p) start l; found_anchor := true |}.
Proof.
  intros Hn Hlim Hlen Hreq Hf start. unfold pg_build.
  cbn [with_page has_anchor anchor_found requested_position position ids limit]. rewrite Hf.
  destruct (negb (has_anchor p) && (0 <=? requested_position p)) eqn:E.
  { apply andb_true_iff in E as [E%negb_true_iff Hz]. specialize (Hreq E).
    apply Z.leb_le in Hz. lia. }
  destruct (Z.leb_spec 0 n); [lia|]. rewrite (decide_True (P := (0 < limit p)%nat)) by done.
  replace (Z.abs n) with (- n) by lia.
  assert ((if decide (Z.to_nat (- n) < length l)%nat then length l - Z.to_nat (- n) else 0)%nat = start)
    as -> by (unfold start; case_decide; lia).
  rewrite window_clip, i32_of_nat by (unfold start; lia). done.
Qed.

Lemma pagination_new_page limit position anchor offset :
  pagination_new limit position anchor offset
  = with_page position offset false [] (pagination_new limit position anchor offset).
Proof. done. Qed.

(** Feeding the documents of a query one by one to the pagination, which may
    stop long before the last, gives the page that was asked for: from a
    position or an anchor on, or ending at the anchor for a negative offset. *)
Theorem pagination_exact docs lim pos anc off :
  (0 < lim)%nat → Z.of_nat (length docs) < 2 ^ 31 → (anc ≠ None → 0 ≤ pos) →
  pg_build (add_all docs (pagination_new lim pos anc off)).1 = page docs lim pos anc off.
Proof.
  intros Hlim Hlen Hpos. rewrite pagination_new_page. set (p := pagination_new lim pos anc off).
  unfold page. destruct anc as [a|].
  - unfold page_from. specialize (Hpos ltac:(done)). destruct (Z.leb_spec 0 off).
    + pose proof (add_all_anchor docs p pos off) as Hadd. cbn zeta in Hadd.
      change (anchor p) with a in Hadd. change (limit p) with lim in Hadd.
      destruct (list_find (eq a) docs) as [[i x]|].
      * destruct Hadd as [n' ->]; [done..|]. cbn [fst]. unfold pg_build, p. cbn.
        by destruct (Z.leb_spec 0 pos); [|lia].
      * by rewrite Hadd.
    + pose proof (add_all_to_anchor docs p pos off false []) as Hadd. cbn zeta in Hadd.
      change (anchor p) with a in Hadd.
      destruct (list_find (eq a) docs) as [[i x]|] eqn:Ei.
      * rewrite Hadd by done. cbn [fst app].
        assert (length (take (S i) docs) = S i) as Hi.
        { apply list_find_Some in Ei as (Hi & _ & _). apply lookup_lt_Some in Hi.
          rewrite length_take. lia. }
        rewrite build_from_end; [by rewrite Hi|done|done| |done|done].
        rewrite Hi. rewrite length_take in Hi. lia.
      * destruct docs as [|d docs]; [done|]. by rewrite Hadd.
  - unfold page_at. destruct (Z.leb_spec 0 pos).
    + rewrite (add_all_countdown lim (λ n l, with_page n off false l p)
        (λ n l d, step_position p off false n l d eq_refl)) by (cbn; lia).
      cbn [fst app length]. rewrite Nat.sub_0_r. unfold pg_build, p. cbn.
      destruct (Z.leb_spec 0 pos); [|lia]. unfold window. f_equal.
      destruct (Z.eqb_spec (0 `max` (pos - Z.of_nat (length docs))) 0),
        (Z.leb_spec pos (Z.of_nat (length docs))); lia.
    + rewrite add_all_from_end by done. cbn [fst app]. by rewrite build_from_end.
Qed.

Example page_after_anchor :
  pg_build (add_all [11; 12; 13; 14; 15] (pagination_new 2 0 (Some 12) 1)).1
  = {| srs_position := 0; srs_ids := [13; 14]; found_anchor := true |}.
Proof. rewrite pagination_exact; [reflexivity|lia|cbn; lia|done]. Qed.

(** ** Stopping early *)

(** Paging forward: from a position, or from an anchor on. *)
Definition forward (p : Pagination) : Prop :=
  if has_anchor p then 0 ≤ anchor_offset p else 0 ≤ position p.
Definition roomy (p : Pagination) : Prop := (length (ids p) < limit p)%nat.

Lemma push_limited_room id p :
  roomy p → if (push_limited id p).2 then roomy (push_limited id p).1
            else is_full (push_limited id p).1 = true.
Proof.
  unfold roomy, push_limited, is_full. intros Hr. cbn [fst snd push_id ids limit].
  rewrite length_app. cbn [length]. case_bool_decide; cbn; [done|lia].
Qed.

Lemma pg_add_forward prefix d p :
  forward p → roomy p →
  forward (pg_add prefix d p).1 ∧
  if (pg_add prefix d p).2 then roomy (pg_add prefix d p).1
  else is_full (pg_add prefix d p).1 = true.
Proof.
  unfold forward. intros Hf Hr. unfold pg_add. set (id := Z.lor _ _).
  destruct (has_anchor p) eqn:Ha; cbn [negb].
  - destruct (Z.leb_spec 0 (anchor_offset p)); [|lia].
    destruct (negb (anchor_found p) && _); cbn [fst snd]; [by rewrite Ha|].
    cbn [set_anchor_found anchor_offset]. destruct (Z.ltb_spec 0 (anchor_offset p)).
    + cbn. rewrite Ha. split; [lia|done].
    + split; [cbn; by rewrite Ha|]. apply (push_limited_room id (set_anchor_found true p)). done.
  - destruct (Z.leb_spec 0 (position p)); [|lia]. destruct (Z.ltb_spec 0 (position p)).
    + cbn. rewrite Ha. split; [lia|done].
    + split; [cbn; by rewrite Ha|]. by apply push_limited_room.
Qed.

Lemma add_all_forward docs p :
  forward p → roomy p →
  if (add_all docs p).2 then forward (add_all docs p).1 ∧ roomy (add_all docs p).1
  else is_full (add_all docs p).1 = true.
Proof.
  revert p. induction docs as [|d docs IH]; intros p Hf Hr; [done|]. cbn [add_all].
  destruct (pg_add_forward 0 d p Hf Hr) as [Hf' Hr']. destruct (pg_add 0 d p) as [p' c].
  cbn [fst snd] in *. destruct c; [by apply IH|done].
Qed.

Lemma add_all_app l1 l2 p :
  add_all (l1 ++ l2) p
  = if (add_all l1 p).2 then add_all l2 (add_all l1 p).1 else ((add_all l1 p).1, false).
Proof.
  revert p. induction l1 as [|d l1 IH]; intros p; [done|]. cbn [app add_all].
  destruct (pg_add 0 d p) as [p' []]; [apply IH|done].
Qed.

Lemma roomy_not_full p : roomy p → is_full p = false.
Proof. unfold roomy, is_full. intros. rewrite bool_decide_false; [done|lia]. Qed.

(** ** The documents in the order of an index *)

Definition row_doc (r : row) : Z :=
  match deserialize_be_u32_end r.1 U32_LEN with Ok d => d | Err _ => 0 end.

(** The first row of each document of a set. *)
Fixpoint pick (s : gset Z) (rows : list row) : list row :=
  match rows with
  | [] => []
  | r :: rows =>
      if decide (row_doc r ∈ s) then r :: pick (s ∖ {[row_doc r]}) rows else pick s rows
  end.

Lemma pick_sub s rows r : r ∈ pick s rows → r ∈ rows ∧ row_doc r ∈ s.
Proof.
  revert s. induction rows as [|r0 rows IH]; intros s; cbn [pick]; [by intros ?%elem_of_nil|]. case_decide.
  - rewrite !elem_of_cons. intros [->|Hin]; [auto|]. apply IH in Hin. set_solver.
  - rewrite elem_of_cons. intros Hin. apply IH in Hin. tauto.
Qed.

Lemma pick_sorted (R : row → row → Prop) s rows :
  StronglySorted R rows → StronglySorted R (pick s rows).
Proof.
  intros Hs. revert s. induction Hs as [|r rows Hs IH Hf]; intros s; cbn [pick]; [constructor|].
  case_decide; [|done]. constructor; [done|]. rewrite list.Forall_forall in *.
  intros x Hx. apply Hf. by apply pick_sub in Hx as [? _].
Qed.

Lemma pick_docs s rows d :
  d ∈ row_doc <$> pick s rows ↔ d ∈ s ∧ d ∈ row_doc <$> rows.
Proof.
  revert s. induction rows as [|r rows IH]; intros s; cbn [pick]; [set_solver|].
  case_decide; rewrite ?fmap_cons, ?elem_of_cons, IH.
  - destruct (decide (d = row_doc r)); set_solver.
  - set_solver.
Qed.

Lemma pick_nodup s rows : NoDup (row_doc <$> pick s rows).
Proof.
  revert s. induction rows as [|r rows IH]; intros s; cbn [pick]; [constructor|].
  case_decide; [|done]. rewrite fmap_cons. constructor; [|done].
  rewrite pick_docs. set_solver.
Qed.

(** The documents without a row, in ascending order. *)
Definition unindexed (s : gset Z) (rows : list row) : list Z :=
  merge_sort Z.le (elements (s ∖ list_to_set (row_doc <$> pick s rows))).
Definition index_order (s : gset Z) (rows : list row) : list Z :=
  (row_doc <$> pick s rows) ++ unindexed s rows.

Lemma index_order_perm s rows : index_order s rows ≡ₚ elements s.
Proof.
  unfold index_order, unindexed. rewrite merge_sort_Permutation.
  rewrite <-(elements_list_to_set (C:=gset Z) (row_doc <$> pick s rows)) at 1 by apply pick_nodup.
  rewrite <-elements_disj_union by set_solver. f_equiv. intros d.
  rewrite elem_of_union, elem_of_difference, elem_of_list_to_set, pick_docs.
  destruct (decide (d ∈ row_doc <$> rows)); set_solver.
Qed.

Section sort_theory.
Context {DB Txn : Type} `{RocksDBLaws DB Txn} {B : Type} `{RoaringBitmapLaws B}.

(** A bitmap iterates in ascending order. *)
Lemma rb_iter_elements (b : B) : rb_iter b = merge_sort Z.le (elements (rb_elems b)).
Proof.
  assert (StronglySorted Z.le (rb_iter b)) as Hle.
  { pose proof (rb_iter_sorted b) as Hs. induction Hs as [|x l Hs IH Hf]; constructor; [done|].
    eapply Forall_impl; [exact Hf|]. cbn. lia. }
  apply (StronglySorted_unique Z.le); [done|apply (StronglySorted_merge_sort Z.le)|].
  rewrite merge_sort_Permutation. apply NoDup_Permutation.
  - pose proof (rb_iter_sorted b) as Hs. induction Hs as [|x l Hs IH Hf]; constructor.
    + intros Hin. rewrite list.Forall_forall in Hf. specialize (Hf x Hin). lia.
    + apply IH. by apply StronglySorted_inv in Hle as [? _].
  - apply NoDup_elements.
  - intros x. by rewrite elem_of_elements, rb_iter_elems.
Qed.

Lemma sort_callback_row (b : B) p k x d :
  deserialize_be_u32_end k U32_LEN = Ok d →
  sort_callback (b, p) k x
  = if decide (d ∈ rb_elems b)
    then Ok (rb_remove d b, (pg_add 0 d p).1, (pg_add 0 d p).2) else Ok (b, p, true).
Proof.
  intros Hd. unfold sort_callback. rewrite Hd. cbn [mbind result_bind]. rewrite rb_contains_spec.
  case_decide; [rewrite bool_decide_true by done|by rewrite bool_decide_false].
  by destruct (pg_add 0 d p).
Qed.

Lemma sort_visit rows (b : B) p :
  (∀ r, r ∈ rows → is_ok (deserialize_be_u32_end r.1 U32_LEN)) →
  let picked := row_doc <$> pick (rb_elems b) rows in
  ∃ b', visit false sort_callback rows (b, p) = Ok (b', (add_all picked p).1) ∧
    ((add_all picked p).2 = true → rb_elems b' = rb_elems b ∖ list_to_set picked).
Proof.
  revert b p. induction rows as [|[k x] rows IH]; intros b p Hrows; cbn zeta.
  { exists b. split; [done|]. intros _. cbn. by rewrite difference_empty_L. }
  destruct (Hrows (k, x)) as [d Hd]; [by left|]. cbn [fst] in Hd.
  assert (row_doc (k, x) = d) as Hrd by (unfold row_doc; cbn [fst]; by rewrite Hd).
  cbn [visit pick]. rewrite (sort_callback_row _ _ _ _ d) by done.
  rewrite Hrd. destruct (decide (d ∈ rb_elems b)) as [Hin|Hin].
  - rewrite fmap_cons. cbn [add_all]. rewrite Hrd.
    destruct (pg_add 0 d p) as [p' c] eqn:Hadd. cbn [mbind result_bind fst snd].
    destruct c; cbn [negb orb].
    + destruct (IH (rb_remove d b) p') as (b' & Hv & Hb); [intros; apply Hrows; by right|].
      rewrite rb_elems_remove in Hv, Hb. exists b'. split; [exact Hv|].
      intros Ht. rewrite Hb by done. rewrite list_to_set_cons. set_solver.
    + by eexists.
  - cbn [mbind result_bind negb orb]. apply IH. intros; apply Hrows; by right.
Qed.

(** The rows of a field: those between its prefix and the next one. *)
Definition field_rows (m : store_map) (a col f : Z) (asc : bool) : list row :=
  range_rows m SUBSPACE_INDEXES (idx_prefix a col f) (idx_prefix a col (f + 1)) asc.

Lemma field_prefix a col f a' col' f' r :
  r ≠ [] → idx_prefix a col f ≤ᵇ idx_prefix a' col' f' ++ r →
  idx_prefix a' col' f' ++ r ≤ᵇ idx_prefix a col (f + 1) →
  idx_prefix a' col' f' = idx_prefix a col f.
Proof.
  intros Hr Hlo Hhi. set (q := to_be_bytes 4 a ++ [col]).
  assert (∀ g, idx_prefix a col g = q ++ [g]) as Hq by (intros; unfold q, idx_prefix; by rewrite <-app_assoc).
  rewrite !Hq in *. pose proof (bytes_range_prefix _ _ _ _ Hlo Hhi) as He.
  assert (length q = 5%nat) as Hlq by (unfold q; by rewrite length_app, to_be_bytes_length).
  unfold idx_prefix in He. rewrite Hlq in He. cbn [to_be_bytes app drop] in He.
  assert (idx_prefix a' col' f' = q ++ [f']) as He'.
  { unfold idx_prefix. cbn [to_be_bytes app]. unfold q in He |- *. cbn [to_be_bytes app] in He |- *.
    injection He as -> -> -> -> ->. done. }
  rewrite He' in *. rewrite <-app_assoc, bytes_le_app in Hlo, Hhi. f_equal. f_equal.
  unfold bytes_le in *. cbn [app bytes_cmp] in *.
  destruct (Z.compare_spec f f'), (Z.compare_spec f' (f + 1)); try done; try lia. by destruct r.
Qed.

Lemma field_rows_spec m a col f asc k x :
  index_ok m → (k, x) ∈ field_rows m a col f asc ↔
  m !! (SUBSPACE_INDEXES, k) = Some x ∧ ∃ v d, uint_ok 32 d ∧ bytes_ok v ∧ k = idx_row a col f v d.
Proof.
  intros Hm. unfold field_rows. rewrite elem_of_range_rows. split.
  - intros (Hlo & Hhi & Hx). split; [done|].
    destruct (Hm _ _ Hx) as (a' & c' & f' & v & d & Ha' & Hd & Hv & ->).
    exists v, d. split_and!; [done..|]. unfold idx_row in *. f_equal.
    apply (field_prefix a col f a' c' f' (v ++ to_be_bytes 4 d)); [|done..].
    intros He. apply (f_equal length) in He. rewrite length_app, to_be_bytes_length in He. cbn in He. lia.
  - intros (Hx & v & d & Hd & Hv & ->). split_and!; [apply bytes_le_prefix| |done].
    unfold idx_row, idx_prefix. rewrite <-app_assoc. apply bytes_le_app. unfold bytes_le.
    cbn [app bytes_cmp]. rewrite Z.compare_refl.
    by rewrite (proj2 (Z.compare_lt_iff f (f + 1))) by lia.
Qed.

Lemma row_doc_row a col f v d x : uint_ok 32 d → row_doc (idx_row a col f v d, x) = d.
Proof. intros Hd. unfold row_doc. cbn [fst]. by rewrite index_id_row. Qed.

(** The order of the documents: by their entries in the index, then those
    without one by their ids. *)
Definition index_before (m : store_map) (a col f : Z) (asc : bool) (d1 d2 : Z) : Prop :=
  (∃ v1, indexed m a col f v1 d1 ∧
     ∀ v2, bytes_ok v2 → indexed m a col f v2 d2 →
       if asc then idx_row a col f v1 d1 <ᵇ idx_row a col f v2 d2
       else idx_row a col f v2 d2 <ᵇ idx_row a col f v1 d1) ∨
  ((∀ v, bytes_ok v → ¬ indexed m a col f v d1) ∧
   (∀ v, bytes_ok v → ¬ indexed m a col f v d2) ∧ d1 < d2).

Lemma field_rows_sorted m a col f (asc : bool) :
  StronglySorted (if asc then row_lt else flip row_lt) (field_rows m a col f asc).
Proof.
  unfold field_rows, range_rows. destruct asc; [|apply StronglySorted_reverse];
    apply StronglySorted_filter, cf_rows_sorted.
Qed.

Lemma unindexed_sorted s rows : StronglySorted Z.lt (unindexed s rows).
Proof.
  apply StronglySorted_lt; [|apply (StronglySorted_merge_sort Z.le)].
  unfold unindexed. rewrite merge_sort_Permutation. apply NoDup_elements.
Qed.

Lemma unindexed_spec m a col f asc (s : gset Z) d :
  index_ok m → (∀ d, d ∈ s → uint_ok 32 d) → d ∈ unindexed s (field_rows m a col f asc) →
  d ∈ s ∧ ∀ v, bytes_ok v → ¬ indexed m a col f v d.
Proof.
  intros Hm Hs. unfold unindexed. rewrite merge_sort_Permutation, elem_of_elements.
  rewrite elem_of_difference, elem_of_list_to_set, pick_docs. intros [Hd Hn]. split; [done|].
  intros v Hv [x Hx]. apply Hn. split; [done|]. apply list_elem_of_fmap.
  exists (idx_row a col f v d, x). rewrite row_doc_row by auto. split; [done|].
  apply field_rows_spec; [done|]. split; [done|]. exists v, d. auto.
Qed.

(** The order of the picked documents is that of their rows. *)
Lemma fmap_sorted {A C} (R : A → A → Prop) (S : C → C → Prop) (g : A → C) (l : list A) :
  (∀ x y, x ∈ l → y ∈ l → R x y → S (g x) (g y)) →
  StronglySorted R l → StronglySorted S (g <$> l).
Proof.
  intros Hg Hs. induction Hs as [|x l Hs IH Hf]; [constructor|]. rewrite fmap_cons. constructor.
  - apply IH. intros y z Hy Hz. apply Hg; by right.
  - apply Forall_fmap. rewrite list.Forall_forall in *. intros y Hy. cbn.
    apply Hg; [by left|by right|by apply Hf].
Qed.

Lemma index_order_sorted m a col f asc (s : gset Z) :
  index_ok m → (∀ d, d ∈ s → uint_ok 32 d) →
  (∀ v v' d, bytes_ok v → bytes_ok v' → indexed m a col f v d → indexed m a col f v' d → v = v') →
  StronglySorted (index_before m a col f asc) (index_order s (field_rows m a col f asc)).
Proof.
  intros Hm Hs Huniq. unfold index_order. set (rows := field_rows m a col f asc).
  assert (∀ r, r ∈ pick s rows → ∃ v, bytes_ok v ∧ indexed m a col f v (row_doc r) ∧
            r.1 = idx_row a col f v (row_doc r)) as Hrow.
  { intros [k x] [Hin _]%pick_sub. apply field_rows_spec in Hin as (Hx & v & d & Hd & Hv & ->); [|done].
    rewrite row_doc_row by done. exists v. split_and!; [done|by exists x|done]. }
  apply StronglySorted_app. split_and!.
  - intros d1 d2 (r1 & -> & Hr1)%list_elem_of_fmap [Hd2 Hno]%unindexed_spec; [|done..].
    destruct (Hrow r1 Hr1) as (v & Hv & Hi & _). left. exists v. split; [done|].
    intros v2 Hv2 Hi2. by destruct (Hno v2).
  - apply (fmap_sorted (if asc then row_lt else flip row_lt)); [|apply pick_sorted, field_rows_sorted].
    intros r1 r2 Hr1 Hr2 Hlt. destruct (Hrow r1 Hr1) as (v1 & Hv1 & Hi1 & E1).
    destruct (Hrow r2 Hr2) as (v2 & Hv2 & Hi2 & E2). left. exists v1. split; [done|].
    intros v Hv Hi. rewrite (Huniq v v2 _ Hv Hv2 Hi Hi2), <-E1, <-E2. by destruct asc.
  - pose proof (unindexed_sorted s rows) as Hu.
    assert (∀ d, d ∈ unindexed s rows → ∀ v, bytes_ok v → ¬ indexed m a col f v d) as Hno.
    { intros d Hd. by apply (unindexed_spec m a col f asc s d). }
    rewrite <-(list_fmap_id (unindexed s rows)). apply (fmap_sorted Z.lt); [|done].
    intros d1 d2 Hd1 Hd2 Hlt. right. unfold id. eauto.
Qed.

(** The pages of a limit and of the number of documents. *)
Lemma window_min n lim start (l : list Z) :
  (length l ≤ n)%nat → window (n `min` lim) start l = window lim start l.
Proof.
  intros Hl. unfold window. destruct (decide (lim ≤ n)%nat); [by rewrite Nat.min_r|].
  rewrite Nat.min_l by lia. rewrite !take_ge by (rewrite length_drop; lia). done.
Qed.

Lemma page_min docs n lim pos anc off :
  (length docs ≤ n)%nat → page docs (n `min` lim) pos anc off = page docs lim pos anc off.
Proof.
  intros Hl. unfold page, page_at, page_from. destruct anc as [a|].
  - destruct (list_find (eq a) docs) as [[i x]|]; [|done].
    rewrite !window_min by (rewrite ?length_take; lia). done.
  - by rewrite !window_min.
Qed.

(** Sorting by one field, paging forward. *)
Lemma sort_single_page (db : DB) (rs : ResultSet B) f asc p :
  index_ok (db_map db) → 0 ≤ f < 255 → forward p → roomy p → prefix_key p = None →
  let rows := field_rows (db_map db) (rs_account_id rs) (rs_collection rs) f asc in
  let docs := index_order (rb_elems (results rs)) rows in
  sort_single db rs (CmpField f asc) p = Ok (pg_build (add_all docs p).1).
Proof.
  intros Hm Hf Hfw Hroom Hpk rows docs. unfold sort_single.
  assert (iterate db (index_range rs f asc) sort_callback (results rs, p)
          = visit false sort_callback rows (results rs, p)) as ->.
  { rewrite iterate_visit. unfold index_range, rows, field_rows.
    cbn [first ascending begin end_ set_ascending no_values params_new key_subspace key_serialize
      index_key_prefix]. rewrite !index_prefix_bytes, wrap_small by (unfold uint_ok; lia). done. }
  destruct (sort_visit rows (results rs) p) as (b & -> & Hb).
  { intros [k x] Hin. apply field_rows_spec in Hin as (_ & v & d & Hd & _ & ->); [|done].
    exists d. cbn [fst]. by apply index_id_row. }
  cbn [mbind result_bind]. set (picked := row_doc <$> pick (rb_elems (results rs)) rows) in *.
  assert ((if negb (rb_is_empty b) && negb (is_full (add_all picked p).1)
           then (add_all (rb_iter b) (add_all picked p).1).1 else (add_all picked p).1)
          = (add_all docs p).1) as ->.
  { unfold docs, index_order. fold picked. rewrite add_all_app.
    pose proof (add_all_forward picked p Hfw Hroom) as Hfwd.
    destruct ((add_all picked p).2).
    - rewrite roomy_not_full by (by destruct Hfwd). rewrite andb_true_r.
      unfold unindexed. fold picked. rewrite <-Hb, <-rb_iter_elements by done.
      rewrite rb_is_empty_spec. case_bool_decide as He; [|done]. cbn [negb].
      by rewrite rb_iter_elements, He.
    - rewrite Hfwd, andb_false_r. done. }
  assert (∀ l q, prefix_key (add_all l q).1 = prefix_key q) as Hprefix.
  { clear. induction l as [|d l IH]; intros q; [done|]. cbn [add_all].
    assert (prefix_key (pg_add 0 d q).1 = prefix_key q) as He.
    { unfold pg_add, push_limited. repeat case_match; done. }
    destruct (pg_add 0 d q) as [q' []]; cbn [fst] in *; [by rewrite IH|done]. }
  by rewrite Hprefix, Hpk.
Qed.

(** C38: Sorting by one field, for a page asked for by a position that is not
    negative or by an anchor with an offset that is not negative, and without
    unique prefixes, returns that page of the result set in the order of the
    index: every document once, by its value in the direction that was asked
    for, and the documents that the index does not have after all others.  The
    result set is not empty, and a document has one value in the index. *)
Theorem sort_field_exact (db : DB) (rs : ResultSet B) f asc lim pos anc off :
  let m := db_map db in let a := rs_account_id rs in let col := rs_collection rs in
  let s := rb_elems (results rs) in
  index_ok m → 0 ≤ f < 255 → s ≠ ∅ → Z.of_nat (size s) < 2 ^ 31 →
  (∀ d, d ∈ s → uint_ok 32 d) →
  (∀ v v' d, bytes_ok v → bytes_ok v' → indexed m a col f v d → indexed m a col f v' d → v = v') →
  0 ≤ pos → 0 ≤ off →
  ∃ docs, docs ≡ₚ elements s ∧ StronglySorted (index_before m a col f asc) docs ∧
    sort db rs [CmpField f asc] (pagination_new lim pos anc off)
    = Ok (page docs (if decide (lim = 0%nat) then size s else lim) pos anc off).
Proof.
  intros m a col s Hm Hf Hne Hsize Hs Huniq Hpos Hoff.
  set (rows := field_rows m a col f asc). set (docs := index_order s rows).
  assert (docs ≡ₚ elements s) as Hperm by apply index_order_perm.
  assert (length docs = size s) as Hlen by (by rewrite Hperm).
  assert (0 < size s)%nat as Hpositive.
  { destruct (decide (size s = 0%nat)) as [He|]; [|lia]. apply size_empty_iff in He.
    apply leibniz_equiv in He. done. }
  exists docs. split; [done|]. split; [by apply index_order_sorted|].
  unfold sort. rewrite rb_len_spec, Nat2Z.id. fold s. rewrite decide_False by lia.
  cbn [pagination_new limit prefix_unique set_limit].
  set (lim' := (if decide (lim = 0%nat) then size s else size s `min` lim)%nat).
  change (set_limit lim' (pagination_new lim pos anc off)) with (pagination_new lim' pos anc off).
  assert (0 < lim')%nat as Hlim by (unfold lim'; case_decide; lia).
  rewrite sort_single_page; [|done|done| |done|done].
  - fold m a col s rows docs. rewrite pagination_exact by (rewrite ?Hlen; auto).
    unfold lim'. case_decide; [done|]. by rewrite page_min by lia.
  - unfold forward. cbn. by destruct anc.
Qed.
End sort_theory.

(** Three documents with dates 30, 10 and 20 and one without. *)
Definition sort_db : LogDb.DB :=
  let date v d := ((SUBSPACE_INDEXES, idx_row 1 0 4 (to_be_bytes 8 v) d), Some []) in
  [date 30 1; date 10 2; date 20 3].
Definition sort_results : ResultSet (gset Z) :=
  {| rs_account_id := 1; rs_collection := 0; results := {[1; 2; 3; 4]} |}.


Definition one_date : LogDb.DB := [((SUBSPACE_INDEXES, idx_row 1 0 4 (to_be_bytes 8 30) 1), Some [])].
Definition two_results : ResultSet (gset Z) :=
  {| rs_account_id := 1; rs_collection := 0; results := {[4; 1]} |}.

Lemma one_date_indexed v d : indexed (db_map one_date) 1 0 4 v d → v = to_be_bytes 8 30.
Proof.
  intros [x Hx]. change (db_map one_date) with
    (<[(SUBSPACE_INDEXES, idx_row 1 0 4 (to_be_bytes 8 30) 1) := []]> (∅ : store_map)) in Hx.
  apply lookup_insert_Some in Hx as [[He _]|[_ Hx]]; [|by rewrite lookup_empty in Hx].
  apply (f_equal snd) in He. cbn [snd] in He. apply (f_equal index_value) in He.
  rewrite !index_value_row in He. congruence.
Qed.

Lemma sort_field_exact_witness :
  ∃ docs, docs ≡ₚ [1; 4] ∧
    sort one_date two_results [CmpField 4 true] (pagination_new 0 0 None 0)
    = Ok (page docs 2 0 None 0).
Proof.
  assert (index_ok (db_map one_date)) as Hm.
  { change (db_map one_date) with
      (<[(SUBSPACE_INDEXES, idx_row 1 0 4 (to_be_bytes 8 30) 1) := []]> (∅ : store_map)).
    apply index_ok_insert; [apply index_ok_empty|unfold uint_ok; lia..|apply to_be_bytes_ok]. }
  assert (∀ d, d ∈ rb_elems (results two_results) → uint_ok 32 d) as Hd.
  { intros d. change (rb_elems (results two_results)) with ({[4; 1]} : gset Z).
    rewrite elem_of_union, !elem_of_singleton. unfold uint_ok. lia. }
  destruct (sort_field_exact (B:=gset Z) one_date two_results 4 true 0 0 None 0 Hm)
    as (docs & Hperm & _ & Hsort); [lia|by vm_compute|by vm_compute|exact Hd| |lia|lia|].
  - intros v v' d _ _ Hv Hv'. apply one_date_indexed in Hv, Hv'. by rewrite Hv, Hv'.
  - exists docs. split; [|exact Hsort]. rewrite Hperm. apply (bool_decide_unpack _). by vm_compute.
Defined.

(** A page that ends at an anchor: in descending order of the dates (1, 3, 2
    and the undated 4), one document up to document 3.  The iteration stops at
    the anchor, but the documents that are left are then added as if the index
    did not have them, and the anchor counts as not found. *)
Example sort_anchor_lost :
  sort sort_db sort_results [CmpField 4 false] (pagination_new 3 0 (Some 3) (-1))
    = Ok {| srs_position := 0; srs_ids := [1; 3; 2; 4]; found_anchor := false |} ∧
  page [1; 3; 2; 4] 3 0 (Some 3) (-1)
    = {| srs_position := 1; srs_ids := [3]; found_anchor := true |}.
Proof. split; vm_compute; reflexivity. Qed.

(** A position from the end: the last document in ascending order is the
    undated 4.  The three dated documents fill a limit of three and 4 is left
    out, though the limit does not apply to what is collected here. *)
Example sort_last_lost :
  sort sort_db sort_results [CmpField 4 true] (pagination_new 3 (-1) None 0)
    = Ok {| srs_position := 2; srs_ids := [1]; found_anchor := true |} ∧
  page [2; 3; 1; 4] 3 (-1) None 0
    = {| srs_position := 3; srs_ids := [4]; found_anchor := true |}.
Proof. split; vm_compute; reflexivity. Qed.

(** With unique prefixes (collapsed threads) a single comparator is ignored:
    the documents come in the order of their ids. *)
Lemma sort_unique_unsorted `{RocksDB DB Txn} `{RoaringBitmap B} (db : DB) (rs : ResultSet B) c p :
  prefix_unique p = true → sort db rs [c] p = sort db rs [] p.
Proof. intros Hp. unfold sort. cbn [set_limit prefix_unique]. by rewrite Hp. Qed.
