(* ===== verification/AclTheory.v ===== *)
(** * Permissions: lookup and revocation

    What [acl_query] finds and what [acl_revoke_all] removes, in terms of the
    entries of the permissions subspace. *)

From stdpp Require Import base gmap sorting strings numbers list.
From S2P Require Import Prelude Codec Keys KeyTheory KeyOrder Roaring Kv KvModel Batch Commit CommitTheory Read Store ClearLoop Text Words Query.
Open Scope Z_scope.
Open Scope bytes_scope.

(** ** Entries *)

(** The entry of a permission on a document of [a], granted to [g]. *)
Definition acl_row (g a col d : Z) : list Z :=
  to_be_bytes 4 g ++ to_be_bytes 4 a ++ [col] ++ to_be_bytes 4 d.

Definition acl_ids_ok (g a col d : Z) : Prop :=
  uint_ok 32 g ∧ uint_ok 32 a ∧ uint_ok 8 col ∧ uint_ok 32 d.

#[export] Instance acl_ids_ok_dec g a col d : Decision (acl_ids_ok g a col d).
Proof. unfold acl_ids_ok. apply _. Defined.

(** Every entry is a permission: a 64-bit set of rights. *)
Definition acls_ok (m : store_map) : Prop :=
  ∀ k v, m !! (SUBSPACE_ACL, k) = Some v →
    (∃ g a col d, acl_ids_ok g a col d ∧ k = acl_row g a col d) ∧ length v = 8%nat ∧ bytes_ok v.

Lemma acls_ok_empty : acls_ok ∅.
Proof. intros k v Hl. by rewrite lookup_empty in Hl. Qed.
Lemma acls_ok_insert m g a col d v :
  acls_ok m → acl_ids_ok g a col d → length v = 8%nat → bytes_ok v →
  acls_ok (<[(SUBSPACE_ACL, acl_row g a col d) := v]> m).
Proof.
  intros Hm ??? k y. rewrite lookup_insert. case_decide as He; [|apply Hm].
  apply (f_equal snd) in He. cbn [snd] in He. subst k. intros [= <-]. split; [|done].
  by exists g, a, col, d.
Qed.

Lemma acl_key_row g a col d : key_serialize (acl_key g a col d) 0 = acl_row g a col d.
Proof.
  cbn [key_serialize value_key]. unfold value_key_serialize. rewrite value_serialize_bytes.
  change (flag_bytes 0 _) with (@nil Z). done.
Qed.

Lemma slice_middle p x r :
  slice_get (p ++ x ++ r) (length p) (length p + length x) = Some x.
Proof.
  unfold slice_get. rewrite !length_app, decide_True by lia. f_equal.
  rewrite drop_app_length. apply take_app_length'. lia.
Qed.

Lemma be32_at p d r :
  uint_ok 32 d → deserialize_be_u32 (p ++ to_be_bytes 4 d ++ r) (length p) = Ok d.
Proof.
  intros Hd. unfold deserialize_be_u32.
  pose proof (slice_middle p (to_be_bytes 4 d) r) as Hs. rewrite to_be_bytes_length in Hs.
  unfold U32_LEN. rewrite Hs. cbn [ok_or fmap result_fmap]. by rewrite from_to_be_bytes.
Qed.

Lemma acl_row_grant g a col d : uint_ok 32 g → deserialize_be_u32 (acl_row g a col d) 0 = Ok g.
Proof. apply (be32_at []). Qed.
Lemma acl_row_account g a col d :
  uint_ok 32 a → deserialize_be_u32 (acl_row g a col d) U32_LEN = Ok a.
Proof.
  intros Ha. pose proof (be32_at (to_be_bytes 4 g) a ([col] ++ to_be_bytes 4 d) Ha) as H.
  by rewrite to_be_bytes_length in H.
Qed.
Lemma acl_row_item g a col d :
  acl_ids_ok g a col d →
  acl_deserialize (acl_row g a col d)
  = Ok {| to_account_id := a; to_collection := col; to_document_id := d; permissions := 0 |}.
Proof.
  intros (Hg & Ha & Hc & Hd). unfold acl_deserialize. rewrite acl_row_account by done.
  cbn [mbind result_bind]. assert (acl_row g a col d !! (U32_LEN * 2)%nat = Some col) as ->.
  { unfold acl_row. rewrite lookup_app_r, lookup_app_r; rewrite !to_be_bytes_length; done || cbn; lia. }
  cbn [ok_or mbind result_bind].
  pose proof (be32_at (to_be_bytes 4 g ++ to_be_bytes 4 a ++ [col]) d [] Hd) as H.
  rewrite app_nil_r, !length_app, !to_be_bytes_length, <-!app_assoc in H.
  unfold acl_row, U32_LEN. change (4 * 2 + 1)%nat with (4 + (4 + length [col]))%nat. by rewrite H.
Qed.

Lemma acl_row_inj g a col d g' a' col' d' :
  acl_ids_ok g a col d → acl_ids_ok g' a' col' d' → acl_row g a col d = acl_row g' a' col' d' →
  g = g' ∧ a = a' ∧ col = col' ∧ d = d'.
Proof.
  intros H H' He. pose proof (acl_row_item g a col d H) as Hi.
  destruct H as (Hg & _), H' as (Hg' & Ha' & Hc' & Hd').
  pose proof (acl_row_grant g a col d Hg) as Hgr. rewrite He in Hi, Hgr.
  rewrite acl_row_item in Hi by done. rewrite acl_row_grant in Hgr by done. by simplify_eq.
Qed.

(** ** Queries *)

(** The permissions a query is after: what the granted-to account sees. *)
Definition acl_matches (q : AclQuery) (g : Z) (item : AclItem) : Prop :=
  match q with
  | SharedWith grant to_account to_coll =>
      g = grant ∧ to_account_id item = to_account ∧ to_collection item = to_coll
  | HasAccess grant => g = grant
  end.
Definition acl_query_ok (q : AclQuery) : Prop :=
  match q with
  | SharedWith grant to_account to_coll =>
      uint_ok 32 grant ∧ uint_ok 32 to_account ∧ uint_ok 8 to_coll
  | HasAccess grant => uint_ok 32 grant
  end.

Definition permission_item (a col d p : Z) : AclItem :=
  {| to_account_id := a; to_collection := col; to_document_id := d; permissions := p |}.

(** The smallest and the largest tail of a key. *)
Lemma be32_bounds d : to_be_bytes 4 0 ≤ᵇ to_be_bytes 4 d ∧ to_be_bytes 4 d ≤ᵇ to_be_bytes 4 U32_MAX.
Proof.
  split; [apply be32_zero_le|apply be32_max_ge]; try apply to_be_bytes_length; apply to_be_bytes_ok.
Qed.

Lemma bytes_le_fields v w r s : length v = length w → v ≤ᵇ w → r ≤ᵇ s → v ++ r ≤ᵇ w ++ s.
Proof.
  intros Hl Hvw Hrs. unfold bytes_le in *. rewrite bytes_cmp_app_eqlen by done.
  by destruct (bytes_cmp v w).
Qed.

Lemma byte_bounds col : uint_ok 8 col → [0] ≤ᵇ [col] ∧ [col] ≤ᵇ [U8_MAX].
Proof.
  unfold uint_ok, bytes_le, U8_MAX. intros Hc. cbn [bytes_cmp].
  destruct (Z.compare_spec 0 col), (Z.compare_spec col 255); split; done || lia.
Qed.

(** The bounds of a query hold exactly the permissions it is after. *)
Lemma acl_bounds_spec q g a col d p :
  acl_query_ok q → acl_ids_ok g a col d →
  (key_serialize (acl_bounds q).1 0 ≤ᵇ acl_row g a col d ∧
   acl_row g a col d ≤ᵇ key_serialize (acl_bounds q).2 0) ↔ acl_matches q g (permission_item a col d p).
Proof.
  intros Hq (Hg & Ha & Hc & Hd). pose proof (be32_bounds a) as [Ha0 Ha1].
  pose proof (be32_bounds d) as [Hd0 Hd1]. pose proof (byte_bounds col Hc) as [Hc0 Hc1].
  destruct q as [g' a' c'|g']; cbn [acl_bounds fst snd acl_matches permission_item to_account_id to_collection];
    rewrite !acl_key_row; unfold acl_row; cbn [acl_query_ok] in Hq.
  - destruct Hq as (Hg' & Ha' & Hc'). split.
    + rewrite !app_assoc. intros [Hlo Hhi]. pose proof (bytes_range_prefix _ _ _ _ Hlo Hhi) as He.
      apply app_inj_1 in He as [He _]; [|by rewrite !length_app, !to_be_bytes_length].
      rewrite <-!app_assoc in He. apply be32_split in He as [-> He]; [|done..].
      apply be32_split in He as [-> He]; [|done..]. by injection He.
    + intros (-> & -> & ->). by rewrite !bytes_le_app.
  - split.
    + intros [Hlo Hhi]. pose proof (bytes_range_prefix _ _ _ _ Hlo Hhi) as He.
      by apply be32_split in He as [-> _].
    + intros ->. rewrite !bytes_le_app. split; apply bytes_le_fields; try done;
        by apply bytes_le_fields.
Qed.

Section acl_theory.
Context {DB Txn : Type} `{RocksDBLaws DB Txn}.

(** The items of rows of permissions. *)
Definition row_item (r : row) : AclItem :=
  match acl_deserialize r.1 with
  | Ok item => with_permissions (from_be_bytes r.2) item
  | Err _ => permission_item 0 0 0 0
  end.

Lemma acl_visit rows acc :
  (∀ r, r ∈ rows → (∃ g a col d, acl_ids_ok g a col d ∧ r.1 = acl_row g a col d) ∧
     length r.2 = 8%nat) →
  visit false acl_query_callback rows acc = Ok (acc ++ (row_item <$> rows)).
Proof.
  revert acc. induction rows as [|[k v] rows IH]; intros acc Hrows.
  { by rewrite app_nil_r. }
  destruct (Hrows (k, v)) as [(g & a & col & d & Hok & Hk) Hv]; [by left|]. cbn [fst snd] in *.
  cbn [visit]. assert (acl_query_callback acc k v = Ok (acc ++ [row_item (k, v)], true)) as ->.
  { unfold acl_query_callback, row_item, u64_deserialize. cbn [fst snd].
    rewrite Hk, acl_row_item by done. cbn [mbind result_bind]. by rewrite decide_True. }
  cbn [mbind result_bind negb orb]. rewrite IH by (intros; apply Hrows; by right).
  by rewrite fmap_cons, <-app_assoc.
Qed.

Lemma row_item_row g a col d v :
  acl_ids_ok g a col d → row_item (acl_row g a col d, v) = permission_item a col d (from_be_bytes v).
Proof. intros Hok. unfold row_item. cbn [fst snd]. by rewrite acl_row_item. Qed.

(** C39: A permission query returns, once each, exactly the permissions that were
    granted to the account: on anything, or on the documents of one collection
    of one account. *)
Theorem acl_query_exact (db : DB) q :
  acls_ok (db_map db) → acl_query_ok q →
  ∃ items, acl_query db q = Ok items ∧ NoDup items ∧
    ∀ item, item ∈ items ↔ ∃ g v,
      acl_matches q g item ∧
      acl_ids_ok g (to_account_id item) (to_collection item) (to_document_id item) ∧
      db_map db !! (SUBSPACE_ACL,
        acl_row g (to_account_id item) (to_collection item) (to_document_id item)) = Some v ∧
      permissions item = from_be_bytes v.
Proof.
  intros Hm Hq. unfold acl_query.
  pose proof (λ g a col d, acl_bounds_spec q g a col d 0 Hq) as Hbounds.
  destruct (acl_bounds q) as [lo hi] eqn:Eb. cbn [fst snd] in Hbounds.
  assert (key_subspace lo = SUBSPACE_ACL) as Hsub.
  { apply (f_equal fst) in Eb. cbn [fst] in Eb. rewrite <-Eb. by destruct q. }
  rewrite iterate_visit. cbn [first ascending begin end_ set_ascending params_new].
  rewrite Hsub. set (rows := range_rows _ _ _ _ _).
  assert (∀ r, r ∈ rows → ∃ g a col d, acl_ids_ok g a col d ∧ r.1 = acl_row g a col d ∧
    length r.2 = 8%nat ∧ acl_matches q g (permission_item a col d 0) ∧
    db_map db !! (SUBSPACE_ACL, r.1) = Some r.2) as Hrows.
  { intros [k v] Hin. unfold rows in Hin. apply elem_of_range_rows in Hin as (Hlo & Hhi & Hv).
    destruct (Hm _ _ Hv) as [(g & a & col & d & Hok & ->) [Hl _]].
    exists g, a, col, d. split_and!; try done. by apply Hbounds. }
  exists (row_item <$> rows). rewrite acl_visit.
  2: { intros r Hr. destruct (Hrows r Hr) as (g & a & col & d & ? & ? & ? & _). eauto 10. }
  split; [done|]. split.
  - apply NoDup_fmap_2_strong.
    + intros [k v] [k' v'] Hr Hr' He.
      destruct (Hrows _ Hr) as (g & a & col & d & Hok & Hk & _ & Hmt & Hv),
        (Hrows _ Hr') as (g' & a' & col' & d' & Hok' & Hk' & _ & Hmt' & Hv'). cbn [fst snd] in *.
      subst k k'.
      rewrite !row_item_row in He by done. injection He as -> -> -> _.
      assert (g = g') as -> by (destruct q; cbn in Hmt, Hmt'; naive_solver). congruence.
    + unfold rows, range_rows. cbn. apply NoDup_filter, NoDup_cf_rows.
  - intros item. rewrite list_elem_of_fmap. split.
    + intros ([k v] & -> & Hr). destruct (Hrows _ Hr) as (g & a & col & d & Hok & Hk & _ & Hmt & Hv).
      cbn [fst snd] in *. subst k. rewrite row_item_row by done. exists g, v. cbn.
      split_and!; try done; apply Hok.
    + intros (g & v & Hmt & Hok & Hv & Hp). destruct item as [a col d p].
      cbn [to_account_id to_collection to_document_id permissions] in *.
      exists (acl_row g a col d, v). rewrite row_item_row by done. unfold permission_item. rewrite <-Hp.
      split; [done|]. unfold rows. apply elem_of_range_rows.
      destruct (proj2 (Hbounds g a col d Hok)) as [Hlo Hhi]; [by destruct q|done].
Qed.
End acl_theory.

(** ** Revocation *)

(** The account that a key of a permission names as the owner. *)
Definition acl_owner (k : list Z) : list Z := take 4 (drop 4 k).

Lemma acl_owner_row g a col d : acl_owner (acl_row g a col d) = to_be_bytes 4 a.
Proof.
  unfold acl_owner, acl_row. rewrite drop_app_length' by (by rewrite to_be_bytes_length).
  apply take_app_length'. by rewrite to_be_bytes_length.
Qed.

(** The key that a collected permission stands for. *)
Definition revoked_key (account_id : Z) (e : Z * AclItem) : list Z :=
  acl_row e.1 account_id (to_collection e.2) (to_document_id e.2).

Lemma revoke_item_cell account_id e :
  item_cell account_id (revoke_item e) = (SUBSPACE_ACL, revoked_key account_id e).
Proof.
  unfold item_cell. rewrite value_serialize_resolve, value_serialize_bytes. done.
Qed.

Section revoke.
Context {DB Txn : Type} `{StoreWriteLaws DB Txn}.

(** What the iteration collects. *)
Lemma revoke_visit account_id rows acc :
  (∀ r, r ∈ rows → ∃ g a col d, acl_ids_ok g a col d ∧ r.1 = acl_row g a col d) →
  uint_ok 32 account_id →
  ∃ es, visit false (acl_revoke_callback account_id) rows acc = Ok (acc ++ es) ∧
    (revoked_key account_id <$> es)
    = (fst <$> base.filter (λ r, acl_owner r.1 = to_be_bytes 4 account_id) rows) ∧
    ∀ e, e ∈ es → ∃ g a col d v, acl_ids_ok g a col d ∧ e = (g, permission_item a col d 0) ∧
      (acl_row g a col d, v) ∈ rows.
Proof.
  intros Hrows Ha. revert acc. induction rows as [|[k v] rows IH]; intros acc.
  { exists []. rewrite app_nil_r. split_and!; [done..|]. by intros e ?%elem_of_nil. }
  destruct (Hrows (k, v)) as (g & a & col & d & Hok & Hk); [by left|]. cbn [fst] in Hk. subst k.
  pose proof Hok as (Hg & Ha' & _). cbn [visit]. rewrite filter_cons. cbn [fst].
  assert (acl_revoke_callback account_id acc (acl_row g a col d) v
    = Ok (if decide (account_id = a) then acc ++ [(g, permission_item a col d 0)] else acc, true)) as ->.
  { unfold acl_revoke_callback. rewrite acl_row_account by done. cbn [mbind result_bind].
    case_decide; [|done]. by rewrite acl_row_grant, acl_row_item. }
  cbn [mbind result_bind negb orb]. rewrite acl_owner_row.
  destruct (decide (account_id = a)) as [->|Hne].
  - destruct (IH ltac:(intros; apply Hrows; by right) (acc ++ [(g, permission_item a col d 0)]))
      as (es & -> & He & Hes). rewrite decide_True by done.
    exists ((g, permission_item a col d 0) :: es). rewrite <-app_assoc. split_and!; [done| |].
    + rewrite !fmap_cons. f_equal. exact He.
    + intros e [->|(g' & a' & c' & d' & v' & ? & ? & ?)%Hes]%elem_of_cons;
        [exists g, a, col, d, v|exists g', a', c', d', v']; (split_and!; [done..|]); set_solver.
  - destruct (IH ltac:(intros; apply Hrows; by right) acc) as (es & -> & He & Hes).
    rewrite decide_False by (intros Hb%be32_inj; [by subst|done..]).
    exists es. split_and!; [done..|]. intros e (g' & a' & c' & d' & v' & ? & ? & ?)%Hes.
    exists g', a', c', d', v'. split_and!; [done..|]. set_solver.
Qed.

(** Revoking the permissions on an account's documents removes every
    permission that was granted on them, to whomever and on whatever
    collection, in as many batches as it takes, and touches nothing else. *)
Lemma acl_revoke_exact b (db db' : DB) account_id :
  store_ok b (db_map db) → 0 ≤ b ≤ 2 ^ 31 → acls_ok (db_map db) → uint_ok 32 account_id →
  (∀ g a col d, acl_ids_ok g a col d → is_Some (db_map db !! (SUBSPACE_ACL, acl_row g a col d)) → d < b) →
  acl_revoke_all db account_id = Ok db' →
  ∀ s k, db_map db' !! (s, k)
    = if decide (s = SUBSPACE_ACL ∧ acl_owner k = to_be_bytes 4 account_id) then None
      else db_map db !! (s, k).
Proof.
  intros Hdb Hb Hm Ha Hids. unfold acl_revoke_all. rewrite iterate_visit.
  cbn [first ascending begin end_ set_ascending no_values params_new].
  change (key_subspace (acl_key 0 0 0 0)) with SUBSPACE_ACL. rewrite !acl_key_row.
  set (rows := range_rows _ _ _ _ _).
  assert (∀ k v, (k, v) ∈ rows ↔ db_map db !! (SUBSPACE_ACL, k) = Some v) as Hrows.
  { intros k v. unfold rows. rewrite elem_of_range_rows. split; [tauto|]. intros Hv.
    destruct (Hm _ _ Hv) as [(g & a & col & d & (Hg & Ha' & Hc & Hd) & ->) _].
    destruct (byte_bounds col Hc). split_and!; [| |done]; unfold acl_row;
      repeat apply bytes_le_fields; try done; apply be32_bounds. }
  destruct (revoke_visit account_id rows []) as (es & -> & Hes & Hitems); [|done|].
  { intros [k v] Hr. apply Hrows in Hr. destruct (Hm _ _ Hr) as [(g & a & col & d & ? & ->) _].
    by exists g, a, col, d. }
  cbn [mbind result_bind app]. intros Hclear.
  apply (clear_all_spec b account_id Ha) in Hclear as [Hwo _]; [|done|done|].
  2: { apply Forall_fmap, list.Forall_forall. intros e Hin.
    destruct (Hitems e Hin) as (g & a & col & d & v & Hok & -> & Hr).
    apply Hrows in Hr. pose proof Hok as (_ & _ & ? & Hd). split; [done|].
    cbn [revoke_item snd permission_item to_document_id ci_document_id].
    split; [apply Hd|]. apply (Hids g a col d); [done|by exists v]. }
  apply (without_filtered _ _ (λ k, acl_owner k = to_be_bytes 4 account_id) rows _ Hrows).
  rewrite <-Hes, <-list_fmap_compose. rewrite <-list_fmap_compose in Hwo.
  erewrite list_fmap_ext; [exact Hwo|]. intros i e _. symmetry. apply revoke_item_cell.
Qed.
End revoke.

(** ** Two accounts and their permissions *)

Definition acl_db : LogDb.DB :=
  [((SUBSPACE_ACL, acl_row 7 1 0 2), Some (to_be_bytes 8 3));
   ((SUBSPACE_ACL, acl_row 8 1 2 5), Some (to_be_bytes 8 1));
   ((SUBSPACE_ACL, acl_row 7 2 0 4), Some (to_be_bytes 8 1))].

Lemma acl_db_ok : acls_ok (db_map acl_db).
Proof.
  change (db_map acl_db) with
    (<[(SUBSPACE_ACL, acl_row 7 1 0 2) := to_be_bytes 8 3]>
     (<[(SUBSPACE_ACL, acl_row 8 1 2 5) := to_be_bytes 8 1]>
      (<[(SUBSPACE_ACL, acl_row 7 2 0 4) := to_be_bytes 8 1]> (∅ : store_map)))).
  repeat (apply acls_ok_insert; [|by vm_compute|done|apply to_be_bytes_ok]). apply acls_ok_empty.
Qed.

Lemma acl_db_entry :
  db_map acl_db !! (SUBSPACE_ACL, acl_row 7 2 0 4) = Some (to_be_bytes 8 1).
Proof. vm_compute. reflexivity. Qed.

Lemma acl_query_exact_witness :
  ∃ items, acl_query acl_db (HasAccess 7) = Ok items ∧ permission_item 2 0 4 1 ∈ items.
Proof.
  destruct (acl_query_exact acl_db (HasAccess 7) acl_db_ok) as (items & Hi & _ & Hel).
  - cbn. unfold uint_ok. lia.
  - exists items. split; [exact Hi|]. apply Hel. exists 7, (to_be_bytes 8 1).
    split_and!; [done| |exact acl_db_entry|by vm_compute].
    apply (bool_decide_unpack _). by vm_compute.
Defined.

Lemma acl_db_documents g a col d :
  acl_ids_ok g a col d → is_Some (db_map acl_db !! (SUBSPACE_ACL, acl_row g a col d)) → d < 6.
Proof.
  intros Hok [v Hv]. change (db_map acl_db) with
    (<[(SUBSPACE_ACL, acl_row 7 1 0 2) := to_be_bytes 8 3]>
     (<[(SUBSPACE_ACL, acl_row 8 1 2 5) := to_be_bytes 8 1]>
      (<[(SUBSPACE_ACL, acl_row 7 2 0 4) := to_be_bytes 8 1]> (∅ : store_map)))) in Hv.
  rewrite !lookup_insert_Some, lookup_empty in Hv.
  assert (∀ g' a' col' d', acl_ids_ok g' a' col' d' →
    (SUBSPACE_ACL, acl_row g' a' col' d') = (SUBSPACE_ACL, acl_row g a col d) → d = d') as Hd.
  { intros g' a' col' d' Hok' He. apply (f_equal snd) in He. cbn [snd] in He.
    by apply acl_row_inj in He as (_ & _ & _ & ->). }
  destruct Hv as [[He _]|[_ [[He _]|[_ [[He _]|[_ ?]]]]]]; [..|done];
    apply Hd in He; try lia; by vm_compute.
Qed.

Lemma acl_revoke_exact_witness :
  match @acl_revoke_all _ _ _ example_write acl_db 1 with
  | Ok db' => db_map db' !! (SUBSPACE_ACL, acl_row 8 1 2 5) = None ∧
              db_map db' !! (SUBSPACE_ACL, acl_row 7 2 0 4) = Some (to_be_bytes 8 1)
  | Err _ => False
  end.
Proof.
  destruct (@acl_revoke_all _ _ _ example_write acl_db 1) as [db'|e] eqn:E; [|by vm_compute in E].
  assert (store_ok 6 (db_map acl_db)) as Hok.
  { change (db_map acl_db) with
      (<[(SUBSPACE_ACL, acl_row 7 1 0 2) := to_be_bytes 8 3]>
       (<[(SUBSPACE_ACL, acl_row 8 1 2 5) := to_be_bytes 8 1]>
        (<[(SUBSPACE_ACL, acl_row 7 2 0 4) := to_be_bytes 8 1]> (∅ : store_map)))).
    repeat (apply store_ok_insert; [|by split]). apply store_ok_empty. }
  split; rewrite (@acl_revoke_exact _ _ _ _ _ example_write_laws 6 acl_db db' 1 Hok ltac:(lia)
    acl_db_ok ltac:(unfold uint_ok; lia) acl_db_documents E); vm_compute; reflexivity.
Defined.
