(* ===== verification/Blob.v ===== *)
(** * References to blobs

    [store/src/write/blob.rs]: which blobs exist, who may read them, and the
    removal of blobs that nothing refers to any more.  A blob is known by its
    hash; the store keeps a [Commit] record per blob, a [Link] per document
    that uses it and a [Reserve] per upload that is not used yet.  The store
    of the blobs themselves is a parameter with its [delete_blob]. *)

From stdpp Require Import base gmap sorting strings numbers list.
From S2P Require Import Prelude Codec Keys Roaring Kv Batch Commit Read Store ClearLoop JmapIds Query.
Open Scope Z_scope.
Open Scope bytes_scope.

(** [BlobHash::default()], [BlobHash::new_max()] *)
Definition hash_default : list Z := replicate BLOB_HASH_LEN 0.
Definition hash_max : list Z := replicate BLOB_HASH_LEN U8_MAX.

Record BlobQuota := { q_bytes : Z; q_count : Z }.

Definition blob_key (account_id collection document_id : Z) (op : BlobOp) : ValueKey :=
  {| vk_account_id := account_id; vk_collection := collection; vk_document_id := document_id;
     vk_class := Blob op |}.

(** [key.get(from..from + BLOB_HASH_LEN)] as a hash *)
Definition key_hash (key : list Z) (from : nat) : result (list Z) :=
  ok_or (InternalError "Invalid key in blob hash tables")
    (slice_get key from (from + BLOB_HASH_LEN)).

Section blob.
Context {DB Txn : Type} `{RocksDB DB Txn}.

(** [self.get_value::<()>(key).await.map(|v| v.is_some())] *)
Definition key_exists (db : DB) (key : ValueKey) : result bool :=
  r ← get_value (λ _, Ok tt) db key; Ok (bool_decide (r ≠ None)).

Definition blob_exists (db : DB) (hash : list Z) : result bool :=
  key_exists db (blob_key 0 0 0 (Commit hash)).

Definition quota_callback (now : Z) (quota : BlobQuota) (key value : list Z)
    : result (BlobQuota * bool) :=
  until ← deserialize_be_u64_end key U64_LEN;
  if now <? until then
    bytes ← u32_deserialize value;
    if 0 <? bytes then
      Ok ({| q_bytes := q_bytes quota + bytes; q_count := q_count quota + 1 |}, true)
    else Ok (quota, true)
  else Ok (quota, true).

Definition blob_quota (db : DB) (now account_id : Z) : result BlobQuota :=
  let key account_id := blob_key account_id 0 0 (Reserve hash_default 0) in
  iterate db (set_ascending true
    (params_new (key account_id) (key (wrap 32 (account_id + 1)))))
    (quota_callback now) {| q_bytes := 0; q_count := 0 |}.

Definition blob_has_access (db : DB) (now : Z) (hash : list Z) (class : BlobId.BlobClass)
    : result bool :=
  match class with
  | BlobId.Reserved account_id expires =>
      if now <? expires then key_exists db (blob_key account_id 0 0 (Reserve hash expires))
      else Ok false
  | BlobId.Linked account_id collection document_id =>
      key_exists db (blob_key account_id collection document_id (Link hash))
  end.

(** ** [purge_blobs] *)

(** Reservations: the expired ones are to be deleted, the hashes of the others
    are in use. *)
Definition reserve_callback (now : Z) (acc : list (Z * BlobOp) * gset (list Z))
    (key _value : list Z) : result (list (Z * BlobOp) * gset (list Z) * bool) :=
  let '(delete_keys, active_hashes) := acc in
  hash ← key_hash key U32_LEN;
  until ← deserialize_be_u64_end key U64_LEN;
  if until <=? now then
    account_id ← deserialize_be_u32 key 0;
    Ok (delete_keys ++ [(account_id, Reserve hash until)], active_hashes, true)
  else Ok (delete_keys, {[hash]} ∪ active_hashes, true).

(** Links and commit records, in the order of their hashes. *)
Definition link_callback (active_hashes : gset (list Z)) (acc : list (Z * BlobOp) * list Z)
    (key _value : list Z) : result (list (Z * BlobOp) * list Z * bool) :=
  let '(delete_keys, last_hash) := acc in
  hash ← key_hash key 0;
  document_id ← deserialize_be_u32_end key U32_LEN;
  if decide (document_id ≠ U32_MAX) then Ok (delete_keys, hash, true)
  else if bool_decide (last_hash ≠ hash) && negb (bool_decide (hash ∈ active_hashes))
  then Ok (delete_keys ++ [(0, Commit hash)], last_hash, true)
  else Ok (delete_keys, last_hash, true).

Context {BS : Type} (delete_blob : BS → list Z → result BS).

Definition unused_hash (e : Z * BlobOp) : option (list Z) :=
  match e.2 with Commit hash => Some hash | _ => None end.

Fixpoint delete_blobs (hashes : list (list Z)) (blob_store : BS) : result BS :=
  match hashes with
  | [] => Ok blob_store
  | hash :: hashes => blob_store ← delete_blob blob_store hash; delete_blobs hashes blob_store
  end.

Context `{StoreWrite DB}.

Definition is_reserve (op : BlobOp) : bool := match op with Reserve _ _ => true | _ => false end.

Fixpoint purge_loop (delete_keys : list (Z * BlobOp)) (batch : BatchBuilder)
    (last_account_id : Z) (db : DB) : result (BatchBuilder * DB) :=
  match delete_keys with
  | [] => Ok (batch, db)
  | (account_id, op) :: delete_keys =>
      '(batch, last_account_id, db) ←
        (if decide (1000 ≤ length (b_ops batch))%nat
         then '(_, db) ← store_write (build batch) db; Ok (builder_new, U32_MAX, db)
         else Ok (batch, last_account_id, db));
      let select := is_reserve op && bool_decide (account_id ≠ last_account_id) in
      let batch := if select then with_account_id account_id batch else batch in
      purge_loop delete_keys (b_push (OpValue (Blob op) Clear) batch)
        (if select then account_id else last_account_id) db
  end.

Definition purge_blobs (db : DB) (now : Z) (blob_store : BS) : result (BS * DB) :=
  '(delete_keys, active_hashes) ← iterate db
    (no_values (set_ascending true
      (params_new (blob_key 0 0 0 (Reserve hash_default 0))
                  (blob_key U32_MAX 0 0 (Reserve hash_default 0)))))
    (reserve_callback now) ([], ∅);
  '(delete_keys, _) ← iterate db
    (no_values (set_ascending true
      (params_new (blob_key 0 0 0 (Link hash_default))
                  (blob_key U32_MAX U8_MAX U32_MAX (Link hash_max)))))
    (link_callback active_hashes) (delete_keys, hash_default);
  blob_store ← delete_blobs (omap unused_hash delete_keys) blob_store;
  '(batch, db) ← purge_loop delete_keys builder_new U32_MAX db;
  if is_empty batch then Ok (blob_store, db)
  else '(_, db) ← store_write (build batch) db; Ok (blob_store, db).

(** ** [blob_hash_unlink_account] *)

Definition unlink_callback (account_id : Z) (delete_keys : list (Z * Z * list Z))
    (key _value : list Z) : result (list (Z * Z * list Z) * bool) :=
  document_id ← deserialize_be_u32_end key U32_LEN;
  if decide (document_id ≠ U32_MAX) then
    owner ← deserialize_be_u32 key BLOB_HASH_LEN;
    if decide (owner = account_id) then
      collection ← ok_or (InternalError "index out of bounds")
                     (key !! (BLOB_HASH_LEN + U32_LEN)%nat);
      hash ← key_hash key 0;
      Ok (delete_keys ++ [(collection, document_id, hash)], true)
    else Ok (delete_keys, true)
  else Ok (delete_keys, true).

Definition unlink_item (e : Z * Z * list Z) : clear_item :=
  {| ci_collection := e.1.1; ci_document_id := e.1.2; ci_class := Blob (Link e.2) |}.

Definition blob_hash_unlink_account (db : DB) (account_id : Z) : result DB :=
  delete_keys ← iterate db
    (no_values (set_ascending true
      (params_new (blob_key 0 0 0 (Link hash_default))
                  (blob_key U32_MAX U8_MAX U32_MAX (Link hash_max)))))
    (unlink_callback account_id) [];
  clear_all account_id (unlink_item <$> delete_keys) db.
End blob.
