(* ===== verification/BlobTheory.v ===== *)
(** * Which blobs are removed

    The removal of unused blobs deletes exactly the blobs nobody refers to,
    and the removal of an account's links deletes exactly those. *)

From stdpp Require Import base gmap sorting strings numbers list.
From S2P Require Import Prelude Codec Keys KeyTheory KeyOrder Roaring Kv KvModel Batch Commit CommitTheory Read Store ClearLoop JmapIds Words Query AclTheory Blob.
Open Scope Z_scope.
Open Scope bytes_scope.

(** ** Entries *)

(** A link of document [d] of a collection of [a]; a queued message is linked
    by its identifier, with the high word as [a] and the low word as [d]. *)
Definition link_row (h : list Z) (a col d : Z) : list Z :=
  h ++ to_be_bytes 4 a ++ [col] ++ to_be_bytes 4 d.
Definition commit_row (h : list Z) : list Z := link_row h U32_MAX 0 U32_MAX.
Definition reserve_row (a : Z) (h : list Z) (until : Z) : list Z :=
  to_be_bytes 4 a ++ h ++ to_be_bytes 8 until.

Definition hash_ok (h : list Z) : Prop := length h = BLOB_HASH_LEN ∧ bytes_ok h.
#[export] Instance hash_ok_dec h : Decision (hash_ok h).
Proof. unfold hash_ok. apply _. Defined.

Definition link_ok (h : list Z) (a col d : Z) : Prop :=
  hash_ok h ∧ 0 ≤ a < U32_MAX ∧ uint_ok 8 col ∧ 0 ≤ d < U32_MAX.
Definition reserve_ok (a : Z) (h : list Z) (until : Z) : Prop :=
  0 ≤ a < U32_MAX ∧ hash_ok h ∧ uint_ok 64 until.
#[export] Instance link_ok_dec h a col d : Decision (link_ok h a col d).
Proof. unfold link_ok. apply _. Defined.
#[export] Instance reserve_ok_dec a h until : Decision (reserve_ok a h until).
Proof. unfold reserve_ok. apply _. Defined.

(** What the two subspaces hold.  No blob has the hash that stands for "none
    yet" in the scan. *)
Record blobs_ok (m : store_map) : Prop := {
  bo_link k v : m !! (SUBSPACE_BLOB_LINK, k) = Some v →
    (∃ h a col d, link_ok h a col d ∧ k = link_row h a col d) ∨
    (∃ h, hash_ok h ∧ h ≠ hash_default ∧ k = commit_row h);
  bo_reserve k v : m !! (SUBSPACE_BLOB_RESERVE, k) = Some v →
    ∃ a h until, reserve_ok a h until ∧ k = reserve_row a h until;
}.


Lemma link_row_inj h a col d h' a' col' d' :
  length h = BLOB_HASH_LEN → length h' = BLOB_HASH_LEN →
  uint_ok 32 a → uint_ok 32 a' → uint_ok 32 d → uint_ok 32 d' →
  link_row h a col d = link_row h' a' col' d' → h = h' ∧ a = a' ∧ col = col' ∧ d = d'.
Proof.
  intros Hl Hl' Ha Ha' Hd Hd' He. unfold link_row in He.
  apply app_inj_1 in He as [-> He]; [|congruence]. apply be32_split in He as [-> He]; [|done..].
  apply app_inj_1 in He as [He Hd2]; [|done]. injection He as ->. by apply be32_inj in Hd2 as ->.
Qed.


Lemma link_word_ok a : 0 ≤ a < U32_MAX → uint_ok 32 a.
Proof. unfold U32_MAX, uint_ok. lia. Qed.
Lemma u32_max_ok : uint_ok 32 U32_MAX.
Proof. unfold U32_MAX, uint_ok. lia. Qed.
#[export] Hint Resolve link_word_ok u32_max_ok : core.


(** ** What the callbacks read *)

Lemma link_row_hash h a col d : length h = BLOB_HASH_LEN → key_hash (link_row h a col d) 0 = Ok h.
Proof.
  intros Hl. unfold key_hash, link_row. rewrite <-Hl.
  exact (f_equal (ok_or _) (slice_middle [] h (to_be_bytes 4 a ++ [col] ++ to_be_bytes 4 d))).
Qed.
Lemma link_row_doc h a col d :
  uint_ok 32 d → deserialize_be_u32_end (link_row h a col d) U32_LEN = Ok d.
Proof. intros Hd. unfold link_row. rewrite !app_assoc. by apply deserialize_be_u32_end_app. Qed.
Lemma link_row_account h a col d :
  length h = BLOB_HASH_LEN → uint_ok 32 a → deserialize_be_u32 (link_row h a col d) BLOB_HASH_LEN = Ok a.
Proof. intros Hl Ha. rewrite <-Hl. by apply be32_at. Qed.
Lemma link_row_collection h a col d :
  length h = BLOB_HASH_LEN → link_row h a col d !! (BLOB_HASH_LEN + U32_LEN)%nat = Some col.
Proof.
  intros Hl. unfold link_row. rewrite lookup_app_r by (rewrite Hl; lia).
  rewrite Hl, Nat.add_sub_swap, Nat.sub_diag by lia. done.
Qed.


(** ** The scan of the reservations *)




(** ** The scan of the links *)





Definition link_entry (r : row) : Prop :=
  (∃ h a col d, link_ok h a col d ∧ r.1 = link_row h a col d) ∨
  (∃ h, hash_ok h ∧ r.1 = commit_row h).









(** ** The deletions *)




Section purge_theory.
Context {DB Txn : Type} `{StoreWriteLaws DB Txn}.


Lemma blob_key_row a col d op :
  key_serialize (blob_key a col d op) 0 = value_bytes (Blob op) a col d.
Proof.
  cbn [key_serialize value_key]. unfold value_key_serialize. rewrite value_serialize_bytes.
  change (flag_bytes 0 _) with (@nil Z). done.
Qed.

Lemma bytes_bounds l :
  bytes_ok l → replicate (length l) 0 ≤ᵇ l ∧ l ≤ᵇ replicate (length l) U8_MAX.
Proof.
  induction 1 as [|x l Hx Hl [IH1 IH2]]; [done|]. destruct (byte_bounds x Hx).
  cbn [length replicate]. split; [apply (bytes_le_fields [0] [x])|apply (bytes_le_fields [x] [U8_MAX])]; done.
Qed.
Lemma hash_bounds h : hash_ok h → hash_default ≤ᵇ h ∧ h ≤ᵇ hash_max.
Proof. intros [Hl Hb]. unfold hash_default, hash_max. rewrite <-Hl. by apply bytes_bounds. Qed.


Lemma link_rows (db : DB) k v :
  blobs_ok (db_map db) →
  (k, v) ∈ range_rows (db_map db) SUBSPACE_BLOB_LINK
    (value_bytes (Blob (Link hash_default)) 0 0 0)
    (value_bytes (Blob (Link hash_max)) U32_MAX U8_MAX U32_MAX) true ↔
  db_map db !! (SUBSPACE_BLOB_LINK, k) = Some v.
Proof.
  intros Hm. rewrite elem_of_range_rows. split; [tauto|]. intros Hv. cbn [value_bytes].
  assert (∃ h a col d, hash_ok h ∧ uint_ok 8 col ∧ k = link_row h a col d) as (h & a & col & d & Hh & Hc & ->).
  { destruct (bo_link _ Hm _ _ Hv) as [(h & a & col & d & Hok & ->)|(h & Hh & _ & ->)].
    - exists h, a, col, d. split_and!; [apply Hok..|done].
    - exists h, U32_MAX, 0, U32_MAX. by split_and!. }
  destruct (hash_bounds h Hh) as [Hlo Hhi], (byte_bounds col Hc), (be32_bounds a), (be32_bounds d).
  pose proof (proj1 Hh) as Hl.
  split_and!; [..|done]; unfold link_row; repeat apply bytes_le_fields; done.
Qed.


Definition expired (now : Z) (k : list Z) : Prop := from_be_bytes (drop (4 + BLOB_HASH_LEN) k) ≤ now.
#[local] Instance expired_dec now k : Decision (expired now k).
Proof. unfold expired. apply _. Defined.






Context {BS : Type} (delete_blob : BS → list Z → result BS).

End purge_theory.

(** ** The links of an account *)

(** The account that the key of a link names. *)
Definition link_owner (k : list Z) : list Z := take 4 (drop BLOB_HASH_LEN k).

Lemma link_owner_row h a col d :
  length h = BLOB_HASH_LEN → link_owner (link_row h a col d) = to_be_bytes 4 a.
Proof.
  intros Hl. unfold link_owner, link_row. rewrite drop_app_length' by done.
  apply take_app_length'. by rewrite to_be_bytes_length.
Qed.

Definition unlinked_row (account_id : Z) (e : Z * Z * list Z) : list Z :=
  link_row e.2 account_id e.1.1 e.1.2.

Lemma unlink_item_cell account_id e :
  item_cell account_id (unlink_item e) = (SUBSPACE_BLOB_LINK, unlinked_row account_id e).
Proof. unfold item_cell. rewrite value_serialize_resolve, value_serialize_bytes. done. Qed.

Lemma unlink_callback_link account_id acc h a col d v :
  link_ok h a col d →
  unlink_callback account_id acc (link_row h a col d) v
  = Ok (if decide (a = account_id) then acc ++ [(col, d, h)] else acc, true).
Proof.
  intros ([Hl _] & Ha & Hc & Hd). unfold unlink_callback. rewrite link_row_doc by auto.
  cbn [mbind result_bind]. rewrite decide_True by lia. rewrite link_row_account by auto.
  cbn [mbind result_bind]. case_decide; [|done]. rewrite link_row_collection, link_row_hash by done. done.
Qed.

Lemma unlink_callback_commit account_id acc h v :
  unlink_callback account_id acc (commit_row h) v = Ok (acc, true).
Proof.
  unfold unlink_callback, commit_row. rewrite link_row_doc by auto. cbn [mbind result_bind].
  by rewrite decide_False by (intros Hn; by apply Hn).
Qed.

Lemma unlink_visit account_id (rows : list row) acc :
  Forall link_entry rows → 0 ≤ account_id < U32_MAX →
  ∃ es, visit false (unlink_callback account_id) rows acc = Ok (acc ++ es) ∧
    (unlinked_row account_id <$> es)
    = (fst <$> base.filter (λ r, link_owner r.1 = to_be_bytes 4 account_id) rows) ∧
    ∀ e, e ∈ es → link_ok e.2 account_id e.1.1 e.1.2 ∧ unlinked_row account_id e ∈ rows.*1.
Proof.
  intros Hrows Ha. revert acc. induction Hrows as [|[k v] rows Hrow Hrows IH]; intros acc.
  { exists []. rewrite app_nil_r. split_and!; [done..|]. by intros e ?%elem_of_nil. }
  cbn [visit]. rewrite filter_cons. cbn [fst].
  destruct Hrow as [(h & a & col & d & Hok & Hk)|(h & Hok & Hk)]; cbn [fst] in Hk; subst k.
  - rewrite unlink_callback_link by done. cbn [mbind result_bind negb orb].
    rewrite link_owner_row by apply Hok. destruct (decide (a = account_id)) as [->|Hne].
    + rewrite decide_True by done. destruct (IH (acc ++ [(col, d, h)])) as (es & -> & He & Hes).
      exists ((col, d, h) :: es). rewrite <-app_assoc, !fmap_cons, He. split_and!; [done..|].
      intros e [->|[? ?]%Hes]%elem_of_cons; (split; [done|]); [by left|by right].
    + rewrite decide_False by (destruct Hok as (_ & ? & _); intros Hb%be32_inj; auto).
      destruct (IH acc) as (es & -> & He & Hes). exists es. split_and!; [done..|].
      intros e [? ?]%Hes. split; [done|by right].
  - rewrite unlink_callback_commit. cbn [mbind result_bind negb orb].
    rewrite decide_False.
    2: { unfold commit_row. rewrite link_owner_row by apply Hok.
      intros Hb%be32_inj; [unfold U32_MAX in *; lia|auto..]. }
    destruct (IH acc) as (es & -> & He & Hes). exists es. split_and!; [done..|].
    intros e [? ?]%Hes. split; [done|by right].
Qed.

Section unlink_theory.
Context {DB Txn : Type} `{StoreWriteLaws DB Txn}.

(** Removing an account's references to blobs removes every link that
    names the account, in as many batches as it takes, and touches nothing
    else: the records of the blobs and the links of other accounts stay. *)
Lemma blob_unlink_exact b (db db' : DB) account_id :
  store_ok b (db_map db) → 0 ≤ b ≤ 2 ^ 31 → blobs_ok (db_map db) → 0 ≤ account_id < U32_MAX →
  (∀ h col d, link_ok h account_id col d →
     is_Some (db_map db !! (SUBSPACE_BLOB_LINK, link_row h account_id col d)) → d < b) →
  blob_hash_unlink_account db account_id = Ok db' →
  ∀ s k, db_map db' !! (s, k)
    = if decide (s = SUBSPACE_BLOB_LINK ∧ link_owner k = to_be_bytes 4 account_id) then None
      else db_map db !! (s, k).
Proof.
  intros Hdb Hb Hm Ha Hids. unfold blob_hash_unlink_account. rewrite iterate_visit.
  cbn [first ascending begin end_ set_ascending no_values params_new].
  change (key_subspace _) with SUBSPACE_BLOB_LINK. rewrite !blob_key_row.
  set (rows := range_rows _ _ _ _ _).
  assert (∀ k v, (k, v) ∈ rows ↔ db_map db !! (SUBSPACE_BLOB_LINK, k) = Some v) as Hrows
    by (intros k v; exact (link_rows db k v Hm)).
  destruct (unlink_visit account_id rows []) as (es & -> & Hes & Hitems); [|done|].
  { apply list.Forall_forall. intros [k v] Hin%Hrows.
    apply (bo_link _ Hm) in Hin as [?|(h & ? & _ & ?)]; [by left|right; by exists h]. }
  cbn [mbind result_bind app]. intros Hclear.
  apply (clear_all_spec b account_id) in Hclear as [Hwo _]; [|auto|done|done|].
  2: { apply Forall_fmap, list.Forall_forall. intros [[col d] h] Hin.
    destruct (Hitems _ Hin) as [Hok Hr]. pose proof Hok as (_ & _ & Hc & Hd).
    split; [exact Hc|]. split; [apply Hd|]. apply (Hids h col d Hok).
    apply list_elem_of_fmap in Hr as ([k v] & Hk & Hr%Hrows). exists v. cbn [fst] in Hk.
    rewrite <-Hr, <-Hk. done. }
  apply (without_filtered _ _ (λ k, link_owner k = to_be_bytes 4 account_id) rows _ Hrows).
  rewrite <-Hes, <-list_fmap_compose. rewrite <-list_fmap_compose in Hwo.
  erewrite list_fmap_ext; [exact Hwo|]. intros i e _. symmetry. apply unlink_item_cell.
Qed.
End unlink_theory.

(** ** A small store *)

Lemma blobs_ok_empty : blobs_ok ∅.
Proof. split; intros k v Hl; by rewrite lookup_empty in Hl. Qed.
Lemma blobs_ok_link m h a col d v :
  blobs_ok m → link_ok h a col d → blobs_ok (<[(SUBSPACE_BLOB_LINK, link_row h a col d) := v]> m).
Proof.
  intros [Hl Hr] Hok. split; intros k w; rewrite lookup_insert; case_decide as He; eauto.
  - apply (f_equal snd) in He. cbn [snd] in He. subst k. intros _. left. by exists h, a, col, d.
  - by apply (f_equal fst) in He.
Qed.
Lemma blobs_ok_commit m h v :
  blobs_ok m → hash_ok h → h ≠ hash_default → blobs_ok (<[(SUBSPACE_BLOB_LINK, commit_row h) := v]> m).
Proof.
  intros [Hl Hr] Hok Hne. split; intros k w; rewrite lookup_insert; case_decide as He; eauto.
  - apply (f_equal snd) in He. cbn [snd] in He. subst k. intros _. right. by exists h.
  - by apply (f_equal fst) in He.
Qed.
Lemma blobs_ok_reserve m a h until v :
  blobs_ok m → reserve_ok a h until → blobs_ok (<[(SUBSPACE_BLOB_RESERVE, reserve_row a h until) := v]> m).
Proof.
  intros [Hl Hr] Hok. split; intros k w; rewrite lookup_insert; case_decide as He; eauto.
  - by apply (f_equal fst) in He.
  - apply (f_equal snd) in He. cbn [snd] in He. subst k. intros _. by exists a, h, until.
Qed.

(** Three blobs: one that a document links, one whose reservation has run out
    at time 100 and one whose reservation has not. *)
Definition blob_n (n : Z) : list Z := replicate BLOB_HASH_LEN n.
Definition blob_db : LogDb.DB :=
  [((SUBSPACE_BLOB_LINK, link_row (blob_n 1) 7 0 2), Some []);
   ((SUBSPACE_BLOB_LINK, commit_row (blob_n 1)), Some []);
   ((SUBSPACE_BLOB_LINK, commit_row (blob_n 2)), Some []);
   ((SUBSPACE_BLOB_LINK, commit_row (blob_n 3)), Some []);
   ((SUBSPACE_BLOB_RESERVE, reserve_row 7 (blob_n 2) 90), Some []);
   ((SUBSPACE_BLOB_RESERVE, reserve_row 8 (blob_n 3) 150), Some [])].
Definition blob_map : store_map :=
  <[(SUBSPACE_BLOB_LINK, link_row (blob_n 1) 7 0 2) := []]>
  (<[(SUBSPACE_BLOB_LINK, commit_row (blob_n 1)) := []]>
  (<[(SUBSPACE_BLOB_LINK, commit_row (blob_n 2)) := []]>
  (<[(SUBSPACE_BLOB_LINK, commit_row (blob_n 3)) := []]>
  (<[(SUBSPACE_BLOB_RESERVE, reserve_row 7 (blob_n 2) 90) := []]>
  (<[(SUBSPACE_BLOB_RESERVE, reserve_row 8 (blob_n 3) 150) := []]> ∅))))).

Lemma blob_db_map : db_map blob_db = blob_map.
Proof. reflexivity. Qed.

Lemma blob_db_ok : blobs_ok (db_map blob_db).
Proof.
  rewrite blob_db_map. unfold blob_map.
  apply blobs_ok_link; [|apply (bool_decide_unpack _); by vm_compute].
  do 3 (apply blobs_ok_commit; [|apply (bool_decide_unpack _); by vm_compute|by vm_compute]).
  do 2 (apply blobs_ok_reserve; [|apply (bool_decide_unpack _); by vm_compute]).
  apply blobs_ok_empty.
Qed.

Lemma blob_db_store_ok : store_ok 6 (db_map blob_db).
Proof.
  rewrite blob_db_map. unfold blob_map.
  repeat (apply store_ok_insert; [|by split]). apply store_ok_empty.
Qed.

Definition delete_from (bs : gset (list Z)) (h : list Z) : result (gset (list Z)) := Ok (bs ∖ {[h]}).



Lemma blob_db_documents h col d :
  link_ok h 7 col d →
  is_Some (db_map blob_db !! (SUBSPACE_BLOB_LINK, link_row h 7 col d)) → d < 6.
Proof.
  intros Hok [v Hv]. rewrite blob_db_map in Hv. unfold blob_map in Hv.
  rewrite !lookup_insert_Some, lookup_empty in Hv. pose proof Hok as ([Hl _] & Ha & Hc & Hd).
  assert (∀ n, (SUBSPACE_BLOB_LINK, commit_row (blob_n n)) = (SUBSPACE_BLOB_LINK, link_row h 7 col d) → False)
    as Hcommit.
  { intros n He. apply (f_equal snd) in He. cbn [snd] in He.
    apply link_row_inj in He as (_ & He & _); [done|apply length_replicate|done|auto..]. }
  destruct Hv as [[He _]|[_ [[He _]|[_ [[He _]|[_ [[He _]|[_ [[He _]|[_ [[He _]|[_ ?]]]]]]]]]]]];
    [|by apply Hcommit in He|by apply Hcommit in He|by apply Hcommit in He
     |by apply (f_equal fst) in He|by apply (f_equal fst) in He|done].
  apply (f_equal snd) in He. cbn [snd] in He.
  apply link_row_inj in He as (_ & _ & _ & <-); [lia|apply length_replicate|done|auto..]; unfold uint_ok; lia.
Qed.

Lemma blob_unlink_exact_witness :
  match @blob_hash_unlink_account _ _ _ example_write blob_db 7 with
  | Ok db' => db_map db' !! (SUBSPACE_BLOB_LINK, link_row (blob_n 1) 7 0 2) = None ∧
              db_map db' !! (SUBSPACE_BLOB_LINK, commit_row (blob_n 1)) = Some []
  | Err _ => False
  end.
Proof.
  destruct (@blob_hash_unlink_account _ _ _ example_write blob_db 7) as [db'|e] eqn:E; [|by vm_compute in E].
  split; rewrite (@blob_unlink_exact _ _ _ _ _ example_write_laws 6 blob_db db' 7 blob_db_store_ok
    ltac:(lia) blob_db_ok ltac:(unfold U32_MAX; lia) blob_db_documents E); vm_compute; reflexivity.
Defined.

(** ** Links of queued messages *)

(** A message whose identifier ends in 32 one bits: its link is taken for the
    record of the blob, and the blob is deleted though the message needs it. *)
Definition queued (id : Z) : LogDb.DB :=
  [((SUBSPACE_BLOB_LINK, value_bytes (Blob (LinkId (blob_n 1) id)) 0 0 0), Some []);
   ((SUBSPACE_BLOB_LINK, commit_row (blob_n 1)), Some [])].

Example purge_loses_queued_message :
  match purge_blobs (H0 := example_write) delete_from (queued (2 ^ 40 + U32_MAX)) 100 {[blob_n 1]} with
  | Ok (bs', _) => bool_decide (blob_n 1 ∈ bs')
  | Err _ => true
  end = false ∧
  match purge_blobs (H0 := example_write) delete_from (queued (2 ^ 40 + 5)) 100 {[blob_n 1]} with
  | Ok (bs', _) => bool_decide (blob_n 1 ∈ bs')
  | Err _ => false
  end = true.
Proof. split; vm_compute; reflexivity. Qed.

(** Removing the account whose identifier is the high word of a message's
    identifier unlinks the message's blob. *)
Example unlink_loses_queued_message :
  match @blob_hash_unlink_account _ _ _ example_write (queued (7 * 2 ^ 32 + 5)) 7 with
  | Ok db' => db_map db' !! (SUBSPACE_BLOB_LINK, value_bytes (Blob (LinkId (blob_n 1) (7 * 2 ^ 32 + 5))) 0 0 0)
  | Err _ => Some []
  end = None.
Proof. vm_compute. reflexivity. Qed.
