(* ===== verification/Directory.v ===== *)
(** * The internal directory

    Accounts, groups, mailing lists and domains kept in the store itself
    ([directory/src/backend/internal]): the record of a principal and its
    encoding ([mod.rs]), the management operations ([manage.rs]) and the
    lookups ([lookup.rs]).  Strings are their UTF-8 bytes.  The character
    tables of the standard library ([str::to_lowercase],
    [str::split_whitespace]) are the class [UnicodeStr]; the verification of
    passwords and the hash of the assertions are arguments. *)

From stdpp Require Import base gmap sorting strings numbers list.
From S2P Require Import Prelude Codec Keys Roaring Kv Batch Commit Read Store Utf8 Text ClearLoop Query Blob.
Open Scope Z_scope.
Open Scope bytes_scope.

Module Dir.

Class UnicodeStr := {
  str_to_lowercase : list Z → list Z;
  split_whitespace : list Z → list (list Z);
}.

(** The pieces of a string between occurrences of a character. *)
Fixpoint str_split (sep : Z) (s : list Z) : list (list Z) :=
  match s with
  | [] => [[]]
  | ch :: s =>
      if ch =? sep then [] :: str_split sep s
      else match str_split sep s with
           | piece :: pieces => (ch :: piece) :: pieces
           | [] => [[ch]]
           end
  end.

(** [str::contains] *)
Fixpoint str_contains (pattern s : list Z) : bool :=
  bool_decide (pattern = take (length pattern) s) ||
  match s with [] => false | _ :: s => str_contains pattern s end.

(** ** Principals *)

Inductive Type_ := Individual | Group | Resource | Location | Superuser | List_ | Other.
#[export] Instance type_eq_dec : EqDecision Type_.
Proof. solve_decision. Defined.

(** [typ as u8] *)
Definition type_u8 (t : Type_) : Z :=
  match t with
  | Individual => 0 | Group => 1 | Resource => 2 | Location => 3
  | Superuser => 4 | List_ => 5 | Other => 6
  end.
Definition from_u8 (value : Z) : Type_ :=
  if value =? 0 then Individual else if value =? 1 then Group
  else if value =? 2 then Resource else if value =? 3 then Location
  else if value =? 4 then Superuser else if value =? 5 then List_ else Other.
Definition into_base_type (t : Type_) : Type_ :=
  match t with Superuser => Individual | any => any end.
Definition type_parse (value : list Z) : option Type_ :=
  if decide (value = str_bytes "individual") then Some Individual
  else if decide (value = str_bytes "superuser") then Some Superuser
  else if decide (value = str_bytes "group") then Some Group
  else if decide (value = str_bytes "resource") then Some Resource
  else if decide (value = str_bytes "location") then Some Location
  else if decide (value = str_bytes "list") then Some List_
  else None.

Record principal (T : Type) := {
  p_id : Z; p_typ : Type_; p_quota : Z; p_name : list Z;
  p_secrets : list (list Z); p_emails : list (list Z);
  p_member_of : list T; p_description : option (list Z);
}.
Arguments p_id {_} _. Arguments p_typ {_} _. Arguments p_quota {_} _. Arguments p_name {_} _.
Arguments p_secrets {_} _. Arguments p_emails {_} _. Arguments p_member_of {_} _.
Arguments p_description {_} _.
#[export] Instance principal_eq_dec `{EqDecision T} : EqDecision (principal T).
Proof. solve_decision. Defined.

Definition principal_default {T} : principal T :=
  {| p_id := 0; p_typ := Individual; p_quota := 0; p_name := []; p_secrets := []; p_emails := [];
     p_member_of := []; p_description := None |}.

Section setters.
Context {T U : Type}.
Definition with_id (id : Z) (p : principal T) : principal T :=
  {| p_id := id; p_typ := p_typ p; p_quota := p_quota p; p_name := p_name p;
     p_secrets := p_secrets p; p_emails := p_emails p; p_member_of := p_member_of p;
     p_description := p_description p |}.
Definition with_typ (t : Type_) (p : principal T) : principal T :=
  {| p_id := p_id p; p_typ := t; p_quota := p_quota p; p_name := p_name p;
     p_secrets := p_secrets p; p_emails := p_emails p; p_member_of := p_member_of p;
     p_description := p_description p |}.
Definition with_quota (q : Z) (p : principal T) : principal T :=
  {| p_id := p_id p; p_typ := p_typ p; p_quota := q; p_name := p_name p;
     p_secrets := p_secrets p; p_emails := p_emails p; p_member_of := p_member_of p;
     p_description := p_description p |}.
Definition with_name (n : list Z) (p : principal T) : principal T :=
  {| p_id := p_id p; p_typ := p_typ p; p_quota := p_quota p; p_name := n;
     p_secrets := p_secrets p; p_emails := p_emails p; p_member_of := p_member_of p;
     p_description := p_description p |}.
Definition with_secrets (l : list (list Z)) (p : principal T) : principal T :=
  {| p_id := p_id p; p_typ := p_typ p; p_quota := p_quota p; p_name := p_name p;
     p_secrets := l; p_emails := p_emails p; p_member_of := p_member_of p;
     p_description := p_description p |}.
Definition with_emails (l : list (list Z)) (p : principal T) : principal T :=
  {| p_id := p_id p; p_typ := p_typ p; p_quota := p_quota p; p_name := p_name p;
     p_secrets := p_secrets p; p_emails := l; p_member_of := p_member_of p;
     p_description := p_description p |}.
Definition with_member_of (l : list U) (p : principal T) : principal U :=
  {| p_id := p_id p; p_typ := p_typ p; p_quota := p_quota p; p_name := p_name p;
     p_secrets := p_secrets p; p_emails := p_emails p; p_member_of := l;
     p_description := p_description p |}.
Definition with_description (d : option (list Z)) (p : principal T) : principal T :=
  {| p_id := p_id p; p_typ := p_typ p; p_quota := p_quota p; p_name := p_name p;
     p_secrets := p_secrets p; p_emails := p_emails p; p_member_of := p_member_of p;
     p_description := d |}.
End setters.

(** [Serialize for &Principal<u32>] *)
Definition write_str (s : list Z) (k : KeySerializer) : KeySerializer :=
  k » write_leb128 (Z.of_nat (length s)) » write_bytes s.
Definition write_list (l : list (list Z)) (k : KeySerializer) : KeySerializer :=
  foldl (λ k s, write_str s k) (k » write_leb128 (Z.of_nat (length l))) l.

Definition principal_serialize (p : principal Z) : list Z :=
  let description := default [] (p_description p) in
  finalize
    (ks_new (U32_LEN * 3 + 2 + length (p_name p) + sum_list (length <$> p_emails p)
             + sum_list (length <$> p_secrets p) + length description)
      » write_u8 1 » write_leb128 (p_id p) » write_u8 (type_u8 (p_typ p))
      » write_leb128 (p_quota p) » write_str (p_name p) » write_str description
      » write_list (p_secrets p) » write_list (p_emails p)).

(** A decoder over [Iter<'_, u8>]. *)
Definition next (it : list Z) : option (Z * list Z) :=
  match it with [] => None | b :: it => Some (b, it) end.
Definition next_int (ty : Leb128.int_ty) (it : list Z) : option (Z * list Z) :=
  match Leb128.next_leb128 ty it with (Some v, it) => Some (v, it) | (None, _) => None end.
Definition deserialize_string (it : list Z) : option (list Z * list Z) :=
  '(len, it) ← next_int Leb128.Usize it;
  if decide (Z.of_nat (length it) < len) then None
  else let s := take (Z.to_nat len) it in
       if Utf8.from_utf8 s then Some (s, drop (Z.to_nat len) it) else None.
Fixpoint deserialize_strings (n : nat) (it : list Z) : option (list (list Z) * list Z) :=
  match n with
  | O => Some ([], it)
  | S n => '(s, it) ← deserialize_string it; '(l, it) ← deserialize_strings n it; Some (s :: l, it)
  end.
Definition deserialize_string_list (it : list Z) : option (list (list Z) * list Z) :=
  '(len, it) ← next_int Leb128.Usize it; deserialize_strings (Z.to_nat len) it.

Definition deserialize (bytes : list Z) : option (principal Z) :=
  '(version, it) ← next bytes;
  if version =? 1 then
    '(id, it) ← next_int Leb128.U32 it;
    '(typ, it) ← next it;
    '(quota, it) ← next_int Leb128.U64 it;
    '(name, it) ← deserialize_string it;
    '(description, it) ← deserialize_string it;
    '(secrets, it) ← deserialize_string_list it;
    '(emails, it) ← deserialize_string_list it;
    Some {| p_id := id; p_typ := from_u8 typ; p_quota := quota; p_name := name;
            p_secrets := secrets; p_emails := emails; p_member_of := [];
            p_description := if bool_decide (description = []) then None else Some description |}
  else None.
Definition principal_deserialize (bytes : list Z) : result (principal Z) :=
  ok_or (InternalError "Failed to deserialize principal") (deserialize bytes).

Record PrincipalIdType := { pt_account_id : Z; pt_typ : Type_ }.
Definition id_type_serialize (t : PrincipalIdType) : list Z :=
  finalize (ks_new (U32_LEN + 1) » write_leb128 (pt_account_id t) » write_u8 (type_u8 (pt_typ t))).
Definition id_type_deserialize (bytes : list Z) : result PrincipalIdType :=
  '(id, it) ← ok_or (InternalError "Failed to deserialize principal account id")
                (next_int Leb128.U32 bytes);
  '(t, _) ← ok_or (InternalError "Failed to deserialize principal id type") (next it);
  Ok {| pt_account_id := id; pt_typ := from_u8 t |}.

(** ** Errors and requests *)

Inductive PrincipalField := FName | FType | FQuota | FDescription | FSecrets | FEmails | FMemberOf | FMembers.
#[export] Instance field_eq_dec : EqDecision PrincipalField.
Proof. solve_decision. Defined.

Inductive ManagementError :=
  | MissingField (field : PrincipalField)
  | AlreadyExists (field : PrincipalField) (value : list Z)
  | NotFound (name : list Z).

(** [DirectoryError], without the errors of the external directories. *)
Inductive DirectoryError :=
  | StoreError (e : error)
  | Management (e : ManagementError)
  | Unsupported.

(** [crate::Result<T>] *)
Inductive dresult (A : Type) := DOk (a : A) | DErr (e : DirectoryError).
Arguments DOk {_} _.
Arguments DErr {_} _.
#[export] Instance dresult_ret : MRet dresult := λ _ a, DOk a.
#[export] Instance dresult_bind : MBind dresult := λ _ _ f r,
  match r with DOk a => f a | DErr e => DErr e end.

(** [From<store::Error>] *)
Definition lift {A} (r : result A) : dresult A :=
  match r with Ok a => DOk a | Err e => DErr (StoreError e) end.
Definition ok_or_not_found {A} (name : list Z) (o : option A) : dresult A :=
  match o with Some a => DOk a | None => DErr (Management (NotFound name)) end.

Inductive PrincipalAction := Set_item | AddItem | RemoveItem.
Inductive PrincipalValue :=
  | VString (s : list Z)
  | VStringList (l : list (list Z))
  | VInteger (n : Z).
Record PrincipalUpdate := { action : PrincipalAction; field : PrincipalField; value : PrincipalValue }.

(** [QueryBy], without the credentials, which only [query] accepts. *)
Inductive QueryBy := ByName (name : list Z) | ById (account_id : Z).

(** [ValueKey::from(ValueClass)] *)
Definition class_key (class : ValueClass Z) : ValueKey :=
  {| vk_account_id := 0; vk_collection := 0; vk_document_id := 0; vk_class := class |}.
Definition dir_key (class : DirectoryClass Z) : ValueKey := class_key (Keys.Directory class).
Definition dir_class (class : DirectoryClass MaybeDynamicId) : ValueClass MaybeDynamicId :=
  Keys.Directory class.

(** [Collection::Principal] *)
Definition COLLECTION_PRINCIPAL : Z := 7.

Section directory.
Context {DB Txn : Type} `{RocksDB DB Txn} `{StoreWrite DB} `{UnicodeStr}.

Definition get_principal (db : DB) (account_id : Z) : dresult (option (principal Z)) :=
  lift (get_value principal_deserialize db (dir_key (Principal account_id))).

Definition get_account_name (db : DB) (account_id : Z) : dresult (option (list Z)) :=
  p ← get_principal db account_id; DOk (option_map p_name p).

Definition get_account_id (db : DB) (name : list Z) : dresult (option Z) :=
  v ← lift (get_value id_type_deserialize db (dir_key (NameToId name)));
  DOk (option_map pt_account_id v).

(** [self.get_value::<()>(..).await.map(|ids| ids.is_some())] *)
Definition is_local_domain (db : DB) (domain : list Z) : dresult bool :=
  lift (key_exists db (dir_key (Domain domain))).
Definition rcpt (db : DB) (address : list Z) : dresult bool :=
  lift (key_exists db (dir_key (EmailToId address))).

(** The ids at the end of the keys of a membership list. *)
Definition collect_id (results : list Z) (key _value : list Z) : result (list Z * bool) :=
  id ← deserialize_be_u32_end key U32_LEN; Ok (results ++ [id], true).
Definition get_member_of (db : DB) (account_id : Z) : dresult (list Z) :=
  lift (iterate db (no_values (params_new (dir_key (MemberOf account_id 0))
                                          (dir_key (MemberOf account_id U32_MAX))))
          collect_id []).
Definition get_members (db : DB) (account_id : Z) : dresult (list Z) :=
  lift (iterate db (no_values (params_new (dir_key (Members account_id 0))
                                          (dir_key (Members account_id U32_MAX))))
          collect_id []).

(** [DynamicPrincipalIdType], [SerializeWithId for Principal<u32>] *)
Definition dynamic_id_type (t : Type_) : MaybeDynamicValue :=
  ValueDynamic (λ ids,
    id ← last_document_id ids; Ok (id_type_serialize {| pt_account_id := id; pt_typ := t |})).
Definition dynamic_principal (p : principal Z) : MaybeDynamicValue :=
  ValueDynamic (λ ids, id ← last_document_id ids; Ok (principal_serialize (with_id id p))).

(** *** [get_or_create_account_id] *)

Definition new_account_batch (name : list Z) : BatchBuilder :=
  let name_key := dir_class (NameToId name) in
  builder_new » with_account_id U32_MAX » with_collection COLLECTION_PRINCIPAL
    » assert_value name_key AssertNone » create_document
    » set name_key (dynamic_id_type Individual)
    » set (dir_class (Principal (Dynamic 0))) (dynamic_principal (with_name name principal_default)).

Definition write_new (batch : BatchBuilder) (db : DB) : result (Z * DB) :=
  '(ids, db) ← store_write (build batch) db;
  id ← last_document_id ids; Ok (id, db).

(** The loop; [tries] is what [try_count < 3] leaves. *)
Fixpoint get_or_create_loop (tries : nat) (name : list Z) (db : DB) : dresult (Z * DB) :=
  found ← get_account_id db name;
  match found with
  | Some account_id => DOk (account_id, db)
  | None =>
      match write_new (new_account_batch name) db with
      | Ok r => DOk r
      | Err AssertValueFailed =>
          match tries with
          | O => DErr (StoreError AssertValueFailed)
          | S tries => get_or_create_loop tries name db
          end
      | Err e => DErr (StoreError e)
      end
  end.
Definition get_or_create_account_id (name : list Z) (db : DB) : dresult (Z * DB) :=
  get_or_create_loop 3 (str_to_lowercase name) db.

(** *** [map_group_names], [map_principal], [map_group_ids] *)

Fixpoint map_group_names (members : list (list Z)) (create_if_missing : bool) (db : DB)
    : dresult (list Z * DB) :=
  match members with
  | [] => DOk ([], db)
  | member :: members =>
      '(account_id, db) ←
        (if create_if_missing then get_or_create_account_id member db
         else found ← get_account_id db member;
              account_id ← ok_or_not_found member found;
              DOk (account_id, db));
      '(member_ids, db) ← map_group_names members create_if_missing db;
      DOk (account_id :: member_ids, db)
  end.

Definition map_principal (p : principal (list Z)) (create_if_missing : bool) (db : DB)
    : dresult (principal Z * DB) :=
  '(member_of, db) ← map_group_names (p_member_of p) create_if_missing db;
  DOk (with_member_of member_of p, db).

Fixpoint account_names (db : DB) (ids : list Z) : dresult (list (list Z)) :=
  match ids with
  | [] => DOk []
  | id :: ids =>
      name ← get_account_name db id;
      names ← account_names db ids;
      DOk (match name with Some name => name :: names | None => names end)
  end.
Definition map_group_ids (db : DB) (p : principal Z) : dresult (principal (list Z)) :=
  names ← account_names db (p_member_of p); DOk (with_member_of names p).

(** *** [create_account] *)

(** The e-mail is not taken and its domain is local. *)
Definition check_email (db : DB) (email : list Z) : dresult unit :=
  taken ← rcpt db email;
  if (taken : bool) then DErr (Management (AlreadyExists FEmails email))
  else match str_split 64 email !! 1%nat with
       | Some domain =>
           local ← is_local_domain db domain;
           if (local : bool) then DOk tt else DErr (Management (NotFound domain))
       | None => DOk tt
       end.

(** The loop over [principal.emails.iter_mut()]. *)
Fixpoint check_emails (db : DB) (emails : list (list Z)) : dresult (list (list Z)) :=
  match emails with
  | [] => DOk []
  | email :: emails =>
      let email := str_to_lowercase email in
      _ ← check_email db email;
      emails ← check_emails db emails;
      DOk (email :: emails)
  end.

(** Both entries of a membership. *)
Definition join (member group : MaybeDynamicId) (batch : BatchBuilder) : BatchBuilder :=
  batch » set (dir_class (MemberOf member group)) (ValueStatic [])
    » set (dir_class (Members group member)) (ValueStatic []).
Definition leave (member group : MaybeDynamicId) (batch : BatchBuilder) : BatchBuilder :=
  batch » clear (dir_class (MemberOf member group)) » clear (dir_class (Members group member)).

Definition create_batch (p : principal Z) (members : list Z) : BatchBuilder :=
  let ptype := dynamic_id_type (into_base_type (p_typ p)) in
  let batch := builder_new » with_account_id U32_MAX » with_collection COLLECTION_PRINCIPAL
    » create_document
    » assert_value (dir_class (NameToId (p_name p))) AssertNone
    » set (dir_class (Principal (Dynamic 0))) (dynamic_principal p)
    » set (dir_class (NameToId (p_name p))) ptype in
  let batch := foldl (λ batch email, batch » set (dir_class (EmailToId email)) ptype)
                 batch (p_emails p) in
  let batch := foldl (λ batch member_of, batch » join (Dynamic 0) (Static member_of))
                 batch (p_member_of p) in
  foldl (λ batch member_id, batch » join (Static member_id) (Dynamic 0)) batch members.

Definition create_account (p : principal (list Z)) (members : list (list Z)) (db : DB)
    : dresult (Z * DB) :=
  if bool_decide (p_name p = []) then DErr (Management (MissingField FName))
  else
    '(p, db) ← map_principal p false db;
    '(members, db) ← map_group_names members false db;
    let p := with_name (str_to_lowercase (p_name p)) p in
    taken ← get_account_id db (p_name p);
    match (taken : option Z) with
    | Some _ => DErr (Management (AlreadyExists FName (p_name p)))
    | None =>
        emails ← check_emails db (p_emails p);
        lift (write_new (create_batch (with_emails emails p) members) db)
    end.

(** *** [delete_account] *)

(** The account that a request is about. *)
Definition resolve (by_ : QueryBy) (db : DB) : dresult Z :=
  match by_ with
  | ByName name => found ← get_account_id db name; ok_or_not_found name found
  | ById account_id => DOk account_id
  end.

Definition delete_batch (account_id : Z) (p : principal Z) (member_of members : list Z) : BatchBuilder :=
  let batch := builder_new » with_account_id account_id
    » clear (dir_class (NameToId (p_name p)))
    » clear (dir_class (Principal (Static account_id)))
    » clear (dir_class (UsedQuota account_id)) in
  let batch := foldl (λ batch email, batch » clear (dir_class (EmailToId email))) batch (p_emails p) in
  let batch := foldl (λ batch member_id, batch » leave (Static account_id) (Static member_id))
                 batch member_of in
  foldl (λ batch member_id, batch » leave (Static member_id) (Static account_id)) batch members.

Definition delete_account (by_ : QueryBy) (db : DB) : dresult DB :=
  account_id ← resolve by_ db;
  found ← get_principal db account_id;
  p ← ok_or_not_found (dec account_id) found;
  db ← lift (blob_hash_unlink_account db account_id);
  db ← lift (acl_revoke_all db account_id);
  let db := purge_account db account_id in
  member_of ← get_member_of db account_id;
  members ← get_members db account_id;
  '(_, db) ← lift (store_write (build (delete_batch account_id p member_of members)) db);
  DOk db.

(** *** [update_account] *)

(** The variables of the loop over the changes. *)
Record update := {
  u_principal : principal Z; u_member_of : list Z; u_members : list Z; u_batch : BatchBuilder }.

(** Appends to [batch] the operations that set or clear the entry of an
    e-mail of the account. *)
Definition set_email (ptype : list Z) (email : list Z) : BatchBuilder → BatchBuilder :=
  set (dir_class (EmailToId email)) (ValueStatic ptype).
Definition clear_email (email : list Z) : BatchBuilder → BatchBuilder :=
  clear (dir_class (EmailToId email)).

(** The new e-mails of a [Set]. *)
Fixpoint set_new_emails (db : DB) (ptype : list Z) (current : list (list Z))
    (emails : list (list Z)) (batch : BatchBuilder) : dresult BatchBuilder :=
  match emails with
  | [] => DOk batch
  | email :: emails =>
      if bool_decide (email ∈ current) then set_new_emails db ptype current emails batch
      else _ ← check_email db email;
           set_new_emails db ptype current emails (set_email ptype email batch)
  end.

(** The new list of a [Set] of [MemberOf] or [Members]; [link] adds both
    entries of a membership. *)
Fixpoint set_members (db : DB) (link : Z → BatchBuilder → BatchBuilder) (current : list Z)
    (names : list (list Z)) (batch : BatchBuilder) : dresult (list Z * BatchBuilder) :=
  match names with
  | [] => DOk ([], batch)
  | name :: names =>
      found ← get_account_id db name;
      member_id ← ok_or_not_found name found;
      '(ids, batch) ← set_members db link current names
        (if bool_decide (member_id ∈ current) then batch else link member_id batch);
      DOk (member_id :: ids, batch)
  end.

(** [iter().position(..)] and [remove(pos)]: the first occurrence goes. *)
Fixpoint remove_first {A} `{EqDecision A} (x : A) (l : list A) : list A :=
  match l with
  | [] => []
  | y :: l => if decide (y = x) then l else y :: remove_first x l
  end.

(** The three actions on a membership list: the new list and the batch. *)
Definition change_members (db : DB) (link unlink : Z → BatchBuilder → BatchBuilder)
    (action : PrincipalAction) (value : PrincipalValue) (current : list Z) (batch : BatchBuilder)
    : dresult (list Z * BatchBuilder) :=
  match action, value with
  | Set_item, VStringList names =>
      '(ids, batch) ← set_members db link current names batch;
      DOk (ids, foldl (λ batch member_id,
                  if bool_decide (member_id ∈ ids) then batch else unlink member_id batch)
                batch current)
  | AddItem, VString name =>
      found ← get_account_id db name;
      member_id ← ok_or_not_found name found;
      if bool_decide (member_id ∈ current) then DOk (current, batch)
      else DOk (current ++ [member_id], link member_id batch)
  | RemoveItem, VString name =>
      found ← get_account_id db name;
      match (found : option Z) with
      | Some member_id =>
          if bool_decide (member_id ∈ current)
          then DOk (remove_first member_id current, unlink member_id batch)
          else DOk (current, batch)
      | None => DOk (current, batch)
      end
  | _, _ => DErr Unsupported
  end.

Definition is_person (t : Type_) : bool :=
  match t with Individual | Superuser => true | _ => false end.

(** The changes of the fields of the principal. *)
Definition change_principal (db : DB) (ptype : list Z) (action : PrincipalAction)
    (field : PrincipalField) (value : PrincipalValue) (p : principal Z) (batch : BatchBuilder)
    : dresult (principal Z * BatchBuilder) :=
  match action, field, value with
  | Set_item, FName, VString new_name =>
      let new_name := str_to_lowercase new_name in
      if bool_decide (p_name p = new_name) then DOk (p, batch)
      else
        taken ← get_account_id db new_name;
        match (taken : option Z) with
        | Some _ => DErr (Management (AlreadyExists FName new_name))
        | None =>
            DOk (with_name new_name p,
                 batch » clear (dir_class (NameToId (p_name p)))
                   » set (dir_class (NameToId new_name)) (ValueStatic ptype))
        end
  | Set_item, FType, VString new_type =>
      match type_parse new_type with
      | Some new_type =>
          if is_person (p_typ p) && is_person new_type then DOk (with_typ new_type p, batch)
          else DErr Unsupported
      | None => DErr Unsupported
      end
  | Set_item, FSecrets, VStringList secrets => DOk (with_secrets secrets p, batch)
  | Set_item, FDescription, VString description =>
      DOk (with_description (if bool_decide (description = []) then None else Some description) p,
           batch)
  | Set_item, FQuota, VInteger quota => DOk (with_quota quota p, batch)
  | Set_item, FEmails, VStringList emails =>
      let emails := str_to_lowercase <$> emails in
      batch ← set_new_emails db ptype (p_emails p) emails batch;
      DOk (with_emails emails p,
           foldl (λ batch email,
                    if bool_decide (email ∈ emails) then batch else clear_email email batch)
                 batch (p_emails p))
  | AddItem, FEmails, VString email =>
      let email := str_to_lowercase email in
      if bool_decide (email ∈ p_emails p) then DOk (p, batch)
      else
        _ ← check_email db email;
        DOk (with_emails (p_emails p ++ [email]) p, set_email ptype email batch)
  | RemoveItem, FEmails, VString email =>
      let email := str_to_lowercase email in
      if bool_decide (email ∈ p_emails p)
      then DOk (with_emails (remove_first email (p_emails p)) p, clear_email email batch)
      else DOk (p, batch)
  | _, _, _ => DErr Unsupported
  end.

Definition apply_change (db : DB) (account_id : Z) (ptype : list Z) (change : PrincipalUpdate)
    (u : update) : dresult update :=
  match field change with
  | FMemberOf =>
      '(member_of, batch) ← change_members db
        (λ id, join (Static account_id) (Static id)) (λ id, leave (Static account_id) (Static id))
        (action change) (value change) (u_member_of u) (u_batch u);
      DOk {| u_principal := u_principal u; u_member_of := member_of; u_members := u_members u;
             u_batch := batch |}
  | FMembers =>
      '(members, batch) ← change_members db
        (λ id, join (Static id) (Static account_id)) (λ id, leave (Static id) (Static account_id))
        (action change) (value change) (u_members u) (u_batch u);
      DOk {| u_principal := u_principal u; u_member_of := u_member_of u; u_members := members;
             u_batch := batch |}
  | field =>
      '(p, batch) ← change_principal db ptype (action change) field (value change)
                      (u_principal u) (u_batch u);
      DOk {| u_principal := p; u_member_of := u_member_of u; u_members := u_members u;
             u_batch := batch |}
  end.

Fixpoint apply_changes (db : DB) (account_id : Z) (ptype : list Z) (changes : list PrincipalUpdate)
    (u : update) : dresult update :=
  match changes with
  | [] => DOk u
  | change :: changes =>
      u ← apply_change db account_id ptype change u; apply_changes db account_id ptype changes u
  end.

Definition is_membership (f : PrincipalField) : bool :=
  match f with FMemberOf | FMembers => true | _ => false end.

Context (xxh3_64 : list Z → Z).

(** [HashedValue<Principal<u32>>] *)
Definition hashed_deserialize (bytes : list Z) : result (AssertValue * principal Z) :=
  p ← principal_deserialize bytes; Ok (hashed_assert xxh3_64 bytes, p).

Definition update_account (by_ : QueryBy) (changes : list PrincipalUpdate) (db : DB) : dresult DB :=
  account_id ← resolve by_ db;
  found ← lift (get_value hashed_deserialize db (dir_key (Principal account_id)));
  '(hash, p) ← ok_or_not_found (dec account_id) found;
  member_of ← get_member_of db account_id;
  members ← get_members db account_id;
  let ptype := id_type_serialize
    {| pt_account_id := account_id; pt_typ := into_base_type (p_typ p) |} in
  let update_principal := negb (bool_decide (changes = [])) &&
    negb (forallb (λ c, is_membership (field c)) changes) in
  let principal_key := dir_class (Principal (Static account_id)) in
  let batch := if update_principal then builder_new » assert_value principal_key hash
               else builder_new in
  u ← apply_changes db account_id ptype changes
        {| u_principal := p; u_member_of := member_of; u_members := members; u_batch := batch |};
  let batch := if update_principal
               then u_batch u » set principal_key (ValueStatic (principal_serialize (u_principal u)))
               else u_batch u in
  '(_, db) ← lift (store_write (build batch) db);
  DOk db.

(** *** Domains *)

Definition create_domain (domain : list Z) (db : DB) : dresult DB :=
  if str_contains [46] domain then
    '(_, db) ← lift (store_write
      (build (builder_new » set (dir_class (Domain (str_to_lowercase domain))) (ValueStatic []))) db);
    DOk db
  else DErr (Management (MissingField FName)).

Definition delete_domain (domain : list Z) (db : DB) : dresult DB :=
  if str_contains [46] domain then
    '(_, db) ← lift (store_write
      (build (builder_new » clear (dir_class (Domain (str_to_lowercase domain))))) db);
    DOk db
  else DErr (Management (MissingField FName)).

(** *** Lists *)

Definition collect_account (typ : option Type_) (results : list (Z * list Z)) (key value : list Z)
    : result (list (Z * list Z) * bool) :=
  pt ← id_type_deserialize value;
  Ok (if match typ with Some t => bool_decide (pt_typ pt = t) | None => true end
      then results ++ [(pt_account_id pt, Utf8.from_utf8_lossy (drop 1 key))] else results, true).

Definition account_matches (p : principal Z) (f : list Z) : bool :=
  str_contains f (str_to_lowercase (p_name p)) ||
  match p_description p with Some d => str_contains f (str_to_lowercase d) | None => false end ||
  existsb (λ email, str_contains f (str_to_lowercase email)) (p_emails p).

Fixpoint filter_accounts (db : DB) (filters : list (list Z)) (results : list (Z * list Z))
    : dresult (list (list Z)) :=
  match results with
  | [] => DOk []
  | (account_id, account_name) :: results =>
      found ← get_principal db account_id;
      p ← ok_or_not_found (dec account_id) found;
      filtered ← filter_accounts db filters results;
      DOk (if forallb (account_matches p) filters then account_name :: filtered else filtered)
  end.

Definition list_accounts (db : DB) (filter : option (list Z)) (typ : option Type_)
    : dresult (list (list Z)) :=
  results ← lift (iterate db
    (set_ascending true (params_new (dir_key (NameToId [])) (dir_key (NameToId (replicate 10 U8_MAX)))))
    (collect_account typ) []);
  match filter with
  | Some filter => filter_accounts db (str_to_lowercase <$> split_whitespace filter) results
  | None => DOk (snd <$> results)
  end.

Definition collect_domain (filter : option (list Z)) (results : list (list Z)) (key _value : list Z)
    : result (list (list Z) * bool) :=
  let domain := Utf8.from_utf8_lossy (drop 1 key) in
  Ok (if match filter with Some f => str_contains f domain | None => true end
      then results ++ [domain] else results, true).

Definition list_domains (db : DB) (filter : option (list Z)) : dresult (list (list Z)) :=
  lift (iterate db
    (set_ascending true (no_values
      (params_new (dir_key (Domain [])) (dir_key (Domain (replicate 10 U8_MAX))))))
    (collect_domain filter) []).

(** *** Lookups *)

Inductive Credentials :=
  | Plain (username secret : list Z)
  | OAuthBearer (token : list Z)
  | XOauth2 (username secret : list Z).
Inductive Query_ := QueryManage (by_ : QueryBy) | QueryCredentials (credentials : Credentials).

Context (verify_secret : principal Z → list Z → bool).

Definition query (db : DB) (by_ : Query_) (return_member_of : bool) : dresult (option (principal Z)) :=
  '(account_id, secret) ←
    match by_ with
    | QueryManage (ByName name) => id ← get_account_id db name; DOk (id, None)
    | QueryManage (ById account_id) => DOk (Some account_id, None)
    | QueryCredentials (Plain username secret) =>
        id ← get_account_id db username; DOk (id, Some secret)
    | QueryCredentials (OAuthBearer token) => id ← get_account_id db token; DOk (id, Some token)
    | QueryCredentials (XOauth2 username secret) =>
        id ← get_account_id db username; DOk (id, Some secret)
    end;
  match (account_id : option Z) with
  | None => DOk None
  | Some account_id =>
      found ← get_principal db account_id;
      match (found : option (principal Z)) with
      | Some p =>
          if match (secret : option (list Z)) with Some secret => verify_secret p secret | None => true end then
            if return_member_of
            then member_of ← get_member_of db (p_id p); DOk (Some (with_member_of member_of p))
            else DOk (Some p)
          else DOk None
      | None => DOk None
      end
  end.

Definition email_to_ids (db : DB) (email : list Z) : dresult (list Z) :=
  ptype ← lift (get_value id_type_deserialize db (dir_key (EmailToId email)));
  match (ptype : option PrincipalIdType) with
  | Some ptype =>
      if decide (pt_typ ptype ≠ List_) then DOk [pt_account_id ptype]
      else get_members db (pt_account_id ptype)
  | None => DOk []
  end.

Definition local_part (address : list Z) : list Z := default address (head (str_split 64 address)).

Definition collect_address (address : list Z) (results : list (list Z)) (key _value : list Z)
    : result (list (list Z) * bool) :=
  let key := if Utf8.from_utf8 (drop 1 key) then drop 1 key else [] in
  Ok (if str_contains address (local_part key) then results ++ [key] else results, true).

Definition vrfy (db : DB) (address : list Z) : dresult (list (list Z)) :=
  let address := local_part address in
  if decide (3 < length address)%nat then
    lift (iterate db
      (no_values (params_new (dir_key (EmailToId [0])) (dir_key (EmailToId (replicate 10 U8_MAX)))))
      (collect_address address) [])
  else DOk [].

Fixpoint first_emails (db : DB) (ids : list Z) : dresult (list (list Z)) :=
  match ids with
  | [] => DOk []
  | account_id :: ids =>
      found ← get_principal db account_id;
      emails ← first_emails db ids;
      DOk (match found ≫= (λ p, head (p_emails p)) with
           | Some email => email :: emails
           | None => emails
           end)
  end.
Definition expn (db : DB) (address : list Z) : dresult (list (list Z)) :=
  ids ← email_to_ids db address; first_emails db ids.
End directory.
End Dir.
