(* ===== verification/DirectoryCodec.v ===== *)
(** * Encodings of the directory

    The records of principals and of their identifiers read back what was
    written. *)

From stdpp Require Import base gmap sorting strings numbers list.
From S2P Require Import Prelude Codec Keys KeyTheory Roaring Kv Batch Commit Read Store Utf8 Text ClearLoop Query Blob Directory.
Import Dir.
Open Scope Z_scope.
Open Scope bytes_scope.

(** A string of the program. *)
Definition str_ok (s : list Z) : Prop := Utf8.from_utf8 s = true ∧ uint_ok 64 (Z.of_nat (length s)).
#[export] Instance str_ok_dec s : Decision (str_ok s).
Proof. unfold str_ok. apply _. Defined.

Definition list_ok (l : list (list Z)) : Prop := Forall str_ok l ∧ uint_ok 64 (Z.of_nat (length l)).
#[export] Instance list_ok_dec l : Decision (list_ok l).
Proof. unfold list_ok. apply _. Defined.

(** A principal as it is stored: its groups are kept elsewhere, and an empty
    description is none. *)
Record principal_ok (p : principal Z) : Prop := {
  po_id : uint_ok 32 (p_id p);
  po_quota : uint_ok 64 (p_quota p);
  po_name : str_ok (p_name p);
  po_secrets : list_ok (p_secrets p);
  po_emails : list_ok (p_emails p);
  po_member_of : p_member_of p = [];
  po_description : match p_description p with Some d => d ≠ [] ∧ str_ok d | None => True end;
}.

Definition str_field (s : list Z) : list Z := Leb128.leb (Z.of_nat (length s)) ++ s.
Definition list_field (l : list (list Z)) : list Z :=
  Leb128.leb (Z.of_nat (length l)) ++ mjoin (str_field <$> l).

Lemma write_str_buf s k : buf (write_str s k) = buf k ++ str_field s.
Proof.
  unfold write_str, write_bytes. cbn [buf]. rewrite write_leb128_buf. unfold str_field. by rewrite app_assoc.
Qed.
Lemma write_list_buf l k : buf (write_list l k) = buf k ++ list_field l.
Proof.
  unfold write_list, list_field. rewrite app_assoc, <-write_leb128_buf.
  generalize (write_leb128 (Z.of_nat (length l)) k). clear k.
  induction l as [|s l IH]; intros k; [by rewrite app_nil_r|]. cbn [foldl fmap list_fmap mjoin list_join].
  rewrite IH, write_str_buf. cbn. by rewrite app_assoc.
Qed.

Lemma principal_serialize_bytes p :
  principal_serialize p
  = [1] ++ Leb128.leb (p_id p) ++ [type_u8 (p_typ p)] ++ Leb128.leb (p_quota p) ++
    str_field (p_name p) ++ str_field (default [] (p_description p)) ++
    list_field (p_secrets p) ++ list_field (p_emails p).
Proof.
  unfold principal_serialize, finalize. rewrite !write_list_buf, !write_str_buf, !write_leb128_buf.
  unfold write_u8, write_bytes, ks_new. cbn [buf]. rewrite write_leb128_buf. cbn [buf].
  by rewrite app_nil_l, <-!app_assoc.
Qed.

Lemma id_type_serialize_bytes t :
  id_type_serialize t = Leb128.leb (pt_account_id t) ++ [type_u8 (pt_typ t)].
Proof.
  unfold id_type_serialize, finalize, write_u8, write_bytes. cbn [buf]. rewrite write_leb128_buf. done.
Qed.

(** ** Reading back *)

Lemma next_int_leb ty v rest :
  Leb128.decodable ty v → next_int ty (Leb128.leb v ++ rest) = Some (v, rest).
Proof. intros Hd. unfold next_int. by rewrite Leb128.next_leb128_leb. Qed.

Lemma from_u8_type t : from_u8 (type_u8 t) = t.
Proof. by destruct t. Qed.

Lemma deserialize_string_field s rest :
  str_ok s → deserialize_string (str_field s ++ rest) = Some (s, rest).
Proof.
  intros [Hu Hl]. unfold deserialize_string, str_field. rewrite <-app_assoc, next_int_leb by done.
  cbn [mbind option_bind]. rewrite decide_False by (rewrite length_app; lia).
  by rewrite Nat2Z.id, take_app_length, drop_app_length, Hu.
Qed.

Lemma deserialize_strings_field l rest :
  Forall str_ok l →
  deserialize_strings (length l) (mjoin (str_field <$> l) ++ rest) = Some (l, rest).
Proof.
  induction 1 as [|s l Hs Hl IH]; [done|]. cbn [length deserialize_strings].
  change (mjoin (str_field <$> s :: l)) with (str_field s ++ mjoin (str_field <$> l)).
  rewrite <-app_assoc, deserialize_string_field by done. cbn [mbind option_bind]. by rewrite IH.
Qed.

Lemma deserialize_string_list_field l rest :
  list_ok l → deserialize_string_list (list_field l ++ rest) = Some (l, rest).
Proof.
  intros [Hl Hn]. unfold deserialize_string_list, list_field. rewrite <-app_assoc, next_int_leb by done.
  cbn [mbind option_bind]. rewrite Nat2Z.id. by apply deserialize_strings_field.
Qed.

(** A stored principal reads back as it was written. *)
Lemma principal_roundtrip p :
  principal_ok p → principal_deserialize (principal_serialize p) = Ok p.
Proof.
  intros [Hid Hq Hn Hs He Hm Hd]. unfold principal_deserialize, deserialize.
  rewrite principal_serialize_bytes. cbn [app next mbind option_bind Z.eqb].
  assert (str_ok (default [] (p_description p))) as Hdesc by (destruct (p_description p); [apply Hd|done]).
  rewrite next_int_leb by done. cbn [mbind option_bind next]. rewrite next_int_leb by done. cbn [mbind option_bind].
  rewrite !deserialize_string_field by done. cbn [mbind option_bind].
  rewrite deserialize_string_field by done. cbn [mbind option_bind].
  rewrite deserialize_string_list_field by done. cbn [mbind option_bind].
  pose proof (deserialize_string_list_field _ [] He) as Hl. rewrite app_nil_r in Hl. rewrite Hl.
  cbn [mbind option_bind ok_or]. f_equal. destruct p as [id t q n s e m d]. cbn in *. subst m.
  rewrite from_u8_type. f_equal. destruct d as [d|]; [|done].
  by rewrite bool_decide_false by apply Hd.
Qed.

Lemma id_type_roundtrip t :
  uint_ok 32 (pt_account_id t) → id_type_deserialize (id_type_serialize t) = Ok t.
Proof.
  intros Hid. unfold id_type_deserialize. rewrite id_type_serialize_bytes, next_int_leb by done.
  cbn [mbind result_bind ok_or next]. destruct t. cbn. by rewrite from_u8_type.
Qed.
