(* ===== verification/DirectoryTheory.v ===== *)
(** * What the directory's entries mean

    The directory as its users see it: principals, who is a member of what,
    local domains.  [represents] relates it to the entries of the store; the
    lookups are proved to answer from it. *)

From stdpp Require Import base gmap sorting strings numbers list.
From S2P Require Import Prelude Codec Keys KeyTheory KeyOrder Roaring Kv KvModel Batch Commit CommitTheory Read Store Utf8 Text ClearLoop Query Blob Directory DirectoryCodec.
Import Dir.
Open Scope Z_scope.
Open Scope bytes_scope.

(** ** The entries *)

#[export] Instance directory_class_eq_dec : EqDecision (DirectoryClass Z).
Proof. solve_decision. Defined.

Definition dir_cell (c : DirectoryClass Z) : Z * list Z :=
  (subspace (Keys.Directory c) 0, value_bytes (Keys.Directory c) 0 0 0).
Definition dclass_ok (c : DirectoryClass Z) : Prop := value_class_ok (Keys.Directory c) 0 0.

Lemma dir_cell_inj c1 c2 : dclass_ok c1 → dclass_ok c2 → dir_cell c1 = dir_cell c2 → c1 = c2.
Proof.
  intros H1 H2 He. pose proof (f_equal fst He) as Hs. pose proof (f_equal snd He) as Hk.
  cbn [fst snd dir_cell] in Hs, Hk.
  destruct (value_bytes_injective (Keys.Directory c1) (Keys.Directory c2) 0 0 0 0 0 0) as [Hc _];
    [done..|by injection Hc].
Qed.

Lemma dir_cell_subspace c s k :
  dir_cell c = (s, k) → s = SUBSPACE_DIRECTORY ∨ s = SUBSPACE_QUOTA.
Proof. intros He. apply (f_equal fst) in He. cbn [fst dir_cell] in He. subst s. destruct c; auto. Qed.

(** ** Writes to the directory *)

Abbreviation write := (DirectoryClass Z * option (list Z))%type.
Definition apply_write (m : store_map) (w : write) : store_map :=
  match w.2 with Some v => <[dir_cell w.1 := v]> m | None => delete (dir_cell w.1) m end.

Lemma lookup_apply_write m w c :
  dclass_ok w.1 → dclass_ok c →
  apply_write m w !! dir_cell c = if decide (c = w.1) then w.2 else m !! dir_cell c.
Proof.
  intros Hw Hc. destruct w as [c' [v|] ]; unfold apply_write; cbn [fst snd] in *.
  - destruct (decide (c = c')) as [->|Hne]; [by rewrite lookup_insert_eq|].
    rewrite lookup_insert_ne; [done|]. intros He. by apply Hne, eq_sym, dir_cell_inj.
  - destruct (decide (c = c')) as [->|Hne]; [by rewrite lookup_delete_eq|].
    rewrite lookup_delete_ne; [done|]. intros He. by apply Hne, eq_sym, dir_cell_inj.
Qed.

Lemma lookup_apply_write_other m w s k :
  s ≠ SUBSPACE_DIRECTORY → s ≠ SUBSPACE_QUOTA → apply_write m w !! (s, k) = m !! (s, k).
Proof.
  intros H1 H2. destruct w as [c [v|] ]; unfold apply_write; cbn [fst snd];
    [rewrite lookup_insert_ne|rewrite lookup_delete_ne]; try done; by intros [|]%dir_cell_subspace.
Qed.

Definition apply_writes (ws : list write) (m : store_map) : store_map := foldl apply_write m ws.

Lemma apply_writes_app ws ws' m : apply_writes (ws ++ ws') m = apply_writes ws' (apply_writes ws m).
Proof. apply foldl_app. Qed.

Lemma lookup_apply_writes_other ws m s k :
  s ≠ SUBSPACE_DIRECTORY → s ≠ SUBSPACE_QUOTA → apply_writes ws m !! (s, k) = m !! (s, k).
Proof.
  intros H1 H2. revert m. induction ws as [|w ws IH]; intros m; [done|].
  unfold apply_writes in *. cbn [foldl]. by rewrite IH, lookup_apply_write_other.
Qed.

(** When all writes to an entry agree, it has their value. *)
Lemma lookup_apply_writes (f : DirectoryClass Z → option (list Z)) cs m c :
  Forall dclass_ok cs → dclass_ok c →
  apply_writes ((λ c, (c, f c)) <$> cs) m !! dir_cell c
  = if decide (c ∈ cs) then f c else m !! dir_cell c.
Proof.
  intros Hcs Hc. revert m. induction Hcs as [|c' cs Hc' Hcs IH]; intros m; [done|].
  rewrite fmap_cons. unfold apply_writes in *. cbn [foldl]. rewrite IH, lookup_apply_write by done.
  cbn [fst snd]. repeat case_decide; subst; set_solver.
Qed.

(** ** What a batch writes *)

Definition resolve_dir (ids : AssignedIds) (c : DirectoryClass MaybeDynamicId) : DirectoryClass Z :=
  let r id := resolve_id id (Some ids) in
  match c with
  | NameToId n => NameToId n
  | EmailToId e => EmailToId e
  | MemberOf p m => MemberOf (r p) (r m)
  | Members p m => Members (r p) (r m)
  | Domain n => Domain n
  | Principal u => Principal (r u)
  | UsedQuota u => UsedQuota u
  end.

Lemma dir_class_cell c cls :
  class_cell c (dir_class cls) = dir_cell (resolve_dir (c_result c) cls).
Proof.
  unfold class_cell, Commit.class_key, dir_cell, dir_class. rewrite value_serialize_resolve, value_serialize_bytes.
  by destruct cls.
Qed.

Definition op_write (ids : AssignedIds) (op : Operation) : option write :=
  match op with
  | OpValue (Keys.Directory c) (Set_ v) =>
      match value_resolve v ids with Ok bytes => Some (resolve_dir ids c, Some bytes) | Err _ => None end
  | OpValue (Keys.Directory c) Clear => Some (resolve_dir ids c, None)
  | _ => None
  end.
Definition plain (op : Operation) : bool :=
  match op with
  | OpAccountId _ | OpCollection _ | OpAssertValue _ _ => true
  | OpValue (Keys.Directory (UsedQuota _)) (Set_ _) => false
  | OpValue (Keys.Directory _) (Set_ _) | OpValue (Keys.Directory _) Clear => true
  | _ => false
  end.

Lemma exec_ops_plain h ops c m c' m' :
  Forall (λ op, plain op = true) ops → exec_ops h (c, m) ops (c', m') →
  m' = apply_writes (omap (op_write (c_result c)) ops) m ∧ c_result c' = c_result c.
Proof.
  intros Hops. revert c m. induction Hops as [|op ops Hop Hops IH]; intros c m Hex.
  { inversion Hex; subst. done. }
  inversion Hex as [|? ? [c1 m1] ? ? X1 X2]; subst. apply IH in X2 as [-> ->]. clear IH.
  inversion X1; subst; cbn [plain] in Hop; try done.
  - destruct class as [|?|?|?|?|cls|?|?|?|?|?]; try done. split; [|done]. cbn [op_write omap list_omap].
    match goal with Hv : value_resolve _ _ = Ok _ |- _ => rewrite Hv end.
    unfold apply_writes. cbn [foldl]. change (Keys.Directory cls) with (dir_class cls).
    by rewrite dir_class_cell.
  - destruct class as [|?|?|?|?|cls|?|?|?|?|?]; try done. split; [|done]. cbn [op_write omap list_omap].
    unfold apply_writes. cbn [foldl]. change (Keys.Directory cls) with (dir_class cls).
    by rewrite dir_class_cell.
  - by destruct class as [| | | | | [] | | | | |].
  - by destruct class as [| | | | | [] | | | | |].
Qed.

Lemma plain_ops_ok b coll ops :
  (∀ op, op ∈ ops → match op with OpAccountId v => uint_ok 32 v | OpCollection v => uint_ok 8 v | _ => True end) →
  Forall (λ op, plain op = true) ops → ops_ok b coll ops.
Proof.
  intros Hsel Hops. revert coll. induction Hops as [|op ops Hop Hops IH]; intros coll; [done|].
  split; [|apply IH; intros; apply Hsel; by right].
  pose proof (Hsel op (list_elem_of_here _ _)) as Hs.
  destruct op as [| | | | |cls [v| | |] | | |]; try done;
    destruct cls as [| | | | |cls| | | | |]; try done; destruct cls; done.
Qed.

(** ** The directory *)

(** [(a, g)] is in [membership] when [a] is a member of [g]. *)
Record directory := {
  accounts : gmap Z (principal Z);
  membership : gset (Z * Z);
  domains : gset (list Z);
}.

Definition dir_empty : directory := {| accounts := ∅; membership := ∅; domains := ∅ |}.

(** Every account has its own id, no e-mail is listed twice, and memberships
    relate accounts that exist. *)
Record dir_ok (d : directory) : Prop := {
  do_account id p : accounts d !! id = Some p →
    principal_ok p ∧ p_id p = id ∧ id < U32_MAX ∧ NoDup (p_emails p);
  do_member a g : (a, g) ∈ membership d → is_Some (accounts d !! a) ∧ is_Some (accounts d !! g);
}.

(** The value that a name and an e-mail lead to. *)
Definition ptype_of (id : Z) (p : principal Z) : list Z :=
  id_type_serialize {| pt_account_id := id; pt_typ := into_base_type (p_typ p) |}.

(** The bit that keeps the id of an account from being assigned again. *)
Definition id_cell (id : Z) : Z * list Z :=
  (SUBSPACE_BITMAP_ID, (to_be_bytes 4 U32_MAX ++ [COLLECTION_PRINCIPAL]) ++ to_be_bytes 4 id).

Record represents (d : directory) (m : store_map) : Prop := {
  re_ok : dir_ok d;
  re_keys k v : m !! (SUBSPACE_DIRECTORY, k) = Some v →
    ∃ c, dclass_ok c ∧ dir_cell c = (SUBSPACE_DIRECTORY, k);
  re_account id : uint_ok 32 id →
    m !! dir_cell (Principal id) = principal_serialize <$> accounts d !! id;
  re_name n v : m !! dir_cell (NameToId n) = Some v ↔
    ∃ id p, accounts d !! id = Some p ∧ p_name p = n ∧ v = ptype_of id p;
  re_email e v : m !! dir_cell (EmailToId e) = Some v ↔
    ∃ id p, accounts d !! id = Some p ∧ e ∈ p_emails p ∧ v = ptype_of id p;
  re_member_of a g : uint_ok 32 a → uint_ok 32 g →
    is_Some (m !! dir_cell (MemberOf a g)) ↔ (a, g) ∈ membership d;
  re_members a g : uint_ok 32 a → uint_ok 32 g →
    is_Some (m !! dir_cell (Members g a)) ↔ (a, g) ∈ membership d;
  re_domain n : is_Some (m !! dir_cell (Domain n)) ↔ n ∈ domains d;
  re_id id p : accounts d !! id = Some p → is_Some (m !! id_cell id);
}.

Lemma account_id_ok d id p : dir_ok d → accounts d !! id = Some p → uint_ok 32 id.
Proof. intros Hd Hp. destruct (do_account d Hd id p Hp) as (Hok & <- & _). apply Hok. Qed.

Lemma ptype_inj id p id' p' :
  uint_ok 32 id → uint_ok 32 id' → ptype_of id p = ptype_of id' p' → id = id'.
Proof.
  intros Hid Hid' He. unfold ptype_of in He.
  pose proof (id_type_roundtrip {| pt_account_id := id; pt_typ := into_base_type (p_typ p) |} Hid) as H1.
  rewrite He, id_type_roundtrip in H1 by done. by injection H1 as ->.
Qed.

(** The entries determine the owner of a name and of an e-mail. *)
Lemma name_unique d m id p id' p' :
  represents d m → accounts d !! id = Some p → accounts d !! id' = Some p' →
  p_name p = p_name p' → id = id'.
Proof.
  intros Hr Hp Hp' Hn. pose proof (re_ok _ _ Hr) as Hd.
  assert (m !! dir_cell (NameToId (p_name p)) = Some (ptype_of id p)) as H1 by (apply (re_name d m Hr); eauto).
  assert (m !! dir_cell (NameToId (p_name p)) = Some (ptype_of id' p')) as H2
    by (apply (re_name d m Hr); rewrite Hn; eauto).
  rewrite H1 in H2. injection H2 as H2. apply ptype_inj in H2; [done|by eapply account_id_ok..].
Qed.
Lemma email_unique d m id p id' p' e :
  represents d m → accounts d !! id = Some p → accounts d !! id' = Some p' →
  e ∈ p_emails p → e ∈ p_emails p' → id = id'.
Proof.
  intros Hr Hp Hp' He He'. pose proof (re_ok _ _ Hr) as Hd.
  assert (m !! dir_cell (EmailToId e) = Some (ptype_of id p)) as H1 by (apply (re_email d m Hr); eauto).
  assert (m !! dir_cell (EmailToId e) = Some (ptype_of id' p')) as H2 by (apply (re_email d m Hr); eauto).
  rewrite H1 in H2. injection H2 as H2. apply ptype_inj in H2; [done|by eapply account_id_ok..].
Qed.

(** ** Questions to the directory *)

Definition has_name (n : list Z) (e : Z * principal Z) : Prop := p_name e.2 = n.
Definition find_id (d : directory) (n : list Z) : option Z :=
  fst <$> head (base.filter (λ e, p_name e.2 = n) (map_to_list (accounts d))).
Definition email_owner (d : directory) (e : list Z) : option (Z * principal Z) :=
  head (base.filter (λ a, e ∈ p_emails a.2) (map_to_list (accounts d))).

Lemma head_filter_Some {A} (P : A → Prop) `{∀ x, Decision (P x)} (l : list A) x :
  head (base.filter P l) = Some x → x ∈ l ∧ P x.
Proof.
  intros Hh. assert (x ∈ base.filter P l) as Hin by (destruct (base.filter P l); [done|injection Hh as ->; by left]).
  apply list_elem_of_filter in Hin. tauto.
Qed.
Lemma head_filter_None {A} (P : A → Prop) `{∀ x, Decision (P x)} (l : list A) x :
  head (base.filter P l) = None → x ∈ l → ¬ P x.
Proof.
  intros Hh Hin HP. assert (x ∈ base.filter P l) as Hf by (apply list_elem_of_filter; done).
  destruct (base.filter P l); [by apply elem_of_nil in Hf|done].
Qed.

Lemma find_id_Some d m n id :
  represents d m → find_id d n = Some id ↔ ∃ p, accounts d !! id = Some p ∧ p_name p = n.
Proof.
  intros Hr. unfold find_id. split.
  - destruct (head _) as [[id' p]|] eqn:Hh; [|done]. intros [= <-].
    apply head_filter_Some in Hh as [Hin Hn]. exists p. split; [|done]. by apply elem_of_map_to_list.
  - intros (p & Hp & Hn). destruct (head _) as [[id' p']|] eqn:Hh.
    + apply head_filter_Some in Hh as [Hin Hn']. apply elem_of_map_to_list in Hin. cbn in *.
      f_equal. eapply name_unique; [done..|]. congruence.
    + eapply (head_filter_None _ _ (id, p)) in Hh; [done|by apply elem_of_map_to_list].
Qed.

Lemma email_owner_Some d m e id p :
  represents d m → email_owner d e = Some (id, p) ↔ accounts d !! id = Some p ∧ e ∈ p_emails p.
Proof.
  intros Hr. unfold email_owner. split.
  - intros [Hin He]%head_filter_Some. apply elem_of_map_to_list in Hin. done.
  - intros [Hp He]. destruct (head _) as [[id' p']|] eqn:Hh.
    + apply head_filter_Some in Hh as [Hin He']. apply elem_of_map_to_list in Hin. cbn in He'.
      assert (id' = id) as -> by (by eapply email_unique). congruence.
    + eapply (head_filter_None _ _ (id, p)) in Hh; [done|by apply elem_of_map_to_list].
Qed.

Section lookups.
Context {DB Txn : Type} `{RocksDBLaws DB Txn}.

Lemma get_dir_value {U} (f : list Z → result U) (db : DB) c :
  get_value f db (dir_key c)
  = match db_map db !! dir_cell c with Some v => Some <$> f v | None => Ok None end.
Proof.
  unfold get_value. rewrite get_pinned_spec. unfold dir_cell, dir_key, class_key. cbn [key_subspace key_serialize value_key].
  unfold value_key_subspace, value_key_serialize.
  cbn [vk_class vk_account_id vk_collection vk_document_id]. rewrite value_serialize_bytes.
  change (flag_bytes 0 _) with (@nil Z). done.
Qed.

Context (db : DB) (d : directory) (Hr : represents d (db_map db)).

Lemma get_principal_spec id : uint_ok 32 id → get_principal db id = DOk (accounts d !! id).
Proof.
  intros Hid. unfold get_principal. rewrite get_dir_value, (re_account _ _ Hr) by done.
  destruct (accounts d !! id) as [p|] eqn:Hp; [|done]. cbn [fmap option_fmap option_map].
  rewrite principal_roundtrip; [done|]. by eapply (do_account d (re_ok _ _ Hr)).
Qed.

Lemma get_account_id_spec n : get_account_id db n = DOk (find_id d n).
Proof.
  unfold get_account_id. rewrite get_dir_value. destruct (db_map db !! dir_cell (NameToId n)) as [v|] eqn:Hv.
  - apply (re_name _ _ Hr) in Hv as (id & p & Hp & Hn & ->).
    assert (find_id d n = Some id) as -> by (eapply find_id_Some; eauto).
    unfold ptype_of. rewrite id_type_roundtrip by (eapply account_id_ok; [apply Hr|done]). done.
  - destruct (find_id d n) as [id|] eqn:Hf; [|done].
    eapply find_id_Some in Hf as (p & Hp & Hn); [|done].
    assert (db_map db !! dir_cell (NameToId n) = Some (ptype_of id p)) by (apply (re_name _ _ Hr); eauto).
    congruence.
Qed.

Lemma rcpt_spec e : rcpt db e = DOk (bool_decide (is_Some (email_owner d e))).
Proof.
  unfold rcpt, key_exists. rewrite get_dir_value. destruct (db_map db !! dir_cell (EmailToId e)) as [v|] eqn:Hv.
  - apply (re_email _ _ Hr) in Hv as (id & p & Hp & He & ->). cbn.
    rewrite bool_decide_true; [done|]. exists (id, p). by eapply email_owner_Some.
  - cbn. rewrite (bool_decide_false (is_Some _)); [done|]. intros [[id p] Ho].
    eapply email_owner_Some in Ho as [Hp He]; [|done].
    assert (db_map db !! dir_cell (EmailToId e) = Some (ptype_of id p)) by (apply (re_email _ _ Hr); eauto).
    congruence.
Qed.

Lemma is_local_domain_spec n : is_local_domain db n = DOk (bool_decide (n ∈ domains d)).
Proof.
  unfold is_local_domain, key_exists. rewrite get_dir_value. pose proof (re_domain _ _ Hr n) as Hn.
  destruct (db_map db !! dir_cell (Domain n)) as [v|] eqn:Hv; cbn.
  - by rewrite bool_decide_true by (apply Hn; eauto).
  - rewrite (bool_decide_false (n ∈ _)); [done|]. intros Hin%Hn. by destruct Hin.
Qed.

(** The lists of groups and of members are ranges of keys. *)
Lemma collect_visit (rows : list row) p ids acc :
  Forall2 (λ (r : row) id, uint_ok 32 id ∧ r.1 = p ++ to_be_bytes 4 id) rows ids →
  visit false collect_id rows acc = Ok (acc ++ ids).
Proof.
  intros Hrows. revert acc. induction Hrows as [|[k v] id rows ids [Hid Hk] Hrows IH]; intros acc.
  { by rewrite app_nil_r. }
  cbn [fst] in Hk. subst k. cbn [visit].
  assert (collect_id acc (p ++ to_be_bytes 4 id) v = Ok (acc ++ [id], true)) as ->
    by (unfold collect_id; by rewrite deserialize_be_u32_end_app).
  cbn [mbind result_bind negb orb]. by rewrite IH, <-app_assoc.
Qed.

Lemma scan_ids (f : Z → Z → DirectoryClass Z) (tag a : Z) :
  (∀ a g, dir_cell (f a g) = (SUBSPACE_DIRECTORY, tag :: to_be_bytes 4 a ++ to_be_bytes 4 g)) →
  (∀ c r, dclass_ok c → dir_cell c = (SUBSPACE_DIRECTORY, tag :: r) →
     ∃ a g, uint_ok 32 a ∧ uint_ok 32 g ∧ c = f a g) →
  uint_ok 32 a →
  ∃ ids, iterate db (no_values (params_new (dir_key (f a 0)) (dir_key (f a U32_MAX)))) collect_id [] = Ok ids ∧
    NoDup ids ∧ ∀ g, g ∈ ids ↔ uint_ok 32 g ∧ is_Some (db_map db !! dir_cell (f a g)).
Proof.
  intros Hf Hc Ha. set (p := tag :: to_be_bytes 4 a).
  assert (∀ g, key_serialize (dir_key (f a g)) 0 = p ++ to_be_bytes 4 g ∧
    key_subspace (dir_key (f a g)) = SUBSPACE_DIRECTORY) as Hkey.
  { intros g. pose proof (Hf a g) as He. split; [apply (f_equal snd) in He|apply (f_equal fst) in He].
    - cbn [snd dir_cell] in He. cbn [key_serialize value_key]. unfold value_key_serialize, dir_key, class_key.
      cbn [vk_class vk_account_id vk_collection vk_document_id]. rewrite value_serialize_bytes.
      change (flag_bytes 0 _) with (@nil Z). exact He.
    - exact He. }
  rewrite iterate_visit. cbn [first ascending begin end_ no_values params_new].
  rewrite (proj2 (Hkey 0)), !(λ g, proj1 (Hkey g)). set (rows := range_rows _ _ _ _ _).
  assert (∀ r, r ∈ rows → ∃ g, uint_ok 32 g ∧ r.1 = p ++ to_be_bytes 4 g) as Hrows.
  { intros [k v] (Hlo & Hhi & Hv)%elem_of_range_rows. cbn [fst].
    pose proof (bytes_range_prefix _ _ _ _ Hlo Hhi) as Hp.
    destruct (re_keys _ _ Hr _ _ Hv) as (c & Hok & Hcell). rewrite Hp in Hcell.
    destruct (Hc c _ Hok Hcell) as (a' & g & Ha' & Hg & ->). rewrite Hf in Hcell.
    apply (f_equal snd) in Hcell. cbn [snd] in Hcell. unfold p in Hcell, Hp |- *.
    apply (f_equal tail) in Hcell. cbn [tail app] in Hcell.
    apply be32_split in Hcell as [-> Hcell]; [|done..].
    exists g. split; [done|]. rewrite Hp. cbn [app]. by rewrite <-Hcell. }
  set (id_of (r : row) := from_be_bytes (drop (length p) r.1)).
  assert (∀ r, r ∈ rows → uint_ok 32 (id_of r) ∧ r.1 = p ++ to_be_bytes 4 (id_of r)) as Hid.
  { intros r (g & Hg & Hk)%Hrows. unfold id_of. rewrite Hk, drop_app_length, from_to_be_bytes by done. done. }
  exists (id_of <$> rows). split; [|split].
  - rewrite (collect_visit rows p (id_of <$> rows)); [done|].
    apply Forall2_fmap_r, Forall_Forall2_diag, list.Forall_forall. auto.
  - apply NoDup_fmap_2_strong; [|apply NoDup_filter, NoDup_cf_rows].
    intros [k v] [k' v'] Hin Hin' He. destruct (Hid _ Hin) as [_ Hk], (Hid _ Hin') as [_ Hk'].
    rewrite He in Hk. cbn [fst] in Hk, Hk'. assert (k = k') as <- by congruence.
    apply elem_of_range_rows in Hin as (_ & _ & Hv), Hin' as (_ & _ & Hv'). congruence.
  - intros g. rewrite list_elem_of_fmap, Hf. split.
    + intros ([k v] & -> & Hin). destruct (Hid _ Hin) as [Hg Hk]. split; [done|].
      apply elem_of_range_rows in Hin as (_ & _ & Hv). cbn [fst] in Hk. exists v. by rewrite Hk in Hv.
    + intros [Hg [v Hv]]. exists (p ++ to_be_bytes 4 g, v). split.
      * unfold id_of. cbn [fst]. by rewrite drop_app_length, from_to_be_bytes.
      * apply elem_of_range_rows. rewrite !bytes_le_app. split_and!; [| |exact Hv].
        -- apply be32_zero_le; [apply to_be_bytes_length|apply to_be_bytes_ok].
        -- apply be32_max_ge; [apply to_be_bytes_length|apply to_be_bytes_ok].
Qed.

Lemma get_member_of_spec a :
  uint_ok 32 a →
  ∃ ids, get_member_of db a = DOk ids ∧ NoDup ids ∧ ∀ g, g ∈ ids ↔ (a, g) ∈ membership d.
Proof.
  intros Ha. destruct (scan_ids MemberOf 5 a) as (ids & He & Hnd & Hids); [done| |done|].
  { intros c r Hok Hc. apply (f_equal snd) in Hc. destruct c; try discriminate Hc. destruct Hok. eauto 6. }
  exists ids. unfold get_member_of. rewrite He. split_and!; [done..|]. intros g. rewrite Hids. split.
  - intros [Hg Hs]. by apply (re_member_of _ _ Hr).
  - intros Hin. pose proof (do_member _ (re_ok _ _ Hr) _ _ Hin) as [_ [p Hp]].
    assert (uint_ok 32 g) by (eapply account_id_ok; [apply Hr|done]). split; [done|].
    by apply (re_member_of _ _ Hr).
Qed.

Lemma get_members_spec g :
  uint_ok 32 g →
  ∃ ids, get_members db g = DOk ids ∧ NoDup ids ∧ ∀ a, a ∈ ids ↔ (a, g) ∈ membership d.
Proof.
  intros Hg. destruct (scan_ids Members 6 g) as (ids & He & Hnd & Hids); [done| |done|].
  { intros c r Hok Hc. apply (f_equal snd) in Hc. destruct c; try discriminate Hc. destruct Hok. eauto 6. }
  exists ids. unfold get_members. rewrite He. split_and!; [done..|]. intros a. rewrite Hids. split.
  - intros [Ha Hs]. by apply (re_members _ _ Hr).
  - intros Hin. pose proof (do_member _ (re_ok _ _ Hr) _ _ Hin) as [[p Hp] _].
    assert (uint_ok 32 a) by (eapply account_id_ok; [apply Hr|done]). split; [done|].
    by apply (re_members _ _ Hr).
Qed.
End lookups.
