(* ===== verification/DirectoryManage.v ===== *)
(** * Managing the directory

    Creating, changing and deleting accounts and domains: every operation
    that succeeds leaves the store representing the directory it should, and
    the checks before it report exactly the requests that would not. *)

From stdpp Require Import base gmap sorting strings numbers list.
From S2P Require Import Prelude Codec Keys KeyTheory KeyOrder Roaring Kv KvModel Batch Commit CommitTheory Read Store Utf8 Text ClearLoop Query AclTheory Blob BlobTheory Directory DirectoryCodec DirectoryTheory.
Import Dir.
Open Scope Z_scope.
Open Scope bytes_scope.

(** ** Replacing one account *)

Definition holds (Q : principal Z → list Z → Prop) (o : option (principal Z)) (x : list Z) : Prop :=
  match o with Some p => Q p x | None => False end.
#[export] Instance holds_dec Q `{∀ p x, Decision (Q p x)} o x : Decision (holds Q o x).
Proof. destruct o; apply _. Defined.

Definition is_name (p : principal Z) (n : list Z) : Prop := p_name p = n.
Definition is_email (p : principal Z) (e : list Z) : Prop := e ∈ p_emails p.
#[export] Instance is_name_dec p n : Decision (is_name p n).
Proof. unfold is_name. apply _. Defined.
#[export] Instance is_email_dec p e : Decision (is_email p e).
Proof. unfold is_email. apply _. Defined.

(** The entries of an index, names or e-mails, lead to the accounts that hold
    them; the same after one account is replaced. *)
Lemma index_replace (Q : principal Z → list Z → Prop) `{∀ p x, Decision (Q p x)}
    (accs : gmap Z (principal Z)) (f f' : list Z → option (list Z)) id new :
  (∀ x v, f x = Some v ↔ ∃ id p, accs !! id = Some p ∧ Q p x ∧ v = ptype_of id p) →
  (∀ i p, accs !! i = Some p → uint_ok 32 i) →
  (∀ x, holds Q new x → holds Q (accs !! id) x ∨ f x = None) →
  (∀ x, f' x = if decide (holds Q new x) then ptype_of id <$> new
               else if decide (holds Q (accs !! id) x) then None else f x) →
  ∀ x v, f' x = Some v ↔
    ∃ id' p, partial_alter (λ _, new) id accs !! id' = Some p ∧ Q p x ∧ v = ptype_of id' p.
Proof.
  intros Hf Hids Hfresh Hf' x v. rewrite Hf'.
  assert (∀ i p, accs !! i = Some p → Q p x → holds Q (accs !! id) x → i = id) as Huniq.
  { intros i p Hp Hx Hold. destruct (accs !! id) as [q|] eqn:Hq; [|done].
    assert (f x = Some (ptype_of i p)) as H1 by (apply Hf; eauto).
    assert (f x = Some (ptype_of id q)) as H2 by (apply Hf; eauto).
    rewrite H1 in H2. injection H2 as H2. by apply ptype_inj in H2; [|by eapply Hids..]. }
  assert (∀ i p, partial_alter (λ _, new) id accs !! i = Some p ↔
    (i = id ∧ new = Some p) ∨ (i ≠ id ∧ accs !! i = Some p)) as Hlook.
  { intros i p. rewrite lookup_partial_alter. case_decide; naive_solver. }
  setoid_rewrite Hlook. destruct (decide (holds Q new x)) as [Hnew|Hnew].
  - destruct new as [q|]; [|done]. cbn [fmap option_fmap option_map]. split; [naive_solver|].
    intros (i & p & [[-> [= ->]]|[Hne Hp]] & Hx & ->); [done|]. exfalso.
    destruct (Hfresh x Hnew) as [Hold|Hnone]; [by apply Hne; eapply Huniq|].
    assert (f x = Some (ptype_of i p)) by (apply Hf; eauto). congruence.
  - destruct (decide (holds Q (accs !! id) x)) as [Hold|Hold].
    + split; [done|]. intros (i & p & [[-> ->]|[Hne Hp]] & Hx & ->); [done|]. by destruct Hne; eapply Huniq.
    + rewrite Hf. split.
      * intros (i & p & Hp & Hx & ->). exists i, p. split_and!; [|done..]. right. split; [|done].
        intros ->. rewrite Hp in Hold. done.
      * intros (i & p & [[-> ->]|[Hne Hp]] & Hx & ->); [done|]. eauto.
Qed.

(** The directory with one account replaced. *)
Definition replaced (d : directory) (id : Z) (new : option (principal Z)) (ms : gset (Z * Z)) : directory :=
  {| accounts := partial_alter (λ _, new) id (accounts d); membership := ms; domains := domains d |}.

(** How the entries change when an account is replaced. *)
Record replacement (d : directory) (m m' : store_map) (id : Z) (new : option (principal Z))
    (ms : gset (Z * Z)) : Prop := {
  rp_keys k v : m' !! (SUBSPACE_DIRECTORY, k) = Some v →
    ∃ c, dclass_ok c ∧ dir_cell c = (SUBSPACE_DIRECTORY, k);
  rp_account i : uint_ok 32 i → m' !! dir_cell (Principal i)
    = if decide (i = id) then principal_serialize <$> new else m !! dir_cell (Principal i);
  rp_name n : m' !! dir_cell (NameToId n)
    = if decide (holds is_name new n) then ptype_of id <$> new
      else if decide (holds is_name (accounts d !! id) n) then None else m !! dir_cell (NameToId n);
  rp_email e : m' !! dir_cell (EmailToId e)
    = if decide (holds is_email new e) then ptype_of id <$> new
      else if decide (holds is_email (accounts d !! id) e) then None else m !! dir_cell (EmailToId e);
  rp_member_of a g : uint_ok 32 a → uint_ok 32 g →
    is_Some (m' !! dir_cell (MemberOf a g)) ↔ (a, g) ∈ ms;
  rp_members a g : uint_ok 32 a → uint_ok 32 g →
    is_Some (m' !! dir_cell (Members g a)) ↔ (a, g) ∈ ms;
  rp_domain n : m' !! dir_cell (Domain n) = m !! dir_cell (Domain n);
  rp_id i : i ≠ id → is_Some (m !! id_cell i) → is_Some (m' !! id_cell i);
}.

(** What the new account must be like. *)
Record replacement_ok (d : directory) (m m' : store_map) (id : Z) (new : option (principal Z))
    (ms : gset (Z * Z)) : Prop := {
  ro_new p : new = Some p →
    principal_ok p ∧ p_id p = id ∧ id < U32_MAX ∧ NoDup (p_emails p) ∧ is_Some (m' !! id_cell id);
  ro_name n : holds is_name new n →
    holds is_name (accounts d !! id) n ∨ m !! dir_cell (NameToId n) = None;
  ro_email e : holds is_email new e →
    holds is_email (accounts d !! id) e ∨ m !! dir_cell (EmailToId e) = None;
  ro_members a g : (a, g) ∈ ms →
    is_Some (partial_alter (λ _, new) id (accounts d) !! a) ∧
    is_Some (partial_alter (λ _, new) id (accounts d) !! g);
}.

Lemma represents_replace d m m' id new ms :
  represents d m → replacement d m m' id new ms → replacement_ok d m m' id new ms →
  represents (replaced d id new ms) m'.
Proof.
  intros Hr Hp Ho. pose proof (re_ok _ _ Hr) as Hd.
  assert (∀ i p, accounts d !! i = Some p → uint_ok 32 i) as Hids by (intros; by eapply account_id_ok).
  assert (∀ i p, accounts (replaced d id new ms) !! i = Some p →
    (i = id ∧ new = Some p) ∨ (i ≠ id ∧ accounts d !! i = Some p)) as Hlook.
  { intros i p. cbn [replaced accounts]. rewrite lookup_partial_alter. case_decide; naive_solver. }
  split; [split|..].
  - intros i p [[-> Hn]|[_ Hi]]%Hlook; [|by apply (do_account _ Hd)].
    apply (ro_new _ _ _ _ _ _ Ho) in Hn. tauto.
  - apply Ho.
  - apply Hp.
  - intros i Hi. rewrite (rp_account _ _ _ _ _ _ Hp) by done. cbn [replaced accounts].
    rewrite lookup_partial_alter. destruct (decide (i = id)) as [->|Hne].
    + by rewrite decide_True.
    + rewrite decide_False by congruence. by apply (re_account _ _ Hr).
  - exact (index_replace is_name _ (λ n, m !! dir_cell (NameToId n)) (λ n, m' !! dir_cell (NameToId n))
      id new (re_name _ _ Hr) Hids (ro_name _ _ _ _ _ _ Ho) (rp_name _ _ _ _ _ _ Hp)).
  - exact (index_replace is_email _ (λ e, m !! dir_cell (EmailToId e)) (λ e, m' !! dir_cell (EmailToId e))
      id new (re_email _ _ Hr) Hids (ro_email _ _ _ _ _ _ Ho) (rp_email _ _ _ _ _ _ Hp)).
  - apply Hp.
  - apply Hp.
  - intros n. rewrite (rp_domain _ _ _ _ _ _ Hp). apply (re_domain _ _ Hr).
  - intros i p [[-> Hn]|[Hne Hi]]%Hlook; [by eapply (ro_new _ _ _ _ _ _ Ho)|].
    apply (rp_id _ _ _ _ _ _ Hp); [done|]. by eapply (re_id _ _ Hr).
Qed.

Lemma keys_apply_writes ws m :
  (∀ k v, m !! (SUBSPACE_DIRECTORY, k) = Some v →
     ∃ c, dclass_ok c ∧ dir_cell c = (SUBSPACE_DIRECTORY, k)) →
  Forall (λ w, dclass_ok w.1) ws →
  ∀ k v, apply_writes ws m !! (SUBSPACE_DIRECTORY, k) = Some v →
    ∃ c, dclass_ok c ∧ dir_cell c = (SUBSPACE_DIRECTORY, k).
Proof.
  intros Hm Hws. revert m Hm. induction Hws as [|[c o] ws Hc Hws IH]; intros m Hm; [exact Hm|].
  unfold apply_writes. cbn [foldl]. apply IH. intros k v. unfold apply_write. cbn [fst snd].
  destruct o as [w|]; [rewrite lookup_insert|rewrite lookup_delete]; case_decide; eauto.
Qed.

Lemma id_cell_write ws m i : apply_writes ws m !! id_cell i = m !! id_cell i.
Proof. by apply lookup_apply_writes_other. Qed.

Lemma id_cell_inj i j : uint_ok 32 i → uint_ok 32 j → id_cell i = id_cell j → i = j.
Proof.
  intros Hi Hj He. apply (f_equal snd) in He. cbn [snd id_cell] in He. apply app_inv_head in He.
  by apply be32_inj in He.
Qed.

(** ** Batches of the directory *)

Lemma foldl_ops {A} (g : BatchBuilder → A → BatchBuilder) (f : A → list Operation) batch l :
  (∀ b x, b_ops (g b x) = b_ops b ++ f x) → b_ops (foldl g batch l) = b_ops batch ++ (l ≫= f).
Proof.
  intros Hg. revert batch. induction l as [|x l IH]; intros batch; cbn [foldl mbind list_bind]; [by rewrite app_nil_r|].
  rewrite IH, Hg. by rewrite <-app_assoc.
Qed.

Definition set_op (c : DirectoryClass MaybeDynamicId) (v : MaybeDynamicValue) : Operation :=
  OpValue (dir_class c) (Set_ v).
Definition clear_op (c : DirectoryClass MaybeDynamicId) : Operation := OpValue (dir_class c) Clear.
Definition join_ops (a g : MaybeDynamicId) : list Operation :=
  [set_op (MemberOf a g) (ValueStatic []); set_op (Members g a) (ValueStatic [])].
Definition leave_ops (a g : MaybeDynamicId) : list Operation :=
  [clear_op (MemberOf a g); clear_op (Members g a)].

Lemma join_ops_eq a g batch : b_ops (join a g batch) = b_ops batch ++ join_ops a g.
Proof. unfold join, set, b_push. cbn [b_ops]. by rewrite <-app_assoc. Qed.
Lemma leave_ops_eq a g batch : b_ops (leave a g batch) = b_ops batch ++ leave_ops a g.
Proof. unfold leave, clear, b_push. cbn [b_ops]. by rewrite <-app_assoc. Qed.

(** The ids after the first document was created. *)
Definition ids_of (id : Z) : AssignedIds := push_document_id assigned_default id.

Section writes.
Context {DB Txn : Type} `{StoreWriteLaws DB Txn}.

(** A batch that creates an account. *)
Lemma write_new_spec b (db db' : DB) batch asserts post id :
  store_ok b (db_map db) → 0 ≤ b → b + 101 * Z.of_nat (length (b_ops batch)) ≤ 2 ^ 32 - 100 →
  b_ops batch = [OpAccountId U32_MAX; OpCollection COLLECTION_PRINCIPAL] ++ asserts ++
    [OpDocumentId U32_MAX; OpBitmap DocumentIds true] ++ post →
  Forall (λ op, ∃ c a, op = OpAssertValue c a) asserts → Forall (λ op, plain op = true) post →
  ops_ok b COLLECTION_PRINCIPAL post →
  write_new batch db = Ok (id, db') →
  0 ≤ id < U32_MAX ∧ db_map db !! id_cell id = None ∧
  db_map db' = apply_writes (omap (op_write (ids_of id)) post) (<[id_cell id := []]> (db_map db)).
Proof.
  intros Hdb Hb Hlen Hops Has Hpost Hok. unfold write_new.
  intros ([ids db1] & Hw & (i & Hlast & [= <- <-])%result_bind_ok)%result_bind_ok.
  destruct (store_write_exec b db (build batch) ids db1 Hdb) as (c & Hex & Hc); [|done|].
  { split_and!; [done|done|]. cbn [ops build]. rewrite Hops. clear -Has Hok. cbn [app ops_ok next_collection].
    split; [apply u32_max_ok|]. split; [done|].
    induction Has as [|op asserts (cl & a & ->) Has IH]; [|by split].
    cbn [app ops_ok next_collection]. split; [by left|]. by split. }
  cbn [ops build] in Hex. rewrite Hops in Hex. cbn [app] in Hex.
  inversion Hex as [|? ? ? ? ? X1 X2]; subst. inversion X1; subst. clear X1 Hex.
  inversion X2 as [|? ? ? ? ? X1 X3]; subst. inversion X1; subst. clear X1 X2.
  set (c1 := set_collection _ _) in X3.
  assert (c_account_id c1 = U32_MAX ∧ c_collection c1 = COLLECTION_PRINCIPAL ∧
    c_result c1 = assigned_default) as Hc1 by done. clearbody c1.
  assert (exec_ops store_hash (c1, db_map db) ([OpDocumentId U32_MAX; OpBitmap DocumentIds true] ++ post)
    (c, db_map db1)) as X4.
  { clear -X3 Has. induction Has as [|op asserts (cl & a & ->) Has IH]; [done|].
    inversion X3 as [|? ? ? ? ? Y1 Y2]; subst. inversion Y1; subst. by apply IH. }
  clear X3. cbn [app] in X4. inversion X4 as [|? ? ? ? ? X1 X5]; subst. inversion X1; subst. clear X1 X4.
  inversion X5 as [|? ? ? ? ? X1 X6]; subst. clear X5.
  inversion X1 as [| | | | | | | | | |? ? i' Hmax Hi Hfree|? ? ? Hne| | |]; subst; [|by destruct (Hne eq_refl)].
  apply exec_ops_plain in X6 as [Hm Hres]; [|done].
  cbn [c_result set_result set_document_id] in Hm, Hres. destruct Hc1 as (Ha & Hcol & Hr1).
  rewrite Hr1 in Hm, Hres. rewrite Hres in Hlast. cbn in Hlast. injection Hlast as <-.
  assert (doc_ids_cell (set_document_id U32_MAX c1) i' = id_cell i') as Hcell.
  { unfold doc_ids_cell. rewrite doc_ids_cell_bytes. cbn [set_document_id c_account_id c_collection c_document_id].
    by rewrite Ha, Hcol. }
  rewrite Hcell in Hfree, Hm. done.
Qed.

(** A batch that only sets and clears entries. *)
Lemma write_plain_spec b (db db' : DB) batch ids :
  store_ok b (db_map db) → 0 ≤ b → b + 101 * Z.of_nat (length (b_ops batch)) ≤ 2 ^ 32 - 100 →
  Forall (λ op, plain op = true) (b_ops batch) → ops_ok b U8_MAX (b_ops batch) →
  store_write (build batch) db = Ok (ids, db') →
  db_map db' = apply_writes (omap (op_write assigned_default) (b_ops batch)) (db_map db).
Proof.
  intros Hdb Hb Hlen Hplain Hok Hw.
  destruct (store_write_exec b db (build batch) ids db' Hdb) as (c & Hex & Hc); [by split_and!|done|].
  apply exec_ops_plain in Hex as [Hm _]; done.
Qed.
End writes.

(** ** Creating accounts *)

(** The account that is stored for a request. *)
Definition norm_description (o : option (list Z)) : option (list Z) :=
  d ← o; if decide (d = []) then None else Some d.
Definition stored (id : Z) (p : principal Z) : principal Z :=
  with_description (norm_description (p_description p)) (with_member_of [] (with_id id p)).

Lemma serialize_stored id p : principal_serialize (with_id id p) = principal_serialize (stored id p).
Proof.
  rewrite !principal_serialize_bytes. destruct p as [i t q n s e m [d|] ]; [|done].
  unfold stored, norm_description. cbn. by destruct (decide (d = [])) as [->|].
Qed.

Definition create_classes (id : Z) (p : principal Z) (members : list Z) : list (DirectoryClass Z) :=
  [Principal id; NameToId (p_name p)] ++ (EmailToId <$> p_emails p) ++
  (p_member_of p ≫= λ g, [MemberOf id g; Members g id]) ++
  (members ≫= λ a, [MemberOf a id; Members id a]).

Definition create_value (id : Z) (p : principal Z) (c : DirectoryClass Z) : option (list Z) :=
  match c with
  | Principal _ => Some (principal_serialize (with_id id p))
  | NameToId _ | EmailToId _ => Some (ptype_of id p)
  | _ => Some []
  end.

Definition create_tail (p : principal Z) (members : list Z) : list Operation :=
  let ptype := dynamic_id_type (into_base_type (p_typ p)) in
  [OpAssertValue (dir_class (NameToId (p_name p))) AssertNone;
   set_op (Principal (Dynamic 0)) (dynamic_principal p); set_op (NameToId (p_name p)) ptype] ++
  (p_emails p ≫= λ e, [set_op (EmailToId e) ptype]) ++
  (p_member_of p ≫= λ g, join_ops (Dynamic 0) (Static g)) ++
  (members ≫= λ a, join_ops (Static a) (Dynamic 0)).

Lemma create_batch_ops p members :
  b_ops (create_batch p members)
  = [OpAccountId U32_MAX; OpCollection COLLECTION_PRINCIPAL] ++ [] ++
    [OpDocumentId U32_MAX; OpBitmap DocumentIds true] ++ create_tail p members.
Proof.
  unfold create_batch.
  rewrite (foldl_ops _ (λ a, join_ops (Static a) (Dynamic 0))) by (intros; apply join_ops_eq).
  rewrite (foldl_ops _ (λ g, join_ops (Dynamic 0) (Static g))) by (intros; apply join_ops_eq).
  rewrite (foldl_ops _ (λ e, [set_op (EmailToId e) (dynamic_id_type (into_base_type (p_typ p)))])) by done.
  unfold create_tail. by rewrite <-!app_assoc.
Qed.

Lemma omap_bind_classes {A} (ids : AssignedIds) (f : A → list Operation) (g : A → list (DirectoryClass Z))
    (v : DirectoryClass Z → option (list Z)) l :
  (∀ x, omap (op_write ids) (f x) = (λ c, (c, v c)) <$> g x) →
  omap (op_write ids) (l ≫= f) = (λ c, (c, v c)) <$> (l ≫= g).
Proof.
  intros Hf. induction l as [|x l IH]; [done|]. cbn [mbind list_bind]. by rewrite omap_app, fmap_app, Hf, <-IH.
Qed.

Lemma create_writes id p members :
  omap (op_write (ids_of id)) (create_tail p members)
  = (λ c, (c, create_value id p c)) <$> create_classes id p members.
Proof.
  unfold create_tail, create_classes. rewrite !omap_app, !fmap_app.
  apply (f_equal2 app); [done|]. apply (f_equal2 app); [|apply (f_equal2 app)].
  - rewrite (omap_bind_classes _ _ (λ e, [EmailToId e]) (create_value id p)) by done.
    by f_equal.
  - by apply omap_bind_classes.
  - by apply omap_bind_classes.
Qed.

Lemma elem_of_create_classes id p members c :
  c ∈ create_classes id p members ↔
  match c with
  | Principal i => i = id
  | NameToId n => n = p_name p
  | EmailToId e => e ∈ p_emails p
  | MemberOf a g | Members g a => (a = id ∧ g ∈ p_member_of p) ∨ (g = id ∧ a ∈ members)
  | _ => False
  end.
Proof.
  unfold create_classes. rewrite !elem_of_app, list_elem_of_fmap, !list_elem_of_bind, !elem_of_cons, elem_of_nil.
  setoid_rewrite elem_of_cons. setoid_rewrite elem_of_cons. setoid_rewrite elem_of_nil.
  destruct c; naive_solver.
Qed.

Lemma create_classes_ok id p members :
  uint_ok 32 id → Forall (uint_ok 32) (p_member_of p) → Forall (uint_ok 32) members →
  Forall dclass_ok (create_classes id p members).
Proof.
  intros Hid Hg Hm. rewrite list.Forall_forall in Hg, Hm. apply list.Forall_forall. intros c Hc.
  apply elem_of_create_classes in Hc.
  destruct c; try done; cbn; naive_solver.
Qed.

Lemma create_tail_plain p members : Forall (λ op, plain op = true) (create_tail p members).
Proof.
  unfold create_tail. rewrite !Forall_app. split_and!; [by rewrite !Forall_cons|..];
    apply list.Forall_forall; intros op (x & Hop & _)%list_elem_of_bind;
    repeat apply elem_of_cons in Hop as [->|Hop]; try done; by apply elem_of_nil in Hop.
Qed.

Lemma create_tail_ok b p members : ops_ok b COLLECTION_PRINCIPAL (create_tail p members).
Proof.
  apply plain_ops_ok; [|apply create_tail_plain].
  intros op Hop. destruct op; try done; exfalso; revert Hop; unfold create_tail;
    rewrite !elem_of_app, !list_elem_of_bind, !elem_of_cons; set_solver.
Qed.

(** The created account joins its groups, and its members join it. *)
Definition created_members (id : Z) (groups members : list Z) : gset (Z * Z) :=
  list_to_set ((λ g, (id, g)) <$> groups) ∪ list_to_set ((λ a, (a, id)) <$> members).

Lemma elem_of_created_members id groups members a g :
  (a, g) ∈ created_members id groups members ↔ (a = id ∧ g ∈ groups) ∨ (g = id ∧ a ∈ members).
Proof.
  unfold created_members. rewrite elem_of_union, !elem_of_list_to_set, !list_elem_of_fmap. naive_solver.
Qed.

Ltac created Hlook :=
  rewrite Hlook by done;
  match goal with
  | |- context [decide (?c ∈ create_classes ?id ?p ?l)] =>
      let Hin := fresh "Hin" in
      destruct (decide (c ∈ create_classes id p l)) as [Hin|Hin]; rewrite elem_of_create_classes in Hin
  end.

(** What the entries are after the batch of a creation. *)
Lemma create_replacement d m id p members :
  represents d m → 0 ≤ id < U32_MAX → m !! id_cell id = None → accounts d !! id = None →
  (∀ g, g ∈ p_member_of p → is_Some (accounts d !! g)) → (∀ a, a ∈ members → is_Some (accounts d !! a)) →
  replacement d m
    (apply_writes ((λ c, (c, create_value id p c)) <$> create_classes id p members) (<[id_cell id := []]> m))
    id (Some (stored id p)) (membership d ∪ created_members id (p_member_of p) members).
Proof.
  intros Hr Hid Hfree Hnone Hg Ha. pose proof (re_ok _ _ Hr) as Hd.
  assert (∀ l, (∀ g, g ∈ l → is_Some (accounts d !! g)) → Forall (uint_ok 32) l) as Hids.
  { intros l Hl. apply list.Forall_forall. intros g [q Hq]%Hl. by eapply account_id_ok. }
  pose proof (create_classes_ok id p members (link_word_ok _ Hid) (Hids _ Hg) (Hids _ Ha)) as Hcs.
  assert (∀ c, dclass_ok c → apply_writes ((λ c, (c, create_value id p c)) <$> create_classes id p members)
    (<[id_cell id := []]> m) !! dir_cell c
    = if decide (c ∈ create_classes id p members) then create_value id p c else m !! dir_cell c) as Hlook.
  { intros c Hc. rewrite lookup_apply_writes by done. rewrite lookup_insert_ne; [done|].
    intros He. symmetry in He. by apply dir_cell_subspace in He as [|]. }
  split.
  - apply keys_apply_writes; [|apply Forall_fmap; by eapply Forall_impl].
    intros k v. rewrite lookup_insert_ne by done. apply (re_keys _ _ Hr).
  - intros i Hi. created Hlook; [subst i; rewrite decide_True by done|by rewrite decide_False by done].
    cbn [create_value fmap option_fmap option_map]. by rewrite serialize_stored.
  - intros n. rewrite Hnone. created Hlook; [by rewrite decide_True by done|].
    rewrite decide_False by (intros Hn; by apply Hin). by rewrite decide_False by by intros ?.
  - intros e. rewrite Hnone. created Hlook; [by rewrite decide_True by done|].
    rewrite decide_False by done. by rewrite decide_False by by intros ?.
  - intros a g Hua Hug. rewrite elem_of_union, elem_of_created_members, <-(re_member_of _ _ Hr) by done.
    created Hlook; [|tauto]. split; [tauto|by eexists].
  - intros a g Hua Hug. rewrite elem_of_union, elem_of_created_members, <-(re_members _ _ Hr) by done.
    created Hlook; [|tauto]. split; [tauto|by eexists].
  - intros n. by created Hlook.
  - intros i Hne. rewrite id_cell_write. rewrite lookup_insert. case_decide; [by eauto|done].
Qed.

(** *** What a request must satisfy, in terms of the directory *)

Fixpoint resolve_names (d : directory) (names : list (list Z)) : list Z + ManagementError :=
  match names with
  | [] => inl []
  | n :: names =>
      match find_id d n with
      | None => inr (NotFound n)
      | Some id => match resolve_names d names with inl ids => inl (id :: ids) | inr e => inr e end
      end
  end.

(** The first e-mail that is taken, or whose domain is not local. *)
Definition email_error (d : directory) (e : list Z) : option ManagementError :=
  if decide (is_Some (email_owner d e)) then Some (AlreadyExists FEmails e)
  else domain ← str_split 64 e !! 1%nat;
       if decide (domain ∈ domains d) then None else Some (NotFound domain).
Fixpoint emails_error (d : directory) (emails : list (list Z)) : option ManagementError :=
  match emails with
  | [] => None
  | e :: emails => match email_error d e with Some err => Some err | None => emails_error d emails end
  end.

Section create.
Context `{UnicodeStr}.

Definition new_principal (p : principal (list Z)) (groups : list Z) : principal Z :=
  with_emails (str_to_lowercase <$> p_emails p)
    (with_name (str_to_lowercase (p_name p)) (with_member_of groups p)).

(** The groups and the members of the new account, or why it is refused. *)
Definition create_check (d : directory) (p : principal (list Z)) (members : list (list Z))
    : (list Z * list Z) + ManagementError :=
  if decide (p_name p = []) then inr (MissingField FName)
  else match resolve_names d (p_member_of p) with
       | inr e => inr e
       | inl groups =>
           match resolve_names d members with
           | inr e => inr e
           | inl members =>
               if decide (is_Some (find_id d (str_to_lowercase (p_name p))))
               then inr (AlreadyExists FName (str_to_lowercase (p_name p)))
               else match emails_error d (str_to_lowercase <$> p_emails p) with
                    | Some e => inr e
                    | None => inl (groups, members)
                    end
           end
       end.

Context {DB Txn : Type} `{StoreWriteLaws DB Txn}.

Lemma map_group_names_spec (db : DB) d names :
  represents d (db_map db) →
  map_group_names names false db
  = match resolve_names d names with inl ids => DOk (ids, db) | inr e => DErr (Management e) end.
Proof.
  intros Hr. induction names as [|n names IH]; [done|]. cbn [map_group_names resolve_names].
  rewrite (get_account_id_spec db d Hr). cbn [mbind dresult_bind].
  destruct (find_id d n) as [id|]; [|done]. cbn [ok_or_not_found mbind dresult_bind]. rewrite IH.
  by destruct (resolve_names d names).
Qed.

Lemma check_email_spec (db : DB) d e :
  represents d (db_map db) →
  check_email db e = match email_error d e with Some err => DErr (Management err) | None => DOk tt end.
Proof.
  intros Hr. unfold check_email, email_error. rewrite (rcpt_spec db d Hr). cbn [mbind dresult_bind].
  case_decide as Ho; [by rewrite bool_decide_true|rewrite bool_decide_false by done].
  destruct (str_split 64 e !! 1%nat) as [domain|]; [|done]. rewrite (is_local_domain_spec db d Hr).
  cbn [mbind dresult_bind option_bind].
  case_decide; [by rewrite bool_decide_true|by rewrite bool_decide_false].
Qed.

Lemma check_emails_spec (db : DB) d emails :
  represents d (db_map db) →
  check_emails db emails
  = match emails_error d (str_to_lowercase <$> emails) with
    | Some err => DErr (Management err)
    | None => DOk (str_to_lowercase <$> emails)
    end.
Proof.
  intros Hr. induction emails as [|e emails IH]; [done|]. cbn [check_emails].
  rewrite (check_email_spec db d _ Hr), fmap_cons. cbn [emails_error].
  destruct (email_error d _); [done|]. cbn [mbind dresult_bind]. rewrite IH.
  by destruct (emails_error d _).
Qed.

Lemma create_account_checks (db : DB) d p members :
  represents d (db_map db) →
  create_account p members db
  = match create_check d p members with
    | inr e => DErr (Management e)
    | inl (groups, members) => lift (write_new (create_batch (new_principal p groups) members) db)
    end.
Proof.
  intros Hr. unfold create_account, create_check, map_principal.
  case_decide as Hn; [by rewrite bool_decide_true|rewrite bool_decide_false by done].
  rewrite (map_group_names_spec db d _ Hr). destruct (resolve_names d (p_member_of p)) as [gs|]; [|done].
  cbn [mbind dresult_bind]. rewrite (map_group_names_spec db d _ Hr).
  destruct (resolve_names d members) as [ms|]; [|done]. cbn [mbind dresult_bind].
  rewrite (get_account_id_spec db d Hr). cbn [mbind dresult_bind].
  change (p_name (with_name ?x ?y)) with x.
  change (p_name (with_member_of gs p)) with (p_name p).
  destruct (find_id d (str_to_lowercase (p_name p))); [by rewrite decide_True|].
  rewrite decide_False by (by intros []). rewrite (check_emails_spec db d _ Hr).
  change (p_emails (with_name ?x (with_member_of gs p))) with (p_emails p).
  by destruct (emails_error d _).
Qed.

(** C17: [create_account] refuses a request exactly when the directory does
    not allow it, with the first of these reasons: no name, a group or a
    member that does not exist, a name that is taken, an e-mail that is taken
    or whose domain is not local. *)
Theorem create_account_refused (db : DB) d p members e :
  represents d (db_map db) →
  create_account p members db = DErr (Management e) ↔ create_check d p members = inr e.
Proof.
  intros Hr. rewrite (create_account_checks db d) by done.
  destruct (create_check d p members) as [[gs ms]|e']; [|naive_solver].
  split; [|done]. by destruct (write_new _ db).
Qed.

Lemma resolve_names_accounts d m names ids :
  represents d m → resolve_names d names = inl ids → ∀ id, id ∈ ids → is_Some (accounts d !! id).
Proof.
  intros Hr. revert ids. induction names as [|n names IH]; intros ids; cbn [resolve_names].
  - intros [= <-] id Hin. by apply elem_of_nil in Hin.
  - destruct (find_id d n) as [i|] eqn:Hf; [|done]. destruct (resolve_names d names) as [l|]; [|done].
    intros [= <-] id [->|Hin]%elem_of_cons; [|by eapply IH].
    eapply find_id_Some in Hf as (p & Hp & _); [|done]. by exists p.
Qed.

Lemma emails_error_None d m emails e :
  represents d m → emails_error d emails = None → e ∈ emails → m !! dir_cell (EmailToId e) = None.
Proof.
  intros Hr. induction emails as [|e' emails IH]; [by intros _ ?%elem_of_nil|]. cbn [emails_error].
  destruct (email_error d e') eqn:He; [done|]. intros Hes [->|Hin]%elem_of_cons; [|by apply IH].
  destruct (m !! dir_cell (EmailToId e')) as [v|] eqn:Hv; [|done].
  apply (re_email _ _ Hr) in Hv as (id & p & Hp & Hin & _). unfold email_error in He.
  rewrite decide_True in He; [done|]. exists (id, p). by eapply email_owner_Some.
Qed.

Lemma find_id_None d m n : represents d m → find_id d n = None → m !! dir_cell (NameToId n) = None.
Proof.
  intros Hr Hf. destruct (m !! dir_cell (NameToId n)) as [v|] eqn:Hv; [|done].
  apply (re_name _ _ Hr) in Hv as (id & p & Hp & Hn & _).
  assert (find_id d n = Some id) by (eapply find_id_Some; eauto). congruence.
Qed.

Lemma create_check_inl d p members groups ids :
  create_check d p members = inl (groups, ids) →
  resolve_names d (p_member_of p) = inl groups ∧ resolve_names d members = inl ids ∧
  find_id d (str_to_lowercase (p_name p)) = None ∧
  emails_error d (str_to_lowercase <$> p_emails p) = None.
Proof.
  intros Hck. unfold create_check in Hck. case_decide; [done|].
  destruct (resolve_names d (p_member_of p)); [|done].
  destruct (resolve_names d members); [|done]. case_decide as Hf; [done|].
  destruct (emails_error d _); [done|]. injection Hck as -> ->. split_and!; try done.
  by apply eq_None_not_Some.
Qed.

Lemma created_members_accounts d id q groups ids :
  dir_ok d → (∀ g, g ∈ groups → is_Some (accounts d !! g)) → (∀ a, a ∈ ids → is_Some (accounts d !! a)) →
  ∀ a g, (a, g) ∈ membership d ∪ created_members id groups ids →
    is_Some (partial_alter (λ _, Some q) id (accounts d) !! a) ∧
    is_Some (partial_alter (λ _, Some q) id (accounts d) !! g).
Proof.
  intros Hd Hg Ha a g. rewrite elem_of_union, elem_of_created_members.
  assert (∀ x, x = id ∨ is_Some (accounts d !! x) →
    is_Some (partial_alter (λ _, Some q) id (accounts d) !! x)) as Hold.
  { intros x Hx. rewrite lookup_partial_alter. case_decide; [by eexists|]. destruct Hx as [->|]; done. }
  intros [Hin|[[-> Hin]|[-> Hin]]]; [|by auto..]. destruct (do_member _ Hd _ _ Hin). auto.
Qed.

(** A request whose strings are strings of the program and which names no
    e-mail twice, and of a moderate size. *)
Record create_request_ok (p : principal (list Z)) (members : list (list Z)) : Prop := {
  cr_quota : uint_ok 64 (p_quota p);
  cr_name : str_ok (str_to_lowercase (p_name p));
  cr_secrets : list_ok (p_secrets p);
  cr_emails : list_ok (str_to_lowercase <$> p_emails p);
  cr_unique : NoDup (str_to_lowercase <$> p_emails p);
  cr_description : match p_description p with Some s => str_ok s | None => True end;
  cr_size : Z.of_nat (length (p_emails p) + 2 * length (p_member_of p) + 2 * length members) ≤ 10 ^ 6;
}.

Lemma stored_ok p members groups id :
  create_request_ok p members → 0 ≤ id < U32_MAX → principal_ok (stored id (new_principal p groups)).
Proof.
  intros [Hq Hn Hs He Hu Hd _] Hid. split; try done.
  - by apply link_word_ok.
  - cbn. destruct (p_description p) as [s|]; [|done]. cbn. by case_decide.
Qed.

Lemma resolve_names_length d names ids :
  resolve_names d names = inl ids → length ids = length names.
Proof.
  revert ids. induction names as [|n names IH]; intros ids; cbn [resolve_names]; [by intros [= <-]|].
  destruct (find_id d n); [|done]. destruct (resolve_names d names) as [l|]; [|done].
  intros [= <-]. cbn. by rewrite (IH l).
Qed.

Lemma bind_length {A B} (f : A → list B) n l :
  (∀ x, length (f x) = n) → length (l ≫= f) = (n * length l)%nat.
Proof.
  intros Hf. induction l as [|x l IH]; cbn [mbind list_bind length]; [lia|].
  rewrite length_app, Hf. change (list_bind _ _ f l) with (l ≫= f). rewrite IH. lia.
Qed.

Lemma create_batch_length p members :
  length (b_ops (create_batch p members))
  = (7 + length (p_emails p) + 2 * length (p_member_of p) + 2 * length members)%nat.
Proof.
  rewrite create_batch_ops. unfold create_tail. rewrite !length_app.
  rewrite (bind_length _ 1), !(bind_length _ 2) by done. cbn. lia.
Qed.

(** An account that [create_account] creates gets an id that no account
    has, and the store then represents the directory with that account added:
    its name and its e-mails lead to it and to nothing else, it is a member of
    the groups and has the members of the request, and all else is as it
    was. *)
Lemma create_account_spec b (db db' : DB) d p members id :
  store_ok b (db_map db) → 0 ≤ b ≤ 2 ^ 31 → represents d (db_map db) → create_request_ok p members →
  create_account p members db = DOk (id, db') →
  ∃ groups ids, create_check d p members = inl (groups, ids) ∧ accounts d !! id = None ∧
    represents (replaced d id (Some (stored id (new_principal p groups)))
      (membership d ∪ created_members id groups ids)) (db_map db') ∧
    ∀ s k, s ≠ SUBSPACE_DIRECTORY → s ≠ SUBSPACE_QUOTA → (s, k) ≠ id_cell id →
      db_map db' !! (s, k) = db_map db !! (s, k).
Proof.
  intros Hdb Hb Hr Hreq. rewrite (create_account_checks db d) by done.
  destruct (create_check d p members) as [[groups ids]|e] eqn:Hck; [|done].
  destruct (write_new _ db) as [[i db1]|] eqn:Hw; [|done]. intros [= -> ->].
  destruct (create_check_inl d p members groups ids Hck) as (Hgs & Hms & Hfind & Hemails).
  destruct (write_new_spec b db db' (create_batch (new_principal p groups) ids) []
    (create_tail (new_principal p groups) ids) id) as (Hid & Hfree & Hm'); try done.
  { lia. } { rewrite create_batch_length. cbn [new_principal p_emails p_member_of with_emails with_name with_member_of].
    rewrite length_fmap, (resolve_names_length _ _ _ Hgs), (resolve_names_length _ _ _ Hms).
    pose proof (cr_size _ _ Hreq). lia. }
  { apply create_batch_ops. } { apply create_tail_plain. } { apply create_tail_ok. }
  assert (accounts d !! id = None) as Hnone.
  { destruct (accounts d !! id) as [q|] eqn:Hq; [|done]. apply (re_id _ _ Hr) in Hq as [v Hv]. congruence. }
  exists groups, ids. rewrite create_writes in Hm'. split_and!; [done..| |].
  - rewrite Hm'. apply (represents_replace d (db_map db)); [done|..].
    + apply (create_replacement d (db_map db) id (new_principal p groups) ids); try done;
        by eapply resolve_names_accounts.
    + split.
      * intros q [= <-]. split_and!; [by eapply stored_ok|done|lia|apply Hreq|].
        rewrite id_cell_write, lookup_insert_eq. by eexists.
      * intros n Hn. right. unfold holds, is_name in Hn. rewrite <-Hn. by eapply find_id_None.
      * intros e He. right. by eapply emails_error_None.
      * apply created_members_accounts; [apply Hr|by eapply resolve_names_accounts..].
  - intros s k Hs1 Hs2 Hs3. rewrite Hm', lookup_apply_writes_other, lookup_insert_ne by done. done.
Qed.
End create.

(** ** Accounts of external directories *)

Section get_or_create.
Context `{UnicodeStr} {DB Txn : Type} `{StoreWriteLaws DB Txn}.

Definition plain_account (n : list Z) : principal Z := with_name n principal_default.

Lemma new_account_writes id n m :
  apply_writes (omap (op_write (ids_of id))
    [set_op (NameToId n) (dynamic_id_type Individual);
     set_op (Principal (Dynamic 0)) (dynamic_principal (plain_account n))]) m
  = apply_writes ((λ c, (c, create_value id (plain_account n) c)) <$> create_classes id (plain_account n) []) m.
Proof. unfold apply_writes. cbn. unfold apply_write. cbn [fst snd]. by apply insert_insert_ne. Qed.

Lemma new_account_spec b (db db' : DB) d n id :
  store_ok b (db_map db) → 0 ≤ b ≤ 2 ^ 31 → represents d (db_map db) → str_ok n →
  find_id d n = None → write_new (new_account_batch n) db = Ok (id, db') →
  accounts d !! id = None ∧
  represents (replaced d id (Some (stored id (plain_account n))) (membership d)) (db_map db').
Proof.
  intros Hdb Hb Hr Hn Hf Hw.
  destruct (write_new_spec b db db' (new_account_batch n) [OpAssertValue (dir_class (NameToId n)) AssertNone]
    [set_op (NameToId n) (dynamic_id_type Individual);
     set_op (Principal (Dynamic 0)) (dynamic_principal (plain_account n))] id) as (Hid & Hfree & Hm');
    try done.
  { lia. } { cbn. lia. } { repeat constructor; by eexists _, _. } { by rewrite !Forall_cons. }
  assert (accounts d !! id = None) as Hnone.
  { destruct (accounts d !! id) as [q|] eqn:Hq; [|done]. apply (re_id _ _ Hr) in Hq as [v Hv]. congruence. }
  split; [done|]. rewrite new_account_writes in Hm'.
  assert (membership d ∪ created_members id [] [] = membership d) as Hms.
  { apply set_eq. intros [a g]. rewrite elem_of_union, elem_of_created_members, !elem_of_nil. tauto. }
  rewrite <-Hms. rewrite Hm'. apply (represents_replace d (db_map db)); [done|..].
  - apply (create_replacement d (db_map db) id (plain_account n) []); try done; by intros ? ?%elem_of_nil.
  - split.
    + intros q [= <-]. split_and!; [|done|lia|constructor|].
      * split; try done. by apply link_word_ok.
      * rewrite id_cell_write, lookup_insert_eq. by eexists.
    + intros x Hx. right. unfold holds, is_name in Hx. rewrite <-Hx. by eapply find_id_None.
    + by intros e He%elem_of_nil.
    + apply created_members_accounts; [apply Hr|by intros ? ?%elem_of_nil..].
Qed.

(** The id of a name is the id of the account that has it; when there is
    none, an account with that name and nothing else is created. *)
Lemma get_or_create_spec b (db db' : DB) d name id :
  store_ok b (db_map db) → 0 ≤ b ≤ 2 ^ 31 → represents d (db_map db) →
  str_ok (str_to_lowercase name) →
  get_or_create_account_id name db = DOk (id, db') →
  (find_id d (str_to_lowercase name) = Some id ∧ db' = db) ∨
  (find_id d (str_to_lowercase name) = None ∧ accounts d !! id = None ∧
   represents (replaced d id (Some (stored id (plain_account (str_to_lowercase name)))) (membership d))
     (db_map db')).
Proof.
  intros Hdb Hb Hr Hn. unfold get_or_create_account_id. set (n := str_to_lowercase name) in *.
  generalize 3%nat as tries. intros tries. induction tries as [|tries IH]; cbn [get_or_create_loop];
    rewrite (get_account_id_spec db d Hr); cbn [mbind dresult_bind];
    (destruct (find_id d n) as [i|] eqn:Hf; [intros [= -> ->]; by left|]);
    (destruct (write_new (new_account_batch n) db) as [[i db1]|[] ] eqn:Hw; [|done|done || exact IH]);
    intros [= -> ->]; right; (split; [done|]); by eapply new_account_spec.
Qed.
End get_or_create.
