(* ===== verification/DirectoryUpdate.v ===== *)
(** * Deleting and changing accounts

    What remains of an account that is deleted, and what an update of an
    account does to the directory. *)

From stdpp Require Import base gmap sorting strings numbers list.
From S2P Require Import Prelude Codec Keys KeyTheory KeyOrder Roaring Kv KvModel Batch Commit CommitTheory Read Store Utf8 Text ClearLoop Query AclTheory Blob BlobTheory Directory DirectoryCodec DirectoryTheory DirectoryManage.
Import Dir.
Open Scope Z_scope.
Open Scope bytes_scope.

(** ** The batch of a deletion *)

Definition delete_classes (id : Z) (p : principal Z) (member_of members : list Z) : list (DirectoryClass Z) :=
  [NameToId (p_name p); Principal id; UsedQuota id] ++ (EmailToId <$> p_emails p) ++
  (member_of ≫= λ g, [MemberOf id g; Members g id]) ++
  (members ≫= λ a, [MemberOf a id; Members id a]).

Lemma delete_batch_ops id p member_of members :
  b_ops (delete_batch id p member_of members)
  = [OpAccountId id; clear_op (NameToId (p_name p)); clear_op (Principal (Static id));
     clear_op (UsedQuota id)] ++ (p_emails p ≫= λ e, [clear_op (EmailToId e)]) ++
    (member_of ≫= λ g, leave_ops (Static id) (Static g)) ++
    (members ≫= λ a, leave_ops (Static a) (Static id)).
Proof.
  unfold delete_batch.
  rewrite (foldl_ops _ (λ a, leave_ops (Static a) (Static id))) by (intros; apply leave_ops_eq).
  rewrite (foldl_ops _ (λ g, leave_ops (Static id) (Static g))) by (intros; apply leave_ops_eq).
  rewrite (foldl_ops _ (λ e, [clear_op (EmailToId e)])) by done. by rewrite <-!app_assoc.
Qed.

Lemma delete_writes id p member_of members :
  omap (op_write assigned_default) (b_ops (delete_batch id p member_of members))
  = (λ c, (c, None)) <$> delete_classes id p member_of members.
Proof.
  rewrite delete_batch_ops. unfold delete_classes. rewrite !omap_app, !fmap_app.
  apply (f_equal2 app); [done|]. apply (f_equal2 app); [|apply (f_equal2 app)].
  - rewrite (omap_bind_classes _ _ (λ e, [EmailToId e]) (λ _, None)) by done. by f_equal.
  - by apply omap_bind_classes.
  - by apply omap_bind_classes.
Qed.

Lemma delete_batch_plain id p member_of members :
  Forall (λ op, plain op = true) (b_ops (delete_batch id p member_of members)).
Proof.
  rewrite delete_batch_ops, !Forall_app. split_and!; [by rewrite !Forall_cons|..];
    apply list.Forall_forall; intros op (x & Hop & _)%list_elem_of_bind;
    repeat apply elem_of_cons in Hop as [->|Hop]; try done; by apply elem_of_nil in Hop.
Qed.

Lemma delete_batch_ok b id p member_of members :
  uint_ok 32 id → ops_ok b U8_MAX (b_ops (delete_batch id p member_of members)).
Proof.
  intros Hid. apply plain_ops_ok; [|apply delete_batch_plain]. rewrite delete_batch_ops.
  intros op Hop. destruct op as [i| | | | | | | |]; try done; revert Hop; unfold clear_op, leave_ops;
    rewrite !elem_of_app, !list_elem_of_bind, !elem_of_cons; set_solver.
Qed.

Lemma elem_of_delete_classes id p member_of members c :
  c ∈ delete_classes id p member_of members ↔
  match c with
  | Principal i | UsedQuota i => i = id
  | NameToId n => n = p_name p
  | EmailToId e => e ∈ p_emails p
  | MemberOf a g | Members g a => (a = id ∧ g ∈ member_of) ∨ (g = id ∧ a ∈ members)
  | _ => False
  end.
Proof.
  unfold delete_classes. rewrite !elem_of_app, list_elem_of_fmap, !list_elem_of_bind, !elem_of_cons, elem_of_nil.
  setoid_rewrite elem_of_cons. setoid_rewrite elem_of_cons. setoid_rewrite elem_of_nil.
  destruct c; naive_solver.
Qed.

(** Memberships without an account. *)
Definition without_account (id : Z) (ms : gset (Z * Z)) : gset (Z * Z) :=
  base.filter (λ ag, ag.1 ≠ id ∧ ag.2 ≠ id) ms.

Lemma elem_of_without_account id ms a g :
  (a, g) ∈ without_account id ms ↔ (a, g) ∈ ms ∧ a ≠ id ∧ g ≠ id.
Proof. unfold without_account. rewrite elem_of_filter. cbn. tauto. Qed.

Ltac deleted Hlook :=
  rewrite Hlook by done;
  match goal with
  | |- context [decide (?c ∈ delete_classes ?id ?p ?l1 ?l2)] =>
      let Hin := fresh "Hin" in
      destruct (decide (c ∈ delete_classes id p l1 l2)) as [Hin|Hin]; rewrite elem_of_delete_classes in Hin
  end.

Lemma delete_classes_ok d m id p member_of members :
  represents d m → accounts d !! id = Some p →
  (∀ g, g ∈ member_of ↔ (id, g) ∈ membership d) → (∀ a, a ∈ members ↔ (a, id) ∈ membership d) →
  Forall dclass_ok (delete_classes id p member_of members).
Proof.
  intros Hr Hp Hg Ha. pose proof (re_ok _ _ Hr) as Hd.
  pose proof (account_id_ok _ _ _ Hd Hp) as Hid.
  apply list.Forall_forall. intros c Hc. apply elem_of_delete_classes in Hc.
  assert (∀ a g, (a, g) ∈ membership d → uint_ok 32 a ∧ uint_ok 32 g) as Hm.
  { intros a g Hin. destruct (do_member _ Hd _ _ Hin) as [[? ?] [? ?] ]. split; by eapply account_id_ok. }
  destruct c; try done; try (by subst); rewrite Hg, Ha in Hc; cbn; destruct Hc as [[-> Hc]|[-> Hc]];
    apply Hm in Hc; tauto.
Qed.
Lemma delete_replacement d m id p member_of members :
  represents d m → accounts d !! id = Some p →
  (∀ g, g ∈ member_of ↔ (id, g) ∈ membership d) → (∀ a, a ∈ members ↔ (a, id) ∈ membership d) →
  replacement d m (apply_writes ((λ c, (c, None)) <$> delete_classes id p member_of members) m)
    id None (without_account id (membership d)).
Proof.
  intros Hr Hp Hg Ha. pose proof (re_ok _ _ Hr) as Hd.
  pose proof (account_id_ok _ _ _ Hd Hp) as Hid.
  pose proof (delete_classes_ok d m id p member_of members Hr Hp Hg Ha) as Hcs.
  assert (∀ c, dclass_ok c → apply_writes ((λ c, (c, None)) <$> delete_classes id p member_of members) m !! dir_cell c
    = if decide (c ∈ delete_classes id p member_of members) then None else m !! dir_cell c) as Hlook.
  { intros c Hc. by apply (lookup_apply_writes (λ _, None)). }
  split.
  - apply keys_apply_writes; [|apply Forall_fmap; by eapply Forall_impl]. apply (re_keys _ _ Hr).
  - intros i Hi. by deleted Hlook; [rewrite decide_True by done|rewrite decide_False by done].
  - intros n. rewrite Hp. rewrite decide_False by by intros ?.
    by deleted Hlook; [rewrite decide_True by done|rewrite decide_False by by intros <-].
  - intros e. rewrite Hp. rewrite decide_False by by intros ?.
    by deleted Hlook; [rewrite decide_True by done|rewrite decide_False by done].
  - intros a g Hua Hug. rewrite elem_of_without_account, <-(re_member_of _ _ Hr) by done.
    deleted Hlook; rewrite Hg, Ha, <-!(re_member_of _ _ Hr) in Hin by done.
    + split; [by intros []|]. naive_solver.
    + naive_solver.
  - intros a g Hua Hug. rewrite elem_of_without_account, <-(re_members _ _ Hr) by done.
    deleted Hlook; rewrite Hg, Ha, <-!(re_members _ _ Hr) in Hin by done.
    + split; [by intros []|]. naive_solver.
    + naive_solver.
  - intros n. by deleted Hlook.
  - intros i Hne. by rewrite id_cell_write.
Qed.

(** ** Deletion *)

Lemma represents_ext d m m' :
  represents d m → (∀ k, m' !! (SUBSPACE_DIRECTORY, k) = m !! (SUBSPACE_DIRECTORY, k)) →
  (∀ i, is_Some (m !! id_cell i) → is_Some (m' !! id_cell i)) → represents d m'.
Proof.
  intros Hr Hdir Hid.
  assert (∀ c, (dir_cell c).1 = SUBSPACE_DIRECTORY → m' !! dir_cell c = m !! dir_cell c) as Hc.
  { intros c Hs. destruct (dir_cell c) as [s k]. cbn in Hs. subst s. apply Hdir. }
  split; [apply Hr|..]; intros *; rewrite ?Hc by done; try apply Hr.
  - rewrite Hdir. apply (re_keys _ _ Hr).
  - intros Hp. apply Hid. by eapply (re_id _ _ Hr).
Qed.

Lemma store_ok_sub b m m' :
  store_ok b m → (∀ sk v, m' !! sk = Some v → m !! sk = Some v) → store_ok b m'.
Proof.
  intros [Hc Hd] Hsub. split.
  - intros s k v Hs Hv. by eapply Hc, Hsub.
  - intros k v Hv. by eapply Hd, Hsub.
Qed.

(** Directories of a moderate size. *)
Record dir_small (d : directory) : Prop := {
  ds_membership : Z.of_nat (size (membership d)) ≤ 10 ^ 6;
  ds_emails id p : accounts d !! id = Some p → Z.of_nat (length (p_emails p)) ≤ 10 ^ 6;
}.

Lemma members_length (ms : gset (Z * Z)) (f : Z → Z * Z) ids :
  NoDup ids → (∀ x y, f x = f y → x = y) → (∀ x, x ∈ ids → f x ∈ ms) → (length ids ≤ size ms)%nat.
Proof.
  intros Hnd Hf Hids. rewrite <-(length_fmap f ids), <-(size_list_to_set (C := gset (Z * Z)) (f <$> ids)).
  - apply subseteq_size. intros x. rewrite elem_of_list_to_set, list_elem_of_fmap. naive_solver.
  - by apply NoDup_fmap_2_strong; [intros x y _ _; apply Hf|].
Qed.

(** The account that a request is about. *)
Definition names_account (d : directory) (by_ : QueryBy) (id : Z) : Prop :=
  match by_ with ByName n => find_id d n = Some id | ById i => i = id end.

(** The permissions that go with account [id]: those on its own documents, and
    those in the range of keys that is deleted, from (granted to [id], on
    [id]) up to (granted to [id + 1], on [id]). *)
Definition acl_purged (id g a : Z) : Prop := a = id ∨ g = id ∧ id ≤ a ∨ g = id + 1 ∧ a ≤ id.
(** The key of a full-text term at which the range that is deleted ends; it is
    one of the next account's. *)
Definition fts_last : list Z :=
  hash_bytes {| hash := replicate 8 U8_MAX; len := U8_MAX |} ++ [0] ++ to_be_bytes 4 0.

(** What of the store goes with an account, and that the rest stays.  Keys of
    bitmaps, logs, indexes, properties and full-text terms start with their
    account; in those of links it follows the hash. *)
Record account_gone (id : Z) (m m' : store_map) : Prop := {
  ag_data s a rest :
    s ∈ [SUBSPACE_BITMAP_ID; SUBSPACE_BITMAP_TAG; SUBSPACE_BITMAP_TEXT; SUBSPACE_LOGS; SUBSPACE_INDEXES] →
    uint_ok 32 a → m' !! (s, to_be_bytes 4 a ++ rest)
      = if decide (a = id) then None else m !! (s, to_be_bytes 4 a ++ rest);
  ag_property a col f d : uint_ok 32 a → uint_ok 8 col → uint_ok 8 f → uint_ok 32 d →
    let cell := (SUBSPACE_PROPERTY, value_serialize (Property f : ValueClass Z) a col d 0 None) in
    m' !! cell = if decide (a = id) then None else m !! cell;
  ag_link k : m' !! (SUBSPACE_BLOB_LINK, k)
    = if decide (link_owner k = to_be_bytes 4 id) then None else m !! (SUBSPACE_BLOB_LINK, k);
  ag_acl g a col d : acl_ids_ok g a col d → m' !! (SUBSPACE_ACL, acl_row g a col d)
    = if decide (acl_purged id g a) then None else m !! (SUBSPACE_ACL, acl_row g a col d);
  ag_fts a rest : uint_ok 32 a → bytes_ok rest → (5 ≤ length rest)%nat →
    m' !! (SUBSPACE_FTS_INDEX, to_be_bytes 4 a ++ rest)
      = if decide (a = id ∨ a = id + 1 ∧ rest <ᵇ fts_last) then None
        else m !! (SUBSPACE_FTS_INDEX, to_be_bytes 4 a ++ rest);
  ag_other s k :
    s ∉ [SUBSPACE_BITMAP_ID; SUBSPACE_BITMAP_TAG; SUBSPACE_BITMAP_TEXT; SUBSPACE_LOGS; SUBSPACE_INDEXES;
         SUBSPACE_PROPERTY; SUBSPACE_BLOB_LINK; SUBSPACE_ACL; SUBSPACE_FTS_INDEX; SUBSPACE_DIRECTORY;
         SUBSPACE_QUOTA] →
    m' !! (s, k) = m !! (s, k);
}.

Lemma account_gone_writes id m m' ws : account_gone id m m' → account_gone id m (apply_writes ws m').
Proof.
  intros [H1 H2 H3 H4 H5 H6]. split.
  - intros s a rest Hs. rewrite lookup_apply_writes_other by (intros ->; vm_compute in Hs; set_solver). by apply H1.
  - intros a col f x Ha Hc Hf Hx cell. unfold cell. rewrite lookup_apply_writes_other by done. by apply H2.
  - intros k. rewrite lookup_apply_writes_other by done. apply H3.
  - intros g a col d Hok. rewrite lookup_apply_writes_other by done. by apply H4.
  - intros a rest. rewrite lookup_apply_writes_other by done. apply H5.
  - intros s k Hs. rewrite lookup_apply_writes_other; [by apply H6|..];
    intros ->; apply Hs; by apply (bool_decide_unpack _).
Qed.

(** Ranges of keys with one or two accounts in front. *)
Lemma account_span a id from to rest :
  0 ≤ id < 2 ^ 32 - 1 → uint_ok 32 a → from ≤ᵇ rest →
  (to_be_bytes 4 id ++ from ≤ᵇ to_be_bytes 4 a ++ rest ∧
   to_be_bytes 4 a ++ rest <ᵇ to_be_bytes 4 (id + 1) ++ to)
  ↔ a = id ∨ a = id + 1 ∧ rest <ᵇ to.
Proof.
  unfold bytes_le, bytes_lt, uint_ok. intros Hid Ha Hle.
  rewrite !bytes_cmp_app_eqlen by (by rewrite !to_be_bytes_length).
  rewrite !to_be_bytes_cmp by (change (256 ^ Z.of_nat 4) with (2 ^ 32); lia).
  destruct (Z.compare_spec id a), (Z.compare_spec a (id + 1)); try lia; naive_solver lia.
Qed.
Lemma zeros_least n rest : bytes_ok rest → (n ≤ length rest)%nat → replicate n 0 ≤ᵇ rest.
Proof.
  unfold bytes_ok, bytes_le. revert rest. induction n as [|n IH]; intros [|z rest] Hok Hlen; cbn in *; try done; try lia.
  inversion_clear Hok as [|? ? Hz Hr]. unfold uint_ok in Hz.
  destruct z; [apply IH; [done|lia]|done|lia].
Qed.

Section delete.
Context `{UnicodeStr} {DB Txn : Type} `{StoreWriteLaws DB Txn}.

Lemma purge_account_sub (db : DB) a sk v :
  db_map (purge_account db a) !! sk = Some v → db_map db !! sk = Some v.
Proof.
  destruct sk as [s k]. unfold purge_account. cbn [fold_left fst snd].
  rewrite !delete_range_map. by repeat case_decide.
Qed.

Lemma purge_account_other (db : DB) a s k :
  s ∉ [SUBSPACE_BITMAP_ID; SUBSPACE_BITMAP_TAG; SUBSPACE_BITMAP_TEXT; SUBSPACE_LOGS; SUBSPACE_INDEXES;
       SUBSPACE_ACL; SUBSPACE_PROPERTY; SUBSPACE_FTS_INDEX] →
  db_map (purge_account db a) !! (s, k) = db_map db !! (s, k).
Proof.
  intros Hs. unfold purge_account. cbn [fold_left fst snd].
  rewrite !delete_range_other by (intros ->; apply Hs; vm_compute; set_solver). done.
Qed.

(** The full-text index, whose range reaches into the next account. *)
Lemma purge_account_fts (db : DB) id a rest :
  0 ≤ id < 2 ^ 32 - 1 → uint_ok 32 a → bytes_ok rest → (5 ≤ length rest)%nat →
  db_map (purge_account db id) !! (SUBSPACE_FTS_INDEX, to_be_bytes 4 a ++ rest)
  = if decide (a = id ∨ a = id + 1 ∧ rest <ᵇ fts_last) then None
    else db_map db !! (SUBSPACE_FTS_INDEX, to_be_bytes 4 a ++ rest).
Proof.
  intros Hid Ha Hok Hlen. unfold purge_account. cbn [fold_left fst snd].
  rewrite delete_range_map, !delete_range_other by done. apply decide_ext.
  rewrite <-(account_span a id (replicate 5 0) fts_last rest) by (try done; by apply zeros_least).
  cbn [key_serialize value_key value_key_serialize class_key_of]. unfold value_key_serialize.
  cbn [class_key_of vk_class vk_account_id vk_collection vk_document_id].
  rewrite !value_serialize_bytes, wrap_small by (unfold uint_ok; lia).
  change (flag_bytes 0 ?x) with (@nil Z). rewrite !app_nil_l. cbn [value_bytes].
  change (key_subspace _) with SUBSPACE_FTS_INDEX.
  change (hash_bytes {| hash := replicate 8 0; len := 0 |} ++ [0] ++ to_be_bytes 4 0) with (replicate 5 0).
  unfold fts_last. tauto.
Qed.

(** The permissions. *)
Lemma acl_span id g a col d :
  0 ≤ id < 2 ^ 32 - 1 → acl_ids_ok g a col d →
  (acl_row id id 0 0 ≤ᵇ acl_row g a col d ∧ acl_row g a col d <ᵇ acl_row (id + 1) (id + 1) 0 0)
  ↔ g = id ∧ id ≤ a ∨ g = id + 1 ∧ a ≤ id.
Proof.
  intros Hid (Hg & Ha & Hc & Hd). unfold acl_row.
  assert (replicate 5 0 ≤ᵇ [col] ++ to_be_bytes 4 d) as Hmin.
  { apply zeros_least; [|done]. constructor; [done|apply to_be_bytes_ok]. }
  change (replicate 5 0) with ([0] ++ to_be_bytes 4 0) in Hmin.
  revert Hmin. generalize ([col] ++ to_be_bytes 4 d). generalize ([0] ++ to_be_bytes 4 0).
  unfold bytes_le, bytes_lt, uint_ok in *. intros zero rest Hmin.
  rewrite !bytes_cmp_app_eqlen by (by rewrite !to_be_bytes_length).
  rewrite !to_be_bytes_cmp by (change (256 ^ Z.of_nat 4) with (2 ^ 32); lia).
  rewrite (bytes_cmp_antisym zero rest).
  destruct (Z.compare_spec id g), (Z.compare_spec g (id + 1)), (Z.compare_spec id a), (Z.compare_spec a (id + 1));
    try lia; destruct (bytes_cmp zero rest); naive_solver lia.
Qed.
Lemma purge_account_acls (db : DB) id g a col d :
  0 ≤ id < 2 ^ 32 - 1 → acl_ids_ok g a col d →
  db_map (purge_account db id) !! (SUBSPACE_ACL, acl_row g a col d)
  = if decide (g = id ∧ id ≤ a ∨ g = id + 1 ∧ a ≤ id) then None
    else db_map db !! (SUBSPACE_ACL, acl_row g a col d).
Proof.
  intros Hid Hok. unfold purge_account. cbn [fold_left fst snd].
  rewrite 2!delete_range_other by done. rewrite delete_range_map, !delete_range_other by done. apply decide_ext.
  rewrite <-(acl_span id g a col d) by done.
  cbn [key_serialize value_key value_key_serialize class_key_of]. unfold value_key_serialize.
  cbn [class_key_of vk_class vk_account_id vk_collection vk_document_id].
  rewrite !value_serialize_bytes, wrap_small by (unfold uint_ok; lia).
  change (flag_bytes 0 ?x) with (@nil Z). rewrite !app_nil_l. cbn [value_bytes].
  change (key_subspace _) with SUBSPACE_ACL. tauto.
Qed.

(** After the links and the permissions on its documents the rest of the
    account's data goes. *)
Lemma purge_gone (db db1 db2 : DB) id :
  0 ≤ id < U32_MAX →
  (∀ s k, db_map db1 !! (s, k)
    = if decide (s = SUBSPACE_BLOB_LINK ∧ link_owner k = to_be_bytes 4 id) then None else db_map db !! (s, k)) →
  (∀ s k, db_map db2 !! (s, k)
    = if decide (s = SUBSPACE_ACL ∧ acl_owner k = to_be_bytes 4 id) then None else db_map db1 !! (s, k)) →
  account_gone id (db_map db) (db_map (purge_account db2 id)).
Proof.
  intros Hid Hm1 Hm2. split.
  - intros s a rest Hs Hua. rewrite (proj1 (purge_account_exact db2 id a Hid Hua)) by done.
    destruct (decide (a = id)); [done|]. rewrite Hm2, decide_False by (intros [-> _]; vm_compute in Hs; set_solver).
    by rewrite Hm1, decide_False by (intros [-> _]; vm_compute in Hs; set_solver).
  - intros a col f x Hua Hc Hf Hx cell. unfold cell.
    rewrite (proj2 (purge_account_exact db2 id a Hid Hua)) by done. destruct (decide (a = id)); [done|].
    rewrite Hm2, decide_False by (by intros [? _]). by rewrite Hm1, decide_False by (by intros [? _]).
  - intros k. rewrite purge_account_other by (vm_compute; set_solver).
    rewrite Hm2, decide_False by (by intros [? _]). rewrite Hm1. apply decide_ext. tauto.
  - intros g a col x Hok. rewrite purge_account_acls by done.
    assert (∀ k, db_map db1 !! (SUBSPACE_ACL, k) = db_map db !! (SUBSPACE_ACL, k)) as Hm1'
      by (intros k; by rewrite Hm1, decide_False by (by intros [? _])).
    rewrite Hm2, acl_owner_row, Hm1'.
    assert (to_be_bytes 4 a = to_be_bytes 4 id ↔ a = id) as Hinj.
    { split; [|by intros ->]. apply be32_inj; [apply Hok|]. by apply link_word_ok. }
    unfold acl_purged. repeat case_decide; try done; tauto.
  - intros a rest Ha' Hok Hlen. rewrite purge_account_fts by done.
    assert (∀ k, db_map db2 !! (SUBSPACE_FTS_INDEX, k) = db_map db !! (SUBSPACE_FTS_INDEX, k)) as ->.
    { intros k. rewrite Hm2, decide_False by (by intros [? _]). by rewrite Hm1, decide_False by (by intros [? _]). }
    by apply decide_ext.
  - intros s k Hs. rewrite purge_account_other by (rewrite !not_elem_of_cons in *; tauto).
    rewrite Hm2, decide_False by (intros [-> _]; by apply Hs, (bool_decide_unpack _)).
    by rewrite Hm1, decide_False by (intros [-> _]; by apply Hs, (bool_decide_unpack _)).
Qed.

(** The data of the account goes first: blobs, permissions, and the rest. *)
Lemma delete_data_spec b (db db1 db2 : DB) d id :
  store_ok b (db_map db) → 0 ≤ b ≤ 2 ^ 31 → represents d (db_map db) → 0 ≤ id < U32_MAX →
  blobs_ok (db_map db) → acls_ok (db_map db) →
  (∀ h col x, link_ok h id col x →
     is_Some (db_map db !! (SUBSPACE_BLOB_LINK, link_row h id col x)) → x < b) →
  (∀ g a col x, acl_ids_ok g a col x →
     is_Some (db_map db !! (SUBSPACE_ACL, acl_row g a col x)) → x < b) →
  blob_hash_unlink_account db id = Ok db1 → acl_revoke_all db1 id = Ok db2 →
  store_ok b (db_map (purge_account db2 id)) ∧ represents d (db_map (purge_account db2 id)) ∧
  account_gone id (db_map db) (db_map (purge_account db2 id)) ∧
  ∀ k, db_map (purge_account db2 id) !! (SUBSPACE_QUOTA, k) = db_map db !! (SUBSPACE_QUOTA, k).
Proof.
  intros Hdb Hb Hr Hid Hblobs Hacls Hlinks Hdocs Hu Ha.
  pose proof (blob_unlink_exact b db db1 id Hdb Hb Hblobs Hid Hlinks Hu) as Hm1.
  assert (∀ sk v, db_map db1 !! sk = Some v → db_map db !! sk = Some v) as Hsub1
    by (intros [s k] v; rewrite Hm1; by case_decide).
  pose proof (store_ok_sub _ _ _ Hdb Hsub1) as Hdb1.
  pose proof (acl_revoke_exact b db1 db2 id Hdb1 Hb (λ k v Hv, Hacls k v (Hsub1 _ _ Hv)) (link_word_ok _ Hid)
    ltac:(intros g a col x Hok [v Hv]; apply (Hdocs g a col x Hok); eauto) Ha) as Hm2.
  assert (∀ sk v, db_map db2 !! sk = Some v → db_map db !! sk = Some v) as Hsub2
    by (intros [s k] v; rewrite Hm2; case_decide; [done|apply Hsub1]).
  destruct (purge_account_exact db2 id U32_MAX) as [Hmax _]; [exact Hid|done|].
  split_and!.
  - apply (store_ok_sub _ _ _ Hdb). intros sk v Hv%purge_account_sub. by apply Hsub2.
  - apply (represents_ext d (db_map db)); [done|..].
    + intros k. rewrite purge_account_other by (vm_compute; set_solver).
      rewrite Hm2, decide_False by (by intros [? _]). by rewrite Hm1, decide_False by (by intros [? _]).
    + intros i Hi. unfold id_cell. rewrite <-app_assoc, Hmax by (vm_compute; set_solver).
      rewrite decide_False by lia. rewrite Hm2, decide_False by (by intros [? _]).
      by rewrite Hm1, decide_False, app_assoc by (by intros [? _]).
  - by eapply purge_gone.
  - intros k. rewrite purge_account_other by (vm_compute; set_solver).
    rewrite Hm2, decide_False by (by intros [? _]). by rewrite Hm1, decide_False by (by intros [? _]).
Qed.

Lemma resolve_spec (db : DB) d by_ id :
  represents d (db_map db) → resolve by_ db = DOk id → names_account d by_ id.
Proof.
  intros Hr. destruct by_ as [n|i]; cbn [resolve names_account]; [|by intros [= ->]].
  rewrite (get_account_id_spec db d Hr). cbn [mbind dresult_bind].
  destruct (find_id d n); [by intros [= ->]|done].
Qed.

Lemma dresult_bind_ok {A B} (f : A → dresult B) r x :
  r ≫= f = DOk x ↔ ∃ a, r = DOk a ∧ f a = DOk x.
Proof. destruct r; cbn; naive_solver. Qed.
Lemma lift_ok {A} (r : result A) x : lift r = DOk x ↔ r = Ok x.
Proof. destruct r; cbn; naive_solver. Qed.

Lemma delete_batch_length id p member_of members :
  length (b_ops (delete_batch id p member_of members))
  = (4 + length (p_emails p) + 2 * length member_of + 2 * length members)%nat.
Proof.
  rewrite delete_batch_ops, !length_app, (bind_length _ 1), !(bind_length _ 2) by done. cbn. lia.
Qed.

(** Deleting an account removes it from the directory, with its name, its
    e-mails and its memberships, and removes its data from the store. *)
Lemma delete_account_spec b (db db' : DB) d by_ :
  store_ok b (db_map db) → 0 ≤ b ≤ 2 ^ 31 → represents d (db_map db) → dir_small d →
  blobs_ok (db_map db) → acls_ok (db_map db) →
  (∀ h a col x, link_ok h a col x → names_account d by_ a →
     is_Some (db_map db !! (SUBSPACE_BLOB_LINK, link_row h a col x)) → x < b) →
  (∀ g a col x, acl_ids_ok g a col x →
     is_Some (db_map db !! (SUBSPACE_ACL, acl_row g a col x)) → x < b) →
  match by_ with ById id => uint_ok 32 id | ByName _ => True end →
  delete_account by_ db = DOk db' →
  ∃ id p, names_account d by_ id ∧ accounts d !! id = Some p ∧
    represents (replaced d id None (without_account id (membership d))) (db_map db') ∧
    account_gone id (db_map db) (db_map db') ∧
    ∀ uid, uint_ok 32 uid →
      db_map db' !! dir_cell (UsedQuota uid)
      = if decide (uid = id) then None else db_map db !! dir_cell (UsedQuota uid).
Proof.
  intros Hdb Hb Hr Hsmall Hblobs Hacls Hlinks Hdocs Hby. unfold delete_account.
  intros (id & Hres & Hdel)%dresult_bind_ok. apply (resolve_spec _ d) in Hres; [|done].
  assert (uint_ok 32 id) as Hid.
  { destruct by_ as [n|i]; cbn in Hres; [|by subst]. eapply find_id_Some in Hres as (q & Hq & _); [|done].
    eapply account_id_ok; [apply Hr|done]. }
  rewrite (get_principal_spec db d Hr) in Hdel by done. cbn [mbind dresult_bind] in Hdel.
  destruct (accounts d !! id) as [p|] eqn:Hp; [|done]. cbn [ok_or_not_found mbind dresult_bind] in Hdel.
  destruct (do_account _ (re_ok _ _ Hr) id p Hp) as (_ & _ & Hmax & _).
  assert (0 ≤ id < U32_MAX) as Hid' by (unfold uint_ok in Hid; lia).
  apply dresult_bind_ok in Hdel as (db1 & Hu%lift_ok & Hdel).
  apply dresult_bind_ok in Hdel as (db2 & Ha%lift_ok & Hdel).
  destruct (delete_data_spec b db db1 db2 d id) as (Hdb3 & Hr3 & Hgone & Hquota); try done.
  { intros h col x Hok. by apply (Hlinks h id col x Hok). }
  destruct (get_member_of_spec _ d Hr3 id Hid) as (gs & Hgs & Hnd & Hg).
  destruct (get_members_spec _ d Hr3 id Hid) as (ms & Hms & Hnd' & Hm).
  rewrite Hgs, Hms in Hdel. cbn [mbind dresult_bind] in Hdel.
  apply dresult_bind_ok in Hdel as ([ids db4] & Hw%lift_ok & [= ->]).
  apply (write_plain_spec b) in Hw; [|done|lia| |apply delete_batch_plain|by apply delete_batch_ok].
  2: { rewrite delete_batch_length. pose proof (ds_membership _ Hsmall). pose proof (ds_emails _ Hsmall id p Hp).
    pose proof (members_length (membership d) (λ g, (id, g)) gs Hnd ltac:(by intros ?? [= ->]) ltac:(intros; by apply Hg)).
    pose proof (members_length (membership d) (λ a, (a, id)) ms Hnd' ltac:(by intros ?? [= ->]) ltac:(intros; by apply Hm)).
    lia. }
  rewrite delete_writes in Hw. exists id, p. split_and!; [done..| | |].
  - rewrite Hw. eapply represents_replace; [exact Hr3|by apply delete_replacement|]. split; try done.
    intros a g (Hin & Hna & Hng)%elem_of_without_account. rewrite !lookup_partial_alter_ne by done.
    by apply (do_member _ (re_ok _ _ Hr)).
  - rewrite Hw. by apply account_gone_writes.
  - intros uid Huid. rewrite Hw, (lookup_apply_writes (λ _, None)); [|by eapply delete_classes_ok|done].
    change (dir_cell (UsedQuota uid)) with (SUBSPACE_QUOTA, (dir_cell (UsedQuota uid)).2). rewrite Hquota.
    apply decide_ext. apply elem_of_delete_classes.
Qed.
End delete.
