(* ===== verification/DirectoryChange.v ===== *)
(** * Changing accounts

    [update_account] applies a list of changes to one account; the changes of
    the directory are specified on the directory and proved to be what the
    batch does. *)

From stdpp Require Import base gmap sorting strings numbers list.
From S2P Require Import Prelude Codec Keys KeyTheory KeyOrder Roaring Kv KvModel Batch Commit CommitTheory Read Store Utf8 Text Words ClearLoop Query AclTheory Blob BlobTheory Directory DirectoryCodec DirectoryTheory DirectoryManage DirectoryUpdate.
Import Dir.
Open Scope Z_scope.
Open Scope bytes_scope.

(** ** What a change means *)

Section spec.
Context `{UnicodeStr}.

(** The fields of the account. *)
Definition changed (c : PrincipalUpdate) (p : principal Z) : principal Z :=
  match action c, field c, value c with
  | Set_item, FName, VString n => with_name (str_to_lowercase n) p
  | Set_item, FType, VString t => with_typ (default (p_typ p) (type_parse t)) p
  | Set_item, FSecrets, VStringList l => with_secrets l p
  | Set_item, FDescription, VString s => with_description (if decide (s = []) then None else Some s) p
  | Set_item, FQuota, VInteger q => with_quota q p
  | Set_item, FEmails, VStringList l => with_emails (str_to_lowercase <$> l) p
  | AddItem, FEmails, VString e =>
      if decide (str_to_lowercase e ∈ p_emails p) then p
      else with_emails (p_emails p ++ [str_to_lowercase e]) p
  | RemoveItem, FEmails, VString e =>
      with_emails (base.filter (λ x, x ≠ str_to_lowercase e) (p_emails p)) p
  | _, _, _ => p
  end.

(** The accounts that a change names. *)
Definition named_accounts (d : directory) (v : PrincipalValue) : list Z :=
  match v with
  | VString n => option_list (find_id d n)
  | VStringList l => omap (find_id d) l
  | VInteger _ => []
  end.

(** The pairs [f x], [x] a named account, become the only ones, are added or
    are removed. *)
Definition changed_pairs (d : directory) (c : PrincipalUpdate) (f : Z → Z * Z) (mine : Z * Z → bool)
    (ms : gset (Z * Z)) : gset (Z * Z) :=
  let named : gset (Z * Z) := list_to_set (f <$> named_accounts d (value c)) in
  match action c with
  | Set_item => base.filter (λ ag, mine ag = false) ms ∪ named
  | AddItem => ms ∪ named
  | RemoveItem => ms ∖ named
  end.

Definition changed_members (d : directory) (id : Z) (c : PrincipalUpdate) (ms : gset (Z * Z)) : gset (Z * Z) :=
  match field c with
  | FMemberOf => changed_pairs d c (λ g, (id, g)) (λ ag, bool_decide (ag.1 = id)) ms
  | FMembers => changed_pairs d c (λ a, (a, id)) (λ ag, bool_decide (ag.2 = id)) ms
  | _ => ms
  end.

(** Requests with strings of the program, that name nothing twice and do not
    make the account a member of itself. *)
Definition change_ok (d : directory) (id : Z) (c : PrincipalUpdate) : Prop :=
  match field c, value c with
  | FName, VString n => str_ok (str_to_lowercase n)
  | FSecrets, VStringList l => list_ok l
  | FDescription, VString s => str_ok s
  | FQuota, VInteger q => uint_ok 64 q
  | FEmails, VStringList l => list_ok (str_to_lowercase <$> l) ∧ NoDup (str_to_lowercase <$> l)
  | FEmails, VString e => str_ok (str_to_lowercase e)
  | (FMemberOf | FMembers), VStringList l => NoDup l ∧ (id ∉ omap (find_id d) l)
  | (FMemberOf | FMembers), VString n => find_id d n ≠ Some id
  | _, _ => True
  end.

Definition change_size (c : PrincipalUpdate) : Z :=
  match value c with VStringList l => 4 * Z.of_nat (length l) | _ => 4 end.
End spec.

Lemma change_size_nonneg c : 0 ≤ change_size c.
Proof. unfold change_size. destruct (value c); lia. Qed.

(** ** The account while it is changed *)

Lemma replaced_replaced d id new ms new' ms' :
  replaced (replaced d id new ms) id new' ms' = replaced d id new' ms'.
Proof. unfold replaced. cbn [accounts domains]. f_equal.
  apply map_eq. intros i. rewrite !lookup_partial_alter. by case_decide.
Qed.

Section step.
Context (d : directory) (id : Z) (ms : gset (Z * Z)) (p : principal Z) (mc : store_map).

(** The store as if the batch so far had been written and the account after
    it. *)
Definition virtual (p : principal Z) (m : store_map) : store_map :=
  <[dir_cell (Principal id) := principal_serialize p]> m.

Hypothesis Hv : represents (replaced d id (Some p) ms) (virtual p mc).

Lemma virtual_id : uint_ok 32 id.
Proof.
  eapply (account_id_ok _ id p); [apply Hv|]. cbn. by rewrite lookup_partial_alter_eq.
Qed.

Lemma lookup_virtual q m c :
  dclass_ok c → virtual q m !! dir_cell c
  = if decide (c = Principal id) then Some (principal_serialize q) else m !! dir_cell c.
Proof. intros Hc. apply (lookup_apply_write m (Principal id, Some _)); [exact virtual_id|done]. Qed.

Lemma lookup_virtual_ne q m c :
  dclass_ok c → c ≠ Principal id → virtual q m !! dir_cell c = m !! dir_cell c.
Proof. intros Hc Hne. by rewrite lookup_virtual, decide_False. Qed.

Lemma virtual_account : accounts (replaced d id (Some p) ms) !! id = Some p.
Proof. cbn. by rewrite lookup_partial_alter_eq. Qed.

Lemma current_name : mc !! dir_cell (NameToId (p_name p)) = Some (ptype_of id p).
Proof.
  pose proof (proj2 (re_name _ _ Hv (p_name p) (ptype_of id p))) as Hn. rewrite lookup_virtual in Hn by done.
  apply Hn. exists id, p. by rewrite virtual_account.
Qed.
Lemma current_email e : e ∈ p_emails p → mc !! dir_cell (EmailToId e) = Some (ptype_of id p).
Proof.
  intros He. pose proof (proj2 (re_email _ _ Hv e (ptype_of id p))) as Hn. rewrite lookup_virtual in Hn by done.
  apply Hn. exists id, p. by rewrite virtual_account.
Qed.

Lemma virtual_keys k v :
  mc !! (SUBSPACE_DIRECTORY, k) = Some v → ∃ c, dclass_ok c ∧ dir_cell c = (SUBSPACE_DIRECTORY, k).
Proof.
  intros Hk. destruct (decide (dir_cell (Principal id) = (SUBSPACE_DIRECTORY, k))) as [He|Hne].
  - exists (Principal id). split; [exact virtual_id|done].
  - apply (re_keys _ _ Hv k v). unfold virtual. by rewrite lookup_insert_ne.
Qed.

(** A name or an e-mail that no account had before the request is free now,
    unless the account has taken it. *)
Lemma free_name m n :
  represents d m → find_id d n = None → n ≠ p_name p → mc !! dir_cell (NameToId n) = None.
Proof.
  intros Hr Hf Hne. destruct (mc !! dir_cell (NameToId n)) as [v|] eqn:Hn; [|done].
  assert (virtual p mc !! dir_cell (NameToId n) = Some v) as Hn' by (by rewrite lookup_virtual).
  apply (re_name _ _ Hv) in Hn' as (i & q & Hq & Hqn & _). cbn in Hq. rewrite lookup_partial_alter in Hq.
  case_decide; [congruence|]. assert (find_id d n = Some i) by (eapply find_id_Some; eauto). congruence.
Qed.
Lemma free_email m e :
  represents d m → email_error d e = None → e ∉ p_emails p → mc !! dir_cell (EmailToId e) = None.
Proof.
  intros Hr He Hne. destruct (mc !! dir_cell (EmailToId e)) as [v|] eqn:Hn; [|done].
  assert (virtual p mc !! dir_cell (EmailToId e) = Some v) as Hn' by (by rewrite lookup_virtual).
  apply (re_email _ _ Hv) in Hn' as (i & q & Hq & Hqe & _). cbn in Hq. rewrite lookup_partial_alter in Hq.
  case_decide; [congruence|]. unfold email_error in He. rewrite decide_True in He; [done|].
  exists (i, q). by eapply email_owner_Some.
Qed.

(** The entries [m1] that belong to the account changed to [p']. *)
Lemma principal_step p' m1 :
  principal_ok p' → p_id p' = id → NoDup (p_emails p') → ptype_of id p' = ptype_of id p →
  (∀ k v, m1 !! (SUBSPACE_DIRECTORY, k) = Some v → ∃ c, dclass_ok c ∧ dir_cell c = (SUBSPACE_DIRECTORY, k)) →
  (∀ c, dclass_ok c → match c with NameToId _ | EmailToId _ => False | _ => True end →
     m1 !! dir_cell c = mc !! dir_cell c) →
  (∀ n, m1 !! dir_cell (NameToId n)
     = if decide (p_name p' = n) then Some (ptype_of id p)
       else if decide (p_name p = n) then None else mc !! dir_cell (NameToId n)) →
  (∀ e, m1 !! dir_cell (EmailToId e)
     = if decide (e ∈ p_emails p') then Some (ptype_of id p)
       else if decide (e ∈ p_emails p) then None else mc !! dir_cell (EmailToId e)) →
  (∀ i, m1 !! id_cell i = mc !! id_cell i) →
  p_name p' = p_name p ∨ mc !! dir_cell (NameToId (p_name p')) = None →
  (∀ e, e ∈ p_emails p' → e ∈ p_emails p ∨ mc !! dir_cell (EmailToId e) = None) →
  represents (replaced d id (Some p') ms) (virtual p' m1).
Proof.
  intros Hok Hid Hnd Hpt Hkeys Hsame Hname Hemail Hids Hfn Hfe.
  rewrite <-(replaced_replaced d id (Some p) ms).
  assert (∀ q m i, virtual q m !! id_cell i = m !! id_cell i) as Hidc.
  { intros q m i. apply (id_cell_write [(Principal id, Some _)]). }
  pose proof (re_ok _ _ Hv) as Hd. pose proof virtual_account as Hacc.
  apply (represents_replace _ (virtual p mc)); [exact Hv|..].
  - split; rewrite ?Hacc; cbn [holds fmap option_fmap option_map].
    + apply (keys_apply_writes [(Principal id, Some (principal_serialize p'))]); [exact Hkeys|].
      constructor; [exact virtual_id|done].
    + intros i Hi. rewrite !lookup_virtual by done. destruct (decide (i = id)) as [->|Hne]; [by rewrite decide_True|].
      rewrite !decide_False by congruence. by apply Hsame.
    + intros n. rewrite !lookup_virtual_ne by done. rewrite Hname, Hpt. done.
    + intros e. rewrite !lookup_virtual_ne by done. rewrite Hemail, Hpt. done.
    + intros a g Ha Hg. rewrite lookup_virtual_ne by done. rewrite Hsame by done.
      rewrite <-(re_member_of _ _ Hv a g Ha Hg). by rewrite lookup_virtual_ne.
    + intros a g Ha Hg. rewrite lookup_virtual_ne by done. rewrite Hsame by done.
      rewrite <-(re_members _ _ Hv a g Ha Hg). by rewrite lookup_virtual_ne.
    + intros n. rewrite !lookup_virtual_ne by done. by apply Hsame.
    + intros i _. by rewrite !Hidc, Hids.
  - split; rewrite ?Hacc; cbn [holds].
    + intros q [= <-]. destruct (do_account _ Hd id p Hacc) as (_ & _ & Hmax & _). split_and!; try done.
      rewrite Hidc, Hids. rewrite <-(Hidc p). by eapply (re_id _ _ Hv).
    + intros n <-. rewrite lookup_virtual_ne by done. by destruct Hfn as [->|]; [left|right].
    + intros e He. rewrite lookup_virtual_ne by done. by apply Hfe.
    + intros a g Hin. destruct (do_member _ Hd a g Hin) as [Ha Hg].
      split; rewrite lookup_partial_alter; case_decide; done || by eexists.
Qed.

(** The entries [m1] that have other memberships. *)
Lemma members_step ms' m1 :
  (∀ k v, m1 !! (SUBSPACE_DIRECTORY, k) = Some v → ∃ c, dclass_ok c ∧ dir_cell c = (SUBSPACE_DIRECTORY, k)) →
  (∀ c, dclass_ok c → match c with MemberOf _ _ | Members _ _ => False | _ => True end →
     m1 !! dir_cell c = mc !! dir_cell c) →
  (∀ a g, uint_ok 32 a → uint_ok 32 g →
     (is_Some (m1 !! dir_cell (MemberOf a g)) ↔ (a, g) ∈ ms') ∧
     (is_Some (m1 !! dir_cell (Members g a)) ↔ (a, g) ∈ ms')) →
  (∀ i, m1 !! id_cell i = mc !! id_cell i) →
  (∀ a g, (a, g) ∈ ms' → is_Some (accounts (replaced d id (Some p) ms) !! a) ∧
     is_Some (accounts (replaced d id (Some p) ms) !! g)) →
  represents (replaced d id (Some p) ms') (virtual p m1).
Proof.
  intros Hkeys Hsame Hms Hids Hacc.
  assert (∀ q m i, virtual q m !! id_cell i = m !! id_cell i) as Hidc.
  { intros q m i. apply (id_cell_write [(Principal id, Some _)]). }
  assert (∀ c, dclass_ok c → match c with MemberOf _ _ | Members _ _ => False | _ => True end →
    virtual p m1 !! dir_cell c = virtual p mc !! dir_cell c) as Hsame'.
  { intros c Hc Hm. rewrite !lookup_virtual by done. case_decide; [done|]. by apply Hsame. }
  split; [split|..].
  - apply (do_account _ (re_ok _ _ Hv)).
  - exact Hacc.
  - apply (keys_apply_writes [(Principal id, Some (principal_serialize p))]); [exact Hkeys|].
    constructor; [exact virtual_id|done].
  - intros i Hi. rewrite Hsame' by done. by apply (re_account _ _ Hv).
  - intros n v. rewrite Hsame' by done. apply (re_name _ _ Hv).
  - intros e v. rewrite Hsame' by done. apply (re_email _ _ Hv).
  - intros a g Ha Hg. rewrite lookup_virtual_ne by done. exact (proj1 (Hms a g Ha Hg)).
  - intros a g Ha Hg. rewrite lookup_virtual_ne by done. exact (proj2 (Hms a g Ha Hg)).
  - intros n. rewrite Hsame' by done. apply (re_domain _ _ Hv).
  - intros i q Hq. rewrite Hidc, Hids, <-(Hidc p). by eapply (re_id _ _ Hv).
Qed.
End step.

(** ** Writes of memberships *)

Definition pair_writes (v : option (list Z)) (pairs : list (Z * Z)) : list write :=
  (λ c, (c, v)) <$> (pairs ≫= λ ag, [MemberOf ag.1 ag.2; Members ag.2 ag.1]).

Lemma elem_of_pair_classes (pairs : list (Z * Z)) c :
  c ∈ (pairs ≫= λ ag, [MemberOf ag.1 ag.2; Members ag.2 ag.1]) ↔
  match c with MemberOf a g | Members g a => (a, g) ∈ pairs | _ => False end.
Proof.
  rewrite list_elem_of_bind. setoid_rewrite elem_of_cons. setoid_rewrite elem_of_cons. setoid_rewrite elem_of_nil.
  split.
  - intros ([a g] & [->|[->|[]]] & Hin); done.
  - destruct c as [| |a g|g a| | |]; try done; intros Hin; exists (a, g); cbn; tauto.
Qed.

Lemma pair_classes_ok (pairs : list (Z * Z)) :
  (∀ a g, (a, g) ∈ pairs → uint_ok 32 a ∧ uint_ok 32 g) →
  Forall dclass_ok (pairs ≫= λ ag, [MemberOf ag.1 ag.2; Members ag.2 ag.1]).
Proof.
  intros Hp. apply list.Forall_forall. intros c Hc. apply elem_of_pair_classes in Hc.
  destruct c; try done; apply Hp in Hc; cbn; tauto.
Qed.

Lemma lookup_pair_writes v pairs m c :
  (∀ a g, (a, g) ∈ pairs → uint_ok 32 a ∧ uint_ok 32 g) → dclass_ok c →
  apply_writes (pair_writes v pairs) m !! dir_cell c
  = match c with
    | MemberOf a g | Members g a => if decide ((a, g) ∈ pairs) then v else m !! dir_cell c
    | _ => m !! dir_cell c
    end.
Proof.
  intros Hp Hc. unfold pair_writes.
  rewrite (lookup_apply_writes (λ _, v)) by (done || by apply pair_classes_ok).
  destruct (decide (c ∈ _)) as [Hin|Hin]; rewrite elem_of_pair_classes in Hin;
    destruct c; try done; [rewrite decide_True by done|rewrite decide_True by done
      |rewrite decide_False by done|rewrite decide_False by done]; done.
Qed.

Lemma bind_of_fmap {A B C} (f : A → B) (g : B → list C) l : (f <$> l) ≫= g = l ≫= (λ x, g (f x)).
Proof. induction l as [|x l IH]; [done|]. cbn. f_equal. exact IH. Qed.

Lemma join_writes (f : Z → Z * Z) l :
  omap (op_write assigned_default) (l ≫= λ x, join_ops (Static (f x).1) (Static (f x).2))
  = pair_writes (Some []) (f <$> l).
Proof.
  unfold pair_writes. rewrite bind_of_fmap.
  by rewrite (omap_bind_classes _ _ (λ x, [MemberOf (f x).1 (f x).2; Members (f x).2 (f x).1]) (λ _, Some [])).
Qed.
Lemma leave_writes (f : Z → Z * Z) l :
  omap (op_write assigned_default) (l ≫= λ x, leave_ops (Static (f x).1) (Static (f x).2))
  = pair_writes None (f <$> l).
Proof.
  unfold pair_writes. rewrite bind_of_fmap.
  by rewrite (omap_bind_classes _ _ (λ x, [MemberOf (f x).1 (f x).2; Members (f x).2 (f x).1]) (λ _, None)).
Qed.

(** ** Changes of a membership list *)

Lemma remove_first_filter {A} `{EqDecision A} (x : A) l :
  NoDup l → remove_first x l = base.filter (λ y, y ≠ x) l.
Proof.
  induction 1 as [|y l Hy Hl IH]; [done|]. cbn [remove_first]. rewrite filter_cons.
  destruct (decide (y = x)) as [->|Hne].
  - rewrite decide_False by (intros Hn; by apply Hn). clear IH. induction l as [|z l IH]; [done|].
    apply not_elem_of_cons in Hy as [Hz Hy]. apply NoDup_cons in Hl as [_ Hl].
    rewrite filter_cons, decide_True by congruence. f_equal. by apply IH.
  - rewrite decide_True by done. by f_equal.
Qed.

Lemma resolve_names_omap d names ids :
  resolve_names d names = inl ids → ids = omap (find_id d) names.
Proof.
  revert ids. induction names as [|n names IH]; intros ids; cbn [resolve_names omap list_omap]; [by intros [= <-]|].
  destruct (find_id d n); [|done]. destruct (resolve_names d names) as [l|]; [|done].
  intros [= <-]. f_equal. by apply IH.
Qed.

Lemma omap_find_NoDup d m names :
  represents d m → NoDup names → NoDup (omap (find_id d) names).
Proof.
  intros Hr. induction 1 as [|n names Hn Hnd IH]; cbn; [constructor|].
  destruct (find_id d n) as [i|] eqn:Hf; [|done]. apply NoDup_cons. split; [|done].
  rewrite list_elem_of_omap. intros (n' & Hin & Hf'). apply Hn.
  eapply find_id_Some in Hf as (p & Hp & <-); [|done]. eapply find_id_Some in Hf' as (p' & Hp' & <-); [|done].
  congruence.
Qed.

Lemma named_accounts_exist d m v x :
  represents d m → x ∈ named_accounts d v → is_Some (accounts d !! x).
Proof.
  intros Hr Hx. assert (∃ n, find_id d n = Some x) as [n Hf].
  { destruct v as [n|l|]; cbn [named_accounts] in Hx.
    - destruct (find_id d n) as [i|] eqn:Hf; [|by apply elem_of_nil in Hx].
      apply list_elem_of_singleton in Hx as ->. eauto.
    - apply list_elem_of_omap in Hx as (n & _ & Hf). eauto.
    - by apply elem_of_nil in Hx. }
  eapply find_id_Some in Hf as (p & Hp & _); [|done]. by exists p.
Qed.

Lemma bind_unless {A B} `{EqDecision A} (l l' : list A) (g : A → list B) :
  (l ≫= λ x, if bool_decide (x ∈ l') then [] else g x) = base.filter (λ x, x ∉ l') l ≫= g.
Proof.
  induction l as [|x l IH]; [done|]. rewrite filter_cons. cbn [mbind list_bind].
  change (list_bind A B ?h l) with (l ≫= h). rewrite IH.
  destruct (decide (x ∉ l')) as [Hx|Hx].
  - by rewrite bool_decide_false by done.
  - by rewrite bool_decide_true by (by apply dec_stable).
Qed.

(** What a change makes of a list of accounts. *)
Definition list_change (c : PrincipalUpdate) (named cur cur' : list Z) : Prop :=
  ∀ x, x ∈ cur' ↔ match action c with
                  | Set_item => x ∈ named
                  | AddItem => x ∈ cur ∨ x ∈ named
                  | RemoveItem => x ∈ cur ∧ x ∉ named
                  end.

Section change_members.
Context `{UnicodeStr} {DB Txn : Type} `{RocksDBLaws DB Txn}.
Context (db : DB) (d : directory) (Hr : represents d (db_map db)).
Context (f : Z → Z * Z) (link unlink : Z → BatchBuilder → BatchBuilder).
Hypothesis link_ops : ∀ x batch,
  b_ops (link x batch) = b_ops batch ++ join_ops (Static (f x).1) (Static (f x).2).
Hypothesis unlink_ops : ∀ x batch,
  b_ops (unlink x batch) = b_ops batch ++ leave_ops (Static (f x).1) (Static (f x).2).

Lemma set_members_spec cur names batch ids batch' :
  set_members db link cur names batch = DOk (ids, batch') →
  resolve_names d names = inl ids ∧
  b_ops batch' = b_ops batch ++
    (base.filter (λ x, x ∉ cur) ids ≫= λ x, join_ops (Static (f x).1) (Static (f x).2)).
Proof.
  revert batch ids batch'. induction names as [|n names IH]; intros batch ids batch'; cbn [set_members resolve_names].
  { intros [= <- <-]. by rewrite app_nil_r. }
  rewrite (get_account_id_spec db d Hr). cbn [mbind dresult_bind].
  destruct (find_id d n) as [i|]; [|done]. cbn [ok_or_not_found mbind dresult_bind].
  destruct (set_members db link cur names _) as [[l b1]|] eqn:Hs; [|done].
  intros [= <- <-]. apply IH in Hs as [-> Hb]. split; [done|]. rewrite Hb, filter_cons.
  destruct (decide (i ∉ cur)) as [Hi|Hi].
  - rewrite bool_decide_false, link_ops, <-app_assoc by done. done.
  - by rewrite bool_decide_true by (by apply dec_stable).
Qed.

(** The accounts that join, the ones that leave, and the new list. *)
Lemma change_members_spec c cur cur' batch batch' :
  NoDup cur → (∀ l, value c = VStringList l → NoDup l) →
  change_members db link unlink (action c) (value c) cur batch = DOk (cur', batch') →
  ∃ joined left,
    b_ops batch' = b_ops batch ++ (joined ≫= λ x, join_ops (Static (f x).1) (Static (f x).2))
                     ++ (left ≫= λ x, leave_ops (Static (f x).1) (Static (f x).2)) ∧
    NoDup cur' ∧ list_change c (named_accounts d (value c)) cur cur' ∧
    (∀ x, x ∈ joined ↔ x ∈ cur' ∧ x ∉ cur) ∧ (∀ x, x ∈ left ↔ x ∈ cur ∧ x ∉ cur') ∧
    2 * Z.of_nat (length joined) + 2 * Z.of_nat (length left) + 2 * Z.of_nat (length cur')
    ≤ 2 * Z.of_nat (length cur) + change_size c.
Proof.
  intros Hnd Hval. unfold change_members, list_change, change_size.
  destruct c as [ac fd v]. cbn [action value] in *.
  destruct ac, v as [n|names|]; try done; cbn [named_accounts].
  - destruct (set_members db link cur names batch) as [[ids b1]|] eqn:Hs; [|done]. cbn [mbind dresult_bind].
    intros [= <- <-]. apply set_members_spec in Hs as [Hres Hb1].
    pose proof (resolve_names_omap _ _ _ Hres) as Hids. pose proof (resolve_names_length _ _ _ Hres) as Hlen.
    exists (base.filter (λ x, x ∉ cur) ids), (base.filter (λ x, x ∉ ids) cur).
    rewrite (foldl_ops _ (λ x, if bool_decide (x ∈ ids) then [] else leave_ops (Static (f x).1) (Static (f x).2))).
    2: { intros b x. case_bool_decide; [by rewrite app_nil_r|apply unlink_ops]. }
    split_and!.
    + rewrite Hb1, <-app_assoc. do 2 f_equal. apply bind_unless.
    + rewrite Hids. eapply omap_find_NoDup; [exact Hr|]. by apply Hval.
    + by rewrite Hids.
    + intros x. rewrite list_elem_of_filter. tauto.
    + intros x. rewrite list_elem_of_filter. tauto.
    + pose proof (length_filter (λ x, x ∉ cur) ids). pose proof (length_filter (λ x, x ∉ ids) cur). lia.
  - rewrite (get_account_id_spec db d Hr). cbn [mbind dresult_bind].
    destruct (find_id d n) as [i|]; [|done]. cbn [ok_or_not_found mbind dresult_bind option_list].
    case_bool_decide as Hi; intros [= <- <-].
    + exists [], []. cbn [mbind list_bind]. rewrite !app_nil_r.
      split_and!; [done|done|set_solver|set_solver|set_solver|cbn; lia].
    + exists [i], []. rewrite link_ops. cbn [mbind list_bind]. rewrite !app_nil_r.
      split_and!; [done| |set_solver|set_solver|set_solver|rewrite length_app; cbn; lia].
      apply NoDup_app. split_and!; [done|set_solver|apply NoDup_singleton].
  - rewrite (get_account_id_spec db d Hr). cbn [mbind dresult_bind].
    destruct (find_id d n) as [i|]; cbn [option_list].
    2: { intros [= <- <-]. exists [], []. cbn [mbind list_bind]. rewrite !app_nil_r.
      split_and!; [done|done|set_solver|set_solver|set_solver|cbn; lia]. }
    case_bool_decide as Hi; intros [= <- <-].
    + exists [], [i]. rewrite unlink_ops, remove_first_filter by done. cbn [mbind list_bind]. rewrite !app_nil_r.
      pose proof (length_filter (λ y, y ≠ i) cur). change (option_list (Some i)) with [i].
      split_and!; [done|by apply NoDup_filter| | | |cbn; lia];
        intros x; rewrite ?list_elem_of_filter, ?list_elem_of_singleton, ?elem_of_nil; [naive_solver|naive_solver|].
      destruct (decide (x = i)) as [->|]; naive_solver.
    + exists [], []. cbn [mbind list_bind]. rewrite !app_nil_r.
      split_and!; [done|done|set_solver|set_solver|set_solver|cbn; lia].
Qed.
End change_members.

Lemma changed_pairs_spec d c f mine ms cur cur' :
  (∀ x y, f x = f y → x = y) → (∀ ag, mine ag = true ↔ ∃ x, ag = f x) →
  list_change c (named_accounts d (value c)) cur cur' → (∀ x, x ∈ cur ↔ f x ∈ ms) →
  ∀ ag, ag ∈ changed_pairs d c f mine ms ↔
    (∃ x, ag = f x ∧ x ∈ cur') ∨ (mine ag = false ∧ ag ∈ ms).
Proof.
  intros Hf Hmine Hch Hcur ag. unfold changed_pairs, list_change in *.
  assert (ag ∈ (list_to_set (f <$> named_accounts d (value c)) : gset (Z * Z)) ↔
    ∃ x, ag = f x ∧ x ∈ named_accounts d (value c)) as Hnamed.
  { rewrite elem_of_list_to_set, list_elem_of_fmap. done. }
  destruct (mine ag) eqn:Hm.
  - apply Hmine in Hm as [x ->]. assert ((∃ y, f x = f y ∧ y ∈ named_accounts d (value c)) ↔
      x ∈ named_accounts d (value c)) as Hx by (split; [intros (y & ->%Hf & ?)|]; eauto).
    assert ((∃ y, f x = f y ∧ y ∈ cur') ↔ x ∈ cur') as Hx' by (split; [intros (y & ->%Hf & ?)|]; eauto).
    rewrite Hx', Hch. rewrite Hx in Hnamed.
    assert (mine (f x) = true) as Hm by (apply Hmine; eauto).
    destruct (action c); rewrite ?elem_of_union, ?elem_of_difference, ?elem_of_filter, Hnamed, ?Hcur, ?Hm;
      naive_solver.
  - assert (∀ x, ag ≠ f x) as Hne.
    { intros x ->. assert (mine (f x) = true) by (apply Hmine; eauto). congruence. }
    destruct (action c); rewrite ?elem_of_union, ?elem_of_difference, ?elem_of_filter, Hnamed, ?Hm; naive_solver.
Qed.

(** The store after the memberships [f x] of the list changed. *)
Section members_change.
Context (d : directory) (id : Z) (p : principal Z) (ms : gset (Z * Z)) (mc : store_map).
Hypothesis Hv : represents (replaced d id (Some p) ms) (virtual id p mc).
Context (c : PrincipalUpdate) (f : Z → Z * Z) (mine : Z * Z → bool) (cur cur' joined left : list Z).
Hypothesis f_inj : ∀ x y, f x = f y → x = y.
Hypothesis f_mine : ∀ ag, mine ag = true ↔ ∃ x, ag = f x.
Hypothesis f_id : ∀ x, f x = (id, x) ∨ f x = (x, id).
Hypothesis Hch : list_change c (named_accounts d (value c)) cur cur'.
Hypothesis Hcur : ∀ x, x ∈ cur ↔ f x ∈ ms.
Hypothesis Hjoined : ∀ x, x ∈ joined ↔ x ∈ cur' ∧ x ∉ cur.
Hypothesis Hleft : ∀ x, x ∈ left ↔ x ∈ cur ∧ x ∉ cur'.
Hypothesis Hnamed : ∀ x, x ∈ named_accounts d (value c) → is_Some (accounts d !! x).

Abbreviation ms' := (changed_pairs d c f mine ms).
Abbreviation dc := (replaced d id (Some p) ms).

Lemma pairs_exist a g :
  (a, g) ∈ ms' ∨ (a, g) ∈ ms → is_Some (accounts dc !! a) ∧ is_Some (accounts dc !! g).
Proof.
  pose proof (re_ok _ _ Hv) as Hd.
  assert (is_Some (accounts dc !! id)) as Hid by (cbn; rewrite lookup_partial_alter_eq; by eexists).
  rewrite (changed_pairs_spec d c f mine ms cur cur') by done.
  intros [[(x & Hx & Hin)|[_ Hin] ]|Hin]; [|by apply (do_member _ Hd)..].
  assert (is_Some (accounts dc !! x)) as Hax.
  { apply Hch in Hin. assert (x ∈ cur ∨ x ∈ named_accounts d (value c)) as [Hc|Hc] by (destruct (action c); tauto).
    - apply Hcur in Hc. destruct (f_id x) as [Hfx|Hfx]; rewrite Hfx in Hc; by apply (do_member _ Hd) in Hc as [? ?].
    - cbn. rewrite lookup_partial_alter. case_decide; [by eexists|by apply Hnamed]. }
  destruct (f_id x) as [Hfx|Hfx]; rewrite Hfx in Hx; injection Hx as -> ->; done.
Qed.

Lemma pairs_ok (l : list Z) :
  (∀ x, x ∈ l → x ∈ cur' ∨ x ∈ cur) → ∀ a g, (a, g) ∈ f <$> l → uint_ok 32 a ∧ uint_ok 32 g.
Proof.
  intros Hl a g (x & Hx & Hin%Hl)%list_elem_of_fmap. pose proof (re_ok _ _ Hv) as Hd.
  destruct (pairs_exist a g) as [[q Hq] [r Hr] ]; [|split; by eapply account_id_ok].
  destruct Hin as [Hin|Hin]; [left|right; rewrite Hx; by apply Hcur].
  apply (changed_pairs_spec d c f mine ms cur cur'); try done. left. eauto.
Qed.

Lemma pairs_cell ag (o : option (list Z)) :
  (is_Some o ↔ ag ∈ ms) →
  is_Some (if decide (ag ∈ f <$> left) then None
           else if decide (ag ∈ f <$> joined) then Some [] else o) ↔ ag ∈ ms'.
Proof.
  intros Ho. rewrite (changed_pairs_spec d c f mine ms cur cur') by done.
  assert (∀ (l : list Z) x, f x ∈ f <$> l ↔ x ∈ l) as Hf.
  { intros l x. rewrite list_elem_of_fmap. split; [intros (y & ->%f_inj & ?); done|eauto]. }
  destruct (mine ag) eqn:Hm.
  - apply f_mine in Hm as [x ->]. rewrite <-Hcur in Ho.
    assert ((∃ y, f x = f y ∧ y ∈ cur') ↔ x ∈ cur') as Hx' by (split; [intros (y & ->%f_inj & ?)|]; eauto).
    rewrite Hx'. pose proof (Hf left x) as H1. pose proof (Hf joined x) as H2. rewrite Hjoined in H2.
    rewrite Hleft in H1. destruct (decide (x ∈ cur)), (decide (x ∈ cur')); repeat case_decide;
      naive_solver.
  - assert (∀ x, ag ≠ f x) as Hne.
    { intros x ->. assert (mine (f x) = true) by (apply f_mine; eauto). congruence. }
    assert (∀ l : list Z, ag ∉ f <$> l) as Hnl by (intros l (x & ? & _)%list_elem_of_fmap; by apply (Hne x)).
    rewrite !decide_False by done. naive_solver.
Qed.

Lemma members_change :
  represents (replaced d id (Some p) ms')
    (virtual id p (apply_writes (pair_writes None (f <$> left))
                     (apply_writes (pair_writes (Some []) (f <$> joined)) mc))).
Proof.
  assert (∀ a g, (a, g) ∈ f <$> joined → uint_ok 32 a ∧ uint_ok 32 g) as Hokj by (apply pairs_ok; naive_solver).
  assert (∀ a g, (a, g) ∈ f <$> left → uint_ok 32 a ∧ uint_ok 32 g) as Hokl by (apply pairs_ok; naive_solver).
  apply (members_step d id ms p mc Hv).
  - apply keys_apply_writes; [apply keys_apply_writes; [exact (virtual_keys d id ms p mc Hv)|]|];
      apply Forall_fmap; by apply pair_classes_ok.
  - intros cl Hcl Hno. rewrite !lookup_pair_writes by done. by destruct cl.
  - intros a g Ha Hg. rewrite !lookup_pair_writes by done. split; apply pairs_cell.
    + rewrite <-(re_member_of _ _ Hv a g Ha Hg). by rewrite (lookup_virtual_ne d id ms p mc Hv).
    + rewrite <-(re_members _ _ Hv a g Ha Hg). by rewrite (lookup_virtual_ne d id ms p mc Hv).
  - intros i. by rewrite !id_cell_write.
  - intros a g Hin. apply pairs_exist. by left.
Qed.
End members_change.

(** ** Changes of the fields *)

Section fields_change.
Context (d : directory) (id : Z) (p : principal Z) (ms : gset (Z * Z)) (mc : store_map).
Hypothesis Hv : represents (replaced d id (Some p) ms) (virtual id p mc).

Lemma current_ok : principal_ok p ∧ p_id p = id ∧ NoDup (p_emails p).
Proof.
  destruct (do_account _ (re_ok _ _ Hv) id p (virtual_account d id ms p)) as (? & ? & _ & ?). done.
Qed.

Lemma keep_email l e :
  l = p_emails p →
  mc !! dir_cell (EmailToId e)
  = if decide (e ∈ l) then Some (ptype_of id p)
    else if decide (e ∈ p_emails p) then None else mc !! dir_cell (EmailToId e).
Proof. intros ->. repeat case_decide; try done. by apply (current_email d id ms p mc Hv). Qed.
Lemma keep_name n n' :
  n' = p_name p →
  mc !! dir_cell (NameToId n)
  = if decide (n' = n) then Some (ptype_of id p)
    else if decide (p_name p = n) then None else mc !! dir_cell (NameToId n).
Proof. intros ->. repeat case_decide; try done. subst n. apply (current_name d id ms p mc Hv). Qed.

(** Nothing that other entries depend on. *)
Lemma fields_step p' :
  principal_ok p' → p_id p' = id → p_name p' = p_name p → p_emails p' = p_emails p →
  ptype_of id p' = ptype_of id p →
  represents (replaced d id (Some p') ms) (virtual id p' mc).
Proof.
  intros Hok Hid Hn He Hpt. destruct current_ok as (_ & _ & Hnd).
  apply (principal_step d id ms p mc Hv p' mc); try done; [by rewrite He|..].
  - exact (virtual_keys d id ms p mc Hv).
  - intros n. by apply keep_name.
  - intros e. by apply keep_email.
  - by left.
  - intros e. rewrite He. by left.
Qed.

(** A new name that was free. *)
Lemma name_step n :
  str_ok n → n ≠ p_name p → mc !! dir_cell (NameToId n) = None →
  represents (replaced d id (Some (with_name n p)) ms)
    (virtual id (with_name n p)
      (apply_writes [(NameToId (p_name p), None); (NameToId n, Some (ptype_of id p))] mc)).
Proof.
  intros Hn Hne Hfree. destruct current_ok as ([] & Hid & Hnd).
  apply (principal_step d id ms p mc Hv (with_name n p)); try done.
  - apply keys_apply_writes; [exact (virtual_keys d id ms p mc Hv)|]. by repeat constructor.
  - intros c Hc Hno. unfold apply_writes. cbn [foldl]. rewrite !lookup_apply_write by done. cbn [fst snd].
    by destruct c.
  - intros x. unfold apply_writes. cbn [foldl]. rewrite !lookup_apply_write by done. cbn [fst snd with_name p_name].
    repeat case_decide; simplify_eq; done.
  - intros e. unfold apply_writes. cbn [foldl]. rewrite !lookup_apply_write by done. cbn [fst snd with_name p_emails].
    by apply keep_email.
  - intros i. apply id_cell_write.
  - by right.
  - by left.
Qed.

(** New e-mails, which were free, and e-mails that are given up. *)
Lemma emails_step emails added dropped :
  list_ok emails → NoDup emails →
  (∀ e, e ∈ added ↔ e ∈ emails ∧ e ∉ p_emails p) → (∀ e, e ∈ dropped ↔ e ∈ p_emails p ∧ e ∉ emails) →
  (∀ e, e ∈ added → mc !! dir_cell (EmailToId e) = None) →
  represents (replaced d id (Some (with_emails emails p)) ms)
    (virtual id (with_emails emails p)
      (apply_writes ((λ c, (c, None)) <$> (EmailToId <$> dropped))
        (apply_writes ((λ c, (c, Some (ptype_of id p))) <$> (EmailToId <$> added)) mc))).
Proof.
  intros Hl Hnd Hadd Hdrop Hfree. destruct current_ok as ([] & Hid & _).
  assert (∀ l, Forall dclass_ok (EmailToId <$> l)) as Hok by (intros l; apply Forall_fmap, list.Forall_forall; done).
  assert (∀ (l : list (list Z)) e, EmailToId e ∈ EmailToId (T := Z) <$> l ↔ e ∈ l) as Hel.
  { intros l e. rewrite list_elem_of_fmap. split; [by intros (y & [= ->] & ?)|eauto]. }
  apply (principal_step d id ms p mc Hv (with_emails emails p)); try done.
  - apply keys_apply_writes; [apply keys_apply_writes; [exact (virtual_keys d id ms p mc Hv)|]|];
      apply Forall_fmap, Hok.
  - intros c Hc Hno. rewrite (lookup_apply_writes (λ _, None)), (lookup_apply_writes (λ _, Some _)) by done.
    rewrite !decide_False; [done|..]; rewrite list_elem_of_fmap; intros (x & -> & _); done.
  - intros n. rewrite (lookup_apply_writes (λ _, None)), (lookup_apply_writes (λ _, Some _)) by done.
    rewrite !decide_False by (rewrite list_elem_of_fmap; by intros (x & ? & _)). by apply keep_name.
  - intros e. rewrite (lookup_apply_writes (λ _, None)), (lookup_apply_writes (λ _, Some _)) by done.
    cbn [with_emails p_emails]. pose proof (Hel added e) as H1. rewrite Hadd in H1.
    pose proof (Hel dropped e) as H2. rewrite Hdrop in H2. pose proof (current_email d id ms p mc Hv e) as He.
    repeat case_decide; try done; try tauto. apply He. destruct (decide (e ∈ p_emails p)); tauto.
  - intros i. by rewrite !id_cell_write.
  - by left.
  - intros e He. destruct (decide (e ∈ p_emails p)) as [|Hne]; [by left|right]. apply Hfree, Hadd. done.
Qed.
End fields_change.

Section change_principal.
Context `{UnicodeStr} {DB Txn : Type} `{RocksDBLaws DB Txn}.
Context (db : DB) (d : directory) (Hr : represents d (db_map db)).
Context (id : Z) (p : principal Z) (ms : gset (Z * Z)) (mc : store_map).
Hypothesis Hv : represents (replaced d id (Some p) ms) (virtual id p mc).

(** Operations that only set or clear entries, and not the account itself. *)
Definition quiet (op : Operation) : Prop :=
  plain op = true ∧
  match op with
  | OpAccountId _ | OpCollection _ | OpValue (Keys.Directory (Principal _)) _ => False
  | _ => True
  end.

Lemma set_new_emails_spec ptype cur emails batch batch' :
  set_new_emails db ptype cur emails batch = DOk batch' →
  b_ops batch' = b_ops batch ++
    ((λ e, set_op (EmailToId e) (ValueStatic ptype)) <$> base.filter (λ e, e ∉ cur) emails) ∧
  ∀ e, e ∈ emails → e ∉ cur → email_error d e = None.
Proof.
  revert batch. induction emails as [|e emails IH]; intros batch; cbn [set_new_emails].
  { intros [= <-]. rewrite app_nil_r. split; [done|]. by intros e ?%elem_of_nil. }
  rewrite filter_cons. case_bool_decide as Hin.
  - intros [-> Hes]%IH. rewrite decide_False by (intros Hn; by apply Hn). split; [done|].
    intros e' [->|Hin']%elem_of_cons; [done|by apply Hes].
  - rewrite (check_email_spec db d e Hr). destruct (email_error d e) eqn:He; [done|]. cbn [mbind dresult_bind].
    intros [-> Hes]%IH. rewrite decide_True by done. split.
    + rewrite fmap_cons. unfold set_email, set, b_push. cbn [b_ops]. by rewrite <-app_assoc.
    + intros e' [->|Hin']%elem_of_cons; [done|by apply Hes].
Qed.

Lemma email_set_writes ptype (l : list (list Z)) :
  omap (op_write assigned_default) ((λ e, set_op (EmailToId e) (ValueStatic ptype)) <$> l)
  = (λ c, (c, Some ptype)) <$> (EmailToId <$> l).
Proof. induction l as [|e l IH]; [done|]. rewrite !fmap_cons, <-IH. done. Qed.
Lemma email_clear_writes (l : list (list Z)) :
  omap (op_write assigned_default) ((λ e, clear_op (EmailToId e)) <$> l) = (λ c, (c, None)) <$> (EmailToId <$> l).
Proof. induction l as [|e l IH]; [done|]. rewrite !fmap_cons, <-IH. done. Qed.

Lemma quiet_email_ops ptype (added dropped : list (list Z)) :
  Forall quiet (((λ e, set_op (EmailToId e) (ValueStatic ptype)) <$> added) ++
                ((λ e, clear_op (EmailToId e)) <$> dropped)).
Proof. apply Forall_app. split; apply Forall_fmap, list.Forall_forall; done. Qed.

(** A change of the e-mails, by the operations it takes. *)
Lemma emails_change emails added dropped :
  list_ok emails → NoDup emails →
  (∀ e, e ∈ added ↔ e ∈ emails ∧ e ∉ p_emails p) → (∀ e, e ∈ dropped ↔ e ∈ p_emails p ∧ e ∉ emails) →
  (∀ e, e ∈ emails → e ∉ p_emails p → email_error d e = None) →
  let ops := ((λ e, set_op (EmailToId e) (ValueStatic (ptype_of id p))) <$> added) ++
             ((λ e, clear_op (EmailToId e)) <$> dropped) in
  represents (replaced d id (Some (with_emails emails p)) ms)
    (virtual id (with_emails emails p) (apply_writes (omap (op_write assigned_default) ops) mc)).
Proof.
  intros Hl Hnd Hadd Hdrop Herr ops. unfold ops.
  rewrite omap_app, email_set_writes, email_clear_writes, apply_writes_app.
  apply emails_step; try done. intros e [He Hne]%Hadd. eapply free_email; [exact Hv|exact Hr| |done]. by apply Herr.
Qed.

Hypothesis Hsmall : Z.of_nat (length (p_emails p)) ≤ 2 ^ 32.

Lemma with_name_same (q : principal Z) n : p_name q = n → with_name n q = q.
Proof. intros <-. by destruct q. Qed.
Lemma with_emails_same (q : principal Z) l : p_emails q = l → with_emails l q = q.
Proof. intros <-. by destruct q. Qed.

(** The operations a change adds do what it means. *)
Definition change_result (c : PrincipalUpdate) (batch : BatchBuilder) (p' : principal Z)
    (batch' : BatchBuilder) : Prop :=
  ∃ ops, b_ops batch' = b_ops batch ++ ops ∧ Forall quiet ops ∧ p' = changed c p ∧
    ptype_of id p' = ptype_of id p ∧
    represents (replaced d id (Some p') ms)
      (virtual id p' (apply_writes (omap (op_write assigned_default) ops) mc)) ∧
    Z.of_nat (length ops) + 2 * Z.of_nat (length (p_emails p'))
    ≤ 2 * Z.of_nat (length (p_emails p)) + change_size c.

Lemma fields_result c batch p' :
  p' = changed c p → principal_ok p' → p_id p' = id → p_name p' = p_name p → p_emails p' = p_emails p →
  ptype_of id p' = ptype_of id p → change_result c batch p' batch.
Proof.
  intros Hc Hok Hid Hn He Hpt. exists []. rewrite app_nil_r, He. pose proof (change_size_nonneg c).
  split_and!; try done; [|cbn; lia]. by apply (fields_step d id p ms mc Hv).
Qed.

Lemma name_result c s batch p' batch' :
  action c = Set_item → field c = FName → value c = VString s → str_ok (str_to_lowercase s) →
  change_principal db (ptype_of id p) (action c) (field c) (value c) p batch = DOk (p', batch') →
  change_result c batch p' batch'.
Proof.
  destruct c as [ac fd v]. cbn [action field value]. intros -> -> -> Hok. cbn [change_principal].
  destruct (current_ok d id p ms mc Hv) as (Hp & Hid & Hnd). case_bool_decide as Hname.
  - intros [= <- <-]. apply fields_result; try done. unfold changed. cbn [action field value].
    symmetry. by apply with_name_same.
  - rewrite (get_account_id_spec db d Hr). cbn [mbind dresult_bind].
    destruct (find_id d (str_to_lowercase s)) eqn:Hf; [done|]. intros [= <- <-].
    exists [clear_op (NameToId (p_name p)); set_op (NameToId (str_to_lowercase s)) (ValueStatic (ptype_of id p))].
    unfold clear, set, b_push. cbn [b_ops]. rewrite <-app_assoc. split_and!; try done; [by rewrite !Forall_cons| |cbn; lia].
    apply (name_step d id p ms mc Hv); [done|congruence|].
    eapply (free_name d id ms p mc Hv); [exact Hr|done|congruence].
Qed.

Lemma emails_result c emails added dropped batch batch' :
  with_emails emails p = changed c p →
  b_ops batch' = b_ops batch ++ ((λ e, set_op (EmailToId e) (ValueStatic (ptype_of id p))) <$> added) ++
                   ((λ e, clear_op (EmailToId e)) <$> dropped) →
  list_ok emails → NoDup emails →
  (∀ e, e ∈ added ↔ e ∈ emails ∧ e ∉ p_emails p) → (∀ e, e ∈ dropped ↔ e ∈ p_emails p ∧ e ∉ emails) →
  (∀ e, e ∈ emails → e ∉ p_emails p → email_error d e = None) →
  Z.of_nat (length added) + Z.of_nat (length dropped) + 2 * Z.of_nat (length emails)
  ≤ 2 * Z.of_nat (length (p_emails p)) + change_size c →
  change_result c batch (with_emails emails p) batch'.
Proof.
  intros Hc Hops Hl Hnd Hadd Hdrop Herr Hsize. eexists. split_and!; [exact Hops|apply quiet_email_ops|done|done| |].
  - by apply emails_change.
  - rewrite length_app, !length_fmap. cbn [with_emails p_emails]. lia.
Qed.

Lemma set_emails_result c l batch p' batch' :
  action c = Set_item → field c = FEmails → value c = VStringList l →
  list_ok (str_to_lowercase <$> l) → NoDup (str_to_lowercase <$> l) →
  change_principal db (ptype_of id p) (action c) (field c) (value c) p batch = DOk (p', batch') →
  change_result c batch p' batch'.
Proof.
  destruct c as [ac fd v]. cbn [action field value]. intros -> -> -> Hl Hnd. cbn [change_principal].
  set (emails := str_to_lowercase <$> l) in *.
  destruct (set_new_emails db _ _ emails batch) as [b1|] eqn:Hs; [|done]. cbn [mbind dresult_bind]. intros [= <- <-].
  apply set_new_emails_spec in Hs as [Hb1 Herr].
  apply (emails_result _ emails (base.filter (λ e, e ∉ p_emails p) emails) (base.filter (λ e, e ∉ emails) (p_emails p)));
    try done.
  - rewrite (foldl_ops _ (λ e, if bool_decide (e ∈ emails) then [] else [clear_op (EmailToId e)])).
    + rewrite bind_unless, Hb1, <-app_assoc. done.
    + intros b e. case_bool_decide; [by rewrite app_nil_r|done].
  - intros e. rewrite list_elem_of_filter. tauto.
  - intros e. rewrite list_elem_of_filter. tauto.
  - pose proof (length_filter (λ e, e ∉ p_emails p) emails). pose proof (length_filter (λ e, e ∉ emails) (p_emails p)).
    unfold change_size. cbn [value]. assert (length emails = length l) by apply length_fmap. lia.
Qed.

Lemma add_email_result c s batch p' batch' :
  action c = AddItem → field c = FEmails → value c = VString s → str_ok (str_to_lowercase s) →
  change_principal db (ptype_of id p) (action c) (field c) (value c) p batch = DOk (p', batch') →
  change_result c batch p' batch'.
Proof.
  destruct c as [ac fd v]. cbn [action field value]. intros -> -> -> Hok. cbn [change_principal].
  destruct (current_ok d id p ms mc Hv) as (Hp & Hid & Hnd). set (e := str_to_lowercase s) in *.
  case_bool_decide as Hin.
  - intros [= <- <-]. apply fields_result; try done. unfold changed. cbn [action field value]. by rewrite decide_True.
  - rewrite (check_email_spec db d e Hr). destruct (email_error d e) eqn:Herr; [done|]. cbn [mbind dresult_bind].
    intros [= <- <-]. apply (emails_result _ _ [e] []).
    + unfold changed. cbn [action field value]. by rewrite decide_False.
    + done.
    + split; [apply Forall_app; split; [apply Hp|by constructor]|]. rewrite length_app. unfold uint_ok. cbn. lia.
    + apply NoDup_app. split_and!; [done|set_solver|apply NoDup_singleton].
    + set_solver.
    + set_solver.
    + intros x [?| ->%list_elem_of_singleton]%elem_of_app ?; done.
    + rewrite length_app. unfold change_size. cbn. lia.
Qed.

Lemma remove_email_result c s batch p' batch' :
  action c = RemoveItem → field c = FEmails → value c = VString s →
  change_principal db (ptype_of id p) (action c) (field c) (value c) p batch = DOk (p', batch') →
  change_result c batch p' batch'.
Proof.
  destruct c as [ac fd v]. cbn [action field value]. intros -> -> ->. cbn [change_principal].
  destruct (current_ok d id p ms mc Hv) as (Hp & Hid & Hnd). set (e := str_to_lowercase s) in *.
  pose proof (length_filter (λ x, x ≠ e) (p_emails p)) as Hlen.
  case_bool_decide as Hin.
  - rewrite remove_first_filter by done. intros [= <- <-]. apply (emails_result _ _ [] [e]); try done.
    + destruct (po_emails _ Hp) as [Hall Hu]. split; [|unfold uint_ok in *; lia].
      rewrite list.Forall_forall in Hall |- *. intros x [_ Hx]%list_elem_of_filter. by apply Hall.
    + by apply NoDup_filter.
    + intros x. rewrite list_elem_of_filter, elem_of_nil. tauto.
    + intros x. rewrite list_elem_of_filter, list_elem_of_singleton. destruct (decide (x = e)) as [->|]; naive_solver.
    + intros x [_ Hx]%list_elem_of_filter ?. done.
    + unfold change_size. cbn. lia.
  - intros [= <- <-]. apply fields_result; try done. unfold changed. cbn [action field value].
    rewrite filter_all; [symmetry; by apply with_emails_same|]. intros x Hx ->. done.
Qed.

Lemma change_principal_spec c batch p' batch' :
  is_membership (field c) = false → change_ok d id c →
  change_principal db (ptype_of id p) (action c) (field c) (value c) p batch = DOk (p', batch') →
  change_result c batch p' batch'.
Proof.
  destruct (current_ok d id p ms mc Hv) as (Hp & Hid & Hnd). destruct c as [ac fd v].
  destruct ac, fd, v as [s|l|q]; try done; unfold change_ok; cbn [action field value]; intros _ Hok Hch.
  - by eapply name_result.
  - cbn [change_principal] in Hch. destruct (type_parse s) as [t|] eqn:Ht; [|done].
    destruct (is_person (p_typ p)) eqn:Hp1; [|done]. destruct (is_person t) eqn:Hp2; [|done].
    injection Hch as <- <-. destruct Hp. apply fields_result; try done.
    + unfold changed. cbn [action field value]. by rewrite Ht.
    + unfold ptype_of. do 2 f_equal. cbn [with_typ p_typ]. by destruct (p_typ p), t.
  - injection Hch as <- <-. destruct Hp. by apply fields_result.
  - injection Hch as <- <-. destruct Hp. apply fields_result; try done.
    + unfold changed. cbn [action field value]. by case_bool_decide; case_decide.
    + split; try done. cbn. by case_bool_decide.
  - injection Hch as <- <-. destruct Hp. by apply fields_result.
  - destruct Hok. by eapply set_emails_result.
  - by eapply add_email_result.
  - by eapply remove_email_result.
Qed.
End change_principal.

(** ** The loop *)

Section update.
Context `{UnicodeStr} {DB Txn : Type} `{StoreWriteLaws DB Txn}.
Context (db : DB) (d : directory) (Hr : represents d (db_map db)) (id : Z) (ptype : list Z).

(** What the batch would write. *)
Definition pending (u : update) : store_map :=
  apply_writes (omap (op_write assigned_default) (b_ops (u_batch u))) (db_map db).

Record updating (u : update) (ms : gset (Z * Z)) : Prop := {
  up_represents : represents (replaced d id (Some (u_principal u)) ms)
    (virtual id (u_principal u) (pending u));
  up_quiet : Forall quiet (b_ops (u_batch u));
  up_type : ptype_of id (u_principal u) = ptype;
  up_member_of : NoDup (u_member_of u) ∧ ∀ g, g ∈ u_member_of u ↔ (id, g) ∈ ms;
  up_members : NoDup (u_members u) ∧ ∀ a, a ∈ u_members u ↔ (a, id) ∈ ms;
  up_self : (id, id) ∉ ms;
}.

(** Operations so far and the ones that the lists may still need. *)
Definition weight (u : update) : Z :=
  Z.of_nat (length (b_ops (u_batch u))) + 2 * Z.of_nat (length (p_emails (u_principal u)))
  + 2 * Z.of_nat (length (u_member_of u)) + 2 * Z.of_nat (length (u_members u)).

Lemma quiet_pair_ops (f : Z → Z * Z) joined left :
  Forall quiet ((joined ≫= λ x, join_ops (Static (f x).1) (Static (f x).2))
                ++ (left ≫= λ x, leave_ops (Static (f x).1) (Static (f x).2))).
Proof.
  apply Forall_app. split; apply list.Forall_forall; intros op (x & Hop & _)%list_elem_of_bind;
    repeat apply elem_of_cons in Hop as [->|Hop]; try done; by apply elem_of_nil in Hop.
Qed.

Lemma pending_app u u' ops :
  b_ops (u_batch u') = b_ops (u_batch u) ++ ops →
  pending u' = apply_writes (omap (op_write assigned_default) ops) (pending u).
Proof. intros Hb. unfold pending. by rewrite Hb, omap_app, apply_writes_app. Qed.

Lemma membership_names_ok c :
  is_membership (field c) = true → change_ok d id c →
  (∀ l, value c = VStringList l → NoDup l) ∧ (id ∉ named_accounts d (value c)).
Proof.
  destruct c as [ac fd v]. unfold change_ok. cbn [field value].
  destruct fd; try done; intros _; destruct v as [n|l|]; cbn [named_accounts]; intros Hok;
    (split; [by intros ? [= <-]; destruct Hok|]);
    first [by destruct Hok|by intros ?%elem_of_nil|destruct (find_id d n); cbn; set_solver].
Qed.

(** Both kinds of membership: the pairs [f x] of the account. *)
Lemma pairs_change c u ms (f : Z → Z * Z) mine link unlink cur cur' batch' :
  updating u ms → is_membership (field c) = true → change_ok d id c →
  (∀ x batch, b_ops (link x batch) = b_ops batch ++ join_ops (Static (f x).1) (Static (f x).2)) →
  (∀ x batch, b_ops (unlink x batch) = b_ops batch ++ leave_ops (Static (f x).1) (Static (f x).2)) →
  (∀ x y, f x = f y → x = y) → (∀ ag, mine ag = true ↔ ∃ x, ag = f x) →
  (∀ x, f x = (id, x) ∨ f x = (x, id)) → NoDup cur → (∀ x, x ∈ cur ↔ f x ∈ ms) →
  change_members db link unlink (action c) (value c) cur (u_batch u) = DOk (cur', batch') →
  let ms' := changed_pairs d c f mine ms in
  represents (replaced d id (Some (u_principal u)) ms')
    (virtual id (u_principal u) (apply_writes (omap (op_write assigned_default) (b_ops batch')) (db_map db))) ∧
  Forall quiet (b_ops batch') ∧ NoDup cur' ∧ (∀ x, x ∈ cur' ↔ f x ∈ ms') ∧
  (∀ ag, mine ag = false → ag ∈ ms' ↔ ag ∈ ms) ∧ ((id, id) ∉ ms') ∧
  Z.of_nat (length (b_ops batch')) + 2 * Z.of_nat (length cur')
  ≤ Z.of_nat (length (b_ops (u_batch u))) + 2 * Z.of_nat (length cur) + change_size c.
Proof.
  intros [Hv Hq Ht _ _ Hself] Hf Hok Hlink Hunlink Hinj Hmine Hfid Hnd Hcur Hch ms'.
  destruct (membership_names_ok c Hf Hok) as [Hl Hnid].
  apply (change_members_spec db d Hr f) in Hch
    as (joined & left & Hb & Hnd' & Hlc & Hj & Hle & Hsz); [|done..].
  pose proof (changed_pairs_spec d c f mine ms _ _ Hinj Hmine Hlc Hcur) as Hms'.
  assert (f id = (id, id)) as Hfii by (by destruct (Hfid id)).
  assert (∀ x, x ∈ cur' ↔ f x ∈ ms') as Hcur'.
  { intros x. unfold ms'. rewrite Hms'. split; [eauto|]. intros [(y & ->%Hinj & ?)|[Hx _] ]; [done|].
    assert (mine (f x) = true) by (apply Hmine; eauto). congruence. }
  split_and!; [|..|rewrite Hb, !length_app, !(bind_length _ 2) by done; lia]; try done.
  - rewrite Hb, !omap_app, !apply_writes_app, join_writes, leave_writes.
    eapply (members_change d id _ ms _ Hv); try done. intros x. by eapply named_accounts_exist.
  - rewrite Hb. apply Forall_app. split; [done|apply quiet_pair_ops].
  - intros ag Hm. unfold ms'. rewrite Hms'. split; [|by right]. intros [(x & -> & _)|[_ ?] ]; [|done].
    assert (mine (f x) = true) by (apply Hmine; eauto). congruence.
  - rewrite <-Hfii, <-Hcur'. intros Hin%Hlc. rewrite <-Hfii, <-Hcur in Hself. destruct (action c); tauto.
Qed.

Lemma membership_change c u u' ms :
  updating u ms → is_membership (field c) = true → change_ok d id c →
  apply_change db id ptype c u = DOk u' →
  updating u' (changed_members d id c ms) ∧ u_principal u' = u_principal u ∧ weight u' ≤ weight u + change_size c.
Proof.
  intros Hu Hf Hok. unfold apply_change, changed_members. pose proof Hu as [Hv Hq Ht [Hnd1 Hmo] [Hnd2 Hme] Hself].
  destruct (field c) eqn:Hfc; try done; intros ([cur' batch'] & Hch & [= <-])%dresult_bind_ok.
  - apply (pairs_change c u ms (λ g, (id, g)) (λ ag, bool_decide (ag.1 = id))) in Hch
      as (Hv' & Hq' & Hnd' & Hcur' & Hother & Hself' & Hsz); try done; [|by rewrite Hfc|intros; apply join_ops_eq
        |intros; apply leave_ops_eq|by intros ?? [= ->]|intros [a g]; rewrite bool_decide_eq_true; naive_solver|by left].
    split; [split|split; [done|unfold weight; cbn; lia]]; try done.
    split; [done|]. intros a. rewrite Hme. destruct (decide (a = id)) as [->|Hne]; [naive_solver|].
    symmetry. apply Hother. by apply bool_decide_eq_false.
  - apply (pairs_change c u ms (λ a, (a, id)) (λ ag, bool_decide (ag.2 = id))) in Hch
      as (Hv' & Hq' & Hnd' & Hcur' & Hother & Hself' & Hsz); try done; [|by rewrite Hfc|intros; apply join_ops_eq
        |intros; apply leave_ops_eq|by intros ?? [= ->]|intros [a g]; rewrite bool_decide_eq_true; naive_solver|by right].
    split; [split|split; [done|unfold weight; cbn; lia]]; try done.
    split; [done|]. intros g. rewrite Hmo. destruct (decide (g = id)) as [->|Hne]; [naive_solver|].
    symmetry. apply Hother. by apply bool_decide_eq_false.
Qed.

Lemma changed_membership_same c p : is_membership (field c) = true → changed c p = p.
Proof. destruct c as [[] [] []]; done. Qed.
Lemma changed_fields_same c ms : is_membership (field c) = false → changed_members d id c ms = ms.
Proof. destruct c as [[] [] []]; done. Qed.

Lemma apply_change_spec c u u' ms :
  updating u ms → change_ok d id c → weight u ≤ 2 ^ 32 → apply_change db id ptype c u = DOk u' →
  updating u' (changed_members d id c ms) ∧ u_principal u' = changed c (u_principal u) ∧
  weight u' ≤ weight u + change_size c.
Proof.
  intros Hu Hok Hw Hch. destruct (is_membership (field c)) eqn:Hf.
  { rewrite changed_membership_same by done. by apply membership_change. }
  rewrite changed_fields_same by done. pose proof Hu as [Hv Hq Ht Hmo Hme Hself]. unfold weight in Hw.
  assert (∃ p' batch', change_principal db ptype (action c) (field c) (value c) (u_principal u) (u_batch u) = DOk (p', batch') ∧
    u' = {| u_principal := p'; u_member_of := u_member_of u; u_members := u_members u; u_batch := batch' |})
    as (p' & batch' & Hcp & ->).
  { unfold apply_change in Hch. destruct (field c); try done;
      apply dresult_bind_ok in Hch as ([p' batch'] & Hcp & [= <-]); eauto. }
  rewrite <-Ht in Hcp. apply (change_principal_spec db d Hr id _ ms _ Hv) in Hcp
    as (ops & Hb & Hqo & Hp' & Hpt & Hv' & Hsz); [|lia|done|done].
  split; [split|split]; try done.
  - cbn [u_principal u_batch]. erewrite pending_app by exact Hb. exact Hv'.
  - cbn [u_batch]. rewrite Hb. by apply Forall_app.
  - cbn [u_principal]. congruence.
  - unfold weight. cbn [u_principal u_member_of u_members u_batch]. rewrite Hb, length_app. lia.
Qed.

Definition total_size (changes : list PrincipalUpdate) : Z := foldr (λ c z, change_size c + z) 0 changes.

Lemma apply_changes_spec changes u u' ms :
  updating u ms → Forall (change_ok d id) changes → weight u + total_size changes ≤ 2 ^ 32 →
  apply_changes db id ptype changes u = DOk u' →
  updating u' (foldl (λ ms c, changed_members d id c ms) ms changes) ∧
  u_principal u' = foldl (λ p c, changed c p) (u_principal u) changes ∧
  weight u' ≤ weight u + total_size changes.
Proof.
  intros Hu Hok. revert u ms Hu. induction Hok as [|c changes Hc Hok IH]; intros u ms Hu Hw; cbn [apply_changes foldl total_size foldr].
  { intros [= <-]. split_and!; [done..|]. lia. }
  intros (u1 & Hch & Hrec)%dresult_bind_ok. cbn [total_size foldr] in Hw. fold (total_size changes) in *.
  assert (0 ≤ total_size changes) as Hnn.
  { clear. induction changes as [|c l IH]; cbn; [lia|]. pose proof (change_size_nonneg c). unfold total_size in IH. lia. }
  pose proof (change_size_nonneg c).
  apply (apply_change_spec c u u1 ms) in Hch as (Hu1 & Hp1 & Hw1); [|done|done|lia].
  apply (IH _ _ Hu1) in Hrec as (Hu' & Hp' & Hw'); [|lia]. rewrite Hp1 in Hp'. split_and!; [done..|lia].
Qed.

(** The record of an account is not among the other entries. *)
Lemma quiet_principal ops m i :
  Forall quiet ops →
  apply_writes (omap (op_write assigned_default) ops) m !! dir_cell (Principal i) = m !! dir_cell (Principal i).
Proof.
  intros Hops. revert m. induction Hops as [|op ops [_ Hop] Hops IH]; intros m; [done|]. cbn [omap list_omap].
  destruct (op_write assigned_default op) as [[c o]|] eqn:Hw; [|apply IH].
  unfold apply_writes. cbn [foldl]. fold (apply_writes (omap (op_write assigned_default) ops) (apply_write m (c, o))).
  rewrite IH. assert (dir_cell c ≠ dir_cell (Principal i)) as Hne.
  { destruct op as [| | | | |cl [v| | |] | | |]; try done; destruct cl as [| | | | |dc| | | | |]; try done; cbn in Hw.
    - destruct (value_resolve v assigned_default); [|done]. injection Hw as <- <-. by destruct dc.
    - injection Hw as <- <-. by destruct dc. }
  destruct o; unfold apply_write; cbn [fst snd]; [by rewrite lookup_insert_ne|by rewrite lookup_delete_ne].
Qed.

Lemma updating_start p member_of members batch :
  accounts d !! id = Some p → ptype_of id p = ptype →
  (NoDup member_of ∧ ∀ g, g ∈ member_of ↔ (id, g) ∈ membership d) →
  (NoDup members ∧ ∀ a, a ∈ members ↔ (a, id) ∈ membership d) → (id, id) ∉ membership d →
  Forall quiet (b_ops batch) → omap (op_write assigned_default) (b_ops batch) = [] →
  updating {| u_principal := p; u_member_of := member_of; u_members := members; u_batch := batch |} (membership d).
Proof.
  intros Hp Ht Hmo Hme Hself Hq Hno. split; try done. unfold pending. cbn [u_principal u_batch]. rewrite Hno.
  change (apply_writes [] (db_map db)) with (db_map db).
  assert (replaced d id (Some p) (membership d) = d) as ->.
  { unfold replaced. destruct d as [accs ms doms]. cbn in *. f_equal. apply map_eq. intros i.
    rewrite lookup_partial_alter. case_decide; [by subst|done]. }
  assert (uint_ok 32 id) as Hid by (eapply account_id_ok; [apply Hr|done]).
  unfold virtual. rewrite insert_id; [done|]. by rewrite (re_account _ _ Hr), Hp.
Qed.

End update.

Section update_account.
Context `{UnicodeStr} {DB Txn : Type} `{StoreWriteLaws DB Txn} (xxh3_64 : list Z → Z).

Lemma get_hashed_spec (db : DB) d id :
  represents d (db_map db) → uint_ok 32 id →
  get_value (hashed_deserialize xxh3_64) db (dir_key (Principal id))
  = Ok ((λ p, (hashed_assert xxh3_64 (principal_serialize p), p)) <$> accounts d !! id).
Proof.
  intros Hr Hid. rewrite get_dir_value, (re_account _ _ Hr) by done.
  destruct (accounts d !! id) as [p|] eqn:Hp; [|done]. cbn [fmap option_fmap option_map].
  unfold hashed_deserialize. rewrite principal_roundtrip; [done|]. by eapply (do_account d (re_ok _ _ Hr)).
Qed.

Lemma quiet_ops_ok b ops : Forall quiet ops → Forall (λ op, plain op = true) ops ∧ ops_ok b U8_MAX ops.
Proof.
  intros Hq. assert (Forall (λ op, plain op = true) ops) as Hplain by (eapply Forall_impl; [done|]; by intros ? []).
  split; [done|]. apply plain_ops_ok; [|done]. intros op Hin. rewrite list.Forall_forall in Hq.
  destruct (Hq op Hin) as [_ Hn]. by destruct op.
Qed.

(** The entries after the final batch. *)
Lemma update_final b (db db' : DB) d id ptype u ms (upd : bool) ids :
  store_ok b (db_map db) → 0 ≤ b ≤ 2 ^ 31 → represents d (db_map db) → updating db d id ptype u ms →
  weight u ≤ 10 ^ 7 → (upd = false → accounts d !! id = Some (u_principal u)) →
  store_write (build (if upd
    then set (dir_class (Principal (Static id))) (ValueStatic (principal_serialize (u_principal u))) (u_batch u)
    else u_batch u)) db = Ok (ids, db') →
  represents (replaced d id (Some (u_principal u)) ms) (db_map db').
Proof.
  intros Hdb Hb Hr [Hv Hq _ _ _ _] Hw Hsame Hwrite. unfold weight in Hw.
  destruct (quiet_ops_ok b _ Hq) as [Hplain Hok]. destruct upd.
  - apply (write_plain_spec b) in Hwrite; [|done|lia|..].
    + rewrite Hwrite. unfold set, b_push. cbn [b_ops]. rewrite omap_app, apply_writes_app. exact Hv.
    + unfold set, b_push. cbn [b_ops]. rewrite length_app. cbn [length]. lia.
    + apply Forall_app. split; [done|by constructor].
    + by apply ops_ok_snoc.
  - apply (write_plain_spec b) in Hwrite; [|done|lia|lia|done|done]. rewrite Hwrite.
    assert (accounts d !! id = Some (u_principal u)) as Hp by auto.
    assert (uint_ok 32 id) as Hid by (eapply account_id_ok; [apply Hr|done]).
    unfold virtual in Hv. rewrite insert_id in Hv; [exact Hv|]. unfold pending.
    rewrite quiet_principal by done. by rewrite (re_account _ _ Hr), Hp.
Qed.

(** A request about memberships only leaves the fields as they are. *)
Lemma unchanged changes p :
  negb (bool_decide (changes = [])) && negb (forallb (λ c, is_membership (field c)) changes) = false →
  foldl (λ p c, changed c p) p changes = p.
Proof.
  intros Hn. assert (forallb (λ c, is_membership (field c)) changes = true) as Hall.
  { destruct changes as [|c changes]; [done|]. cbn [negb andb] in Hn. by apply negb_false_iff in Hn. }
  clear Hn. induction changes as [|c changes IH]; [done|]. cbn [forallb foldl] in *.
  apply andb_true_iff in Hall as [Hc Hall]. rewrite changed_membership_same by done. by apply IH.
Qed.

(** An update that succeeds leaves the store representing the directory
    with the account changed as the changes say, one after the other: its
    fields, its name and e-mails with the entries that lead to it, its groups
    and its members.  No other account changes. *)
Lemma update_account_spec b (db db' : DB) d by_ changes :
  store_ok b (db_map db) → 0 ≤ b ≤ 2 ^ 31 → represents d (db_map db) → dir_small d →
  match by_ with ById id => uint_ok 32 id | ByName _ => True end →
  (∀ id, names_account d by_ id → Forall (change_ok d id) changes ∧ (id, id) ∉ membership d) →
  total_size changes ≤ 10 ^ 6 →
  update_account xxh3_64 by_ changes db = DOk db' →
  ∃ id p, names_account d by_ id ∧ accounts d !! id = Some p ∧
    represents (replaced d id (Some (foldl (λ p c, changed c p) p changes))
      (foldl (λ ms c, changed_members d id c ms) (membership d) changes)) (db_map db').
Proof.
  intros Hdb Hb Hr Hsmall Hby Hok Hsz. unfold update_account.
  intros (id & Hres & Hupd)%dresult_bind_ok. apply (resolve_spec _ d) in Hres; [|done].
  destruct (Hok id Hres) as [Hch Hself].
  assert (uint_ok 32 id) as Hid.
  { destruct by_ as [n|i]; cbn in Hres; [|by subst]. eapply find_id_Some in Hres as (q & Hq & _); [|done].
    eapply account_id_ok; [apply Hr|done]. }
  rewrite (get_hashed_spec db d id Hr Hid) in Hupd. cbn [lift mbind dresult_bind] in Hupd.
  destruct (accounts d !! id) as [p|] eqn:Hp; [|done]. cbn [fmap option_fmap option_map ok_or_not_found mbind dresult_bind] in Hupd.
  destruct (get_member_of_spec _ d Hr id Hid) as (gs & Hgs & Hnd & Hg).
  destruct (get_members_spec _ d Hr id Hid) as (mms & Hms & Hnd' & Hm).
  rewrite Hgs, Hms in Hupd. cbn [mbind dresult_bind] in Hupd.
  set (upd := negb (bool_decide (changes = [])) && _) in Hupd.
  apply dresult_bind_ok in Hupd as (u & Hchs & Hupd).
  apply dresult_bind_ok in Hupd as ([ids db1] & Hw%lift_ok & [= ->]).
  match type of Hchs with apply_changes _ _ _ _ ?u0 = _ => set (start := u0) in Hchs end.
  assert (updating db d id (ptype_of id p) start (membership d)) as Hstart.
  { apply (updating_start db d Hr); try done; destruct upd; by repeat constructor. }
  assert (weight start ≤ 7 * 10 ^ 6) as Hws.
  { unfold weight, start. cbn [u_principal u_member_of u_members u_batch].
    pose proof (ds_membership _ Hsmall). pose proof (ds_emails _ Hsmall id p Hp).
    pose proof (members_length (membership d) (λ g, (id, g)) gs Hnd ltac:(by intros ?? [= ->]) ltac:(intros; by apply Hg)).
    pose proof (members_length (membership d) (λ a, (a, id)) mms Hnd' ltac:(by intros ?? [= ->]) ltac:(intros; by apply Hm)).
    assert (length (b_ops (if upd then builder_new » assert_value (dir_class (Principal (Static id)))
      (hashed_assert xxh3_64 (principal_serialize p)) else builder_new)) ≤ 1)%nat by (by destruct upd; cbn; lia). lia. }
  apply (apply_changes_spec db d Hr id (ptype_of id p) changes start u (membership d)) in Hchs
    as (Hu & Hpu & Hwu); [|done|done|lia].
  exists id, p. split_and!; [done..|]. change (u_principal start) with p in Hpu. rewrite <-Hpu.
  eapply update_final; [exact Hdb|exact Hb|exact Hr|exact Hu|lia| |exact Hw].
  intros Hn. rewrite Hp, Hpu. f_equal. symmetry. by apply unchanged.
Qed.
End update_account.
