(* ===== verification/DirectoryInvariant.v ===== *)
(** * The directory stays consistent

    Any sequence of management operations leaves the store representing a
    directory: every name and every e-mail leads to the one account that has
    it, memberships are recorded on both sides, and relate accounts that
    exist.  What the operations do to the directory is stated for each of
    them. *)

From stdpp Require Import base gmap sorting strings numbers list relations.
From S2P Require Import Prelude Codec Keys KeyTheory KeyOrder Roaring Kv KvModel Batch Commit CommitTheory Read Store Utf8 Text Words ClearLoop Query AclTheory Blob BlobTheory Directory DirectoryCodec DirectoryTheory DirectoryManage DirectoryUpdate DirectoryChange.
Import Dir.
Open Scope Z_scope.
Open Scope bytes_scope.

(** ** Domains *)

Definition with_domains (d : directory) (doms : gset (list Z)) : directory :=
  {| accounts := accounts d; membership := membership d; domains := doms |}.

Lemma represents_domains d m m' doms :
  represents d m →
  (∀ k v, m' !! (SUBSPACE_DIRECTORY, k) = Some v → ∃ c, dclass_ok c ∧ dir_cell c = (SUBSPACE_DIRECTORY, k)) →
  (∀ c, dclass_ok c → (∀ n, c ≠ Domain n) → m' !! dir_cell c = m !! dir_cell c) →
  (∀ n, is_Some (m' !! dir_cell (Domain n)) ↔ n ∈ doms) →
  (∀ i, m' !! id_cell i = m !! id_cell i) → represents (with_domains d doms) m'.
Proof.
  intros Hr Hkeys Hsame Hdom Hid. split; try done.
  - destruct (re_ok _ _ Hr) as [H1 H2]. by split.
  - intros i Hi. rewrite Hsame by done. by apply (re_account _ _ Hr).
  - intros n v. rewrite Hsame by done. apply (re_name _ _ Hr).
  - intros e v. rewrite Hsame by done. apply (re_email _ _ Hr).
  - intros a g Ha Hg. rewrite Hsame by done. by apply (re_member_of _ _ Hr).
  - intros a g Ha Hg. rewrite Hsame by done. by apply (re_members _ _ Hr).
  - intros i p Hp. rewrite Hid. by eapply (re_id _ _ Hr).
Qed.

Section domains.
Context `{UnicodeStr} {DB Txn : Type} `{StoreWriteLaws DB Txn}.

Lemma write_domain_spec b (db db' : DB) d n o ids :
  store_ok b (db_map db) → 0 ≤ b ≤ 2 ^ 31 → represents d (db_map db) →
  store_write (build (b_push (OpValue (dir_class (Domain n)) (match o with Some v => Set_ (ValueStatic v) | None => Clear end))
    builder_new)) db = Ok (ids, db') →
  represents (with_domains d (if o is Some _ then {[n]} ∪ domains d else domains d ∖ {[n]})) (db_map db').
Proof.
  intros Hdb Hb Hr Hw. apply (write_plain_spec b) in Hw; [|done|lia|cbn; lia| |].
  2: { constructor; [|constructor]. by destruct o. }
  2: { destruct o; by repeat constructor. }
  assert (db_map db' = apply_writes [(Domain n, o)] (db_map db)) as Hm by (rewrite Hw; by destruct o).
  rewrite Hm. apply (represents_domains d (db_map db)); [done|..].
  - apply keys_apply_writes; [apply (re_keys _ _ Hr)|by constructor].
  - intros c Hc Hne. unfold apply_writes. cbn [foldl]. rewrite lookup_apply_write by done. cbn [fst].
    by rewrite decide_False.
  - intros x. unfold apply_writes. cbn [foldl]. rewrite lookup_apply_write by done. cbn [fst snd].
    pose proof (re_domain _ _ Hr x) as Hx. destruct (decide (Domain x = Domain n)) as [[= ->]|Hne].
    + destruct o; [set_solver|]. split; [by intros []|set_solver].
    + assert (x ≠ n) by congruence. rewrite Hx. destruct o; set_solver.
  - intros i. apply id_cell_write.
Qed.

Lemma create_domain_spec b (db db' : DB) d n :
  store_ok b (db_map db) → 0 ≤ b ≤ 2 ^ 31 → represents d (db_map db) → create_domain n db = DOk db' →
  represents (with_domains d ({[str_to_lowercase n]} ∪ domains d)) (db_map db').
Proof.
  intros Hdb Hb Hr. unfold create_domain. destruct (str_contains _ n); [|done].
  intros ([ids db1] & Hw%lift_ok & [= ->])%dresult_bind_ok. by eapply (write_domain_spec b _ _ _ _ (Some [])).
Qed.
Lemma delete_domain_spec b (db db' : DB) d n :
  store_ok b (db_map db) → 0 ≤ b ≤ 2 ^ 31 → represents d (db_map db) → delete_domain n db = DOk db' →
  represents (with_domains d (domains d ∖ {[str_to_lowercase n]})) (db_map db').
Proof.
  intros Hdb Hb Hr. unfold delete_domain. destruct (str_contains _ n); [|done].
  intros ([ids db1] & Hw%lift_ok & [= ->])%dresult_bind_ok. by eapply (write_domain_spec b _ _ _ _ None).
Qed.
End domains.

(** ** Sequences of operations *)

Section invariant.
Context `{UnicodeStr} {DB Txn : Type} `{StoreWriteLaws DB Txn} (xxh3_64 : list Z → Z).

(** The requests that a management client sends. *)
Inductive request :=
  | CreateAccount (p : principal (list Z)) (members : list (list Z))
  | GetOrCreate (name : list Z)
  | UpdateAccount (by_ : QueryBy) (changes : list PrincipalUpdate)
  | DeleteAccount (by_ : QueryBy)
  | CreateDomain (n : list Z)
  | DeleteDomain (n : list Z).

Definition run (r : request) (db : DB) : dresult DB :=
  match r with
  | CreateAccount p members => '(_, db) ← create_account p members db; DOk db
  | GetOrCreate name => '(_, db) ← get_or_create_account_id name db; DOk db
  | UpdateAccount by_ changes => update_account xxh3_64 by_ changes db
  | DeleteAccount by_ => delete_account by_ db
  | CreateDomain n => create_domain n db
  | DeleteDomain n => delete_domain n db
  end.

Definition by_ok (by_ : QueryBy) : Prop := match by_ with ById id => uint_ok 32 id | ByName _ => True end.

(** Strings are strings of the program, sizes are moderate, no e-mail, group
    or member is listed twice, and no account is made a member of itself. *)
Definition request_ok (d : directory) (r : request) : Prop :=
  match r with
  | CreateAccount p members => create_request_ok p members
  | GetOrCreate name => str_ok (str_to_lowercase name)
  | UpdateAccount by_ changes =>
      by_ok by_ ∧ total_size changes ≤ 10 ^ 6 ∧
      ∀ id, names_account d by_ id → Forall (change_ok d id) changes ∧ (id, id) ∉ membership d
  | DeleteAccount by_ => by_ok by_
  | CreateDomain _ | DeleteDomain _ => True
  end.

(** The rest of the store that a deletion works on. *)
Record store_sound (b : Z) (m : store_map) : Prop := {
  ss_store : store_ok b m;
  ss_bound : 0 ≤ b ≤ 2 ^ 31;
  ss_blobs : blobs_ok m;
  ss_acls : acls_ok m;
  ss_links h a col x : link_ok h a col x → is_Some (m !! (SUBSPACE_BLOB_LINK, link_row h a col x)) → x < b;
  ss_docs g a col x : acl_ids_ok g a col x → is_Some (m !! (SUBSPACE_ACL, acl_row g a col x)) → x < b;
}.

(** One request, served or refused.  Between requests other parts of the
    server may change the store, but not the directory. *)
Inductive dir_step : DB → DB → Prop :=
  | step_request b db db' r :
      store_sound b (db_map db) →
      (∀ d, represents d (db_map db) → dir_small d ∧ request_ok d r) →
      run r db = DOk db' → dir_step db db'
  | step_refused db r e : run r db = DErr e → dir_step db db
  | step_other db db' :
      (∀ k, db_map db' !! (SUBSPACE_DIRECTORY, k) = db_map db !! (SUBSPACE_DIRECTORY, k)) →
      (∀ i, db_map db' !! id_cell i = db_map db !! id_cell i) → dir_step db db'.

Definition consistent (db : DB) : Prop := ∃ d, represents d (db_map db).

Lemma request_consistent b (db db' : DB) d r :
  store_sound b (db_map db) → represents d (db_map db) → dir_small d → request_ok d r →
  run r db = DOk db' → consistent db'.
Proof.
  intros [Hs Hb Hbl Hac Hli Hdo] Hr Hsm Hok. destruct r as [p members|name|by_ changes|by_|n|n]; cbn [run request_ok] in *.
  - intros ([id db1] & Hc & [= ->])%dresult_bind_ok.
    eapply create_account_spec in Hc as (? & ? & _ & _ & Hr' & _); try done. by eexists.
  - intros ([id db1] & Hc & [= ->])%dresult_bind_ok.
    eapply get_or_create_spec in Hc as [[_ ->]|(_ & _ & Hr')]; try done; by eexists.
  - destruct Hok as (Hby & Hsz & Hch). intros Hu.
    eapply update_account_spec in Hu as (id & p & _ & _ & Hr'); try done. by eexists.
  - intros Hd. eapply delete_account_spec in Hd as (id & p & _ & _ & Hr' & _); try done; [by eexists|].
    intros h a col x Hl _. by apply (Hli h a col x).
  - intros Hd. eapply create_domain_spec in Hd; try done. by eexists.
  - intros Hd. eapply delete_domain_spec in Hd; try done. by eexists.
Qed.

(** C14: Whatever requests the server serves or refuses, and in whatever
    order, the store keeps representing a directory, as long as no request
    names an e-mail, a group or a member twice in one list or updates an
    account that is or becomes a member of itself, and strings and sizes stay within
    the bounds of [request_ok] and [store_sound].  Between the requests other
    parts of the server may write, but not to the directory. *)
Theorem directory_invariant (db db' : DB) :
  consistent db → rtc dir_step db db' → consistent db'.
Proof.
  intros Hc Hsteps. induction Hsteps as [|db db1 db' Hstep Hsteps IH]; [done|]. apply IH. clear IH Hsteps.
  destruct Hc as [d Hr]. destruct Hstep as [b db db1 r Hs Hreq Hrun|db r e _|db db1 Hdir Hid].
  - destruct (Hreq d Hr) as [Hsm Hok]. by eapply request_consistent.
  - by exists d.
  - exists d. apply (represents_ext d (db_map db)); [done|done|]. intros i. by rewrite Hid.
Qed.
End invariant.

(** ** Lookups *)

Section lookup.
Context `{UnicodeStr} {DB Txn : Type} `{RocksDBLaws DB Txn} (verify_secret : principal Z → list Z → bool).

(** The account a lookup is about, and the secret it must prove. *)
Definition query_account (d : directory) (q : Query_) : option Z :=
  match q with
  | QueryManage (ById id) => Some id
  | QueryManage (ByName n) | QueryCredentials (Plain n _) | QueryCredentials (OAuthBearer n)
  | QueryCredentials (XOauth2 n _) => find_id d n
  end.
Definition query_secret (q : Query_) : option (list Z) :=
  match q with
  | QueryManage _ => None
  | QueryCredentials (Plain _ s) | QueryCredentials (OAuthBearer s) | QueryCredentials (XOauth2 _ s) => Some s
  end.

Lemma query_found (db : DB) d q rm id :
  represents d (db_map db) → query_account d q = Some id → uint_ok 32 id →
  query verify_secret db q rm
  = match accounts d !! id with
    | Some p =>
        if match query_secret q with Some s => verify_secret p s | None => true end then
          if rm then member_of ← get_member_of db id; DOk (Some (with_member_of member_of p)) else DOk (Some p)
        else DOk None
    | None => DOk None
    end.
Proof.
  intros Hr Hq Hid. assert (query verify_secret db q rm
    = (found ← get_principal db id;
       match (found : option (principal Z)) with
       | Some p => if match query_secret q with Some s => verify_secret p s | None => true end then
            if rm then member_of ← get_member_of db (p_id p); DOk (Some (with_member_of member_of p)) else DOk (Some p)
          else DOk None
       | None => DOk None
       end)) as ->.
  { unfold query. destruct q as [[n|i]|[n s|s|n s] ]; cbn [query_account query_secret] in *;
      rewrite ?(get_account_id_spec db d Hr); cbn [mbind dresult_bind]; rewrite ?Hq; try done.
    by injection Hq as ->. }
  rewrite (get_principal_spec db d Hr id Hid). cbn [mbind dresult_bind].
  destruct (accounts d !! id) as [p|] eqn:Hp; [|done].
  destruct (do_account _ (re_ok _ _ Hr) id p Hp) as (_ & <- & _). done.
Qed.

Lemma query_missing (db : DB) d q rm :
  represents d (db_map db) → query_account d q = None → query verify_secret db q rm = DOk None.
Proof.
  intros Hr Hq. unfold query. destruct q as [[n|i]|[n s|s|n s] ]; cbn [query_account] in *; try done;
    rewrite (get_account_id_spec db d Hr), Hq; done.
Qed.

(** C19: A lookup by name, by id or by credentials returns an account exactly
    when the directory has it and the secret, if one is given, is accepted
    for that account; asked for its groups, it returns each group once and
    nothing else. *)
Theorem query_exact (db : DB) d q o :
  represents d (db_map db) → match q with QueryManage by_ => by_ok by_ | _ => True end →
  query verify_secret db q true = DOk o →
  match o with
  | None => ∀ id p, query_account d q = Some id → accounts d !! id = Some p →
      ∃ s, query_secret q = Some s ∧ verify_secret p s = false
  | Some r => ∃ id p groups, query_account d q = Some id ∧ accounts d !! id = Some p ∧
      (∀ s, query_secret q = Some s → verify_secret p s = true) ∧
      r = with_member_of groups p ∧ NoDup groups ∧ ∀ g, g ∈ groups ↔ (id, g) ∈ membership d
  end.
Proof.
  intros Hr Hby Hq. destruct (query_account d q) as [id|] eqn:Hacc.
  2: { rewrite (query_missing db d) in Hq by done. by injection Hq as <-. }
  assert (uint_ok 32 id) as Hid.
  { assert (∀ n, find_id d n = Some id → uint_ok 32 id) as Hf.
    { intros n Hn. eapply find_id_Some in Hn as (p & Hp & _); [|done]. eapply account_id_ok; [apply Hr|done]. }
    destruct q as [[n|i]|[n s|s|n s] ]; cbn in Hacc; eauto. by injection Hacc as <-. }
  rewrite (query_found db d q true id) in Hq by done. destruct (accounts d !! id) as [p|] eqn:Hp.
  2: { injection Hq as <-. intros id' p [= <-] Hp'. congruence. }
  destruct (query_secret q) as [s|] eqn:Hs; [destruct (verify_secret p s) eqn:Hv|].
  - destruct (get_member_of_spec db d Hr id Hid) as (groups & Hg & Hnd & Hgs).
    rewrite Hg in Hq. injection Hq as <-. exists id, p, groups. split_and!; try done. by intros ? [= <-].
  - injection Hq as <-. intros id' p' [= <-] Hp'. rewrite Hp in Hp'. injection Hp' as <-. eauto.
  - destruct (get_member_of_spec db d Hr id Hid) as (groups & Hg & Hnd & Hgs).
    rewrite Hg in Hq. injection Hq as <-. exists id, p, groups. by split_and!.
Qed.

Lemma email_to_ids_spec (db : DB) d e id p :
  represents d (db_map db) → accounts d !! id = Some p → e ∈ p_emails p →
  ∃ ids, email_to_ids db e = DOk ids ∧ NoDup ids ∧
    ∀ x, x ∈ ids ↔ if decide (into_base_type (p_typ p) = List_) then (x, id) ∈ membership d else x = id.
Proof.
  intros Hr Hp He. unfold email_to_ids. rewrite get_dir_value.
  assert (db_map db !! dir_cell (EmailToId e) = Some (ptype_of id p)) as -> by (apply (re_email _ _ Hr); eauto).
  assert (uint_ok 32 id) as Hid by (eapply account_id_ok; [apply Hr|done]).
  unfold ptype_of. rewrite id_type_roundtrip by done. cbn [fmap result_fmap lift mbind dresult_bind pt_typ pt_account_id].
  destruct (decide (into_base_type (p_typ p) = List_)) as [Hl|Hl].
  - rewrite decide_False by (intros Hn; by apply Hn). by apply get_members_spec.
  - rewrite decide_True by done. exists [id]. split_and!; [done|apply NoDup_singleton|].
    intros x. by rewrite list_elem_of_singleton.
Qed.
End lookup.

(** ** The operations, one by one *)

Section operations.
Context `{UnicodeStr} {DB Txn : Type} `{StoreWriteLaws DB Txn}.

(** C18: An account that was created is found: under its lowercase name, by its
    id with the requested fields, and its e-mails deliver to it, or, for a
    mailing list, to its members.  Its groups are the named ones and its
    members the named ones, in both directions: each member's groups gain the
    account, each group's members gain it, and no other account's groups or
    members change.  Its id was no account's before, and every other name
    leads where it led.  The store is well formed and represents a directory,
    and the request names no e-mail twice and has a moderate size. *)
Theorem create_account_found b (db db' : DB) d p members id :
  store_ok b (db_map db) → 0 ≤ b ≤ 2 ^ 31 → represents d (db_map db) → create_request_ok p members →
  create_account p members db = DOk (id, db') →
  ∃ groups ids, create_check d p members = inl (groups, ids) ∧ accounts d !! id = None ∧
    get_account_id db' (str_to_lowercase (p_name p)) = DOk (Some id) ∧
    get_principal db' id = DOk (Some (stored id (new_principal p groups))) ∧
    (∃ gs, get_member_of db' id = DOk gs ∧ NoDup gs ∧ ∀ g, g ∈ gs ↔ g ∈ groups ∨ (g = id ∧ id ∈ ids)) ∧
    (∀ e, e ∈ p_emails p → ∃ to, email_to_ids db' (str_to_lowercase e) = DOk to ∧
       ∀ x, x ∈ to ↔ if decide (p_typ p = List_) then x ∈ ids ∨ (x = id ∧ id ∈ groups) else x = id) ∧
    (∃ ms, get_members db' id = DOk ms ∧ NoDup ms ∧ ∀ a, a ∈ ms ↔ a ∈ ids ∨ (a = id ∧ id ∈ groups)) ∧
    (∀ a, uint_ok 32 a → a ≠ id → ∃ gs, get_member_of db' a = DOk gs ∧
       ∀ g, g ∈ gs ↔ (a, g) ∈ membership d ∨ (g = id ∧ a ∈ ids)) ∧
    (∀ g, uint_ok 32 g → g ≠ id → ∃ ms, get_members db' g = DOk ms ∧
       ∀ a, a ∈ ms ↔ (a, g) ∈ membership d ∨ (a = id ∧ g ∈ groups)) ∧
    ∀ n, n ≠ str_to_lowercase (p_name p) → get_account_id db' n = get_account_id db n.
Proof.
  intros Hs Hb Hr Hreq Hc.
  destruct (create_account_spec b db db' d p members id Hs Hb Hr Hreq Hc) as (groups & ids & Hck & Hnone & Hr' & _).
  set (q := stored id (new_principal p groups)) in *. set (d' := replaced _ _ _ _) in Hr'.
  assert (accounts d' !! id = Some q) as Hq by (cbn; by rewrite lookup_partial_alter_eq).
  assert (uint_ok 32 id) as Hid by (eapply account_id_ok; [apply Hr'|exact Hq]).
  assert (∀ g, (id, g) ∉ membership d) as Hno1 by (intros g [[? Hx] _]%(do_member _ (re_ok _ _ Hr)); congruence).
  assert (∀ a, (a, id) ∉ membership d) as Hno2 by (intros a [_ [? Hx] ]%(do_member _ (re_ok _ _ Hr)); congruence).
  exists groups, ids. split_and!; [done|done|..].
  - rewrite (get_account_id_spec db' d' Hr'). f_equal. apply (find_id_Some d' (db_map db')); [done|]. by exists q.
  - by rewrite (get_principal_spec db' d' Hr' id Hid), Hq.
  - destruct (get_member_of_spec db' d' Hr' id Hid) as (gs & Hgs & Hnd & Hg). exists gs. split_and!; [done..|].
    intros g. rewrite Hg. cbn. rewrite elem_of_union, elem_of_created_members. specialize (Hno1 g). naive_solver.
  - intros e He. destruct (email_to_ids_spec db' d' (str_to_lowercase e) id q Hr' Hq) as (to & Hto & _ & Hx).
    { cbn. apply list_elem_of_fmap. eauto. }
    exists to. split; [done|]. intros x. rewrite Hx. change (p_typ q) with (p_typ p).
    assert (into_base_type (p_typ p) = List_ ↔ p_typ p = List_) as Hbase by (by destruct (p_typ p)).
    destruct (decide (p_typ p = List_)); [rewrite decide_True by tauto|by rewrite decide_False by tauto].
    cbn. rewrite elem_of_union, elem_of_created_members. specialize (Hno2 x). naive_solver.
  - destruct (get_members_spec db' d' Hr' id Hid) as (ms & Hms & Hnd & Hm). exists ms. split_and!; [done..|].
    intros a. rewrite Hm. cbn. rewrite elem_of_union, elem_of_created_members. specialize (Hno2 a). naive_solver.
  - intros a Ha Hne. destruct (get_member_of_spec db' d' Hr' a Ha) as (gs & Hgs & _ & Hg). exists gs. split; [done|].
    intros g. rewrite Hg. cbn. rewrite elem_of_union, elem_of_created_members. naive_solver.
  - intros g Hg Hne. destruct (get_members_spec db' d' Hr' g Hg) as (ms & Hms & _ & Hm). exists ms. split; [done|].
    intros a. rewrite Hm. cbn. rewrite elem_of_union, elem_of_created_members. naive_solver.
  - intros n Hn. rewrite (get_account_id_spec db' d' Hr'), (get_account_id_spec db d Hr). f_equal.
    apply option_eq. intros i. rewrite (find_id_Some d' (db_map db')), (find_id_Some d (db_map db)) by done.
    cbn. setoid_rewrite lookup_partial_alter. split.
    + intros (r & Hx & Hrn). case_decide; [|eauto]. injection Hx as <-. by rewrite <-Hrn in Hn.
    + intros (r & Hx & Hrn). exists r. split; [|done]. rewrite decide_False; [done|]. intros <-. congruence.
Qed.

(** C15: An update that names no e-mail, group or member twice in one list, on
    an account that neither is nor becomes a member of itself, leaves, when it
    succeeds,
    the store representing the directory with the account changed as the
    changes say, one after the other: its fields, its name and e-mails with
    the entries that lead to it, its groups and its members.  No other account
    changes. *)
Theorem update_account_refines (xxh3_64 : list Z → Z) b (db db' : DB) d by_ changes :
  store_ok b (db_map db) → 0 ≤ b ≤ 2 ^ 31 → represents d (db_map db) → dir_small d → by_ok by_ →
  (∀ id, names_account d by_ id → Forall (change_ok d id) changes ∧ (id, id) ∉ membership d) →
  total_size changes ≤ 10 ^ 6 → update_account xxh3_64 by_ changes db = DOk db' →
  ∃ id p, names_account d by_ id ∧ accounts d !! id = Some p ∧
    represents (replaced d id (Some (foldl (λ p c, changed c p) p changes))
      (foldl (λ ms c, changed_members d id c ms) (membership d) changes)) (db_map db').
Proof. apply update_account_spec. Qed.

End operations.

(** ** A small directory *)

(** The tables restricted to ASCII. *)
Definition ascii_str : UnicodeStr := {|
  str_to_lowercase := fmap to_ascii_lowercase;
  split_whitespace := λ s, base.filter (λ w, w ≠ [])
    (str_split 32 ((λ ch, if is_ascii_whitespace ch then 32 else ch) <$> s));
|}.

Lemma represents_empty : represents dir_empty ∅.
Proof.
  split; unfold dir_empty; cbn [accounts membership domains].
  - split; unfold dir_empty; cbn [accounts membership]; intros *; [by rewrite lookup_empty|set_solver].
  - intros k v. by rewrite lookup_empty.
  - intros id _. by rewrite !lookup_empty.
  - intros n v. rewrite lookup_empty. split; [done|]. intros (? & ? & Hl & _). by rewrite lookup_empty in Hl.
  - intros n v. rewrite lookup_empty. split; [done|]. intros (? & ? & Hl & _). by rewrite lookup_empty in Hl.
  - intros a g _ _. rewrite lookup_empty. split; [by intros []|set_solver].
  - intros a g _ _. rewrite lookup_empty. split; [by intros []|set_solver].
  - intros n. rewrite lookup_empty. split; [by intros []|set_solver].
  - intros id p. by rewrite lookup_empty.
Qed.

#[local] Existing Instance ascii_str.
#[local] Existing Instance example_write.

(** A group, and an account that joins it. *)
Definition staff : principal (list Z) := with_typ Group (with_name (str_bytes "Staff") principal_default).
Definition alice : principal (list Z) :=
  with_emails [str_bytes "Alice"] (with_member_of [str_bytes "staff"] (with_name (str_bytes "alice") (principal_default (T := Z)))).

Definition created (r : dresult (Z * LogDb.DB)) : Z * LogDb.DB :=
  match r with DOk x => x | DErr _ => (0, []) end.
Definition staff_id : Z := Eval vm_compute in (created (create_account staff [] ([] : LogDb.DB))).1.
Definition staff_db : LogDb.DB := Eval vm_compute in (created (create_account staff [] ([] : LogDb.DB))).2.
Definition alice_id : Z := Eval vm_compute in (created (create_account alice [] staff_db)).1.
Definition alice_db : LogDb.DB := Eval vm_compute in (created (create_account alice [] staff_db)).2.

Lemma staff_created : create_account staff [] ([] : LogDb.DB) = DOk (staff_id, staff_db).
Proof. vm_compute. reflexivity. Qed.
Lemma alice_created : create_account alice [] staff_db = DOk (alice_id, alice_db).
Proof. vm_compute. reflexivity. Qed.

(** Well-formedness of a log, event by event. *)
Definition event_ok (b : Z) (e : Z * list Z * option (list Z)) : Prop :=
  match e.2 with Some v => cell_ok b e.1 v | None => True end.
#[local] Instance event_ok_dec b e : Decision (event_ok b e).
Proof. unfold event_ok, cell_ok, doc_key_ok, bytes_ok. destruct e as [c [v|] ]; apply _. Defined.

Lemma store_ok_log b (db : LogDb.DB) : Forall (event_ok b) db → store_ok b (LogDb.log_map db).
Proof.
  induction 1 as [|[c [v|] ] db He Hdb IH]; [apply store_ok_empty|..]; cbn [LogDb.log_map foldr].
  - by apply (store_ok_insert b (LogDb.log_map db) c v).
  - by apply (store_ok_delete b (LogDb.log_map db) c).
Qed.

Lemma log_lookup_other (db : LogDb.DB) s k :
  Forall (λ e, e.1.1 ≠ s) db → LogDb.log_map db !! (s, k) = None.
Proof.
  induction 1 as [|e db He Hdb IH]; [apply lookup_empty|]. cbn [LogDb.log_map foldr].
  rewrite LogDb.lookup_apply_event, decide_False; [exact IH|]. intros Hc. by rewrite Hc in He.
Qed.

Lemma staff_request : create_request_ok staff [].
Proof. split; try (apply (bool_decide_unpack _); by vm_compute); done. Qed.
Lemma alice_request : create_request_ok alice [].
Proof. split; try (apply (bool_decide_unpack _); by vm_compute); done. Qed.
Lemma staff_db_ok : store_ok 100 (db_map staff_db).
Proof. apply store_ok_log. apply (bool_decide_unpack _). by vm_compute. Qed.
Lemma alice_db_ok : store_ok 1000 (db_map alice_db).
Proof. apply store_ok_log. apply (bool_decide_unpack _). by vm_compute. Qed.

(** The directories of the two stores. *)
Definition staff_dir : directory :=
  {| accounts := {[staff_id := stored staff_id (new_principal staff [])]}; membership := ∅; domains := ∅ |}.
Definition alice_dir : directory :=
  replaced staff_dir alice_id (Some (stored alice_id (new_principal alice [staff_id])))
    (∅ ∪ created_members alice_id [staff_id] []).

Lemma staff_represents : represents staff_dir (db_map staff_db).
Proof.
  destruct (@create_account_spec ascii_str _ _ _ _ example_write example_write_laws 100 [] staff_db dir_empty staff []
    staff_id) as (gs & ids & Hck & _ & Hr & _); [apply store_ok_empty|lia|apply represents_empty|exact staff_request
    |exact staff_created|].
  vm_compute in Hck. injection Hck as <- <-. exact Hr.
Qed.
Lemma alice_represents : represents alice_dir (db_map alice_db).
Proof.
  destruct (@create_account_spec ascii_str _ _ _ _ example_write example_write_laws 100 staff_db alice_db staff_dir alice []
    alice_id) as (gs & ids & Hck & _ & Hr & _); [exact staff_db_ok|lia|exact staff_represents|exact alice_request
    |exact alice_created|].
  vm_compute in Hck. injection Hck as <- <-. exact Hr.
Qed.

Lemma represents_nil : represents dir_empty (db_map ([] : LogDb.DB)).
Proof. exact represents_empty. Qed.

Lemma create_account_refused_witness :
  create_account alice [] ([] : LogDb.DB) = DErr (Management (NotFound (str_bytes "staff"))).
Proof.
  apply (@create_account_refused ascii_str _ _ _ _ example_write [] dir_empty alice [] (NotFound (str_bytes "staff"))
    represents_nil). vm_compute. reflexivity.
Defined.

Lemma create_account_found_witness :
  get_account_id alice_db (str_bytes "alice") = DOk (Some alice_id).
Proof.
  destruct (@create_account_found ascii_str _ _ _ _ example_write example_write_laws 100 staff_db alice_db staff_dir alice []
    alice_id staff_db_ok ltac:(lia) staff_represents alice_request alice_created) as (gs & ids & _ & _ & Hid & _).
  exact Hid.
Defined.

Lemma alice_accounts : accounts alice_dir !! alice_id = Some (stored alice_id (new_principal alice [staff_id])).
Proof. vm_compute. reflexivity. Qed.

Lemma query_exact_witness :
  match query (λ _ s, bool_decide (s = str_bytes "secret")) alice_db
          (QueryCredentials (Plain (str_bytes "alice") (str_bytes "secret"))) true with
  | DOk (Some r) => staff_id ∈ p_member_of r
  | _ => False
  end.
Proof.
  destruct (query _ alice_db _ true) as [o|e] eqn:E; [|by vm_compute in E].
  pose proof (@query_exact _ _ _ _ _ alice_db alice_dir
    (QueryCredentials (Plain (str_bytes "alice") (str_bytes "secret"))) o alice_represents I E) as Hq.
  destruct o as [r|].
  - destruct Hq as (id & p & groups & Hid & _ & _ & -> & _ & Hg). vm_compute in Hid. injection Hid as <-.
    apply Hg. vm_compute. done.
  - destruct (Hq alice_id _ eq_refl alice_accounts) as (s & [= <-] & Hs). by vm_compute in Hs.
Defined.

Lemma empty_small d : represents d ∅ → dir_small d.
Proof.
  intros Hr. assert (∀ id p, accounts d !! id ≠ Some p) as Hno.
  { intros id p Hp. pose proof (re_account _ _ Hr id (account_id_ok _ _ _ (re_ok _ _ Hr) Hp)) as Ha.
    by rewrite lookup_empty, Hp in Ha. }
  split; [|intros id p Hp; by apply Hno in Hp].
  assert (membership d = ∅) as ->; [|done]. apply elem_of_equiv_empty_L. intros [a g] Hin.
  apply (do_member _ (re_ok _ _ Hr)) in Hin as [[p Hp] _]. by apply Hno in Hp.
Qed.

Lemma log_sound b (db : LogDb.DB) :
  0 ≤ b ≤ 2 ^ 31 → Forall (event_ok b) db →
  Forall (λ e, e.1.1 ∉ [SUBSPACE_BLOB_LINK; SUBSPACE_BLOB_RESERVE; SUBSPACE_ACL]) db → store_sound b (db_map db).
Proof.
  intros Hb Hok Hno. assert (∀ s k, s ∈ [SUBSPACE_BLOB_LINK; SUBSPACE_BLOB_RESERVE; SUBSPACE_ACL] →
    db_map db !! (s, k) = None) as Hnone.
  { intros s k Hs. apply log_lookup_other. eapply Forall_impl; [exact Hno|]. intros e He Heq. apply He. by rewrite Heq. }
  split; [by apply store_ok_log|done|split; intros k v|intros k v|intros h a col x _|intros g a col x _];
    rewrite Hnone by set_solver; try done; by intros [].
Qed.

Lemma directory_invariant_witness : consistent staff_db.
Proof.
  apply (@directory_invariant ascii_str _ _ _ _ example_write example_write_laws (λ _, 0) []).
  - exists dir_empty. exact represents_nil.
  - apply rtc_once. apply (step_request _ 100 _ _ (CreateAccount staff [])).
    + apply (log_sound 100 []); [lia|constructor..].
    + intros d Hr. split; [by apply empty_small|exact staff_request].
    + cbn [run]. by rewrite staff_created.
Defined.

Lemma alice_small : dir_small alice_dir.
Proof.
  split; [apply (bool_decide_unpack _); by vm_compute|]. intros id p. unfold alice_dir, replaced. cbn [accounts].
  rewrite lookup_partial_alter. case_decide; [intros [= <-]; apply (bool_decide_unpack _); by vm_compute|].
  unfold staff_dir. cbn [accounts]. rewrite lookup_singleton_Some. intros [_ <-].
  apply (bool_decide_unpack _). by vm_compute.
Qed.

(** Alice takes another name and leaves the group. *)
Definition rename_and_leave : list PrincipalUpdate :=
  [{| action := Set_item; field := FName; value := VString (str_bytes "Bob") |};
   {| action := RemoveItem; field := FMemberOf; value := VString (str_bytes "staff") |}].

Lemma update_account_refines_witness :
  match update_account (λ _, 0) (ById alice_id) rename_and_leave alice_db with
  | DOk db' => get_account_id db' (str_bytes "bob") = DOk (Some alice_id)
  | DErr _ => False
  end.
Proof.
  destruct (update_account _ _ _ alice_db) as [db'|e] eqn:E; [|by vm_compute in E].
  destruct (@update_account_refines ascii_str _ _ _ _ example_write example_write_laws (λ _, 0) 1000 alice_db db' alice_dir
    (ById alice_id) rename_and_leave alice_db_ok ltac:(lia) alice_represents alice_small) as (id & p & Hid & Hp & Hr).
  - apply (bool_decide_unpack _). by vm_compute.
  - intros id <-. split; [|by vm_compute].
        unfold rename_and_leave. rewrite !Forall_cons. split_and!; [apply (bool_decide_unpack _); by vm_compute|by vm_compute|constructor].
  - by vm_compute.
  - exact E.
  - cbn in Hid. subst id. rewrite (get_account_id_spec db' _ Hr). rewrite alice_accounts in Hp. injection Hp as <-.
    vm_compute. reflexivity.
Defined.


(** ** Requests that name something twice *)

(** An e-mail that is listed twice and then removed stays on the account, but
    leads nowhere. *)
Definition twice_then_removed : list PrincipalUpdate :=
  [{| action := Set_item; field := FEmails; value := VStringList [str_bytes "a"; str_bytes "a"] |};
   {| action := RemoveItem; field := FEmails; value := VString (str_bytes "a") |}].

Example duplicate_email_lost :
  match update_account (λ _, 0) (ById alice_id) twice_then_removed alice_db with
  | DOk db' =>
      match get_principal db' alice_id with
      | DOk (Some p) => bool_decide (str_bytes "a" ∈ p_emails p)
      | _ => false
      end = true ∧ rcpt db' (str_bytes "a") = DOk false
  | DErr _ => False
  end.
Proof. vm_compute. done. Qed.
