(* ===== verification/Smtp.v ===== *)
(** * The messages of the outbound queue

    [smtp/src/queue/mod.rs], the parts of [smtp/src/queue/manager.rs],
    [quota.rs], [throttle.rs], [dsn.rs] and [smtp/src/outbound/delivery.rs]
    that compute on one message: its recipients, their domains, the times at
    which something is to be done next, expiry, retries and the quotas it
    holds.  Times are seconds ([u64]); a reading of the clock is an argument. *)

From stdpp Require Import base gmap sorting strings numbers list.
From S2P Require Import Prelude Codec Keys Batch.
Open Scope Z_scope.
Open Scope bytes_scope.

Module Smtp.

Definition u64_add (a b : Z) : Z := wrap 64 (a + b).

(** ** Data *)

(** [Schedule<u32>] *)
Record Schedule := { s_due : Z; s_inner : Z }.

(** [smtp_proto::Response<String>] *)
Record Response := { code : Z; esc : Z * Z * Z; r_message : list Z }.
Record ErrorDetails := { entity : list Z; details : list Z }.
Record HostResponse (T : Type) := { hostname : T; response : Response }.
Arguments hostname {_} _.
Arguments response {_} _.
Arguments Build_HostResponse {_} _ _.

Inductive Error :=
  | DnsError (err : list Z)
  | UnexpectedResponse (response : HostResponse ErrorDetails)
  | ConnectionError (details : ErrorDetails)
  | TlsError (details : ErrorDetails)
  | DaneError (details : ErrorDetails)
  | MtaStsError (details : list Z)
  | RateLimited
  | ConcurrencyLimited
  | Io (err : list Z).

Inductive Status (T E : Type) :=
  | Scheduled
  | Completed (t : T)
  | TemporaryFailure (e : E)
  | PermanentFailure (e : E).
Arguments Scheduled {_ _}.
Arguments Completed {_ _} _.
Arguments TemporaryFailure {_ _} _.
Arguments PermanentFailure {_ _} _.

Definition DomainStatus : Type := Status unit Error.
Definition RcptStatus : Type := Status (HostResponse (list Z)) (HostResponse ErrorDetails).

Record Domain := {
  d_domain : list Z;
  d_retry : Schedule;
  d_notify : Schedule;
  d_expires : Z;
  d_status : DomainStatus;
}.

Record Recipient := {
  rc_domain_idx : nat;
  rc_address : list Z;
  rc_address_lcase : list Z;
  rc_status : RcptStatus;
  rc_flags : Z;
  rc_orcpt : option (list Z);
}.

Definition RCPT_DSN_SENT : Z := Z.shiftl 1 32.
Definition RCPT_STATUS_CHANGED : Z := Z.shiftl 2 32.

Inductive QuotaKey :=
  | QSize (key : list Z) (id : Z)
  | QCount (key : list Z) (id : Z).

Record Message := {
  m_id : Z;
  m_created : Z;
  m_blob_hash : list Z;
  m_return_path : list Z;
  m_return_path_lcase : list Z;
  m_return_path_domain : list Z;
  m_recipients : list Recipient;
  m_domains : list Domain;
  m_flags : Z;
  m_env_id : option (list Z);
  m_priority : Z;
  m_size : Z;
  m_quota_keys : list QuotaKey;
}.

(** ** Field updates *)

Definition set_rc_status (s : RcptStatus) (r : Recipient) : Recipient :=
  {| rc_domain_idx := rc_domain_idx r; rc_address := rc_address r;
     rc_address_lcase := rc_address_lcase r; rc_status := s; rc_flags := rc_flags r;
     rc_orcpt := rc_orcpt r |}.
(** [rcpt.flags |= flags] *)
Definition add_flags (flags : Z) (r : Recipient) : Recipient :=
  {| rc_domain_idx := rc_domain_idx r; rc_address := rc_address r;
     rc_address_lcase := rc_address_lcase r; rc_status := rc_status r;
     rc_flags := Z.lor (rc_flags r) flags; rc_orcpt := rc_orcpt r |}.

Definition set_d_status (s : DomainStatus) (d : Domain) : Domain :=
  {| d_domain := d_domain d; d_retry := d_retry d; d_notify := d_notify d;
     d_expires := d_expires d; d_status := s |}.
Definition set_d_retry (s : Schedule) (d : Domain) : Domain :=
  {| d_domain := d_domain d; d_retry := s; d_notify := d_notify d;
     d_expires := d_expires d; d_status := d_status d |}.
Definition set_d_notify (s : Schedule) (d : Domain) : Domain :=
  {| d_domain := d_domain d; d_retry := d_retry d; d_notify := s;
     d_expires := d_expires d; d_status := d_status d |}.
Definition set_d_expires (e : Z) (d : Domain) : Domain :=
  {| d_domain := d_domain d; d_retry := d_retry d; d_notify := d_notify d;
     d_expires := e; d_status := d_status d |}.

Definition set_parties (ds : list Domain) (rs : list Recipient) (m : Message) : Message :=
  {| m_id := m_id m; m_created := m_created m; m_blob_hash := m_blob_hash m;
     m_return_path := m_return_path m; m_return_path_lcase := m_return_path_lcase m;
     m_return_path_domain := m_return_path_domain m; m_recipients := rs; m_domains := ds;
     m_flags := m_flags m; m_env_id := m_env_id m; m_priority := m_priority m;
     m_size := m_size m; m_quota_keys := m_quota_keys m |}.
Definition set_domains (ds : list Domain) (m : Message) : Message :=
  set_parties ds (m_recipients m) m.
Definition set_recipients (rs : list Recipient) (m : Message) : Message :=
  set_parties (m_domains m) rs m.
Definition set_content (hash : list Z) (size : Z) (m : Message) : Message :=
  {| m_id := m_id m; m_created := m_created m; m_blob_hash := hash;
     m_return_path := m_return_path m; m_return_path_lcase := m_return_path_lcase m;
     m_return_path_domain := m_return_path_domain m; m_recipients := m_recipients m;
     m_domains := m_domains m; m_flags := m_flags m; m_env_id := m_env_id m;
     m_priority := m_priority m; m_size := size; m_quota_keys := m_quota_keys m |}.
Definition set_quota_keys (ks : list QuotaKey) (m : Message) : Message :=
  {| m_id := m_id m; m_created := m_created m; m_blob_hash := m_blob_hash m;
     m_return_path := m_return_path m; m_return_path_lcase := m_return_path_lcase m;
     m_return_path_domain := m_return_path_domain m; m_recipients := m_recipients m;
     m_domains := m_domains m; m_flags := m_flags m; m_env_id := m_env_id m;
     m_priority := m_priority m; m_size := m_size m; m_quota_keys := ks |}.

(** ** Status *)

(** [Status::into_permanent], [Status::into_temporary] *)
Definition into_permanent {T E} (s : Status T E) : Status T E :=
  match s with TemporaryFailure v => PermanentFailure v | v => v end.
Definition into_temporary {T E} (s : Status T E) : Status T E :=
  match s with PermanentFailure err => TemporaryFailure err | other => other end.

(** [matches!(status, Scheduled | TemporaryFailure(_))] *)
Definition is_active {T E} (s : Status T E) : bool :=
  match s with Scheduled | TemporaryFailure _ => true | _ => false end.
(** [matches!(status, Completed(_) | PermanentFailure(_))] *)
Definition is_final {T E} (s : Status T E) : bool :=
  match s with Completed _ | PermanentFailure _ => true | _ => false end.

(** [Recipient::has_flag], [Message::has_flag]: any of the bits *)
Definition has_flag (flags flag : Z) : bool := negb (Z.land flags flag =? 0).

(** [DomainPart]: [rsplit_once('@')] *)
Fixpoint domain_part_loop (found : option (list Z)) (s : list Z) : option (list Z) :=
  match s with
  | [] => found
  | c :: s => domain_part_loop (if c =? 64 then Some s else found) s
  end.
Definition domain_part (s : list Z) : list Z := default [] (domain_part_loop None s).

(** ** When something is to be done *)

(** [Message::next_event] *)
Definition next_event_step (acc : Z * bool) (d : Domain) : Z * bool :=
  if is_active (d_status d) then
    let '(next_event, has_events) := acc in
    let next_event :=
      if negb has_events || (s_due (d_retry d) <? next_event) then s_due (d_retry d)
      else next_event in
    let next_event := if s_due (d_notify d) <? next_event then s_due (d_notify d) else next_event in
    let next_event := if d_expires d <? next_event then d_expires d else next_event in
    (next_event, true)
  else acc.
Definition next_event (now : Z) (m : Message) : option Z :=
  let '(next_event, has_events) := foldl next_event_step (now, false) (m_domains m) in
  if has_events then Some next_event else None.

(** [Message::next_delivery_event] *)
Fixpoint next_delivery_loop (pos : nat) (next_delivery : Z) (ds : list Domain) : Z :=
  match ds with
  | [] => next_delivery
  | d :: ds =>
      next_delivery_loop (S pos)
        (if bool_decide (pos = 0%nat) || (s_due (d_retry d) <? next_delivery)
         then s_due (d_retry d) else next_delivery) ds
  end.
Definition next_delivery_event (now : Z) (m : Message) : Z :=
  next_delivery_loop 0 now (filter (λ d, is_active (d_status d) = true) (m_domains m)).

(** [Message::next_event_after] *)
Definition earlier (instant time : Z) (next_event : option Z) : option Z :=
  if (instant <? time) && (if next_event is Some ne then time <? ne else true)
  then Some time else next_event.
Definition next_event_after_step (instant : Z) (next_event : option Z) (d : Domain) : option Z :=
  if is_active (d_status d) then
    earlier instant (d_expires d)
      (earlier instant (s_due (d_notify d))
        (earlier instant (s_due (d_retry d)) next_event))
  else next_event.
Definition next_event_after (instant : Z) (m : Message) : option Z :=
  foldl (next_event_after_step instant) None (m_domains m).

(** ** Expiry: [Message::has_pending_delivery] *)

Definition expire_recipient (idx : nat) (r : Recipient) : Recipient :=
  if decide (rc_domain_idx r = idx) then set_rc_status (into_permanent (rc_status r)) r else r.

(** One domain: with the recipients after it, and whether it is pending. *)
Definition expire_domain (now : Z) (idx : nat) (d : Domain) (rs : list Recipient)
    : Domain * list Recipient * bool :=
  match d_status d with
  | TemporaryFailure _ =>
      if d_expires d <=? now then
        (set_d_status (into_permanent (d_status d)) d, expire_recipient idx <$> rs, false)
      else (d, rs, true)
  | Scheduled =>
      if d_expires d <=? now then
        (set_d_status (PermanentFailure (Io (str_bytes "Queue rate limit exceeded."))) d,
         expire_recipient idx <$> rs, false)
      else (d, rs, true)
  | Completed _ | PermanentFailure _ => (d, rs, false)
  end.
Fixpoint pending_loop (now : Z) (idx : nat) (ds : list Domain) (rs : list Recipient)
    : list Domain * list Recipient * bool :=
  match ds with
  | [] => ([], rs, false)
  | d :: ds =>
      let '(d, rs, pending) := expire_domain now idx d rs in
      let '(ds, rs, pendings) := pending_loop now (S idx) ds rs in
      (d :: ds, rs, pending || pendings)
  end.
Definition has_pending_delivery (now : Z) (m : Message) : bool * Message :=
  let '(ds, rs, pending) := pending_loop now 0 (m_domains m) (m_recipients m) in
  (pending, set_parties ds rs m).

(** ** Retries *)

(** [Domain::retry]; indexing an empty schedule panics: [None]. *)
Definition retry (now : Z) (schedule : list Z) (d : Domain) : option Domain :=
  wait ← schedule !! Nat.min (Z.to_nat (s_inner (d_retry d))) (length schedule - 1);
  Some (set_d_retry {| s_due := u64_add now wait; s_inner := wrap 32 (s_inner (d_retry d) + 1) |} d).
Definition set_status (now : Z) (status : DomainStatus) (schedule : list Z) (d : Domain)
    : option Domain :=
  let d := set_d_status status d in
  if is_active (d_status d) then retry now schedule d else Some d.

(** [queue/throttle.rs]: what a throttle says, and what becomes of the domain.
    A limiter is known by its number. *)
Inductive ThrottleError :=
  | Concurrency (limiter : nat)
  | Rate (retry_at : Z).
Definition set_throttle_error (err : ThrottleError) (d : Domain) (on_hold : list nat)
    : Domain * list nat :=
  match err with
  | Concurrency limiter =>
      (set_d_status (TemporaryFailure ConcurrencyLimited) d, on_hold ++ [limiter])
  | Rate retry_at =>
      (set_d_status (TemporaryFailure RateLimited)
         (set_d_retry {| s_due := retry_at; s_inner := s_inner (d_retry d) |} d), on_hold)
  end.

(** ** Quotas *)

(** [self.size as i64] *)
Definition size_i64 (m : Message) : Z := i64_of_u64 (wrap 64 (m_size m)).
Definition i64_neg (z : Z) : Z := i64_of_u64 (wrap 64 (- z)).

Definition quota_class (k : QuotaKey) : ValueClass MaybeDynamicId :=
  match k with QSize key _ => Queue (QuotaSize key) | QCount key _ => Queue (QuotaCount key) end.
Definition quota_id (k : QuotaKey) : Z := match k with QSize _ id | QCount _ id => id end.
Definition quota_amount (size : Z) (k : QuotaKey) : Z :=
  match k with QSize _ _ => size | QCount _ _ => 1 end.

Definition reserve_key (m : Message) (b : BatchBuilder) (k : QuotaKey) : BatchBuilder :=
  add (quota_class k) (quota_amount (size_i64 m) k) b.
Definition release_key (m : Message) (b : BatchBuilder) (k : QuotaKey) : BatchBuilder :=
  add (quota_class k) (i64_neg (quota_amount (size_i64 m) k)) b.

(** The quotas of the domains and recipients that are done. *)
Definition done_ids (m : Message) : list Z :=
  omap id (imap (λ pos d, if is_final (d_status d) then Some (wrap 64 (Z.shiftl (Z.of_nat pos + 1) 32))
                          else None) (m_domains m)) ++
  omap id (imap (λ pos r, if is_final (rc_status r) then Some (Z.of_nat pos + 1) else None)
             (m_recipients m)).

(** [Message::release_quota] *)
Definition release_quota (m : Message) (b : BatchBuilder) : Message * BatchBuilder :=
  if decide (m_quota_keys m = []) then (m, b)
  else
    let quota_ids := done_ids m in
    if decide (quota_ids = []) then (m, b)
    else
      let released k := bool_decide (quota_id k ∈ quota_ids) in
      (set_quota_keys (filter (λ k, released k = false) (m_quota_keys m)) m,
       foldl (release_key m) b (filter (λ k, released k = true) (m_quota_keys m))).
End Smtp.
