(* ===== verification/SmtpSpool.v ===== *)
(** * The outbound queue in the store

    [smtp/src/queue/spool.rs], [quota.rs] and the manager's loop of
    [manager.rs].  The queue runs against an environment it asks for the time,
    for the values of configuration expressions and for the answers of other
    servers; [answer n q] is what the [n]-th question [q] is answered.  A
    computation [Q A] threads the store, the blobs and a trace of what was
    sent; [None] is a task that panicked. *)

From stdpp Require Import base gmap sorting strings numbers list.
From S2P Require Import Prelude Codec Keys Roaring Kv Batch Commit Read Store Query Blob Smtp.
Import Smtp.
Open Scope Z_scope.
Open Scope bytes_scope.

Module Spool.

(** ** What the queue asks *)

(** [RequireOptional], [RelayHost], [mail_auth::MX], [IpLookupStrategy],
    [resolver::Policy], [resolver::Tlsa] *)
Inductive RequireOptional := Optional | Require_ | Disable.
Inductive ServerProtocol := ProtoSmtp | ProtoLmtp | ProtoHttp | ProtoOther.
Record RelayHost := {
  rh_address : list Z;
  rh_port : Z;
  rh_protocol : ServerProtocol;
  rh_auth : bool;
  rh_tls_implicit : bool;
  rh_tls_allow_invalid_certs : bool;
}.
Record MX := { mx_exchanges : list (list Z); mx_preference : Z }.
Inductive IpLookupStrategy := Ipv4Only | Ipv6Only | Ipv4thenIpv6 | Ipv6thenIpv4.
Inductive IpAddr := V4 (ip : Z) | V6 (ip : Z).
Inductive Mode := Enforce | Testing | ModeNone.
Inductive MxPattern := Equals (host : list Z) | StartsWith (domain : list Z).
Record Policy := { p_mode : Mode; p_mx : list MxPattern }.
Record TlsaEntry := {
  te_is_end_entity : bool;
  te_is_sha256 : bool;
  te_is_spki : bool;
  te_data : list Z;
}.
Record Tlsa := { tl_entries : list TlsaEntry; has_end_entities : bool; has_intermediates : bool }.
(** A certificate of the other server; without a public key when it is not a
    valid certificate. *)
Record Certificate := { ce_der : list Z; ce_public_key : option (list Z) }.

(** [mail_send::Error], [mail_auth::Error], [mta_sts::Error]; the text of an
    error is what its [Display] writes. *)
Inductive MailError :=
  | MailIo (text : list Z)
  | MailTls (text : list Z)
  | MailUnexpectedReply (reply : Response)
  | MailTimeout
  | MailInvalidTlsName
  (** [Base64], [UnparseableReply], [AuthenticationFailed], [MissingCredentials],
      [MissingMailFrom], [MissingRcptTo] *)
  | MailTransient (text : list Z)
  (** [Auth], [UnsupportedAuthMechanism], [MissingStartTls] *)
  | MailPermanent (text : list Z).
Inductive DnsFailure :=
  | DnsRecordNotFound (code : list Z)
  | InvalidRecordType
  | DnsOther (text : list Z).
Inductive StsError :=
  | StsDns (err : DnsFailure)
  | StsHttp (is_timeout is_connect is_not_found : bool)
  | StsInvalidPolicy (err : list Z).

Inductive DeliveryResult :=
  | DeliverySuccess
  | DeliveryTemporary (reason : list Z)
  | DeliveryPermanent (code : Z * Z * Z) (reason : list Z).

(** [QueueEnvelope] without its message *)
Record Envelope := {
  e_domain : nat;
  e_rcpt : nat;
  e_mx : list Z;
  e_remote_ip : IpAddr;
  e_local_ip : IpAddr;
}.
Definition no_ip : IpAddr := V4 0.
Definition envelope_new (domain : nat) : Envelope :=
  {| e_domain := domain; e_rcpt := 0; e_mx := []; e_remote_ip := no_ip; e_local_ip := no_ip |}.
Definition envelope_new_rcpt (domain rcpt : nat) : Envelope :=
  {| e_domain := domain; e_rcpt := rcpt; e_mx := []; e_remote_ip := no_ip; e_local_ip := no_ip |}.

(** Questions, with the type of their answers. *)
Inductive ask : Type → Type :=
  (** the clock, fresh ids, random choices *)
  | AskNow : ask Z
  | AskId : ask (option Z)
  | AskShuffle (l : list (list Z)) : ask (list (list Z))
  | AskIndex (n : nat) : ask nat
  (** configuration expressions: [eval_if], [eval_expr] *)
  | AskQuotaExpr (quota : nat) (m : Message) (e : option Envelope) : ask (option bool)
  | AskExpire (m : Message) (e : Envelope) : ask (option Z)
  | AskRetry (m : Message) (domain : nat) : ask (option (list Z))
  | AskNotify (m : Message) (e : Envelope) : ask (option (list Z))
  | AskNextHop (m : Message) (e : Envelope) : ask (option RelayHost)
  | AskMtaSts (m : Message) (e : Envelope) : ask (option RequireOptional)
  | AskDane (m : Message) (e : Envelope) : ask (option RequireOptional)
  | AskStartTls (m : Message) (e : Envelope) : ask (option RequireOptional)
  | AskInvalidCerts (m : Message) (e : Envelope) : ask (option bool)
  | AskMaxMx (m : Message) (e : Envelope) : ask (option nat)
  | AskMaxMultihomed (m : Message) (e : Envelope) : ask (option nat)
  | AskIpStrategy (m : Message) (e : Envelope) : ask (option IpLookupStrategy)
  | AskSourceIps (v4 : bool) (m : Message) (e : Envelope) : ask (option (list Z))
  | AskHostname (m : Message) (e : Envelope) : ask (option (list Z))
  | AskDsnName (m : Message) : ask (option (list Z))
  | AskDsnAddress (m : Message) : ask (option (list Z))
  | AskSubmitter (m : Message) : ask (option (list Z))
  | AskSign (m : Message) (raw : list Z) : ask (option (list Z))
  (** [MessageBuilder] with the texts of a report *)
  | AskReport (from_name from_addr to reporting_mta subject text dsn headers : list Z)
      : ask (list Z)
  (** [is_allowed] of a throttle *)
  | AskAllowed (throttle : nat) (m : Message) (e : option Envelope) : ask (option ThrottleError)
  (** whether a concurrency limiter is below its limit *)
  | AskFree (limiter : nat) : ask bool
  (** DNS *)
  | AskMx (domain : list Z) : ask (DnsFailure + list MX)
  | AskIpv4 (key : list Z) : ask (DnsFailure + list Z)
  | AskIpv6 (key : list Z) : ask (DnsFailure + list Z)
  | AskPolicy (domain : list Z) : ask (StsError + Policy)
  | AskTlsa (key : list Z) : ask (DnsFailure + option Tlsa)
  (** [SmtpClient]; whether a timer ran out first *)
  | AskTimeout : ask bool
  | AskConnect (source : option IpAddr) (ip : IpAddr) (port : Z) : ask (MailError + unit)
  | AskTls (host : list Z) (verify : bool) : ask (MailError + unit)
  | AskCertificates : ask (option (list Certificate))
  | AskRead : ask (MailError + Response)
  | AskReadMany (n : nat) : ask (MailError + list Response)
  | AskReadEhlo (cmd : list Z) : ask (MailError + Z)
  | AskCmd (cmd : list Z) : ask (MailError + Response)
  | AskAuthenticate : ask (MailError + unit)
  | AskWrite (chunks : list (list Z)) : ask (MailError + unit)
  | AskWriteMessage (raw : list Z) : ask (MailError + unit)
  (** local delivery; [None] when the channel is closed *)
  | AskIngest (sender : list Z) (rcpts : list (list Z)) (hash : list Z) (size : Z)
      : ask (option (list DeliveryResult)).

Class Env := answer : nat → ∀ X, ask X → X.

(** ** Events and the trace *)

(** [QueueEventLock], [OnHold], [queue::Event] *)
Record QueueEventLock := { l_due : Z; l_queue_id : Z; l_lock_expiry : Z }.
Record OnHold := { h_next_due : option Z; h_limiters : list nat; h_message : QueueEventLock }.
Inductive Event := Reload | OnHold_ (on_hold : OnHold) | Stop.

(** The transcript of the queue: what it asked and what was answered, events to
    the manager, messages handed to another server, with the protection of the
    connection and whether anyone asked for one, and messages as they were when
    they were removed. *)
Inductive Sent :=
  | Asked (X : Type) (q : ask X) (x : X)
  | SentEvent (e : Event)
  | Transferred (m : Message) (e : Envelope) (secure : bool) (strategy_tls : RequireOptional)
      (demanded : bool)
  | Removed (m : Message).

Class BlobStore (BS : Type) := {
  put_blob : BS → list Z → list Z → result BS;
  get_blob : BS → list Z → nat → option nat → result (option (list Z));
}.

(** ** Computations *)

Record world (DB BS : Type) := {
  w_db : DB;
  w_blobs : BS;
  w_step : nat;
  w_sent : list Sent;
}.
Arguments w_db {_ _} _.
Arguments w_blobs {_ _} _.
Arguments w_step {_ _} _.
Arguments w_sent {_ _} _.

Section monad.
Context {DB BS : Type}.

Definition Q (A : Type) : Type := world DB BS → option A * world DB BS.

Definition ret {A} (a : A) : Q A := λ w, (Some a, w).
Definition bind {A B} (p : Q A) (f : A → Q B) : Q B := λ w,
  match p w with (Some a, w) => f a w | (None, w) => (None, w) end.

Definition panic {A} : Q A := λ w, (None, w).
(** An index or [unwrap] that fails panics. *)
Definition or_panic {A} (o : option A) : Q A :=
  match o with Some a => ret a | None => panic end.

Definition question `{Env} {X} (q : ask X) : Q X := λ w,
  let x := answer (w_step w) X q in
  (Some x, {| w_db := w_db w; w_blobs := w_blobs w; w_step := S (w_step w);
              w_sent := w_sent w ++ [Asked X q x] |}).
Definition now `{Env} : Q Z := question AskNow.
Definition get_db : Q DB := λ w, (Some (w_db w), w).
Definition put_db (db : DB) : Q unit := λ w,
  (Some tt, {| w_db := db; w_blobs := w_blobs w; w_step := w_step w; w_sent := w_sent w |}).
Definition get_blobs : Q BS := λ w, (Some (w_blobs w), w).
Definition put_blobs (bs : BS) : Q unit := λ w,
  (Some tt, {| w_db := w_db w; w_blobs := bs; w_step := w_step w; w_sent := w_sent w |}).
Definition send (s : Sent) : Q unit := λ w,
  (Some tt, {| w_db := w_db w; w_blobs := w_blobs w; w_step := w_step w;
               w_sent := w_sent w ++ [s] |}).
(** [core.inner.queue_tx.send(event)] *)
Definition notify (e : Event) : Q unit := send (SentEvent e).

(** [tokio::time::timeout(.., p)] *)
Definition timeout `{Env} {A} (p : Q A) : Q (option A) :=
  bind (question AskTimeout) (λ elapsed,
  if elapsed then ret None else bind p (λ a, ret (Some a))).

(** [self.core.storage.data.write(batch.build())] *)
Definition write_batch `{StoreWrite DB} (b : BatchBuilder) : Q (result unit) :=
  bind get_db (λ db,
  match store_write (build b) db with
  | Ok (_, db) => bind (put_db db) (λ _, ret (Ok tt))
  | Err e => ret (Err e)
  end).
End monad.
Arguments Q : clear implicits.

Declare Scope queue_scope.
Delimit Scope queue_scope with queue.
Notation "x <- p ;; f" := (bind p (λ x, f))
  (at level 100, p at next level, right associativity) : queue_scope.
Notation "p ;; f" := (bind p (λ _, f))
  (at level 100, f at level 200, right associativity) : queue_scope.
Open Scope queue_scope.

Section spool.
Context {DB Txn BS : Type} `{RocksDB DB Txn} `{StoreWrite DB} `{BlobStore BS} `{Env}.
(** [blake3], the serialisation of [Bincode<Message>] and [str::to_lowercase]
    are libraries. *)
Context (blake3 : list Z → list Z) (str_to_lowercase : list Z → list Z).
Context (bincode_serialize : Message → list Z) (bincode_deserialize : list Z → result Message).

Definition queue_key (class : QueueClass) : ValueKey :=
  {| vk_account_id := 0; vk_collection := 0; vk_document_id := 0; vk_class := Queue class |}.
Definition event_class (due queue_id : Z) : QueueClass :=
  MessageEvent {| qe_due := due; qe_queue_id := queue_id |}.

(** [SMTP::new_message] *)
Definition new_message (return_path return_path_lcase return_path_domain : list Z)
    : Q DB BS Message :=
  created <- now;;
  id <- question AskId;;
  ret {| m_id := default created id; m_created := created; m_blob_hash := hash_default;
         m_return_path := return_path; m_return_path_lcase := return_path_lcase;
         m_return_path_domain := return_path_domain; m_recipients := []; m_domains := [];
         m_flags := 0; m_env_id := None; m_priority := 0; m_size := 0; m_quota_keys := [] |}.

(** [SMTP::next_event]: the events that are not locked, up to the first that
    is not due.  A row that cannot be read ends the iteration, and the events
    read so far are kept, as in the source, which logs the error; since the
    callback itself never fails, the error of [iterate] does not occur. *)
Definition read_event (key value : list Z) : result QueueEventLock :=
  due ← deserialize_be_u64 key 0;
  queue_id ← deserialize_be_u64 key U64_LEN;
  lock_expiry ← u64_deserialize value;
  Ok {| l_due := due; l_queue_id := queue_id; l_lock_expiry := lock_expiry |}.
Definition event_callback (now : Z) (events : list QueueEventLock) (key value : list Z)
    : result (list QueueEventLock * bool) :=
  match read_event key value with
  | Ok event =>
      Ok (if l_lock_expiry event <? now then events ++ [event] else events, l_due event <=? now)
  | Err _ => Ok (events, false)
  end.
Definition next_events (now : Z) (db : DB) : list QueueEventLock :=
  match iterate db
    (set_ascending true (params_new (queue_key (event_class 0 0))
                                    (queue_key (event_class U64_MAX U64_MAX))))
    (event_callback now) [] with
  | Ok events => events
  | Err _ => []
  end.

Definition LOCK_EXPIRY : Z := 300.

(** [SMTP::try_lock_event] *)
Definition lock_batch (event : QueueEventLock) (lock_expiry : Z) : BatchBuilder :=
  let class := Queue (event_class (l_due event) (l_queue_id event)) in
  set class (ValueStatic (to_be_bytes 8 lock_expiry))
    (assert_value class (AssertU64 (l_lock_expiry event)) builder_new).
Definition try_lock_event (event : QueueEventLock) : Q DB BS (option QueueEventLock) :=
  now <- now;;
  let lock_expiry := u64_add now LOCK_EXPIRY in
  r <- write_batch (lock_batch event lock_expiry);;
  match r with
  | Ok _ =>
      ret (Some {| l_due := l_due event; l_queue_id := l_queue_id event;
                   l_lock_expiry := lock_expiry |})
  | Err _ => ret None
  end.

(** [SMTP::read_message]: an error is logged and is no message. *)
Definition read_message (id : Z) : Q DB BS (option Message) :=
  db <- get_db;;
  match get_value bincode_deserialize db (queue_key (Keys.Message id)) with
  | Ok (Some message) => ret (Some message)
  | Ok None => ret None
  | Err _ => ret None
  end.

(** [Message::queue] *)
Definition queue_batch (m : Message) (due reserve_until : Z) : BatchBuilder :=
  set (Queue (Keys.Message (m_id m))) (ValueStatic (bincode_serialize m))
    (set (Blob (Commit (m_blob_hash m))) (ValueStatic [])
      (set (Blob (LinkId (m_blob_hash m) (m_id m))) (ValueStatic [])
        (clear (Blob (Reserve (m_blob_hash m) reserve_until))
          (set (Queue (event_class due (m_id m))) (ValueStatic (to_be_bytes 8 0))
            (foldl (reserve_key m) builder_new (m_quota_keys m)))))).
Definition queue (m : Message) (raw_headers : option (list Z)) (raw_message : list Z)
    : Q DB BS bool :=
  let message := default [] raw_headers ++ raw_message in
  let m := set_content (blake3 message)
             (if m_size m =? 0 then Z.of_nat (length message) else m_size m) m in
  reserve_now <- now;;
  let reserve_until := u64_add reserve_now 120 in
  r <- write_batch (set (Blob (Reserve (m_blob_hash m) reserve_until))
                      (ValueStatic (to_be_bytes 4 0)) builder_new);;
  match r with
  | Err _ => ret false
  | Ok _ =>
      blobs <- get_blobs;;
      match put_blob blobs (m_blob_hash m) message with
      | Err _ => ret false
      | Ok blobs =>
          put_blobs blobs;;
          event_now <- now;;
          r <- write_batch (queue_batch m (default 0 (next_event event_now m)) reserve_until);;
          match r with
          | Err _ => ret false
          | Ok _ => notify Reload;; ret true
          end
      end
  end.

(** [Message::add_recipient_parts], [Message::add_recipient] *)
Definition domain_position (domain : list Z) (ds : list Domain) : option nat :=
  fst <$> list_find (λ d, d_domain d = domain) ds.
Definition new_recipient (domain_idx : nat) (rcpt rcpt_lcase : list Z) : Recipient :=
  {| rc_domain_idx := domain_idx; rc_address := rcpt; rc_address_lcase := rcpt_lcase;
     rc_status := Scheduled; rc_flags := 0; rc_orcpt := None |}.
Definition add_recipient_parts (m : Message) (rcpt rcpt_lcase rcpt_domain : list Z)
    : Q DB BS Message :=
  match domain_position rcpt_domain (m_domains m) with
  | Some idx => ret (set_recipients (m_recipients m ++ [new_recipient idx rcpt rcpt_lcase]) m)
  | None =>
      let idx := length (m_domains m) in
      retry_now <- now;;
      notify_now <- now;;
      let domain := {| d_domain := rcpt_domain; d_retry := {| s_due := retry_now; s_inner := 0 |};
                       d_notify := {| s_due := notify_now; s_inner := 0 |}; d_expires := 0;
                       d_status := Scheduled |} in
      expires <- question (AskExpire (set_domains (m_domains m ++ [domain]) m) (envelope_new idx));;
      let expires := default (5 * 86400) expires in
      later_now <- now;;
      expires_now <- now;;
      let domain :=
        set_d_expires (u64_add expires_now expires)
          (set_d_notify {| s_due := u64_add later_now (expires + 10); s_inner := 0 |} domain) in
      ret (set_parties (m_domains m ++ [domain])
             (m_recipients m ++ [new_recipient idx rcpt rcpt_lcase]) m)
  end.
Definition add_recipient (m : Message) (rcpt : list Z) : Q DB BS Message :=
  let rcpt_lcase := str_to_lowercase rcpt in
  add_recipient_parts m rcpt rcpt_lcase (domain_part rcpt_lcase).

(** [Message::save_changes].  The quotas are released into a batch that is
    then replaced by a new one. *)
Definition reschedule (m : Message) (events : option (Z * Z)) (b : BatchBuilder) : BatchBuilder :=
  match events with
  | Some (prev_event, next_event) =>
      set (Queue (event_class next_event (m_id m))) (ValueStatic (to_be_bytes 8 0))
        (clear (Queue (event_class prev_event (m_id m))) b)
  | None => b
  end.
Definition save_batch (m : Message) (events : option (Z * Z)) : BatchBuilder :=
  set (Queue (Keys.Message (m_id m))) (ValueStatic (bincode_serialize m))
    (reschedule m events builder_new).
Definition save_changes (m : Message) (events : option (Z * Z)) : Q DB BS bool :=
  let batch := builder_new in
  let '(m, batch) := release_quota m batch in
  r <- write_batch (save_batch m events);;
  ret (if r is Ok _ then true else false).

(** [Message::remove] *)
Definition remove_batch (m : Message) (prev_event : Z) : BatchBuilder :=
  clear (Queue (Keys.Message (m_id m)))
    (clear (Queue (event_class prev_event (m_id m)))
      (clear (Blob (LinkId (m_blob_hash m) (m_id m)))
        (foldl (release_key m) builder_new (m_quota_keys m)))).
Definition remove (m : Message) (prev_event : Z) : Q DB BS bool :=
  r <- write_batch (remove_batch m prev_event);;
  match r with
  | Ok _ => send (Removed m);; ret true
  | Err _ => ret false
  end.

(** ** Quotas: [smtp/src/queue/quota.rs] *)

Definition THROTTLE_RCPT : Z := Z.shiftl 1 0.
Definition THROTTLE_RCPT_DOMAIN : Z := Z.shiftl 1 1.
Definition THROTTLE_SENDER : Z := Z.shiftl 1 2.
Definition THROTTLE_SENDER_DOMAIN : Z := Z.shiftl 1 3.

(** [QueueQuota]; its expression is known by a number, [None] when it is
    empty. *)
Record QueueQuota := {
  qq_expr : option nat;
  qq_keys : Z;
  qq_size : option Z;
  qq_messages : option Z;
}.

(** [resolve_variable] of a [QueueEnvelope] and of a [Message] *)
Definition var_rcpt (m : Message) (e : option Envelope) : list Z :=
  match e with
  | Some e => default [] (rc_address_lcase <$> m_recipients m !! e_rcpt e)
  | None => []
  end.
Definition var_rcpt_domain (m : Message) (e : option Envelope) : list Z :=
  match e with Some e => default [] (d_domain <$> m_domains m !! e_domain e) | None => [] end.

(** [usize::to_ne_bytes] on a little-endian machine *)
Definition ne_bytes (z : Z) : list Z := reverse (to_be_bytes 8 z).
Definition or_null (s : list Z) : list Z := if decide (s = []) then str_bytes "<>" else s.

(** [NewKey for QueueQuota]: the hasher is fed one piece after the other. *)
Definition new_key (quota : QueueQuota) (m : Message) (e : option Envelope) : list Z :=
  let part flag s := if negb (Z.land (qq_keys quota) flag =? 0) then s else [] in
  blake3 (part THROTTLE_RCPT (var_rcpt m e) ++ part THROTTLE_RCPT_DOMAIN (var_rcpt_domain m e) ++
          part THROTTLE_SENDER (or_null (m_return_path_lcase m)) ++
          part THROTTLE_SENDER_DOMAIN (or_null (m_return_path_domain m)) ++
          default [] (ne_bytes <$> qq_messages quota) ++ default [] (ne_bytes <$> qq_size quota)).

(** [get_counter(..).unwrap_or(0) as usize] *)
Definition used (class : QueueClass) : Q DB BS Z :=
  db <- get_db;;
  ret (wrap 64 (if get_counter db (queue_key class) is Ok v then v else 0)).

(** Whether a limit leaves room for [amount]; no limit does. *)
Definition check_limit (limit : option Z) (class : QueueClass) (amount : Z) (key : QuotaKey)
    (refs : list QuotaKey) : Q DB BS (option (list QuotaKey)) :=
  match limit with
  | Some max =>
      used <- used class;;
      ret (if max <? u64_add used amount then None else Some (refs ++ [key]))
  | None => ret (Some refs)
  end.
Definition check_quota (quota : QueueQuota) (m : Message) (e : option Envelope) (id : Z)
    (refs : list QuotaKey) : Q DB BS (option (list QuotaKey)) :=
  match qq_expr quota with
  | None => ret (Some refs)
  | Some expr =>
      applies <- question (AskQuotaExpr expr m e);;
      if default false applies then
        let key := new_key quota m e in
        refs <- check_limit (qq_size quota) (QuotaSize key) (m_size m) (QSize key id) refs;;
        match refs with
        | Some refs => check_limit (qq_messages quota) (QuotaCount key) 1 (QCount key id) refs
        | None => ret None
        end
      else ret (Some refs)
  end.

(** Each quota with each envelope it is checked for, and the id its keys get. *)
Definition quota_checks (sender rcpt_domain rcpt : list QueueQuota) (m : Message)
    : list (QueueQuota * option Envelope * Z) :=
  ((λ q, (q, None, 0)) <$> sender) ++
  (q ← rcpt_domain;
   (λ i, (q, Some (envelope_new i), wrap 64 (Z.shiftl (Z.of_nat i + 1) 32)))
     <$> seq 0 (length (m_domains m))) ++
  (q ← rcpt;
   imap (λ i r, (q, Some (envelope_new_rcpt (rc_domain_idx r) i), Z.of_nat i + 1))
     (m_recipients m)).
Fixpoint check_quotas (checks : list (QueueQuota * option Envelope * Z)) (m : Message)
    (refs : list QuotaKey) : Q DB BS (option (list QuotaKey)) :=
  match checks with
  | [] => ret (Some refs)
  | (quota, e, id) :: checks =>
      refs <- check_quota quota m e id refs;;
      match refs with
      | Some refs => check_quotas checks m refs
      | None => ret None
      end
  end.
(** [SMTP::has_quota]: the message with the quotas it holds, if it fits. *)
Definition has_quota (sender rcpt_domain rcpt : list QueueQuota) (m : Message)
    : Q DB BS (option Message) :=
  refs <- check_quotas (quota_checks sender rcpt_domain rcpt m) m [];;
  ret ((λ refs, set_quota_keys refs m) <$> refs).
End spool.
End Spool.
