(* ===== verification/SmtpDsn.v ===== *)
(** * Delivery status notifications

    [smtp/src/queue/dsn.rs]: which recipients a notification reports, the text
    it reports them with, the flags and notification times it leaves on the
    message, and what happens to a message without a return path. *)

From stdpp Require Import base gmap sorting strings numbers list.
From S2P Require Import Prelude Codec Keys Roaring Kv Batch Commit Read Store Utf8 JsonPrint Query Blob Smtp SmtpSpool.
Import Smtp Spool.
Open Scope Z_scope.
Open Scope bytes_scope.
Open Scope queue_scope.

Module Dsn.

(** Flags and replies of the [smtp_proto] library. *)
Inductive Severity :=
  | PositiveCompletion | PositiveIntermediate | TransientNegativeCompletion
  | PermanentNegativeCompletion | Invalid.
#[export] Instance severity_eq_dec : EqDecision Severity.
Proof. solve_decision. Defined.

Class SmtpProto := {
  RCPT_NOTIFY_SUCCESS : Z;
  RCPT_NOTIFY_FAILURE : Z;
  RCPT_NOTIFY_DELAY : Z;
  RCPT_NOTIFY_NEVER : Z;
  MAIL_REQUIRETLS : Z;
  MAIL_SMTPUTF8 : Z;
  MAIL_RET_FULL : Z;
  MAIL_RET_HDRS : Z;
  MAIL_BY_RETURN : Z;
  EXT_SIZE : Z;
  EXT_REQUIRE_TLS : Z;
  EXT_SMTP_UTF8 : Z;
  EXT_DSN : Z;
  EXT_CHUNKING : Z;
  EXT_START_TLS : Z;
  severity : Response → Severity;
  (** [EhloResponse::has_capability] *)
  has_capability : Z → Z → bool;
  (** [AssertReply] of [mail_send] *)
  assert_positive_completion : Response → MailError + unit;
  assert_code : Response → Z → MailError + unit;
  (** [to_string] of the errors of [mail_send] and [mail_auth] *)
  mail_error_text : MailError → list Z;
  dns_failure_text : DnsFailure → list Z;
  (** the hashes of [sha2] *)
  sha256 : list Z → list Z;
  sha512 : list Z → list Z;
  (** [str::trim], [Debug for str] *)
  str_trim : list Z → list Z;
  str_debug : list Z → list Z;
  (** [DateTime::from_timestamp(..).to_rfc822()] of [mail_parser] *)
  to_rfc822 : Z → list Z;
}.

Definition CRLF : list Z := [13; 10].
Definition lit : string → list Z := str_bytes.

(** ** Texts *)

(** [WriteDsn for Response<String>] *)
Definition write_response (r : Response) : list Z :=
  base.filter (λ ch, ch ≠ 10 ∧ ch ≠ 13) (r_message r).
Definition write_esc (c : Z * Z * Z) : list Z :=
  decimal c.1.1 ++ lit "." ++ decimal c.1.2 ++ lit "." ++ decimal c.2.
Definition response_dsn_status (r : Response) : list Z :=
  if 0 <? (esc r).1.1 then write_esc (esc r)
  else write_esc (code r / 100, (code r / 10) `mod` 10, code r `mod` 10).
Definition response_dsn_diagnostic (r : Response) : list Z :=
  lit "Diagnostic-Code: smtp;" ++ decimal (code r) ++ lit " " ++ write_response r ++ CRLF.

Definition delivered_text (addr : list Z) (r : HostResponse (list Z)) : list Z :=
  lit "<" ++ addr ++ lit "> (delivered to '" ++ hostname r ++ lit "' with code " ++
  decimal (code (response r)) ++ lit " (" ++ write_esc (esc (response r)) ++ lit ") '" ++
  write_response (response r) ++ lit "')" ++ CRLF.
Definition rejected_text (addr : list Z) (r : HostResponse ErrorDetails) : list Z :=
  lit "<" ++ addr ++ lit "> (host '" ++ entity (hostname r) ++ lit "' rejected " ++
  (if decide (details (hostname r) = []) then lit "transaction"
   else lit "command '" ++ details (hostname r) ++ lit "'") ++
  lit " with code " ++ decimal (code (response r)) ++ lit " (" ++ write_esc (esc (response r)) ++
  lit ") '" ++ write_response (response r) ++ lit "')" ++ CRLF.

(** [Error::write_dsn_text] *)
Definition error_text (addr domain : list Z) (e : Error) : list Z :=
  let of_details (what : string) (d : ErrorDetails) :=
    lit "<" ++ addr ++ lit "> (" ++ lit what ++ lit " '" ++ entity d in
  match e with
  | UnexpectedResponse r => rejected_text addr r
  | DnsError err =>
      lit "<" ++ addr ++ lit "> (failed to lookup '" ++ domain ++ lit "': " ++ err ++ lit ")" ++ CRLF
  | ConnectionError d =>
      of_details "connection to" d ++ lit "' failed: " ++ details d ++ lit ")" ++ CRLF
  | TlsError d => of_details "TLS error from" d ++ lit "': " ++ details d ++ lit ")" ++ CRLF
  | DaneError d =>
      of_details "DANE failed to authenticate" d ++ lit "': " ++ details d ++ lit ")" ++ CRLF
  | MtaStsError text =>
      lit "<" ++ addr ++ lit "> (MTA-STS failed to authenticate '" ++ domain ++ lit "': " ++
      text ++ lit ")" ++ CRLF
  | RateLimited => lit "<" ++ addr ++ lit "> (rate limited)" ++ CRLF
  | ConcurrencyLimited =>
      lit "<" ++ addr ++ lit "> (too many concurrent connections to remote server)" ++ CRLF
  | Io err => lit "<" ++ addr ++ lit "> (queue error: " ++ err ++ lit ")" ++ CRLF
  end.

(** [Status::write_dsn_action] *)
Definition dsn_action {T E} (s : Status T E) : list Z :=
  lit "Action: " ++
  lit match s with
      | Completed _ => "delivered"
      | PermanentFailure _ => "failed"
      | TemporaryFailure _ | Scheduled => "delayed"
      end ++ CRLF.

(** [write_dsn] of a recipient's status *)
Definition rcpt_status_response (s : RcptStatus) : option Response :=
  match s with
  | Completed r => Some (response r)
  | PermanentFailure r | TemporaryFailure r => Some (response r)
  | Scheduled => None
  end.
Definition rcpt_status_dsn (s : RcptStatus) : list Z :=
  dsn_action s ++
  (lit "Status: " ++ default [] (response_dsn_status <$> rcpt_status_response s) ++ CRLF) ++
  (match s with
   | PermanentFailure r | TemporaryFailure r => response_dsn_diagnostic (response r)
   | _ => []
   end) ++
  (lit "Remote-MTA: dns;" ++
   match s with
   | Completed r => hostname r
   | PermanentFailure r | TemporaryFailure r => entity (hostname r)
   | Scheduled => []
   end ++ CRLF).

(** [write_dsn] of a domain's status *)
Definition domain_status_error (s : DomainStatus) : option Error :=
  match s with PermanentFailure e | TemporaryFailure e => Some e | _ => None end.
Definition error_dsn_status (s : DomainStatus) (e : Error) : list Z :=
  lit "Status: " ++
  match e with
  | UnexpectedResponse r => response_dsn_status (response r)
  | _ => lit (if s is PermanentFailure _ then "5.0.0" else "4.0.0")
  end ++ CRLF.
Definition error_dsn_diagnostic (e : Error) : list Z :=
  match e with UnexpectedResponse r => response_dsn_diagnostic (response r) | _ => [] end.
Definition error_dsn_remote_mta (e : Error) : list Z :=
  let line d := lit "Remote-MTA: dns;" ++ entity d ++ CRLF in
  match e with
  | UnexpectedResponse r => line (hostname r)
  | ConnectionError d | TlsError d | DaneError d => line d
  | _ => []
  end.
Definition domain_status_dsn (s : DomainStatus) : list Z :=
  let of_error f := default [] (f <$> domain_status_error s) in
  dsn_action s ++ of_error (error_dsn_status s) ++ of_error error_dsn_diagnostic ++
  of_error error_dsn_remote_mta.

(** [Recipient::write_dsn] *)
Definition rcpt_dsn (r : Recipient) : list Z :=
  (if rc_orcpt r is Some orcpt then lit "Original-Recipient: rfc822;" ++ orcpt ++ CRLF else []) ++
  lit "Final-Recipient: rfc822;" ++ rc_address r ++ CRLF.

Section texts.
Context `{SmtpProto}.

Definition dsn_headers (m : Message) (reporting_mta : list Z) : list Z :=
  lit "Reporting-MTA: dns;" ++ reporting_mta ++ CRLF ++
  lit "Arrival-Date: " ++ to_rfc822 (i64_of_u64 (wrap 64 (m_created m))) ++ CRLF ++
  (if m_env_id m is Some env_id then lit "Original-Envelope-Id: " ++ env_id ++ CRLF else []) ++
  CRLF.
(** [Domain::write_dsn_will_retry_until] *)
Definition retry_until_dsn (now : Z) (d : Domain) : list Z :=
  if now <? d_expires d
  then lit "Will-Retry-Until: " ++ to_rfc822 (i64_of_u64 (wrap 64 (d_expires d))) ++ CRLF
  else [].
End texts.

(** ** The report of a recipient *)

Record Texts := { t_dsn : list Z; t_success : list Z; t_delay : list Z; t_failed : list Z }.
Definition texts_empty : Texts := {| t_dsn := []; t_success := []; t_delay := []; t_failed := [] |}.
Inductive Outcome := Success | Delay | Failed.
Definition add_report (o : Outcome) (dsn text : list Z) (t : Texts) : Texts :=
  {| t_dsn := t_dsn t ++ dsn ++ CRLF;
     t_success := if o is Success then t_success t ++ text else t_success t;
     t_delay := if o is Delay then t_delay t ++ text else t_delay t;
     t_failed := if o is Failed then t_failed t ++ text else t_failed t |}.

Section build.
Context {DB Txn BS : Type} `{RocksDB DB Txn} `{StoreWrite DB} `{BlobStore BS} `{Env} `{SmtpProto}.
Context (blake3 : list Z → list Z) (bincode_serialize : Message → list Z).

Definition report_final (flag : Z) (o : Outcome) (status text : list Z) (r : Recipient) (t : Texts)
    : Recipient * Texts :=
  let r := add_flags (Z.lor RCPT_DSN_SENT RCPT_STATUS_CHANGED) r in
  if has_flag (rc_flags r) flag then (r, add_report o (rcpt_dsn r ++ status) text t) else (r, t).
Definition report_delay (now : Z) (d : Domain) (status text : list Z) (r : Recipient) (t : Texts)
    : Q DB BS (Recipient * Texts) :=
  if (s_due (d_notify d) <=? now) && has_flag (rc_flags r) RCPT_NOTIFY_DELAY then
    until_now <- Spool.now;;
    ret (r, add_report Delay (rcpt_dsn r ++ status ++ retry_until_dsn until_now d) text t)
  else ret (r, t).

Definition dsn_rcpt (now : Z) (domains : list Domain) (r : Recipient) (t : Texts)
    : Q DB BS (Recipient * Texts) :=
  if has_flag (rc_flags r) (Z.lor RCPT_DSN_SENT RCPT_NOTIFY_NEVER) then ret (r, t)
  else
    d <- or_panic (domains !! rc_domain_idx r);;
    let addr := rc_address r in
    match rc_status r with
    | Completed response =>
        ret (report_final RCPT_NOTIFY_SUCCESS Success (rcpt_status_dsn (rc_status r))
               (delivered_text addr response) r t)
    | TemporaryFailure response =>
        report_delay now d (rcpt_status_dsn (rc_status r)) (rejected_text addr response) r t
    | PermanentFailure response =>
        ret (report_final RCPT_NOTIFY_FAILURE Failed (rcpt_status_dsn (rc_status r))
               (rejected_text addr response) r t)
    | Scheduled =>
        (* There is no status for this address, use the domain's status. *)
        let status := domain_status_dsn (d_status d) in
        match d_status d with
        | PermanentFailure err =>
            ret (report_final RCPT_NOTIFY_FAILURE Failed status
                   (error_text addr (d_domain d) err) r t)
        | TemporaryFailure err =>
            report_delay now d status (error_text addr (d_domain d) err) r t
        | Scheduled =>
            report_delay now d status (error_text addr (d_domain d) ConcurrencyLimited) r t
        | Completed _ =>
            (* outside of the tests this falls through to the separator *)
            ret (r, {| t_dsn := t_dsn t ++ CRLF; t_success := t_success t; t_delay := t_delay t;
                       t_failed := t_failed t |})
        end
    end.
Fixpoint dsn_rcpts (now : Z) (domains : list Domain) (rs : list Recipient) (t : Texts)
    : Q DB BS (list Recipient * Texts) :=
  match rs with
  | [] => ret ([], t)
  | r :: rs =>
      rt <- dsn_rcpt now domains r t;;
      rest <- dsn_rcpts now domains rs rt.2;;
      ret (rt.1 :: rest.1, rest.2)
  end.

(** ** The text for people *)

Definition no_text (s : list Z) : bool := bool_decide (s = []).
Definition summary (t : Texts) : list Z * list Z * bool :=
  let has_success := negb (no_text (t_success t)) in
  let has_delay := negb (no_text (t_delay t)) in
  let has_failure := negb (no_text (t_failed t)) in
  let para s := lit s ++ CRLF ++ CRLF in
  if has_success && negb has_delay && negb has_failure then
    (para "Your message has been successfully delivered to the following recipients:",
     lit "Successfully delivered message", false)
  else if has_delay && negb has_success && negb has_failure then
    (para "There was a temporary problem delivering your message to the following recipients:",
     lit "Warning: Delay in message delivery", false)
  else if has_failure && negb has_success && negb has_delay then
    (para "Your message could not be delivered to the following recipients:",
     lit "Failed to deliver message", false)
  else if has_success then
    (para "Your message has been partially delivered:", lit "Partially delivered message", true)
  else
    (para "Your message could not be delivered to some recipients:",
     lit "Warning: Temporary and permanent failures during message delivery", true).
Definition section (title : string) (is_mixed : bool) (text : list Z) : list Z :=
  if no_text text then []
  else (if is_mixed then lit "    ----- " ++ lit title ++ lit " -----" ++ CRLF else []) ++
       text ++ CRLF.
Definition body (t : Texts) : list Z * list Z :=
  let '(intro, subject, is_mixed) := summary t in
  (intro ++
   section "Delivery to the following addresses was successful" is_mixed (t_success t) ++
   section "There was a temporary problem delivering to these addresses" is_mixed (t_delay t) ++
   section "Delivery to the following addresses failed" is_mixed (t_failed t), subject).

(** ** When to notify next *)

Definition next_notify (now : Z) (m : Message) (idx : nat) (d : Domain) : Q DB BS Domain :=
  if is_active (d_status d) && (s_due (d_notify d) <=? now) then
    schedule <- question (AskNotify m (envelope_new idx));;
    let inner := s_inner (d_notify d) in
    ret match default [] schedule !! Z.to_nat (wrap 32 (inner + 1)) with
        | Some wait =>
            set_d_notify {| s_due := u64_add now wait; s_inner := wrap 32 (inner + 1) |} d
        | None => set_d_notify {| s_due := u64_add (d_expires d) 10; s_inner := inner |} d
        end
  else ret d.
Fixpoint next_notifies (now : Z) (m : Message) (idx : nat) (ds : list Domain)
    : Q DB BS (list Domain) :=
  match ds with
  | [] => ret []
  | d :: ds =>
      d <- next_notify now m idx d;;
      ds <- next_notifies now m (S idx) ds;;
      ret (d :: ds)
  end.

(** ** The headers of the message: up to the first empty line *)

Fixpoint header_end (pos : nat) (prev_ch : Z) (last_lf : nat) (buf : list Z) : nat :=
  match buf with
  | [] => last_lf
  | ch :: buf =>
      if ch =? 10 then
        if prev_ch =? 10 then S pos else header_end (S pos) ch (S pos) buf
      else if ch =? 13 then header_end (S pos) prev_ch last_lf buf
      else if ch =? 0 then last_lf
      else header_end (S pos) ch last_lf buf
  end.
Definition message_headers (hash : list Z) (blobs : BS) : list Z :=
  match get_blob blobs hash 0 (Some 1024%nat) with
  | Ok (Some buf) =>
      let last_lf := header_end 0 0 (length buf) buf in
      let buf := if decide (last_lf < 1024)%nat then take last_lf buf else buf in
      if Utf8.from_utf8 buf then buf else []
  | _ => []
  end.

(** [Message::build_dsn] *)
Definition build_dsn (m : Message) : Q DB BS (option (list Z) * Message) :=
  now <- Spool.now;;
  rt <- dsn_rcpts now (m_domains m) (m_recipients m) texts_empty;;
  let m := set_recipients rt.1 m in
  let t := rt.2 in
  if no_text (t_success t) && no_text (t_delay t) && no_text (t_failed t) then ret (None, m)
  else
    let '(text, subject) := body t in
    ds <- (if no_text (t_delay t) then ret (m_domains m)
           else next_notifies now m 0 (m_domains m));;
    let m := set_domains ds m in
    from_name <- question (AskDsnName m);;
    from_addr <- question (AskDsnAddress m);;
    reporting_mta <- question (AskSubmitter m);;
    let reporting_mta := default (lit "localhost") reporting_mta in
    blobs <- get_blobs;;
    raw <- question (AskReport (default (lit "Mail Delivery Subsystem") from_name)
                       (default (lit "MAILER-DAEMON@localhost") from_addr) (m_return_path m)
                       reporting_mta subject text (dsn_headers m reporting_mta ++ t_dsn t)
                       (message_headers (m_blob_hash m) blobs));;
    ret (Some raw, m).

(** [Message::handle_double_bounce]: nobody is told. *)
Definition bounce_rcpt (domains : list Domain) (r : Recipient) : option Recipient :=
  if has_flag (rc_flags r) (Z.lor RCPT_DSN_SENT RCPT_NOTIFY_NEVER) then Some r
  else
    match rc_status r with
    | PermanentFailure _ => Some (add_flags RCPT_DSN_SENT r)
    | Scheduled =>
        d ← domains !! rc_domain_idx r;
        Some (if d_status d is PermanentFailure _ then add_flags RCPT_DSN_SENT r else r)
    | _ => Some r
    end.
Definition bounce_domain (now : Z) (d : Domain) : Domain :=
  if s_due (d_notify d) <=? now
  then set_d_notify {| s_due := u64_add (d_expires d) 10; s_inner := s_inner (d_notify d) |} d
  else d.
Definition handle_double_bounce (m : Message) : Q DB BS Message :=
  rs <- or_panic (mapM (bounce_rcpt (m_domains m)) (m_recipients m));;
  now <- Spool.now;;
  ret (set_parties (bounce_domain now <$> m_domains m) rs m).

(** [SMTP::send_dsn] *)
Definition send_dsn (m : Message) : Q DB BS Message :=
  if decide (m_return_path m = []) then handle_double_bounce m
  else
    built <- build_dsn m;;
    let '(dsn, m) := built in
    match dsn with
    | None => ret m
    | Some dsn =>
        report <- new_message [] [] [];;
        report <- add_recipient_parts report (m_return_path m) (m_return_path_lcase m)
                    (m_return_path_domain m);;
        signature <- question (AskSign m dsn);;
        queue blake3 bincode_serialize report signature dsn;;
        ret m
    end.
End build.
End Dsn.
