(* ===== verification/SmtpSession.v ===== *)
(** * Handing a message to another server

    [smtp/src/outbound/session.rs] and [local.rs]: one SMTP or LMTP session,
    or one delivery to local mailboxes, for the recipients of a domain; the
    classification of errors of [outbound/mod.rs].  The replies of the other
    server are the environment's. *)

From stdpp Require Import base gmap sorting strings numbers list.
From S2P Require Import Prelude Codec Keys Roaring Kv Batch Commit Read Store Utf8 JsonPrint Query Blob Smtp SmtpSpool SmtpDsn.
Import Smtp Spool Dsn.
Open Scope Z_scope.
Open Scope bytes_scope.
Open Scope queue_scope.

Module Session.

(** ** Errors: [smtp/src/outbound/mod.rs] *)
Section errors.
Context `{SmtpProto}.

Definition by_severity (reply : Response) (e : Error) : DomainStatus :=
  if decide (severity reply = PermanentNegativeCompletion) then PermanentFailure e
  else TemporaryFailure e.

Definition from_smtp_error (hostname command : list Z) (err : MailError) : DomainStatus :=
  let connection := ConnectionError {| entity := hostname; details := mail_error_text err |} in
  match err with
  | MailIo _ | MailTls _ | MailTransient _ | MailTimeout => TemporaryFailure connection
  | MailUnexpectedReply reply =>
      by_severity reply (UnexpectedResponse
        {| Smtp.hostname := {| entity := hostname; details := str_trim command |};
           response := reply |})
  | MailPermanent _ | MailInvalidTlsName => PermanentFailure connection
  end.

Definition from_starttls_error (hostname : list Z) (r : option Response) : DomainStatus :=
  match r with
  | Some reply =>
      by_severity reply (UnexpectedResponse
        {| Smtp.hostname := {| entity := hostname; details := lit "STARTTLS" |};
           response := reply |})
  | None =>
      PermanentFailure (TlsError {| entity := hostname;
                                    details := lit "STARTTLS not advertised by host." |})
  end.

Definition from_tls_error (hostname : list Z) (err : MailError) : DomainStatus :=
  let e text := TlsError {| entity := hostname; details := text |} in
  match err with
  | MailInvalidTlsName => PermanentFailure (e (lit "Invalid hostname"))
  | MailTimeout => TemporaryFailure (e (lit "TLS handshake timed out"))
  | MailTls text => TemporaryFailure (e (lit "Handshake failed: " ++ text))
  | MailIo text => TemporaryFailure (e (lit "I/O error: " ++ text))
  | _ => PermanentFailure (e (lit "Other TLS error"))
  end.

Definition status_timeout (hostname : list Z) (stage : string) : DomainStatus :=
  TemporaryFailure (ConnectionError
    {| entity := hostname; details := lit "Timeout while " ++ lit stage |}).
Definition local_error : DomainStatus :=
  TemporaryFailure (ConnectionError
    {| entity := lit "localhost"; details := lit "Could not deliver message locally." |}).

(** [From<mail_auth::Error>], [From<mta_sts::Error>] *)
Definition from_dns_failure (err : DnsFailure) : DomainStatus :=
  match err with
  | DnsRecordNotFound code => PermanentFailure (DnsError (lit "Domain not found: " ++ code))
  | _ => TemporaryFailure (DnsError (dns_failure_text err))
  end.
Definition from_sts_error (err : StsError) : DomainStatus :=
  match err with
  | StsDns (DnsRecordNotFound code) =>
      PermanentFailure (MtaStsError (lit "Record not found: " ++ code))
  | StsDns InvalidRecordType =>
      PermanentFailure (MtaStsError (lit "Failed to parse MTA-STS DNS record."))
  | StsDns err => TemporaryFailure (MtaStsError (lit "DNS lookup error: " ++ dns_failure_text err))
  | StsHttp is_timeout is_connect is_not_found =>
      if is_timeout then TemporaryFailure (MtaStsError (lit "Timeout fetching policy."))
      else if is_connect then TemporaryFailure (MtaStsError (lit "Could not reach policy host."))
      else if is_not_found then PermanentFailure (MtaStsError (lit "Policy not found."))
      else TemporaryFailure (MtaStsError (lit "Failed to fetch policy."))
  | StsInvalidPolicy err =>
      PermanentFailure (MtaStsError (lit "Failed to parse policy: " ++ err))
  end.
End errors.

(** ** Commands *)

Record SessionParams := {
  sp_hostname : list Z;
  sp_credentials : bool;
  sp_is_smtp : bool;
  sp_local_hostname : list Z;
}.

Section session.
Context {DB Txn BS : Type} `{RocksDB DB Txn} `{StoreWrite DB} `{BlobStore BS} `{Env} `{SmtpProto}.

Definition build_mail_from (m : Message) (capabilities : Z) : list Z :=
  let flag f ext := has_flag (m_flags m) f && has_capability capabilities ext in
  lit "MAIL FROM:<" ++ m_return_path m ++ lit ">" ++
  (if has_capability capabilities EXT_SIZE then lit " SIZE=" ++ decimal (m_size m) else []) ++
  (if flag MAIL_REQUIRETLS EXT_REQUIRE_TLS then lit " REQUIRETLS" else []) ++
  (if flag MAIL_SMTPUTF8 EXT_SMTP_UTF8 then lit " SMTPUTF8" else []) ++
  (if has_capability capabilities EXT_DSN then
     (if has_flag (m_flags m) MAIL_RET_FULL then lit " RET=FULL"
      else if has_flag (m_flags m) MAIL_RET_HDRS then lit " RET=HDRS" else []) ++
     (if m_env_id m is Some env_id then lit " ENVID=" ++ env_id else [])
   else []) ++ CRLF.

Definition build_rcpt_to (r : Recipient) (capabilities : Z) : list Z :=
  let flag := has_flag (rc_flags r) in
  let success := flag RCPT_NOTIFY_SUCCESS in
  let delay := flag RCPT_NOTIFY_DELAY in
  lit "RCPT TO:<" ++ rc_address r ++ lit ">" ++
  (if has_capability capabilities EXT_DSN then
     if flag (Z.lor (Z.lor RCPT_NOTIFY_SUCCESS RCPT_NOTIFY_FAILURE) RCPT_NOTIFY_DELAY) then
       lit " NOTIFY=" ++
       (if success then lit "SUCCESS" else []) ++
       (if delay then (if success then lit "," else []) ++ lit "DELAY" else []) ++
       (if flag RCPT_NOTIFY_FAILURE
        then (if success || delay then lit "," else []) ++ lit "FAILURE" else [])
     else if flag RCPT_NOTIFY_NEVER then lit " NOTIFY=NEVER" else []
   else []) ++ CRLF.

(** [say_helo], [read_greeting] *)
Definition say_helo (params : SessionParams) : Q DB BS (DomainStatus + Z) :=
  let cmd := lit (if sp_is_smtp params then "EHLO " else "LHLO ") ++
             sp_local_hostname params ++ CRLF in
  r <- timeout (question (AskReadEhlo cmd));;
  ret match r with
      | None => inl (status_timeout (sp_hostname params) "reading EHLO response")
      | Some (inl err) => inl (from_smtp_error (sp_hostname params) cmd err)
      | Some (inr capabilities) => inr capabilities
      end.
Definition read_greeting (hostname : list Z) : Q DB BS (DomainStatus + unit) :=
  r <- timeout (question AskRead);;
  ret match r with
      | None => inl (status_timeout hostname "reading greeting")
      | Some (inl err) => inl (from_smtp_error hostname [] err)
      | Some (inr reply) =>
          match assert_code reply 220 with
          | inl err => inl (from_smtp_error hostname [] err)
          | inr _ => inr tt
          end
      end.

(** [try_start_tls] *)
Inductive StartTlsResult :=
  | TlsSuccess
  | TlsFailed (error : MailError)
  | TlsUnavailable (reply : option Response).
Definition try_start_tls (hostname : list Z) (verify : bool) (capabilities : Z)
    : Q DB BS StartTlsResult :=
  if has_capability capabilities EXT_START_TLS then
    r <- question (AskCmd (lit "STARTTLS" ++ CRLF));;
    match r with
    | inl error => ret (TlsFailed error)
    | inr reply =>
        if code reply =? 220 then
          tls <- question (AskTls hostname verify);;
          ret match tls with inl error => TlsFailed error | inr _ => TlsSuccess end
        else ret (TlsUnavailable (Some reply))
    end
  else ret (TlsUnavailable None).

(** [send_message]; without chunking the server is asked first. *)
Definition send_data (raw : list Z) : Q DB BS (MailError + unit) :=
  written <- question (AskWrite [lit "DATA" ++ CRLF]);;
  match written with
  | inl err => ret (inl err)
  | inr _ =>
      r <- question AskRead;;
      match r with
      | inl err => ret (inl err)
      | inr reply =>
          match assert_code reply 354 with
          | inl err => ret (inl err)
          | inr _ => question (AskWriteMessage raw)
          end
      end
  end.
Definition send_message (m : Message) (bdat_cmd : option (list Z)) (params : SessionParams)
    : Q DB BS (DomainStatus + unit) :=
  blobs <- get_blobs;;
  match get_blob blobs (m_blob_hash m) 0 None with
  | Ok (Some raw) =>
      r <- timeout (match bdat_cmd with
                    | Some cmd => question (AskWrite [cmd; raw])
                    | None => send_data raw
                    end);;
      ret match r with
          | None => inl (status_timeout (sp_hostname params) "sending message")
          | Some (inl err) =>
              inl (from_smtp_error (sp_hostname params) (default (lit "DATA") bdat_cmd) err)
          | Some (inr _) => inr tt
          end
  | _ => ret (inl (TemporaryFailure (Io (lit "Queue system error."))))
  end.

(** ** Recipients *)

(** [total_rcpt], [total_completed] *)
Record Tally := { total_rcpt : nat; total_completed : nat }.
Definition count_rcpt (t : Tally) : Tally :=
  {| total_rcpt := S (total_rcpt t); total_completed := total_completed t |}.
Definition count_completed (t : Tally) : Tally :=
  {| total_rcpt := total_rcpt t; total_completed := S (total_completed t) |}.

(** A recipient that was refused. *)
Definition refuse (entity_ command : list Z) (reply : Response) (t : Tally) (r : Recipient)
    : Recipient * Tally :=
  let e := {| Smtp.hostname := {| entity := entity_; details := command |}; response := reply |} in
  if decide (severity reply = PermanentNegativeCompletion)
  then (set_rc_status (PermanentFailure e) (add_flags RCPT_STATUS_CHANGED r), count_completed t)
  else (set_rc_status (TemporaryFailure e) (add_flags RCPT_STATUS_CHANGED r), t).

(** [RCPT TO] for every recipient of the domain that is not done; with each
    recipient the status it gets when the message is accepted.  An error ends
    the session. *)
Fixpoint rcpt_loop (idx : nat) (params : SessionParams) (capabilities : Z) (t : Tally)
    (rs : list Recipient)
    : Q DB BS (option DomainStatus * list (Recipient * option RcptStatus) * Tally) :=
  match rs with
  | [] => ret (None, [], t)
  | r :: rs =>
      if decide (rc_domain_idx r ≠ idx) then
        rest <- rcpt_loop idx params capabilities t rs;;
        let '(failed, out, t) := rest in ret (failed, (r, None) :: out, t)
      else
        let t := count_rcpt t in
        if is_final (rc_status r) then
          rest <- rcpt_loop idx params capabilities (count_completed t) rs;;
          let '(failed, out, t) := rest in ret (failed, (r, None) :: out, t)
        else
          let cmd := build_rcpt_to r capabilities in
          reply <- question (AskCmd cmd);;
          match reply with
          | inl err =>
              ret (Some (from_smtp_error (sp_hostname params) [] err),
                   (r, None) :: ((λ r, (r, None)) <$> rs), t)
          | inr reply =>
              if decide (severity reply = PositiveCompletion) then
                rest <- rcpt_loop idx params capabilities t rs;;
                let '(failed, out, t) := rest in
                ret (failed,
                     (r, Some (Completed {| Smtp.hostname := sp_hostname params;
                                            response := reply |})) :: out, t)
              else
                let '(r, t) := refuse (sp_hostname params) (str_trim cmd) reply t r in
                rest <- rcpt_loop idx params capabilities t rs;;
                let '(failed, out, t) := rest in ret (failed, (r, None) :: out, t)
          end
  end.

(** After an SMTP server took the message: the accepted recipients are done. *)
Fixpoint complete_all (t : Tally) (out : list (Recipient * option RcptStatus))
    : list Recipient * Tally :=
  match out with
  | [] => ([], t)
  | (r, None) :: out => let '(rs, t) := complete_all t out in (r :: rs, t)
  | (r, Some status) :: out =>
      let '(rs, t) := complete_all (count_completed t) out in
      (add_flags RCPT_STATUS_CHANGED (set_rc_status status r) :: rs, t)
  end.
(** After an LMTP server answered for each accepted recipient. *)
Fixpoint complete_each (params : SessionParams) (command : list Z) (t : Tally)
    (out : list (Recipient * option RcptStatus)) (replies : list Response)
    : list Recipient * Tally :=
  match out with
  | [] => ([], t)
  | (r, None) :: out =>
      let '(rs, t) := complete_each params command t out replies in (r :: rs, t)
  | (r, Some _) :: out =>
      match replies with
      | [] => let '(rs, t) := complete_each params command t out [] in (r :: rs, t)
      | reply :: replies =>
          let '(r, t) :=
            if decide (severity reply = PositiveCompletion)
            then (set_rc_status (Completed {| Smtp.hostname := sp_hostname params;
                                              response := reply |})
                    (add_flags RCPT_STATUS_CHANGED r), count_completed t)
            else refuse (sp_hostname params) command reply t r in
          let '(rs, t) := complete_each params command t out replies in (r :: rs, t)
      end
  end.

Definition tally_status (t : Tally) : DomainStatus :=
  if decide (total_completed t = total_rcpt t) then Completed tt else Scheduled.

(** The [DATA] phase, for the recipients that were accepted. *)
Definition data_phase (m : Message) (params : SessionParams) (capabilities : Z) (t : Tally)
    (out : list (Recipient * option RcptStatus)) : Q DB BS (DomainStatus * list Recipient) :=
  let bdat_cmd :=
    if has_capability capabilities EXT_CHUNKING
    then Some (lit "BDAT " ++ decimal (m_size m) ++ lit " LAST" ++ CRLF) else None in
  let command := default (lit "DATA") bdat_cmd in
  let host := sp_hostname params in
  sent <- send_message m bdat_cmd params;;
  match sent with
  | inl status => ret (status, out.*1)
  | inr _ =>
      if sp_is_smtp params then
        r <- timeout (question AskRead);;
        ret match r with
            | None => (status_timeout host "reading SMTP DATA response", out.*1)
            | Some (inl err) => (from_smtp_error host command err, out.*1)
            | Some (inr reply) =>
                if code reply =? 250 then
                  let '(rs, t) := complete_all t out in (tally_status t, rs)
                else (from_smtp_error host command (MailUnexpectedReply reply), out.*1)
            end
      else
        r <- timeout (question (AskReadMany (length (omap snd out))));;
        ret match r with
            | None => (status_timeout host "reading LMTP DATA responses", out.*1)
            | Some (inl err) => (from_smtp_error host [] err, out.*1)
            | Some (inr replies) =>
                let '(rs, t) := complete_each params command t out replies in (tally_status t, rs)
            end
  end.

(** [Message::deliver] *)
Definition deliver (m : Message) (idx : nat) (params : SessionParams) (rs : list Recipient)
    : Q DB BS (DomainStatus * list Recipient) :=
  let host := sp_hostname params in
  helo <- say_helo params;;
  match helo with
  | inl status => ret (status, rs)
  | inr capabilities =>
      auth <- (if sp_credentials params then question AskAuthenticate else ret (inr tt));;
      match auth with
      | inl err => ret (from_smtp_error host (lit "AUTH ...") err, rs)
      | inr _ =>
          let cmd := build_mail_from m capabilities in
          reply <- question (AskCmd cmd);;
          match (match reply with inl err => inl err | inr r => assert_positive_completion r end) with
          | inl err => ret (from_smtp_error host cmd err, rs)
          | inr _ =>
              r <- rcpt_loop idx params capabilities {| total_rcpt := 0; total_completed := 0 |} rs;;
              let '(failed, out, t) := r in
              match failed with
              | Some status => ret (status, out.*1)
              | None =>
                  if decide (omap snd out = []) then ret (tally_status t, out.*1)
                  else data_phase m params capabilities t out
              end
          end
      end
  end.

(** ** Local delivery: [Message::deliver_local] *)

Definition local_reply (address : list Z) (code_ : Z) (esc_ : Z * Z * Z) (reason : list Z)
    : HostResponse ErrorDetails :=
  {| Smtp.hostname := {| entity := lit "localhost";
                         details := lit "RCPT TO:<" ++ address ++ lit ">" |};
     response := {| code := code_; esc := esc_; r_message := reason |} |}.
Definition local_result (r : Recipient) (result : DeliveryResult) : Recipient :=
  let r := add_flags RCPT_STATUS_CHANGED r in
  match result with
  | DeliverySuccess =>
      set_rc_status (Completed {| Smtp.hostname := lit "localhost";
        response := {| code := 250; esc := (2, 1, 5); r_message := lit "OK" |} |}) r
  | DeliveryTemporary reason =>
      set_rc_status (TemporaryFailure (local_reply (rc_address r) 451 (4, 3, 0) reason)) r
  | DeliveryPermanent code reason =>
      set_rc_status (PermanentFailure (local_reply (rc_address r) 550 code reason)) r
  end.
Definition is_pending (idx : nat) (r : Recipient) : bool :=
  bool_decide (rc_domain_idx r = idx) && negb (is_final (rc_status r)).
(** [pending_recipients.into_iter().zip(delivery_result)] *)
Fixpoint local_results (idx : nat) (t : Tally) (rs : list Recipient) (results : list DeliveryResult)
    : list Recipient * Tally :=
  match rs with
  | [] => ([], t)
  | r :: rs =>
      if is_pending idx r then
        match results with
        | [] => let '(rs, t) := local_results idx t rs [] in (r :: rs, t)
        | result :: results =>
            let t := if result is DeliveryTemporary _ then t else count_completed t in
            let '(rs, t) := local_results idx t rs results in (local_result r result :: rs, t)
        end
      else let '(rs, t) := local_results idx t rs results in (r :: rs, t)
  end.
Definition local_tally (idx : nat) (rs : list Recipient) : Tally :=
  let of_domain := base.filter (λ r, rc_domain_idx r = idx) rs in
  {| total_rcpt := length of_domain;
     total_completed := length (base.filter (λ r, is_final (rc_status r) = true) of_domain) |}.
Definition deliver_local (m : Message) (idx : nat) (rs : list Recipient)
    : Q DB BS (DomainStatus * list Recipient) :=
  results <- question (AskIngest (m_return_path_lcase m)
               (rc_address_lcase <$> base.filter (λ r, is_pending idx r = true) rs)
               (m_blob_hash m) (m_size m));;
  match results with
  | None => ret (local_error, rs)
  | Some results =>
      let '(rs, t) := local_results idx (local_tally idx rs) rs results in
      ret (tally_status t, rs)
  end.
End session.
End Session.
