(* ===== verification/SmtpDelivery.v ===== *)
(** * Delivery attempts and the queue manager

    [smtp/src/outbound/delivery.rs]: one attempt to deliver a message, from
    the lock on its event to the write that ends it; the choice of hosts and
    addresses of [outbound/lookup.rs] and [outbound/mod.rs]; the protection a
    connection needs; and the manager of [queue/manager.rs] that starts the
    attempts.  Logging and the reports on TLS are left out: they do not act on
    the queue. *)

From stdpp Require Import base gmap sorting strings numbers list.
From S2P Require Import Prelude Codec Keys Roaring Kv Batch Commit Read Store Utf8 JsonPrint Query Blob Smtp SmtpSpool SmtpDsn SmtpSession.
Import Smtp Spool Dsn Session.
Open Scope Z_scope.
Open Scope bytes_scope.
Open Scope queue_scope.

Module Delivery.

(** ** Hosts: [NextHop] *)

Inductive NextHop := Relay (host : RelayHost) | HopMX (host : list Z).

Definition ends_with_dot (s : list Z) : bool := bool_decide (last s = Some 46).
Definition hop_hostname (h : NextHop) : list Z :=
  match h with
  | HopMX host => if ends_with_dot host then take (length host - 1) host else host
  | Relay host => rh_address host
  end.
Definition fqdn_hostname (h : NextHop) : list Z :=
  match h with
  | HopMX host => if ends_with_dot host then host else host ++ [46]
  | Relay host => rh_address host
  end.
Definition hop_port (h : NextHop) : Z := match h with HopMX _ => 25 | Relay host => rh_port host end.
Definition hop_credentials (h : NextHop) : bool :=
  match h with HopMX _ => false | Relay host => rh_auth host end.
Definition allow_invalid_certs (h : NextHop) : bool :=
  match h with HopMX _ => false | Relay host => rh_tls_allow_invalid_certs host end.
Definition implicit_tls (h : NextHop) : bool :=
  match h with HopMX _ => false | Relay host => rh_tls_implicit host end.
Definition is_proto_smtp (p : ServerProtocol) : bool := if p is ProtoSmtp then true else false.
Definition hop_is_smtp (h : NextHop) : bool :=
  match h with HopMX _ => true | Relay host => is_proto_smtp (rh_protocol host) end.

(** ** TLS: [TlsStrategy], [VerifyPolicy] *)

Record TlsStrategy := { dane : RequireOptional; mta_sts : RequireOptional; tls : RequireOptional }.
Definition is_tried (r : RequireOptional) : bool :=
  match r with Require_ | Optional => true | Disable => false end.
Definition is_required (r : RequireOptional) : bool := if r is Require_ then true else false.
Definition is_tls_required (s : TlsStrategy) : bool :=
  is_required (tls s) || is_required (dane s) || is_required (mta_sts s).

(** [str::split_once('.')], the part after the dot *)
Fixpoint after_dot (s : list Z) : option (list Z) :=
  match s with [] => None | c :: s => if c =? 46 then Some s else after_dot s end.
Definition mx_matches (mx_host : list Z) (p : MxPattern) : bool :=
  match p with
  | Equals host => bool_decide (host = mx_host)
  | StartsWith domain => bool_decide (after_dot mx_host = Some domain)
  end.
Definition policy_verify (p : Policy) (mx_host : list Z) : bool :=
  match p_mode p with ModeNone => true | _ => existsb (mx_matches mx_host) (p_mx p) end.
Definition policy_enforce (p : Policy) : bool := if p_mode p is Enforce then true else false.

(** ** DANE: [TlsaVerify] of [outbound/dane/verify.rs] *)

Section dane.
Context `{SmtpProto}.

Definition tlsa_hash (record : TlsaEntry) (der public_key : list Z) : list Z :=
  let data := if te_is_spki record then public_key else der in
  if te_is_sha256 record then sha256 data else sha512 data.
Definition tlsa_matches (is_end_entity : bool) (der public_key : list Z) (record : TlsaEntry) : bool :=
  bool_decide (te_is_end_entity record = is_end_entity) &&
  bool_decide (tlsa_hash record der public_key = te_data record).

(** The certificates in their order, the first is the server's own.  What was
    matched so far; [inl] is a certificate that cannot be read. *)
Fixpoint dane_loop (t : Tlsa) (pos : nat) (end_entity : bool) (certs : list Certificate)
    : unit + (bool * bool) :=
  match certs with
  | [] => inr (end_entity, false)
  | c :: certs =>
      match ce_public_key c with
      | None => inl tt
      | Some public_key =>
          let is_end_entity := bool_decide (pos = 0%nat) in
          if existsb (tlsa_matches is_end_entity (ce_der c) public_key) (tl_entries t) then
            if is_end_entity then
              if has_intermediates t then dane_loop t (S pos) true certs else inr (true, false)
            else inr (end_entity, true)
          else dane_loop t (S pos) end_entity certs
      end
  end.
Definition dane_verify (t : Tlsa) (hostname : list Z) (certificates : option (list Certificate))
    : option DomainStatus :=
  let failed text := DaneError {| entity := hostname; details := lit text |} in
  match certificates with
  | None => Some (TemporaryFailure (failed "No certificates were provided by host"))
  | Some certs =>
      match dane_loop t 0 false certs with
      | inl _ => Some (TemporaryFailure (failed "Failed to parse X.509 certificate"))
      | inr (matched_end_entity, matched_intermediate) =>
          if bool_decide (has_end_entities t = matched_end_entity) &&
             bool_decide (has_intermediates t = matched_intermediate) then None
          else Some (PermanentFailure (failed "No matching certificates found in TLSA records"))
      end
  end.
End dane.

(** Throttles are known by numbers. *)
Class QueueConfig := {
  throttle_sender : list nat;
  throttle_rcpt : list nat;
  throttle_host : list nat;
}.

Section delivery.
Context {DB Txn BS : Type} `{RocksDB DB Txn} `{StoreWrite DB} `{BlobStore BS} `{Env} `{SmtpProto}.
Context `{QueueConfig}.
Context (blake3 : list Z → list Z) (bincode_serialize : Message → list Z).
Context (bincode_deserialize : list Z → result Message).

Fixpoint is_allowed (throttles : list nat) (m : Message) (e : option Envelope)
    : Q DB BS (option ThrottleError) :=
  match throttles with
  | [] => ret None
  | t :: throttles =>
      r <- question (AskAllowed t m e);;
      match r with Some err => ret (Some err) | None => is_allowed throttles m e end
  end.

(** ** Addresses: [ip_lookup], [resolve_host] *)

Definition ip_lookup (key : list Z) (strategy : IpLookupStrategy) (max_results : nat)
    : Q DB BS (DnsFailure + list IpAddr) :=
  let '(has_ipv4, has_ipv6, v4_first) :=
    match strategy with
    | Ipv4Only => (true, false, false)
    | Ipv6Only => (false, true, false)
    | Ipv4thenIpv6 => (true, true, true)
    | Ipv6thenIpv4 => (true, true, false)
    end in
  v4 <- (if (has_ipv4 : bool) then question (AskIpv4 key) else ret (inr []));;
  match (match v4 with inl err => if (has_ipv6 : bool) then inr [] else inl err | r => r end) with
  | inl err => ret (inl err)
  | inr v4 =>
      if has_ipv6 then
        v6 <- question (AskIpv6 key);;
        ret match (match v6 with
                   | inl err => if decide (v4 = []) then inl err else inr []
                   | r => r
                   end) with
            | inl err => inl err
            | inr v6 =>
                inr (take max_results
                       (if (v4_first : bool) then (V4 <$> v4) ++ (V6 <$> v6)
                        else (V6 <$> v6) ++ (V4 <$> v4)))
            end
      else ret (inr (V4 <$> take max_results v4))
  end.

Record IpLookupResult := {
  source_ipv4 : option IpAddr;
  source_ipv6 : option IpAddr;
  remote_ips : list IpAddr;
}.
(** One of the configured addresses, at random. *)
Definition source_ip (v4 : bool) (m : Message) (e : Envelope) : Q DB BS (option IpAddr) :=
  ips <- question (AskSourceIps v4 m e);;
  let ips := default [] ips in
  let ip := if v4 then V4 else V6 in
  match ips with
  | [] => ret None
  | [a] => ret (Some (ip a))
  | _ =>
      i <- question (AskIndex (length ips));;
      a <- or_panic (ips !! i);;
      ret (Some (ip a))
  end.
Definition resolve_host (m : Message) (e : Envelope) (host : NextHop) (max_multihomed : nat)
    : Q DB BS (DomainStatus + IpLookupResult) :=
  strategy <- question (AskIpStrategy m e);;
  r <- ip_lookup (fqdn_hostname host) (default Ipv4thenIpv6 strategy) max_multihomed;;
  match r with
  | inl (DnsRecordNotFound _) =>
      ret (inl (PermanentFailure (ConnectionError
        {| entity := hop_hostname host; details := lit "record not found for MX" |})))
  | inl err =>
      ret (inl (TemporaryFailure (ConnectionError
        {| entity := hop_hostname host; details := lit "lookup error: " ++ dns_failure_text err |})))
  | inr [] =>
      ret (inl (TemporaryFailure (DnsError
        (lit "No IP addresses found for " ++ str_debug (e_mx e) ++ lit "."))))
  | inr ips =>
      v4 <- source_ip true m e;;
      v6 <- source_ip false m e;;
      ret (inr {| source_ipv4 := v4; source_ipv6 := v6; remote_ips := ips |})
  end.

(** [ToNextHop]: at most [max_mx] hosts, unless that is 0. *)
Fixpoint push_hosts (max_mx : nat) (hosts : list NextHop) (names : list (list Z))
    : list NextHop * bool :=
  match names with
  | [] => (hosts, false)
  | name :: names =>
      let hosts := hosts ++ [HopMX name] in
      if decide (length hosts = max_mx) then (hosts, true) else push_hosts max_mx hosts names
  end.
Fixpoint mx_loop (max_mx : nat) (hosts : list NextHop) (mxs : list MX)
    : Q DB BS (option (list NextHop)) :=
  match mxs with
  | [] => ret (Some hosts)
  | mx :: mxs =>
      match mx_exchanges mx with
      | [] => mx_loop max_mx hosts mxs
      | [name] =>
          if (mx_preference mx =? 0) && bool_decide (name = [46]) then ret None
          else
            let '(hosts, full) := push_hosts max_mx hosts [name] in
            if (full : bool) then ret (Some hosts) else mx_loop max_mx hosts mxs
      | names =>
          names <- question (AskShuffle names);;
          let '(hosts, full) := push_hosts max_mx hosts names in
          if (full : bool) then ret (Some hosts) else mx_loop max_mx hosts mxs
      end
  end.
Definition to_remote_hosts (domain : list Z) (max_mx : nat) (mxs : list MX)
    : Q DB BS (option (list NextHop)) :=
  match mxs with [] => ret (Some [HopMX domain]) | _ => mx_loop max_mx [] mxs end.

(** ** One host *)

(** How the attempt goes on: with the next address, with the next host, with
    the next domain; or the message was handed over. *)
Inductive Flow :=
  | NextIp (last_status : DomainStatus)
  | NextHost (last_status : DomainStatus)
  | Throttled (err : ThrottleError)
  | Delivered (result : DomainStatus) (rs : list Recipient).

Definition set_mx (mx : list Z) (e : Envelope) : Envelope :=
  {| e_domain := e_domain e; e_rcpt := e_rcpt e; e_mx := mx; e_remote_ip := e_remote_ip e;
     e_local_ip := e_local_ip e |}.
Definition set_ips (remote local : IpAddr) (e : Envelope) : Envelope :=
  {| e_domain := e_domain e; e_rcpt := e_rcpt e; e_mx := e_mx e; e_remote_ip := remote;
     e_local_ip := local |}.

(** What is known of a host before a connection is made. *)
Record HostPlan := {
  hp_host : NextHop;
  hp_strategy : TlsStrategy;
  hp_sts : option Policy;
  hp_dane : option Tlsa;
  hp_invalid_certs : bool;
}.

Definition is_strict_tls (m : Message) (p : HostPlan) : bool :=
  is_tls_required (hp_strategy p) || has_flag (m_flags m) MAIL_REQUIRETLS ||
  bool_decide (hp_sts p ≠ None) || bool_decide (hp_dane p ≠ None).

(** Who may ask for TLS: the settings of the host, the sender of the message,
    a policy of the domain or of the host. *)
Definition demands_tls (m : Message) (p : HostPlan) : bool :=
  existsb id
    [is_required (tls (hp_strategy p)); is_required (dane (hp_strategy p));
     is_required (mta_sts (hp_strategy p)); negb (Z.land (m_flags m) MAIL_REQUIRETLS =? 0);
     if hp_sts p is Some _ then true else false; if hp_dane p is Some _ then true else false].

(** [message.deliver(..)], with a note of the connection it uses and of
    whether anyone asked for TLS *)
Definition transfer (m : Message) (e : Envelope) (p : HostPlan) (secure : bool)
    (params : SessionParams) (rs : list Recipient) : Q DB BS Flow :=
  send (Transferred m e secure (tls (hp_strategy p)) (demands_tls m p));;
  r <- deliver m (e_domain e) params rs;;
  ret (Delivered r.1 r.2).

(** A connection that starts without TLS. *)
Definition deliver_plain (m : Message) (e : Envelope) (p : HostPlan) (params : SessionParams)
    (rs : list Recipient) : Q DB BS Flow :=
  let verify := negb (hp_invalid_certs p || allow_invalid_certs (hp_host p)) in
  greeting <- read_greeting (e_mx e);;
  match greeting with
  | inl status => ret (NextHost status)
  | inr _ =>
      helo <- say_helo params;;
      match helo with
      | inl status => ret (NextHost status)
      | inr capabilities =>
          if is_tried (tls (hp_strategy p)) then
            started <- try_start_tls (e_mx e) verify capabilities;;
            match started with
            | TlsSuccess =>
                verified <- (match hp_dane p with
                             | Some tlsa =>
                                 certificates <- question AskCertificates;;
                                 ret (dane_verify tlsa (e_mx e) certificates)
                             | None => ret None
                             end);;
                match verified with
                | Some status => ret (NextHost status)
                | None => transfer m e p true params rs
                end
            | TlsUnavailable reply =>
                if is_strict_tls m p then ret (NextHost (from_starttls_error (e_mx e) reply))
                else transfer m e p false params rs
            | TlsFailed error =>
                ret (NextHost (if is_strict_tls m p then from_tls_error (e_mx e) error
                               else into_temporary (from_tls_error (e_mx e) error)))
            end
          else transfer m e p false params rs
      end
  end.
(** A connection that starts with TLS. *)
Definition deliver_implicit (m : Message) (e : Envelope) (p : HostPlan) (params : SessionParams)
    (rs : list Recipient) : Q DB BS Flow :=
  let verify := negb (hp_invalid_certs p || allow_invalid_certs (hp_host p)) in
  started <- question (AskTls (e_mx e) verify);;
  match started with
  | inl error => ret (NextHost (from_tls_error (e_mx e) error))
  | inr _ =>
      greeting <- read_greeting (e_mx e);;
      match greeting with
      | inl status => ret (NextHost status)
      | inr _ => transfer m e p true params rs
      end
  end.

Definition try_ip (m : Message) (e : Envelope) (p : HostPlan) (resolved : IpLookupResult)
    (rs : list Recipient) (remote_ip : IpAddr) : Q DB BS Flow :=
  let source := match remote_ip with V4 _ => source_ipv4 resolved | V6 _ => source_ipv6 resolved end in
  let e := set_ips remote_ip (default no_ip source) e in
  throttled <- is_allowed throttle_host m (Some e);;
  match throttled with
  | Some err => ret (Throttled err)
  | None =>
      connected <- question (AskConnect source remote_ip (hop_port (hp_host p)));;
      match connected with
      | inl err => ret (NextIp (from_smtp_error (e_mx e) [] err))
      | inr _ =>
          local_hostname <- question (AskHostname m e);;
          let local_hostname :=
            match local_hostname with Some (_ :: _ as s) => s | _ => lit "local.host" end in
          let params := {| sp_hostname := e_mx e; sp_credentials := hop_credentials (hp_host p);
                           sp_is_smtp := hop_is_smtp (hp_host p);
                           sp_local_hostname := local_hostname |} in
          if implicit_tls (hp_host p) then deliver_implicit m e p params rs
          else deliver_plain m e p params rs
      end
  end.
Fixpoint try_ips (m : Message) (e : Envelope) (p : HostPlan) (resolved : IpLookupResult)
    (rs : list Recipient) (last_status : DomainStatus) (ips : list IpAddr) : Q DB BS Flow :=
  match ips with
  | [] => ret (NextHost last_status)
  | ip :: ips =>
      r <- try_ip m e p resolved rs ip;;
      match r with
      | NextIp last_status => try_ips m e p resolved rs last_status ips
      | r => ret r
      end
  end.

(** The TLSA records of a host; [inl] gives the host up. *)
Definition dane_policy (e : Envelope) (is_smtp : bool) (strategy : TlsStrategy)
    : Q DB BS (DomainStatus + option Tlsa) :=
  let failed (text : string) : DomainStatus :=
    PermanentFailure (DaneError {| entity := e_mx e; details := lit text |}) in
  if is_tried (dane strategy) && is_smtp then
    r <- question (AskTlsa (lit "_25._tcp." ++ e_mx e ++ lit "."));;
    ret match r with
        | inr (Some tlsa) =>
            if has_end_entities tlsa then inr (Some tlsa)
            else if is_required (dane strategy)
                 then inl (failed "No valid TLSA records were found") else inr None
        | inr None =>
            if is_required (dane strategy) then inl (failed "No TLSA DNSSEC records found")
            else inr None
        | inl err =>
            if is_required (dane strategy)
            then inl (if err is DnsRecordNotFound _ then failed "No TLSA records found"
                      else from_dns_failure err)
            else inr None
        end
  else ret (inr None).

Definition try_host (m : Message) (e : Envelope) (is_smtp invalid_certs : bool)
    (mta_sts_ : RequireOptional) (sts : option Policy) (max_multihomed : nat) (rs : list Recipient)
    (last_status : DomainStatus) (host : NextHop) : Q DB BS Flow :=
  let e := set_mx (hop_hostname host) e in
  let unauthorized := if sts is Some policy
                      then negb (policy_verify policy (e_mx e)) && policy_enforce policy
                      else false in
  if (unauthorized : bool) then
    ret (NextHost (PermanentFailure (MtaStsError
      (lit "MX " ++ str_debug (e_mx e) ++ lit " not authorized by policy."))))
  else
    resolved <- resolve_host m e host max_multihomed;;
    match resolved with
    | inl status => ret (NextHost status)
    | inr resolved =>
        dane_ <- question (AskDane m e);;
        tls_ <- question (AskStartTls m e);;
        let strategy := {| dane := default Optional dane_; mta_sts := mta_sts_;
                           tls := default Optional tls_ |} in
        policy <- dane_policy e is_smtp strategy;;
        match policy with
        | inl status => ret (NextHost status)
        | inr tlsa =>
            try_ips m e {| hp_host := host; hp_strategy := strategy; hp_sts := sts;
                           hp_dane := tlsa; hp_invalid_certs := invalid_certs |}
              resolved rs last_status (remote_ips resolved)
        end
    end.
Fixpoint try_hosts (m : Message) (e : Envelope) (is_smtp invalid_certs : bool)
    (mta_sts_ : RequireOptional) (sts : option Policy) (max_multihomed : nat) (rs : list Recipient)
    (last_status : DomainStatus) (hosts : list NextHop) : Q DB BS Flow :=
  match hosts with
  | [] => ret (NextHost last_status)
  | host :: hosts =>
      r <- try_host m e is_smtp invalid_certs mta_sts_ sts max_multihomed rs last_status host;;
      match r with
      | NextIp last_status | NextHost last_status =>
          try_hosts m e is_smtp invalid_certs mta_sts_ sts max_multihomed rs last_status hosts
      | r => ret r
      end
  end.

(** ** One domain *)

(** The MTA-STS policy; [inl] gives the domain up. *)
Definition sts_policy (domain : list Z) (is_smtp : bool) (mta_sts_ : RequireOptional)
    : Q DB BS (DomainStatus + option Policy) :=
  if is_tried mta_sts_ && is_smtp then
    r <- question (AskPolicy domain);;
    ret match r with
        | inr policy => inr (Some policy)
        | inl err => if is_required mta_sts_ then inl (from_sts_error err) else inr None
        end
  else ret (inr None).

(** The hosts of a domain; [inl] gives the domain up. *)
Definition remote_hosts (m : Message) (e : Envelope) (domain : list Z) (relay : option NextHop)
    : Q DB BS (DomainStatus + list NextHop) :=
  match relay with
  | Some host => ret (inr [host])
  | None =>
      mxs <- question (AskMx domain);;
      match mxs with
      | inl err => ret (inl (from_dns_failure err))
      | inr mxs =>
          max_mx <- question (AskMaxMx m e);;
          hosts <- to_remote_hosts domain (default 5%nat max_mx) mxs;;
          ret match hosts with
              | Some hosts => inr hosts
              | None => inl (PermanentFailure (DnsError
                          (lit "Domain does not accept messages (null MX)")))
              end
      end
  end.

Definition try_remote (m : Message) (e : Envelope) (d : Domain) (relay : option NextHop)
    (rs : list Recipient) : Q DB BS Flow :=
  let is_smtp := if relay is Some host then hop_is_smtp host else true in
  mta_sts_ <- question (AskMtaSts m e);;
  let mta_sts_ := default Optional mta_sts_ in
  invalid_certs <- question (AskInvalidCerts m e);;
  sts <- sts_policy (d_domain d) is_smtp mta_sts_;;
  match sts with
  | inl status => ret (NextHost status)
  | inr sts =>
      hosts <- remote_hosts m e (d_domain d) relay;;
      match hosts with
      | inl status => ret (NextHost status)
      | inr hosts =>
          max_multihomed <- question (AskMaxMultihomed m e);;
          try_hosts m e is_smtp (default false invalid_certs) mta_sts_ sts
            (default 2%nat max_multihomed) rs Scheduled hosts
      end
  end.

(** [message.domains[domain_idx].set_status(status, &schedule)] *)
Definition update_status (m : Message) (e : Envelope) (status : DomainStatus) : Q DB BS Message :=
  schedule <- question (AskRetry m (e_domain e));;
  d <- or_panic (m_domains m !! e_domain e);;
  t <- (if is_active status then now else ret 0);;
  d <- or_panic (set_status t status (default [60] schedule) d);;
  ret (set_domains (<[e_domain e := d]> (m_domains m)) m).
Definition throttle_domain (m : Message) (idx : nat) (err : ThrottleError) (on_hold : list nat)
    : Q DB BS (Message * list nat) :=
  d <- or_panic (m_domains m !! idx);;
  let '(d, on_hold) := set_throttle_error err d on_hold in
  ret (set_domains (<[idx := d]> (m_domains m)) m, on_hold).

(** Whether a domain is due; the clock is read for those that are active. *)
Definition is_due (d : Domain) : Q DB BS bool :=
  if is_active (d_status d) then t <- now;; ret (s_due (d_retry d) <=? t) else ret false.

(** The recipients are apart from the message while it is delivered. *)
Definition deliver_domain (m : Message) (rs : list Recipient) (on_hold : list nat) (idx : nat)
    : Q DB BS (Message * list Recipient * list nat) :=
  d <- or_panic (m_domains m !! idx);;
  due <- is_due d;;
  if due then
    let e := envelope_new idx in
    throttled <- is_allowed throttle_rcpt m (Some e);;
    match throttled with
    | Some err =>
        r <- throttle_domain m idx err on_hold;;
        ret (r.1, rs, r.2)
    | None =>
        next_hop <- question (AskNextHop m e);;
        flow <- (match next_hop with
                 | Some host =>
                     if rh_protocol host is ProtoHttp then
                       r <- deliver_local m idx rs;; ret (Delivered r.1 r.2)
                     else try_remote m e d (Some (Relay host)) rs
                 | None => try_remote m e d None rs
                 end);;
        match flow with
        | Throttled err =>
            r <- throttle_domain m idx err on_hold;;
            ret (r.1, rs, r.2)
        | NextIp status | NextHost status =>
            m <- update_status m e status;;
            ret (m, rs, on_hold)
        | Delivered status rs =>
            m <- update_status m e status;;
            ret (m, rs, on_hold)
        end
    end
  else ret (m, rs, on_hold).
Fixpoint deliver_domains (m : Message) (rs : list Recipient) (on_hold : list nat) (idxs : list nat)
    : Q DB BS (Message * list Recipient * list nat) :=
  match idxs with
  | [] => ret (m, rs, on_hold)
  | idx :: idxs =>
      r <- deliver_domain m rs on_hold idx;;
      let '(m, rs, on_hold) := r in deliver_domains m rs on_hold idxs
  end.

(** ** One attempt: [DeliveryAttempt::try_deliver] *)

Definition hold (m : Message) (event : QueueEventLock) (limiters : list nat) : Q DB BS unit :=
  t <- now;;
  let next_due := next_event_after t m in
  save_changes bincode_serialize m None;;
  notify (OnHold_ {| h_next_due := next_due; h_limiters := limiters; h_message := event |}).

(** The sender is throttled. *)
Definition throttle_message (m : Message) (event : QueueEventLock) (err : ThrottleError)
    : Q DB BS unit :=
  match err with
  | Concurrency limiter => hold m event [limiter]
  | Rate retry_at =>
      t <- now;;
      let next_event := Z.min retry_at (default U64_MAX (next_event_after t m)) in
      save_changes bincode_serialize m (Some (l_due event, next_event));;
      notify Reload
  end.

(** What is saved after the domains were tried. *)
Definition finish (m : Message) (event : QueueEventLock) (on_hold : list nat) : Q DB BS unit :=
  if decide (on_hold = []) then
    t <- now;;
    match next_event t m with
    | Some due =>
        save_changes bincode_serialize m (Some (l_due event, due));;
        notify Reload
    | None =>
        remove m (l_due event);;
        notify Reload
    end
  else hold m event on_hold.

(** A message that is due. *)
Definition attempt (m : Message) (event : QueueEventLock) : Q DB BS unit :=
  throttled <- is_allowed throttle_sender m None;;
  match throttled with
  | Some err => throttle_message m event err
  | None =>
      r <- deliver_domains (set_recipients [] m) (m_recipients m) []
             (seq 0 (length (m_domains m)));;
      let '(m, rs, on_hold) := r in
      m <- send_dsn blake3 bincode_serialize (set_recipients rs m);;
      finish m event on_hold
  end.

Definition process (m : Message) (event : QueueEventLock) : Q DB BS unit :=
  t <- now;;
  let '(pending, m) := has_pending_delivery t m in
  m <- send_dsn blake3 bincode_serialize m;;
  if (pending : bool) then
    t <- now;;
    let due := next_delivery_event t m in
    t <- now;;
    if t <? due then
      save_changes bincode_serialize m (Some (l_due event, due));;
      notify Reload
    else attempt m event
  else
    remove m (l_due event);;
    notify Reload.

Definition try_deliver (event : QueueEventLock) : Q DB BS unit :=
  locked <- try_lock_event event;;
  match locked with
  | None => ret tt
  | Some event =>
      message <- read_message bincode_deserialize (l_queue_id event);;
      match message with
      | None =>
          (* Message no longer exists, delete queue event. *)
          write_batch (clear (Queue (event_class (l_due event) (l_queue_id event))) builder_new);;
          ret tt
      | Some m => process m event
      end
  end.

(** ** The manager: [Queue] *)

(** Times in milliseconds. *)
Definition SHORT_WAIT : Z := 1.
Definition LONG_WAIT : Z := 86400 * 365 * 1000.
Record Manager := { on_hold : list OnHold; next_wake_up : Z }.
Definition manager_new : Manager := {| on_hold := []; next_wake_up := SHORT_WAIT |}.

Fixpoint any_free (limiters : list nat) : Q DB BS bool :=
  match limiters with
  | [] => ret false
  | l :: limiters => free <- question (AskFree l);; if free then ret true else any_free limiters
  end.
Definition may_resume (t : Z) (h : OnHold) : Q DB BS bool :=
  free <- any_free (h_limiters h);;
  ret (free || if h_next_due h is Some due then due <=? t else false).
(** [Queue::next_on_hold]: the first that may be resumed, without it the rest *)
Fixpoint take_on_hold (t : Z) (hs : list OnHold) : Q DB BS (option (QueueEventLock * list OnHold)) :=
  match hs with
  | [] => ret None
  | h :: hs =>
      resume <- may_resume t h;;
      if resume then ret (Some (h_message h, hs))
      else
        r <- take_on_hold t hs;;
        ret ((λ r, (r.1, h :: r.2)) <$> r)
  end.
Definition next_on_hold (hs : list OnHold) : Q DB BS (option (QueueEventLock * list OnHold)) :=
  t <- now;; take_on_hold t hs.
(** [while let Some(..) = self.next_on_hold()]; each round takes one out. *)
Fixpoint resume_loop (fuel : nat) (hs : list OnHold) : Q DB BS (list QueueEventLock * list OnHold) :=
  match fuel with
  | O => ret ([], hs)
  | S fuel =>
      r <- next_on_hold hs;;
      match r with
      | None => ret ([], hs)
      | Some (event, hs) =>
          rest <- resume_loop fuel hs;;
          ret (event :: rest.1, rest.2)
      end
  end.

(** The events that are due are tried, one that is not is waited for. *)
Fixpoint dispatch (t : Z) (wake_up : Z) (events : list QueueEventLock) : list QueueEventLock * Z :=
  match events with
  | [] => ([], wake_up)
  | event :: events =>
      if l_due event <=? t then
        let '(tried, wake_up) := dispatch t wake_up events in (event :: tried, wake_up)
      else dispatch t ((l_due event - t) * 1000) events
  end.
(** [Queue::process_events]: with the attempts it starts *)
Definition process_events (q : Manager) : Q DB BS (list QueueEventLock * Manager) :=
  resumed <- resume_loop (S (length (on_hold q))) (on_hold q);;
  t <- now;;
  scan_now <- now;;
  db <- get_db;;
  let '(tried, wake_up) := dispatch t LONG_WAIT (next_events scan_now db) in
  ret (resumed.1 ++ tried, {| on_hold := resumed.2; next_wake_up := wake_up |}).

(** One round of the loop of [spawn]: [None] when the queue stops.  A round
    starts with an event or when the wait is over. *)
Definition handle_event (q : Manager) (event : option Event)
    : Q DB BS (option (list QueueEventLock * Manager)) :=
  match event with
  | Some Stop => ret None
  | _ =>
      r <- process_events q;;
      let held := if event is Some (OnHold_ h) then [h] else [] in
      ret (Some (r.1, {| on_hold := on_hold r.2 ++ held; next_wake_up := next_wake_up r.2 |}))
  end.
End delivery.
End Delivery.
