(* ===== verification/SmtpInbound.v ===== *)
(** * Accepting a message

    [Session::build_message] and the end of [Session::queue_message] of
    [smtp/src/inbound/data.rs], with the order of [SessionAddress] of
    [smtp/src/core/mod.rs]: the recipients are sorted, so that those of a
    domain are together, and each domain gets its times.  A [Duration] is its
    seconds; adding two panics when they overflow. *)

From stdpp Require Import base gmap sorting strings numbers list.
From S2P Require Import Prelude Codec Keys Roaring Kv Batch Commit Read Store Query Blob Smtp SmtpSpool SmtpDsn.
Import Smtp Spool Dsn.
Open Scope Z_scope.
Open Scope bytes_scope.
Open Scope queue_scope.

Module Inbound.

Record SessionAddress := {
  sa_address : list Z;
  sa_address_lcase : list Z;
  sa_domain : list Z;
  sa_flags : Z;
  sa_dsn_info : option (list Z);
}.
(** [Ord for SessionAddress] *)
Definition address_cmp (a b : SessionAddress) : comparison :=
  match bytes_cmp (sa_domain a) (sa_domain b) with
  | Eq => bytes_cmp (sa_address_lcase a) (sa_address_lcase b)
  | order => order
  end.
Definition address_le (a b : SessionAddress) : Prop := address_cmp a b ≠ Gt.
#[export] Instance address_le_dec : RelDecision address_le.
Proof. intros a b. unfold address_le. apply _. Defined.

(** What [MAIL FROM] asked for; [delivery_by] is an [i64]. *)
Record SessionData := {
  sd_priority : Z;
  sd_future_release : Z;
  sd_delivery_by : Z;
}.

(** [Duration + Duration] *)
Definition duration_add (a b : Z) : option Z := if a + b <? 2 ^ 64 then Some (a + b) else None.

Section inbound.
Context {DB Txn BS : Type} `{RocksDB DB Txn} `{StoreWrite DB} `{BlobStore BS} `{Env} `{SmtpProto}.
Context (blake3 : list Z → list Z) (bincode_serialize : Message → list Z).

(** [Schedule::now], [Schedule::later] *)
Definition schedule_now : Q DB BS Schedule := t <- now;; ret {| s_due := t; s_inner := 0 |}.
Definition schedule_later (d : Z) : Q DB BS Schedule :=
  t <- now;; ret {| s_due := u64_add t d; s_inner := 0 |}.
Definition release_after (data : SessionData) (d : Z) : Q DB BS Schedule :=
  wait <- or_panic (duration_add (sd_future_release data) d);;
  schedule_later wait.
Definition ask_expire (m : Message) (idx : nat) : Q DB BS Z :=
  expire <- question (AskExpire m (envelope_new idx));;
  ret (default (5 * 86400) expire).

(** When the sender is told of a delay, and when the domain expires. *)
Definition notify_wait (delivery_by expire next_notify : Z) : Z :=
  if 0 <? delivery_by then if delivery_by <? expire then delivery_by else next_notify
  else
    let notify_at := wrap 64 (- delivery_by) in
    if notify_at <? expire then expire - notify_at else next_notify.
Definition domain_times (data : SessionData) (m : Message) (idx : nat) : Q DB BS (Schedule * Z) :=
  intervals <- question (AskNotify m (envelope_new idx));;
  let '(num_intervals, next_notify) :=
    match intervals with Some (d :: ds) => (Z.of_nat (length (d :: ds)), d) | _ => (1, 86400) end in
  if sd_delivery_by data =? 0 then
    notify <- release_after data next_notify;;
    t <- now;;
    expire <- ask_expire m idx;;
    ret (notify, u64_add (u64_add t (sd_future_release data)) expire)
  else if Smtp.has_flag (m_flags m) MAIL_BY_RETURN then
    notify <- release_after data next_notify;;
    t <- now;;
    ret (notify, u64_add t (wrap 64 (sd_delivery_by data)))
  else
    expire <- ask_expire m idx;;
    notify <- release_after data (notify_wait (sd_delivery_by data) expire next_notify);;
    t <- now;;
    ret ({| s_due := s_due notify; s_inner := wrap 32 (num_intervals - 1) |}, u64_add t expire).

(** A domain of its own, unless the last one is the recipient's. *)
Definition push_domain (data : SessionData) (m : Message) (domain : list Z) : Q DB BS Message :=
  if decide (d_domain <$> last (m_domains m) = Some domain) then ret m
  else
    let idx := length (m_domains m) in
    first_retry <- schedule_now;;
    first_notify <- schedule_now;;
    let d := {| d_domain := domain; d_retry := first_retry; d_notify := first_notify;
                d_expires := 0; d_status := Scheduled |} in
    retry <- (if sd_future_release data =? 0 then schedule_now
              else schedule_later (sd_future_release data));;
    times <- domain_times data (set_domains (m_domains m ++ [d]) m) idx;;
    ret (set_domains (m_domains m ++ [set_d_expires times.2 (set_d_notify times.1 (set_d_retry retry d))]) m).

Definition rcpt_flags (flags : Z) : Z :=
  if Smtp.has_flag flags (Z.lor (Z.lor (Z.lor RCPT_NOTIFY_DELAY RCPT_NOTIFY_FAILURE) RCPT_NOTIFY_SUCCESS)
                       RCPT_NOTIFY_NEVER)
  then flags else Z.lor (Z.lor flags RCPT_NOTIFY_DELAY) RCPT_NOTIFY_FAILURE.
Definition push_recipient (rcpt : SessionAddress) (m : Message) : Message :=
  set_recipients (m_recipients m ++
    [{| rc_domain_idx := length (m_domains m) - 1; rc_address := sa_address rcpt;
        rc_address_lcase := sa_address_lcase rcpt; rc_status := Scheduled;
        rc_flags := rcpt_flags (sa_flags rcpt); rc_orcpt := sa_dsn_info rcpt |}]) m.
Fixpoint push_recipients (data : SessionData) (m : Message) (rcpts : list SessionAddress)
    : Q DB BS Message :=
  match rcpts with
  | [] => ret m
  | rcpt :: rcpts =>
      m <- push_domain data m (sa_domain rcpt);;
      push_recipients data (push_recipient rcpt m) rcpts
  end.

(** [Session::build_message].  The source sorts with [sort_unstable]; a session
    has an address at most once ([rcpt.rs] refuses a second one), so no two
    recipients are equal in the order and the stable sort is the same. *)
Definition build_message (data : SessionData) (mail_from : SessionAddress)
    (rcpt_to : list SessionAddress) (id : Z) : Q DB BS Message :=
  created <- now;;
  push_recipients data
    {| m_id := id; m_created := created; m_blob_hash := hash_default;
       m_return_path := sa_address mail_from; m_return_path_lcase := sa_address_lcase mail_from;
       m_return_path_domain := sa_domain mail_from; m_recipients := []; m_domains := [];
       m_flags := sa_flags mail_from; m_env_id := sa_dsn_info mail_from;
       m_priority := sd_priority data; m_size := 0; m_quota_keys := [] |}
    (merge_sort address_le rcpt_to).

(** The end of [Session::queue_message]: the reply, and the id of a message
    that was accepted. *)
Definition submit (sender rcpt_domain rcpt : list QueueQuota) (m : Message)
    (headers raw : list Z) : Q DB BS (list Z * option Z) :=
  let m := set_content (m_blob_hash m) (Z.of_nat (length raw + length headers)) m in
  fits <- has_quota blake3 sender rcpt_domain rcpt m;;
  match fits with
  | Some m =>
      queued <- queue blake3 bincode_serialize m (Some headers) raw;;
      ret (if (queued : bool) then (lit "250 2.0.0 Message queued for delivery." ++ CRLF, Some (m_id m))
           else (lit "451 4.3.5 Unable to accept message at this time." ++ CRLF, None))
  | None => ret (lit "452 4.3.1 Mail system full, try again later." ++ CRLF, None)
  end.
End inbound.
End Inbound.
