(* ===== verification/SmtpLogic.v ===== *)
(** * Reasoning about the queue's computations

    [steady p P]: whatever the environment answers, [p] leaves the store and
    the blobs alone, hands messages only to connections that are protected as
    required, and any result it has satisfies [P].  Most of an attempt is
    steady; the rules here take it apart. *)

From stdpp Require Import base gmap sorting strings numbers list.
From S2P Require Import Prelude Codec Keys Roaring Kv Batch Commit Read Store Query Blob Smtp SmtpSpool.
Import Smtp Spool.
Open Scope Z_scope.
Open Scope queue_scope.

(** A message leaves over an unprotected connection only if nobody asked for
    protection, or if TLS is switched off for the host. *)
Definition sent_ok (s : Sent) : Prop :=
  match s with
  | Asked _ _ _ | SentEvent _ | Removed _ => True
  | Transferred _ _ secure tls demanded => secure = true ∨ demanded = false ∨ tls = Disable
  end.

(** The same, and no message left. *)
Definition sent_kept (s : Sent) : Prop := if s is Removed _ then False else sent_ok s.

Section logic.
Context {DB BS : Type}.
Implicit Types (w : world DB BS).

(** The messages that were removed, in order. *)
Definition departed w : list Message := omap (λ s, if s is Removed m then Some m else None) (w_sent w).

Definition grows (P : Sent → Prop) w w' : Prop :=
  (w_step w ≤ w_step w')%nat ∧ ∃ l, w_sent w' = w_sent w ++ l ∧ Forall P l.
Definition extends : relation (world DB BS) := grows sent_ok.
Definition stays : relation (world DB BS) := grows sent_kept.
Definition quiet w w' : Prop := w_db w' = w_db w ∧ w_blobs w' = w_blobs w ∧ stays w w'.

Lemma grows_refl P w : grows P w w.
Proof. split; [done|]. exists []. by rewrite app_nil_r. Qed.
Lemma grows_trans P w1 w2 w3 : grows P w1 w2 → grows P w2 w3 → grows P w1 w3.
Proof.
  intros (Hs1 & l1 & Hl1 & Hf1) (Hs2 & l2 & Hl2 & Hf2). split; [lia|]. exists (l1 ++ l2).
  rewrite Hl2, Hl1, <-app_assoc. split; [done|]. by apply Forall_app.
Qed.
Lemma extends_refl w : extends w w.
Proof. apply grows_refl. Qed.
Lemma extends_trans w1 w2 w3 : extends w1 w2 → extends w2 w3 → extends w1 w3.
Proof. apply grows_trans. Qed.
Lemma stays_refl w : stays w w.
Proof. apply grows_refl. Qed.
Lemma stays_trans w1 w2 w3 : stays w1 w2 → stays w2 w3 → stays w1 w3.
Proof. apply grows_trans. Qed.
Lemma stays_extends w w' : stays w w' → extends w w'.
Proof.
  intros (Hs & l & Hl & Hf). split; [done|]. exists l. split; [done|].
  eapply Forall_impl; [exact Hf|]. by intros [].
Qed.
Lemma stays_departed w w' : stays w w' → departed w' = departed w.
Proof.
  intros (_ & l & Hl & Hf). unfold departed. rewrite Hl, omap_app. clear Hl.
  induction Hf as [|[] l Hs _ IH]; cbn; rewrite ?app_nil_r in *; done.
Qed.
Lemma quiet_refl w : quiet w w.
Proof. split_and!; [done..|apply stays_refl]. Qed.
Lemma quiet_trans w1 w2 w3 : quiet w1 w2 → quiet w2 w3 → quiet w1 w3.
Proof.
  intros (Hd1 & Hb1 & He1) (Hd2 & Hb2 & He2).
  split_and!; [congruence..|by eapply stays_trans].
Qed.
Lemma quiet_stays w w' : quiet w w' → stays w w'.
Proof. by intros (_ & _ & ?). Qed.
Lemma quiet_extends w w' : quiet w w' → extends w w'.
Proof. intros Hq. by apply stays_extends, quiet_stays. Qed.

Lemma question_quiet `{Env} {X} (q : ask X) w : quiet w (question q w).2.
Proof. split_and!; [done..|split; [cbn; lia|]]. eexists. split; [done|]. by constructor. Qed.

Definition steady {A} (p : Q DB BS A) (P : A → Prop) : Prop :=
  ∀ w, quiet w (p w).2 ∧ ∀ a, (p w).1 = Some a → P a.

Lemma steady_mono {A} (p : Q DB BS A) P R : steady p P → (∀ a, P a → R a) → steady p R.
Proof. intros Hp HPR w. destruct (Hp w) as [Hq Ha]. split; [done|]. eauto. Qed.

Lemma steady_ret {A} (a : A) (P : A → Prop) : P a → steady (ret a) P.
Proof. intros Ha w. split; [apply quiet_refl|]. cbn. by intros ? [= <-]. Qed.

Lemma steady_bind {A B} (p : Q DB BS A) (f : A → Q DB BS B) P R :
  steady p P → (∀ a, P a → steady (f a) R) → steady (bind p f) R.
Proof.
  intros Hp Hf w. unfold bind. destruct (Hp w) as [Hq Ha]. destruct (p w) as [[a|] w1]; cbn in *.
  - destruct (Hf a (Ha a eq_refl) w1) as [Hq' Hb]. split; [by eapply quiet_trans|done].
  - done.
Qed.

Lemma steady_panic {A} (P : A → Prop) : steady panic P.
Proof. intros w. split; [apply quiet_refl|done]. Qed.
Lemma steady_or_panic {A} (o : option A) (P : A → Prop) :
  (∀ a, o = Some a → P a) → steady (or_panic o) P.
Proof. destruct o as [a|]; intros Ha; [by apply steady_ret, Ha|apply steady_panic]. Qed.

Lemma steady_question `{Env} {X} (q : ask X) (P : X → Prop) :
  (∀ n, P (answer n X q)) → steady (question q) P.
Proof.
  intros Hx w. split; [apply question_quiet|cbn; intros ? [= <-]; apply Hx].
Qed.
Lemma steady_now `{Env} (P : Z → Prop) : (∀ n, P (answer n _ AskNow)) → steady now P.
Proof. apply steady_question. Qed.
Lemma steady_get_blobs (P : BS → Prop) : (∀ bs, P bs) → steady get_blobs P.
Proof. intros Hp w. split; [apply quiet_refl|cbn; intros ? [= <-]; apply Hp]. Qed.
Lemma steady_get_db (P : DB → Prop) : (∀ db, P db) → steady get_db P.
Proof. intros Hp w. split; [apply quiet_refl|cbn; intros ? [= <-]; apply Hp]. Qed.
Lemma steady_send (s : Sent) (P : unit → Prop) : sent_kept s → P tt → steady (send s) P.
Proof.
  intros Hs Hp w. split; [|cbn; by intros ? [= <-]]. split_and!; [done..|split; [done|]].
  exists [s]. split; [done|]. by constructor.
Qed.
Lemma steady_notify (e : Event) (P : unit → Prop) : P tt → steady (notify e) P.
Proof. by apply steady_send. Qed.
Lemma steady_timeout `{Env} {A} (p : Q DB BS A) (P : A → Prop) (R : option A → Prop) :
  steady p P → R None → (∀ a, P a → R (Some a)) → steady (timeout p) R.
Proof.
  intros Hp HN HS. unfold timeout. eapply steady_bind; [by apply (steady_question _ (λ _, True))|].
  intros [] _; [by apply steady_ret|]. eapply steady_bind; [exact Hp|].
  intros a Ha. by apply steady_ret, HS.
Qed.

(** Computations that may write, but hand over messages as [steady] ones do. *)
Definition extending {A} (p : Q DB BS A) : Prop := ∀ w, extends w (p w).2.
Lemma extending_steady {A} (p : Q DB BS A) P : steady p P → extending p.
Proof. intros Hp w. apply quiet_extends, Hp. Qed.
Lemma extending_ret {A} (a : A) : extending (ret a).
Proof. intros w. apply extends_refl. Qed.
Lemma extending_bind {A B} (p : Q DB BS A) (f : A → Q DB BS B) :
  extending p → (∀ a, extending (f a)) → extending (bind p f).
Proof.
  intros Hp Hf w. unfold bind. specialize (Hp w). destruct (p w) as [[a|] w1]; [|done].
  eapply extends_trans; [exact Hp|apply Hf].
Qed.
Lemma extending_same {A} (p : Q DB BS A) :
  (∀ w, w_step (p w).2 = w_step w ∧ w_sent (p w).2 = w_sent w) → extending p.
Proof. intros Hp w. destruct (Hp w) as [H1' H2']. split; [lia|]. exists []. by rewrite app_nil_r. Qed.
Lemma extending_write `{StoreWrite DB} b : extending (write_batch b).
Proof.
  apply extending_same. intros w. unfold write_batch, bind, get_db. cbn [fst snd].
  by destruct (store_write _ _) as [[]|].
Qed.

Lemma extending_send (s : Sent) : sent_ok s → extending (send s).
Proof. intros Hs w. split; [done|]. exists [s]. split; [done|]. by constructor. Qed.

(** A steady computation that had a result. *)
Lemma steady_run {A} (p : Q DB BS A) P w a w' :
  steady p P → p w = (Some a, w') → P a ∧ quiet w w'.
Proof. intros Hp Hr. destruct (Hp w) as [Hq Ha]. rewrite Hr in Hq, Ha. auto. Qed.
Lemma steady_run_panic {A} (p : Q DB BS A) P w w' :
  steady p P → p w = (None, w') → quiet w w'.
Proof. intros Hp Hr. destruct (Hp w) as [Hq _]. by rewrite Hr in Hq. Qed.

Lemma bind_some {A B} (p : Q DB BS A) (f : A → Q DB BS B) w a w' :
  p w = (Some a, w') → bind p f w = f a w'.
Proof. unfold bind. by intros ->. Qed.
Lemma bind_none {A B} (p : Q DB BS A) (f : A → Q DB BS B) w w' :
  p w = (None, w') → bind p f w = (None, w').
Proof. unfold bind. by intros ->. Qed.
End logic.

(** The numbers the environment answers are machine integers; ids can be
    made: the clock is not before the generator's epoch. *)
Class EnvOk `{Env} := {
  env_now n : uint_ok 64 (answer n _ AskNow);
  env_id n : ∃ id, answer n _ AskId = Some id ∧ uint_ok 64 id;
  env_rate n t m e retry_at :
    answer n _ (AskAllowed t m e) = Some (Rate retry_at) → uint_ok 64 retry_at;
}.

(** [extending] follows the shape of the program; the database [extending]
    has what is known of the calls. *)
Create HintDb extending.
Lemma extending_question `{Env} {DB BS X} (q : ask X) : extending (DB:=DB) (BS:=BS) (question q).
Proof. by eapply (extending_steady _ (λ _, True)), steady_question. Qed.
Lemma extending_notify {DB BS} e : extending (DB:=DB) (BS:=BS) (notify e).
Proof. by eapply (extending_steady _ (λ _, True)), steady_notify. Qed.
Lemma extending_get_db {DB BS} : extending (get_db (DB:=DB) (BS:=BS)).
Proof. by apply extending_same. Qed.
Lemma extending_get_blobs {DB BS} : extending (get_blobs (DB:=DB) (BS:=BS)).
Proof. by apply extending_same. Qed.
Lemma extending_put_blobs {DB BS} bs : extending (put_blobs (DB:=DB) (BS:=BS) bs).
Proof. by apply extending_same. Qed.
Lemma extending_removed {DB BS} m : extending (DB:=DB) (BS:=BS) (send (Removed m)).
Proof. by apply extending_send. Qed.
#[export] Hint Resolve extending_removed extending_ret extending_write extending_question extending_notify
  extending_get_db extending_get_blobs extending_put_blobs : extending.
Ltac extending :=
  intros; cbn beta;
  lazymatch goal with
  | |- extending (bind _ _) => apply extending_bind; [extending|extending]
  | |- extending now => apply extending_question
  | |- extending (match ?x with _ => _ end) => destruct x; extending
  | |- _ => eauto with extending
  end.
