(* ===== verification/SmtpStoreTheory.v ===== *)
(** * The queue's entries in the store

    The abstract queue: messages, and events that say when a message is due
    and how long it is locked.  [represents] relates it to the entries of the
    store; every write of the queue is proved to change it as its name says. *)

From stdpp Require Import base gmap sorting strings numbers list.
From S2P Require Import Prelude Codec Keys KeyTheory KeyOrder Roaring Kv KvModel Batch Commit CommitTheory Read Store Query Blob Smtp SmtpSpool SmtpLogic.
Import Smtp Spool.
Open Scope Z_scope.
Open Scope bytes_scope.
Open Scope queue_scope.

(** ** Entries *)

#[local] Ltac decision := solve_decision.
#[local] Instance lookup_class_dec : EqDecision LookupClass. Proof. decision. Defined.
#[local] Instance bitmap_hash_dec : EqDecision BitmapHash. Proof. decision. Defined.
#[local] Instance fts_queue_dec : EqDecision FtsQueueClass. Proof. decision. Defined.
#[local] Instance blob_op_dec : EqDecision BlobOp. Proof. decision. Defined.
#[local] Instance queue_event_dec : EqDecision QueueEvent. Proof. decision. Defined.
#[local] Instance report_event_dec : EqDecision ReportEvent. Proof. decision. Defined.
#[local] Instance queue_class_dec : EqDecision QueueClass. Proof. decision. Defined.
#[local] Instance report_class_dec : EqDecision ReportClass. Proof. decision. Defined.
#[local] Instance any_class_dec : EqDecision AnyClass. Proof. decision. Defined.
#[local] Instance dir_class_dec : EqDecision (DirectoryClass Z). Proof. decision. Defined.
#[export] Instance value_class_dec : EqDecision (ValueClass Z). Proof. decision. Defined.

(** The classes the queue writes. *)
Definition spool_class (c : ValueClass Z) : Prop :=
  match c with
  | Queue (Keys.Message id) => uint_ok 64 id
  | Queue (MessageEvent e) => uint_ok 64 (qe_due e) ∧ uint_ok 64 (qe_queue_id e)
  | Queue (QuotaCount _) | Queue (QuotaSize _) => True
  | Blob (Reserve h until) => length h = BLOB_HASH_LEN ∧ uint_ok 64 until
  | Blob (Commit h) => length h = BLOB_HASH_LEN
  | Blob (LinkId h id) => length h = BLOB_HASH_LEN ∧ uint_ok 64 id
  | _ => False
  end.
(** Where a batch without an account puts them. *)
Definition cell (c : ValueClass Z) : Z * list Z :=
  (subspace c U8_MAX, value_bytes c U32_MAX U8_MAX U32_MAX).

Lemma cell_inj c1 c2 : spool_class c1 → spool_class c2 → cell c1 = cell c2 → c1 = c2.
Proof.
  intros H1 H2 He. pose proof (f_equal fst He) as Hs. pose proof (f_equal snd He) as Hk.
  cbn [fst snd cell] in Hs, Hk.
  destruct (value_bytes_injective c1 c2 U32_MAX U8_MAX U32_MAX U32_MAX U8_MAX U32_MAX) as [Hc _];
    try done; [destruct c1 as [| | | | | |[]| |[]| |]; done|destruct c2 as [| | | | | |[]| |[]| |]; done].
Qed.

Definition message_cell (id : Z) := cell (Queue (Keys.Message id)).
Definition event_cell (due id : Z) := cell (Queue (event_class due id)).
Definition link_cell (hash : list Z) (id : Z) := cell (Blob (LinkId hash id)).
Definition commit_cell (hash : list Z) := cell (Blob (Commit hash)).

Lemma lookup_insert_cell c c' v m :
  spool_class c → spool_class c' →
  (<[cell c := v]> m : store_map) !! cell c' = if decide (c = c') then Some v else m !! cell c'.
Proof.
  intros Hc Hc'. rewrite lookup_insert. repeat case_decide; subst; try done.
  exfalso. by eapply H0, cell_inj.
Qed.
Lemma lookup_delete_cell c c' m :
  spool_class c → spool_class c' →
  (delete (cell c) m : store_map) !! cell c' = if decide (c = c') then None else m !! cell c'.
Proof.
  intros Hc Hc'. rewrite lookup_delete. repeat case_decide; subst; try done.
  exfalso. by eapply H0, cell_inj.
Qed.

(** ** Batches on entries *)

Definition op_cell (c : ValueClass MaybeDynamicId) : Z * list Z :=
  cell (resolve_value c (Some assigned_default)).
Definition run_op (h : list Z → Z) (m : store_map) (op : Operation) : option store_map :=
  match op with
  | OpValue c (Set_ (ValueStatic v)) => Some (<[op_cell c := v]> m)
  | OpValue c Clear => Some (delete (op_cell c) m)
  | OpValue c (AtomicAdd n) =>
      v ← counter_value m (op_cell c); Some (<[op_cell c := i64_to_le (i64_add v n)]> m)
  | OpAssertValue c a => if assert_holds h a (m !! op_cell c) then Some m else None
  | _ => None
  end.
Fixpoint run_ops (h : list Z → Z) (ops : list Operation) (m : store_map) : option store_map :=
  match ops with [] => Some m | op :: ops => m ← run_op h m op; run_ops h ops m end.

Lemma run_ops_app h ops ops' m : run_ops h (ops ++ ops') m = run_ops h ops m ≫= run_ops h ops'.
Proof.
  revert m. induction ops as [|op ops IH]; intros m; [done|]. cbn [app run_ops].
  destruct (run_op h m op) as [m'|]; [|done]. apply IH.
Qed.

(** Entries are set, cleared or checked, quotas are added to. *)
Definition is_quota (c : ValueClass MaybeDynamicId) : bool :=
  match c with Queue (QuotaCount _) | Queue (QuotaSize _) => true | _ => false end.
Definition spool_op (op : Operation) : Prop :=
  match op with
  | OpValue c (Set_ (ValueStatic _)) => spool_class (resolve_value c (Some assigned_default)) ∧ is_quota c = false
  | OpValue c Clear => spool_class (resolve_value c (Some assigned_default)) ∧ is_quota c = false
  | OpValue c (AtomicAdd n) => is_quota c = true ∧ i64_ok n
  | OpAssertValue c (AssertU64 _) => spool_class (resolve_value c (Some assigned_default))
  | _ => False
  end.

Lemma run_ops_hash h h' ops m : Forall spool_op ops → run_ops h ops m = run_ops h' ops m.
Proof.
  intros Hops. revert m. induction Hops as [|op ops Hop _ IH]; intros m; [done|]. cbn [run_ops].
  assert (run_op h m op = run_op h' m op) as ->.
  { destruct op as [| | | |c a|c o| | |]; try done. by destruct a. }
  destruct (run_op h' m op); [apply IH|done].
Qed.
Lemma class_cell_init c : class_cell coords_init c = op_cell c.
Proof.
  unfold class_cell, class_key, op_cell, cell.
  rewrite value_serialize_resolve, value_serialize_bytes, !subspace_resolve. done.
Qed.

Lemma exec_run h ops m c m' :
  Forall spool_op ops → exec_ops h (coords_init, m) ops (c, m') →
  run_ops h ops m = Some m' ∧ c = coords_init.
Proof.
  intros Hops. revert m. induction Hops as [|op ops Hop Hops IH]; intros m Hex.
  { inversion Hex; subst. done. }
  inversion Hex as [|? ? [c1 m1] ? ? X1 X2]; subst. cbn [run_ops].
  assert (run_op h m op = Some m1 ∧ c1 = coords_init) as [Hrun ->]; [|rewrite Hrun; by apply IH].
  inversion X1; subst; try done; cbn [run_op spool_op] in *; rewrite ?class_cell_init in *.
  - destruct v; [|done]. cbn [value_resolve] in *. simplify_eq. done.
  - done.
  - match goal with Hv : counter_value _ _ = Some _ |- _ => by rewrite Hv end.
  - match goal with Hv : assert_holds _ _ _ = true |- _ => by rewrite Hv end.
Qed.

Lemma spool_ops_ok b ops : Forall spool_op ops → ops_ok b U8_MAX ops.
Proof.
  induction 1 as [|op ops Hop Hops IH]; [done|]. cbn [ops_ok]. split.
  - destruct op as [| | | |c a|c o| | |]; try done. destruct o as [[v|]|n|n|]; try done; cbn in Hop |- *.
    + destruct Hop as [Hc Hq]. destruct c as [| | | | | |[]| |[]| |]; try done; split; try done.
    + destruct Hop as [Hc Hn]. by destruct c as [| | | | | | | |[]| |].
  - destruct op; try done.
Qed.

(** ** The computation that writes *)

Section write.
Context {DB Txn BS : Type} `{StoreWriteLaws DB Txn}.
Implicit Types (w : world DB BS).

(** The rows of the queue's events are events. *)
Definition events_wf (m : store_map) : Prop :=
  ∀ k, is_Some (m !! (SUBSPACE_QUEUE_EVENT, k)) →
    ∃ due id, uint_ok 64 due ∧ uint_ok 64 id ∧ (SUBSPACE_QUEUE_EVENT, k) = event_cell due id.
(** A well-formed store with room for the queue's batches. *)
Definition spool_ok (b : Z) (m : store_map) : Prop :=
  store_ok b m ∧ 0 ≤ b ≤ 2 ^ 31 ∧ events_wf m.

Lemma events_wf_insert c v m :
  spool_class c → events_wf m → events_wf (<[cell c := v]> m).
Proof.
  intros Hc Hm k [He|Hk]%lookup_insert_is_Some'; [|by apply Hm].
  pose proof (f_equal fst He) as Hs. destruct c as [| | | | | |[]| |[|[due id]| | | | | |]| |]; try done; try discriminate Hs.
  exists due, id. by destruct Hc.
Qed.
Lemma run_op_events_wf h m op m' : spool_op op → events_wf m → run_op h m op = Some m' → events_wf m'.
Proof.
  intros Hop Hm. destruct op as [| | | |c a|c o| | |]; try done; cbn [run_op spool_op] in *.
  - destruct (assert_holds _ _ _); [|done]. by intros [= <-].
  - destruct o as [[v|]|n|n|]; try done.
    + intros [= <-]. apply events_wf_insert; [apply Hop|done].
    + intros (v & Hv & [= <-])%bind_Some k [He|Hk]%lookup_insert_is_Some'; [|by apply Hm].
      pose proof (f_equal fst He) as Hs. by destruct Hop as [Hc _], c as [| | | | | | | |[]| |].
    + intros [= <-] k [x [_ Hk]%lookup_delete_Some]. apply Hm. eauto.
Qed.
Lemma run_ops_events_wf h ops m m' :
  Forall spool_op ops → events_wf m → run_ops h ops m = Some m' → events_wf m'.
Proof.
  intros Hops. revert m. induction Hops as [|op ops Hop Hops IH]; intros m Hm; cbn [run_ops].
  - by intros [= <-].
  - intros (m1 & Hr & Hrs)%bind_Some. apply (IH m1); [by eapply run_op_events_wf|done].
Qed.

Lemma run_op_store_ok b h m op m' :
  store_ok b m → spool_op op → run_op h m op = Some m' → store_ok b m'.
Proof.
  intros Hm Hop. destruct op as [| | | |c a|c o| | |]; try done; cbn [run_op spool_op] in *.
  - destruct (assert_holds _ _ _); [|done]. by intros [= <-].
  - assert (∀ v, spool_class (resolve_value c (Some assigned_default)) → is_quota c = false →
      cell_ok b (op_cell c) v) as Hcell.
    { intros v Hc Hq. destruct c as [| | | | | |[]| |[]| |]; try done; split; intros Hx; discriminate Hx. }
    destruct o as [[v|]|n|n|]; try done.
    + intros [= <-]. apply store_ok_insert; [done|]. by apply Hcell; destruct Hop.
    + intros (v & Hv & [= <-])%bind_Some. apply store_ok_insert; [done|].
      destruct Hop as [Hc _]. destruct c as [| | | | | | | |[]| |]; try done;
        (split; [intros _; apply to_le_bytes_length|intros Hx; discriminate Hx]).
    + intros [= <-]. by apply store_ok_delete.
Qed.
Lemma run_ops_store_ok b h ops m m' :
  store_ok b m → Forall spool_op ops → run_ops h ops m = Some m' → store_ok b m'.
Proof.
  intros Hm Hops. revert m Hm. induction Hops as [|op ops Hop Hops IH]; intros m Hm; cbn [run_ops].
  - by intros [= <-].
  - intros (m1 & Hr & Hrs)%bind_Some. by apply (IH m1); [apply (run_op_store_ok b h m op)|].
Qed.

Lemma write_batch_spec b (bt : BatchBuilder) w r w' :
  spool_ok b (db_map (w_db w)) → Forall spool_op (b_ops bt) →
  Z.of_nat (length (b_ops bt)) ≤ 10 ^ 6 → write_batch bt w = (r, w') →
  (∃ e, r = Some (Err e) ∧ w' = w) ∨
  (r = Some (Ok tt) ∧ spool_ok b (db_map (w_db w')) ∧
   run_ops store_hash (b_ops bt) (db_map (w_db w)) = Some (db_map (w_db w')) ∧
   w_blobs w' = w_blobs w ∧ w_step w' = w_step w ∧ w_sent w' = w_sent w).
Proof.
  intros (Hm & Hb & Hwf) Hops Hlen. unfold write_batch, bind, get_db. cbn [fst snd].
  destruct (store_write (build bt) (w_db w)) as [[ids db']|e] eqn:Hw; intros [= <- <-].
  - right. destruct (store_write_exec b (w_db w) (build bt) ids db' Hm) as (c & Hex & _); [|done|].
    { split_and!; [lia|cbn [ops build]; lia|by apply spool_ops_ok]. }
    apply exec_run in Hex as [Hrun _]; [|done]. cbn [w_db w_blobs w_step w_sent].
    split_and!; try done. split_and!; [|lia..|by eapply run_ops_events_wf].
    by apply (run_ops_store_ok b _ _ _ _ Hm Hops Hrun).
  - left. by exists e.
Qed.
End write.

(** ** The queue *)

(** A domain or recipient as the sender gave it. *)
Definition domain_id (d : Domain) : list Z * Z := (d_domain d, d_expires d).
Definition party_id (r : Recipient) : nat * list Z * list Z * option (list Z) :=
  (rc_domain_idx r, rc_address r, rc_address_lcase r, rc_orcpt r).
Definition header (m : Message) : Message := set_quota_keys [] (set_parties [] [] m).
(** The same message, whatever became of its recipients. *)
Definition same_message (m m' : Message) : Prop :=
  header m = header m' ∧ domain_id <$> m_domains m = domain_id <$> m_domains m' ∧
  party_id <$> m_recipients m = party_id <$> m_recipients m'.

(** Times are 64-bit. *)
Definition domain_ok (d : Domain) : Prop :=
  uint_ok 64 (s_due (d_retry d)) ∧ uint_ok 64 (s_due (d_notify d)) ∧ uint_ok 64 (d_expires d).

(** The recipients are in domains of the message, and those of a completed
    domain are done. *)
Record message_ok (m : Message) : Prop := {
  mk_id : uint_ok 64 (m_id m);
  mk_hash : length (m_blob_hash m) = BLOB_HASH_LEN;
  mk_quotas : Z.of_nat (length (m_quota_keys m)) ≤ 10 ^ 5;
  mk_domains : Forall domain_ok (m_domains m);
  mk_rcpt r : r ∈ m_recipients m → ∃ d, m_domains m !! rc_domain_idx r = Some d ∧
    (d_status d = Completed tt → is_final (rc_status r) = true);
}.

Record queue_state := { q_messages : gmap Z Message; q_events : gmap (Z * Z) Z }.

(** Every message has exactly one event, every event its message. *)
Record queue_ok (q : queue_state) : Prop := {
  qk_message id m : q_messages q !! id = Some m → m_id m = id ∧ message_ok m;
  qk_event due id lock : q_events q !! (due, id) = Some lock →
    uint_ok 64 due ∧ uint_ok 64 lock ∧ is_Some (q_messages q !! id);
  qk_scheduled id : is_Some (q_messages q !! id) → ∃ due, is_Some (q_events q !! (due, id));
  qk_once due due' id : is_Some (q_events q !! (due, id)) → is_Some (q_events q !! (due', id)) →
    due = due';
}.

Definition put_message (m : Message) (q : queue_state) : queue_state :=
  {| q_messages := <[m_id m := m]> (q_messages q); q_events := q_events q |}.
Definition drop_message (id : Z) (q : queue_state) : queue_state :=
  {| q_messages := delete id (q_messages q); q_events := q_events q |}.
Definition put_event (due id lock : Z) (q : queue_state) : queue_state :=
  {| q_messages := q_messages q; q_events := <[(due, id) := lock]> (q_events q) |}.
Definition drop_event (due id : Z) (q : queue_state) : queue_state :=
  {| q_messages := q_messages q; q_events := delete (due, id) (q_events q) |}.

Section represents.
Context (bincode_serialize : Message → list Z).

Record represents (q : queue_state) (m : store_map) : Prop := {
  rep_message id : uint_ok 64 id → m !! message_cell id = bincode_serialize <$> q_messages q !! id;
  rep_event due id : uint_ok 64 due → uint_ok 64 id →
    m !! event_cell due id = to_be_bytes 8 <$> q_events q !! (due, id);
  rep_link id msg : q_messages q !! id = Some msg →
    m !! link_cell (m_blob_hash msg) id = Some [] ∧ m !! commit_cell (m_blob_hash msg) = Some [];
}.

(** Entries of the queue, and of the blobs it refers to. *)
Definition queue_cell (c : Z * list Z) : Prop :=
  c.1 = SUBSPACE_QUEUE_MESSAGE ∨ c.1 = SUBSPACE_QUEUE_EVENT ∨ c.1 = SUBSPACE_BLOB_LINK.
Lemma represents_frame q m m' :
  represents q m → (∀ c, queue_cell c → m' !! c = m !! c) → represents q m'.
Proof.
  intros [Hm He Hl] Hf. split.
  - intros id Hid. rewrite Hf; [by apply Hm|by left].
  - intros due id Hd Hid. rewrite Hf; [by apply He|by right; left].
  - intros id msg Hmsg. rewrite !Hf; [by apply Hl|by right; right..].
Qed.

(** Adding to quotas touches nothing else. *)
Lemma quota_ops_frame h (f : QuotaKey → Z) ks m m' :
  run_ops h ((λ k, OpValue (quota_class k) (AtomicAdd (f k))) <$> ks) m = Some m' →
  ∀ c, c.1 ≠ SUBSPACE_QUOTA → m' !! c = m !! c.
Proof.
  intros Hrun c Hc. revert m Hrun. induction ks as [|k ks IH]; intros m; cbn [fmap list_fmap run_ops].
  { by intros [= <-]. }
  intros (m1 & (v & _ & [= <-])%bind_Some & Hrun)%bind_Some. rewrite (IH _ Hrun).
  apply lookup_insert_ne. intros <-. apply Hc. by destruct k.
Qed.

Lemma cell_message id : cell (Queue (Keys.Message id)) = message_cell id. Proof. done. Qed.
Lemma cell_event due id : cell (Queue (event_class due id)) = event_cell due id. Proof. done. Qed.

(** *** Single writes *)

Lemma rep_put_event q m due id lock :
  represents q m → uint_ok 64 due → uint_ok 64 id →
  represents (put_event due id lock q) (<[event_cell due id := to_be_bytes 8 lock]> m).
Proof.
  intros [Hm He Hl] Hd Hid. split; unfold event_cell, message_cell, link_cell, commit_cell in *.
  - intros id' Hid'. by rewrite lookup_insert_cell, decide_False, Hm.
  - intros due' id' Hd' Hid'. rewrite lookup_insert_cell by done. cbn [q_events put_event].
    rewrite lookup_insert, He by done. repeat case_decide; simplify_eq; done.
  - intros id' msg Hmsg. destruct (Hl id' msg Hmsg) as [Hl1 Hl2].
    split; (rewrite lookup_insert_ne; [done|intros Hx; by apply (f_equal fst) in Hx]).
Qed.

Lemma rep_drop_event q m due id :
  represents q m → uint_ok 64 due → uint_ok 64 id →
  represents (drop_event due id q) (delete (event_cell due id) m).
Proof.
  intros [Hm He Hl] Hd Hid. split; unfold event_cell, message_cell, link_cell, commit_cell in *.
  - intros id' Hid'. by rewrite lookup_delete_cell, decide_False, Hm.
  - intros due' id' Hd' Hid'. rewrite lookup_delete_cell by done. cbn [q_events drop_event].
    rewrite lookup_delete, He by done. repeat case_decide; simplify_eq; done.
  - intros id' msg Hmsg. destruct (Hl id' msg Hmsg) as [Hl1 Hl2].
    split; (rewrite lookup_delete_ne; [done|intros Hx; by apply (f_equal fst) in Hx]).
Qed.

Lemma rep_put_message q m msg :
  represents q m → uint_ok 64 (m_id msg) →
  m !! link_cell (m_blob_hash msg) (m_id msg) = Some [] → m !! commit_cell (m_blob_hash msg) = Some [] →
  represents (put_message msg q) (<[message_cell (m_id msg) := bincode_serialize msg]> m).
Proof.
  intros [Hm He Hl] Hid Hlink Hcommit. split.
  - intros id' Hid'. unfold message_cell in *. rewrite lookup_insert_cell by done.
    cbn [q_messages put_message]. rewrite lookup_insert, Hm by done. repeat case_decide; simplify_eq; done.
  - intros due' id' Hd' Hid'. unfold event_cell, message_cell in *.
    by rewrite lookup_insert_cell, decide_False, He.
  - intros id' msg'. cbn [q_messages put_message]. rewrite lookup_insert_Some.
    intros [[<- <-]|[_ Hmsg]]; [|destruct (Hl id' msg' Hmsg) as [Hl1 Hl2]];
      (split; (rewrite lookup_insert_ne; [done|intros Hx; by apply (f_equal fst) in Hx])).
Qed.

(** A message goes with its link. *)
Lemma rep_drop_message q m msg :
  represents q m → uint_ok 64 (m_id msg) → length (m_blob_hash msg) = BLOB_HASH_LEN →
  (∀ id msg', q_messages q !! id = Some msg' →
     uint_ok 64 id ∧ length (m_blob_hash msg') = BLOB_HASH_LEN) →
  represents (drop_message (m_id msg) q)
    (delete (message_cell (m_id msg)) (delete (link_cell (m_blob_hash msg) (m_id msg)) m)).
Proof.
  intros [Hm He Hl] Hid Hh Hok. split; unfold event_cell, message_cell, link_cell, commit_cell in *.
  - intros id' Hid'. rewrite !lookup_delete_cell by done. cbn [q_messages drop_message].
    rewrite lookup_delete, (decide_False (P:=Blob _ = _)), Hm by done.
    repeat case_decide; simplify_eq; done.
  - intros due' id' Hd' Hid'. by rewrite !lookup_delete_cell, !decide_False, He.
  - intros id' msg'. cbn [q_messages drop_message]. rewrite lookup_delete_Some. intros [Hne Hmsg].
    destruct (Hok _ _ Hmsg) as [Hid' Hh']. destruct (Hl id' msg' Hmsg) as [Hl1 Hl2].
    rewrite !lookup_delete_cell, !decide_False by (done || (intros [=]; congruence)). done.
Qed.
End represents.

(** ** The writes of the queue *)

Lemma u64_add_ok a b : uint_ok 64 (u64_add a b).
Proof. by apply wrap_ok. Qed.
#[export] Hint Resolve u64_add_ok : core.

Lemma i64_ok_cast z : i64_ok (i64_of_u64 (wrap 64 z)).
Proof.
  pose proof (wrap_ok 64 z ltac:(lia)) as Hw. unfold uint_ok, i64_ok, i64_of_u64 in *. case_decide; lia.
Qed.

Lemma reserve_ops m ks b :
  b_ops (foldl (reserve_key m) b ks)
  = b_ops b ++ ((λ k, OpValue (quota_class k) (AtomicAdd (quota_amount (size_i64 m) k))) <$> ks).
Proof.
  revert b. induction ks as [|k ks IH]; intros b; cbn [foldl fmap list_fmap]; [by rewrite app_nil_r|].
  rewrite IH. unfold reserve_key, add, b_push. cbn [b_ops]. by rewrite <-app_assoc.
Qed.
Lemma release_ops m ks b :
  b_ops (foldl (release_key m) b ks)
  = b_ops b ++ ((λ k, OpValue (quota_class k)
      (AtomicAdd (i64_neg (quota_amount (size_i64 m) k)))) <$> ks).
Proof.
  revert b. induction ks as [|k ks IH]; intros b; cbn [foldl fmap list_fmap]; [by rewrite app_nil_r|].
  rewrite IH. unfold release_key, add, b_push. cbn [b_ops]. by rewrite <-app_assoc.
Qed.
Lemma quota_spool_ops (f : QuotaKey → Z) ks :
  (∀ k, i64_ok (f k)) → Forall spool_op ((λ k, OpValue (quota_class k) (AtomicAdd (f k))) <$> ks).
Proof. intros Hf. apply Forall_fmap, Forall_true. intros k. split; [by destruct k|apply Hf]. Qed.
Lemma quota_amount_ok m k : i64_ok (quota_amount (size_i64 m) k).
Proof. destruct k; [apply i64_ok_cast|unfold i64_ok; cbn; lia]. Qed.

(** Releasing quotas leaves the message as it is. *)
Lemma release_quota_same m b : same_message m (release_quota m b).1.
Proof. unfold release_quota. by repeat case_decide. Qed.
Lemma release_quota_parties m b :
  let m' := (release_quota m b).1 in
  m_domains m' = m_domains m ∧ m_recipients m' = m_recipients m ∧ m_id m' = m_id m ∧
  m_blob_hash m' = m_blob_hash m ∧ (length (m_quota_keys m') ≤ length (m_quota_keys m))%nat.
Proof.
  unfold release_quota. repeat case_decide; cbn; split_and!; try done. apply length_filter.
Qed.

Lemma assert_u64 h v l :
  uint_ok 64 l → assert_holds h (AssertU64 v) (Some (to_be_bytes 8 l)) = true → l = v.
Proof.
  intros Hl. unfold assert_holds, assert_matches. intros [_ Ha]%andb_prop.
  apply bool_decide_eq_true in Ha. rewrite <-Ha. symmetry. by apply from_to_be_bytes.
Qed.

(** The operations of a batch are the queue's. *)
Ltac spool_ops :=
  repeat (apply Forall_cons_2; [cbn; repeat split; cbn; first [done|unfold uint_ok in *; lia]|]);
  apply Forall_nil_2.

Section writes.
Context {DB Txn BS : Type} `{StoreWriteLaws DB Txn} `{BlobStore BS} `{Env}.
Context (blake3 : list Z → list Z) (bincode_serialize : Message → list Z).
Implicit Types (w : world DB BS).
Abbreviation represents := (represents bincode_serialize).

(** A world whose store holds a queue. *)
Definition holds (b : Z) (q : queue_state) w : Prop :=
  spool_ok b (db_map (w_db w)) ∧ represents q (db_map (w_db w)).

Lemma holds_quiet b q w w' : holds b q w → quiet w w' → holds b q w'.
Proof. unfold holds. by intros [? ?] (-> & _ & _). Qed.

(** A batch whose effect on the entries is known. *)
Lemma write_holds b q q' bt w r w' :
  holds b q w → Forall spool_op (b_ops bt) → Z.of_nat (length (b_ops bt)) ≤ 10 ^ 6 →
  (∀ m', run_ops store_hash (b_ops bt) (db_map (w_db w)) = Some m' → represents q' m') →
  write_batch bt w = (r, w') →
  w_blobs w' = w_blobs w ∧ w_step w' = w_step w ∧ w_sent w' = w_sent w ∧
  ((∃ e, r = Some (Err e) ∧ w' = w) ∨
   (r = Some (Ok tt) ∧ holds b q' w' ∧
    run_ops store_hash (b_ops bt) (db_map (w_db w)) = Some (db_map (w_db w')))).
Proof.
  intros [Hs Hr] Hops Hlen Hrep Hw.
  destruct (write_batch_spec b bt w r w' Hs Hops Hlen Hw) as [(e & -> & ->)|(-> & Hs' & Hrun & -> & -> & ->)];
    split_and!; try done; [left; by exists e|]. right. split_and!; [done| |done].
  split; [done|]. by apply Hrep.
Qed.

Lemma same_stays w w' :
  w_step w' = w_step w → w_sent w' = w_sent w → stays w w'.
Proof. intros Hst Hse. split; [lia|]. exists []. by rewrite app_nil_r. Qed.

(** [try_lock_event]: only an event whose lock is as it was read is locked,
    and then until [LOCK_EXPIRY] from now. *)
Lemma try_lock_spec b q ev w r w' :
  holds b q w → queue_ok q → uint_ok 64 (l_due ev) → uint_ok 64 (l_queue_id ev) →
  try_lock_event ev w = (r, w') →
  stays w w' ∧ w_blobs w' = w_blobs w ∧
  let lock := u64_add (answer (w_step w) _ AskNow) LOCK_EXPIRY in
  ((r = Some None ∧ holds b q w') ∨
   (r = Some (Some {| l_due := l_due ev; l_queue_id := l_queue_id ev; l_lock_expiry := lock |}) ∧
    q_events q !! (l_due ev, l_queue_id ev) = Some (l_lock_expiry ev) ∧
    holds b (put_event (l_due ev) (l_queue_id ev) lock q) w')).
Proof.
  intros Hh Hq Hd Hid. unfold try_lock_event, now. unfold bind at 1. cbn [question fst snd].
  set (lock := u64_add _ LOCK_EXPIRY). set (w1 := {| w_db := _ |}).
  assert (holds b q w1) as Hh1 by exact Hh.
  assert (stays w w1) as He1.
  { split; [cbn; lia|]. eexists. split; [done|]. by constructor. }
  destruct (write_batch (lock_batch ev lock) w1) as [r1 w2] eqn:Hw.
  assert (b_ops (lock_batch ev lock) = [OpAssertValue (Queue (event_class (l_due ev) (l_queue_id ev)))
    (AssertU64 (l_lock_expiry ev)); OpValue (Queue (event_class (l_due ev) (l_queue_id ev)))
    (Set_ (ValueStatic (to_be_bytes 8 lock)))]) as Hops by done.
  assert (∀ m', run_ops store_hash (b_ops (lock_batch ev lock)) (db_map (w_db w1)) = Some m' →
    q_events q !! (l_due ev, l_queue_id ev) = Some (l_lock_expiry ev) ∧
    represents (put_event (l_due ev) (l_queue_id ev) lock q) m') as Hrun.
  { intros m'. rewrite Hops. cbn [run_ops run_op].
    change (op_cell (Queue (event_class (l_due ev) (l_queue_id ev)))) with (event_cell (l_due ev) (l_queue_id ev)).
    destruct (assert_holds _ _ _) eqn:Ha; [|done]. cbn [mbind option_bind]. intros [= <-].
    split; [|by apply rep_put_event; [apply Hh|..]].
    rewrite (rep_event _ _ _ (proj2 Hh1)) in Ha by done.
    destruct (q_events q !! (l_due ev, l_queue_id ev)) as [l|] eqn:Hl; [|done].
    destruct (qk_event q Hq _ _ _ Hl) as (_ & Hlok & _). f_equal. by eapply assert_u64. }
  destruct (write_holds b q (put_event (l_due ev) (l_queue_id ev) lock q) (lock_batch ev lock) w1 r1 w2 Hh1) as (Hb & Hst & Hse & Hc);
    [rewrite Hops; spool_ops|rewrite Hops; cbn; lia|by intros m' [_ Hx]%Hrun|done|].
  assert (stays w w2) as He2 by exact (stays_trans _ _ _ He1 (same_stays _ _ Hst Hse)).
  destruct Hc as [(e & -> & ->)|(-> & Hh2 & Hr2)].
  - rewrite (bind_some _ _ _ _ _ Hw). intros [= <- <-]. split_and!; [done..|]. by left.
  - rewrite (bind_some _ _ _ _ _ Hw). intros [= <- <-]. split_and!; [done..|]. right.
    split_and!; [done|by apply Hrun in Hr2 as [? _]|done].
Qed.

(** The event of a message that no longer exists. *)
Lemma clear_event_spec b q due id w r w' :
  holds b q w → uint_ok 64 due → uint_ok 64 id →
  write_batch (clear (Queue (event_class due id)) builder_new) w = (r, w') →
  stays w w' ∧ w_blobs w' = w_blobs w ∧ (holds b q w' ∨ holds b (drop_event due id q) w').
Proof.
  intros Hh Hd Hid Hw.
  eapply (write_holds b q (drop_event due id q)) in Hw as (Hb & Hst & Hse & Hc); [|done|..].
  - split_and!; [by apply same_stays|done|]. destruct Hc as [(e & _ & ->)|(_ & ? & _)]; auto.
  - spool_ops.
  - cbn. lia.
  - intros m'. cbn [clear b_push builder_new b_ops app run_ops run_op mbind option_bind].
    intros [= <-]. by apply rep_drop_event; [apply Hh|..].
Qed.

(** [save_changes] *)
Definition saved (m : Message) (events : option (Z * Z)) (q : queue_state) : queue_state :=
  put_message m
    match events with
    | Some (prev, next) => put_event next (m_id m) 0 (drop_event prev (m_id m) q)
    | None => q
    end.

Lemma represents_saved m events q mp mp' :
  represents q mp → uint_ok 64 (m_id m) →
  mp !! link_cell (m_blob_hash m) (m_id m) = Some [] → mp !! commit_cell (m_blob_hash m) = Some [] →
  (∀ prev next, events = Some (prev, next) → uint_ok 64 prev ∧ uint_ok 64 next) →
  run_ops store_hash (b_ops (save_batch bincode_serialize m events)) mp = Some mp' →
  represents (saved m events q) mp'.
Proof.
  intros Hr Hid Hl Hc Hev. destruct events as [[prev next]|]; cbn.
  - destruct (Hev prev next eq_refl) as [Hp Hn]. intros [= <-]. apply rep_put_message; [|done|..].
    + apply rep_put_event; [|done..]. by apply rep_drop_event.
    + rewrite lookup_insert_ne, lookup_delete_ne by (intros Hx; by apply (f_equal fst) in Hx). done.
    + rewrite lookup_insert_ne, lookup_delete_ne by (intros Hx; by apply (f_equal fst) in Hx). done.
  - intros [= <-]. by apply rep_put_message.
Qed.

Lemma save_changes_spec b q m m0 events w r w' :
  holds b q w → q_messages q !! m_id m = Some m0 → m_blob_hash m = m_blob_hash m0 →
  uint_ok 64 (m_id m) → length (m_blob_hash m) = BLOB_HASH_LEN →
  (∀ prev next, events = Some (prev, next) → uint_ok 64 prev ∧ uint_ok 64 next) →
  save_changes bincode_serialize m events w = (r, w') →
  stays w w' ∧ w_blobs w' = w_blobs w ∧
  ((r = Some false ∧ w' = w) ∨
   (r = Some true ∧ holds b (saved (release_quota m builder_new).1 events q) w')).
Proof.
  intros Hh Hm Hhash Hid Hlen Hev. unfold save_changes.
  destruct (release_quota_parties m builder_new) as (_ & _ & Hid1 & Hhash1 & _).
  destruct (release_quota m builder_new) as [m1 bt] eqn:Hrel. cbn [fst] in *.
  destruct (write_batch (save_batch bincode_serialize m1 events) w) as [r1 w1] eqn:Hw.
  eapply (write_holds b q (saved m1 events q)) in Hw as Hs; [|done|..].
  - destruct Hs as (Hb & Hst & Hse & [(e & -> & ->)|(-> & Hh1 & _)]);
      rewrite (bind_some _ _ _ _ _ Hw); intros [= <- <-];
      (split_and!; [by apply same_stays|done|]); [by left|by right].
  - assert (spool_op (OpValue (Queue (Keys.Message (m_id m1)))
      (Set_ (ValueStatic (bincode_serialize m1))))) as Hop by (split; [by rewrite Hid1|done]).
    destruct events as [[prev next]|]; [|by apply Forall_singleton].
    destruct (Hev prev next eq_refl) as [Hp Hn].
    rewrite <-Hid1 in Hid. spool_ops.
  - destruct events as [[prev next]|]; cbn; lia.
  - intros m'. destruct (rep_link _ _ _ (proj2 Hh) _ _ Hm) as [Hl Hc].
    apply represents_saved; [apply Hh|by rewrite Hid1|by rewrite Hhash1, Hid1, Hhash|by rewrite Hhash1, Hhash|done].
Qed.

(** [remove] *)
Definition removed (m : Message) (prev : Z) (q : queue_state) : queue_state :=
  drop_message (m_id m) (drop_event prev (m_id m) q).

Lemma spool_remove_spec b q m prev w r w' :
  holds b q w → queue_ok q → message_ok m → uint_ok 64 prev →
  remove m prev w = (r, w') →
  w_step w' = w_step w ∧ w_blobs w' = w_blobs w ∧
  ((r = Some false ∧ w' = w) ∨
   (r = Some true ∧ holds b (removed m prev q) w' ∧ departed w' = departed w ++ [m])).
Proof.
  intros Hh Hq [Hid Hlen Hks _ _] Hp. unfold remove.
  destruct (write_batch (remove_batch m prev) w) as [r1 w1] eqn:Hw.
  assert (b_ops (remove_batch m prev) = ((λ k, OpValue (quota_class k)
      (AtomicAdd (i64_neg (quota_amount (size_i64 m) k)))) <$> m_quota_keys m) ++
    [OpValue (Blob (LinkId (m_blob_hash m) (m_id m))) Clear;
     OpValue (Queue (event_class prev (m_id m))) Clear;
     OpValue (Queue (Keys.Message (m_id m))) Clear]) as Hops.
  { unfold remove_batch, clear, b_push. cbn [b_ops]. rewrite release_ops. cbn [builder_new b_ops app].
    by rewrite <-!app_assoc. }
  eapply (write_holds b q (removed m prev q)) in Hw as Hs; [|done|..].
  - destruct Hs as (Hb & Hst & Hse & [(e & -> & ->)|(-> & Hh1 & _)]);
      rewrite (bind_some _ _ _ _ _ Hw); intros [= <- <-]; (split_and!; [done..|]); [by left|right].
    split_and!; [done|exact Hh1|]. unfold departed. cbn [w_sent]. by rewrite Hse, omap_app.
  - rewrite Hops. apply Forall_app. split; [apply quota_spool_ops; intros; apply i64_ok_cast|].
    spool_ops.
  - rewrite Hops, length_app, length_fmap. cbn [length]. lia.
  - intros m'. rewrite Hops, run_ops_app. intros (m1 & Hq1 & Hrun)%bind_Some.
    pose proof (quota_ops_frame _ _ _ _ _ Hq1) as Hf. cbn in Hrun. injection Hrun as <-.
    assert (represents q m1) as Hr1.
    { eapply represents_frame; [apply Hh|]. intros c Hc. apply Hf. intros Hx.
      destruct Hc as [Hc|[Hc|Hc]]; rewrite Hx in Hc; discriminate Hc. }
    change (op_cell (Blob (LinkId (m_blob_hash m) (m_id m)))) with (link_cell (m_blob_hash m) (m_id m)).
    change (op_cell (Queue (event_class prev (m_id m)))) with (event_cell prev (m_id m)).
    change (op_cell (Queue (Keys.Message (m_id m)))) with (message_cell (m_id m)).
    rewrite (delete_delete m1 (event_cell _ _) (link_cell _ _)).
    apply (rep_drop_message _ (drop_event prev (m_id m) q)); [by apply rep_drop_event|done..|].
    cbn [q_messages drop_event]. intros id msg Hmsg. destruct (qk_message q Hq id msg Hmsg) as [<- Hok].
    by destruct Hok.
Qed.

(** [queue]: the message, an event for it, the link and the record of its
    blob. *)
Definition queued (m : Message) (due : Z) (q : queue_state) : queue_state :=
  put_message m (put_event due (m_id m) 0 q).

(** What [queue] stores. *)
Definition with_content (m : Message) (raw_headers : option (list Z)) (raw_message : list Z) : Message :=
  let message := default [] raw_headers ++ raw_message in
  set_content (blake3 message) (if m_size m =? 0 then Z.of_nat (length message) else m_size m) m.

Lemma represents_reserve q m c v : represents q m → c.1 = SUBSPACE_BLOB_RESERVE → represents q (<[c := v]> m).
Proof.
  intros Hr Hc. eapply represents_frame; [exact Hr|]. intros c' Hc'. apply lookup_insert_ne.
  intros <-. destruct Hc' as [Hx|[Hx|Hx]]; rewrite Hc in Hx; discriminate Hx.
Qed.
Lemma represents_unreserve q m c : represents q m → c.1 = SUBSPACE_BLOB_RESERVE → represents q (delete c m).
Proof.
  intros Hr Hc. eapply represents_frame; [exact Hr|]. intros c' Hc'. apply lookup_delete_ne.
  intros <-. destruct Hc' as [Hx|[Hx|Hx]]; rewrite Hc in Hx; discriminate Hx.
Qed.
(** More links to blobs. *)
Lemma represents_link q m c : represents q m → c.1 = SUBSPACE_BLOB_LINK → represents q (<[c := []]> m).
Proof.
  intros [Hm He Hl] Hc.
  assert (∀ c', c'.1 ≠ SUBSPACE_BLOB_LINK → <[c := []]> m !! c' = m !! c') as Hf.
  { intros c' Hc'. apply lookup_insert_ne. by intros <-. }
  split.
  - intros id Hid. rewrite Hf by done. by apply Hm.
  - intros due id Hd Hid. rewrite Hf by done. by apply He.
  - intros id msg Hmsg. destruct (Hl id msg Hmsg) as [Hl1 Hl2].
    rewrite !lookup_insert. by repeat case_decide.
Qed.

Lemma queue_batch_ops m due reserve_until :
  b_ops (queue_batch bincode_serialize m due reserve_until)
  = ((λ k, OpValue (quota_class k) (AtomicAdd (quota_amount (size_i64 m) k))) <$> m_quota_keys m) ++
    [OpValue (Queue (event_class due (m_id m))) (Set_ (ValueStatic (to_be_bytes 8 0)));
     OpValue (Blob (Reserve (m_blob_hash m) reserve_until)) Clear;
     OpValue (Blob (LinkId (m_blob_hash m) (m_id m))) (Set_ (ValueStatic []));
     OpValue (Blob (Commit (m_blob_hash m))) (Set_ (ValueStatic []));
     OpValue (Queue (Keys.Message (m_id m))) (Set_ (ValueStatic (bincode_serialize m)))].
Proof.
  unfold queue_batch, set, clear, b_push. cbn [b_ops]. rewrite reserve_ops. cbn [builder_new b_ops app].
  by rewrite <-!app_assoc.
Qed.

Lemma represents_queued q m due reserve_until mp mp' :
  represents q mp → uint_ok 64 (m_id m) → uint_ok 64 due → length (m_blob_hash m) = BLOB_HASH_LEN →
  run_ops store_hash (b_ops (queue_batch bincode_serialize m due reserve_until)) mp = Some mp' →
  represents (queued m due q) mp'.
Proof.
  intros Hr Hid Hd Hlen. rewrite queue_batch_ops, run_ops_app. intros (m1 & Hq1 & Hrun)%bind_Some.
  pose proof (quota_ops_frame _ _ _ _ _ Hq1) as Hf. cbn in Hrun. injection Hrun as <-.
  assert (represents q m1) as Hr1.
  { eapply represents_frame; [exact Hr|]. intros c Hc. apply Hf. intros Hx.
    destruct Hc as [Hc|[Hc|Hc]]; rewrite Hx in Hc; discriminate Hc. }
  apply rep_put_message; [|done| |].
  - apply represents_link; [|done]. apply represents_link; [|done].
    apply represents_unreserve; [|done]. by apply rep_put_event.
  - unfold link_cell, op_cell. cbn [resolve_value].
    rewrite lookup_insert_cell, decide_False, lookup_insert_cell, decide_True by done. done.
  - unfold commit_cell, op_cell. cbn [resolve_value].
    by rewrite lookup_insert_cell, decide_True by done.
Qed.
End writes.

(** ** Times *)

(** The times a message waits for. *)
Definition waits_for (m : Message) (t : Z) : Prop :=
  ∃ d, d ∈ m_domains m ∧ is_active (d_status d) = true ∧
    (t = s_due (d_retry d) ∨ t = s_due (d_notify d) ∨ t = d_expires d).

Lemma waits_for_ok m t : Forall domain_ok (m_domains m) → waits_for m t → uint_ok 64 t.
Proof.
  intros Hd (d & Hin & _ & Ht). pose proof (proj1 (Forall_forall _ _) Hd d Hin) as (H1 & H2 & H3).
  by destruct Ht as [->|[->| ->]].
Qed.

Lemma next_event_fold ds acc :
  (acc.2 = true ∨ ∃ d, d ∈ ds ∧ is_active (d_status d) = true) ↔
  (foldl next_event_step acc ds).2 = true.
Proof.
  revert acc. induction ds as [|d ds IH]; intros [t f]; cbn [foldl].
  { split; [intros [?|(d & Hin & _)]; [done|by apply not_elem_of_nil in Hin]|by left]. }
  rewrite <-IH. unfold next_event_step. destruct (is_active (d_status d)) eqn:Ha; cbn [snd].
  - split; [by left|]. intros _. right. exists d. split; [by left|done].
  - split; intros [?|(d' & Hin & Ha')]; [by left| |by left|].
    + apply elem_of_cons in Hin as [->|Hin]; [congruence|]. right. by exists d'.
    + right. exists d'. split; [by right|done].
Qed.
Lemma next_event_none now m :
  next_event now m = None ↔ ∀ d, d ∈ m_domains m → is_active (d_status d) = false.
Proof.
  unfold next_event. pose proof (next_event_fold (m_domains m) (now, false)) as Hf.
  destruct (foldl _ _ _) as [t f]. cbn [snd] in Hf. destruct f; split; try done.
  - intros Hn. apply proj2 in Hf. destruct (Hf eq_refl) as [?|(d & Hin & Ha)]; [done|].
    by rewrite Hn in Ha.
  - intros _ d Hin. destruct (is_active (d_status d)) eqn:Ha; [|done].
    exfalso. assert (false = true); [|done]. apply Hf. right. by exists d.
Qed.

(** The next event is one the message waits for. *)
Lemma next_event_waits now m t : next_event now m = Some t → waits_for m t.
Proof.
  unfold next_event, waits_for.
  assert (∀ ds acc, (acc.2 = true → waits_for m acc.1) → (∀ d, d ∈ ds → d ∈ m_domains m) →
    (foldl next_event_step acc ds).2 = true → waits_for m (foldl next_event_step acc ds).1) as Hall.
  { intros ds. induction ds as [|d ds IH]; intros acc H0 Hin; [done|]. cbn [foldl].
    apply IH; [|set_solver]. destruct acc as [t0 f0]. unfold next_event_step. cbn [fst snd] in *.
    destruct (is_active (d_status d)) eqn:Ha; [|done].
    assert (waits_for m (s_due (d_retry d)) ∧ waits_for m (s_due (d_notify d)) ∧
      waits_for m (d_expires d)) as (W1 & W2 & W3).
    { split_and!; exists d; (split; [apply Hin; by left|]); auto. }
    cbn [fst snd]. intros _. repeat case_match; try done; apply H0; by destruct f0. }
  destruct (foldl _ _ _) as [t' []] eqn:Hf; [|done]. intros [= <-].
  specialize (Hall (m_domains m) (now, false) ltac:(done) ltac:(done)). rewrite Hf in Hall. by apply Hall.
Qed.

Lemma next_event_after_waits instant m t : next_event_after instant m = Some t → waits_for m t ∧ instant < t.
Proof.
  unfold next_event_after.
  assert (∀ ds o, (∀ x, o = Some x → waits_for m x ∧ instant < x) → (∀ d, d ∈ ds → d ∈ m_domains m) →
    ∀ x, foldl (next_event_after_step instant) o ds = Some x → waits_for m x ∧ instant < x) as Hall.
  { intros ds. induction ds as [|d ds IH]; intros o Ho Hin; [done|]. cbn [foldl].
    apply IH; [|set_solver]. unfold next_event_after_step. destruct (is_active _) eqn:Ha; [|done].
    assert (∀ o' y, (∀ x, o' = Some x → waits_for m x ∧ instant < x) → waits_for m y →
      ∀ x, earlier instant y o' = Some x → waits_for m x ∧ instant < x) as He.
    { intros o' y Ho' Hy x. unfold earlier. destruct (instant <? y) eqn:Hlt; [|apply Ho'].
      apply Z.ltb_lt in Hlt. cbn [andb]. case_match; [intros [= <-]; done|apply Ho']. }
    repeat (apply He; [|exists d; split; [apply Hin; by left|auto]]). done. }
  by apply (Hall (m_domains m) None).
Qed.
Lemma next_delivery_waits now m :
  (∃ d, d ∈ m_domains m ∧ is_active (d_status d) = true) → waits_for m (next_delivery_event now m).
Proof.
  intros (d & Hin & Ha). unfold next_delivery_event.
  assert (d ∈ base.filter (λ d, is_active (d_status d) = true) (m_domains m)) as Hf by by apply list_elem_of_filter.
  assert (∀ d', d' ∈ base.filter (λ d, is_active (d_status d) = true) (m_domains m) →
    waits_for m (s_due (d_retry d'))) as Hall.
  { intros d' [? ?]%list_elem_of_filter. exists d'. auto. }
  destruct (base.filter _ _) as [|d0 ds]; [by apply not_elem_of_nil in Hf|]. cbn [next_delivery_loop].
  rewrite bool_decide_true by done. cbn [orb]. clear Hf d Hin Ha.
  assert (waits_for m (s_due (d_retry d0))) as H0 by (apply Hall; by left).
  assert (∀ d', d' ∈ ds → waits_for m (s_due (d_retry d'))) as Hds by set_solver. clear Hall.
  generalize 1%nat. generalize dependent (s_due (d_retry d0)).
  induction ds as [|d ds IH]; intros t Ht n; cbn [next_delivery_loop]; [done|].
  apply IH; [set_solver|]. case_match; [|done]. apply Hds. by left.
Qed.
