(* ===== verification/SmtpPartyTheory.v ===== *)
(** * What an attempt does to a message

    The pure parts of an attempt, and those that only talk to the
    environment: which statuses they change, that the message stays the same
    message ([same_message]) and well formed ([message_ok]), and who is told
    what became of a recipient. *)

From stdpp Require Import base gmap sorting strings numbers list.
From S2P Require Import Prelude Codec Keys KeyTheory Roaring Kv Batch Commit CommitTheory Read Store Query Blob Smtp SmtpSpool SmtpDsn SmtpSession SmtpDelivery SmtpLogic SmtpStoreTheory.
Import Smtp Spool Dsn Session Delivery.
Open Scope Z_scope.
Open Scope queue_scope.

Section parties.
Context `{Env} `{SmtpProto}.

(** ** Progress of a recipient *)

(** The other server accepted the recipient. *)
Definition rcpt_accepted (r : Recipient) (reply : Response) : Prop :=
  ∃ r0 caps n, party_id r0 = party_id r ∧ answer n _ (AskCmd (build_rcpt_to r0 caps)) = inr reply ∧
    severity reply = PositiveCompletion.
(** The message was taken for the recipient: by an SMTP server that accepted
    the recipient and then the message, by an LMTP server that accepted the
    message for the recipient, or by the mailbox. *)
Definition taken (r : Recipient) (c : HostResponse (list Z)) : Prop :=
  (rcpt_accepted r (response c) ∧ ∃ n reply, answer n _ AskRead = inr reply ∧ code reply = 250) ∨
  ((∃ reply, rcpt_accepted r reply) ∧
   ∃ n k replies, answer n _ (AskReadMany k) = inr replies ∧ response c ∈ replies ∧
     severity (response c) = PositiveCompletion) ∨
  (∃ n sender rcpts hash size results, answer n _ (AskIngest sender rcpts hash size) = Some results ∧
     rc_address_lcase r ∈ rcpts ∧ DeliverySuccess ∈ results).
Lemma taken_party r r' c : party_id r = party_id r' → taken r c → taken r' c.
Proof.
  intros He. assert (rc_address_lcase r = rc_address_lcase r') as Hl by by injection He.
  unfold taken, rcpt_accepted. by rewrite He, Hl.
Qed.

(** The same recipient; a status that is final stays, and a recipient is
    delivered only when the message was taken for it. *)
Record advances (r r' : Recipient) : Prop := {
  ad_party : party_id r = party_id r';
  ad_final : is_final (rc_status r) = true → rc_status r' = rc_status r;
  ad_taken c : rc_status r' = Completed c → rc_status r = Completed c ∨ taken r c;
}.

Lemma rcpt_advances_refl r : advances r r.
Proof. split; auto. Qed.
Lemma rcpt_advances_trans r1 r2 r3 : advances r1 r2 → advances r2 r3 → advances r1 r3.
Proof.
  intros [H1 F1 T1] [H2 F2 T2]. split; [congruence| |].
  - intros Hf. rewrite <-(F1 Hf). apply F2. by rewrite (F1 Hf).
  - intros c [Hc|Ht]%T2; [by apply T1|right]. by eapply taken_party.
Qed.
Lemma advances_idx r r' : advances r r' → rc_domain_idx r' = rc_domain_idx r.
Proof. intros [Hp _ _]. by injection Hp. Qed.
Lemma advances_final r r' : advances r r' → is_final (rc_status r) = true → is_final (rc_status r') = true.
Proof. intros [_ Hx _] Hf. by rewrite Hx. Qed.
(** A status that is not a delivery. *)
Lemma advances_failed r r' :
  party_id r = party_id r' → is_final (rc_status r) = false → (∀ c, rc_status r' ≠ Completed c) →
  advances r r'.
Proof. intros Hp Hf Hc. split; [done|by rewrite Hf|]. by intros c ?%Hc. Qed.
(** The status is as it was. *)
Lemma advances_same r r' : party_id r = party_id r' → rc_status r' = rc_status r → advances r r'.
Proof. intros Hp Hs. split; [done..|]. intros c. rewrite Hs. auto. Qed.

(** How a message may change: [same_message], and recipients advance. *)
Definition evolves (m m' : Message) : Prop :=
  header m = header m' ∧ domain_id <$> m_domains m = domain_id <$> m_domains m' ∧
  Forall2 advances (m_recipients m) (m_recipients m').

Lemma Forall2_advances_refl rs : Forall2 advances rs rs.
Proof. apply Forall_Forall2_diag, Forall_true. apply rcpt_advances_refl. Qed.
Lemma Forall2_advances_trans rs1 rs2 rs3 :
  Forall2 advances rs1 rs2 → Forall2 advances rs2 rs3 → Forall2 advances rs1 rs3.
Proof. intros Ha Hb. revert rs3 Hb. induction Ha as [|r1 r2 rs1 rs2 Hr Ha IH]; intros rs3 Hb; inversion Hb; subst; constructor;
    [by eapply rcpt_advances_trans|by apply IH]. Qed.

Lemma evolves_refl m : evolves m m.
Proof. split_and!; [done..|apply Forall2_advances_refl]. Qed.
Lemma evolves_trans m1 m2 m3 : evolves m1 m2 → evolves m2 m3 → evolves m1 m3.
Proof.
  intros (H1 & D1 & R1) (H2 & D2 & R2). split_and!; [congruence..|].
  by eapply Forall2_advances_trans.
Qed.
Lemma evolves_same m m' : evolves m m' → same_message m m'.
Proof.
  intros (H1 & D1 & R1). split_and!; [done..|].
  induction R1 as [|r r' rs rs' [Hr _ _] _ IH]; [done|]. by rewrite !fmap_cons, Hr, IH.
Qed.
Lemma header_fields m m' : header m = header m' →
  m_id m = m_id m' ∧ m_blob_hash m = m_blob_hash m' ∧ m_return_path m = m_return_path m' ∧
  m_flags m = m_flags m'.
Proof. by intros [=]. Qed.

Lemma Forall2_lookup_r' {A B} (P : A → B → Prop) l k i y :
  Forall2 P l k → k !! i = Some y → ∃ x, l !! i = Some x ∧ P x y.
Proof. intros Hf Hk. by eapply Forall2_lookup_r. Qed.

(** ** Well-formedness, by parts *)

Definition rcpt_ok (ds : list Domain) (r : Recipient) : Prop :=
  ∃ d, ds !! rc_domain_idx r = Some d ∧
    (d_status d = Completed tt → is_final (rc_status r) = true).
Definition parties_ok (ds : list Domain) (rs : list Recipient) : Prop :=
  Forall domain_ok ds ∧ ∀ r, r ∈ rs → rcpt_ok ds r.

Lemma message_ok_parties m : message_ok m → parties_ok (m_domains m) (m_recipients m).
Proof. intros [_ _ _ Hd Hr]. by split. Qed.
Lemma message_ok_change m m' :
  message_ok m → header m = header m' → m_quota_keys m' = m_quota_keys m →
  parties_ok (m_domains m') (m_recipients m') → message_ok m'.
Proof.
  intros [Hid Hh Hq _ _] Hhd Hk [Hd Hr]. destruct (header_fields m m' Hhd) as (E1 & E2 & _).
  split; [by rewrite <-E1|by rewrite <-E2|by rewrite Hk|done|done].
Qed.

(** Recipients may advance. *)
Lemma parties_ok_advance ds rs rs' :
  parties_ok ds rs → Forall2 advances rs rs' → parties_ok ds rs'.
Proof.
  intros [Hd Hr] Ha. split; [done|]. intros r' (i & Hi)%list_elem_of_lookup.
  destruct (Forall2_lookup_r' _ _ _ _ _ Ha Hi) as (r & Hri & Hadv).
  destruct (Hr r) as (d & Hds & Hc); [by eapply list_elem_of_lookup_2|].
  exists d. rewrite (advances_idx _ _ Hadv). split; [done|].
  intros Hcomp. by eapply advances_final, Hc.
Qed.

(** A domain may change when it does not become completed, or when all its
    recipients are done. *)
Lemma parties_ok_insert ds rs idx d :
  parties_ok ds rs → domain_ok d → (idx < length ds)%nat →
  (d_status d = Completed tt → ∀ r, r ∈ rs → rc_domain_idx r = idx → is_final (rc_status r) = true) →
  parties_ok (<[idx := d]> ds) rs.
Proof.
  intros [Hd Hr] Hok Hlt Hc. split; [by apply Forall_insert|]. intros r Hin.
  destruct (Hr r Hin) as (d' & Hds & Hcd'). unfold rcpt_ok.
  destruct (decide (rc_domain_idx r = idx)) as [<-|Hne].
  - exists d. rewrite list_lookup_insert_eq by done. split; [done|]. by intros; apply Hc.
  - exists d'. by rewrite list_lookup_insert_ne.
Qed.

(** ** Expiry *)

Lemma into_permanent_final {T E} (s : Status T E) : is_final s = true → into_permanent s = s.
Proof. by destruct s. Qed.

Lemma expire_recipient_advances idx r : advances r (expire_recipient idx r).
Proof.
  unfold expire_recipient. case_decide; [|apply rcpt_advances_refl].
  split; [done|cbn; apply into_permanent_final|]. cbn. intros c. destruct (rc_status r); cbn; auto; done.
Qed.
Lemma expire_recipients_advance idx rs : Forall2 advances rs (expire_recipient idx <$> rs).
Proof.
  rewrite <-(list_fmap_id rs) at 1. apply Forall2_fmap, Forall_Forall2_diag, Forall_true.
  apply expire_recipient_advances.
Qed.

Lemma expire_domain_spec now idx d rs d' rs' p :
  expire_domain now idx d rs = (d', rs', p) →
  domain_id d' = domain_id d ∧ (domain_ok d → domain_ok d') ∧ Forall2 advances rs rs' ∧
  (d_status d' = Completed tt → d_status d = Completed tt) ∧
  p = is_active (d_status d') ∧ (d_expires d ≤ now → p = false).
Proof.
  unfold expire_domain. destruct (d_status d) as [|[]| |] eqn:Hs.
  - destruct (d_expires d <=? now) eqn:He; intros [= <- <- <-].
    + split_and!; try done. apply expire_recipients_advance.
    + apply Z.leb_gt in He. rewrite Hs. split_and!; try done; [apply Forall2_advances_refl|lia].
  - intros [= <- <- <-]. rewrite Hs. split_and!; try done. apply Forall2_advances_refl.
  - destruct (d_expires d <=? now) eqn:He; intros [= <- <- <-].
    + split_and!; try done. apply expire_recipients_advance.
    + apply Z.leb_gt in He. rewrite Hs. split_and!; try done; [apply Forall2_advances_refl|lia].
  - intros [= <- <- <-]. rewrite Hs. split_and!; try done. apply Forall2_advances_refl.
Qed.

Lemma pending_loop_spec now idx ds rs ds' rs' p :
  pending_loop now idx ds rs = (ds', rs', p) →
  domain_id <$> ds' = domain_id <$> ds ∧ (Forall domain_ok ds → Forall domain_ok ds') ∧
  Forall2 advances rs rs' ∧
  Forall2 (λ d d', d_status d' = Completed tt → d_status d = Completed tt) ds ds' ∧
  (p = true ↔ ∃ d, d ∈ ds' ∧ is_active (d_status d) = true) ∧
  (Forall (λ d, d_expires d ≤ now) ds → p = false).
Proof.
  revert idx rs ds' rs' p. induction ds as [|d ds IH]; intros idx rs ds' rs' p; cbn [pending_loop].
  { intros [= <- <- <-]. split_and!; try done; [apply Forall2_advances_refl|].
    split; [done|]. intros (d & Hin & _). by apply not_elem_of_nil in Hin. }
  destruct (expire_domain now idx d rs) as [[d1 rs1] p1] eqn:He.
  destruct (pending_loop now (S idx) ds rs1) as [[ds2 rs2] p2] eqn:Hl. intros [= <- <- <-].
  apply expire_domain_spec in He as (Hid & Hok & Hr & Hc & -> & Hex).
  apply IH in Hl as (Hid' & Hok' & Hr' & Hc' & Hp & Hex'). split_and!.
  - by rewrite !fmap_cons, Hid, Hid'.
  - intros [? ?]%Forall_cons. constructor; auto.
  - by eapply Forall2_advances_trans.
  - by constructor.
  - rewrite orb_true_iff, Hp. split.
    + intros [Ha|(d' & Hin & Ha)]; [exists d1|exists d']; (split; [|done]); [by left|by right].
    + intros (d' & [->|Hin]%elem_of_cons & Ha); [by left|right; eauto].
  - intros [? ?]%Forall_cons. by rewrite Hex, Hex'.
Qed.

Lemma parties_ok_pending now ds rs ds' rs' p :
  parties_ok ds rs → pending_loop now 0 ds rs = (ds', rs', p) → parties_ok ds' rs'.
Proof.
  intros Hok (Hid & Hdok & Hr & Hc & _ & _)%pending_loop_spec.
  pose proof (parties_ok_advance _ _ _ Hok Hr) as [Hd Hrs]. split; [by apply Hdok|].
  intros r Hin. destruct (Hrs r Hin) as (d & Hds & Hcd).
  destruct (Forall2_lookup_l _ _ _ _ _ Hc Hds) as (d' & Hd' & Hcc). exists d'. split; [done|].
  intros Hx. by apply Hcd, Hcc.
Qed.

(** [has_pending_delivery]: the message is pending exactly if a domain is
    active; one past its expiry is not. *)
Lemma has_pending_spec now m p m' :
  message_ok m → has_pending_delivery now m = (p, m') →
  message_ok m' ∧ evolves m m' ∧
  (p = true ↔ ∃ d, d ∈ m_domains m' ∧ is_active (d_status d) = true) ∧
  (Forall (λ d, d_expires d ≤ now) (m_domains m) → p = false).
Proof.
  intros Hok. unfold has_pending_delivery.
  destruct (pending_loop now 0 (m_domains m) (m_recipients m)) as [[ds rs] p'] eqn:Hl.
  intros [= <- <-]. pose proof (parties_ok_pending _ _ _ _ _ _ (message_ok_parties m Hok) Hl) as Hpo.
  apply pending_loop_spec in Hl as (Hid & _ & Hr & _ & Hp & Hex).
  split_and!; [by apply (message_ok_change m)|by split_and!|done|done].
Qed.

(** ** Notifications *)

(** Whether the sender was told of a recipient, or never wants to be. *)
Definition told (r : Recipient) : bool :=
  has_flag (rc_flags r) (Z.lor RCPT_DSN_SENT RCPT_NOTIFY_NEVER).

Lemma has_flag_bit f x i : 0 ≤ i → Z.testbit f i = true → Z.testbit x i = true → has_flag f x = true.
Proof.
  intros Hi Hf Hx. unfold has_flag. destruct (Z.land f x =? 0) eqn:He; [|done].
  apply Z.eqb_eq in He. pose proof (Z.land_spec f x i) as Hs. by rewrite He, Hf, Hx, Z.testbit_0_l in Hs.
Qed.
Lemma told_sent r extra : told (add_flags (Z.lor RCPT_DSN_SENT extra) r) = true.
Proof.
  unfold told. cbn [add_flags rc_flags]. apply (has_flag_bit _ _ 32); [done|..]; by rewrite ?Z.lor_spec, ?orb_true_r.
Qed.

(** A recipient after a notification: its status is as it was, and the sender
    was told, unless there is nothing final to tell. *)
Definition notified (silent : Prop) (ds : list Domain) (r r' : Recipient) : Prop :=
  party_id r = party_id r' ∧ rc_status r' = rc_status r ∧
  ∀ d, ds !! rc_domain_idx r = Some d →
    told r' = true ∨ (∃ e, rc_status r = TemporaryFailure e) ∨
    (rc_status r = Scheduled ∧ ∀ e, d_status d ≠ PermanentFailure e) ∨
    (silent ∧ ∃ c, rc_status r = Completed c).
Definition renotified (d d' : Domain) : Prop :=
  domain_id d = domain_id d' ∧ d_status d' = d_status d ∧ d_retry d' = d_retry d ∧
  (domain_ok d → domain_ok d').
(** The message after a notification. *)
Definition dsn_done (m m' : Message) : Prop :=
  header m = header m' ∧ m_quota_keys m' = m_quota_keys m ∧
  Forall2 renotified (m_domains m) (m_domains m') ∧
  Forall2 (notified (m_return_path m = []) (m_domains m)) (m_recipients m) (m_recipients m').

Lemma renotified_refl ds : Forall2 renotified ds ds.
Proof. apply Forall_Forall2_diag, Forall_true. by intros d. Qed.

Lemma Forall2_renotified_ids ds ds' :
  Forall2 renotified ds ds' → domain_id <$> ds = domain_id <$> ds'.
Proof. induction 1 as [|d d' ds ds' (Hid & _) _ IH]; [done|]. by rewrite !fmap_cons, Hid, IH. Qed.

End parties.

Section dsn.
Context {DB Txn BS : Type} `{RocksDB DB Txn} `{StoreWrite DB} `{BlobStore BS} `{EnvOk} `{SmtpProto}.

Lemma notified_advances silent ds rs rs' : Forall2 (notified silent ds) rs rs' → Forall2 advances rs rs'.
Proof. intros Hf. eapply Forall2_impl; [exact Hf|]. intros r r' (Hid & Hs & _). by apply advances_same. Qed.

Lemma dsn_done_ok m m' : message_ok m → dsn_done m m' → message_ok m' ∧ evolves m m'.
Proof.
  intros Hok (Hh & Hk & Hd & Hr). pose proof (notified_advances _ _ _ _ Hr) as Ha.
  split; [|by split_and!; [|apply Forall2_renotified_ids|]].
  apply (message_ok_change m); [done..|].
  pose proof (parties_ok_advance _ _ _ (message_ok_parties m Hok) Ha) as [Hdo Hro]. split.
  - clear -Hd Hdo. induction Hd as [|d d' ds ds' (_ & _ & _ & Hx) _ IH]; [done|].
    inversion Hdo; subst. constructor; auto.
  - intros r Hin. destruct (Hro r Hin) as (d & Hds & Hc).
    destruct (Forall2_lookup_l _ _ _ _ _ Hd Hds) as (d' & Hd' & _ & Hs & _).
    exists d'. by rewrite Hs.
Qed.

Lemma report_final_notified flag o status text r t ds silent :
  notified silent ds r (report_final flag o status text r t).1.
Proof.
  unfold report_final. split_and!; [by case_match|by case_match|].
  intros d _. left. case_match; cbn [fst]; apply told_sent.
Qed.

Lemma notified_keep silent ds r :
  (∀ d, ds !! rc_domain_idx r = Some d → told r = true ∨ (∃ e, rc_status r = TemporaryFailure e) ∨
    (rc_status r = Scheduled ∧ ∀ e, d_status d ≠ PermanentFailure e) ∨
    (silent ∧ ∃ c, rc_status r = Completed c)) →
  notified silent ds r r.
Proof. by intros Hx. Qed.

Lemma report_delay_steady now d status text r t (P : Recipient → Prop) :
  P r → steady (DB:=DB) (BS:=BS) (report_delay now d status text r t) (λ rt, P rt.1).
Proof.
  intros Hp. unfold report_delay. case_match; [|by apply steady_ret].
  eapply steady_bind; [by apply (steady_now (λ _, True))|]. intros ? _. by apply steady_ret.
Qed.

Lemma dsn_rcpt_steady now ds r t silent :
  steady (DB:=DB) (BS:=BS) (dsn_rcpt now ds r t) (λ rt, notified silent ds r rt.1).
Proof.
  unfold dsn_rcpt. case_match eqn:Ht.
  { apply steady_ret, notified_keep. by left. }
  eapply steady_bind; [by apply (steady_or_panic _ (λ d, ds !! rc_domain_idx r = Some d))|].
  intros d Hd. assert (∀ d0, ds !! rc_domain_idx r = Some d0 → d0 = d) as Hone by (intros; congruence).
  destruct (rc_status r) as [|c|e|e] eqn:Hs.
  - destruct (d_status d) as [|c|e|e] eqn:Hds.
    + apply report_delay_steady, notified_keep. intros d0 ->%Hone. right; right; left. by rewrite Hds.
    + apply steady_ret, notified_keep. intros d0 ->%Hone. right; right; left. by rewrite Hds.
    + apply report_delay_steady, notified_keep. intros d0 ->%Hone. right; right; left. by rewrite Hds.
    + apply steady_ret, report_final_notified.
  - apply steady_ret, report_final_notified.
  - apply report_delay_steady, notified_keep. intros d0 _. right; left. by eexists.
  - apply steady_ret, report_final_notified.
Qed.
Lemma dsn_rcpts_steady now ds rs t silent :
  steady (DB:=DB) (BS:=BS) (dsn_rcpts now ds rs t) (λ rt, Forall2 (notified silent ds) rs rt.1).
Proof.
  revert t. induction rs as [|r rs IH]; intros t; cbn [dsn_rcpts]; [by apply steady_ret|].
  eapply steady_bind; [apply (dsn_rcpt_steady now ds r t silent)|]. intros [r' t'] Hr.
  eapply steady_bind; [apply IH|]. intros [rs' t''] Hrs. apply steady_ret. by constructor.
Qed.

Lemma next_notify_steady now m idx d : steady (DB:=DB) (BS:=BS) (next_notify now m idx d) (renotified d).
Proof.
  unfold next_notify. case_match; [|by apply steady_ret].
  eapply steady_bind; [by apply (steady_question _ (λ _, True))|]. intros s _. apply steady_ret.
  case_match; (split_and!; [done..|]); intros (H1' & _ & H3'); (split_and!; [done| |done]); apply u64_add_ok.
Qed.
Lemma next_notifies_steady now m idx ds :
  steady (DB:=DB) (BS:=BS) (next_notifies now m idx ds) (Forall2 renotified ds).
Proof.
  revert idx. induction ds as [|d ds IH]; intros idx; cbn [next_notifies]; [by apply steady_ret|].
  eapply steady_bind; [apply next_notify_steady|]. intros d' Hd.
  eapply steady_bind; [apply IH|]. intros ds' Hds. apply steady_ret. by constructor.
Qed.

Lemma build_dsn_steady m :
  steady (DB:=DB) (BS:=BS) (build_dsn m) (λ om, dsn_done m om.2).
Proof.
  unfold build_dsn. eapply steady_bind; [by apply (steady_now (λ _, True))|]. intros t _.
  eapply steady_bind; [apply (dsn_rcpts_steady t (m_domains m) _ _ (m_return_path m = []))|].
  intros [rs texts] Hrs. cbn [fst snd] in *. case_match.
  { apply steady_ret. split_and!; [done..|apply renotified_refl|done]. }
  destruct (body texts) as [text subject].
  eapply (steady_bind _ _ (Forall2 renotified (m_domains m))).
  { case_match; [apply steady_ret, renotified_refl|]. apply next_notifies_steady. }
  intros ds Hds. do 3 (eapply steady_bind; [by apply (steady_question _ (λ _, True))|]; intros ? _).
  eapply steady_bind; [by apply (steady_get_blobs (λ _, True))|]. intros ? _.
  eapply steady_bind; [by apply (steady_question _ (λ _, True))|]. intros ? _.
  apply steady_ret. by split_and!.
Qed.

Lemma bounce_rcpt_notified ds r r' : bounce_rcpt ds r = Some r' → notified True ds r r'.
Proof.
  unfold bounce_rcpt. case_match eqn:Ht.
  { intros [= <-]. apply notified_keep. by left. }
  destruct (rc_status r) as [|c|e|e] eqn:Hs.
  - intros (d & Hd & [= <-])%bind_Some. split_and!; [by case_match|by case_match|].
    intros d0 Hd0. rewrite Hd in Hd0. injection Hd0 as <-.
    case_match eqn:Hds; [right; right; left..|left; rewrite <-(Z.lor_0_r RCPT_DSN_SENT); apply told_sent];
      by split.
  - intros [= <-]. apply notified_keep. intros d0 _. right; right; right. eauto.
  - intros [= <-]. apply notified_keep. intros d0 _. right; left. eauto.
  - intros [= <-]. split_and!; [done..|]. intros d0 _. left.
    rewrite <-(Z.lor_0_r RCPT_DSN_SENT). apply told_sent.
Qed.

Lemma double_bounce_steady m :
  m_return_path m = [] → steady (DB:=DB) (BS:=BS) (handle_double_bounce m) (dsn_done m).
Proof.
  intros Hrp. unfold handle_double_bounce.
  eapply (steady_bind _ _ (Forall2 (notified True (m_domains m)) (m_recipients m))).
  { apply steady_or_panic. intros rs Hm. apply mapM_Some in Hm.
    eapply Forall2_impl; [exact Hm|]. apply bounce_rcpt_notified. }
  intros rs Hrs. eapply steady_bind; [by apply (steady_now (λ _, True))|]. intros t _.
  apply steady_ret. split_and!; [done..| |].
  - rewrite <-(list_fmap_id (m_domains m)) at 1.
    apply Forall2_fmap, Forall_Forall2_diag, Forall_true. intros d. unfold bounce_domain, id.
    case_match; [|done]. split_and!; [done..|]. intros (H1' & _ & H3'). split_and!; [done| |done]. apply u64_add_ok.
  - eapply Forall2_impl; [exact Hrs|]. intros r r' (Hid & Hs & Hx). split_and!; [done..|].
    intros d Hd. destruct (Hx d Hd) as [?|[?|[?|[_ ?]]]]; auto 6.
Qed.
End dsn.

(** A recipient that failed for good: it was refused, or its domain failed. *)
Definition failed (ds : list Domain) (r : Recipient) : Prop :=
  (∃ e, rc_status r = PermanentFailure e) ∨
  (is_active (rc_status r) = true ∧
   ∃ d e, ds !! rc_domain_idx r = Some d ∧ d_status d = PermanentFailure e).
(** What becomes of a recipient in the end: it was delivered, or it failed for
    good and is marked as reported, asked for no notification ever, or had
    itself been refused only for a while. *)
Definition settled `{SmtpProto} (ds : list Domain) (r : Recipient) : Prop :=
  (∃ c, rc_status r = Completed c) ∨
  failed ds r ∧
  (has_flag (rc_flags r) RCPT_DSN_SENT = true ∨ has_flag (rc_flags r) RCPT_NOTIFY_NEVER = true ∨
   ∃ e, rc_status r = TemporaryFailure e).

Lemma has_flag_lor f x y : has_flag f (Z.lor x y) = has_flag f x || has_flag f y.
Proof.
  unfold has_flag. rewrite Z.land_lor_distr_r. destruct (Z.land f x =? 0) eqn:Hx; cbn [negb orb].
  - apply Z.eqb_eq in Hx. by rewrite Hx, Z.lor_0_l.
  - apply Z.eqb_neq in Hx. destruct (Z.lor _ _ =? 0) eqn:Ho; [|done].
    apply Z.eqb_eq, Z.lor_eq_0_iff in Ho as [? _]. done.
Qed.

(** When nothing is active any more and notifications were sent, every
    recipient is settled. *)
Lemma dsn_done_settled `{SmtpProto} m m' :
  message_ok m → dsn_done m m' → (∀ d, d ∈ m_domains m → is_active (d_status d) = false) →
  Forall (settled (m_domains m')) (m_recipients m').
Proof.
  intros Hok (Hh & Hk & Hd & Hr) Hina. apply Forall_forall. intros r' (i & Hi)%list_elem_of_lookup.
  destruct (Forall2_lookup_r' _ _ _ _ _ Hr Hi) as (r & Hri & Hid & Hs & Hx).
  destruct (mk_rcpt m Hok r) as (d & Hds & Hc); [by eapply list_elem_of_lookup_2|].
  assert (is_active (d_status d) = false) as Hna by (apply Hina; by eapply list_elem_of_lookup_2).
  assert (rc_domain_idx r' = rc_domain_idx r) as Hidx by by injection Hid.
  destruct (Forall2_lookup_l _ _ _ _ _ Hd Hds) as (d' & Hd' & _ & Hst & _).
  assert (is_active (rc_status r) = true → ∃ e, d_status d = PermanentFailure e) as Hdom.
  { intros Ha. destruct (d_status d) as [|[]|e'|e']; try done; [|by exists e'].
    specialize (Hc eq_refl). by destruct (rc_status r). }
  assert ((∃ c, rc_status r' = Completed c) ∨ failed (m_domains m') r') as [?|Hf]; [|by left|].
  { unfold failed. rewrite Hs, Hidx. destruct (rc_status r) as [|c|e|e] eqn:Hsr.
    - right; right. split; [done|]. destruct (Hdom eq_refl) as [e' He]. exists d', e'. by rewrite Hst.
    - left. by exists c.
    - right; right. split; [done|]. destruct (Hdom eq_refl) as [e' He]. exists d', e'. by rewrite Hst.
    - right; left. by exists e. }
  unfold settled. rewrite Hs. destruct (Hx d Hds) as [Ht|[[e He]|[[He Hnp]|[_ ?]]]]; [| | |by left].
  - right. split; [done|]. unfold told in Ht. rewrite has_flag_lor, orb_true_iff in Ht. naive_solver.
  - right. split; [done|]. right; right. by exists e.
  - destruct (Hdom ltac:(by rewrite He)) as [e' He']. by destruct (Hnp e').
Qed.
