(* ===== verification/SmtpSessionTheory.v ===== *)
(** * What a session does to the recipients

    A session changes the recipients of its domain that are not done, and
    reports the domain as completed only when all of them are.  A recipient
    counts as delivered only if the other server accepted it and then took
    the message. *)

From stdpp Require Import base gmap sorting strings numbers list.
From S2P Require Import Prelude Codec Keys KeyTheory Roaring Kv Batch Commit CommitTheory Read Store Query Blob Smtp SmtpSpool SmtpDsn SmtpSession SmtpDelivery SmtpLogic SmtpStoreTheory SmtpPartyTheory.
Import Smtp Spool Dsn Session Delivery.
Open Scope Z_scope.
Open Scope queue_scope.

(** ** Counting *)

Fixpoint nof (idx : nat) (rs : list Recipient) : nat :=
  match rs with [] => 0 | r :: rs => (if decide (rc_domain_idx r = idx) then 1 else 0) + nof idx rs end.
Fixpoint nfinal (idx : nat) (rs : list Recipient) : nat :=
  match rs with
  | [] => 0
  | r :: rs =>
      (if decide (rc_domain_idx r = idx) then if is_final (rc_status r) then 1 else 0 else 0)
      + nfinal idx rs
  end.
Lemma nfinal_le idx rs : (nfinal idx rs ≤ nof idx rs)%nat.
Proof. induction rs as [|r rs IH]; cbn; [done|]. case_decide; [case_match|]; lia. Qed.
Lemma nfinal_all idx rs :
  nfinal idx rs = nof idx rs → ∀ r, r ∈ rs → rc_domain_idx r = idx → is_final (rc_status r) = true.
Proof.
  induction rs as [|r rs IH]; cbn; [by intros _ r ?%not_elem_of_nil|].
  intros He r' [->|Hin]%elem_of_cons Hidx; pose proof (nfinal_le idx rs).
  - rewrite !decide_True in He by done. destruct (is_final (rc_status r)); [done|lia].
  - apply IH; [|done..]. case_decide; [case_match|]; lia.
Qed.
Section counting.
Context `{Env} `{SmtpProto}.
Lemma nof_advance idx rs rs' : Forall2 advances rs rs' → nof idx rs' = nof idx rs.
Proof.
  induction 1 as [|r r' rs rs' Hr _ IH]; [done|]. cbn. by rewrite (advances_idx _ _ Hr), IH.
Qed.

(** A domain's recipients after a session. *)
Definition served (idx : nat) (rs : list Recipient) (res : DomainStatus * list Recipient) : Prop :=
  Forall2 advances rs res.2 ∧
  (res.1 = Completed tt → ∀ r, r ∈ res.2 → rc_domain_idx r = idx → is_final (rc_status r) = true).

Definition tally_ok (idx : nat) (t : Tally) (rs : list Recipient) : Prop :=
  total_rcpt t = nof idx rs ∧ total_completed t = nfinal idx rs.
Lemma tally_served idx t rs rs' :
  Forall2 advances rs rs' → tally_ok idx t rs' → served idx rs (tally_status t, rs').
Proof.
  intros Ha [Hn Hf]. split; [done|]. cbn. unfold tally_status. case_decide as He; [|done].
  intros _. apply nfinal_all. congruence.
Qed.
Lemma failed_served idx rs rs' status :
  Forall2 advances rs rs' → status ≠ Completed tt → served idx rs (status, rs').
Proof. intros Ha Hs. by split. Qed.

End counting.

Section session.
Context {DB Txn BS : Type} `{RocksDB DB Txn} `{StoreWrite DB} `{BlobStore BS} `{EnvOk} `{SmtpProto}.
Local Abbreviation steady := (steady (DB:=DB) (BS:=BS)).

(** ** Errors are not completions *)

Lemma by_severity_failure reply e : by_severity reply e ≠ Completed tt.
Proof. unfold by_severity. by case_decide. Qed.
Lemma from_smtp_error_failure h c e : from_smtp_error h c e ≠ Completed tt.
Proof. destruct e; try done. apply by_severity_failure. Qed.
Lemma from_starttls_error_failure h r : from_starttls_error h r ≠ Completed tt.
Proof. destruct r; [apply by_severity_failure|done]. Qed.
Lemma from_tls_error_failure h e : from_tls_error h e ≠ Completed tt.
Proof. by destruct e. Qed.
Lemma into_temporary_failure (s : DomainStatus) : s ≠ Completed tt → into_temporary s ≠ Completed tt.
Proof. by destruct s. Qed.
Lemma from_dns_failure_failure e : from_dns_failure e ≠ Completed tt.
Proof. by destruct e. Qed.
Lemma from_sts_error_failure e : from_sts_error e ≠ Completed tt.
Proof. destruct e as [[]|[] [] []|]; done. Qed.
Create HintDb failure.
Hint Resolve by_severity_failure from_smtp_error_failure from_starttls_error_failure
  from_tls_error_failure into_temporary_failure from_dns_failure_failure
  from_sts_error_failure : failure.

(** A status or a value; the status is a failure. *)
Definition failure_or {A} (r : DomainStatus + A) : Prop :=
  match r with inl status => status ≠ Completed tt | inr _ => True end.

(** What was answered. *)
Lemma answered {X} (q : ask X) : steady (question q) (λ x, ∃ n, answer n _ q = x).
Proof. apply steady_question. by eexists. Qed.
Lemma timeout_answered {X} (q : ask X) :
  steady (timeout (question q)) (λ o, ∀ x, o = Some x → ∃ n, answer n _ q = x).
Proof. eapply steady_timeout; [apply answered|done|]. by intros x Hx ? [= <-]. Qed.
Lemma timeout_question {X} (q : ask X) : steady (timeout (question q)) (λ _, True).
Proof. eapply (steady_timeout _ (λ _, True)); [by apply steady_question|done..]. Qed.

Lemma say_helo_steady params : steady (say_helo params) failure_or.
Proof.
  unfold say_helo. eapply steady_bind; [apply timeout_question|]. intros [[e|c]|] _;
    apply steady_ret; cbn [failure_or]; by auto with failure.
Qed.
Lemma read_greeting_steady h : steady (read_greeting h) failure_or.
Proof.
  unfold read_greeting. eapply steady_bind; [apply timeout_question|].
  intros [[e|c]|] _; apply steady_ret; try case_match; cbn [failure_or]; by auto with failure.
Qed.
Lemma try_start_tls_steady h v c : steady (try_start_tls h v c) (λ _, True).
Proof.
  unfold try_start_tls. case_match; [|by apply steady_ret].
  eapply steady_bind; [by apply (steady_question _ (λ _, True))|]. intros [e|r] _; [by apply steady_ret|].
  case_match; [|by apply steady_ret].
  eapply steady_bind; [by apply (steady_question _ (λ _, True))|]. intros ? _. by apply steady_ret.
Qed.
Lemma send_data_steady raw : steady (send_data raw) (λ _, True).
Proof.
  unfold send_data. eapply steady_bind; [by apply (steady_question _ (λ _, True))|].
  intros [e|[]] _; [by apply steady_ret|].
  eapply steady_bind; [by apply (steady_question _ (λ _, True))|]. intros [e|r] _; [by apply steady_ret|].
  case_match; [by apply steady_ret|]. by apply steady_question.
Qed.
Lemma send_message_steady m cmd params : steady (send_message m cmd params) failure_or.
Proof.
  unfold send_message. eapply steady_bind; [by apply (steady_get_blobs (λ _, True))|]. intros bs _.
  destruct (get_blob _ _ _ _) as [[raw|]|]; try by apply steady_ret.
  eapply (steady_bind _ _ (λ _, True)).
  { eapply (steady_timeout _ (λ _, True)); [|done..].
    case_match; [by apply steady_question|apply send_data_steady]. }
  intros [[e|[]]|] _; apply steady_ret; cbn [failure_or]; by auto with failure.
Qed.

(** ** Recipients *)

Lemma refuse_spec h c reply t r r' t' :
  refuse h c reply t r = (r', t') → is_final (rc_status r) = false →
  advances r r' ∧ total_rcpt t' = total_rcpt t ∧
  total_completed t' = (total_completed t + if is_final (rc_status r') then 1 else 0)%nat.
Proof.
  unfold refuse. intros He Hf.
  case_decide; injection He as <- <-; cbn; (split_and!; [|lia..]); by apply advances_failed.
Qed.

(** Who was accepted waits for the message to be taken. *)
Definition accepted (idx : nat) (r : Recipient) (ro : Recipient * option RcptStatus) : Prop :=
  advances r ro.1 ∧
  (∀ s, ro.2 = Some s → ro.1 = r ∧ is_final (rc_status r) = false ∧ rc_domain_idx r = idx ∧
     ∃ c, s = Completed c ∧ rcpt_accepted r (response c)).

Lemma rcpt_loop_steady idx params caps t rs :
  steady (rcpt_loop idx params caps t rs)
    (λ res, let '(failed, out, t') := res in
       Forall2 (accepted idx) rs out ∧
       match failed with
       | Some status => status ≠ Completed tt
       | None => total_rcpt t' = (total_rcpt t + nof idx rs)%nat ∧
                 total_completed t' = (total_completed t + nfinal idx out.*1)%nat
       end).
Proof.
  assert (∀ r, accepted idx r (r, None)) as Hkeep by (intros r; split; [apply rcpt_advances_refl|done]).
  revert t. induction rs as [|r rs IH]; intros t; cbn [rcpt_loop].
  { apply steady_ret. split; [constructor|]. cbn. lia. }
  case_decide as Hidx.
  { eapply steady_bind; [apply IH|]. intros [[failed out] t'] [Hout Ht]. apply steady_ret.
    split; [by constructor|]. destruct failed; [done|]. rewrite fmap_cons. cbn [nof nfinal fst].
    rewrite !decide_False by done. done. }
  destruct (is_final (rc_status r)) eqn:Hf.
  { eapply steady_bind; [apply IH|]. intros [[failed out] t'] [Hout Ht]. apply steady_ret.
    split; [by constructor|]. destruct failed; [done|]. rewrite fmap_cons. cbn [nof nfinal fst].
    rewrite !decide_True, Hf by done. cbn in Ht |- *. lia. }
  eapply steady_bind; [apply answered|]. intros [err|reply] [n Hans].
  { apply steady_ret. split; [|apply from_smtp_error_failure].
    constructor; [done|]. rewrite <-(list_fmap_id rs) at 1. by apply Forall2_fmap, Forall_Forall2_diag, Forall_true. }
  case_decide as Hsev.
  - eapply steady_bind; [apply IH|]. intros [[failed out] t'] [Hout Ht]. apply steady_ret.
    split; [constructor; [|done]; split; [apply rcpt_advances_refl|]|].
    { intros s [= <-]. split_and!; [done..|]. eexists. split; [done|]. by exists r, caps, n. }
    destruct failed; [done|]. rewrite fmap_cons. cbn [nof nfinal fst].
    rewrite !decide_True, Hf by done. cbn in Ht |- *. lia.
  - destruct (refuse _ _ _ _ _) as [r' t1] eqn:Hr. apply refuse_spec in Hr as (Ha & Hn & Hc); [|done].
    eapply steady_bind; [apply IH|]. intros [[failed out] t'] [Hout Ht]. apply steady_ret.
    split; [by constructor|]. destruct failed; [done|]. rewrite fmap_cons. cbn [nof nfinal fst].
    rewrite (decide_True (P:=rc_domain_idx r = idx)) by done.
    rewrite decide_True by (by rewrite (advances_idx _ _ Ha)). cbn in Hn, Hc, Ht. lia.
Qed.

Lemma accepted_advances idx rs out : Forall2 (accepted idx) rs out → Forall2 advances rs out.*1.
Proof. induction 1 as [|r ro rs out [Ha _] _ IH]; [constructor|]. by constructor. Qed.

Lemma complete_all_spec idx rs out t rs' t' n reply :
  answer n _ AskRead = inr reply → code reply = 250 →
  Forall2 (accepted idx) rs out → complete_all t out = (rs', t') →
  Forall2 advances rs rs' ∧ total_rcpt t' = total_rcpt t ∧
  (total_completed t' + nfinal idx out.*1 = total_completed t + nfinal idx rs')%nat.
Proof.
  intros Hn Hcode Hf. revert t rs' t'.
  induction Hf as [|r [r1 o] rs out [Ha Ho] _ IH]; intros t rs' t'; cbn [complete_all].
  { intros [= <- <-]. split_and!; [constructor|done|cbn; lia]. }
  cbn [fst snd] in *. destruct o as [s|].
  - destruct (Ho s eq_refl) as (-> & Hfr & Hidx & c & -> & Hacc).
    destruct (complete_all (count_completed t) out) as [rs2 t2] eqn:Hc. intros [= <- <-].
    apply IH in Hc as (Hadv & Ht & Hcc). rewrite fmap_cons. cbn [nfinal fst].
    cbn [add_flags set_rc_status rc_domain_idx rc_status is_final]. rewrite !decide_True, Hfr by done.
    split_and!; [|done|cbn in Hcc; lia]. constructor; [|done].
    split; [done|by rewrite Hfr|]. intros c' [= <-]. right. left. eauto.
  - destruct (complete_all t out) as [rs2 t2] eqn:Hc. intros [= <- <-].
    apply IH in Hc as (Hadv & Ht & Hcc). rewrite fmap_cons. cbn [nfinal fst].
    split_and!; [by constructor|done|lia].
Qed.
Lemma complete_each_spec params command idx rs out t all n k replies rs' t' :
  answer n _ (AskReadMany k) = inr all → (∀ x, x ∈ replies → x ∈ all) →
  Forall2 (accepted idx) rs out → complete_each params command t out replies = (rs', t') →
  Forall2 advances rs rs' ∧ total_rcpt t' = total_rcpt t ∧
  (total_completed t' + nfinal idx out.*1 = total_completed t + nfinal idx rs')%nat.
Proof.
  intros Hans Hall Hf. revert t replies Hall rs' t'.
  induction Hf as [|r [r1 o] rs out [Ha Ho] _ IH]; intros t replies Hall rs' t'; cbn [complete_each].
  { intros [= <- <-]. split_and!; [constructor|done|cbn; lia]. }
  assert (∀ t0, (let '(rs0, t0) := complete_each params command t0 out replies in (r1 :: rs0, t0)) = (rs', t') →
    Forall2 advances (r :: rs) rs' ∧ total_rcpt t' = total_rcpt t0 ∧
    (total_completed t' + nfinal idx (r1 :: out.*1) = total_completed t0 + nfinal idx rs')%nat) as Hskip.
  { intros t0. destruct (complete_each params command t0 out replies) as [rs2 t2] eqn:Hc. intros [= <- <-].
    apply IH in Hc as (Hadv & Hn & Hcc); [|done]. cbn [nfinal fst]. split_and!; [by constructor|done|lia]. }
  rewrite fmap_cons. cbn [fst snd] in *. destruct o as [s|]; [|apply Hskip].
  destruct (Ho s eq_refl) as (-> & Hfr & Hidx & c & _ & Hacc). destruct replies as [|reply replies]; [apply Hskip|].
  clear Hskip. destruct (if decide _ then _ else _) as [r2 t2] eqn:Hr2.
  assert (advances r r2 ∧ total_rcpt t2 = total_rcpt t ∧
    total_completed t2 = (total_completed t + if is_final (rc_status r2) then 1 else 0)%nat) as (Ha2 & Hn2 & Hc2).
  { destruct (decide (severity reply = PositiveCompletion)); [|by eapply refuse_spec].
    injection Hr2 as <- <-. cbn. split_and!; [|done|lia]. split; [done|by rewrite Hfr|].
    intros c' [= <-]. right. right. left. split; [by eexists|]. exists n, k, all.
    split_and!; [done|apply Hall; by left|done]. }
  destruct (complete_each params command t2 out replies) as [rs3 t3] eqn:Hc. intros [= <- <-].
  apply IH in Hc as (Hadv & Hn & Hcc); [|intros x Hx; apply Hall; by right].
  cbn [nfinal]. rewrite (advances_idx _ _ Ha2), !decide_True, Hfr by done.
  split_and!; [by constructor|congruence|lia].
Qed.

Lemma data_phase_steady m idx params caps t rs out :
  Forall2 (accepted idx) rs out → total_rcpt t = nof idx rs → total_completed t = nfinal idx out.*1 →
  steady (data_phase m params caps t out) (served idx rs).
Proof.
  intros Hout Hn Hc. pose proof (accepted_advances _ _ _ Hout) as Hadv. unfold data_phase.
  eapply steady_bind; [apply send_message_steady|]. intros [status|[]] Hs.
  { apply steady_ret. by apply failed_served. }
  assert (∀ rs' t', Forall2 advances rs rs' ∧ total_rcpt t' = total_rcpt t ∧
    (total_completed t' + nfinal idx out.*1 = total_completed t + nfinal idx rs')%nat →
    served idx rs (tally_status t', rs')) as Hdone.
  { intros rs' t' (Ha & Hn' & Hc'). apply tally_served; [done|].
    split; [by rewrite (nof_advance _ _ _ Ha), Hn'|lia]. }
  destruct (sp_is_smtp params); (eapply steady_bind; [apply timeout_answered|]);
    intros [[err|reply]|] Hans; apply steady_ret.
  - apply failed_served; [done|]. auto with failure.
  - case_match eqn:Hcode; [|apply failed_served; auto with failure]. destruct (Hans _ eq_refl) as [n Hn'].
    destruct (complete_all t out) as [rs' t'] eqn:Hca. eapply Hdone, complete_all_spec; [done| |done..].
    by apply Z.eqb_eq.
  - by apply failed_served.
  - apply failed_served; auto with failure.
  - destruct (Hans _ eq_refl) as [n Hn'].
    destruct (complete_each _ _ _ _ _) as [rs' t'] eqn:Hca. by eapply Hdone, complete_each_spec.
  - by apply failed_served.
Qed.

(** [deliver] *)
Lemma deliver_steady m idx params rs : steady (deliver m idx params rs) (served idx rs).
Proof.
  pose proof (Forall2_advances_refl rs) as Hrefl. unfold deliver.
  eapply steady_bind; [apply say_helo_steady|]. intros [status|caps] Hs.
  { apply steady_ret. by apply failed_served. }
  eapply (steady_bind _ _ (λ _, True)).
  { case_match; [by apply steady_question|by apply steady_ret]. }
  intros [err|[]] _; [apply steady_ret, failed_served; auto with failure|].
  eapply steady_bind; [by apply (steady_question _ (λ _, True))|]. intros reply _.
  destruct (match reply with inl err => inl err | inr r => assert_positive_completion r end) as [err|[]];
    [apply steady_ret, failed_served; auto with failure|].
  eapply steady_bind; [apply rcpt_loop_steady|]. intros [[failed out] t] [Hout Ht].
  destruct failed as [status|].
  { apply steady_ret. apply failed_served; [|done]. by apply accepted_advances in Hout. }
  cbn in Ht. destruct Ht as [Hn Hc]. case_decide; [|by apply data_phase_steady].
  apply steady_ret. pose proof (accepted_advances _ _ _ Hout) as Ha. apply tally_served; [done|].
  split; [by rewrite (nof_advance _ _ _ Ha)|done].
Qed.

(** [deliver_local] *)
Lemma local_result_spec r res :
  is_final (rc_status r) = false → (∀ c, res = DeliverySuccess → taken r c) →
  advances r (local_result r res) ∧
  is_final (rc_status (local_result r res)) = if res is DeliveryTemporary _ then false else true.
Proof.
  intros Hf Ht. destruct res; cbn; (split; [|done]); [|by apply advances_failed..].
  split; [done|by rewrite Hf|]. right. by apply Ht.
Qed.
Lemma local_results_spec n sender rcpts hash size all idx t rs results rs' t' :
  answer n _ (AskIngest sender rcpts hash size) = Some all → (∀ x, x ∈ results → x ∈ all) →
  (∀ r, r ∈ rs → is_pending idx r = true → rc_address_lcase r ∈ rcpts) →
  local_results idx t rs results = (rs', t') →
  Forall2 advances rs rs' ∧ total_rcpt t' = total_rcpt t ∧
  (total_completed t' + nfinal idx rs = total_completed t + nfinal idx rs')%nat.
Proof.
  intros Hans. revert t results rs' t'.
  induction rs as [|r rs IH]; intros t results rs' t' Hall Hin; cbn [local_results].
  { intros [= <- <-]. split_and!; [constructor|done|cbn; lia]. }
  assert (∀ r0, r0 ∈ rs → is_pending idx r0 = true → rc_address_lcase r0 ∈ rcpts) as Hin'.
  { intros r0 Hr0. apply Hin. by right. }
  assert (∀ t0, (let '(rs0, t0) := local_results idx t0 rs results in (r :: rs0, t0)) = (rs', t') →
    Forall2 advances (r :: rs) rs' ∧ total_rcpt t' = total_rcpt t0 ∧
    (total_completed t' + nfinal idx (r :: rs) = total_completed t0 + nfinal idx rs')%nat) as Hskip.
  { intros t0. destruct (local_results idx t0 rs results) as [rs2 t2] eqn:Hc. intros [= <- <-].
    apply IH in Hc as (Hadv & Hn & Hcc); [|done..]. cbn [nfinal].
    split_and!; [constructor; [apply rcpt_advances_refl|done]|done|lia]. }
  destruct (is_pending idx r) eqn:Hp; [|apply Hskip].
  destruct results as [|res results]; [apply Hskip|]. clear Hskip.
  specialize (Hin r ltac:(by left) Hp). apply andb_true_iff in Hp as [Hidx%bool_decide_eq_true Hf%negb_true_iff].
  destruct (local_result_spec r res Hf) as [Ha Hfin].
  { intros c ->. right. right. exists n, sender, rcpts, hash, size, all. split_and!; [done..|].
    apply Hall. by left. }
  destruct (local_results idx _ rs results) as [rs2 t2] eqn:Hc. intros [= <- <-].
  apply IH in Hc as (Hadv & Hn & Hcc); [|intros x Hx; apply Hall; by right|done]. cbn [nfinal].
  rewrite (advances_idx _ _ Ha), !decide_True, Hf, Hfin by done.
  split_and!; [by constructor|by destruct res|destruct res; cbn in *; lia].
Qed.
Lemma local_tally_ok idx rs : tally_ok idx (local_tally idx rs) rs.
Proof.
  unfold tally_ok, local_tally. cbn. induction rs as [|r rs [IH1 IH2]]; [done|]. cbn [nof nfinal].
  rewrite !filter_cons. case_decide; [|split; lia]. cbn [length]. split; [lia|].
  rewrite filter_cons. destruct (is_final (rc_status r)); [rewrite decide_True by done|rewrite decide_False by done];
    cbn [length]; lia.
Qed.
Lemma deliver_local_steady m idx rs : steady (deliver_local m idx rs) (served idx rs).
Proof.
  unfold deliver_local. eapply steady_bind; [apply answered|].
  intros [results|] [n Hans]; [|by apply steady_ret, failed_served; [apply Forall2_advances_refl|]].
  destruct (local_results _ _ _ _) as [rs' t'] eqn:Hl. apply steady_ret.
  eapply local_results_spec in Hl as (Ha & Hn & Hc); [|done..|].
  2: { intros r Hr Hp. apply list_elem_of_fmap. exists r. split; [done|]. by apply list_elem_of_filter. }
  destruct (local_tally_ok idx rs) as [Hn0 Hc0].
  apply tally_served; [done|]. split; [by rewrite (nof_advance _ _ _ Ha), Hn|lia].
Qed.
End session.
