(* ===== verification/SmtpTranscript.v ===== *)
(** * The dialogue of a session

    What became of a recipient in a session with another server, told by the
    dialogue of that session: the questions it asked and their answers, in
    order.  [scribed p P]: [p] adds a dialogue [l] to the transcript, and its
    result [a] satisfies [P l a]. *)

From stdpp Require Import base gmap sorting strings numbers list.
From S2P Require Import Prelude Codec Keys Roaring Kv Batch Commit Read Store JsonPrint Query Blob Smtp SmtpSpool SmtpDsn SmtpSession SmtpLogic SmtpStoreTheory SmtpPartyTheory SmtpSessionTheory.
Import Smtp Spool Dsn Session.
Open Scope Z_scope.
Open Scope bytes_scope.
Open Scope queue_scope.

(** ** Dialogues *)

Section scribed.
Context {DB BS : Type} (bs : BS).

Definition scribed {A} (p : Q DB BS A) (P : list Sent → A → Prop) : Prop :=
  ∀ w a w', w_blobs w = bs → p w = (Some a, w') →
    w_blobs w' = bs ∧ ∃ l, w_sent w' = w_sent w ++ l ∧ P l a.

Lemma scribed_mono {A} (p : Q DB BS A) (P R : list Sent → A → Prop) :
  scribed p P → (∀ l a, P l a → R l a) → scribed p R.
Proof. intros Hp HPR w a w' Hb Hr. destruct (Hp w a w' Hb Hr) as (? & l & ? & ?). eauto. Qed.
Lemma scribed_ret {A} (a : A) (P : list Sent → A → Prop) : P [] a → scribed (ret a) P.
Proof. intros Hp w ? ? Hb [= <- <-]. split; [done|]. exists []. by rewrite app_nil_r. Qed.
Lemma scribed_bind {A B} (p : Q DB BS A) (f : A → Q DB BS B) P R :
  scribed p P → (∀ l a, P l a → scribed (f a) (λ l' b, R (l ++ l') b)) → scribed (bind p f) R.
Proof.
  intros Hp Hf w b w' Hb. unfold bind. destruct (p w) as [[a|] w1] eqn:Hr; [|done]. intros Hr'.
  destruct (Hp w a w1 Hb Hr) as (Hb1 & l & Hl & HP).
  destruct (Hf l a HP w1 b w' Hb1 Hr') as (Hb2 & l' & Hl' & HR). split; [done|].
  exists (l ++ l'). by rewrite Hl', Hl, app_assoc.
Qed.
Lemma scribed_question `{Env} {X} (q : ask X) : scribed (question q) (λ l x, l = [Asked X q x]).
Proof. intros w a w' Hb [= <- <-]. split; [done|]. eexists. by split. Qed.
Lemma scribed_get_blobs : scribed get_blobs (λ l x, l = [] ∧ x = bs).
Proof. intros w a w' Hb [= <- <-]. split; [done|]. exists []. by rewrite app_nil_r. Qed.
Lemma scribed_timeout `{Env} {A} (p : Q DB BS A) P :
  scribed p P → scribed (timeout p) (λ l o, match o with
    | None => l = [Asked _ AskTimeout true]
    | Some a => ∃ l1, l = Asked _ AskTimeout false :: l1 ∧ P l1 a
    end).
Proof.
  intros Hp. unfold timeout. eapply scribed_bind; [apply scribed_question|]. intros l0 [] ->.
  { by apply scribed_ret. }
  eapply scribed_bind; [exact Hp|]. intros l1 a Ha. apply scribed_ret.
  exists l1. by rewrite app_nil_r.
Qed.
End scribed.

(** ** What is said in a dialogue *)

(** The answer to a command; a reply to no command; the replies to a message
    for each recipient; the message, when it was written: in a chunk after its
    command, or after [DATA]. *)
Definition cmd_reply (cmd : list Z) (s : Sent) : option (MailError + Response) :=
  match s with
  | Asked _ q x =>
      match q in ask X return X → option (MailError + Response) with
      | AskCmd c => λ x, if decide (c = cmd) then Some x else None
      | _ => λ _, None
      end x
  | _ => None
  end.
Definition read_reply (s : Sent) : option Response :=
  match s with
  | Asked _ q x =>
      match q in ask X return X → option Response with
      | AskRead => λ x, match x with inr reply => Some reply | inl _ => None end
      | _ => λ _, None
      end x
  | _ => None
  end.
Definition read_replies (s : Sent) : option (list Response) :=
  match s with
  | Asked _ q x =>
      match q in ask X return X → option (list Response) with
      | AskReadMany _ => λ x, match x with inr replies => Some replies | inl _ => None end
      | _ => λ _, None
      end x
  | _ => None
  end.
Definition written (s : Sent) : option (list Z) :=
  match s with
  | Asked _ q x =>
      match q in ask X return X → option (list Z) with
      | AskWriteMessage raw | AskWrite [_; raw] => λ x, match x with inr _ => Some raw | inl _ => None end
      | _ => λ _, None
      end x
  | _ => None
  end.

Definition says {A} (f : Sent → option A) (l : list Sent) (a : A) : Prop := ∃ s, s ∈ l ∧ f s = Some a.
Lemma says_nil {A} (f : Sent → option A) a : ¬ says f [] a.
Proof. intros (s & Hs & _). by apply elem_of_nil in Hs. Qed.
Lemma says_cons {A} (f : Sent → option A) s l a : says f (s :: l) a ↔ f s = Some a ∨ says f l a.
Proof. unfold says. setoid_rewrite elem_of_cons. naive_solver. Qed.
Lemma says_app {A} (f : Sent → option A) l l' a : says f (l ++ l') a ↔ says f l a ∨ says f l' a.
Proof. unfold says. setoid_rewrite elem_of_app. naive_solver. Qed.

(** Neither the message nor an answer to it is in the dialogue; no command is
    either. *)
Definition bare (l : list Sent) : Prop :=
  (∀ x, ¬ says written l x) ∧ (∀ x, ¬ says read_reply l x) ∧ ∀ x, ¬ says read_replies l x.
Definition no_cmd (l : list Sent) : Prop := ∀ cmd x, ¬ says (cmd_reply cmd) l x.

Lemma bare_app l l' : bare l → bare l' → bare (l ++ l').
Proof. intros (? & ? & ?) (? & ? & ?). split_and!; intros x [?|?]%says_app; naive_solver. Qed.
Lemma no_cmd_app l l' : no_cmd l → no_cmd l' → no_cmd (l ++ l').
Proof. intros H1 H2 cmd x [Hx|Hx]%says_app; [by apply (H1 cmd x)|by apply (H2 cmd x)]. Qed.
(** A dialogue of one question. *)
Ltac one_question :=
  repeat split; repeat intro;
  repeat match goal with
  | H : says _ [] _ |- _ => by apply says_nil in H
  | H : says _ (_ ++ _) _ |- _ => apply says_app in H as [H|H]
  | H : says _ (_ :: _) _ |- _ => apply says_cons in H as [H|H]; [cbn in H; repeat case_decide; by simplify_eq|]
  end.

(** ** What a session did *)

Section session.
Context {DB Txn BS : Type} `{RocksDB DB Txn} `{StoreWrite DB} `{BlobStore BS} `{EnvOk} `{SmtpProto}.
Context (bs : BS) (m : Message) (idx : nat) (params : SessionParams).
Local Abbreviation scribed := (scribed (DB:=DB) bs).
Local Abbreviation host := (sp_hostname params).

(** The message was written. *)
Definition message_sent (l : list Sent) : Prop :=
  ∃ raw, get_blob bs (m_blob_hash m) 0 None = Ok (Some raw) ∧ says written l raw.
(** The server took the message: it was written, and then the server replied,
    250 to all, or over LMTP to each. *)
Definition answered (l : list Sent) : Prop :=
  if sp_is_smtp params then ∃ reply, says read_reply l reply ∧ code reply = 250
  else ∃ replies, says read_replies l replies.
Definition took (l : list Sent) : Prop := ∃ l1 l2, l = l1 ++ l2 ∧ message_sent l1 ∧ answered l2.

(** The command a reply after the message is about. *)
Definition data_command (caps : Z) : list Z :=
  if has_capability caps EXT_CHUNKING
  then lit "BDAT " ++ decimal (m_size m) ++ lit " LAST" ++ CRLF else lit "DATA".
(** A recipient with a reply that took or refused it. *)
Definition refused (command : list Z) (reply : Response) (r : Recipient) : Recipient :=
  (refuse host command reply {| total_rcpt := 0; total_completed := 0 |} r).1.
Definition delivered (reply : Response) (r : Recipient) : Recipient :=
  add_flags RCPT_STATUS_CHANGED
    (set_rc_status (Completed {| Smtp.hostname := host; response := reply |}) r).

(** A recipient the session does not ask for; one it asked for and that was
    refused, or accepted, with what becomes of it at that. *)
Definition not_asked (r r' : Recipient) : Prop :=
  r' = r ∧ (rc_domain_idx r ≠ idx ∨ is_final (rc_status r) = true).
Definition asked (r : Recipient) : Prop := rc_domain_idx r = idx ∧ is_final (rc_status r) = false.
Definition refused_rcpt (caps : Z) (l : list Sent) (r r' : Recipient) : Prop :=
  asked r ∧ ∃ reply, says (cmd_reply (build_rcpt_to r caps)) l (inr reply) ∧
    severity reply ≠ PositiveCompletion ∧ r' = refused (str_trim (build_rcpt_to r caps)) reply r.
Definition accepted_rcpt (caps : Z) (l : list Sent) (r : Recipient) (reply : Response) : Prop :=
  asked r ∧ says (cmd_reply (build_rcpt_to r caps)) l (inr reply) ∧ severity reply = PositiveCompletion.
(** The dialogue ended before the last recipient was asked for: no recipient
    was, or one got no reply. *)
Definition cut_short (caps : Z) (l : list Sent) (rs : list Recipient) : Prop :=
  (∀ r x, ¬ says (cmd_reply (build_rcpt_to r caps)) l x) ∨
  ∃ r err, r ∈ rs ∧ says (cmd_reply (build_rcpt_to r caps)) l (inl err).

(** The replies of an LMTP server after the message, one for each recipient
    that was accepted, in their order. *)
Inductive each_reply (caps : Z) (l : list Sent) : list Response → list Recipient → list Recipient → Prop :=
  | each_nil replies : each_reply caps l replies [] []
  | each_passed replies r r' rs rs' :
      not_asked r r' ∨ refused_rcpt caps l r r' → each_reply caps l replies rs rs' →
      each_reply caps l replies (r :: rs) (r' :: rs')
  | each_taken accepted reply replies r rs rs' :
      accepted_rcpt caps l r accepted → each_reply caps l replies rs rs' →
      each_reply caps l (reply :: replies) (r :: rs)
        ((if decide (severity reply = PositiveCompletion) then delivered reply r
          else refused (data_command caps) reply r) :: rs')
  | each_missing accepted r rs rs' :
      accepted_rcpt caps l r accepted → each_reply caps l [] rs rs' →
      each_reply caps l [] (r :: rs) (r :: rs').

(** What the dialogue [l] of a session makes of the recipients: the server did
    not take the message, and who was refused is; or it took it, after those
    accepted were accepted and then the message was written, over SMTP for all
    of these, or over LMTP with a reply for each. *)
Inductive handled (caps : Z) (l : list Sent) (rs rs' : list Recipient) : Prop :=
  | handled_ended :
      ¬ took l →
      Forall2 (λ r r', not_asked r r' ∨ refused_rcpt caps l r r' ∨
        r' = r ∧ ((∃ reply, accepted_rcpt caps l r reply) ∨ asked r ∧ cut_short caps l rs)) rs rs' →
      handled caps l rs rs'
  | handled_smtp l1 l2 l3 reply :
      l = l1 ++ l2 ++ l3 → message_sent l2 →
      sp_is_smtp params = true → says read_reply l3 reply → code reply = 250 →
      Forall2 (λ r r', not_asked r r' ∨ refused_rcpt caps l1 r r' ∨
        ∃ reply, accepted_rcpt caps l1 r reply ∧ r' = delivered reply r) rs rs' →
      handled caps l rs rs'
  | handled_lmtp l1 l2 l3 replies :
      l = l1 ++ l2 ++ l3 → message_sent l2 →
      sp_is_smtp params = false → says read_replies l3 replies →
      each_reply caps l1 replies rs rs' → handled caps l rs rs'.

(** Who is not of the domain, or has a final status, stays as it is. *)
Lemma refused_rcpt_other caps l r r' :
  refused_rcpt caps l r r' → rc_domain_idx r ≠ idx ∨ is_final (rc_status r) = true → r' = r.
Proof. intros [[Hi Hf] _] [?|?]; congruence. Qed.
Lemma each_reply_other caps l replies rs rs' :
  each_reply caps l replies rs rs' →
  Forall2 (λ r r', rc_domain_idx r ≠ idx ∨ is_final (rc_status r) = true → r' = r) rs rs'.
Proof.
  induction 1 as [|replies r r' rs rs' Hr _ IH|accepted reply replies r rs rs' [[Hi Hf] _] _ IH
    |accepted r rs rs' _ _ IH]; constructor; try done.
  - destruct Hr as [[-> _]|Hr]; [done|]. by eapply refused_rcpt_other.
  - intros [?|?]; congruence.
Qed.
Lemma handled_other caps l rs rs' :
  handled caps l rs rs' →
  Forall2 (λ r r', rc_domain_idx r ≠ idx ∨ is_final (rc_status r) = true → r' = r) rs rs'.
Proof.
  intros [_ Hf|l1 l2 l3 reply _ _ _ _ _ Hf|l1 l2 l3 replies _ _ _ _ He]; [..|by eapply each_reply_other];
    (eapply Forall2_impl; [exact Hf|]); cbn.
  - intros r r' [[-> _]|[Hr|[-> _]]]; [done| |done]. by eapply refused_rcpt_other.
  - intros r r' [[-> _]|[Hr|(reply' & [[Hi Hd] _] & _)]]; [done|by eapply refused_rcpt_other|].
    intros [?|?]; congruence.
Qed.

(** ** Dialogues in which the server does not take the message *)

Lemma not_took_unsent l : (∀ x, ¬ says written l x) → ¬ took l.
Proof. intros Hw (l1 & l2 & -> & (raw & _ & Hs) & _). apply (Hw raw), says_app. by left. Qed.
Lemma not_took_unanswered l : ¬ answered l → ¬ took l.
Proof.
  intros Ha (l1 & l2 & -> & _ & Hs). apply Ha. unfold answered in *. destruct (sp_is_smtp params).
  - destruct Hs as (reply & Hs & Hc). exists reply. rewrite says_app. auto.
  - destruct Hs as (replies & Hs). exists replies. rewrite says_app. auto.
Qed.
Lemma answered_app l l' : answered (l ++ l') → answered l ∨ answered l'.
Proof. unfold answered. destruct (sp_is_smtp params); setoid_rewrite says_app; naive_solver. Qed.
Lemma bare_unanswered l : bare l → ¬ answered l.
Proof. intros (_ & ? & ?). unfold answered. destruct (sp_is_smtp params); naive_solver. Qed.

(** ** Recipients *)

(** What [RCPT TO] made of a recipient, and the status it is to have;
    [failed] when the loop ended early. *)
Definition asked_rcpt (failed : bool) (caps : Z) (l : list Sent) (r : Recipient)
    (ro : Recipient * option RcptStatus) : Prop :=
  match ro.2 with
  | None => not_asked r ro.1 ∨ refused_rcpt caps l r ro.1 ∨ ro.1 = r ∧ asked r ∧ failed = true
  | Some status => ro.1 = r ∧ ∃ reply, accepted_rcpt caps l r reply ∧
      status = Completed {| Smtp.hostname := host; response := reply |}
  end.
Lemma asked_rcpt_sub failed caps l0 l l1 r ro :
  asked_rcpt failed caps l r ro → asked_rcpt failed caps (l0 ++ l ++ l1) r ro.
Proof.
  unfold asked_rcpt. destruct (ro.2).
  - intros (? & reply & (Ha & Hs & ?) & ?). split; [done|]. exists reply. split; [|done]. split; [done|].
    split; [rewrite !says_app; auto|done].
  - intros [?|[(Ha & reply & Hs & ?)|?]]; [by left| |by right; right]. right; left. split; [done|]. exists reply.
    split; [rewrite !says_app; auto|done].
Qed.
Lemma refuse_refused command reply t r : (refuse host command reply t r).1 = refused command reply r.
Proof. unfold refused, refuse. by case_decide. Qed.

(** The loop over the recipients: it is about them only; everyone was asked
    for, or one got no reply. *)
Definition loop_done (caps : Z) (l : list Sent) (rs : list Recipient)
    (res : option DomainStatus * list (Recipient * option RcptStatus) * Tally) : Prop :=
  bare l ∧ Forall2 (asked_rcpt (bool_decide (res.1.1 ≠ None)) caps l) rs res.1.2 ∧
  (res.1.1 ≠ None → ∃ r err, r ∈ rs ∧ says (cmd_reply (build_rcpt_to r caps)) l (inl err)).

Lemma loop_done_cons caps l0 l r ro rs failed out t t' :
  bare l0 → asked_rcpt false caps l0 r ro → loop_done caps l rs (failed, out, t) →
  loop_done caps (l0 ++ l) (r :: rs) (failed, ro :: out, t').
Proof.
  unfold loop_done. cbn [fst snd]. intros Hb0 Hro (Hb & Hf & He). split; [by apply bare_app|]. split.
  - constructor.
    + apply (asked_rcpt_sub false caps [] l0 l) in Hro. cbn [app] in Hro. unfold asked_rcpt in *.
      destruct (ro.2); [done|]. naive_solver.
    + eapply Forall2_impl; [exact Hf|]. intros r1 r2 Hr.
      apply (asked_rcpt_sub _ caps l0 l []) in Hr. by rewrite app_nil_r in Hr.
  - intros Hne. destruct (He Hne) as (r0 & err & Hin & Hs). exists r0, err.
    split; [by right|]. apply says_app. by right.
Qed.

Lemma rcpt_loop_scribed caps t rs :
  scribed (rcpt_loop idx params caps t rs) (λ l res, loop_done caps l rs res).
Proof.
  revert t. induction rs as [|r rs IH]; intros t; cbn [rcpt_loop].
  { apply scribed_ret. split; [one_question|]. by split; [constructor|]. }
  assert (∀ t (ro : Recipient * option RcptStatus) l0, bare l0 → asked_rcpt false caps l0 r ro →
    scribed (rest <- rcpt_loop idx params caps t rs;;
             let '(failed, out, t) := rest in ret (failed, ro :: out, t))
      (λ l res, loop_done caps (l0 ++ l) (r :: rs) res)) as Hgo.
  { intros t0 ro l0 Hb Hro. eapply scribed_bind; [apply IH|]. intros l [[failed out] t1] Hout.
    apply scribed_ret. rewrite app_nil_r. by eapply loop_done_cons. }
  assert (bare []) as Hnil by one_question.
  case_decide as Hidx; [apply (Hgo _ _ [] Hnil); left; split; [done|by left]|].
  destruct (is_final (rc_status r)) eqn:Hf; [apply (Hgo _ _ [] Hnil); left; split; [done|by right]|].
  eapply scribed_bind; [apply scribed_question|]. intros l0 x ->.
  assert (bare [Asked _ (AskCmd (build_rcpt_to r caps)) x]) as Hb by one_question.
  assert (says (cmd_reply (build_rcpt_to r caps)) [Asked _ (AskCmd (build_rcpt_to r caps)) x] x) as Hx.
  { apply says_cons. left. cbn. by rewrite decide_True. }
  destruct x as [err|reply].
  { apply scribed_ret. split; [done|]. cbn [fst snd app]. rewrite bool_decide_true by done.
    split; [|intros _; exists r, err; by split; [left|] ].
    constructor; [right; right; done|]. apply Forall2_fmap_r, Forall_Forall2_diag, Forall_true.
    intros r1. unfold asked_rcpt, not_asked, asked. cbn [fst snd].
    destruct (decide (rc_domain_idx r1 = idx)); [|by left; auto].
    destruct (is_final (rc_status r1)); [by left; auto|by right; right]. }
  case_decide as Hsev; [apply (Hgo _ _ _ Hb); split; [done|]; by exists reply|].
  destruct (refuse _ _ _ _ _) as [r' t1] eqn:Hr.
  apply (Hgo _ _ _ Hb). apply (f_equal fst) in Hr. cbn [fst] in Hr. right; left. split; [done|].
  exists reply. split_and!; [done..|]. cbn [fst]. by rewrite <-Hr, refuse_refused.
Qed.

(** When the server does not take the message. *)
Lemma asked_ended failed caps l rs out :
  ¬ took l → Forall2 (asked_rcpt failed caps l) rs out → (failed = true → cut_short caps l rs) →
  handled caps l rs out.*1.
Proof.
  intros Ht Hf Hc. apply handled_ended; [done|]. apply Forall2_fmap_r. eapply Forall2_impl; [exact Hf|].
  intros r ro Hr. unfold asked_rcpt in Hr. destruct (ro.2); [naive_solver|]. naive_solver.
Qed.

(** ** The message *)

(** Sending a text: it is not written, or the last question writes it. *)
Definition text_sent (raw : list Z) (l : list Sent) : Prop :=
  ∃ lp s, l = lp ++ [s] ∧ (∀ x, ¬ says written lp x) ∧ written s = Some raw.
Definition send_done {E} (raw : list Z) (l : list Sent) (r : E + unit) : Prop :=
  match r with inl _ => ∀ x, ¬ says written l x | inr _ => text_sent raw l end.

Lemma send_data_scribed raw : scribed (send_data raw) (send_done raw).
Proof.
  unfold send_data. eapply scribed_bind; [apply scribed_question|]. intros l1 x ->.
  destruct x as [e|[] ]; [apply scribed_ret; one_question|].
  eapply scribed_bind; [apply scribed_question|]. intros l2 x ->.
  destruct x as [e|reply]; [apply scribed_ret; one_question|].
  destruct (assert_code reply 354); [apply scribed_ret; one_question|].
  eapply scribed_mono; [apply scribed_question|]. cbn. intros l o ->. destruct o as [e|[] ]; [one_question|].
  eexists [_; _], _. split_and!; [done|one_question|done].
Qed.
Lemma send_chunk_scribed cmd raw : scribed (question (AskWrite [cmd; raw])) (send_done raw).
Proof.
  eapply scribed_mono; [apply scribed_question|]. cbn. intros l o ->. destruct o as [e|[] ]; [one_question|].
  eexists [], _. split_and!; [done|one_question|done].
Qed.
Lemma send_message_scribed cmd :
  scribed (send_message m cmd params) (λ l r, match r with
    | inl _ => ∀ x, ¬ says written l x
    | inr _ => ∃ raw, get_blob bs (m_blob_hash m) 0 None = Ok (Some raw) ∧ text_sent raw l
    end).
Proof.
  unfold send_message. eapply scribed_bind; [apply scribed_get_blobs|]. intros l0 ? [-> ->].
  destruct (get_blob _ _ _ _) as [[raw|]|] eqn:Hraw; [|apply scribed_ret; one_question..].
  eapply scribed_bind.
  { apply (scribed_timeout bs _ (send_done raw)).
    destruct cmd as [cmd|]; [apply send_chunk_scribed|apply send_data_scribed]. }
  cbn. intros l1 [[e|[] ]|] Ho; apply scribed_ret; rewrite app_nil_r.
  - destruct Ho as (l & -> & Hl). intros x [Hx|Hx]%says_cons; [done|by apply (Hl x)].
  - destruct Ho as (l & -> & lp & s & -> & Hl & Hs). exists raw. split; [done|].
    exists (Asked _ AskTimeout false :: lp), s. split_and!; [done| |done].
    intros x [Hx|Hx]%says_cons; [done|by apply (Hl x)].
  - subst. one_question.
Qed.

Lemma text_sent_says raw l : text_sent raw l → says written l raw.
Proof. intros (lp & s & -> & _ & Hs). apply says_app. right. apply says_cons. by left. Qed.
(** The message was written, but there is no answer after it. *)
Lemma not_took_after raw l0 l l' :
  (∀ x, ¬ says written l0 x) → text_sent raw l → ¬ answered l' → ¬ took (l0 ++ l ++ l').
Proof.
  intros Hl0 (lp & s & -> & Hl & _) Ha (l1 & l2 & Heq & (raw' & _ & Hw) & Hans).
  assert (∀ x, ¬ says written (l0 ++ lp) x) as Hno by (intros x [Hx|Hx]%says_app; [by apply (Hl0 x)|by apply (Hl x)]).
  rewrite <-app_assoc, app_assoc in Heq. cbn [app] in Heq.
  apply app_eq_inv in Heq as [(k & Hk & _)|([|s' k] & -> & Hk)].
  - apply (Hno raw'). rewrite Hk. apply says_app. by left.
  - apply (Hno raw'). by rewrite app_nil_r in Hw.
  - injection Hk as _ ->. apply Ha. unfold answered in *. destruct (sp_is_smtp params).
    + destruct Hans as (reply & Hs & Hc). exists reply. rewrite says_app. auto.
    + destruct Hans as (replies & Hs). exists replies. rewrite says_app. auto.
Qed.

(** ** The [DATA] phase *)

Lemma complete_all_delivers caps l t rs out :
  Forall2 (asked_rcpt false caps l) rs out →
  Forall2 (λ r r', not_asked r r' ∨ refused_rcpt caps l r r' ∨
    ∃ reply, accepted_rcpt caps l r reply ∧ r' = delivered reply r) rs (complete_all t out).1.
Proof.
  intros Hf. revert t. induction Hf as [|r [r1 [status|] ] rs out Hr Hf IH]; intros t; cbn [complete_all]; [constructor|..].
  - destruct Hr as [Hr1 (reply & Hacc & ->)]. cbn [fst] in Hr1. subst r1.
    specialize (IH (count_completed t)). destruct (complete_all (count_completed t) out).
    constructor; [|done]. right; right. by exists reply.
  - specialize (IH t). destruct (complete_all t out). constructor; [|done]. cbn in Hr. naive_solver.
Qed.
Lemma complete_each_replies caps l t rs out replies :
  Forall2 (asked_rcpt false caps l) rs out →
  each_reply caps l replies rs (complete_each params (data_command caps) t out replies).1.
Proof.
  intros Hf. revert t replies.
  induction Hf as [|r [r1 [status|] ] rs out Hr Hf IH]; intros t replies; cbn [complete_each]; [constructor|..].
  - destruct Hr as [Hr1 (accepted & Hacc & _)]. cbn [fst] in Hr1. subst r1.
    destruct replies as [|reply replies].
    { specialize (IH t []). destruct (complete_each _ _ _ _ _). by eapply each_missing. }
    pose proof (λ rs', each_taken caps l accepted reply replies r rs rs' Hacc) as Ht. case_decide.
    + specialize (IH (count_completed t) replies). destruct (complete_each _ _ _ _ _). by apply Ht.
    + pose proof (refuse_refused (data_command caps) reply t r) as Hrf.
      destruct (refuse _ _ _ _ _) as [r' t']. cbn [fst] in Hrf. subst r'.
      specialize (IH t' replies). destruct (complete_each _ _ _ _ _). by apply Ht.
  - specialize (IH t replies). destruct (complete_each _ _ _ _ _). apply each_passed; [|done].
    cbn in Hr. naive_solver.
Qed.

Lemma data_phase_scribed caps t rs out l0 :
  bare l0 → Forall2 (asked_rcpt false caps l0) rs out →
  scribed (data_phase m params caps t out) (λ l res, handled caps (l0 ++ l) rs res.2).
Proof.
  intros Hb Hout. unfold data_phase.
  assert (∀ l, ¬ took (l0 ++ l) → handled caps (l0 ++ l) rs out.*1) as Hkeep.
  { intros l Ht. apply (asked_ended false); [done| |done]. eapply Forall2_impl; [exact Hout|].
    intros r ro. apply (asked_rcpt_sub false caps []). }
  eapply scribed_bind; [apply send_message_scribed|]. intros l1 [status|[] ] Hsent.
  { apply scribed_ret, Hkeep. rewrite app_nil_r. apply not_took_unsent.
    intros x [Hx|Hx]%says_app; [by apply (proj1 Hb x)|by apply (Hsent x)]. }
  destruct Hsent as (raw & Hraw & Htext).
  assert (message_sent l1) as Hsent by (exists raw; split; [done|by apply text_sent_says]).
  assert (∀ l, ¬ answered l → handled caps (l0 ++ l1 ++ l) rs out.*1) as Hkeep'.
  { intros l Ha. apply Hkeep. eapply not_took_after; [apply Hb|exact Htext|done]. }
  destruct (sp_is_smtp params) eqn:Hsmtp;
    (eapply scribed_bind; [apply scribed_timeout, scribed_question|]); cbn;
    (intros l2 [x|] Hans; apply scribed_ret; rewrite app_nil_r;
      [destruct Hans as (lx & -> & ->)|subst l2; apply Hkeep', bare_unanswered; one_question]).
  - destruct x as [err|reply]; [apply Hkeep', bare_unanswered; one_question|].
    destruct (code reply =? 250) eqn:Hcode.
    + apply Z.eqb_eq in Hcode. pose proof (complete_all_delivers caps l0 t rs out Hout) as Hd.
      destruct (complete_all t out). eapply handled_smtp; [done|done|done| |exact Hcode|exact Hd].
      apply says_cons. right. apply says_cons. by left.
    + apply Hkeep'. unfold answered. rewrite Hsmtp. intros (reply' & Hs & Hc).
      apply says_cons in Hs as [?|Hs]; [done|]. apply says_cons in Hs as [[= ->]|Hs]; [lia|by apply says_nil in Hs].
  - destruct x as [err|replies]; [apply Hkeep', bare_unanswered; one_question|].
    pose proof (complete_each_replies caps l0 t rs out replies Hout) as Hd. unfold data_command in Hd.
    assert (∀ rs', each_reply caps l0 replies rs rs' →
      handled caps (l0 ++ l1 ++ [Asked _ AskTimeout false; Asked _ (AskReadMany (length (omap snd out))) (inr replies)])
        rs rs') as Hh.
    { intros rs' He. eapply handled_lmtp; [done|done|done| |exact He]. apply says_cons. right. apply says_cons. by left. }
    destruct (has_capability caps EXT_CHUNKING); cbn [default] in *;
      destruct (complete_each _ _ _ _ _); by apply Hh.
Qed.

(** ** The session *)

Lemma say_helo_scribed : scribed (say_helo params) (λ l _, bare l ∧ no_cmd l).
Proof.
  unfold say_helo. eapply scribed_bind; [apply scribed_timeout, scribed_question|]. cbn. intros l o Ho.
  apply scribed_ret. rewrite app_nil_r. destruct o; [destruct Ho as (lx & -> & ->)|subst]; one_question.
Qed.
Lemma mail_is_not_rcpt caps r : build_mail_from m caps ≠ build_rcpt_to r caps.
Proof. unfold build_mail_from, build_rcpt_to. cbv zeta. intros Heq. apply (f_equal (λ l, l !! 0%nat)) in Heq. by vm_compute in Heq. Qed.

(** A session that ends before the first recipient. *)
Lemma unopened caps l rs :
  bare l → (∀ r x, ¬ says (cmd_reply (build_rcpt_to r caps)) l x) → handled caps l rs rs.
Proof.
  intros Hb Hc. apply handled_ended; [by apply not_took_unsent, Hb|].
  apply Forall_Forall2_diag, Forall_true. intros r. unfold not_asked, asked, cut_short.
  destruct (decide (rc_domain_idx r = idx)); [|by left; auto]. destruct (is_final (rc_status r)); [by left; auto|].
  right; right. auto 6.
Qed.

(** [deliver]: the recipients are handled as the dialogue says. *)
Lemma deliver_scribed rs :
  scribed (deliver m idx params rs) (λ l res, ∃ caps, handled caps l rs res.2).
Proof.
  unfold deliver. eapply scribed_bind; [apply say_helo_scribed|]. intros l0 x [Hb0 Hc0].
  destruct x as [status|caps].
  { apply scribed_ret. exists 0. rewrite app_nil_r. apply unopened; [done|]. intros r. apply Hc0. }
  eapply (scribed_bind _ _ _ (λ l _, bare l ∧ no_cmd l)).
  { case_match; [|apply scribed_ret; one_question].
    eapply scribed_mono; [apply scribed_question|]. cbn. intros l a ->. one_question. }
  intros l1 x [Hb1 Hc1]. destruct x as [err|[] ].
  { apply scribed_ret. exists caps. rewrite app_nil_r. apply unopened; [by apply bare_app|].
    intros r. by apply no_cmd_app. }
  eapply scribed_bind; [apply scribed_question|]. intros l2 reply ->.
  set (l2 := [Asked _ (AskCmd (build_mail_from m caps)) reply]).
  assert (bare l2) as Hb2 by (unfold l2; one_question).
  destruct (match reply with inl err => inl err | inr r => assert_positive_completion r end) as [err|[] ].
  { apply scribed_ret. exists caps. rewrite app_nil_r. apply unopened; [by repeat apply bare_app|].
    intros r x [Hx|[Hx|Hx]%says_app]%says_app; [by apply Hc0 in Hx|by apply Hc1 in Hx|].
    apply says_cons in Hx as [Hx|Hx]; [|by apply says_nil in Hx]. cbn in Hx.
    rewrite decide_False in Hx; [done|apply mail_is_not_rcpt]. }
  eapply scribed_bind; [apply rcpt_loop_scribed|]. intros l3 [[failed out] t] (Hb3 & Hout & Hcut).
  cbn [fst snd] in *. set (l := l0 ++ l1 ++ l2 ++ l3).
  assert (bare l) as Hb by (by repeat apply bare_app).
  assert (Forall2 (asked_rcpt (bool_decide (failed ≠ None)) caps l) rs out) as Hout'.
  { eapply Forall2_impl; [exact Hout|]. intros r ro Hr. apply (asked_rcpt_sub _ caps (l0 ++ l1 ++ l2) l3 []) in Hr.
    by rewrite app_nil_r, <-!app_assoc in Hr. }
  destruct failed as [status|].
  { apply scribed_ret. exists caps. rewrite app_nil_r. fold l. eapply asked_ended; [by apply not_took_unsent, Hb|exact Hout'|].
    intros _. right. destruct (Hcut ltac:(done)) as (r & err & Hin & Hs). exists r, err. split; [done|].
    unfold l. rewrite !says_app. auto. }
  case_decide.
  { apply scribed_ret. exists caps. rewrite app_nil_r. fold l. by eapply asked_ended; [by apply not_took_unsent, Hb|exact Hout'|]. }
  eapply scribed_mono; [by apply data_phase_scribed|]. cbn. intros l4 res Hres. exists caps.
  unfold l in Hres. by rewrite <-!app_assoc in Hres.
Qed.
End session.
