(* ===== verification/SmtpDeliveryTheory.v ===== *)
(** * What an attempt does to a message

    Every host, address and domain that is tried leaves the store alone,
    protects the message as required, and keeps the message well formed. *)

From stdpp Require Import base gmap sorting strings numbers list.
From S2P Require Import Prelude Codec Keys KeyTheory Roaring Kv Batch Commit CommitTheory Read Store Query Blob Smtp SmtpSpool SmtpDsn SmtpSession SmtpDelivery SmtpLogic SmtpStoreTheory SmtpPartyTheory SmtpSessionTheory.
Import Smtp Spool Dsn Session Delivery.
Open Scope Z_scope.
Open Scope queue_scope.

Section delivery.
Context {DB Txn BS : Type} `{RocksDB DB Txn} `{StoreWrite DB} `{BlobStore BS} `{EnvOk} `{SmtpProto}.
Context `{QueueConfig}.
Local Abbreviation steady := (steady (DB:=DB) (BS:=BS)).

Lemma asked {X} (q : ask X) : steady (question q) (λ _, True).
Proof. by apply steady_question. Qed.

(** ** One host *)

Definition throttle_ok (err : ThrottleError) : Prop :=
  match err with Rate retry_at => uint_ok 64 retry_at | Concurrency _ => True end.
Lemma is_allowed_answer ts m e :
  steady (is_allowed ts m e)
    (λ o, ∀ err, o = Some err → ∃ n t, answer n _ (AskAllowed t m e) = Some err).
Proof.
  induction ts as [|t ts IH]; cbn [is_allowed]; [by apply steady_ret|].
  eapply steady_bind; [apply (steady_question _ (λ o, ∃ n, answer n _ (AskAllowed t m e) = o)); by eexists|].
  intros [err|] [n Hn]; [apply steady_ret; intros ? [= <-]; eauto|apply IH].
Qed.
Lemma answer_throttle_ok n t m e err : answer n _ (AskAllowed t m e) = Some err → throttle_ok err.
Proof. destruct err; [done|]. apply env_rate. Qed.
Lemma is_allowed_steady ts m e : steady (is_allowed ts m e) (λ o, ∀ err, o = Some err → throttle_ok err).
Proof.
  eapply steady_mono; [apply is_allowed_answer|]. intros o Ho err Herr.
  destruct (Ho err Herr) as (n & t & Hn). by eapply answer_throttle_ok.
Qed.

Definition flow_ok (idx : nat) (rs : list Recipient) (f : Flow) : Prop :=
  match f with
  | NextIp status | NextHost status => status ≠ Completed tt
  | Throttled err => throttle_ok err
  | Delivered status rs' => served idx rs (status, rs')
  end.

Lemma is_strict_demands m p : is_strict_tls m p = false → demands_tls m p = false.
Proof.
  unfold is_strict_tls, demands_tls, is_tls_required, has_flag. cbn [existsb id].
  destruct (is_required _), (is_required _), (is_required _), (negb _), (hp_sts p), (hp_dane p); done.
Qed.
Lemma transfer_steady m e p secure params rs :
  secure = true ∨ is_strict_tls m p = false ∨ tls (hp_strategy p) = Disable →
  steady (transfer m e p secure params rs) (flow_ok (e_domain e) rs).
Proof.
  intros Hs. unfold transfer. eapply (steady_bind _ _ (λ _, True)).
  { apply steady_send; [|done]. cbn. pose proof (is_strict_demands m p). tauto. }
  intros _ _. eapply steady_bind; [apply deliver_steady|]. intros [s rs'] Hd. by apply steady_ret.
Qed.

Lemma dane_verify_failure t h certs s : dane_verify t h certs = Some s → s ≠ Completed tt.
Proof. unfold dane_verify. repeat case_match; intros [= <-]; done. Qed.
Lemma is_tried_disable r : is_tried r = false → r = Disable.
Proof. by destruct r. Qed.

Lemma deliver_plain_steady m e p params rs :
  steady (deliver_plain m e p params rs) (flow_ok (e_domain e) rs).
Proof.
  unfold deliver_plain. eapply steady_bind; [apply read_greeting_steady|].
  intros [s|[]] Hs; [by apply steady_ret|].
  eapply steady_bind; [apply say_helo_steady|]. intros [s|caps] Hs'; [by apply steady_ret|].
  destruct (is_tried _) eqn:Ht; [|apply transfer_steady; right; right; by apply is_tried_disable].
  eapply steady_bind; [apply try_start_tls_steady|]. intros [|err|reply] _.
  - eapply (steady_bind _ _ (λ o, ∀ s, o = Some s → s ≠ Completed tt)).
    { case_match; [|by apply steady_ret]. eapply steady_bind; [apply asked|]. intros certs _.
      apply steady_ret. apply dane_verify_failure. }
    intros [s|] Hv; [apply steady_ret; by apply Hv|]. apply transfer_steady. by left.
  - apply steady_ret. cbn. case_match; [apply from_tls_error_failure|].
    apply into_temporary_failure, from_tls_error_failure.
  - destruct (is_strict_tls m p) eqn:Hst; [|apply transfer_steady; by auto].
    apply steady_ret. apply from_starttls_error_failure.
Qed.
Lemma deliver_implicit_steady m e p params rs :
  steady (deliver_implicit m e p params rs) (flow_ok (e_domain e) rs).
Proof.
  unfold deliver_implicit. eapply steady_bind; [apply asked|].
  intros [err|[]] _; [apply steady_ret, from_tls_error_failure|].
  eapply steady_bind; [apply read_greeting_steady|]. intros [s|[]] Hs; [by apply steady_ret|].
  apply transfer_steady. by left.
Qed.

Lemma try_ip_steady m e p resolved rs ip : steady (try_ip m e p resolved rs ip) (flow_ok (e_domain e) rs).
Proof.
  unfold try_ip. eapply steady_bind; [apply is_allowed_steady|].
  intros [err|] Ht; [apply steady_ret; by apply Ht|].
  eapply steady_bind; [apply asked|]. intros [err|[]] _; [apply steady_ret, from_smtp_error_failure|].
  eapply steady_bind; [apply asked|]. intros name _.
  change (e_domain e) with (e_domain (set_ips ip no_ip e)).
  set (e' := set_ips _ (default _ _) e). change (e_domain (set_ips ip no_ip e)) with (e_domain e').
  case_match; [apply deliver_implicit_steady|apply deliver_plain_steady].
Qed.
Lemma try_ips_steady m e p resolved rs last ips :
  last ≠ Completed tt → steady (try_ips m e p resolved rs last ips) (flow_ok (e_domain e) rs).
Proof.
  revert last. induction ips as [|ip ips IH]; intros last Hl; cbn [try_ips]; [by apply steady_ret|].
  eapply steady_bind; [apply try_ip_steady|]. intros [s|s|err|s rs'] Hf; [by apply IH|by apply steady_ret..].
Qed.

Lemma ip_lookup_steady key strategy n : steady (ip_lookup key strategy n) (λ _, True).
Proof.
  unfold ip_lookup. destruct (match strategy with Ipv4Only => _ | _ => _ end) as [[v4 v6] first].
  eapply (steady_bind _ _ (λ _, True)); [case_match; [apply asked|by apply steady_ret]|]. intros r _.
  destruct (match r with inl err => _ | _ => _ end); [by apply steady_ret|].
  destruct v6; [|by apply steady_ret].
  eapply steady_bind; [apply asked|]. intros ? _. by apply steady_ret.
Qed.
Lemma source_ip_steady v4 m e : steady (source_ip v4 m e) (λ _, True).
Proof.
  unfold source_ip. eapply steady_bind; [apply asked|]. intros ips _.
  destruct (default [] ips) as [|a [|a' l]]; [by apply steady_ret..|].
  eapply steady_bind; [apply asked|]. intros i _.
  eapply (steady_bind _ _ (λ _, True)); [by apply steady_or_panic|]. intros ? _. by apply steady_ret.
Qed.
Lemma resolve_host_steady m e host n : steady (resolve_host m e host n) failure_or.
Proof.
  unfold resolve_host. eapply steady_bind; [apply asked|]. intros s _.
  eapply steady_bind; [apply ip_lookup_steady|]. intros [[]|[|ip ips]] _; try by apply steady_ret.
  do 2 (eapply steady_bind; [apply source_ip_steady|]; intros ? _). by apply steady_ret.
Qed.
Lemma dane_policy_steady e is_smtp strategy : steady (dane_policy e is_smtp strategy) failure_or.
Proof.
  unfold dane_policy. case_match; [|by apply steady_ret].
  eapply steady_bind; [apply asked|]. intros r _. apply steady_ret.
  destruct r as [err|[tlsa|]]; repeat case_match; done || apply from_dns_failure_failure.
Qed.

Lemma try_host_steady m e is_smtp inv sts_ sts n rs last host :
  last ≠ Completed tt →
  steady (try_host m e is_smtp inv sts_ sts n rs last host) (flow_ok (e_domain e) rs).
Proof.
  intros Hl. unfold try_host. case_match; [by apply steady_ret|].
  eapply steady_bind; [apply resolve_host_steady|]. intros [s|resolved] Hs; [by apply steady_ret|].
  do 2 (eapply steady_bind; [apply asked|]; intros ? _).
  eapply steady_bind; [apply dane_policy_steady|]. intros [s|tlsa] Hs'; [by apply steady_ret|].
  by apply (try_ips_steady m (set_mx (hop_hostname host) e)).
Qed.
Lemma try_hosts_steady m e is_smtp inv sts_ sts n rs last hosts :
  last ≠ Completed tt →
  steady (try_hosts m e is_smtp inv sts_ sts n rs last hosts) (flow_ok (e_domain e) rs).
Proof.
  revert last. induction hosts as [|host hosts IH]; intros last Hl; cbn [try_hosts]; [by apply steady_ret|].
  eapply steady_bind; [by apply try_host_steady|].
  intros [s|s|err|s rs'] Hf; [by apply IH|by apply IH|by apply steady_ret..].
Qed.

(** ** One domain *)

Lemma mx_loop_steady max_mx hosts mxs : steady (mx_loop max_mx hosts mxs) (λ _, True).
Proof.
  revert hosts. induction mxs as [|mx mxs IH]; intros hosts; cbn [mx_loop]; [by apply steady_ret|].
  destruct (mx_exchanges mx) as [|a [|a' l]]; [apply IH|..].
  - case_match; [by apply steady_ret|]. destruct (push_hosts _ _ _) as [hs full].
    destruct full; [by apply steady_ret|apply IH].
  - eapply steady_bind; [apply asked|]. intros names _. destruct (push_hosts _ _ _) as [hs full].
    destruct full; [by apply steady_ret|apply IH].
Qed.
Lemma remote_hosts_steady m e domain relay : steady (remote_hosts m e domain relay) failure_or.
Proof.
  unfold remote_hosts. case_match; [by apply steady_ret|].
  eapply steady_bind; [apply asked|]. intros [err|mxs] _; [apply steady_ret, from_dns_failure_failure|].
  eapply steady_bind; [apply asked|]. intros max_mx _.
  eapply (steady_bind _ _ (λ _, True)).
  { unfold to_remote_hosts. case_match; [by apply steady_ret|apply mx_loop_steady]. }
  intros [hosts|] _; by apply steady_ret.
Qed.
Lemma sts_policy_steady domain is_smtp sts_ : steady (sts_policy domain is_smtp sts_) failure_or.
Proof.
  unfold sts_policy. case_match; [|by apply steady_ret].
  eapply steady_bind; [apply asked|]. intros [err|policy] _; apply steady_ret; [|done].
  case_match; [apply from_sts_error_failure|done].
Qed.
Lemma try_remote_steady m e d relay rs : steady (try_remote m e d relay rs) (flow_ok (e_domain e) rs).
Proof.
  unfold try_remote. do 2 (eapply steady_bind; [apply asked|]; intros ? _).
  eapply steady_bind; [apply sts_policy_steady|]. intros [s|sts] Hs; [by apply steady_ret|].
  eapply steady_bind; [apply remote_hosts_steady|]. intros [s|hosts] Hs'; [by apply steady_ret|].
  eapply steady_bind; [apply asked|]. intros n _. by apply try_hosts_steady.
Qed.

(** A message while its domains are tried, its recipients apart. *)
Definition carried (m0 : Message) (rs0 : list Recipient) (m : Message) (rs : list Recipient) : Prop :=
  header m0 = header m ∧ m_quota_keys m = m_quota_keys m0 ∧
  domain_id <$> m_domains m = domain_id <$> m_domains m0 ∧
  Forall2 advances rs0 rs ∧ parties_ok (m_domains m) rs.

Lemma carried_insert m0 rs0 m rs rs' idx d d' :
  carried m0 rs0 m rs → m_domains m !! idx = Some d → domain_id d' = domain_id d → domain_ok d' →
  served idx rs (d_status d', rs') →
  carried m0 rs0 (set_domains (<[idx := d']> (m_domains m)) m) rs'.
Proof.
  intros (Hh & Hk & Hd & Hr & Hp) Hidx Hid Hok [Ha Hc]. split_and!; [done..| | |].
  - cbn [set_domains set_parties m_domains]. rewrite list_fmap_insert, <-Hd.
    apply list_insert_id. rewrite Hid. by rewrite list_lookup_fmap, Hidx.
  - by eapply Forall2_advances_trans.
  - apply parties_ok_insert; [by eapply parties_ok_advance|done| |done].
    by apply lookup_lt_Some in Hidx.
Qed.
Lemma carried_domain m0 rs0 m rs idx d :
  carried m0 rs0 m rs → m_domains m !! idx = Some d → domain_ok d.
Proof. intros (_ & _ & _ & _ & Hd & _) Hidx. by eapply Forall_lookup_1. Qed.
Lemma served_active idx rs s : s ≠ Completed tt → served idx rs (s, rs).
Proof. apply failed_served, Forall2_advances_refl. Qed.

Lemma set_status_spec t status schedule d d' :
  set_status t status schedule d = Some d' →
  domain_id d' = domain_id d ∧ d_status d' = status ∧ (domain_ok d → domain_ok d').
Proof.
  unfold set_status, retry. case_match; [|by intros [= <-]].
  intros (wait & _ & [= <-])%bind_Some. split_and!; [done..|]. intros (_ & Hn & He).
  split_and!; [apply u64_add_ok|done..].
Qed.
Lemma update_status_steady m0 rs0 m rs rs' e status :
  served (e_domain e) rs (status, rs') →
  steady (update_status m e status) (λ m', carried m0 rs0 m rs → carried m0 rs0 m' rs').
Proof.
  intros Hs. unfold update_status. eapply steady_bind; [apply asked|]. intros schedule _.
  eapply (steady_bind _ _ (λ d, m_domains m !! e_domain e = Some d)); [by apply steady_or_panic|].
  intros d Hd. eapply (steady_bind _ _ (λ _, True)).
  { case_match; [by apply steady_now|by apply steady_ret]. }
  intros t _. eapply (steady_bind _ _ (λ d', set_status t status (default [60] schedule) d = Some d'));
    [by apply steady_or_panic|].
  intros d' (Hid & Hst & Hok)%set_status_spec. apply steady_ret. intros Hc.
  eapply carried_insert; [done..|eapply Hok, carried_domain; done|by rewrite Hst].
Qed.
Lemma throttle_domain_steady m0 rs0 m rs idx err on_hold :
  throttle_ok err →
  steady (throttle_domain m idx err on_hold) (λ r, carried m0 rs0 m rs → carried m0 rs0 r.1 rs).
Proof.
  intros Ht. unfold throttle_domain.
  eapply (steady_bind _ _ (λ d, m_domains m !! idx = Some d)); [by apply steady_or_panic|]. intros d Hd.
  destruct (set_throttle_error err d on_hold) as [d' held] eqn:He. apply steady_ret. intros Hc.
  pose proof (carried_domain _ _ _ _ _ _ Hc Hd) as (H1' & H2' & H3').
  eapply carried_insert; [done..| | |]; destruct err; injection He as <- <-; try done;
    by apply served_active.
Qed.

Lemma is_due_steady d : steady (is_due d) (λ _, True).
Proof.
  unfold is_due. case_match; [|by apply steady_ret].
  eapply steady_bind; [by apply (steady_now (λ _, True))|]. intros t _. by apply steady_ret.
Qed.
Lemma deliver_domain_steady m0 rs0 m rs on_hold idx :
  steady (deliver_domain m rs on_hold idx) (λ r, carried m0 rs0 m rs → carried m0 rs0 r.1.1 r.1.2).
Proof.
  unfold deliver_domain.
  eapply (steady_bind _ _ (λ _, True)); [by apply steady_or_panic|]. intros d _.
  eapply steady_bind; [apply is_due_steady|]. intros [] _; [|by apply steady_ret].
  eapply steady_bind; [apply is_allowed_steady|]. intros [err|] Ht.
  { eapply steady_bind; [by apply (throttle_domain_steady m0 rs0 m rs), Ht|]. intros r Hr. by apply steady_ret. }
  eapply steady_bind; [apply asked|]. intros hop _.
  eapply (steady_bind _ _ (flow_ok idx rs)).
  { destruct hop as [host|]; [|apply (try_remote_steady _ (envelope_new idx))].
    destruct (rh_protocol host); try apply (try_remote_steady _ (envelope_new idx)).
    eapply steady_bind; [apply deliver_local_steady|]. intros [s rs'] Hs. by apply steady_ret. }
  intros [s|s|err|s rs'] Hf.
  - eapply steady_bind; [by apply (update_status_steady m0 rs0 m rs rs), (served_active idx)|]. intros m' Hm. by apply steady_ret.
  - eapply steady_bind; [by apply (update_status_steady m0 rs0 m rs rs), (served_active idx)|]. intros m' Hm. by apply steady_ret.
  - eapply steady_bind; [by apply (throttle_domain_steady m0 rs0 m rs)|]. intros r Hr. by apply steady_ret.
  - eapply steady_bind; [by apply (update_status_steady m0 rs0 m rs rs')|]. intros m' Hm. by apply steady_ret.
Qed.
Lemma deliver_domains_steady m0 rs0 m rs on_hold idxs :
  steady (deliver_domains m rs on_hold idxs) (λ r, carried m0 rs0 m rs → carried m0 rs0 r.1.1 r.1.2).
Proof.
  revert m rs on_hold. induction idxs as [|idx idxs IH]; intros m rs on_hold; cbn [deliver_domains];
    [by apply steady_ret|].
  eapply steady_bind; [by apply (deliver_domain_steady m0 rs0)|]. intros [[m' rs'] held] Hc'.
  eapply steady_mono; [apply IH|]. auto.
Qed.

(** The domains of an attempt. *)
Lemma attempt_domains_steady m :
  steady (deliver_domains (set_recipients [] m) (m_recipients m) [] (seq 0 (length (m_domains m))))
    (λ r, message_ok m → let m' := set_recipients r.1.2 r.1.1 in message_ok m' ∧ evolves m m').
Proof.
  eapply steady_mono; [apply (deliver_domains_steady m (m_recipients m))|].
  intros [[m' rs] held] Hc Hok. destruct Hc as (Hh & Hk & Hd & Hr & Hp).
  { split_and!; [done..|apply Forall2_advances_refl|by apply (message_ok_parties m)]. }
  cbn [fst snd] in *.
  split; [by apply (message_ok_change m)|]. by split_and!.
Qed.

(** ** Whatever the queue does, messages are handed over as required *)

Section extending.
Context (blake3 : list Z → list Z) (bincode_serialize : Message → list Z).
Context (bincode_deserialize : list Z → result Message).
Local Abbreviation extending p := (extending (DB:=DB) (BS:=BS) p).

Lemma queue_extending m hdr raw : extending (queue blake3 bincode_serialize m hdr raw).
Proof. unfold queue. extending. Qed.
Lemma save_changes_extending m events : extending (save_changes bincode_serialize m events).
Proof. unfold save_changes. extending. Qed.
Lemma remove_extending m due : extending (remove m due).
Proof. unfold remove. extending. Qed.
Lemma new_message_extending rp rpl rpd : extending (new_message rp rpl rpd).
Proof. unfold new_message. extending. Qed.
Lemma add_recipient_parts_extending m r rl rd : extending (add_recipient_parts m r rl rd).
Proof. unfold add_recipient_parts. extending. Qed.
Lemma build_dsn_extending m : extending (build_dsn m).
Proof. eapply extending_steady, build_dsn_steady. Qed.
Local Hint Resolve queue_extending save_changes_extending remove_extending new_message_extending
  add_recipient_parts_extending build_dsn_extending : extending.
Lemma send_dsn_extending m : extending (send_dsn blake3 bincode_serialize m).
Proof.
  unfold send_dsn. case_decide; [by eapply extending_steady, double_bounce_steady|]. extending.
Qed.
Lemma hold_extending m event limiters : extending (hold bincode_serialize m event limiters).
Proof. unfold hold. extending. Qed.
Lemma is_allowed_extending ts m e : extending (is_allowed ts m e).
Proof. eapply extending_steady, is_allowed_steady. Qed.
Lemma attempt_domains_extending m :
  extending (deliver_domains (set_recipients [] m) (m_recipients m) [] (seq 0 (length (m_domains m)))).
Proof. eapply extending_steady, attempt_domains_steady. Qed.
Local Hint Resolve send_dsn_extending hold_extending is_allowed_extending attempt_domains_extending : extending.
Lemma throttle_message_extending m event err : extending (throttle_message bincode_serialize m event err).
Proof. unfold throttle_message. extending. Qed.
Lemma finish_extending m event on_hold : extending (finish bincode_serialize m event on_hold).
Proof. unfold finish. extending. Qed.
Local Hint Resolve throttle_message_extending finish_extending : extending.
Lemma attempt_extending m event : extending (attempt blake3 bincode_serialize m event).
Proof. unfold attempt. extending. Qed.
Local Hint Resolve attempt_extending : extending.
Lemma process_extending m event : extending (process blake3 bincode_serialize m event).
Proof. unfold process. extending. Qed.
Lemma try_lock_extending event : extending (try_lock_event event).
Proof. unfold try_lock_event. extending. Qed.
Lemma read_message_extending id : extending (read_message bincode_deserialize id).
Proof. unfold read_message. extending. Qed.
Local Hint Resolve process_extending try_lock_extending read_message_extending : extending.
Lemma try_deliver_extending event :
  extending (try_deliver blake3 bincode_serialize bincode_deserialize event).
Proof. unfold try_deliver. extending. Qed.
End extending.
End delivery.
#[export] Hint Resolve queue_extending save_changes_extending remove_extending new_message_extending
  add_recipient_parts_extending build_dsn_extending send_dsn_extending hold_extending
  is_allowed_extending attempt_domains_extending throttle_message_extending finish_extending
  attempt_extending process_extending try_lock_extending read_message_extending
  try_deliver_extending : extending.
