(* ===== verification/SmtpInboundTheory.v ===== *)
(** * Accepted messages are well formed

    [build_message] gives every recipient exactly one entry, in the one domain
    of the message that is its own, and [submit] queues such a message. *)

From stdpp Require Import base gmap sorting strings numbers list.
From S2P Require Import Prelude Codec Keys KeyTheory Roaring Kv Batch Commit CommitTheory Read Store Query Blob Smtp SmtpSpool SmtpDsn SmtpSession SmtpDelivery SmtpInbound SmtpLogic SmtpStoreTheory SmtpPartyTheory SmtpSessionTheory SmtpDeliveryTheory.
Import Smtp Spool Dsn Inbound.
Open Scope Z_scope.
Open Scope bytes_scope.
Open Scope queue_scope.

(** ** The order of addresses *)

Lemma address_le_domain a b : address_le a b → sa_domain a ≤ᵇ sa_domain b.
Proof. unfold address_le, address_cmp, bytes_le. by destruct (bytes_cmp (sa_domain a) (sa_domain b)). Qed.
#[export] Instance address_le_total : Total address_le.
Proof.
  intros a b. unfold address_le, address_cmp.
  rewrite (bytes_cmp_antisym (sa_domain a) (sa_domain b)).
  destruct (bytes_cmp (sa_domain a) (sa_domain b)); cbn; [|by left|by right].
  exact (bytes_le_total (sa_address_lcase a) (sa_address_lcase b)).
Qed.
#[export] Instance address_le_trans : Transitive address_le.
Proof.
  intros a b c. unfold address_le, address_cmp. intros Hab Hbc.
  destruct (bytes_cmp (sa_domain a) (sa_domain b)) eqn:H1; [|clear Hab|done].
  - apply bytes_cmp_eq in H1. rewrite H1. destruct (bytes_cmp (sa_domain b) (sa_domain c)); [|done..].
    exact (bytes_le_trans _ _ _ Hab Hbc).
  - assert (sa_domain b ≤ᵇ sa_domain c) as Hle.
    { unfold bytes_le. by destruct (bytes_cmp (sa_domain b) (sa_domain c)). }
    assert (sa_domain a <ᵇ sa_domain c) as Hlt by (by eapply bytes_lt_le_trans).
    unfold bytes_lt in Hlt. by rewrite Hlt.
Qed.

(** ** What a message that is built holds *)

(** The entry of an address. *)
Definition entry_of `{SmtpProto} (ds : list Domain) (a : SessionAddress) (r : Recipient) : Prop :=
  rc_address r = sa_address a ∧ rc_address_lcase r = sa_address_lcase a ∧
  rc_orcpt r = sa_dsn_info a ∧ rc_flags r = rcpt_flags (sa_flags a) ∧ rc_status r = Scheduled ∧
  d_domain <$> ds !! rc_domain_idx r = Some (sa_domain a).
Record built `{SmtpProto} (addrs : list SessionAddress) (m : Message) : Prop := {
  bt_domains : Forall (λ d, domain_ok d ∧ d_status d = Scheduled) (m_domains m);
  bt_names : StronglySorted bytes_lt (d_domain <$> m_domains m);
  bt_rcpts : Forall2 (entry_of (m_domains m)) addrs (m_recipients m);
}.

Lemma entry_of_more `{SmtpProto} ds d a r : entry_of ds a r → entry_of (ds ++ [d]) a r.
Proof.
  intros (? & ? & ? & ? & ? & Hd). split_and!; [done..|].
  destruct (ds !! rc_domain_idx r) as [d'|] eqn:Hl; [|done]. by rewrite (lookup_app_l_Some _ _ _ _ Hl).
Qed.
Lemma StronglySorted_snoc {A} (R : A → A → Prop) l x :
  StronglySorted R l → Forall (λ y, R y x) l → StronglySorted R (l ++ [x]).
Proof.
  induction 1 as [|y l Hs IH Hy]; intros Hx; cbn [app]; [by repeat constructor|].
  apply Forall_cons in Hx as [Hyx Hx]. constructor; [by apply IH|]. apply Forall_app. split; [done|].
  by constructor.
Qed.
Lemma sorted_last_max l x y :
  StronglySorted bytes_lt l → last l = Some x → y ∈ l → y ≤ᵇ x.
Proof.
  destruct l as [|z l _] using rev_ind; [done|]. rewrite last_snoc. intros Hs [= ->].
  intros [Hy| ->%list_elem_of_singleton]%elem_of_app; [|apply bytes_le_refl].
  apply bytes_lt_le. apply (proj1 (StronglySorted_app _ _ _)) in Hs as (Hall & _). apply Hall; [done|by left].
Qed.

Section inbound.
Context {DB Txn BS : Type} `{RocksDB DB Txn} `{StoreWrite DB} `{BlobStore BS} `{EnvOk} `{SmtpProto}.
Local Abbreviation steady := (steady (DB:=DB) (BS:=BS)).

Lemma schedule_now_steady : steady schedule_now (λ s, uint_ok 64 (s_due s)).
Proof.
  unfold schedule_now. eapply steady_bind; [apply (steady_now (uint_ok 64)), env_now|].
  intros t Ht. by apply steady_ret.
Qed.
Lemma schedule_later_steady d : steady (schedule_later d) (λ s, uint_ok 64 (s_due s)).
Proof.
  unfold schedule_later. eapply steady_bind; [by apply (steady_now (λ _, True))|].
  intros t _. apply steady_ret. apply u64_add_ok.
Qed.
Lemma release_after_steady data d : steady (release_after data d) (λ s, uint_ok 64 (s_due s)).
Proof.
  unfold release_after. eapply (steady_bind _ _ (λ _, True)); [by apply steady_or_panic|].
  intros wait _. apply schedule_later_steady.
Qed.
Lemma ask_expire_steady m idx : steady (ask_expire m idx) (λ _, True).
Proof. unfold ask_expire. eapply steady_bind; [apply asked|]. intros ? _. by apply steady_ret. Qed.
Lemma domain_times_steady data m idx :
  steady (domain_times data m idx) (λ r, uint_ok 64 (s_due r.1) ∧ uint_ok 64 r.2).
Proof.
  unfold domain_times. eapply steady_bind; [apply asked|]. intros intervals _.
  destruct (match intervals with Some (_ :: _) => _ | _ => _ end) as [num next].
  case_match; [|case_match].
  - eapply steady_bind; [apply release_after_steady|]. intros s Hs.
    eapply steady_bind; [by apply (steady_now (λ _, True))|]. intros t _.
    eapply steady_bind; [apply ask_expire_steady|]. intros e _. apply steady_ret. by split; [|apply u64_add_ok].
  - eapply steady_bind; [apply release_after_steady|]. intros s Hs.
    eapply steady_bind; [by apply (steady_now (λ _, True))|]. intros t _.
    apply steady_ret. by split; [|apply u64_add_ok].
  - eapply steady_bind; [apply ask_expire_steady|]. intros e _.
    eapply steady_bind; [apply release_after_steady|]. intros s Hs.
    eapply steady_bind; [by apply (steady_now (λ _, True))|]. intros t _.
    apply steady_ret. by split; [|apply u64_add_ok].
Qed.

(** The domain is the last one. *)
Lemma push_domain_steady data m domain :
  steady (push_domain data m domain) (λ m',
    (m' = m ∧ d_domain <$> last (m_domains m) = Some domain) ∨
    (d_domain <$> last (m_domains m) ≠ Some domain ∧
     ∃ d, m' = set_domains (m_domains m ++ [d]) m ∧ d_domain d = domain ∧ domain_ok d ∧
       d_status d = Scheduled)).
Proof.
  unfold push_domain. case_decide as Hl; [apply steady_ret; by left|].
  do 2 (eapply steady_bind; [apply schedule_now_steady|]; intros ? _).
  eapply (steady_bind _ _ (λ s, uint_ok 64 (s_due s))).
  { case_match; [apply schedule_now_steady|apply schedule_later_steady]. }
  intros retry Hr. eapply steady_bind; [apply domain_times_steady|]. intros [n e] [Hn He].
  apply steady_ret. right. split; [done|]. eexists. split_and!; [done|done| |done]. by split_and!.
Qed.

Lemma push_recipient_built addrs a m i :
  built addrs m → last (m_domains m) = Some i → d_domain i = sa_domain a →
  built (addrs ++ [a]) (push_recipient a m).
Proof.
  intros [Hd Hn Hr] Hl Hi. split; [done..|]. cbn [push_recipient set_recipients set_parties m_domains m_recipients].
  apply Forall2_app; [done|]. constructor; [|constructor]. split_and!; [done..|].
  cbn [rc_domain_idx]. rewrite last_lookup in Hl. rewrite Nat.sub_1_r, Hl. cbn. by rewrite Hi.
Qed.
Lemma push_domain_built addrs m d :
  built addrs m → domain_ok d → d_status d = Scheduled →
  d_domain <$> last (m_domains m) ≠ Some (d_domain d) →
  Forall (λ d', d_domain d' ≤ᵇ d_domain d) (m_domains m) →
  built addrs (set_domains (m_domains m ++ [d]) m).
Proof.
  intros [Hd Hn Hr] Hok Hs Hl Hle. split; cbn [set_domains set_parties m_domains m_recipients].
  - apply Forall_app. split; [done|]. by constructor.
  - rewrite fmap_app. apply StronglySorted_snoc; [done|]. apply Forall_fmap.
    rewrite Forall_forall in Hle |- *. intros d' Hin. cbn.
    destruct (last (m_domains m)) as [x|] eqn:Hlast.
    + assert (d_domain d' ≤ᵇ d_domain x) as Hx.
      { eapply sorted_last_max; [exact Hn| |by apply list_elem_of_fmap_2]. by rewrite fmap_last, Hlast. }
      apply last_Some_elem_of in Hlast. pose proof (Hle x Hlast) as Hxd.
      apply bytes_le_lteq in Hxd as [Hxd|Heq]; [by eapply bytes_le_lt_trans|]. by destruct Hl; cbn; rewrite Heq.
    + apply last_None in Hlast. rewrite Hlast in Hin. by apply not_elem_of_nil in Hin.
  - eapply Forall2_impl; [exact Hr|]. intros a r. apply entry_of_more.
Qed.

Definition ahead (m : Message) (rcpts : list SessionAddress) : Prop :=
  ∀ d a, d ∈ m_domains m → a ∈ rcpts → d_domain d ≤ᵇ sa_domain a.

Lemma push_recipients_steady data addrs m rcpts :
  StronglySorted address_le rcpts → ahead m rcpts → built addrs m →
  steady (push_recipients data m rcpts) (λ m',
    built (addrs ++ rcpts) m' ∧ header m = header m' ∧ m_quota_keys m' = m_quota_keys m).
Proof.
  intros Hs. revert addrs m. induction Hs as [|a rcpts Hs IH Ha]; intros addrs m Hah Hb; cbn [push_recipients].
  { apply steady_ret. by rewrite app_nil_r. }
  eapply steady_bind; [apply push_domain_steady|]. intros m1 Hm1. rewrite Forall_forall in Ha.
  assert (∃ i, built addrs m1 ∧ last (m_domains m1) = Some i ∧ d_domain i = sa_domain a ∧ ahead m1 rcpts ∧
    header m = header m1 ∧ m_quota_keys m1 = m_quota_keys m) as (i & Hb1 & Hl1 & Hi & Hah1 & Hh1 & Hk1).
  { destruct Hm1 as [[-> Hl]|(Hl & d & -> & Hd & Hok & Hst)].
    - apply fmap_Some in Hl as (i & Hl & Hi). exists i. split_and!; try done.
      intros d a' Hd Ha'. apply Hah; [done|by right].
    - exists d. split_and!; try done.
      + apply push_domain_built; [done..|by rewrite Hd|]. apply Forall_forall. intros d' Hin. rewrite Hd.
        apply Hah; [done|by left].
      + cbn. apply last_snoc.
      + cbn. intros d' a' [Hin| ->%list_elem_of_singleton]%elem_of_app Ha'; [apply Hah; [done|by right]|].
        rewrite Hd. by apply address_le_domain, Ha. }
  eapply steady_mono; [apply (IH (addrs ++ [a]) (push_recipient a m1))|].
  - exact Hah1.
  - by eapply push_recipient_built.
  - intros m2 (Hb2 & Hh2 & Hk2). rewrite <-app_assoc in Hb2. split_and!; [done|..].
    + rewrite Hh1, <-Hh2. done.
    + by rewrite Hk2, <-Hk1.
Qed.

Lemma build_message_steady data from rcpts id :
  steady (build_message data from rcpts id) (λ m,
    built (merge_sort address_le rcpts) m ∧ m_id m = id ∧ m_return_path m = sa_address from ∧
    m_quota_keys m = []).
Proof.
  unfold build_message. eapply steady_bind; [by apply (steady_now (λ _, True))|]. intros t _.
  eapply steady_mono; [apply (push_recipients_steady data [])|].
  - apply StronglySorted_merge_sort; apply _.
  - intros d a Hd. by apply not_elem_of_nil in Hd.
  - split; constructor.
  - intros m (Hb & Hh & Hk). apply header_fields in Hh as (Hid & _ & Hrp & _). by split_and!.
Qed.

Lemma built_parties addrs m : built addrs m → parties_ok (m_domains m) (m_recipients m).
Proof.
  intros [Hd _ Hr]. split; [eapply Forall_impl; [exact Hd|]; by intros ? [? _]|].
  intros r (i & Hi)%list_elem_of_lookup.
  destruct (Forall2_lookup_r' _ _ _ _ _ Hr Hi) as (a & _ & _ & _ & _ & _ & _ & (d & Hl & _)%fmap_Some).
  exists d. split; [done|]. eapply Forall_lookup_1 in Hd as [_ Hs]; [|done]. by rewrite Hs.
Qed.

(** ** Quotas *)

Section quota.
Context (blake3 : list Z → list Z) (bincode_serialize : Message → list Z).

Lemma check_limit_steady limit class amount key refs :
  steady (check_limit limit class amount key refs)
    (λ o, ∀ refs', o = Some refs' → (length refs' ≤ S (length refs))%nat).
Proof.
  unfold check_limit. case_match; [|apply steady_ret; intros ? [= <-]; lia].
  eapply (steady_bind _ _ (λ _, True)).
  { unfold used. eapply (steady_bind _ _ (λ _, True)); [by apply steady_get_db|]. intros ? _. by apply steady_ret. }
  intros u _. apply steady_ret. intros refs'. case_match; [done|]. intros [= <-]. rewrite length_app. cbn. lia.
Qed.
Lemma check_quota_steady quota m e id refs :
  steady (check_quota blake3 quota m e id refs)
    (λ o, ∀ refs', o = Some refs' → (length refs' ≤ 2 + length refs)%nat).
Proof.
  unfold check_quota. case_match; [|apply steady_ret; intros ? [= <-]; lia].
  eapply steady_bind; [apply asked|]. intros applies _.
  destruct (default false applies); [|apply steady_ret; intros ? [= <-]; lia].
  eapply steady_bind; [apply check_limit_steady|]. intros [refs1|] H1'; [|by apply steady_ret].
  eapply steady_mono; [apply check_limit_steady|]. intros o Ho refs' Hr. specialize (H1' refs1 eq_refl).
  specialize (Ho refs' Hr). lia.
Qed.
Lemma check_quotas_steady checks m refs :
  steady (check_quotas blake3 checks m refs)
    (λ o, ∀ refs', o = Some refs' → (length refs' ≤ 2 * length checks + length refs)%nat).
Proof.
  revert refs. induction checks as [|[[quota e] id] checks IH]; intros refs; cbn [check_quotas length].
  { apply steady_ret. intros ? [= <-]. lia. }
  eapply steady_bind; [apply check_quota_steady|]. intros [refs1|] H1'; [|by apply steady_ret].
  eapply steady_mono; [apply IH|]. intros o Ho refs' Hr. specialize (H1' refs1 eq_refl).
  specialize (Ho refs' Hr). lia.
Qed.
Lemma has_quota_steady sender rcpt_domain rcpt m :
  steady (has_quota blake3 sender rcpt_domain rcpt m)
    (λ o, ∀ m', o = Some m' → ∃ refs, m' = set_quota_keys refs m ∧
       (length refs ≤ 2 * length (quota_checks sender rcpt_domain rcpt m))%nat).
Proof.
  unfold has_quota. eapply steady_bind; [apply check_quotas_steady|]. intros refs Hr. apply steady_ret.
  intros m' (refs' & -> & ->)%fmap_Some. exists refs'. split; [done|].
  specialize (Hr refs' eq_refl). cbn [length] in Hr. lia.
Qed.
Lemma submit_extending sender rcpt_domain rcpt m headers raw :
  extending (DB:=DB) (BS:=BS) (submit blake3 bincode_serialize sender rcpt_domain rcpt m headers raw).
Proof.
  unfold submit. apply extending_bind; [eapply extending_steady, has_quota_steady|]. extending.
Qed.

(** What [submit] may queue is well formed. *)
Lemma submit_ok addrs m refs headers raw size :
  (∀ l, length (blake3 l) = BLOB_HASH_LEN) → built addrs m → uint_ok 64 (m_id m) →
  Z.of_nat (length refs) ≤ 10 ^ 5 →
  message_ok (with_content blake3 (set_quota_keys refs (set_content (m_blob_hash m) size m)) headers raw).
Proof.
  intros Hb Hbt Hid Hr. apply built_parties in Hbt as [Hd Hrs].
  split; cbn; [done|apply Hb|done|done|done].
Qed.
End quota.
End inbound.
#[export] Hint Resolve submit_extending : extending.
