(* ===== verification/SmtpTotal.v ===== *)
(** * Attempts do not panic

    [total p]: [p] has a result, whatever the environment answers.  An attempt
    at a well-formed message is total when the configured retry schedules are
    not empty and a random index is in range. *)

From stdpp Require Import base gmap sorting strings numbers list.
From S2P Require Import Prelude Codec Keys KeyTheory Roaring Kv Batch Commit CommitTheory Read Store Query Blob Smtp SmtpSpool SmtpDsn SmtpSession SmtpDelivery SmtpLogic SmtpStoreTheory SmtpPartyTheory SmtpSessionTheory SmtpDeliveryTheory.
Import Smtp Spool Dsn Session Delivery.
Open Scope Z_scope.
Open Scope queue_scope.

Section total.
Context {DB BS : Type}.
Definition total {A} (p : Q DB BS A) : Prop := ∀ w, is_Some (p w).1.

Lemma total_ret {A} (a : A) : total (ret a).
Proof. by eexists. Qed.
Lemma total_bind {A B} (p : Q DB BS A) (f : A → Q DB BS B) :
  total p → (∀ a, total (f a)) → total (bind p f).
Proof. intros Hp Hf w. unfold bind. destruct (Hp w) as [a Ha]. destruct (p w). cbn in Ha. subst. apply Hf. Qed.
Lemma total_bind_steady {A B} (p : Q DB BS A) (f : A → Q DB BS B) P :
  total p → steady p P → (∀ a, P a → total (f a)) → total (bind p f).
Proof.
  intros Hp Hs Hf w. unfold bind. destruct (Hp w) as [a Ha], (Hs w) as [_ HP]. destruct (p w).
  cbn in *. subst. by apply Hf, HP.
Qed.
(** What holds of a result, however it came about. *)
Definition yields {A} (p : Q DB BS A) (P : A → Prop) : Prop := ∀ w a, (p w).1 = Some a → P a.
Lemma yields_steady {A} (p : Q DB BS A) P : steady p P → yields p P.
Proof. intros Hs w. apply Hs. Qed.
Lemma yields_bind {A B} (p : Q DB BS A) (f : A → Q DB BS B) P R :
  yields p P → (∀ a, P a → yields (f a) R) → yields (bind p f) R.
Proof.
  intros Hp Hf w. unfold bind. specialize (Hp w). destruct (p w) as [[a|] w']; [|done].
  by apply Hf, Hp.
Qed.
Lemma yields_ret {A} (a : A) (P : A → Prop) : P a → yields (ret a) P.
Proof. intros Ha w ? [= <-]. done. Qed.
Lemma total_bind_yields {A B} (p : Q DB BS A) (f : A → Q DB BS B) P :
  total p → yields p P → (∀ a, P a → total (f a)) → total (bind p f).
Proof.
  intros Hp Hs Hf w. unfold bind. destruct (Hp w) as [a Ha]. specialize (Hs w). destruct (p w).
  cbn in *. subst. by apply Hf, Hs.
Qed.
Lemma total_or_panic {A} (o : option A) : is_Some o → total (or_panic o).
Proof. intros [a ->]. apply total_ret. Qed.
Lemma total_question `{Env} {X} (q : ask X) : total (question q).
Proof. by eexists. Qed.
Lemma total_send s : total (send s).
Proof. by eexists. Qed.
Lemma total_notify e : total (notify e).
Proof. by eexists. Qed.
Lemma total_get_db : total get_db.
Proof. by eexists. Qed.
Lemma total_get_blobs : total get_blobs.
Proof. by eexists. Qed.
Lemma total_put_blobs bs : total (put_blobs bs).
Proof. by eexists. Qed.
Lemma total_write `{StoreWrite DB} b : total (write_batch b).
Proof. intros w. unfold write_batch, bind, get_db. cbn. by destruct (store_write _ _) as [[]|]; eexists. Qed.
End total.

Create HintDb total.
#[export] Hint Resolve total_ret total_question total_send total_notify total_get_db total_get_blobs
  total_put_blobs total_write : total.
Ltac total :=
  intros; cbn beta;
  lazymatch goal with
  | |- total (bind _ _) => apply total_bind; [total|total]
  | |- total now => apply total_question
  | |- total (timeout _) => apply total_bind; [total|total]
  | |- total (match ?x with _ => _ end) => destruct x; total
  | |- _ => eauto with total
  end.

(** A random index is in range, a retry schedule has an entry. *)
Class EnvTotal `{Env} := {
  env_index n k : (0 < k)%nat → (answer n _ (AskIndex k) < k)%nat;
  env_retry n m d : answer n _ (AskRetry m d) ≠ Some [];
}.

Section attempt.
Context {DB Txn BS : Type} `{RocksDB DB Txn} `{StoreWrite DB} `{BlobStore BS} `{EnvOk} `{!EnvTotal} `{SmtpProto}.
Context `{QueueConfig}.
Local Abbreviation total p := (total (DB:=DB) (BS:=BS) p).

(** ** Sessions *)

Lemma say_helo_total params : total (say_helo params).
Proof. unfold say_helo. total. Qed.
Lemma read_greeting_total h : total (read_greeting h).
Proof. unfold read_greeting. total. Qed.
Lemma try_start_tls_total h v c : total (try_start_tls h v c).
Proof. unfold try_start_tls. total. Qed.
Lemma send_data_total raw : total (send_data raw).
Proof. unfold send_data. total. Qed.
Hint Resolve say_helo_total read_greeting_total try_start_tls_total send_data_total : total.
Lemma send_message_total m cmd params : total (send_message m cmd params).
Proof. unfold send_message. total. Qed.
Hint Resolve send_message_total : total.
Lemma rcpt_loop_total idx params caps t rs : total (rcpt_loop idx params caps t rs).
Proof. revert t. induction rs as [|r rs IH]; intros t; cbn [rcpt_loop]; total. Qed.
Lemma data_phase_total m params caps t out : total (data_phase m params caps t out).
Proof. unfold data_phase. total. Qed.
Hint Resolve rcpt_loop_total data_phase_total : total.
Lemma deliver_total m idx params rs : total (deliver m idx params rs).
Proof. unfold deliver. total. Qed.
Lemma deliver_local_total m idx rs : total (deliver_local m idx rs).
Proof. unfold deliver_local. total. Qed.
Hint Resolve deliver_total deliver_local_total : total.

(** ** Hosts *)

Lemma is_allowed_total ts m e : total (is_allowed ts m e).
Proof. induction ts as [|t ts IH]; cbn [is_allowed]; total. Qed.
Lemma transfer_total m e p secure params rs : total (transfer m e p secure params rs).
Proof. unfold transfer. total. Qed.
Hint Resolve is_allowed_total transfer_total : total.
Lemma deliver_plain_total m e p params rs : total (deliver_plain m e p params rs).
Proof. unfold deliver_plain. total. Qed.
Lemma deliver_implicit_total m e p params rs : total (deliver_implicit m e p params rs).
Proof. unfold deliver_implicit. total. Qed.
Hint Resolve deliver_plain_total deliver_implicit_total : total.
Lemma try_ip_total m e p resolved rs ip : total (try_ip m e p resolved rs ip).
Proof. unfold try_ip. total. Qed.
Hint Resolve try_ip_total : total.
Lemma try_ips_total m e p resolved rs last ips : total (try_ips m e p resolved rs last ips).
Proof. revert last. induction ips as [|ip ips IH]; intros last; cbn [try_ips]; total. Qed.
Lemma ip_lookup_total key strategy n : total (ip_lookup key strategy n).
Proof.
  unfold ip_lookup. destruct (match strategy with Ipv4Only => _ | _ => _ end) as [[v4 v6] first]. total.
Qed.
Lemma source_ip_total v4 m e : total (source_ip v4 m e).
Proof.
  unfold source_ip. apply total_bind; [total|]. intros ips. set (l := default [] ips).
  destruct l as [|a [|a' l']]; [total..|].
  eapply (total_bind_steady _ _ (λ i, i < length (a :: a' :: l'))%nat); [total| |].
  { apply steady_question. intros n. apply env_index. cbn. lia. }
  intros i Hi. apply total_bind; [|total]. apply total_or_panic. by apply lookup_lt_is_Some.
Qed.
Hint Resolve try_ips_total ip_lookup_total source_ip_total : total.
Lemma resolve_host_total m e host n : total (resolve_host m e host n).
Proof. unfold resolve_host. total. Qed.
Lemma dane_policy_total e is_smtp strategy : total (dane_policy e is_smtp strategy).
Proof. unfold dane_policy. total. Qed.
Hint Resolve resolve_host_total dane_policy_total : total.
Lemma try_host_total m e is_smtp inv sts_ sts n rs last host :
  total (try_host m e is_smtp inv sts_ sts n rs last host).
Proof. unfold try_host. total. Qed.
Hint Resolve try_host_total : total.
Lemma try_hosts_total m e is_smtp inv sts_ sts n rs last hosts :
  total (try_hosts m e is_smtp inv sts_ sts n rs last hosts).
Proof. revert last. induction hosts as [|h hosts IH]; intros last; cbn [try_hosts]; total. Qed.
Lemma mx_loop_total max_mx hosts mxs : total (mx_loop max_mx hosts mxs).
Proof. revert hosts. induction mxs as [|mx mxs IH]; intros hosts; cbn [mx_loop]; total. Qed.
Hint Resolve try_hosts_total mx_loop_total : total.
Lemma remote_hosts_total m e domain relay : total (remote_hosts m e domain relay).
Proof. unfold remote_hosts, to_remote_hosts. total. Qed.
Lemma sts_policy_total domain is_smtp sts_ : total (sts_policy domain is_smtp sts_).
Proof. unfold sts_policy. total. Qed.
Hint Resolve remote_hosts_total sts_policy_total : total.
Lemma try_remote_total m e d relay rs : total (try_remote m e d relay rs).
Proof. unfold try_remote. total. Qed.
Hint Resolve try_remote_total : total.

(** ** Domains *)

Lemma set_status_some t status schedule d : schedule ≠ [] → is_Some (set_status t status schedule d).
Proof.
  intros Hs. unfold set_status, retry. case_match; [|by eexists].
  destruct (lookup_lt_is_Some_2 schedule
    (Nat.min (Z.to_nat (s_inner (d_retry (set_d_status status d)))) (length schedule - 1))) as [wait ->].
  - destruct schedule; [done|]. cbn [length]. lia.
  - by eexists.
Qed.
Lemma update_status_total m e status :
  (e_domain e < length (m_domains m))%nat → total (update_status m e status).
Proof.
  intros Hlt. unfold update_status. eapply (total_bind_steady _ _ (λ o, o ≠ Some [])); [total| |].
  { apply steady_question. intros n. apply env_retry. }
  intros schedule Hs. apply total_bind; [by apply total_or_panic, lookup_lt_is_Some|]. intros d.
  apply total_bind; [total|]. intros t. apply total_bind; [|total].
  apply total_or_panic, set_status_some. by destruct schedule as [[]|].
Qed.
Lemma throttle_domain_total m idx err on_hold :
  (idx < length (m_domains m))%nat → total (throttle_domain m idx err on_hold).
Proof.
  intros Hlt. unfold throttle_domain. apply total_bind; [by apply total_or_panic, lookup_lt_is_Some|total].
Qed.
Lemma is_due_total d : total (is_due d).
Proof. unfold is_due. total. Qed.
Hint Resolve update_status_total throttle_domain_total is_due_total : total.
Lemma deliver_domain_total m rs on_hold idx :
  (idx < length (m_domains m))%nat → total (deliver_domain m rs on_hold idx).
Proof.
  intros Hlt. unfold deliver_domain. apply total_bind; [by apply total_or_panic, lookup_lt_is_Some|]. total.
Qed.

Lemma update_status_length m e status :
  steady (DB:=DB) (BS:=BS) (update_status m e status) (λ m', length (m_domains m') = length (m_domains m)).
Proof.
  unfold update_status. eapply steady_bind; [apply asked|]. intros schedule _.
  eapply (steady_bind _ _ (λ _, True)); [by apply steady_or_panic|]. intros d _.
  eapply (steady_bind _ _ (λ _, True)); [case_match; [by apply steady_now|by apply steady_ret]|]. intros t _.
  eapply (steady_bind _ _ (λ _, True)); [by apply steady_or_panic|]. intros d' _.
  apply steady_ret. cbn. apply length_insert.
Qed.
Lemma throttle_domain_length m idx err on_hold :
  steady (DB:=DB) (BS:=BS) (throttle_domain m idx err on_hold)
    (λ r, length (m_domains r.1) = length (m_domains m)).
Proof.
  unfold throttle_domain. eapply (steady_bind _ _ (λ _, True)); [by apply steady_or_panic|]. intros d _.
  destruct (set_throttle_error _ _ _). apply steady_ret. cbn. apply length_insert.
Qed.
Lemma deliver_domain_length m rs on_hold idx :
  steady (DB:=DB) (BS:=BS) (deliver_domain m rs on_hold idx)
    (λ r, length (m_domains r.1.1) = length (m_domains m)).
Proof.
  unfold deliver_domain. eapply (steady_bind _ _ (λ _, True)); [by apply steady_or_panic|]. intros d _.
  eapply steady_bind; [apply is_due_steady|]. intros [] _; [|by apply steady_ret].
  eapply steady_bind; [apply is_allowed_steady|]. intros [err|] _.
  { eapply steady_bind; [apply throttle_domain_length|]. intros r Hr. by apply steady_ret. }
  eapply steady_bind; [apply asked|]. intros hop _.
  eapply (steady_bind _ _ (λ _, True)).
  { destruct hop as [host|].
    - destruct (rh_protocol host); try (eapply steady_mono; [apply try_remote_steady|done]).
      eapply steady_bind; [apply deliver_local_steady|]. intros ? _. by apply steady_ret.
    - eapply steady_mono; [apply try_remote_steady|done]. }
  intros [s|s|err|s rs'] _.
  all: eapply steady_bind; [apply update_status_length || apply throttle_domain_length|];
    intros r Hr; by apply steady_ret.
Qed.
Lemma deliver_domains_total m rs on_hold idxs :
  Forall (λ idx, (idx < length (m_domains m))%nat) idxs → total (deliver_domains m rs on_hold idxs).
Proof.
  intros Hall. revert m rs on_hold Hall.
  induction idxs as [|idx idxs IH]; intros m rs on_hold Hall; cbn [deliver_domains]; [total|].
  apply Forall_cons in Hall as [Hidx Hall].
  eapply total_bind_steady; [by apply deliver_domain_total|apply deliver_domain_length|].
  intros [[m' rs'] held] Hlen. apply IH. cbn in Hlen. by rewrite Hlen.
Qed.

(** ** Notifications *)

Definition in_domains (ds : list Domain) (rs : list Recipient) : Prop :=
  Forall (λ r, is_Some (ds !! rc_domain_idx r)) rs.
Lemma message_in_domains m : message_ok m → in_domains (m_domains m) (m_recipients m).
Proof. intros Hok. apply Forall_forall. intros r Hr. destruct (mk_rcpt m Hok r Hr) as (d & Hd & _). eauto. Qed.

Lemma report_delay_total now d status text r t : total (report_delay now d status text r t).
Proof. unfold report_delay. total. Qed.
Hint Resolve report_delay_total : total.
Lemma dsn_rcpt_total now ds r t : is_Some (ds !! rc_domain_idx r) → total (dsn_rcpt now ds r t).
Proof.
  intros Hd. unfold dsn_rcpt. case_match; [total|]. apply total_bind; [by apply total_or_panic|total].
Qed.
Lemma dsn_rcpts_total now ds rs t : in_domains ds rs → total (dsn_rcpts now ds rs t).
Proof.
  intros Hin. revert t. induction Hin as [|r rs Hr Hrs IH]; intros t; cbn [dsn_rcpts]; [total|].
  apply total_bind; [by apply dsn_rcpt_total|total].
Qed.
Lemma next_notifies_total now m idx ds : total (next_notifies now m idx ds).
Proof. revert idx. induction ds as [|d ds IH]; intros idx; cbn [next_notifies]; unfold next_notify; total. Qed.
Hint Resolve next_notifies_total : total.
Lemma build_dsn_total m : in_domains (m_domains m) (m_recipients m) → total (build_dsn m).
Proof.
  intros Hin. unfold build_dsn. apply total_bind; [total|]. intros t.
  apply total_bind; [by apply dsn_rcpts_total|total].
Qed.
Lemma bounce_rcpts_some ds rs : in_domains ds rs → is_Some (mapM (bounce_rcpt ds) rs).
Proof.
  intros Hin. apply mapM_is_Some. eapply Forall_impl; [exact Hin|]. intros r [d Hd]. change (is_Some (bounce_rcpt ds r)). unfold bounce_rcpt.
  destruct (Smtp.has_flag _ _); [by eexists|]. destruct (rc_status r); try by eexists. rewrite Hd. by eexists.
Qed.
Lemma double_bounce_total m : in_domains (m_domains m) (m_recipients m) → total (handle_double_bounce m).
Proof.
  intros Hin. unfold handle_double_bounce. apply total_bind; [by apply total_or_panic, bounce_rcpts_some|total].
Qed.

Section queue.
Context (blake3 : list Z → list Z) (bincode_serialize : Message → list Z).
Context (bincode_deserialize : list Z → result Message).

Lemma queue_total m hdr raw : total (queue blake3 bincode_serialize m hdr raw).
Proof. unfold queue. total. Qed.
Lemma new_message_total rp rpl rpd : total (new_message rp rpl rpd).
Proof. unfold new_message. total. Qed.
Lemma add_recipient_parts_total m r rl rd : total (add_recipient_parts m r rl rd).
Proof. unfold add_recipient_parts. total. Qed.
Lemma save_changes_total m events : total (save_changes bincode_serialize m events).
Proof. unfold save_changes. total. Qed.
Lemma remove_total m due : total (remove m due).
Proof. unfold remove. total. Qed.
Hint Resolve queue_total new_message_total add_recipient_parts_total save_changes_total remove_total : total.
Lemma send_dsn_total m : message_ok m → total (send_dsn blake3 bincode_serialize m).
Proof.
  intros Hok%message_in_domains. unfold send_dsn. case_decide; [by apply double_bounce_total|].
  apply total_bind; [by apply build_dsn_total|total].
Qed.
Lemma hold_total m event limiters : total (hold bincode_serialize m event limiters).
Proof. unfold hold. total. Qed.
Hint Resolve hold_total : total.
Lemma throttle_message_total m event err : total (throttle_message bincode_serialize m event err).
Proof. unfold throttle_message. total. Qed.
Lemma finish_total m event on_hold : total (finish bincode_serialize m event on_hold).
Proof. unfold finish. total. Qed.
Hint Resolve throttle_message_total finish_total : total.
Lemma attempt_total m event : message_ok m → total (attempt blake3 bincode_serialize m event).
Proof.
  intros Hok. unfold attempt. apply total_bind; [total|]. intros [err|]; [total|].
  eapply total_bind_steady; [|apply attempt_domains_steady|].
  { apply deliver_domains_total, Forall_forall. intros i [_ Hi]%elem_of_seq. exact Hi. }
  intros [[m' rs] held] Hm. destruct Hm as [Hok' _]; [done|].
  apply total_bind; [by apply send_dsn_total|total].
Qed.
Lemma send_dsn_yields m : yields (send_dsn blake3 bincode_serialize m) (dsn_done m).
Proof.
  unfold send_dsn. case_decide; [by apply yields_steady, double_bounce_steady|].
  eapply yields_bind; [apply yields_steady, build_dsn_steady|]. intros [[dsn|] m'] Hd; [|by apply yields_ret].
  do 4 (eapply (yields_bind _ _ (λ _, True)); [done|]; intros ? _). by apply yields_ret.
Qed.
Lemma process_total m event : message_ok m → total (process blake3 bincode_serialize m event).
Proof.
  intros Hok. unfold process. apply total_bind; [total|]. intros t.
  destruct (has_pending_delivery t m) as [p m1] eqn:Hp.
  apply has_pending_spec in Hp as (Hok1 & _); [|done].
  eapply total_bind_yields; [by apply send_dsn_total|apply send_dsn_yields|].
  intros m2 Hd. destruct (dsn_done_ok _ _ Hok1 Hd) as [Hok2 _].
  destruct p; [|total]. do 2 (apply total_bind; [total|]; intros ?). case_match; [total|by apply attempt_total].
Qed.
End queue.
End attempt.
