(* ===== verification/SmtpQueueTheory.v ===== *)
(** * The queue as a whole

    The computations that write: [wp] follows them step by step.  [st] is the
    invariant of the queue: the store holds a queue in which every message has
    exactly one event and every event its message. *)

From stdpp Require Import base gmap sorting strings numbers list.
From S2P Require Import Prelude Codec Keys KeyTheory Roaring Kv KvModel Batch Commit CommitTheory Read Store Query Blob Smtp SmtpSpool SmtpDsn SmtpSession SmtpDelivery SmtpLogic SmtpStoreTheory SmtpPartyTheory SmtpSessionTheory SmtpDeliveryTheory.
Import Smtp Spool Dsn Session Delivery.
Open Scope Z_scope.
Open Scope queue_scope.

(** ** Following a computation *)

Section wp.
Context {DB BS : Type} {N : nat}.
Implicit Types (w : world DB BS).

(** What holds of the result ([None] after a panic) and the world, if the
    environment was asked at most [N] times: only so many ids are unique. *)
Definition wp {A} (p : Q DB BS A) w (Φ : option A → world DB BS → Prop) : Prop :=
  (w_step (p w).2 ≤ N)%nat → Φ (p w).1 (p w).2.

Lemma wp_ret {A} (a : A) w (Φ : option A → world DB BS → Prop) : Φ (Some a) w → wp (ret a) w Φ.
Proof. by intros HΦ _. Qed.
Lemma wp_bind {A B} (p : Q DB BS A) (f : A → Q DB BS B) w Φ :
  (∀ a, extending (f a)) →
  wp p w (λ o w', match o with Some a => wp (f a) w' Φ | None => Φ None w' end) →
  wp (bind p f) w Φ.
Proof.
  unfold wp, bind. intros Hf. destruct (p w) as [[a|] w']; cbn [fst snd]; [|auto].
  intros Hp Hle. apply Hp; [|done]. destruct (Hf a w') as [? _]. lia.
Qed.
Lemma wp_mono {A} (p : Q DB BS A) w (Φ Ψ : option A → world DB BS → Prop) :
  wp p w Φ → (∀ o w', Φ o w' → Ψ o w') → wp p w Ψ.
Proof. unfold wp. auto. Qed.
Lemma wp_steady {A} (p : Q DB BS A) P w (Φ : option A → world DB BS → Prop) :
  steady p P → (∀ o w', quiet w w' → (∀ a, o = Some a → P a) → Φ o w') → wp p w Φ.
Proof. intros Hp HΦ _. destruct (Hp w) as [Hq Ha]. by apply HΦ. Qed.
(** The environment always answers. *)
Lemma wp_ask `{Env} {X} (q : ask X) w (Φ : option X → world DB BS → Prop) :
  (∀ w', quiet w w' → Φ (Some (answer (w_step w) X q)) w') → wp (question q) w Φ.
Proof. intros HΦ _. apply HΦ, question_quiet. Qed.
Lemma wp_notify e w (Φ : option unit → world DB BS → Prop) :
  (∀ w', quiet w w' → Φ (Some tt) w') → wp (notify e) w Φ.
Proof.
  intros HΦ _. apply HΦ. split_and!; [done..|split; [cbn; lia|]]. eexists. split; [done|]. by constructor.
Qed.
Lemma wp_get_db w (Φ : option DB → world DB BS → Prop) : Φ (Some (w_db w)) w → wp get_db w Φ.
Proof. by intros HΦ _. Qed.
Lemma wp_get_blobs w (Φ : option BS → world DB BS → Prop) : Φ (Some (w_blobs w)) w → wp get_blobs w Φ.
Proof. by intros HΦ _. Qed.
Lemma wp_put_blobs bs w (Φ : option unit → world DB BS → Prop) :
  Φ (Some tt) (put_blobs bs w).2 → wp (put_blobs bs) w Φ.
Proof. by intros HΦ _. Qed.
Lemma wp_eq {A} (p : Q DB BS A) w (Φ : option A → world DB BS → Prop) :
  (∀ o w', p w = (o, w') → Φ o w') → wp p w Φ.
Proof. intros HΦ _. apply HΦ. by destruct (p w). Qed.
Lemma wp_run {A} (p : Q DB BS A) w Φ o w' :
  wp p w Φ → p w = (o, w') → (w_step w' ≤ N)%nat → Φ o w'.
Proof. unfold wp. intros HΦ Hp. by rewrite Hp in HΦ. Qed.
End wp.
Ltac wp_bind := apply wp_bind; [try solve [extending]|].

(** ** Changes of the queue *)

(** Other messages and their events. *)
Definition others_kept (id : Z) (q q' : queue_state) : Prop :=
  (∀ id' m, id' ≠ id → q_messages q !! id' = Some m → q_messages q' !! id' = Some m) ∧
  (∀ due id' lock, id' ≠ id → q_events q !! (due, id') = Some lock →
     q_events q' !! (due, id') = Some lock).
Lemma others_kept_refl id q : others_kept id q q.
Proof. by split. Qed.
Lemma others_kept_trans id q1 q2 q3 : others_kept id q1 q2 → others_kept id q2 q3 → others_kept id q1 q3.
Proof. intros [M1 E1] [M2 E2]. split; eauto. Qed.

Lemma queue_ok_lock due id l l' q :
  queue_ok q → q_events q !! (due, id) = Some l → uint_ok 64 l' → queue_ok (put_event due id l' q).
Proof.
  intros [Hm He Hs Ho] Hl Hl'. destruct (He _ _ _ Hl) as (Hd & _ & Hmsg).
  assert (∀ d i, is_Some (<[(due, id):=l']> (q_events q) !! (d, i)) → is_Some (q_events q !! (d, i))) as Hback.
  { intros d i [x [[[= <- <-] _]|[_ ?]]%lookup_insert_Some]; eauto. }
  split; cbn [q_messages q_events put_event].
  - done.
  - intros d i lock [[[= <- <-] <-]|[_ ?]]%lookup_insert_Some; eauto.
  - intros i Hi. destruct (Hs i Hi) as (d & Hd'). exists d. apply lookup_insert_is_Some'. auto.
  - intros d d' i X1%Hback X2%Hback. eauto.
Qed.

Lemma queue_ok_queued m due q :
  queue_ok q → message_ok m → uint_ok 64 due → q_messages q !! m_id m = None → queue_ok (queued m due q).
Proof.
  intros [Hm He Hs Ho] Hok Hd Hnew.
  assert (∀ d, q_events q !! (d, m_id m) = None) as Hnone.
  { intros d. destruct (q_events q !! (d, m_id m)) eqn:Hx; [|done].
    destruct (He _ _ _ Hx) as (_ & _ & [? Hy]). congruence. }
  split; cbn [q_messages q_events put_event put_message queued].
  - intros id m' [[<- <-]|[_ ?]]%lookup_insert_Some; [done|eauto].
  - intros d i lock [[[= <- <-] <-]|[_ Hx]]%lookup_insert_Some.
    + split_and!; [done|by split|]. rewrite lookup_insert_eq. eauto.
    + destruct (He _ _ _ Hx) as (? & ? & ?). split_and!; [done..|]. apply lookup_insert_is_Some'. auto.
  - intros i [[= <-]|Hi]%lookup_insert_is_Some'.
    + exists due. rewrite lookup_insert_eq. eauto.
    + destruct (Hs i Hi) as (d & Hd'). exists d. apply lookup_insert_is_Some'. auto.
  - intros d d' i X1%lookup_insert_is_Some' X2%lookup_insert_is_Some'.
    destruct X1 as [[= <- <-]|X1], X2 as [[= <-]|X2]; [done|..|eauto];
      [rewrite Hnone in X2; by destruct X2|]. subst. rewrite Hnone in X1. by destruct X1.
Qed.

(** A message that was there, saved. *)
Lemma queue_ok_saved m m0 events q :
  queue_ok q → message_ok m → q_messages q !! m_id m = Some m0 →
  (∀ prev next, events = Some (prev, next) → is_Some (q_events q !! (prev, m_id m)) ∧ uint_ok 64 next) →
  queue_ok (saved m events q).
Proof.
  intros [Hm He Hs Ho] Hok Hm0 Hev.
  assert (∀ id, is_Some (<[m_id m:=m]> (q_messages q) !! id) ↔ is_Some (q_messages q !! id)) as Hdom.
  { intros id. rewrite lookup_insert_is_Some'. split; [intros [<-|?]; eauto|auto]. }
  destruct events as [[prev next]|]; split; cbn [saved q_messages q_events put_event put_message drop_event].
  1,5: intros id m' [[<- <-]|[_ ?]]%lookup_insert_Some; [done|by eauto].
  - destruct (Hev prev next eq_refl) as [[l Hl] Hn].
    intros d i lock [[[= <- <-] <-]|[_ [_ Hx]%lookup_delete_Some]]%lookup_insert_Some; rewrite Hdom.
    + split_and!; [done|by split|eauto].
    + eauto.
  - intros i [m1 Hi]%Hdom. destruct (decide (i = m_id m)) as [->|Hne].
    + exists next. rewrite lookup_insert_eq. eauto.
    + destruct (Hs i (mk_is_Some _ _ Hi)) as (d & Hd'). exists d.
      rewrite lookup_insert_ne, lookup_delete_ne by (intros [=]; congruence). done.
  - destruct (Hev prev next eq_refl) as [Hl Hn].
    assert (∀ d, delete (prev, m_id m) (q_events q) !! (d, m_id m) = None) as Hnone.
    { intros d. apply lookup_delete_None. destruct (decide (d = prev)) as [->|Hne]; [by left|right].
      destruct (q_events q !! (d, m_id m)) eqn:Hx; [|done]. destruct Hne. by eapply Ho; [|exact Hl]. }
    assert (∀ d i, is_Some (delete (prev, m_id m) (q_events q) !! (d, i)) → is_Some (q_events q !! (d, i))) as Hback.
    { intros d i [x [_ ?]%lookup_delete_Some]. eauto. }
    intros d d' i X1%lookup_insert_is_Some' X2%lookup_insert_is_Some'.
    destruct X1 as [[= <- <-]|X1], X2 as [[= <-]|X2]; [done|..|eauto];
      [rewrite Hnone in X2; by destruct X2|]. subst. rewrite Hnone in X1. by destruct X1.
  - intros d i lock Hx. rewrite Hdom. eauto.
  - intros i Hi%Hdom. eauto.
  - eauto.
Qed.

Lemma queue_ok_removed m due q :
  queue_ok q → is_Some (q_events q !! (due, m_id m)) → queue_ok (removed m due q).
Proof.
  intros [Hm He Hs Ho] Hl.
  assert (∀ d i lock, delete (due, m_id m) (q_events q) !! (d, i) = Some lock →
    i ≠ m_id m ∧ q_events q !! (d, i) = Some lock) as Hback.
  { intros d i lock [Hne Hx]%lookup_delete_Some. split; [|done]. intros ->. destruct Hne.
    f_equal. by eapply Ho; [exact Hl|]. }
  split; cbn [removed q_messages q_events drop_message drop_event].
  - intros id m' [_ ?]%lookup_delete_Some. eauto.
  - intros d i lock [Hne Hx]%Hback. destruct (He _ _ _ Hx) as (? & ? & ?). by rewrite lookup_delete_ne.
  - intros i [x [Hne Hx]%lookup_delete_Some]. destruct (Hs i (mk_is_Some _ _ Hx)) as (d & Hd).
    exists d. by rewrite lookup_delete_ne by (intros [=]; congruence).
  - intros d d' i [x [_ X1]%Hback] [y [_ X2]%Hback]. eauto.
Qed.

Lemma others_kept_lock due id l q : others_kept id q (put_event due id l q).
Proof.
  split; [done|]. intros d i lock Hne Hx. cbn [put_event q_events].
  by rewrite lookup_insert_ne by (intros [=]; congruence).
Qed.
Lemma others_kept_queued m due id q :
  queue_ok q → q_messages q !! m_id m = None → others_kept id q (queued m due q).
Proof.
  intros Hq Hnew. split; cbn [queued put_message put_event q_messages q_events].
  - intros id' m' _ Hm. rewrite lookup_insert_ne; [done|congruence].
  - intros d i lock _ Hx. rewrite lookup_insert_ne; [done|]. intros [= <- <-].
    destruct (qk_event q Hq _ _ _ Hx) as (_ & _ & [? ?]). congruence.
Qed.
Lemma others_kept_saved m events q : others_kept (m_id m) q (saved m events q).
Proof.
  split; cbn [saved put_message q_messages q_events].
  - intros id' m' Hne Hm. rewrite lookup_insert_ne by done. by destruct events as [[? ?]|].
  - intros d i lock Hne Hx. destruct events as [[prev next]|]; [|done]. cbn [put_event drop_event q_events].
    by rewrite lookup_insert_ne, lookup_delete_ne by (intros [=]; congruence).
Qed.
Lemma others_kept_removed m due q : others_kept (m_id m) q (removed m due q).
Proof.
  split; cbn [removed drop_message drop_event q_messages q_events].
  - intros id' m' Hne Hm. by rewrite lookup_delete_ne.
  - intros d i lock Hne Hx. by rewrite lookup_delete_ne by (intros [=]; congruence).
Qed.

(** ** The invariant *)

Section queue.
Context {DB Txn BS : Type} `{StoreWriteLaws DB Txn} `{BlobStore BS} `{EnvOk} `{SmtpProto}.
Context `{QueueConfig} (N : nat).
Context (blake3 : list Z → list Z) (bincode_serialize : Message → list Z).
Context (bincode_deserialize : list Z → result Message).
Hypothesis blake3_length : ∀ l, length (blake3 l) = BLOB_HASH_LEN.
Hypothesis bincode_roundtrip : ∀ m, bincode_deserialize (bincode_serialize m) = Ok m.
Implicit Types (w : world DB BS).
Local Abbreviation steady := (steady (DB:=DB) (BS:=BS)).
Local Abbreviation wp := (wp (N:=N)).
Local Abbreviation holds := (holds bincode_serialize).

(** The id that is made at step [n]. *)
Definition new_id (n : nat) : Z := default 0 (answer n _ AskId).
(** The generator's ids are new, up to step [N]. *)
Definition ids_fresh (n0 : nat) (q : queue_state) : Prop :=
  (∀ n, (n0 ≤ n < N)%nat → q_messages q !! new_id n = None) ∧
  (∀ n k, (n0 ≤ n < k)%nat → (k < N)%nat → new_id n ≠ new_id k).

Lemma new_id_ok n : uint_ok 64 (new_id n).
Proof.
  unfold new_id. by destruct (env_id n) as (id & -> & Hid).
Qed.
Lemma ids_fresh_later n0 n1 q : ids_fresh n0 q → (n0 ≤ n1)%nat → ids_fresh n1 q.
Proof. intros [H1' H2'] Hle. split; [intros; apply H1'; lia|intros; apply H2'; lia]. Qed.
Lemma ids_fresh_dom n0 q q' :
  ids_fresh n0 q → (∀ id, is_Some (q_messages q' !! id) → is_Some (q_messages q !! id)) → ids_fresh n0 q'.
Proof.
  intros [H1' H2'] Hd. split; [|done]. intros n Hn. specialize (H1' n Hn).
  destruct (q_messages q' !! new_id n) eqn:Hx; [|done].
  destruct (Hd (new_id n)) as [? ?]; [by rewrite Hx|congruence].
Qed.

Definition st (b : Z) (q : queue_state) w : Prop :=
  holds b q w ∧ queue_ok q ∧ ids_fresh (w_step w) q.

Lemma st_quiet b q w w' : st b q w → quiet w w' → st b q w'.
Proof.
  intros (Hh & Hq & Hf) Hqu. split_and!; [by eapply holds_quiet|done|].
  eapply ids_fresh_later; [done|]. by destruct Hqu as (_ & _ & ? & _).
Qed.

(** ** [new_message] and [add_recipient_parts] *)

Lemma wp_new_message rp rpl rpd w (Φ : option Message → world DB BS → Prop) :
  (∀ m w' n, quiet w w' → (w_step w ≤ n < w_step w')%nat → (n < N)%nat → m_id m = new_id n →
     m_domains m = [] → m_recipients m = [] → m_quota_keys m = [] → m_return_path m = rp → Φ (Some m) w') →
  wp (new_message rp rpl rpd) w Φ.
Proof.
  intros HΦ Hle. unfold new_message, bind, now, question, ret in *. cbn [fst snd w_step] in *.
  destruct (env_id (S (w_step w))) as (id & Hid & _).
  apply (HΦ _ _ (S (w_step w))); try done; [|cbn; lia..|by rewrite Hid; unfold new_id; rewrite Hid].
  split_and!; [done..|split; [cbn; lia|]]. eexists [_; _]. cbn [w_sent].
  rewrite <-!app_assoc. split; [done|]. by repeat constructor.
Qed.

(** A message with one recipient, in its only domain. *)
Definition addressed (m : Message) (rcpt : list Z) (m' : Message) : Prop :=
  header m = header m' ∧ m_quota_keys m' = m_quota_keys m ∧
  parties_ok (m_domains m') (m_recipients m') ∧ rc_address <$> m_recipients m' = [rcpt].
Lemma add_recipient_steady m rcpt rcpt_lcase rcpt_domain :
  m_domains m = [] → m_recipients m = [] →
  steady (add_recipient_parts m rcpt rcpt_lcase rcpt_domain) (addressed m rcpt).
Proof.
  intros Hd Hr. unfold add_recipient_parts. rewrite Hd, Hr. cbn [domain_position list_find fmap option_fmap option_map app].
  eapply steady_bind; [apply (steady_now (uint_ok 64)), env_now|]. intros t1 Ht1.
  eapply steady_bind; [apply (steady_now (uint_ok 64)), env_now|]. intros t2 Ht2.
  eapply steady_bind; [apply asked|]. intros expires _.
  do 2 (eapply steady_bind; [by apply (steady_now (λ _, True))|]; intros ? _).
  apply steady_ret. split_and!; [done..| |done]. cbn [set_parties m_domains m_recipients]. split.
  - constructor; [|done]. split_and!; [done|apply u64_add_ok..].
  - intros r ->%list_elem_of_singleton. eexists. split; [done|]. done.
Qed.

(** ** [queue] *)

Lemma queued_ok m due :
  message_ok m → due = 0 ∨ waits_for m due → uint_ok 64 due.
Proof. intros Hok [->|Hw]; [by split|]. eapply waits_for_ok; [apply Hok|done]. Qed.
Lemma next_event_default now m : default 0 (next_event now m) = 0 ∨ waits_for m (default 0 (next_event now m)).
Proof. destruct (next_event now m) eqn:Hn; [right; by eapply next_event_waits|by left]. Qed.

Lemma ids_fresh_queued n m due q :
  ids_fresh n q → (∀ k, (n ≤ k < N)%nat → new_id k ≠ m_id m) → ids_fresh n (queued m due q).
Proof.
  intros [H1' H2'] Hids. split; [|done]. intros k Hk. cbn [queued put_message q_messages].
  rewrite lookup_insert_ne; [by apply H1'|]. intros Hx. by eapply Hids.
Qed.

(** A batch whose effect on the queue is known. *)
Lemma wp_write b q q' bt w (Φ : option (result unit) → world DB BS → Prop) :
  holds b q w → Forall spool_op (b_ops bt) → Z.of_nat (length (b_ops bt)) ≤ 10 ^ 6 →
  (∀ m', run_ops store_hash (b_ops bt) (db_map (w_db w)) = Some m' → represents bincode_serialize q' m') →
  (∀ e, Φ (Some (Err e)) w) →
  (∀ w', holds b q' w' → stays w w' → w_step w' = w_step w → Φ (Some (Ok tt)) w') →
  wp (write_batch bt) w Φ.
Proof.
  intros Hh Hops Hlen Hrun He Ho. apply wp_eq. intros o w' Hw.
  eapply (write_holds bincode_serialize b q q') in Hw as (_ & Hs & Hse & [(e & -> & ->)|(-> & Hh' & _)]);
    [apply He| |done..]. apply Ho; [done|by apply same_stays|done].
Qed.

(** The reservation is not an entry of the queue. *)
Lemma wp_reserve b q m until w (Φ : option (result unit) → world DB BS → Prop) :
  holds b q w → message_ok m → uint_ok 64 until →
  (∀ r w', holds b q w' → stays w w' → w_step w' = w_step w → Φ (Some r) w') →
  wp (write_batch (set (Blob (Reserve (m_blob_hash m) until)) (ValueStatic (to_be_bytes 4 0)) builder_new)) w Φ.
Proof.
  intros Hh Hok Hu HΦ. pose proof (mk_hash m Hok) as Hlen. eapply (wp_write b q q); [done| | | | |].
  - apply Forall_singleton. by split.
  - cbn. lia.
  - intros m'. cbn [set b_push builder_new b_ops app run_ops run_op mbind option_bind].
    intros [= <-]. apply represents_reserve; [apply Hh|done].
  - intros e. apply HΦ; [done|apply stays_refl|done].
  - intros w' Hh' He Hs. by apply HΦ.
Qed.

Lemma queue_batch_spool m due until :
  message_ok m → uint_ok 64 due → uint_ok 64 until →
  Forall spool_op (b_ops (queue_batch bincode_serialize m due until)).
Proof.
  intros [Hid Hlen _ _ _] Hd Hu. rewrite queue_batch_ops. apply Forall_app. split; [|spool_ops].
  apply quota_spool_ops. intros. apply quota_amount_ok.
Qed.
Lemma wp_queue b q m hdr raw w :
  st b q w → message_ok (with_content blake3 m hdr raw) →
  q_messages q !! m_id m = None → (∀ n, (w_step w ≤ n < N)%nat → new_id n ≠ m_id m) →
  wp (queue blake3 bincode_serialize m hdr raw) w (λ o w',
    stays w w' ∧
    ∃ r q', o = Some r ∧ st b q' w' ∧
      if r then ∃ due, uint_ok 64 due ∧ q' = queued (with_content blake3 m hdr raw) due q else q' = q).
Proof.
  intros (Hh & Hq & Hf) Hok Hnew Hids. unfold queue. fold (with_content blake3 m hdr raw).
  change (m_id m) with (m_id (with_content blake3 m hdr raw)) in *.
  set (m1 := with_content blake3 m hdr raw) in *.
  wp_bind; apply wp_ask. intros w1 Hq1. wp_bind.
  eapply wp_reserve; [by eapply holds_quiet|done|apply u64_add_ok|]. intros r w2 Hh2 He2 Hs2.
  assert (stays w w2) as He by (eapply stays_trans; [by apply quiet_stays|done]).
  assert (∀ w', holds b q w' → stays w w' → st b q w') as Hkeep.
  { intros w' Hh' [Hle _]. split_and!; [done..|]. by eapply ids_fresh_later. }
  assert (∀ w', holds b q w' → stays w w' → stays w w' ∧ ∃ r q', Some false = Some r ∧ st b q' w' ∧
    if r then ∃ due, uint_ok 64 due ∧ q' = queued m1 due q else q' = q) as Hfail.
  { intros w' Hh' He'. split; [done|]. exists false, q. eauto. }
  destruct r as [[]|e]; [|by apply wp_ret, Hfail].
  wp_bind. apply wp_get_blobs.
  destruct (put_blob _ _ _) as [blobs|e]; [|by apply wp_ret, Hfail].
  wp_bind. apply wp_put_blobs. set (w3 := (put_blobs blobs w2).2).
  assert (holds b q w3) as Hh3 by exact Hh2. assert (stays w w3) as He3 by exact He.
  wp_bind; apply wp_ask. intros w4 Hq4. set (t := answer _ _ AskNow). wp_bind.
  assert (holds b q w4) as Hh4 by by eapply holds_quiet.
  assert (stays w w4) as He4 by (eapply stays_trans; [|by apply quiet_stays]; done).
  set (due := default 0 (next_event t m1)).
  assert (uint_ok 64 due) as Hdue by (eapply queued_ok, next_event_default; done).
  eapply (wp_write b q (queued m1 due q)); [done| | | | |].
  - apply queue_batch_spool; [done..|apply u64_add_ok].
  - rewrite queue_batch_ops, length_app, length_fmap. cbn [length]. pose proof (mk_quotas _ Hok). lia.
  - intros m'. apply represents_queued; [apply Hh4|apply Hok|done|apply Hok].
  - intros e. by apply wp_ret, Hfail.
  - intros w5 Hh5 He5 Hs5. wp_bind; apply wp_notify. intros w6 Hq6. apply wp_ret.
    assert (stays w w6) as He6.
    { eapply stays_trans; [exact He4|]. eapply stays_trans; [done|by apply quiet_stays]. }
    split; [done|]. exists true, (queued m1 due q). split_and!; [done| |eauto].
    split_and!; [by eapply holds_quiet|by apply queue_ok_queued|].
    apply ids_fresh_queued; [by eapply ids_fresh_later, He6|]. intros k Hk. apply Hids.
    destruct He6 as [? _]. lia.
Qed.

(** ** [send_dsn] *)

(** A notification goes to the sender, and nothing is sent back to it. *)
Definition is_report (m report : Message) : Prop :=
  m_return_path m ≠ [] ∧ m_return_path report = [] ∧
  rc_address <$> m_recipients report = [m_return_path m].

(** What an attempt at [m] may do to the rest of the queue. *)
Definition touches (m : Message) (q q' : queue_state) : Prop :=
  others_kept (m_id m) q q' ∧
  ∀ id m', id ≠ m_id m → q_messages q' !! id = Some m' →
    q_messages q !! id = Some m' ∨ is_report m m'.
Lemma touches_refl m q : touches m q q.
Proof. split; [apply others_kept_refl|auto]. Qed.
Lemma touches_trans m q1 q2 q3 : touches m q1 q2 → touches m q2 q3 → touches m q1 q3.
Proof.
  intros [K1 N1] [K2 N2]. split; [by eapply others_kept_trans|]. intros id m' Hne Hm.
  destruct (N2 id m' Hne Hm) as [?|?]; auto.
Qed.
Lemma touches_lock m due l q : touches m q (put_event due (m_id m) l q).
Proof. split; [apply others_kept_lock|auto]. Qed.
Lemma touches_saved m m' events q : m_id m' = m_id m → touches m q (saved m' events q).
Proof.
  intros Hid. split; [rewrite <-Hid; apply others_kept_saved|]. intros id m'' Hne.
  cbn [saved put_message q_messages]. rewrite lookup_insert_ne by congruence. by destruct events as [[? ?]|]; left.
Qed.
Lemma touches_removed m m' due q : m_id m' = m_id m → touches m q (removed m' due q).
Proof.
  intros Hid. split; [rewrite <-Hid; apply others_kept_removed|]. intros id m'' Hne.
  cbn [removed drop_message drop_event q_messages]. rewrite lookup_delete_ne by congruence. by left.
Qed.

(** The queue with a report more, if any. *)
Definition reported (m : Message) (q q' : queue_state) : Prop :=
  q' = q ∨ ∃ report due, is_report m report ∧ q_messages q !! m_id report = None ∧ q' = queued report due q.
Lemma reported_touches m m0 q q' :
  queue_ok q → m_return_path m = m_return_path m0 → reported m q q' → touches m0 q q'.
Proof.
  intros Hq Hrp [->|(report & due & Hr & Hnew & ->)]; [apply touches_refl|].
  split; [by apply others_kept_queued|]. intros id m'. cbn [queued put_message put_event q_messages].
  intros _ [[_ <-]|[_ ?]]%lookup_insert_Some; [right|by left]. unfold is_report in *. by rewrite <-Hrp.
Qed.
Lemma reported_keeps m q q' id m' due lock :
  reported m q q' → q_messages q !! id = Some m' → q_events q !! (due, id) = Some lock →
  q_messages q' !! id = Some m' ∧ q_events q' !! (due, id) = Some lock.
Proof.
  intros [->|(report & due' & Hr & Hnew & ->)] Hm He; [done|].
  cbn [queued put_message put_event q_messages q_events].
  assert (id ≠ m_id report) by congruence. by rewrite !lookup_insert_ne by congruence.
Qed.

Lemma wp_send_dsn b q m w :
  st b q w → message_ok m →
  wp (send_dsn blake3 bincode_serialize m) w (λ o w',
    stays w w' ∧ (∀ m', o = Some m' → dsn_done m m') ∧ ∃ q', st b q' w' ∧ reported m q q').
Proof.
  intros Hst Hok. unfold send_dsn.
  assert (∀ o w', quiet w w' → (∀ m', o = Some m' → dsn_done m m') →
    stays w w' ∧ (∀ m', o = Some m' → dsn_done m m') ∧ ∃ q', st b q' w' ∧ reported m q q') as Hnone.
  { intros o w' Hqu Hm. split_and!; [by apply quiet_stays|done|]. exists q.
    split; [by eapply st_quiet|by left]. }
  case_decide as Hrp; [by eapply wp_steady; [apply double_bounce_steady|]|].
  wp_bind. eapply wp_steady; [apply build_dsn_steady|]. intros [[dsn m1]|] w1 Hq1 Hdone; [|by apply Hnone].
  specialize (Hdone _ eq_refl). cbn [snd] in Hdone.
  destruct dsn as [dsn|]; [|apply wp_ret, Hnone; [done|by intros ? [= <-]]].
  assert (header m = header m1) as Hh by apply Hdone. assert (m_return_path m1 = m_return_path m) as Hrp1.
  { by apply header_fields in Hh as (_ & _ & -> & _). }
  wp_bind; apply wp_new_message. intros r0 w2 k Hq2 Hlt HN Hid Hds Hrs Hks Hrp0.
  assert (quiet w w2) as Hqu2 by by eapply quiet_trans.
  wp_bind. eapply wp_steady; [by apply add_recipient_steady|]. intros [r1|] w3 Hq3 Hadr.
  2: { apply Hnone; [by eapply quiet_trans|done]. }
  destruct (Hadr r1 eq_refl) as (Hh1 & Hk1 & Hp1 & Ha1).
  assert (quiet w w3) as Hqu3 by by eapply quiet_trans.
  wp_bind; apply wp_ask. intros w4 Hq4. set (sig := answer _ _ _).
  assert (quiet w w4) as Hqu4 by by eapply quiet_trans.
  pose proof (st_quiet _ _ _ _ Hst Hqu4) as Hst4.
  apply header_fields in Hh1 as (Hid1 & _ & Hrp1' & _).
  assert (m_id r1 = new_id k) as Hid' by congruence.
  assert (w_step w ≤ k ∧ k < w_step w4)%nat as [Hs1 Hs4].
  { destruct Hq1 as (_ & _ & ? & _), Hq3 as (_ & _ & ? & _), Hq4 as (_ & _ & ? & _). lia. }
  assert (message_ok (with_content blake3 r1 sig dsn)) as Hokr.
  { split; cbn; [rewrite Hid'; apply new_id_ok|apply blake3_length|rewrite Hk1, Hks; cbn; lia|apply Hp1..]. }
  assert (q_messages q !! m_id r1 = None) as Hnew.
  { rewrite Hid'. destruct Hst as (_ & _ & [Hf _]). by apply Hf. }
  wp_bind. eapply wp_mono; [apply (wp_queue b q); [done..|]|].
  { intros n Hn. rewrite Hid'. intros Hx. destruct Hst as (_ & _ & [_ Hf]).
    apply (Hf k n); [lia..|done]. }
  intros o w5 (He5 & res & q' & -> & Hst5 & Hres). apply wp_ret.
  split_and!; [by eapply stays_trans; [apply quiet_stays|]|by intros ? [= <-]|].
  exists q'. split; [done|]. destruct res; [|by left]. destruct Hres as (due & _ & ->). right.
  exists (with_content blake3 r1 sig dsn), due. split_and!; [|done..].
  split_and!; [done|cbn; congruence|]. cbn. by rewrite Ha1, Hrp1.
Qed.

(** ** One attempt *)

(** How an attempt at [m] ends, and what left the queue: the message is still
    locked; it waits for one of its times, or until a throttle lets it
    through; or it left, with every recipient settled. *)
Inductive outcome (m : Message) (due lock : Z) (q : queue_state) : list Message → Prop :=
  | outcome_held m' :
      evolves m m' → q_messages q !! m_id m = Some m' → q_events q !! (due, m_id m) = Some lock →
      outcome m due lock q []
  | outcome_rescheduled m' due' :
      evolves m m' → q_messages q !! m_id m = Some m' → q_events q !! (due', m_id m) = Some 0 →
      (waits_for m' due' ∨
       ∃ n t m1 retry_at, answer n _ (AskAllowed t m1 None) = Some (Rate retry_at) ∧ due' ≤ retry_at) →
      outcome m due lock q []
  | outcome_removed m' :
      evolves m m' → q_messages q !! m_id m = None → Forall (settled (m_domains m')) (m_recipients m') →
      outcome m due lock q [m'].

Section attempt.
Context (b : Z) (m0 : Message) (event : QueueEventLock) (lock : Z) (q0 : queue_state) (w0 : world DB BS).
Let due := l_due event.

(** While the attempt runs, the queue has the message as it was read. *)
Definition mid (m : Message) w : Prop :=
  stays w0 w ∧ message_ok m ∧ evolves m0 m ∧
  ∃ q, st b q w ∧ touches m0 q0 q ∧ q_messages q !! m_id m0 = Some m0 ∧
    q_events q !! (due, m_id m0) = Some lock.
Definition post {A} (o : option A) w : Prop :=
  ∃ q left, st b q w ∧ touches m0 q0 q ∧ outcome m0 due lock q left ∧
    departed w = departed w0 ++ left.

Lemma mid_post m w {A} (o : option A) : mid m w → post o w.
Proof.
  intros (He & _ & _ & q & Hst & Ht & Hm & Hev). exists q, []. split_and!; [done..| |].
  - eapply outcome_held; [apply evolves_refl|done..].
  - by rewrite app_nil_r, (stays_departed _ _ He).
Qed.
Lemma mid_quiet m w w' : mid m w → quiet w w' → mid m w'.
Proof.
  intros (He & Hok & Hev & q & Hst & Hr) Hqu.
  split_and!; [eapply stays_trans; [done|by apply quiet_stays]|done..|].
  exists q. split; [by eapply st_quiet|done].
Qed.
Lemma mid_change m m' w : mid m w → message_ok m' → evolves m m' → mid m' w.
Proof. intros (He & Hok & Hev & Hr) Hok' Hev'. split_and!; [done..|by eapply evolves_trans|done]. Qed.
Lemma post_quiet {A B} (o : option A) (o' : option B) w w' : post o w → quiet w w' → post o' w'.
Proof.
  intros (q & left & Hst & Ht & Ho & Hl) Hqu. exists q, left. split_and!; [by eapply st_quiet|done..|].
  by rewrite (stays_departed _ _ (quiet_stays _ _ Hqu)).
Qed.
Lemma mid_id m w : mid m w → m_id m = m_id m0.
Proof. intros (_ & _ & (Hh & _) & _). by apply header_fields in Hh as (-> & _). Qed.

(** Steps that leave the queue alone. *)
Lemma mid_steady {A} (p : Q DB BS A) P m w (Φ : option A → world DB BS → Prop) :
  mid m w → steady p P → (∀ w', mid m w' → Φ None w') → (∀ a w', P a → mid m w' → Φ (Some a) w') →
  wp p w Φ.
Proof.
  intros Hmid Hp HN HS. eapply wp_steady; [done|]. intros [a|] w' Hqu Ha.
  - apply HS; [by apply Ha|by eapply mid_quiet].
  - apply HN. by eapply mid_quiet.
Qed.
Lemma mid_ask {X} (a : ask X) m w (Φ : option X → world DB BS → Prop) :
  mid m w → (∀ n w', mid m w' → Φ (Some (answer n X a)) w') → wp (question a) w Φ.
Proof. intros Hmid HS. apply wp_ask. intros w' Hqu. by eapply HS, mid_quiet. Qed.

Lemma mid_send_dsn m w :
  mid m w →
  wp (send_dsn blake3 bincode_serialize m) w (λ o w',
    match o with Some m' => dsn_done m m' ∧ mid m' w' | None => post (A:=unit) None w' end).
Proof.
  intros (He & Hok & Hev & q & Hst & Ht & Hm & Hl). eapply wp_mono; [by apply (wp_send_dsn b q)|].
  intros o w' (He' & Hd & q' & Hst' & Hrep).
  destruct (reported_keeps _ _ _ _ _ _ _ Hrep Hm Hl) as [Hm' Hl'].
  assert (m_return_path m = m_return_path m0) as Hrp.
  { destruct Hev as [Hh _]. by apply header_fields in Hh as (_ & _ & -> & _). }
  assert (touches m0 q0 q') as Ht'.
  { eapply touches_trans; [done|]. eapply reported_touches; [|done..]. apply Hst. }
  assert (stays w0 w') by by eapply stays_trans.
  destruct o as [m'|]; [|apply (mid_post m); split_and!; eauto 10].
  specialize (Hd m' eq_refl). destruct (dsn_done_ok _ _ Hok Hd) as [Hok' Hev'].
  split; [done|]. split_and!; [done..|by eapply evolves_trans|eauto 10].
Qed.

(** The message as it is saved. *)
Lemma released_ok m : message_ok m → let m' := (release_quota m builder_new).1 in
  message_ok m' ∧ evolves m m' ∧ m_domains m' = m_domains m.
Proof.
  intros Hok. destruct (release_quota_parties m builder_new) as (Hd & Hr & Hid & Hh & Hk).
  destruct (release_quota_same m builder_new) as (Hhd & _). cbn zeta in *. split_and!; [| |done].
  - destruct Hok as [Hi Hl Hq Hdo Hro]. split; rewrite ?Hid, ?Hh, ?Hd, ?Hr; try done. lia.
  - split_and!; [done|by rewrite Hd|rewrite Hr; apply Forall2_advances_refl].
Qed.

(** When an event of [m] may be put. *)
Definition next_ok (m : Message) (next : Z) : Prop :=
  uint_ok 64 next ∧
  (waits_for m next ∨
   ∃ n t m1 retry_at, answer n _ (AskAllowed t m1 None) = Some (Rate retry_at) ∧ next ≤ retry_at).

Lemma mid_save m events w :
  mid m w → (∀ prev next, events = Some (prev, next) → prev = due ∧ next_ok m next) →
  wp (save_changes bincode_serialize m events) w (λ o w', o ≠ None ∧ post o w').
Proof.
  intros Hmid Hev. pose proof (mid_id _ _ Hmid) as Hid. pose proof Hmid as (He & Hok & Hevo & q & Hst & Ht & Hm & Hl).
  pose proof Hst as (Hh & Hq & Hf). destruct (qk_event q Hq _ _ _ Hl) as (Hdue & Hlk & _).
  apply wp_eq. intros o w' Hs. eapply (save_changes_spec bincode_serialize b q m m0) in Hs as (He' & _ & Hs);
    [|done|by rewrite Hid| |apply Hok..|].
  2: { destruct Hevo as [Hx _]. by apply header_fields in Hx as (_ & -> & _). }
  2: { intros prev next Hpn. by destruct (Hev _ _ Hpn) as [-> [? _]]. }
  destruct Hs as [[-> ->]|[-> Hh']]; (split; [done|]); [by eapply mid_post|].
  destruct (released_ok m Hok) as (Hok' & Hevo' & Hdom). set (m' := (release_quota m builder_new).1) in *.
  assert (m_id m' = m_id m0) as Hid'.
  { rewrite <-Hid. destruct Hevo' as [Hx _]. by apply header_fields in Hx as (-> & _). }
  assert (evolves m0 m') as Hevo0 by by eapply evolves_trans.
  exists (saved m' events q), []. split_and!.
  - split_and!; [done| |].
    + eapply queue_ok_saved; [done..|by rewrite Hid'|]. intros prev next Hpn.
      destruct (Hev _ _ Hpn) as [-> [? _]]. rewrite Hid'. eauto.
    + eapply ids_fresh_dom; [eapply ids_fresh_later; [done|apply He']|]. intros id.
      cbn [saved put_message q_messages].
      intros [<-|Hx]%lookup_insert_is_Some'; [rewrite Hid'; eauto|by destruct events as [[? ?]|]].
  - eapply touches_trans; [done|by apply touches_saved].
  - assert (q_messages (saved m' events q) !! m_id m0 = Some m') as Hm'.
    { rewrite <-Hid'. cbn [saved put_message q_messages]. by rewrite lookup_insert_eq. }
    destruct events as [[prev next]|]; [|by eapply outcome_held].
    destruct (Hev _ _ eq_refl) as [-> [_ Hn]]. eapply (outcome_rescheduled _ _ _ _ m' next); [done..| |].
    + cbn [saved put_message put_event drop_event q_events]. by rewrite Hid', lookup_insert_eq.
    + destruct Hn as [Hn|Hn]; [left|by right]. unfold waits_for in *. by rewrite Hdom.
  - rewrite app_nil_r, (stays_departed _ _ He'). by apply stays_departed.
Qed.

(** The message left the queue. *)
Definition gone w : Prop :=
  ∃ q m, st b q w ∧ touches m0 q0 q ∧ evolves m0 m ∧ q_messages q !! m_id m0 = None ∧
    Forall (settled (m_domains m)) (m_recipients m) ∧ departed w = departed w0 ++ [m].
Lemma mid_removes m w :
  mid m w → Forall (settled (m_domains m)) (m_recipients m) →
  wp (remove m due) w (λ o w', o = Some false ∧ w' = w ∨ o = Some true ∧ gone w').
Proof.
  intros Hmid Hset. pose proof (mid_id _ _ Hmid) as Hid. pose proof Hmid as (He & Hok & Hevo & q & Hst & Ht & Hm & Hl).
  pose proof Hst as (Hh & Hq & Hf). destruct (qk_event q Hq _ _ _ Hl) as (Hdue & Hlk & _).
  apply wp_eq. intros o w' Hs. eapply (spool_remove_spec bincode_serialize b q m) in Hs as (He' & _ & Hs); [|done..].
  destruct Hs as [[-> ->]|(-> & Hh' & Hleft)]; [by left|right]. split; [done|].
  exists (removed m due q), m. split_and!; [|..|done|by rewrite Hleft, (stays_departed _ _ He)].
  - split_and!; [done| |].
    + apply queue_ok_removed; [done|]. rewrite Hid. eauto.
    + eapply ids_fresh_dom; [eapply ids_fresh_later; [done|by rewrite He']|]. intros id.
      cbn [removed drop_message drop_event q_messages]. intros [x [_ Hx]%lookup_delete_Some]. eauto.
  - eapply touches_trans; [done|by apply touches_removed].
  - done.
  - cbn [removed drop_message q_messages]. rewrite Hid. apply lookup_delete_eq.
Qed.
Lemma mid_remove m w :
  mid m w → Forall (settled (m_domains m)) (m_recipients m) →
  wp (remove m due) w (λ o w', o ≠ None ∧ post o w').
Proof.
  intros Hmid Hset. eapply wp_mono; [by apply mid_removes|].
  intros o w' [[-> ->]|[-> (q & m' & Hst & Ht & Hev & Hm & Hs & Hl)]]; (split; [done|]); [by eapply mid_post|].
  exists q, [m']. split_and!; [done..|by eapply outcome_removed|done].
Qed.

(** After a write, the manager is told. *)
Lemma post_notify {A} (p : Q DB BS A) e w :
  wp p w (λ o w', o ≠ None ∧ post o w') → wp (p;; notify e) w post.
Proof.
  intros Hp. wp_bind. eapply wp_mono; [exact Hp|]. intros [a|] w' [Hn Hpost]; [|done].
  apply wp_notify. intros w'' Hqu. by eapply post_quiet.
Qed.

Lemma wp_hold m limiters w : mid m w → wp (hold bincode_serialize m event limiters) w post.
Proof.
  intros Hmid. unfold hold. wp_bind. eapply mid_ask; [done|]. intros n w1 Hm1.
  apply post_notify. by apply mid_save.
Qed.

Lemma wp_throttle_message m err w :
  mid m w → (∃ n t, answer n _ (AskAllowed t m None) = Some err) →
  wp (throttle_message bincode_serialize m event err) w post.
Proof.
  intros Hmid (n & t & Herr). destruct err as [limiter|retry_at]; cbn [throttle_message].
  { by apply wp_hold. }
  wp_bind. eapply mid_ask; [done|]. intros k w1 Hm1. apply post_notify.
  apply mid_save; [done|]. intros prev next [= <- <-]. split; [done|]. pose proof (env_rate _ _ _ _ _ Herr) as Hr.
  destruct (next_event_after _ m) as [x|] eqn:Hx; cbn [default from_option id].
  - apply next_event_after_waits in Hx as [Hw _].
    assert (uint_ok 64 x) by (eapply waits_for_ok; [apply Hmid|done]). split; [unfold uint_ok in *; lia|].
    right. exists n, t, m, retry_at. split; [done|lia].
  - split; [unfold uint_ok, U64_MAX in *; lia|]. right. exists n, t, m, retry_at. split; [done|lia].
Qed.

Lemma wp_finish m m1 on_hold w :
  message_ok m1 → dsn_done m1 m → mid m w → wp (finish bincode_serialize m event on_hold) w post.
Proof.
  intros Hok1 Hd Hmid. unfold finish. case_decide; [|by apply wp_hold].
  wp_bind. eapply mid_ask; [done|]. intros n w1 Hm1. destruct (next_event _ m) as [t|] eqn:Hn.
  - apply post_notify, mid_save; [done|]. intros prev next [= <- <-]. split; [done|].
    apply next_event_waits in Hn. split; [|by left]. eapply waits_for_ok; [apply Hmid|done].
  - apply post_notify, mid_remove; [done|]. eapply dsn_done_settled; [done..|]. intros d (i & Hi)%list_elem_of_lookup.
    destruct Hd as (_ & _ & Hdo & _). destruct (Forall2_lookup_l _ _ _ _ _ Hdo Hi) as (d' & Hd' & _ & <- & _).
    eapply next_event_none; [done|]. by eapply list_elem_of_lookup_2.
Qed.

Lemma wp_attempt m w : mid m w → wp (attempt blake3 bincode_serialize m event) w post.
Proof.
  intros Hmid. unfold attempt. wp_bind. eapply mid_steady; [done|apply is_allowed_answer| |].
  { intros w1 Hm1. by eapply mid_post. }
  intros [err|] w1 Herr Hm1; [by apply wp_throttle_message; [|apply Herr]|].
  wp_bind. eapply mid_steady; [done|apply attempt_domains_steady| |].
  { intros w2 Hm2. by eapply mid_post. }
  intros [[m1 rs] held] w2 Hdone Hm2. cbn [fst snd] in *.
  destruct Hdone as [Hok1 Hev1]; [apply Hm1|].
  wp_bind. eapply wp_mono; [apply mid_send_dsn; by eapply mid_change|].
  intros [m2|] w3; [|by intros Hp]. intros [Hd Hm3]. by eapply wp_finish.
Qed.

Lemma wp_process m w : mid m w → wp (process blake3 bincode_serialize m event) w post.
Proof.
  intros Hmid. unfold process. wp_bind. eapply mid_ask; [done|]. intros n w1 Hm1.
  destruct (has_pending_delivery _ m) as [p m1] eqn:Hp.
  apply has_pending_spec in Hp as (Hok1 & Hev1 & Hact & _); [|apply Hm1].
  wp_bind. eapply wp_mono; [apply mid_send_dsn; by eapply mid_change|].
  intros [m2|] w2; [|by intros Hx]. intros [Hd Hm2].
  assert (∀ i d d', m_domains m1 !! i = Some d → m_domains m2 !! i = Some d' → d_status d' = d_status d) as Hsame.
  { intros i d d' Hi Hi'. destruct Hd as (_ & _ & Hdo & _).
    destruct (Forall2_lookup_l _ _ _ _ _ Hdo Hi) as (d'' & Hd'' & _ & <- & _). congruence. }
  destruct p.
  - wp_bind. eapply mid_ask; [done|]. intros k w3 Hm3.
    wp_bind. eapply mid_ask; [done|]. intros k' w4 Hm4. case_match; [|by apply wp_attempt].
    apply post_notify, mid_save; [done|]. intros prev next [= <- <-]. split; [done|].
    assert (waits_for m2 (next_delivery_event (answer k _ AskNow) m2)) as Hw.
    { apply next_delivery_waits. destruct (proj1 Hact eq_refl) as (d & (i & Hi)%list_elem_of_lookup & Ha).
      destruct Hd as (_ & _ & Hdo & _). destruct (Forall2_lookup_l _ _ _ _ _ Hdo Hi) as (d' & Hd' & _ & Hst & _).
      exists d'. rewrite Hst. split; [by eapply list_elem_of_lookup_2|done]. }
    split; [|by left]. eapply waits_for_ok; [apply Hm4|done].
  - apply post_notify, mid_remove; [done|]. eapply dsn_done_settled; [done..|]. intros d Hin.
    destruct (is_active (d_status d)) eqn:Ha; [|done]. assert (false = true) as Hf; [|done]. apply Hact. eauto.
Qed.
End attempt.

(** ** [try_deliver] *)

Lemma get_message_value {U} (f : list Z → result U) (db : DB) id :
  get_value f db (queue_key (Keys.Message id))
  = match db_map db !! message_cell id with Some v => Some <$> f v | None => Ok None end.
Proof.
  unfold get_value. rewrite get_pinned_spec. unfold message_cell, cell, queue_key.
  cbn [key_subspace key_serialize value_key]. unfold value_key_subspace, value_key_serialize.
  cbn [vk_class vk_account_id vk_collection vk_document_id]. rewrite value_serialize_bytes. done.
Qed.
Lemma wp_read_message b q id m w (Φ : option (option Message) → world DB BS → Prop) :
  st b q w → q_messages q !! id = Some m → Φ (Some (Some m)) w →
  wp (read_message bincode_deserialize id) w Φ.
Proof.
  intros (Hh & Hq & _) Hm HΦ. unfold read_message. wp_bind. apply wp_get_db.
  destruct (qk_message q Hq id m Hm) as [<- Hok]. rewrite get_message_value.
  rewrite (rep_message _ _ _ (proj2 Hh)) by apply Hok. rewrite Hm. cbn [fmap option_fmap option_map].
  rewrite bincode_roundtrip. by apply wp_ret.
Qed.

(** An attempt: nothing happens, or the event was as it was read, and the
    attempt ends as [outcome] says. *)
Lemma wp_try_deliver b q ev w :
  st b q w → uint_ok 64 (l_due ev) → uint_ok 64 (l_queue_id ev) →
  wp (try_deliver blake3 bincode_serialize bincode_deserialize ev) w (λ _ w',
    ∃ q' left, st b q' w' ∧ departed w' = departed w ++ left ∧
      (q' = q ∧ left = [] ∨
       ∃ m, q_messages q !! l_queue_id ev = Some m ∧
         q_events q !! (l_due ev, l_queue_id ev) = Some (l_lock_expiry ev) ∧
         touches m q q' ∧
         outcome m (l_due ev) (u64_add (answer (w_step w) _ AskNow) LOCK_EXPIRY) q' left)).
Proof.
  intros Hst Hd Hid. pose proof Hst as (Hh & Hq & Hf). unfold try_deliver. wp_bind. apply wp_eq.
  intros o w1 Hl. apply (try_lock_spec bincode_serialize b q) in Hl as (He & _ & Hl); [|done..].
  assert (∀ q', holds b q' w1 → queue_ok q' → q_messages q' = q_messages q → st b q' w1) as Hst1.
  { intros q' Hh' Hq' Heq. split_and!; [done..|]. eapply ids_fresh_dom; [eapply ids_fresh_later, He; done|].
    by rewrite Heq. }
  destruct Hl as [[-> Hh1]|(-> & Hev & Hh1)].
  { apply wp_ret. exists q, []. rewrite app_nil_r.
    split_and!; [by apply Hst1|by apply stays_departed|by left]. }
  destruct (qk_event q Hq _ _ _ Hev) as (_ & _ & [m Hm]). set (lock := u64_add _ LOCK_EXPIRY) in *.
  set (q1 := put_event (l_due ev) (l_queue_id ev) lock q) in *.
  assert (st b q1 w1) as Hs1.
  { apply Hst1; [done| |done]. eapply queue_ok_lock; [done..|apply u64_add_ok]. }
  destruct (qk_message q Hq _ _ Hm) as [Hmid Hok].
  wp_bind. eapply wp_read_message; [exact Hs1|exact Hm|].
  eapply wp_mono; [eapply (wp_process b m _ lock q w)|].
  { split_and!; [done..|apply evolves_refl|]. exists q1. split_and!; [done|..].
    - unfold q1. rewrite <-Hmid. apply touches_lock.
    - by rewrite Hmid.
    - rewrite Hmid. unfold q1. cbn [put_event q_events l_due]. by rewrite lookup_insert_eq. }
  intros o w2 (q2 & left & Hst2 & Ht2 & Hout2 & Hleft). exists q2, left. split_and!; [done..|]. right. eauto.
Qed.
End queue.
