(* ===== verification/SmtpSchedule.v ===== *)
(** * Which events the manager sees

    [next_events] scans the events in the order of their keys, which is that
    of their times, and stops after the first that is not due. *)

From stdpp Require Import base gmap sorting strings numbers list.
From S2P Require Import Prelude Codec Keys KeyTheory KeyOrder Roaring Kv KvModel Batch Commit CommitTheory Read Store Query Blob Smtp SmtpSpool SmtpDsn SmtpSession SmtpDelivery SmtpLogic SmtpStoreTheory SmtpPartyTheory SmtpSessionTheory SmtpDeliveryTheory SmtpTotal.
Import Smtp Spool Dsn Session Delivery.
Open Scope Z_scope.

(** Events in the order of their keys. *)
Definition event_lt (e e' : QueueEventLock) : Prop :=
  l_due e < l_due e' ∨ l_due e = l_due e' ∧ l_queue_id e < l_queue_id e'.
Definition event_ok (e : QueueEventLock) : Prop :=
  uint_ok 64 (l_due e) ∧ uint_ok 64 (l_queue_id e) ∧ uint_ok 64 (l_lock_expiry e).
Definition event_row (e : QueueEventLock) : row :=
  (to_be_bytes 8 (l_due e) ++ to_be_bytes 8 (l_queue_id e), to_be_bytes 8 (l_lock_expiry e)).

Lemma event_cell_key due id : event_cell due id = (SUBSPACE_QUEUE_EVENT, to_be_bytes 8 due ++ to_be_bytes 8 id).
Proof. done. Qed.
Lemma read_event_row e : event_ok e → read_event (event_row e).1 (event_row e).2 = Ok e.
Proof.
  intros (Hd & Hi & Hl). unfold read_event, event_row, deserialize_be_u64, u64_deserialize, slice_get, U64_LEN.
  cbn [fst snd]. rewrite !length_app, !to_be_bytes_length, !decide_True by lia.
  cbn [ok_or fmap result_fmap mbind result_bind]. cbn [drop Nat.add Nat.sub].
  rewrite drop_0, take_app_length', drop_app_length', (take_ge (to_be_bytes 8 (l_queue_id e)))
    by (by rewrite to_be_bytes_length).
  rewrite !from_to_be_bytes by done. cbn. by destruct e.
Qed.
Lemma event_row_lt e e' : event_ok e → event_ok e' → row_lt (event_row e) (event_row e') ↔ event_lt e e'.
Proof. intros (? & ? & _) (? & ? & _). unfold row_lt, event_row, event_lt. cbn [fst]. by apply be64_pair_lt. Qed.

(** ** The scan *)

(** Up to the first event that is not due. *)
Fixpoint upto (t : Z) (es : list QueueEventLock) : list QueueEventLock :=
  match es with
  | [] => []
  | e :: es => e :: if l_due e <=? t then upto t es else []
  end.
Lemma visit_events t es acc :
  Forall event_ok es →
  visit false (event_callback t) (event_row <$> es) acc
  = Ok (acc ++ base.filter (λ e, l_lock_expiry e < t) (upto t es)).
Proof.
  intros Hok. revert acc. induction Hok as [|e es He Hes IH]; intros acc; [by rewrite app_nil_r|].
  pose proof (read_event_row e He) as Hread. cbn [fmap list_fmap upto].
  destruct (event_row e) as [k v]. cbn [fst snd] in Hread. cbn [visit].
  assert (event_callback t acc k v
    = Ok (if l_lock_expiry e <? t then acc ++ [e] else acc, l_due e <=? t)) as ->.
  { unfold event_callback. by rewrite Hread. }
  cbn [mbind result_bind].
  rewrite filter_cons. destruct (l_lock_expiry e <? t) eqn:Hl.
  - apply Z.ltb_lt in Hl. rewrite decide_True by done. destruct (l_due e <=? t); cbn [negb orb].
    + rewrite IH. by rewrite <-app_assoc.
    + done.
  - apply Z.ltb_ge in Hl. rewrite decide_False by lia. destruct (l_due e <=? t); cbn [negb orb].
    + apply IH.
    + by rewrite app_nil_r.
Qed.

(** An event not due that is seen is the first of those. *)
Lemma elem_of_upto t es e :
  StronglySorted event_lt es →
  e ∈ upto t es ↔ e ∈ es ∧ (l_due e ≤ t ∨ ∀ e', e' ∈ es → t < l_due e' → e' = e ∨ event_lt e e').
Proof.
  induction 1 as [|e0 es Hs IH Hlt]; [by split; [intros ?%not_elem_of_nil|intros [?%not_elem_of_nil _]]|].
  rewrite Forall_forall in Hlt. cbn [upto]. destruct (Z.leb_spec (l_due e0) t) as [Hd|Hd].
  - rewrite !elem_of_cons, IH. split.
    + intros [->|[Hin Ho]]; [by auto|]. split; [auto|]. destruct Ho as [?|Ho]; [by left|right].
      intros e' [->|He']%elem_of_cons Hx; [lia|auto].
    + intros [[->|Hin] Ho]; [by left|right]. split; [done|]. destruct Ho as [?|Ho]; [by left|right].
      intros e' He'. apply Ho. by right.
  - rewrite !elem_of_cons. split.
    + intros [->|?%not_elem_of_nil]; [|done]. split; [by left|]. right.
      intros e' [->|He']%elem_of_cons _; auto.
    + intros [[->|Hin] Ho]; [by left|]. specialize (Hlt e Hin) as Hl. exfalso. destruct Ho as [Ho|Ho].
      * destruct Hl as [?|[? ?]]; lia.
      * destruct (Ho e0) as [->|Hl']; [by left|done|..]; destruct Hl as [?|[? ?]]; try lia.
        destruct Hl' as [?|[? ?]]; lia. destruct Hl' as [?|[? ?]]; lia.
Qed.

Lemma StronglySorted_fmap_inv {A B} (R : A → A → Prop) (S : B → B → Prop) (f : A → B) (P : A → Prop) l :
  Forall P l → (∀ x y, P x → P y → S (f x) (f y) → R x y) →
  StronglySorted S (f <$> l) → StronglySorted R l.
Proof.
  intros HP Hf. induction HP as [|x l Hx Hl IH]; [constructor|]. rewrite fmap_cons.
  inversion 1 as [|? ? Hs Hall]; subst. constructor; [by apply IH|].
  rewrite Forall_fmap in Hall. rewrite Forall_forall in Hall, Hl |- *. intros y Hy. by apply Hf; auto; apply Hall.
Qed.

Section scan.
Context {DB Txn : Type} `{RocksDBLaws DB Txn}.
Context (bincode_serialize : Message → list Z).

Lemma event_range e :
  event_ok e →
  key_serialize (queue_key (event_class 0 0)) 0 ≤ᵇ (event_row e).1 ∧
  (event_row e).1 ≤ᵇ key_serialize (queue_key (event_class U64_MAX U64_MAX)) 0.
Proof.
  intros (Hd & Hi & _).
  assert (∀ due id, key_serialize (queue_key (event_class due id)) 0 = to_be_bytes 8 due ++ to_be_bytes 8 id) as Hk.
  { intros due id. cbn [key_serialize value_key queue_key]. unfold value_key_serialize.
    by rewrite value_serialize_bytes. }
  rewrite !Hk, <-!bytes_nlt_ge. cbn [event_row fst].
  assert (uint_ok 64 0 ∧ uint_ok 64 U64_MAX) as [Hz Hm] by (unfold uint_ok, U64_MAX; lia).
  rewrite !be64_pair_lt by done. unfold uint_ok, U64_MAX in *. lia.
Qed.

(** The events of a queue, sorted. *)
Lemma event_rows b q (db : DB) :
  spool_ok b (db_map db) → represents bincode_serialize q (db_map db) → queue_ok q →
  ∃ es, range_rows (db_map db) SUBSPACE_QUEUE_EVENT
          (key_serialize (queue_key (event_class 0 0)) 0)
          (key_serialize (queue_key (event_class U64_MAX U64_MAX)) 0) true = event_row <$> es ∧
    Forall event_ok es ∧ StronglySorted event_lt es ∧
    ∀ e, e ∈ es ↔ q_events q !! (l_due e, l_queue_id e) = Some (l_lock_expiry e).
Proof.
  intros (_ & _ & Hwf) Hr Hq. set (rows := range_rows _ _ _ _ _).
  assert (∀ k v, (k, v) ∈ rows ↔ ∃ e, (k, v) = event_row e ∧ event_ok e ∧
    q_events q !! (l_due e, l_queue_id e) = Some (l_lock_expiry e)) as Hrows.
  { intros k v. unfold rows. rewrite elem_of_range_rows. split.
    - intros (_ & _ & Hm). destruct (Hwf k) as (due & id & Hd & Hi & Hk); [eauto|].
      rewrite Hk, (rep_event _ _ _ Hr) in Hm by done. apply fmap_Some in Hm as (lock & Hl & ->).
      destruct (qk_event q Hq _ _ _ Hl) as (_ & Hlk & _).
      exists {| l_due := due; l_queue_id := id; l_lock_expiry := lock |}. split_and!; [|by split_and!|done].
      unfold event_row. cbn [l_due l_queue_id l_lock_expiry]. by apply (f_equal snd) in Hk; cbn [snd] in Hk; rewrite Hk.
    - intros (e & He & Hok & Hl). assert (k = (event_row e).1) as -> by by rewrite <-He.
      assert (v = (event_row e).2) as -> by by rewrite <-He.
      destruct (event_range e Hok). split_and!; [done..|]. destruct Hok as (? & ? & _).
      change (SUBSPACE_QUEUE_EVENT, (event_row e).1) with (event_cell (l_due e) (l_queue_id e)).
      by rewrite (rep_event _ _ _ Hr), Hl by done. }
  assert (∃ es, rows = event_row <$> es ∧ Forall (λ e, event_ok e ∧
    q_events q !! (l_due e, l_queue_id e) = Some (l_lock_expiry e)) es) as (es & Hes & Hall).
  { assert (∀ l, (∀ kv, kv ∈ l → kv ∈ rows) → ∃ es, l = event_row <$> es ∧ Forall (λ e, event_ok e ∧
      q_events q !! (l_due e, l_queue_id e) = Some (l_lock_expiry e)) es) as Hl; [|by apply Hl].
    induction l as [|[k v] l IH]; intros Hin; [by exists []|].
    destruct IH as (es & -> & Hf); [intros; apply Hin; by right|].
    destruct (proj1 (Hrows k v)) as (e & He & Hok & Hl); [apply Hin; by left|].
    exists (e :: es). split; [by rewrite fmap_cons, He|]. by constructor. }
  exists es. assert (Forall event_ok es) as Hok by (eapply Forall_impl; [exact Hall|]; by intros ? [? _]).
  split_and!; [done..| |].
  - eapply (StronglySorted_fmap_inv _ row_lt event_row event_ok); [done|intros; by apply event_row_lt|].
    rewrite <-Hes. apply StronglySorted_filter, cf_rows_sorted.
  - intros e. split; [intros He; rewrite Forall_forall in Hall; by apply Hall|]. intros Hl.
    assert (event_ok e) as Hoke.
    { destruct (qk_event q Hq _ _ _ Hl) as (? & ? & [m Hm]). destruct (qk_message q Hq _ _ Hm) as [Hid Hmok].
      split_and!; [done| |done]. rewrite <-Hid. apply Hmok. }
    assert (event_row e ∈ rows) as Hin.
    { rewrite (surjective_pairing (event_row e)). apply Hrows. exists e. by rewrite <-surjective_pairing. }
    rewrite Hes in Hin. apply list_elem_of_fmap in Hin as (e' & He & Hin').
    rewrite Forall_forall in Hok. pose proof (read_event_row e Hoke) as R1. rewrite He in R1.
    rewrite (read_event_row e' (Hok e' Hin')) in R1. by injection R1 as <-.
Qed.

Lemma next_events_spec b q (db : DB) t :
  spool_ok b (db_map db) → represents bincode_serialize q (db_map db) → queue_ok q →
  StronglySorted event_lt (next_events t db) ∧
  ∀ e, e ∈ next_events t db ↔
    q_events q !! (l_due e, l_queue_id e) = Some (l_lock_expiry e) ∧ l_lock_expiry e < t ∧
    (l_due e ≤ t ∨
     ∀ due id, is_Some (q_events q !! (due, id)) → t < due →
       (due, id) = (l_due e, l_queue_id e) ∨ l_due e < due ∨ l_due e = due ∧ l_queue_id e < id).
Proof.
  intros Hs Hr Hq. destruct (event_rows b q db Hs Hr Hq) as (es & Hrows & Hok & Hsort & Hes).
  assert (next_events t db = base.filter (λ e, l_lock_expiry e < t) (upto t es)) as ->.
  { unfold next_events. rewrite iterate_visit. cbn [first ascending begin end_ set_ascending params_new].
    change (key_subspace (queue_key (event_class 0 0))) with SUBSPACE_QUEUE_EVENT.
    rewrite Hrows, visit_events by done. done. }
  split.
  { apply StronglySorted_filter. clear -Hsort. induction Hsort as [|e es Hs IH Hlt]; cbn [upto]; constructor.
    - case_match; [done|constructor].
    - case_match; [|constructor]. rewrite Forall_forall in Hlt |- *. intros e' He'. apply Hlt.
      clear -He'. induction es as [|e0 es IH]; [done|]. cbn [upto] in He'.
      apply elem_of_cons in He' as [->|He']; [by left|right]. case_match; [by apply IH|].
      by apply not_elem_of_nil in He'. }
  intros e. rewrite list_elem_of_filter, elem_of_upto, Hes by done. split.
  - intros (Hl & Hin & Ho). split_and!; [done..|]. destruct Ho as [?|Ho]; [by left|right].
    intros due id [lock Hx] Hlt.
    destruct (Ho {| l_due := due; l_queue_id := id; l_lock_expiry := lock |}) as [<-|Hl'];
      [by apply Hes|done|by left|]. right. exact Hl'.
  - intros (Hin & Hl & Ho). split_and!; [done..|]. destruct Ho as [?|Ho]; [by left|right].
    intros e' Hin' Hlt. apply Hes in Hin'.
    destruct (Ho (l_due e') (l_queue_id e')) as [He|He]; [by rewrite Hin'|done| |by right].
    left. destruct e as [d i l], e' as [d' i' l']. cbn in *. injection He as -> ->. congruence.
Qed.
End scan.

(** ** The manager's round *)

Section manager.
Context {DB Txn BS : Type} `{StoreWriteLaws DB Txn} `{Env}.
Context (bincode_serialize : Message → list Z).
Local Abbreviation steady := (steady (DB:=DB) (BS:=BS)).
Local Abbreviation total p := (total (DB:=DB) (BS:=BS) p).

Lemma dispatch_due t wake events e : e ∈ events → l_due e ≤ t → e ∈ (dispatch t wake events).1.
Proof.
  intros Hin Hd. revert wake Hin. induction events as [|e0 events IH]; intros wake; [done|].
  cbn [dispatch]. destruct (Z.leb_spec (l_due e0) t) as [Hle|Hgt].
  - destruct (dispatch t wake events) as [tried wake'] eqn:Hdis. intros [->|Hin]%elem_of_cons; [by left|right].
    specialize (IH wake Hin). by rewrite Hdis in IH.
  - intros [->|Hin]%elem_of_cons; [lia|by apply IH].
Qed.

Lemma any_free_steady ls : steady (any_free ls) (λ _, True).
Proof.
  induction ls as [|l ls IH]; cbn [any_free]; [by apply steady_ret|].
  eapply steady_bind; [by apply (steady_question _ (λ _, True))|]. intros [] _; [by apply steady_ret|done].
Qed.
Lemma take_on_hold_steady t hs : steady (take_on_hold t hs) (λ _, True).
Proof.
  induction hs as [|h hs IH]; cbn [take_on_hold]; [by apply steady_ret|].
  eapply (steady_bind _ _ (λ _, True)).
  { unfold may_resume. eapply steady_bind; [apply any_free_steady|]. intros ? _. by apply steady_ret. }
  intros [] _; [by apply steady_ret|]. eapply steady_bind; [done|]. intros ? _. by apply steady_ret.
Qed.
Lemma resume_loop_steady fuel hs : steady (resume_loop fuel hs) (λ _, True).
Proof.
  revert hs. induction fuel as [|fuel IH]; intros hs; cbn [resume_loop]; [by apply steady_ret|].
  eapply (steady_bind _ _ (λ _, True)).
  { unfold next_on_hold. eapply steady_bind; [by apply (steady_now (λ _, True))|]. intros ? _.
    apply take_on_hold_steady. }
  intros [[event hs']|] _; [|by apply steady_ret].
  eapply steady_bind; [apply IH|]. intros ? _. by apply steady_ret.
Qed.
Lemma any_free_total ls : total (any_free ls).
Proof. induction ls as [|l ls IH]; cbn [any_free]; total. Qed.
Hint Resolve any_free_total : total.
Lemma take_on_hold_total t hs : total (take_on_hold t hs).
Proof. induction hs as [|h hs IH]; cbn [take_on_hold]; unfold may_resume; total. Qed.
Hint Resolve take_on_hold_total : total.
Lemma resume_loop_total fuel hs : total (resume_loop fuel hs).
Proof. revert hs. induction fuel as [|fuel IH]; intros hs; cbn [resume_loop]; unfold next_on_hold; total. Qed.

(** A round finds an event that is due and free. *)
Lemma process_events_finds b q ev manager (w : world DB BS) :
  holds bincode_serialize b q w → queue_ok q →
  q_events q !! (l_due ev, l_queue_id ev) = Some (l_lock_expiry ev) →
  (∀ n, (w_step w ≤ n)%nat → l_due ev ≤ answer n _ AskNow ∧ l_lock_expiry ev < answer n _ AskNow) →
  ∃ started manager' w1, process_events manager w = (Some (started, manager'), w1) ∧ ev ∈ started ∧ quiet w w1.
Proof.
  intros Hh Hq Hev Hclock. unfold process_events.
  pose proof (resume_loop_total (S (length (on_hold manager))) (on_hold manager) w) as [resumed Hr].
  destruct (resume_loop _ _ w) as [o w1] eqn:Hres. cbn [fst] in Hr. subst o.
  destruct (steady_run _ _ _ _ _ (resume_loop_steady _ _) Hres) as [_ Hq1].
  rewrite (bind_some _ _ _ _ _ Hres). unfold bind, now, question, get_db. cbn [fst snd w_step w_db].
  destruct (dispatch _ _ _) as [tried wake] eqn:Hd. eexists _, _, _. split; [done|]. split.
  - cbn. apply elem_of_app. right. assert (w_step w ≤ w_step w1)%nat as Hle by apply Hq1.
    pose proof (dispatch_due (answer (w_step w1) Z AskNow) LONG_WAIT
      (next_events (answer (S (w_step w1)) Z AskNow) (w_db w1)) ev) as Hdue. rewrite Hd in Hdue. apply Hdue.
    + destruct (holds_quiet _ _ _ _ _ Hh Hq1) as [Hs1 Hr1].
      apply (next_events_spec bincode_serialize b q (w_db w1)); [done..|].
      destruct (Hclock (S (w_step w1))) as [? ?]; [lia|]. split_and!; [done..|by left].
    + apply Hclock. lia.
  - eapply quiet_trans; [exact Hq1|]. split_and!; [done..|split; [cbn; lia|]]. eexists [_; _]. cbn [w_sent].
    rewrite <-!app_assoc. split; [done|]. by repeat constructor.
Qed.
End manager.
