(* ===== verification/SmtpLiveness.v ===== *)
(** * Messages leave the queue

    When the store takes what it is given, an attempt after the expiry of all
    domains of a message removes it, and the manager makes that attempt once
    the event is due and no lock is on it. *)

From stdpp Require Import base gmap sorting strings numbers list.
From S2P Require Import Prelude Codec Keys KeyTheory Roaring Kv KvModel Batch Commit CommitTheory Read Store Query Blob Smtp SmtpSpool SmtpDsn SmtpSession SmtpDelivery SmtpLogic SmtpStoreTheory SmtpPartyTheory SmtpSessionTheory SmtpDeliveryTheory SmtpTotal SmtpQueueTheory SmtpSchedule.
Import Smtp Spool Dsn Session Delivery.
Open Scope Z_scope.
Open Scope queue_scope.

(** A batch of the queue that can be executed is executed. *)
Definition store_available {DB Txn} `{StoreWriteLaws DB Txn} : Prop :=
  ∀ b (db : DB) bt m', spool_ok b (db_map db) → Forall spool_op (b_ops bt) →
    run_ops store_hash (b_ops bt) (db_map db) = Some m' → ∃ r, store_write (build bt) db = Ok r.

(** Adding to a counter always works. *)
Lemma quota_ops_run b h (f : QuotaKey → Z) ks m :
  store_ok b m → (∀ k, i64_ok (f k)) →
  is_Some (run_ops h ((λ k, OpValue (quota_class k) (AtomicAdd (f k))) <$> ks) m).
Proof.
  intros Hm Hf. revert m Hm. induction ks as [|k ks IH]; intros m Hm; [by eexists|].
  cbn [fmap list_fmap run_ops].
  destruct (run_op h m (OpValue (quota_class k) (AtomicAdd (f k)))) as [m1|] eqn:Hr.
  - apply IH. eapply run_op_store_ok; [done| |done]. split; [by destruct k|apply Hf].
  - exfalso. cbn [run_op] in Hr. unfold counter_value in Hr.
    destruct (m !! op_cell (quota_class k)) as [v|] eqn:Hv; [|done].
    destruct Hm as [Hc _]. assert (length v = 8%nat) as Hlen.
    { destruct (op_cell (quota_class k)) as [s key] eqn:Hcell. apply (Hc s key v); [|done].
      apply (f_equal fst) in Hcell. cbn [fst] in Hcell. rewrite <-Hcell. by destruct k. }
    unfold i64_from_le in Hr. by rewrite Hlen in Hr.
Qed.

Section live.
Context {DB Txn BS : Type} `{StoreWriteLaws DB Txn} `{BlobStore BS} `{EnvOk} `{!EnvTotal} `{SmtpProto}.
Context `{QueueConfig} (N : nat).
Context (blake3 : list Z → list Z) (bincode_serialize : Message → list Z).
Context (bincode_deserialize : list Z → result Message).
Hypothesis blake3_length : ∀ l, length (blake3 l) = BLOB_HASH_LEN.
Hypothesis bincode_roundtrip : ∀ m, bincode_deserialize (bincode_serialize m) = Ok m.
Hypothesis available : @store_available DB Txn _ _ _ _.
Implicit Types (w : world DB BS).
Local Abbreviation wp := (wp (N:=N)).
Local Abbreviation holds := (holds bincode_serialize).
Local Abbreviation st := (st N bincode_serialize).

Lemma write_available b q bt m' w :
  holds b q w → Forall spool_op (b_ops bt) →
  run_ops store_hash (b_ops bt) (db_map (w_db w)) = Some m' → (write_batch bt w).1 = Some (Ok tt).
Proof.
  intros [Hs _] Hops Hrun. destruct (available b (w_db w) bt m' Hs Hops Hrun) as [[ids db] Hw].
  unfold write_batch, bind, get_db. by rewrite Hw.
Qed.

Lemma remove_available b q m prev w :
  holds b q w → message_ok m → uint_ok 64 prev → (remove m prev w).1 = Some true.
Proof.
  intros Hh [Hid Hlen Hks _ _] Hp. unfold remove.
  assert (b_ops (remove_batch m prev) = ((λ k, OpValue (quota_class k)
      (AtomicAdd (i64_neg (quota_amount (size_i64 m) k)))) <$> m_quota_keys m) ++
    [OpValue (Blob (LinkId (m_blob_hash m) (m_id m))) Clear;
     OpValue (Queue (event_class prev (m_id m))) Clear;
     OpValue (Queue (Keys.Message (m_id m))) Clear]) as Hops.
  { unfold remove_batch, clear, b_push. cbn [b_ops]. rewrite release_ops. cbn [builder_new b_ops app].
    by rewrite <-!app_assoc. }
  destruct (quota_ops_run b store_hash (λ k, i64_neg (quota_amount (size_i64 m) k)) (m_quota_keys m)
    (db_map (w_db w))) as [m1 Hm1]; [apply Hh|intros; apply i64_ok_cast|].
  assert ((write_batch (remove_batch m prev) w).1 = Some (Ok tt)) as Hw.
  { eapply write_available; [done| |].
    - rewrite Hops. apply Forall_app. split; [apply quota_spool_ops; intros; apply i64_ok_cast|]. spool_ops.
    - rewrite Hops, run_ops_app, Hm1. done. }
  unfold bind. destruct (write_batch (remove_batch m prev) w) as [o w']. cbn in Hw. by subst.
Qed.

Lemma lock_available b q due id lock w :
  holds b q w → queue_ok q → uint_ok 64 due → uint_ok 64 id → q_events q !! (due, id) = Some lock →
  ∃ ev, (try_lock_event {| l_due := due; l_queue_id := id; l_lock_expiry := lock |} w).1 = Some (Some ev).
Proof.
  intros Hh Hq Hd Hid Hev. unfold try_lock_event, now. unfold bind at 1. cbn [question fst snd].
  set (expiry := u64_add _ LOCK_EXPIRY). set (w1 := {| w_db := _ |}). set (bt := lock_batch _ expiry).
  assert ((write_batch bt w1).1 = Some (Ok tt)) as Hw.
  { eapply (write_available b q); [exact Hh|unfold bt, lock_batch; cbn -[to_be_bytes]; spool_ops|].
    unfold bt, lock_batch. cbn [b_ops set assert_value b_push builder_new app l_due l_queue_id l_lock_expiry run_ops run_op].
    change (op_cell (Queue (event_class due id))) with (event_cell due id).
    rewrite (rep_event _ _ _ (proj2 Hh)), Hev by done. cbn [fmap option_fmap option_map].
    assert (assert_holds store_hash (AssertU64 lock) (Some (to_be_bytes 8 lock)) = true) as ->; [|done].
    destruct (qk_event q Hq _ _ _ Hev) as (_ & Hl & _). unfold assert_holds, assert_matches.
    rewrite from_to_be_bytes, to_be_bytes_length, !bool_decide_true by done. done. }
  unfold bind. destruct (write_batch bt w1) as [o w2]. cbn in Hw. subst. eauto.
Qed.

(** A result that is there. *)
Lemma wp_result {A} (p : Q DB BS A) w (Φ : option A → world DB BS → Prop) r :
  (p w).1 = r → wp p w Φ → wp p w (λ o w', o = r ∧ Φ o w').
Proof. intros <- Hp Hle. split; [done|by apply Hp]. Qed.
Lemma wp_total {A} (p : Q DB BS A) w (Φ : option A → world DB BS → Prop) :
  is_Some (p w).1 → wp p w Φ → wp p w (λ o w', (∃ a, o = Some a) ∧ Φ o w').
Proof. intros Ht Hp Hle. split; [|by apply Hp]. destruct Ht as [a Ha]. eauto. Qed.

Lemma expired_spec b q m lock due w :
  st b q w → q_messages q !! m_id m = Some m → q_events q !! (due, m_id m) = Some lock →
  (∀ n, (w_step w ≤ n)%nat → Forall (λ d, d_expires d ≤ answer n _ AskNow) (m_domains m)) →
  wp (try_deliver blake3 bincode_serialize bincode_deserialize
        {| l_due := due; l_queue_id := m_id m; l_lock_expiry := lock |}) w
    (λ o w', o = Some tt ∧ gone N bincode_serialize b m q w w').
Proof.
  intros Hst Hm Hev Hexp. pose proof Hst as (Hh & Hq & Hf).
  destruct (qk_message q Hq _ _ Hm) as [_ Hok]. destruct (qk_event q Hq _ _ _ Hev) as (Hd & Hlk & _).
  pose proof (mk_id m Hok) as Hid. unfold try_deliver. wp_bind. apply wp_eq. intros o w1 Hl.
  destruct (lock_available b q due (m_id m) lock w Hh Hq Hd Hid Hev) as [ev Hlock]. rewrite Hl in Hlock.
  cbn [fst] in Hlock. subst o.
  apply (try_lock_spec bincode_serialize b q) in Hl as (He & _ & [[? _]|(Heq & _ & Hh1)]); [done| |done..].
  injection Heq as ->. cbn [l_due l_queue_id l_lock_expiry] in *. set (lk := u64_add _ LOCK_EXPIRY) in *.
  set (q1 := put_event due (m_id m) lk q) in *.
  assert (st b q1 w1) as Hst1.
  { split_and!; [done| |].
    - eapply queue_ok_lock; [done..|apply u64_add_ok].
    - eapply ids_fresh_dom; [eapply ids_fresh_later, He; done|done]. }
  wp_bind. eapply (wp_read_message N bincode_serialize bincode_deserialize bincode_roundtrip b q1);
    [exact Hst1|exact Hm|].
  set (ev1 := {| l_due := due; l_queue_id := m_id m; l_lock_expiry := lk |}).
  assert (mid N bincode_serialize b m ev1 lk q w m w1) as Hmid.
  { split_and!; [done..|apply evolves_refl|]. exists q1. split_and!; [done|apply touches_lock|done|].
    unfold q1. cbn [put_event q_events l_due ev1]. by rewrite lookup_insert_eq. }
  unfold process. wp_bind. apply wp_ask. intros w2 Hq2.
  assert (mid N bincode_serialize b m ev1 lk q w m w2) as Hmid2 by by eapply mid_quiet.
  destruct (has_pending_delivery _ m) as [p m1] eqn:Hp.
  apply has_pending_spec in Hp as (Hok1 & Hev1 & Hact & Hnone); [|done].
  rewrite Hnone in * by (apply Hexp; apply He).
  wp_bind. eapply wp_mono.
  { apply wp_total; [by apply send_dsn_total|]. apply (mid_send_dsn N blake3 bincode_serialize blake3_length).
    by eapply mid_change. }
  intros o w3 [[m2 ->] [Hd3 Hmid3]].
  assert (Forall (settled (m_domains m2)) (m_recipients m2)) as Hset.
  { eapply dsn_done_settled; [exact Hok1|done|]. intros d Hin.
    destruct (is_active (d_status d)) eqn:Ha; [|done]. assert (false = true) as Hx; [|done]. apply Hact. eauto. }
  wp_bind. eapply wp_mono.
  { eapply (wp_result _ _ _ (Some true)); [|by apply (mid_removes N bincode_serialize b m ev1 lk q w)].
    destruct Hmid3 as (_ & Hok3 & _ & q3 & (Hh3 & _ & _) & _).
    exact (remove_available b q3 m2 (l_due ev1) w3 Hh3 Hok3 Hd). }
  intros o w4 [-> [[? _]|[_ Hgone]]]; [done|].
  apply wp_notify. intros w5 Hq5. split; [done|].
  destruct Hgone as (q4 & m4 & Hst4 & Ht4 & Hev4 & Hn4 & Hs4 & Hl4). exists q4, m4.
  split_and!; [by eapply st_quiet|done..|]. by rewrite (stays_departed _ _ (quiet_stays _ _ Hq5)).
Qed.
End live.
