(* ===== verification/SmtpSystem.v ===== *)
(** * Runs of the queue

    A run is a sequence of messages that are accepted and of attempts at
    events, each as the code does it.  Every run refines [spool_step], which
    says what may become of a queue: messages are added with their event, and
    an attempt at a message ends as [outcome] says.  So no message is lost. *)

From stdpp Require Import base gmap sorting strings numbers list.
From S2P Require Import Prelude Codec Keys KeyTheory Roaring Kv KvModel Batch Commit CommitTheory Read Store Query Blob Smtp SmtpSpool SmtpDsn SmtpSession SmtpDelivery SmtpInbound SmtpLogic SmtpStoreTheory SmtpPartyTheory SmtpSessionTheory SmtpDeliveryTheory SmtpInboundTheory SmtpTotal SmtpQueueTheory SmtpSchedule SmtpLiveness.
Import Smtp Spool Dsn Session Delivery Inbound.
Open Scope Z_scope.
Open Scope queue_scope.

Section system.
Context {DB Txn BS : Type} `{StoreWriteLaws DB Txn} `{BlobStore BS} `{EnvOk} `{SmtpProto}.
Context `{QueueConfig} (N : nat).
Context (blake3 : list Z → list Z) (bincode_serialize : Message → list Z).
Context (bincode_deserialize : list Z → result Message).
Hypothesis blake3_length : ∀ l, length (blake3 l) = BLOB_HASH_LEN.
Hypothesis bincode_roundtrip : ∀ m, bincode_deserialize (bincode_serialize m) = Ok m.
Implicit Types (w : world DB BS).
Local Abbreviation st := (st N bincode_serialize).

(** ** Steps *)

(** A session takes an id, builds a message and submits it; or an attempt is
    made at an event, wherever that event was read.  What a session does in
    between does not write. *)
Inductive queue_step w : world DB BS → Prop :=
  | step_accept n data from rcpts m w1 w2 w3 sender rcpt_domain rcpt headers raw r w' :
      quiet w w1 → (w_step w ≤ n < w_step w1)%nat →
      build_message data from rcpts (new_id n) w1 = (Some m, w2) → quiet w2 w3 →
      (2 * Z.of_nat (length (quota_checks sender rcpt_domain rcpt m)) ≤ 10 ^ 5) →
      submit blake3 bincode_serialize sender rcpt_domain rcpt m headers raw w3 = (r, w') →
      queue_step w w'
  | step_attempt ev r w' :
      uint_ok 64 (l_due ev) → uint_ok 64 (l_queue_id ev) →
      try_deliver blake3 bincode_serialize bincode_deserialize ev w = (r, w') → queue_step w w'.

(** A queue and the messages that left it, in order. *)
Definition spool : Type := queue_state * list Message.
(** What a step may do to a queue. *)
Inductive spool_step (s s' : spool) : Prop :=
  | spool_queue m due :
      q_messages s.1 !! m_id m = None → message_ok m → uint_ok 64 due →
      s' = (queued m due s.1, s.2) → spool_step s s'
  | spool_attempt m due prev lock left :
      q_messages s.1 !! m_id m = Some m → q_events s.1 !! (due, m_id m) = Some prev →
      touches m s.1 s'.1 → outcome m due lock s'.1 left → s'.2 = s.2 ++ left → spool_step s s'.

Lemma queue_step_extends w w' : queue_step w w' → extends w w'.
Proof.
  intros [n data from rcpts m w1 w2 w3 sd rd rc headers raw r w'' Hq1 _ Hb Hq3 _ Hr|ev r w'' _ _ Hr].
  - eapply extends_trans; [by apply quiet_extends|].
    destruct (steady_run _ _ _ _ _ (build_message_steady data from rcpts (new_id n)) Hb) as [_ Hq2].
    eapply extends_trans; [by apply quiet_extends|]. eapply extends_trans; [by apply quiet_extends|].
    pose proof (submit_extending blake3 bincode_serialize sd rd rc m headers raw w3) as He. by rewrite Hr in He.
  - pose proof (try_deliver_extending blake3 bincode_serialize bincode_deserialize ev w) as He.
    by rewrite Hr in He.
Qed.
Lemma queue_run_extends w w' : rtc queue_step w w' → extends w w'.
Proof.
  induction 1 as [|w1 w2 w3 Hs _ IH]; [apply extends_refl|].
  eapply extends_trans; [by apply queue_step_extends|done].
Qed.

(** A message that was submitted. *)
Lemma submit_spool b q addrs n m sd rd rc headers raw w r w' :
  st b q w → (n < w_step w)%nat → q_messages q !! new_id n = None →
  (∀ k, (w_step w ≤ k < N)%nat → new_id k ≠ new_id n) →
  built addrs m → m_id m = new_id n → 2 * Z.of_nat (length (quota_checks sd rd rc m)) ≤ 10 ^ 5 →
  submit blake3 bincode_serialize sd rd rc m headers raw w = (r, w') → (w_step w' ≤ N)%nat →
  ∃ q', st b q' w' ∧ departed w' = departed w ∧ (q' = q ∨ spool_step (q, departed w) (q', departed w)).
Proof.
  intros Hst Hn Hnew Hids Hbt Hid Hks Hr HN.
  eapply (wp_run (N:=N) _ _ (λ _ w', ∃ q', st b q' w' ∧ departed w' = departed w ∧
    (q' = q ∨ spool_step (q, departed w) (q', departed w))) _ _ _ Hr HN). Unshelve.
  unfold submit. wp_bind. eapply wp_steady; [apply has_quota_steady|].
  intros [[m1|]|] w1 Hq1 Hm1; pose proof (stays_departed _ _ (quiet_stays _ _ Hq1)) as Hl1;
    [|exists q; split_and!; [by eapply st_quiet|done|by left]..].
  destruct (Hm1 _ eq_refl m1 eq_refl) as (refs & -> & Hlen). set (m2 := set_quota_keys refs _).
  pose proof (st_quiet _ _ _ _ _ _ Hst Hq1) as Hst1.
  assert (message_ok (with_content blake3 m2 (Some headers) raw)) as Hok.
  { eapply submit_ok; [done..|rewrite Hid; apply new_id_ok|].
    change (length (quota_checks _ _ _ _)) with (length (quota_checks sd rd rc m)) in Hlen. lia. }
  assert (m_id m2 = new_id n) as Hid2 by done.
  wp_bind. eapply wp_mono; [apply (wp_queue N blake3 bincode_serialize b q); [done..|by rewrite Hid2|]|].
  { intros k Hk. rewrite Hid2. apply Hids. destruct Hq1 as (_ & _ & ? & _). lia. }
  intros o w2 (He2 & res & q' & -> & Hst2 & Hres). apply wp_ret. exists q'.
  split_and!; [done|by rewrite (stays_departed _ _ He2)|].
  destruct res; [|by left]. destruct Hres as (due & Hdue & ->). right.
  apply (spool_queue _ _ (with_content blake3 m2 (Some headers) raw) due); [|done..].
  change (m_id _) with (m_id m2). by rewrite Hid2.
Qed.

Lemma queue_step_spool b q w w' :
  st b q w → queue_step w w' → (w_step w' ≤ N)%nat →
  ∃ q', st b q' w' ∧ rtc spool_step (q, departed w) (q', departed w').
Proof.
  intros Hst [n data from rcpts m w1 w2 w3 sd rd rc headers raw r w'' Hq1 Hn Hb Hq3 Hks Hr|ev r w'' Hd Hi Hr] HN.
  - destruct (steady_run _ _ _ _ _ (build_message_steady data from rcpts (new_id n)) Hb) as [Hbt Hq2].
    destruct Hbt as (Hbt & Hid & _). pose proof (quiet_trans _ _ _ Hq2 Hq3) as Hq13.
    assert (st b q w3) as Hst3 by exact (st_quiet _ _ _ _ _ _ Hst (quiet_trans _ _ _ Hq1 Hq13)).
    assert (w_step w1 ≤ w_step w3)%nat as Hle by apply Hq13.
    assert (extends w3 w'') as [He _].
    { pose proof (submit_extending blake3 bincode_serialize sd rd rc m headers raw w3) as He. by rewrite Hr in He. }
    destruct Hst as (_ & _ & [Hf1 Hf2]).
    destruct (submit_spool b q (merge_sort address_le rcpts) n m sd rd rc headers raw w3 r w'')
      as (q' & Hst' & Hl & Hs); [done|lia|apply Hf1; lia| |done..|].
    { intros k Hk Heq. apply (Hf2 n k); [lia..|done]. }
    assert (departed w3 = departed w) as Hl3.
    { apply stays_departed, quiet_stays. exact (quiet_trans _ _ _ Hq1 Hq13). }
    exists q'. split; [done|]. rewrite Hl, Hl3 in *. destruct Hs as [->|Hs]; [done|by apply rtc_once].
  - pose proof (wp_try_deliver N blake3 bincode_serialize bincode_deserialize blake3_length
      bincode_roundtrip b q ev w Hst Hd Hi) as Hwp.
    destruct (wp_run _ _ _ _ _ Hwp Hr HN) as (q' & left & Hst' & Hl & Hres).
    exists q'. split; [done|]. rewrite Hl.
    destruct Hres as [[-> ->]|(m & Hm & He & Ht & Ho)]; [by rewrite app_nil_r|apply rtc_once].
    destruct Hst as (_ & Hq & _). destruct (qk_message q Hq _ _ Hm) as [Hid _]. rewrite <-Hid in *.
    by eapply spool_attempt.
Qed.

Lemma queue_run_spool b q w w' :
  st b q w → rtc queue_step w w' → (w_step w' ≤ N)%nat →
  ∃ q', st b q' w' ∧ rtc spool_step (q, departed w) (q', departed w').
Proof.
  intros Hst Hr. revert q Hst. induction Hr as [w|w1 w2 w3 Hs Hr IH]; intros q Hst HN.
  { exists q. split; [done|]. constructor. }
  apply queue_run_extends in Hr as [Hle _].
  destruct (queue_step_spool b q w1 w2 Hst Hs) as (q2 & Hst2 & Hq2); [lia|].
  destruct (IH q2 Hst2 HN) as (q3 & Hst3 & Hq3). exists q3. split; [done|by etrans].
Qed.

(** ** What becomes of a message *)

(** It is in the queue, or it is one of those that left, with every recipient
    settled. *)
Definition fate (m : Message) (s : spool) : Prop :=
  (∃ m', q_messages s.1 !! m_id m = Some m' ∧ evolves m m') ∨
  (∃ m', m' ∈ s.2 ∧ evolves m m' ∧ Forall (settled (m_domains m')) (m_recipients m')).

Lemma fate_step m s s' : fate m s → spool_step s s' → fate m s'.
Proof.
  intros [(m' & Hm & Hev)|(m' & Hin & Hr)] Hs.
  2: { right. exists m'. split; [|done]. destruct Hs as [m1 due _ _ _ ->|m1 due prev lock left _ _ _ _ ->]; [done|].
       apply elem_of_app. by left. }
  assert (m_id m' = m_id m) as Hid.
  { destruct Hev as [Hh _]. by apply header_fields in Hh as (-> & _). }
  destruct Hs as [m1 due Hnew _ _ ->|m1 due prev lock left Hm1 He [[Hk _] _] Ho Hl].
  - left. exists m'. split; [|done]. cbn [fst queued put_message put_event q_messages].
    rewrite lookup_insert_ne; congruence.
  - destruct (decide (m_id m1 = m_id m)) as [Heq|Hne].
    2: { left. exists m'. split; [|done]. by apply Hk; [congruence|]. }
    assert (m1 = m') as -> by congruence. rewrite <-Heq in Hid.
    destruct Ho as [m2 Hev2 Hm2 _|m2 due2 Hev2 Hm2 _ _|m2 Hev2 _ Hset].
    1,2: left; exists m2; rewrite <-Heq; (split; [done|by eapply evolves_trans]).
    right. exists m2. rewrite Hl. split_and!; [apply elem_of_app; right; by left|by eapply evolves_trans|done].
Qed.
Lemma fate_run m s s' : rtc spool_step s s' → fate m s → fate m s'.
Proof. induction 1 as [|s1 s2 s3 Hs _ IH]; intros Hf; [done|]. by eapply IH, fate_step. Qed.
End system.
