(* ===== verification/SmtpExample.v ===== *)
(** * An environment for the queue

    A store with one writer, a blob store, an encoding of messages and answers
    of an environment, on which the theorems about the queue are run. *)

From stdpp Require Import base gmap sorting strings numbers list countable.
From S2P Require Import Prelude Codec Keys KeyTheory Roaring Kv KvModel Batch Commit CommitTheory Read Store Query Blob Smtp SmtpSpool SmtpDsn SmtpSession SmtpDelivery SmtpLogic SmtpStoreTheory SmtpPartyTheory SmtpSessionTheory SmtpDeliveryTheory SmtpTotal SmtpQueueTheory SmtpSchedule SmtpLiveness.
Import Smtp Spool Dsn Session Delivery.
Open Scope Z_scope.
Open Scope queue_scope.

(** ** Messages are countable, so they can be encoded *)

#[local] Ltac decision := solve_decision.
#[export] Instance response_dec : EqDecision Response. Proof. decision. Defined.
#[export] Instance details_dec : EqDecision ErrorDetails. Proof. decision. Defined.
#[export] Instance host_response_dec {T} `{EqDecision T} : EqDecision (HostResponse T). Proof. decision. Defined.
#[export] Instance error_dec : EqDecision Error. Proof. decision. Defined.
#[export] Instance status_dec {T E} `{EqDecision T, EqDecision E} : EqDecision (Status T E). Proof. decision. Defined.
#[export] Instance schedule_dec : EqDecision Schedule. Proof. decision. Defined.
#[export] Instance domain_dec : EqDecision Domain. Proof. decision. Defined.
#[export] Instance recipient_dec : EqDecision Recipient. Proof. unfold EqDecision. decision. Defined.
#[export] Instance quota_key_dec : EqDecision QuotaKey. Proof. decision. Defined.
#[export] Instance message_dec : EqDecision Smtp.Message. Proof. decision. Defined.

#[export] Instance response_countable : Countable Response.
Proof.
  refine (inj_countable' (λ r, (code r, esc r, r_message r))
    (λ '(c, e, m), {| code := c; esc := e; r_message := m |}) _). by intros [].
Defined.
#[export] Instance details_countable : Countable ErrorDetails.
Proof.
  refine (inj_countable' (λ d, (entity d, details d)) (λ '(e, d), {| entity := e; details := d |}) _).
  by intros [].
Defined.
#[export] Instance host_response_countable {T} `{Countable T} : Countable (HostResponse T).
Proof.
  refine (inj_countable' (λ r, (hostname r, response r)) (λ '(h, r), {| hostname := h; response := r |}) _).
  by intros [].
Defined.
#[export] Instance error_countable : Countable Error.
Proof.
  refine (inj_countable' (λ e : Error,
    match e with
    | DnsError x => (0, inl x) | MtaStsError x => (1, inl x) | Io x => (2, inl x)
    | UnexpectedResponse x => (0, inr (inl x))
    | ConnectionError x => (0, inr (inr x)) | TlsError x => (1, inr (inr x)) | DaneError x => (2, inr (inr x))
    | RateLimited => (3, inl []) | ConcurrencyLimited => (4, inl [])
    end)
    (λ '(t, x), match x with
      | inl x => if t =? 0 then DnsError x else if t =? 1 then MtaStsError x else if t =? 2 then Io x
                 else if t =? 3 then RateLimited else ConcurrencyLimited
      | inr (inl x) => UnexpectedResponse x
      | inr (inr x) => if t =? 0 then ConnectionError x else if t =? 1 then TlsError x else DaneError x
      end) _). by intros [].
Defined.
#[export] Instance status_countable {T E} `{Countable T, Countable E} : Countable (Status T E).
Proof.
  refine (inj_countable' (λ s : Status T E,
    match s with
    | Scheduled => inl None | Completed t => inl (Some t)
    | TemporaryFailure e => inr (false, e) | PermanentFailure e => inr (true, e)
    end)
    (λ x, match x with
      | inl None => Scheduled | inl (Some t) => Completed t
      | inr (p, e) => if (p : bool) then PermanentFailure e else TemporaryFailure e
      end) _). by intros [].
Defined.
#[export] Instance schedule_countable : Countable Schedule.
Proof.
  refine (inj_countable' (λ s, (s_due s, s_inner s)) (λ '(d, i), {| s_due := d; s_inner := i |}) _). by intros [].
Defined.
#[export] Instance domain_countable : Countable Domain.
Proof.
  refine (inj_countable' (λ d, (d_domain d, d_retry d, d_notify d, d_expires d, d_status d : Status unit Error))
    (λ '(n, r, t, e, s), {| d_domain := n; d_retry := r; d_notify := t; d_expires := e; d_status := s |}) _).
  by intros [].
Defined.
#[export] Instance recipient_countable : Countable Recipient.
Proof.
  refine (inj_countable' (λ r, ((rc_domain_idx r, rc_address r), (rc_address_lcase r,
      rc_status r : Status (HostResponse (list Z)) (HostResponse ErrorDetails)), (rc_flags r, rc_orcpt r)))
    (λ '((i, a), (l, s), (f, o)), {| rc_domain_idx := i; rc_address := a; rc_address_lcase := l; rc_status := s;
      rc_flags := f; rc_orcpt := o |}) _).
  by intros [].
Defined.
#[export] Instance quota_key_countable : Countable QuotaKey.
Proof.
  refine (inj_countable' (λ k, match k with QSize k i => inl (k, i) | QCount k i => inr (k, i) end)
    (λ x, match x with inl (k, i) => QSize k i | inr (k, i) => QCount k i end) _). by intros [].
Defined.
#[export] Instance message_countable : Countable Smtp.Message.
Proof.
  refine (inj_countable' (λ m, (((m_id m, m_created m), (m_blob_hash m, m_return_path m)),
      ((m_return_path_lcase m, m_return_path_domain m), (m_recipients m, m_domains m)),
      (((m_flags m, m_env_id m), (m_priority m, m_size m)), m_quota_keys m)))
    (λ '(((a, b), (c, d)), ((e, f), (g, h)), (((i, j), (k, l)), n)), {| m_id := a; m_created := b; m_blob_hash := c;
      m_return_path := d; m_return_path_lcase := e; m_return_path_domain := f; m_recipients := g;
      m_domains := h; m_flags := i; m_env_id := j; m_priority := k; m_size := l; m_quota_keys := n |}) _).
  by intros [].
Defined.

(** The bits of a number. *)
Fixpoint bits_of (p : positive) : list Z :=
  match p with xH => [] | xO p => 0 :: bits_of p | xI p => 1 :: bits_of p end.
Fixpoint of_bits (l : list Z) : positive :=
  match l with [] => xH | b :: l => if b =? 0 then xO (of_bits l) else xI (of_bits l) end.
Lemma of_bits_bits p : of_bits (bits_of p) = p.
Proof. induction p as [p IH|p IH|]; cbn; by rewrite ?IH. Qed.

Definition serialize (m : Smtp.Message) : list Z := bits_of (encode m).
Definition deserialize (l : list Z) : result Smtp.Message :=
  match decode (of_bits l) with Some m => Ok m | None => Err (InternalError "decode") end.
Lemma serialize_roundtrip m : deserialize (serialize m) = Ok m.
Proof. unfold deserialize, serialize. by rewrite of_bits_bits, decode_encode. Qed.

(** ** A store with one writer takes what can be executed *)

Lemma log_commit_op (db : LogDb.DB) (gen : nat → nat) (t : LogDb.Txn) (m' : store_map) (op : Operation) :
  LogDb.t_began t = db → spool_op op → run_op (λ _, 0) (LogDb.view t db) op = Some m' →
  ∃ t', commit_op (gset Z) (λ _, 0) db gen (coords_init, t) op = inl (coords_init, t') ∧
    LogDb.t_began t' = db ∧ LogDb.view t' db = m'.
Proof.
  intros Ht Hop Hrun. destruct op as [| | | |c a|c o| | |]; try done.
  - cbn [run_op spool_op] in *. exists (LogDb.track (op_cell c) t). rewrite <-class_cell_init in *.
    cbn [commit_op]. destruct (class_cell coords_init c) as [s k]. cbn [txn_get_for_update_cf LogDb.log_db].
    destruct (assert_holds _ _ _); [|done]. injection Hrun as <-. done.
  - cbn [run_op spool_op] in *. rewrite <-class_cell_init in *. cbn [commit_op].
    destruct (class_cell coords_init c) as [s k]. destruct o as [[v|]|n|n|]; try done.
    + injection Hrun as <-. by eexists.
    + apply bind_Some in Hrun as (v & Hv & [= <-]). eexists. split; [done|]. split; [done|].
      cbn [txn_merge_cf LogDb.log_db LogDb.view LogDb.push LogDb.t_writes foldr LogDb.apply_pending].
      unfold LogDb.view in Hv. by rewrite (counter_merge _ _ _ _ Hv) by apply Hop.
    + injection Hrun as <-. by eexists.
Qed.
Lemma log_commit_ops (db : LogDb.DB) gen i ops (t : LogDb.Txn) m' :
  LogDb.t_began t = db → Forall spool_op ops → run_ops (λ _, 0) ops (LogDb.view t db) = Some m' →
  ∃ t', commit_ops (gset Z) (λ _, 0) (λ _, db) gen i ops (coords_init, t) = inl (coords_init, t') ∧
    LogDb.t_began t' = db.
Proof.
  intros Ht Hops. revert i t Ht. induction Hops as [|op ops Hop _ IH]; intros i t Ht Hrun; [by exists t|].
  cbn [run_ops] in Hrun. apply bind_Some in Hrun as (m1 & Hr & Hrs).
  destruct (log_commit_op db (gen i) t m1 op Ht Hop Hr) as (t1 & Hc & Ht1 & Hv). cbn [commit_ops].
  rewrite Hc. apply IH; [done|by rewrite Hv].
Qed.

Lemma log_commit (db : LogDb.DB) (gen : nat → nat → nat) bt m' :
  Forall spool_op (b_ops bt) → run_ops (λ _, 0) (b_ops bt) (LogDb.log_map db) = Some m' →
  ∃ r, commit (gset Z) (λ _, 0) (λ _, db) gen (build bt) = inl r.
Proof.
  intros Hops Hrun. unfold commit. change (ops (build bt)) with (b_ops bt).
  destruct (log_commit_ops db gen 1 (b_ops bt) (transaction_opt db) m') as (t' & Hc & Ht'); [done..|].
  rewrite Hc. cbn [txn_commit LogDb.log_db]. unfold LogDb.commit, LogDb.recent.
  rewrite Ht', Nat.sub_diag, decide_True by constructor. by eexists.
Qed.
Lemma write_loop_ok (db : LogDb.DB) gen in_time fuel n batch r :
  commit (gset Z) (λ _, 0) (λ _, db) (gen n) batch = inl r →
  write_loop (gset Z) (λ _, 0) (S fuel) n (λ _ _, db) gen in_time batch = Some (Ok r).
Proof. intros Hc. cbn [write_loop]. by rewrite Hc. Qed.

#[export] Existing Instance example_write.
#[export] Existing Instance example_write_laws.
Lemma log_available : @store_available LogDb.DB LogDb.Txn _ _ _ _.
Proof.
  intros b db bt m' _ Hops Hrun. rewrite (run_ops_hash _ (λ _, 0)) in Hrun by done.
  destruct (log_commit db (λ _ n, Nat.pred n) bt m' Hops Hrun) as [r Hr]. exists r.
  unfold store_write, example_write, sequential_write, write.
  by rewrite (write_loop_ok db (λ _ _ n, Nat.pred n) (λ _, true) MAX_COMMIT_ATTEMPTS 0 (build bt) r Hr).
Qed.

(** ** Blobs, the protocol, the configuration *)

Definition Blobs : Type := gmap (list Z) (list Z).
#[export] Instance blobs : BlobStore Blobs := {|
  put_blob bs hash raw := Ok (<[hash := raw]> bs);
  get_blob bs hash from to :=
    Ok ((λ raw, match to with Some to => take (to - from) (drop from raw) | None => drop from raw end)
        <$> bs !! hash);
|}.
Definition fake_blake3 (l : list Z) : list Z := resize BLOB_HASH_LEN 0 l.
Lemma fake_blake3_length l : length (fake_blake3 l) = BLOB_HASH_LEN.
Proof. apply length_resize. Qed.

#[export] Instance proto : SmtpProto := {|
  RCPT_NOTIFY_SUCCESS := 1; RCPT_NOTIFY_FAILURE := 2; RCPT_NOTIFY_DELAY := 4; RCPT_NOTIFY_NEVER := 8;
  MAIL_REQUIRETLS := 1; MAIL_SMTPUTF8 := 2; MAIL_RET_FULL := 4; MAIL_RET_HDRS := 8; MAIL_BY_RETURN := 16;
  EXT_SIZE := 1; EXT_REQUIRE_TLS := 2; EXT_SMTP_UTF8 := 4; EXT_DSN := 8; EXT_CHUNKING := 16;
  EXT_START_TLS := 32;
  severity r := if code r / 100 =? 2 then PositiveCompletion
                else if code r / 100 =? 5 then PermanentNegativeCompletion
                else TransientNegativeCompletion;
  has_capability caps cap := negb (Z.land caps cap =? 0);
  assert_positive_completion r := if code r / 100 =? 2 then inr tt else inl (MailUnexpectedReply r);
  assert_code r c := if code r =? c then inr tt else inl (MailUnexpectedReply r);
  mail_error_text _ := []; dns_failure_text _ := []; sha256 l := l; sha512 l := l;
  str_trim l := l; str_debug l := l; to_rfc822 _ := [];
|}.
#[export] Instance no_throttles : QueueConfig :=
  {| throttle_sender := []; throttle_rcpt := []; throttle_host := [] |}.

(** ** An environment: the clock stands at [pe_now]; mail goes to the relay
    [pe_relay], and is taken as the other answers say *)

Record Peer := {
  pe_now : Z;
  pe_relay : option RelayHost;
  pe_ingest : option (list DeliveryResult);
  pe_ehlo : MailError + Z;
  pe_reply : MailError + Response;
  pe_tls : option RequireOptional;
}.
Definition answers (pe : Peer) (n : nat) (X : Type) (q : ask X) : X :=
  match q in ask X return X with
  | AskNow => pe_now pe
  | AskId => Some (Z.of_nat n mod 2 ^ 64)
  | AskShuffle l => l
  | AskIndex _ => 0%nat
  | AskQuotaExpr _ _ _ => None
  | AskExpire _ _ => None
  | AskRetry _ _ => None
  | AskNotify _ _ => None
  | AskNextHop _ _ => pe_relay pe
  | AskMtaSts _ _ | AskDane _ _ => None
  | AskStartTls _ _ => pe_tls pe
  | AskInvalidCerts _ _ => None
  | AskMaxMx _ _ | AskMaxMultihomed _ _ => None
  | AskIpStrategy _ _ => None
  | AskSourceIps _ _ _ => None
  | AskHostname _ _ => None
  | AskDsnName _ | AskDsnAddress _ | AskSubmitter _ => None
  | AskSign _ _ => None
  | AskReport _ _ _ _ _ _ _ _ => []
  | AskAllowed _ _ _ => None
  | AskFree _ => true
  | AskMx _ => inl InvalidRecordType
  | AskIpv4 _ => inr [1]
  | AskIpv6 _ => inr []
  | AskPolicy _ => inl (StsInvalidPolicy [])
  | AskTlsa _ => inr None
  | AskTimeout => false
  | AskConnect _ _ _ | AskTls _ _ => inr tt
  | AskCertificates => None
  | AskRead => pe_reply pe
  | AskReadMany _ => inl MailTimeout
  | AskReadEhlo _ => pe_ehlo pe
  | AskCmd _ => pe_reply pe
  | AskAuthenticate | AskWrite _ | AskWriteMessage _ => inr tt
  | AskIngest _ _ _ _ => pe_ingest pe
  end.
Lemma answers_ok pe : uint_ok 64 (pe_now pe) → @EnvOk (answers pe).
Proof.
  intros Ht. split; cbn; [done| |done]. intros n. eexists. split; [done|]. apply Z.mod_pos_bound. lia.
Qed.
Lemma answers_total pe : @EnvTotal (answers pe).
Proof. by split. Qed.

Definition local_host : RelayHost := {|
  rh_address := str_bytes "localhost"; rh_port := 0; rh_protocol := ProtoHttp; rh_auth := false;
  rh_tls_implicit := false; rh_tls_allow_invalid_certs := false |}.
Definition smtp_host : RelayHost := {|
  rh_address := str_bytes "mx.org"; rh_port := 25; rh_protocol := ProtoSmtp; rh_auth := false;
  rh_tls_implicit := false; rh_tls_allow_invalid_certs := false |}.
Definition ok_reply : Response := {| code := 250; esc := (2, 0, 0); r_message := [] |}.

(** The mailboxes are full at 200; a server with chunking accepts everything. *)
Definition full_mailboxes : Peer := {|
  pe_now := 200; pe_relay := Some local_host; pe_ingest := Some [DeliveryTemporary (str_bytes "full")];
  pe_ehlo := inl MailTimeout; pe_reply := inl MailTimeout; pe_tls := None |}.
Definition mailboxes : Peer := {|
  pe_now := 200; pe_relay := Some local_host; pe_ingest := Some [DeliverySuccess];
  pe_ehlo := inl MailTimeout; pe_reply := inl MailTimeout; pe_tls := None |}.
Definition server : Peer := {|
  pe_now := 200; pe_relay := Some smtp_host; pe_ingest := None;
  pe_ehlo := inr EXT_CHUNKING; pe_reply := inr ok_reply; pe_tls := None |}.

(** ** A queue with one message *)

Definition example_rcpt : Recipient := {|
  rc_domain_idx := 0; rc_address := str_bytes "b@x"; rc_address_lcase := str_bytes "b@x";
  rc_status := Scheduled; rc_flags := 6; rc_orcpt := None |}.
Definition example_domain : Domain := {|
  d_domain := str_bytes "x"; d_retry := {| s_due := 50; s_inner := 0 |};
  d_notify := {| s_due := 60; s_inner := 0 |}; d_expires := 100; d_status := Scheduled |}.
Definition example_message : Smtp.Message := {|
  m_id := 7000; m_created := 50; m_blob_hash := fake_blake3 [1]; m_return_path := str_bytes "a@y";
  m_return_path_lcase := str_bytes "a@y"; m_return_path_domain := str_bytes "y";
  m_recipients := [example_rcpt]; m_domains := [example_domain]; m_flags := 0; m_env_id := None;
  m_priority := 0; m_size := 1; m_quota_keys := [] |}.

Definition empty_queue : queue_state := {| q_messages := ∅; q_events := ∅ |}.
Definition example_queue : queue_state := queued example_message 50 empty_queue.
Definition empty_world : world LogDb.DB Blobs :=
  {| w_db := []; w_blobs := ∅; w_step := 0; w_sent := [] |}.
Definition example_world : world LogDb.DB Blobs :=
  {| w_db := [(message_cell 7000, Some (serialize example_message));
              (commit_cell (fake_blake3 [1]), Some []);
              (link_cell (fake_blake3 [1]) 7000, Some []);
              (cell (Blob (Reserve (fake_blake3 [1]) 0)), None);
              (event_cell 50 7000, Some (to_be_bytes 8 0))];
     w_blobs := {[fake_blake3 [1] := [1]]}; w_step := 0; w_sent := [] |}.

Lemma example_message_ok : message_ok example_message.
Proof.
  split; try done.
  - repeat constructor; done.
  - intros r ->%list_elem_of_singleton. by exists example_domain.
Qed.
Lemma empty_represents : represents serialize empty_queue ∅.
Proof. split; done. Qed.
Lemma empty_queue_ok : queue_ok empty_queue.
Proof. split; cbn; intros *; rewrite ?lookup_empty; by try intros [? ?]. Qed.
Lemma empty_spool_ok : spool_ok 0 ∅.
Proof.
  split_and!; [apply store_ok_empty|lia..|]. intros k [? Hk]. by rewrite lookup_empty in Hk.
Qed.
Lemma empty_holds : holds serialize 0 empty_queue empty_world.
Proof. split; [apply empty_spool_ok|apply empty_represents]. Qed.
Lemma example_holds : holds serialize 0 example_queue example_world.
Proof.
  assert (run_ops store_hash (b_ops (queue_batch serialize example_message 50 0)) ∅
    = Some (db_map (w_db example_world))) as Hrun by reflexivity.
  assert (Forall spool_op (b_ops (queue_batch serialize example_message 50 0))) as Hops.
  { apply queue_batch_spool; [apply example_message_ok|done..]. }
  destruct empty_spool_ok as (Hs & Hb & Hwf). split.
  - split_and!; [by eapply run_ops_store_ok|lia..|by eapply run_ops_events_wf].
  - eapply represents_queued; [apply empty_represents|..|exact Hrun]; done.
Qed.
Lemma example_queue_ok : queue_ok example_queue.
Proof. apply queue_ok_queued; [apply empty_queue_ok|apply example_message_ok|done..]. Qed.

(** The ids of a generator that counts are new. *)
Lemma answers_fresh pe n0 q :
  (∀ id, is_Some (q_messages q !! id) → 1000 ≤ id) → @ids_fresh (answers pe) 1000 n0 q.
Proof.
  intros Hq. assert (∀ n, (n < 1000)%nat → @new_id (answers pe) n = Z.of_nat n) as Hid.
  { intros n Hn. unfold new_id. cbn [answer answers default from_option id]. apply Z.mod_small. lia. }
  split.
  - intros n Hn. rewrite Hid by lia. destruct (q_messages q !! Z.of_nat n) eqn:Hx; [|done].
    assert (1000 ≤ Z.of_nat n); [|lia]. apply Hq. by rewrite Hx.
  - intros n k Hn Hk. rewrite !Hid by lia. lia.
Qed.
Lemma example_st pe : @st LogDb.DB LogDb.Txn Blobs _ _ (answers pe) 1000 serialize 0 example_queue example_world.
Proof.
  split_and!; [apply example_holds|apply example_queue_ok|]. apply answers_fresh. cbn.
  intros id [[= <-]|[? Hx]]%lookup_insert_is_Some'; [done|]. by rewrite lookup_empty in Hx.
Qed.
Lemma empty_st pe : @st LogDb.DB LogDb.Txn Blobs _ _ (answers pe) 1000 serialize 0 empty_queue empty_world.
Proof.
  split_and!; [apply empty_holds|apply empty_queue_ok|]. apply answers_fresh. cbn.
  intros id [? Hx]. by rewrite lookup_empty in Hx.
Qed.
