(* ===== verification/SmtpProperties.v ===== *)
(** * What the outbound queue guarantees

    The properties of the queue as a whole, each with a run of the code on
    which its hypotheses hold. *)

From stdpp Require Import base gmap sorting strings numbers list.
From S2P Require Import Prelude Codec Keys KeyTheory Roaring Kv KvModel Batch Commit CommitTheory Read Store Query Blob Smtp SmtpSpool SmtpDsn SmtpSession SmtpDelivery SmtpInbound SmtpLogic SmtpStoreTheory SmtpPartyTheory SmtpSessionTheory SmtpTranscript SmtpDeliveryTheory SmtpInboundTheory SmtpTotal SmtpQueueTheory SmtpSchedule SmtpLiveness SmtpSystem SmtpExample.
Import Smtp Spool Dsn Session Delivery Inbound.
Open Scope Z_scope.
Open Scope queue_scope.

Section properties.
Context {DB Txn BS : Type} `{StoreWriteLaws DB Txn} `{BlobStore BS} `{EnvOk} `{SmtpProto}.
Context `{QueueConfig}.
Context (blake3 : list Z → list Z) (bincode_serialize : Message → list Z).
Context (bincode_deserialize : list Z → result Message).
Implicit Types (w : world DB BS).
Local Abbreviation holds := (holds bincode_serialize).
Local Abbreviation st N := (st N bincode_serialize).
Local Abbreviation queue_step := (queue_step blake3 bincode_serialize bincode_deserialize).
Local Abbreviation try_deliver := (try_deliver blake3 bincode_serialize bincode_deserialize).

(** ** Messages, one at a time *)

(** C10: a message built from what a session collected is well formed: every
    address of the session has exactly one recipient, with its notification
    flags, in the domain of the message that has its name; the domains are
    sorted and distinct and their times are 64-bit numbers. *)
Theorem build_message_typed data from rcpts id w m w' :
  build_message data from rcpts id w = (Some m, w') →
  built (merge_sort address_le rcpts) m ∧ NoDup (d_domain <$> m_domains m) ∧
  m_id m = id ∧ m_return_path m = sa_address from ∧ w_db w' = w_db w.
Proof.
  intros Hb. destruct (steady_run _ _ _ _ _ (build_message_steady data from rcpts id) Hb) as [Hm Hq].
  destruct Hm as (Hbt & Hid & Hrp & _). split_and!; [done| |done..|apply Hq].
  pose proof (bt_names _ _ Hbt) as Hs. clear -Hs.
  induction Hs as [|x l _ IH Hx]; constructor; [|done]. intros Hin. rewrite Forall_forall in Hx.
  exact (bytes_lt_irrefl x (Hx x Hin)).
Qed.

(** C8: a session with a host changes the recipients exactly as the dialogue of
    the session says.  Only recipients of the session's domain without a final
    status are asked for with [RCPT TO], and who is refused gets the reply in
    its status.  The host took the message when the bytes of its blob were
    written and the host then replied, over SMTP 250, over LMTP with a list of
    replies: then the recipients accepted before are delivered, over LMTP each
    delivered or refused by the reply in its place.  When the host did not take
    the message nobody is delivered, and whoever was asked for and keeps its
    status was accepted, or the dialogue was cut short.  Recipients of other
    domains and recipients with a final status are unchanged, the store is
    unchanged, and the domain is completed only when none of its recipients is
    left. *)
Theorem deliver_serves m idx params rs w status rs' w' :
  deliver m idx params rs w = (Some (status, rs'), w') →
  ∃ dialogue caps, w_sent w' = w_sent w ++ dialogue ∧ w_db w' = w_db w ∧
    handled (w_blobs w) m idx params caps dialogue rs rs' ∧
    Forall2 (λ r r', rc_domain_idx r ≠ idx ∨ is_final (rc_status r) = true → r' = r) rs rs' ∧
    (status = Completed tt → ∀ r, r ∈ rs' → rc_domain_idx r = idx → is_final (rc_status r) = true).
Proof.
  intros Hd. destruct (steady_run _ _ _ _ _ (deliver_steady m idx params rs) Hd) as [[_ Hc] Hq].
  destruct (deliver_scribed (w_blobs w) m idx params rs w _ w' eq_refl Hd) as (_ & l & Hl & caps & Hh).
  exists l, caps. split_and!; [done|apply Hq|done|by eapply handled_other|done].
Qed.

(** ** The queue *)

(** C9: the manager's scan of the events finds those that nobody holds a lock
    on and that are due, and of those that are not due only the first, in the
    order of their times. *)
Theorem next_events_exact b q w t :
  holds b q w → queue_ok q →
  StronglySorted event_lt (next_events t (w_db w)) ∧
  ∀ e, e ∈ next_events t (w_db w) ↔
    q_events q !! (l_due e, l_queue_id e) = Some (l_lock_expiry e) ∧ l_lock_expiry e < t ∧
    (l_due e ≤ t ∨
     ∀ due id, is_Some (q_events q !! (due, id)) → t < due →
       (due, id) = (l_due e, l_queue_id e) ∨ l_due e < due ∨ l_due e = due ∧ l_queue_id e < id).
Proof. intros [Hs Hr] Hq. by apply (next_events_spec bincode_serialize b q). Qed.

(** C5: of the attempts at an event that a scan found, one gets the lock: as
    long as the event has that lock, every other attempt that was started from
    the same scan stops, and no scan finds the event before the lock expires. *)
Theorem lock_exclusive b q q2 t ev w1 ev1 w1' w2 r w2' :
  holds b q w1 → queue_ok q → ev ∈ next_events t (w_db w1) →
  t ≤ answer (w_step w1) _ AskNow → answer (w_step w1) _ AskNow + LOCK_EXPIRY < 2 ^ 64 →
  try_lock_event ev w1 = (Some (Some ev1), w1') →
  holds b q2 w2 → queue_ok q2 →
  q_events q2 !! (l_due ev, l_queue_id ev) = Some (l_lock_expiry ev1) →
  try_lock_event ev w2 = (r, w2') →
  r = Some None ∧
  (∀ t' ev', t' ≤ answer (w_step w1) _ AskNow + LOCK_EXPIRY → ev' ∈ next_events t' (w_db w2) →
     (l_due ev', l_queue_id ev') ≠ (l_due ev, l_queue_id ev)).
Proof.
  intros Hh Hq Hscan Hle Hlt Hl1 Hh2 Hq2 Hev2 Hl2.
  apply (next_events_spec bincode_serialize b q) in Hscan as (Hev & Hexp & _); [|apply Hh|apply Hh|done].
  destruct (qk_event q Hq _ _ _ Hev) as (Hd & _ & [m Hm]).
  destruct (qk_message q Hq _ _ Hm) as [Hmid Hok].
  assert (uint_ok 64 (l_queue_id ev)) as Hid by (rewrite <-Hmid; apply Hok).
  apply (try_lock_spec bincode_serialize b q) in Hl1 as (_ & _ & [[? _]|(Heq & _)]); [done| |done..].
  injection Heq as ->. cbn [l_lock_expiry] in *.
  assert (u64_add (answer (w_step w1) Z AskNow) LOCK_EXPIRY = answer (w_step w1) Z AskNow + LOCK_EXPIRY) as Hadd.
  { unfold u64_add. apply wrap_small. pose proof (env_now (w_step w1)). unfold uint_ok, LOCK_EXPIRY in *. lia. }
  rewrite Hadd in *. split.
  - apply (try_lock_spec bincode_serialize b q2) in Hl2 as (_ & _ & [[-> _]|(_ & Hx & _)]); [done| |done..].
    rewrite Hev2 in Hx. injection Hx as Hx. unfold LOCK_EXPIRY in *. lia.
  - intros t' ev' Ht' Hin Heq.
    apply (next_events_spec bincode_serialize b q2) in Hin as (Hx & Hlk & _); [|apply Hh2|apply Hh2|done].
    injection Heq as E1 E2. rewrite E1, E2, Hev2 in Hx. injection Hx as Hx. lia.
Qed.

Section runs.
Context (N : nat).
Hypothesis blake3_length : ∀ l, length (blake3 l) = BLOB_HASH_LEN.
Hypothesis bincode_roundtrip : ∀ m, bincode_deserialize (bincode_serialize m) = Ok m.

(** C3: whatever sessions submit and whatever attempts do, in any order, the
    store holds a queue in which every message is well formed and has exactly
    one event, and every event has its message. *)
Theorem queue_invariant b q w w' :
  st N b q w → rtc queue_step w w' → (w_step w' ≤ N)%nat → ∃ q', holds b q' w' ∧ queue_ok q'.
Proof.
  intros Hst Hr HN.
  destruct (queue_run_spool N blake3 bincode_serialize bincode_deserialize blake3_length bincode_roundtrip
    b q w w' Hst Hr HN) as (q' & (Hh & Hq & _) & _). eauto.
Qed.

(** C2: every run of the code is a run of the specification [spool_step]:
    a step adds a message with its event, or it is an attempt at one message,
    which leaves the others alone but for the report it may queue, and after
    which the message is still locked, waits for one of its times or a
    throttle, or left with every recipient settled.  The messages that left
    are those the run removed, in that order. *)
Theorem queue_run_refines b q w w' :
  st N b q w → rtc queue_step w w' → (w_step w' ≤ N)%nat →
  ∃ q', holds b q' w' ∧ rtc spool_step (q, departed w) (q', departed w').
Proof.
  intros Hst Hr HN.
  destruct (queue_run_spool N blake3 bincode_serialize bincode_deserialize blake3_length bincode_roundtrip
    b q w w' Hst Hr HN) as (q' & (Hh & _ & _) & Hs). eauto.
Qed.

(** C1: no message is lost: after any run a message is in the queue, the same
    message with its recipients further on, or it is one of those that were
    removed, and then each of its recipients has a delivered status, or it
    failed for good, by its own refusal or by the failure of its domain, and
    is marked as reported, asked for no notification ever, or had itself been
    refused only for a while. *)
Theorem queue_loses_nothing b q w w' m :
  st N b q w → rtc queue_step w w' → (w_step w' ≤ N)%nat → q_messages q !! m_id m = Some m →
  ∃ q', holds b q' w' ∧ fate m (q', departed w').
Proof.
  intros Hst Hr HN Hm.
  destruct (queue_run_spool N blake3 bincode_serialize bincode_deserialize blake3_length bincode_roundtrip
    b q w w' Hst Hr HN) as (q' & (Hh & _ & _) & Hs). exists q'. split; [done|].
  eapply fate_run; [exact Hs|]. left. exists m. split; [done|apply evolves_refl].
Qed.
End runs.

(** C4: in any run a message leaves over a connection without TLS only if
    nobody asked for TLS (the settings of the host, the sender of the message,
    an MTA-STS policy or TLSA records), or TLS is switched off for the host. *)
Theorem transfers_protected w w' :
  rtc queue_step w w' → ∃ l, w_sent w' = w_sent w ++ l ∧ Forall sent_ok l.
Proof. intros [_ Hr]%queue_run_extends. done. Qed.

Section live.
Context `{!EnvTotal}.
Hypothesis blake3_length : ∀ l, length (blake3 l) = BLOB_HASH_LEN.
Hypothesis bincode_roundtrip : ∀ m, bincode_deserialize (bincode_serialize m) = Ok m.

(** C7: an attempt ends: it does not panic, whatever DNS, the other servers
    and the mailboxes answer. *)
Theorem attempt_ends b q ev w :
  holds b q w → queue_ok q → uint_ok 64 (l_due ev) → uint_ok 64 (l_queue_id ev) →
  ∃ w', try_deliver ev w = (Some tt, w').
Proof.
  intros Hh Hq Hd Hi. assert (is_Some (try_deliver ev w).1) as [[] Hs].
  2: { destruct (try_deliver ev w) as [o w']. cbn in Hs. subst. eauto. }
  unfold Delivery.try_deliver. destruct (try_lock_event ev w) as [o w1] eqn:Hl.
  destruct (try_lock_spec bincode_serialize b q ev w o w1 Hh Hq Hd Hi Hl)
    as (_ & _ & [[-> _]|(-> & Hev & Hh1)]); rewrite (bind_some _ _ _ _ _ Hl); [by eexists|].
  destruct (qk_event q Hq _ _ _ Hev) as (_ & _ & [m Hm]).
  destruct (qk_message q Hq _ _ Hm) as [Hid Hok]. cbn [l_queue_id].
  assert (read_message bincode_deserialize (l_queue_id ev) w1 = (Some (Some m), w1)) as Hread.
  { unfold read_message, bind, get_db. rewrite get_message_value.
    rewrite (rep_message _ _ _ (proj2 Hh1)) by (rewrite <-Hid; apply Hok).
    cbn [put_event q_messages]. rewrite Hm. cbn [fmap option_fmap option_map].
    by rewrite bincode_roundtrip. }
  rewrite (bind_some _ _ _ _ _ Hread). by apply process_total.
Qed.

Hypothesis available : @store_available DB Txn _ _ _ _.

(** C6: no message stays for ever: when all its domains have expired, its
    event is due and no lock is on it, the manager's next round starts an
    attempt at it, and that attempt, if nothing else wrote to the store since,
    removes the message and its event, with every recipient settled. *)
Theorem expired_message_leaves N b q m due lock manager w :
  st N b q w → q_messages q !! m_id m = Some m → q_events q !! (due, m_id m) = Some lock →
  (∀ n, (w_step w ≤ n)%nat → Forall (λ d, d_expires d ≤ answer n _ AskNow) (m_domains m) ∧
     due ≤ answer n _ AskNow ∧ lock < answer n _ AskNow) →
  let ev := {| l_due := due; l_queue_id := m_id m; l_lock_expiry := lock |} in
  ∃ started manager' w1, process_events manager w = (Some (started, manager'), w1) ∧ ev ∈ started ∧
    ∀ w2 r w', quiet w1 w2 → try_deliver ev w2 = (r, w') → (w_step w' ≤ N)%nat →
      r = Some tt ∧ ∃ q' m', holds b q' w' ∧ queue_ok q' ∧ q_messages q' !! m_id m = None ∧
        departed w' = departed w2 ++ [m'] ∧ evolves m m' ∧ Forall (settled (m_domains m')) (m_recipients m').
Proof.
  intros Hst Hm Hev Hclock ev.
  destruct (process_events_finds bincode_serialize b q ev manager w)
    as (started & manager' & w1 & Hp & Hin & Hq1); [apply Hst..|done| |].
  { intros n Hn. by destruct (Hclock n Hn) as (_ & ? & ?). }
  exists started, manager', w1. split_and!; [done..|]. intros w2 r w' Hq2 Hd HN.
  pose proof (quiet_trans _ _ _ Hq1 Hq2) as Hq12.
  pose proof (st_quiet _ _ _ _ _ _ Hst Hq12) as Hst2.
  pose proof (expired_spec N blake3 bincode_serialize bincode_deserialize blake3_length bincode_roundtrip
    available b q m lock due w2 Hst2 Hm Hev) as Hwp.
  destruct (wp_run _ _ _ _ _ (Hwp ltac:(intros n Hn; destruct (Hclock n) as [? _]; [|done];
    destruct Hq12 as (_ & _ & ? & _); lia)) Hd HN) as (-> & q' & m' & (Hh' & Hq' & _) & _ & Hevo & Hnone & Hset & Hleft).
  split; [done|]. by exists q', m'.
Qed.
End live.
End properties.

(** ** Runs on which the properties apply *)

Section server.
#[local] Instance server_env : Env := answers server.
#[local] Instance server_ok : EnvOk := answers_ok server ltac:(done).

Definition example_params : SessionParams := {|
  sp_hostname := str_bytes "mx.org"; sp_credentials := false; sp_is_smtp := true;
  sp_local_hostname := str_bytes "me" |}.
Lemma deliver_serves_witness :
  ∃ rs' w', deliver example_message 0 example_params [example_rcpt] example_world
    = (Some (Completed tt, rs'), w') ∧
    (∀ r, r ∈ rs' → rc_domain_idx r = 0%nat → is_final (rc_status r) = true) ∧
    ∃ dialogue caps, handled (w_blobs example_world) example_message 0 example_params caps dialogue
      [example_rcpt] rs'.
Proof.
  destruct (deliver example_message 0 example_params [example_rcpt] example_world) as [[[s rs']|] w'] eqn:Hd;
    [|vm_compute in Hd; discriminate Hd].
  assert (s = Completed tt) as -> by (vm_compute in Hd; congruence).
  exists rs', w'. split; [done|].
  destruct (deliver_serves example_message 0 example_params [example_rcpt] example_world (Completed tt) rs' w' Hd)
    as (dialogue & caps & _ & _ & Hh & _ & Hdone).
  split; [by apply Hdone|]. exists dialogue, caps. exact Hh.
Defined.
End server.

Section mailboxes.
#[local] Instance mailbox_env : Env := answers mailboxes.
#[local] Instance mailbox_ok : EnvOk := answers_ok mailboxes ltac:(done).
#[local] Instance mailbox_total : EnvTotal := answers_total mailboxes.

Definition example_data : SessionData := {| sd_priority := 0; sd_future_release := 0; sd_delivery_by := 0 |}.
Definition example_address (local domain : string) : SessionAddress := {|
  sa_address := str_bytes local ++ [64] ++ str_bytes domain;
  sa_address_lcase := str_bytes local ++ [64] ++ str_bytes domain;
  sa_domain := str_bytes domain; sa_flags := 0; sa_dsn_info := None |}.
Definition example_rcpts : list SessionAddress :=
  [example_address "b" "x"; example_address "c" "a"; example_address "a" "x"].
Lemma build_message_typed_witness :
  ∃ m w', build_message example_data (example_address "s" "y") example_rcpts 5 empty_world = (Some m, w') ∧
    NoDup (d_domain <$> m_domains m) ∧ length (m_domains m) = 2%nat.
Proof.
  destruct (build_message example_data (example_address "s" "y") example_rcpts 5 empty_world)
    as [[m|] w'] eqn:Hb; [|vm_compute in Hb; discriminate Hb].
  exists m, w'. split; [done|]. split.
  - apply (build_message_typed example_data (example_address "s" "y") example_rcpts 5 empty_world m w' Hb).
  - vm_compute in Hb. by injection Hb as <- _.
Defined.

Definition example_event : QueueEventLock := {| l_due := 50; l_queue_id := 7000; l_lock_expiry := 0 |}.
Lemma next_events_exact_witness : example_event ∈ next_events 200 (w_db example_world).
Proof.
  apply (next_events_exact serialize 0 example_queue example_world 200 example_holds example_queue_ok).
  split_and!; [done..|]. left. done.
Defined.

Lemma lock_exclusive_witness :
  ∃ ev1 w1, try_lock_event example_event example_world = (Some (Some ev1), w1) ∧
    (try_lock_event example_event w1).1 = Some None.
Proof.
  destruct (try_lock_event example_event example_world) as [[[ev1|]|] w1] eqn:Hl;
    [|vm_compute in Hl; discriminate Hl..].
  exists ev1, w1. split; [done|].
  destruct (try_lock_event example_event w1) as [r w2] eqn:Hl2. cbn [fst].
  pose proof Hl as Hs. apply (try_lock_spec serialize 0 example_queue) in Hs
    as (_ & _ & [[? _]|(Heq & _ & Hh1)]); [done| |apply example_holds|apply example_queue_ok|done..].
  injection Heq as Heq.
  refine (proj1 (lock_exclusive serialize 0 example_queue
    (put_event 50 7000 (l_lock_expiry ev1) example_queue) 200 example_event example_world ev1 w1 w1 r w2
    example_holds example_queue_ok _ _ _ Hl _ _ _ Hl2)).
  - apply list_elem_of_In. vm_compute. by left.
  - by vm_compute.
  - by vm_compute.
  - rewrite Heq. exact Hh1.
  - eapply queue_ok_lock; [apply example_queue_ok|done|]. rewrite Heq. apply u64_add_ok.
  - cbn. by rewrite lookup_insert_eq.
Defined.

(** A session submits a message to an empty queue, and an attempt is made. *)
Definition run_step {A} (p : Q LogDb.DB Blobs A) (w : world LogDb.DB Blobs) : world LogDb.DB Blobs := (p w).2.
Definition run_started : world LogDb.DB Blobs := run_step (question AskId) empty_world.
Definition run_built : option Message * world LogDb.DB Blobs :=
  build_message example_data (example_address "s" "y") example_rcpts (new_id 0) run_started.
Definition run_message : Message := default example_message run_built.1.
Definition run_accepted : world LogDb.DB Blobs :=
  run_step (submit fake_blake3 serialize [] [] [] run_message [72; 58; 10] [66]) run_built.2.
Definition run_event : QueueEventLock := {| l_due := 200; l_queue_id := 0; l_lock_expiry := 0 |}.
Definition run_end : world LogDb.DB Blobs :=
  run_step (Delivery.try_deliver fake_blake3 serialize deserialize run_event) run_accepted.

Lemma no_quota_checks m : quota_checks [] [] [] m = [].
Proof. done. Qed.
Lemma run_started_quiet : quiet empty_world run_started.
Proof. exact (question_quiet AskId empty_world). Qed.
Lemma run_built_message :
  build_message example_data (example_address "s" "y") example_rcpts (new_id 0) run_started
  = (Some run_message, run_built.2).
Proof. vm_compute. reflexivity. Qed.
Lemma example_run : rtc (queue_step fake_blake3 serialize deserialize) empty_world run_end.
Proof.
  apply (rtc_l _ _ run_accepted).
  - eapply (step_accept _ _ _ _ 0 example_data (example_address "s" "y") example_rcpts run_message
      run_started run_built.2 run_built.2 [] [] [] [72; 58; 10] [66]).
    + exact run_started_quiet.
    + cbn. lia.
    + exact run_built_message.
    + apply quiet_refl.
    + rewrite no_quota_checks. cbn. lia.
    + exact (surjective_pairing (submit fake_blake3 serialize [] [] [] run_message [72; 58; 10] [66] run_built.2)).
  - eapply rtc_once, (step_attempt _ _ _ _ run_event).
    + cbn. unfold uint_ok. lia.
    + cbn. unfold uint_ok. lia.
    + exact (surjective_pairing (Delivery.try_deliver fake_blake3 serialize deserialize run_event run_accepted)).
Qed.
Lemma example_run_short : (w_step run_end ≤ 1000)%nat.
Proof. apply Nat.leb_le. vm_compute. reflexivity. Qed.

Lemma queue_invariant_witness : ∃ q', holds serialize 0 q' run_end ∧ queue_ok q'.
Proof.
  exact (queue_invariant fake_blake3 serialize deserialize 1000 fake_blake3_length serialize_roundtrip
    0 empty_queue empty_world run_end (empty_st mailboxes) example_run example_run_short).
Defined.
Lemma queue_run_refines_witness : ∃ q', holds serialize 0 q' run_end ∧ rtc spool_step (empty_queue, []) (q', departed run_end).
Proof.
  exact (queue_run_refines fake_blake3 serialize deserialize 1000 fake_blake3_length serialize_roundtrip
    0 empty_queue empty_world run_end (empty_st mailboxes) example_run example_run_short).
Defined.
Definition attempt_end : world LogDb.DB Blobs :=
  run_step (Delivery.try_deliver fake_blake3 serialize deserialize example_event) example_world.
Lemma attempt_run : rtc (queue_step fake_blake3 serialize deserialize) example_world attempt_end.
Proof.
  eapply rtc_once, (step_attempt _ _ _ _ example_event).
  - cbn. unfold uint_ok. lia.
  - cbn. unfold uint_ok. lia.
  - exact (surjective_pairing (Delivery.try_deliver fake_blake3 serialize deserialize example_event example_world)).
Qed.
Lemma queue_loses_nothing_witness : ∃ q', holds serialize 0 q' attempt_end ∧ fate example_message (q', departed attempt_end).
Proof.
  refine (queue_loses_nothing fake_blake3 serialize deserialize 1000 fake_blake3_length serialize_roundtrip
    0 example_queue example_world attempt_end example_message (example_st mailboxes) attempt_run _ _).
  - apply Nat.leb_le. vm_compute. reflexivity.
  - by vm_compute.
Defined.
Lemma attempt_ends_witness :
  ∃ w', Delivery.try_deliver fake_blake3 serialize deserialize example_event example_world = (Some tt, w').
Proof.
  exact (attempt_ends fake_blake3 serialize deserialize serialize_roundtrip 0 example_queue example_event
    example_world example_holds example_queue_ok ltac:(done) ltac:(done)).
Defined.
Lemma expired_message_leaves_witness :
  ∃ started manager' w1, process_events manager_new example_world = (Some (started, manager'), w1) ∧
    example_event ∈ started ∧
    ∃ q', holds serialize 0 q' (run_step (Delivery.try_deliver fake_blake3 serialize deserialize example_event) w1) ∧
      q_messages q' !! 7000 = None.
Proof.
  destruct (expired_message_leaves fake_blake3 serialize deserialize fake_blake3_length serialize_roundtrip
    log_available 1000 0 example_queue example_message 50 0 manager_new example_world (example_st mailboxes))
    as (started & manager' & w1 & Hp & Hin & Hlater); [by vm_compute..| |].
  { intros n _. split; [|by vm_compute]. constructor; [by vm_compute|constructor]. }
  exists started, manager', w1. split_and!; [done..|].
  destruct (Delivery.try_deliver fake_blake3 serialize deserialize example_event w1) as [r w'] eqn:Hd.
  destruct (Hlater w1 r w' (quiet_refl _) Hd) as (_ & q' & m' & Hh & _ & Hnone & _).
  - pose proof (f_equal snd Hp) as Hw1. pose proof (f_equal snd Hd) as Hw'. cbn [snd] in Hw1, Hw'.
    rewrite <-Hw', <-Hw1. apply Nat.leb_le. vm_compute. reflexivity.
  - exists q'. unfold run_step. rewrite Hd. exact (conj Hh Hnone).
Defined.
End mailboxes.

(** A server that offers no TLS and takes the connection: the message of the
    queue, for which nobody asked for TLS, is handed to it in the clear. *)
Section greeter.
Definition greeter : Peer := {|
  pe_now := 70; pe_relay := Some smtp_host; pe_ingest := None; pe_ehlo := inr EXT_CHUNKING;
  pe_reply := inr {| code := 220; Smtp.esc := (2, 0, 0); r_message := [] |}; pe_tls := None |}.
#[local] Instance greeter_env : Env := answers greeter.
#[local] Instance greeter_ok : EnvOk := answers_ok greeter ltac:(done).

Definition greeted : world LogDb.DB Blobs :=
  run_step (Delivery.try_deliver fake_blake3 serialize deserialize example_event) example_world.
Definition transfers (l : list Sent) : list (Z * bool) :=
  omap (λ s, match s with Transferred m _ secure _ _ => Some (m_id m, secure) | _ => None end) l.
Lemma greeted_run : rtc (queue_step fake_blake3 serialize deserialize) example_world greeted.
Proof.
  eapply rtc_once, (step_attempt _ _ _ _ example_event).
  - cbn. unfold uint_ok. lia.
  - cbn. unfold uint_ok. lia.
  - exact (surjective_pairing (Delivery.try_deliver fake_blake3 serialize deserialize example_event example_world)).
Qed.
Lemma greeted_transfers : transfers (w_sent greeted) = [(7000, false)].
Proof. vm_compute. reflexivity. Qed.
Lemma transfers_protected_witness :
  ∃ l, w_sent greeted = w_sent example_world ++ l ∧ Forall sent_ok l ∧ transfers l = [(7000, false)].
Proof.
  destruct (transfers_protected fake_blake3 serialize deserialize example_world greeted greeted_run) as (l & Hl & Hok).
  exists l. split_and!; [exact Hl|exact Hok|]. rewrite <-greeted_transfers, Hl. reflexivity.
Defined.
End greeter.
