(* ===== verification/SmtpFindings.v ===== *)
(** * Behaviours of the queue that surprise *)

From stdpp Require Import base gmap sorting strings numbers list.
From S2P Require Import Prelude Codec Keys KeyTheory Roaring Kv KvModel Batch Commit CommitTheory Read Store Query Blob Smtp SmtpSpool SmtpDsn SmtpSession SmtpDelivery SmtpLogic SmtpStoreTheory SmtpPartyTheory SmtpQueueTheory SmtpExample.
Import Smtp Spool Dsn Session Delivery.
Open Scope Z_scope.
Open Scope queue_scope.

Definition at_world (db : LogDb.DB) : world LogDb.DB Blobs :=
  {| w_db := db; w_blobs := {[fake_blake3 [1] := [1]]}; w_step := 0; w_sent := [] |}.

Section mailboxes.
#[local] Instance findings_env : Env := answers mailboxes.

(** A recipient that was refused for a while, whose domain then fails for
    good: the sender is not told, and nothing is left to be done. *)
Definition deferred_rcpt : Recipient :=
  set_rc_status (TemporaryFailure {| Smtp.hostname := {| entity := []; details := [] |};
                                     response := {| code := 451; esc := (4, 0, 0); r_message := [] |} |})
    example_rcpt.
Definition failed_message : Smtp.Message :=
  set_parties [set_d_notify {| s_due := 900; s_inner := 0 |}
                 (set_d_status (PermanentFailure (DnsError (str_bytes "Domain not found"))) example_domain)]
    [deferred_rcpt] example_message.
Example deferred_rcpt_not_reported :
  (build_dsn (DB:=LogDb.DB) failed_message (at_world [])).1 = Some (None, failed_message) ∧
  next_event 200 failed_message = None.
Proof. by vm_compute. Qed.

(** A saved message gives up the quotas of what is done, and the counters keep
    them: the batch with the releases is not the one that is written. *)
Definition quota_message : Smtp.Message :=
  set_quota_keys [QCount (str_bytes "k") 1]
    (set_recipients [set_rc_status (Completed {| Smtp.hostname := []; response := ok_reply |}) example_rcpt]
      example_message).
Definition quota_db : LogDb.DB :=
  [(cell (Queue (QuotaCount (str_bytes "k"))), Some (i64_to_le 1))].
Example saved_quota_kept :
  let w := (save_changes serialize quota_message None (at_world quota_db)).2 in
  get_counter (w_db w) (queue_key (QuotaCount (str_bytes "k"))) = Ok 1 ∧
  (m_quota_keys <$> (read_message (Txn:=LogDb.Txn) deserialize 7000 w).1 ≫= id) = Some [].
Proof. vm_compute. by split. Qed.

(** When the only event is locked, as after a crash, the manager does not wait
    for the lock to expire but for a year. *)
Example locked_event_not_awaited :
  (λ r, next_wake_up r.2) <$>
    (process_events (Txn:=LogDb.Txn) manager_new (at_world [(event_cell 50 7000, Some (to_be_bytes 8 210))])).1
  = Some LONG_WAIT.
Proof. by vm_compute. Qed.

(** An attempt at an event whose message cannot be decoded drops the event:
    the message is never tried again. *)
Definition corrupt_db : LogDb.DB :=
  [(message_cell 7000, Some [7; 7]); (event_cell 50 7000, Some (to_be_bytes 8 0))].
Example unreadable_message_dropped :
  let w := (try_deliver fake_blake3 serialize (λ _, Err (InternalError "decode"))
              {| l_due := 50; l_queue_id := 7000; l_lock_expiry := 0 |} (at_world corrupt_db)).2 in
  db_map (w_db w) !! event_cell 50 7000 = None ∧ db_map (w_db w) !! message_cell 7000 = Some [7; 7].
Proof. vm_compute. by split. Qed.
End mailboxes.

(** A host for which TLS is switched off gets a message with [REQUIRETLS] in
    the clear. *)
Definition clear_server : Peer := {|
  pe_now := 200; pe_relay := Some smtp_host; pe_ingest := None; pe_ehlo := inr EXT_CHUNKING;
  pe_reply := inr {| code := 220; esc := (2, 0, 0); r_message := [] |}; pe_tls := Some Disable |}.
Section clear.
#[local] Instance clear_env : Env := answers clear_server.
Definition requiretls_message : Smtp.Message :=
  {| m_id := 7000; m_created := 50; m_blob_hash := fake_blake3 [1]; m_return_path := str_bytes "a@y";
     m_return_path_lcase := str_bytes "a@y"; m_return_path_domain := str_bytes "y";
     m_recipients := [example_rcpt]; m_domains := [example_domain]; m_flags := MAIL_REQUIRETLS;
     m_env_id := None; m_priority := 0; m_size := 1; m_quota_keys := [] |}.
Example requiretls_sent_in_clear :
  omap (λ s, match s with Transferred m _ secure _ _ => Some (m_flags m, secure) | _ => None end)
    (w_sent (deliver_domain (DB:=LogDb.DB) requiretls_message [example_rcpt] [] 0 (at_world [])).2)
  = [(MAIL_REQUIRETLS, false)].
Proof. vm_compute. reflexivity. Qed.
End clear.
